(* ===== verification/_CoqProject ===== *)
-Q . S2P
Prelude.v
Chrono.v
Postgres.v
Effects.v
Text.v
Json.v
ExampleCodec.v
AuthorizationDetails.v
UriPolicy.v
AuthorizationPolicy.v
AuthorizationPolicyFacts.v
Valkey.v
RuntimeModel.v
RuntimeLeases.v
RuntimeRegistry.v
RuntimeRegistryFacts.v
RuntimeRepository.v
PostgresModules.v
PostgresModulesFacts.v
DeviceGrant.v
DeviceGrantFacts.v
ValkeyDevice.v
ValkeyDeviceFacts.v
Dpop.v
ValkeyReplay.v
DpopFacts.v
CibaGrant.v
CibaGrantFacts.v
ValkeyCiba.v
ValkeyCibaFacts.v
AuthorizationFlow.v
PostgresDecisions.v
PostgresDecisionsFacts.v
PostgresGrants.v
PostgresGrantsFacts.v
TokenModel.v
CodeRedemption.v
CodeRedemptionFacts.v
AuthorizationWorld.v
AuthorizationFlowFacts.v
AuthorizationProperties.v
ValkeyAuthorization.v
ValkeyAuthorizationFacts.v
PostgresTokens.v
PostgresTokensSteps.v
PostgresTokensFacts.v
PostgresTokensRefusals.v
PostgresTokensProperties.v
