(* ===== verification/Prelude.v ===== *)
(** * A verification of NazoAuth

    NazoAuth is an OAuth 2.1 / OpenID Connect authorization server in Rust.
    This library models parts of it, definition by definition, and proves what
    they promise.  A pure function of the source is a function here; a service
    written against port traits is a program over an effect signature
    ([Effects]), one constructor per trait method; fallible code returns
    [result] or [option]; integers are kept at their width; code of other crates
    (serde_json, url, uuid, chrono's text, blake3, base64, the Valkey and
    PostgreSQL servers) is a parameter with its documented behaviour as named
    hypotheses, and each theorem that has such a hypothesis comes with a witness
    that instantiates it.

    ** Shared files

    - [Prelude]: Rust's [Result] and [Option], machine integers, the tactics and
      lemmas the other files share.
    - [Effects]: programs, their execution ([run]), their interleavings over one
      world ([pool_steps]), a rely-guarantee weakest precondition ([wp]) and
      the simulation lemmas that carry interleavings across a refinement, where
      needed for programs that keep to a port's rules ([obeys]); programs over
      several ports ([translate]), and what a program's calls rest on
      ([justified_trace]).
    - [Text], [Json]: [str] operations on UTF-8 bytes, [serde_json::Value].
    - [Chrono], [Postgres]: identifiers and times ([uuid], [chrono]); the errors
      of the repositories, and transactions whose statements and commit may fail.
    - [ExampleCodec]: a text codec, used by witnesses only.
    - [Valkey]: the class of Valkey servers the stores run their scripts on.

    ** Runtime modules (crates/runtime-capabilities)

    Optional features are modules that are switched on and off at run time.
    - [RuntimeModel]: model.rs, transition.rs, policy.rs, catalog.rs.  The
      dependency check accepts exactly the acyclic graphs; built catalogs are
      complete.
    - [RuntimeLeases]: snapshot.rs, lease.rs.  Admission snapshots and request
      leases as a step system: a drained module stays idle, no wake-up is lost,
      publication is linearizable and terminates.
    - [RuntimeRegistry], [RuntimeRegistryFacts]: registry/, reconcile.rs.
      Reconciliation fails closed whatever the repository answers, in all but four
      cases that its theorem states.
    - [RuntimeRepository]: repository.rs.  The repository as a type class with
      its laws; changes of the desired state keep dependencies enabled.
    - [PostgresModules], [PostgresModulesFacts]
      (crates/persistence-postgres, repositories/runtime_modules, audit.rs): the
      repository at row level, an instance of the laws; the audit events read
      back.

    ** Authorization requests (crates/authorization-server-core)

    - [AuthorizationDetails]: authorization_details.rs.
    - [UriPolicy]: uri_policy.rs, resource_indicator.rs.
    - [AuthorizationPolicy], [AuthorizationPolicyFacts]: authorization_policy.rs
      with the functions of oauth_parameters.rs and claims.rs it calls.
    The theorems are equivalences with declarative policies: which details,
    URLs, resources and requests are accepted, where a response may go, when a
    session satisfies a request.

    ** Device authorization (crates/authorization-server-core,
       crates/state-store-valkey)

    - [DeviceGrant], [DeviceGrantFacts]: device.rs.  The services over any store
      that honours its compare-and-set contract, with expiries and failed calls:
      states only move forward, an approved poll rests on a recorded grant,
      polling is paced, requests are scoped.
    - [ValkeyDevice], [ValkeyDeviceFacts]: the store on Valkey, its Lua scripts
      included.  It refines the contract, so the guarantees hold of the services
      over Valkey; no call extends an authorization's lifetime.

    ** Backchannel authentication (crates/authorization-server-core, ciba.rs and
       ciba_ping.rs; crates/authorization-server, workers/ciba_ping.rs)

    - [CibaGrant]: the request state, the evaluations, the shape checks, the
      service over its state-store port, and the delivery of one notification.
    - [CibaGrantFacts]: over any store that honours the port's compare-and-set
      contract, with expiries, failed calls and a delivery worker in the
      background, requests only move forward and an approved poll rests on the
      decision of the request's user; polling is paced; each delivery of a
      notification records one outcome, by the schedule of retries.
    - [ValkeyCiba], [ValkeyCibaFacts]: the store on Valkey behind the port
      (crates/state-store-valkey, ciba.rs).  It refines the contract for the
      versions it issues, which are the ones the services use, so the guarantees
      hold over Valkey.  The two queue scripts of the delivery worker re-encode
      states with Lua's JSON library and are not modelled; what they may do is the
      background step of the theorems.

    ** Authorization decisions and codes (crates/authorization-server-core,
       authorization_service.rs, transaction.rs; crates/authorization-server,
       domain/authorization_decision.rs, authorization/request/prompt_none.rs,
       token/authorization_code.rs; crates/persistence-postgres,
       authorization_flow.rs, grants.rs; crates/state-store-valkey,
       authorization.rs; migrations)

    - [AuthorizationFlow]: consents, codes and decisions; the decision of a user
      and the silent authorization, as programs over their ports ([decE]).
    - [PostgresDecisions], [PostgresDecisionsFacts]: the commit of a decision, its
      SQL function, the ledger's export and clean-up; what a commit does on every
      branch, and which decisions fence one another.
    - [PostgresGrants], [PostgresGrantsFacts]: grants and device approvals.  An
      approval is counted once while receipts are inserted before their deadline;
      the code does not ensure that, and a clean-up in between lets it be counted
      twice.
    - [CodeRedemption], [CodeRedemptionFacts]: the exchange of a code, as a program
      over its ports ([redE]); what each of its calls rests on.
    - [AuthorizationWorld]: one world under decisions, silent authorizations and
      exchanges: the tables, the stored codes, the log of committed decisions and
      the issuances.  Calls fail, replies are lost, the ledger is exported and
      reclaimed in the background.
    - [AuthorizationFlowFacts], [AuthorizationProperties]: in every interleaving a
      request is decided once, a code is exchanged once, and an issuance rests on
      a committed decision and on the checks of its exchange.
    - [ValkeyAuthorization], [ValkeyAuthorizationFacts]: the store of consents,
      pushed requests and codes on Valkey, its Lua scripts included; it refines the
      world's stores, so the guarantees hold over Valkey.
    Generated codes and event identifiers are assumed new, BLAKE3 not to collide
    where it is a key.  The issuance itself is a port of the exchange; its commit
    is the subject of the next part.

    ** Token issuance (crates/persistence-postgres, repositories tokens.rs,
       token_issuance.rs, token_principals.rs, access_token_revocation.rs,
       security_state.rs; migrations)

    - [TokenModel]: the types of token.rs and token_service.rs with their checks.
    - [PostgresTokens]: the tables, the transactions, and every statement that
      writes refresh tokens or issuances, the SQL functions included: the commit
      of an issuance, rotation, reuse detection, revocation, recovery, clean-up.
    - [PostgresTokensSteps]: histories.  Every operation is a sequence of labelled
      changes of the tables; transactions take effect one after another, each may
      fail at any statement or at its commit, and clock readings do not go back
      from one operation to the next.
    - [PostgresTokensFacts]: the invariants along every history.
    - [PostgresTokensRefusals]: the condition on the tables behind each result of a
      commit, from the principals to the native-SSO source.
    - [PostgresTokensProperties]: a refresh token is exchanged once, apart from the
      one retry of a lost response within its window, which replaces the successor
      nobody has used, and its reuse compromises the family; a single-use grant is
      redeemed at most once although its receipts are reclaimed; a family never
      gains authority; the tables stay well-formed; families and proofs are
      bounded; every result of a commit has its cause and a refusal leaves nothing
      behind; a committed token reads back.
    Generated member identifiers and token digests are assumed new, and issued
    contracts not to collide under BLAKE3 (hypotheses where they are used).  The subject
    that the prepared lookup joins for the caller, the owner-wide revocation of
    access tokens and the services that call the repositories are not modelled.

    ** Proofs of possession and replay (crates/authorization-server-core,
       dpop.rs; crates/authorization-server, security/dpop.rs;
       crates/state-store-valkey, replay.rs)

    - [Dpop]: the verification of a DPoP proof, the nonce policy, the admission
      against the replay store, the target of a request; of crates/crypto, the
      signature check.  Deserialization is modelled on the tree of the JSON text.
    - [ValkeyReplay]: the replay store, every operation, with its keys, commands
      and scripts; Lua's numbers are doubles.
    - [DpopFacts]: verification accepts exactly a declarative set of requests; a
      proof is admitted at most once without an access token and once with the
      token it names while its window is open, in every interleaving; request objects and attestation proofs are accepted once for
      all.  The nodes' clocks are ahead of the server's by a bounded amount, and
      the server's other clients keep live markers.

    ** Fuel and bounds

    Retry loops carry the bound of the source.  [RuntimeModel]'s graph search
    and the publication loop take fuel, with theorems that say how much is
    enough; [Text]'s scanners take the length of the text, which every step
    shortens.

    ** Not modelled

    HTTP adapters, configuration and process bootstrap (I/O), cryptographic
    primitives and token signing (other crates), and, so far, the assembly of token
    responses, the logout services, identity management, verifiable credentials
    and the remaining repositories and stores. *)
From stdpp Require Import base list strings gmap.
From Stdlib Require Import ZArith Lia.

Open Scope Z_scope.

(** ** Rust's [Result] *)

Inductive result (T E : Type) : Type :=
| Ok (value : T)
| Err (error : E).
Arguments Ok {T E} value.
Arguments Err {T E} error.

Definition map_err {T E F} (f : E → F) (r : result T E) : result T F :=
  match r with Ok v => Ok v | Err e => Err (f e) end.

Definition map_ok {T U E} (f : T → U) (r : result T E) : result U E :=
  match r with Ok v => Ok (f v) | Err e => Err e end.

Definition ok_or {T E} (o : option T) (e : E) : result T E :=
  match o with Some v => Ok v | None => Err e end.

Definition is_ok {T E} (r : result T E) : bool :=
  match r with Ok _ => true | Err _ => false end.

Definition ok {T E} (r : result T E) : option T :=
  match r with Ok v => Some v | Err _ => None end.

#[export] Instance result_eq_dec {T E} `{EqDecision T, EqDecision E} : EqDecision (result T E).
Proof. solve_decision. Defined.

Declare Scope rust_scope.
Delimit Scope rust_scope with rust.

(** [let? x := e in k] is [let x = e?; k] in a function returning a [Result]. *)
Notation "'let?' x ':=' e 'in' k" :=
  (match e with Ok x => k | Err err => Err err end)
  (at level 10, x binder, e at level 100, k at level 200) : rust_scope.

(** ** [Option] combinators *)

Definition is_some_and {A} (o : option A) (p : A → bool) : bool :=
  match o with Some a => p a | None => false end.

Definition is_none_or {A} (o : option A) (p : A → bool) : bool :=
  match o with Some a => p a | None => true end.

Definition is_some {A} (o : option A) : bool := is_some_and o (fun _ => true).
Definition is_none {A} (o : option A) : bool := negb (is_some o).

Definition unwrap_or {A} (o : option A) (d : A) : A := match o with Some a => a | None => d end.

(** ** Machine integers, kept as [Z] with their width written out *)

Definition U64_MAX : Z := 2 ^ 64 - 1.
Definition U32_MAX : Z := 2 ^ 32 - 1.
Definition I64_MAX : Z := 2 ^ 63 - 1.
Definition I64_MIN : Z := - 2 ^ 63.

Definition in_u64 (z : Z) : Prop := 0 ≤ z ≤ U64_MAX.
Definition in_u32 (z : Z) : Prop := 0 ≤ z ≤ U32_MAX.
Definition in_i64 (z : Z) : Prop := I64_MIN ≤ z ≤ I64_MAX.

Definition clamp (lo hi z : Z) : Z := Z.max lo (Z.min hi z).

Definition u64_saturating_add (a b : Z) : Z := clamp 0 U64_MAX (a + b).
Definition u64_saturating_mul (a b : Z) : Z := clamp 0 U64_MAX (a * b).
Definition u32_saturating_add (a b : Z) : Z := clamp 0 U32_MAX (a + b).
Definition i64_saturating_add (a b : Z) : Z := clamp I64_MIN I64_MAX (a + b).
Definition i64_saturating_sub (a b : Z) : Z := clamp I64_MIN I64_MAX (a - b).

Definition u64_checked_add (a b : Z) : option Z :=
  if a + b <=? U64_MAX then Some (a + b) else None.

Definition i64_try_from_u64 (z : Z) : option Z := if z <=? I64_MAX then Some z else None.
Definition u64_try_from_i64 (z : Z) : option Z := if 0 <=? z then Some z else None.

(** ** Tactics *)

Ltac boolify :=
  repeat match goal with
  | H : (_ && _)%bool = true |- _ => apply andb_true_iff in H as [? ?]
  | H : (_ || _)%bool = false |- _ => apply orb_false_iff in H as [? ?]
  | H : negb _ = true |- _ => apply negb_true_iff in H
  | H : negb _ = false |- _ => apply negb_false_iff in H
  | H : (_ <=? _) = true |- _ => apply Z.leb_le in H
  | H : (_ <=? _) = false |- _ => apply Z.leb_gt in H
  | H : (_ <? _) = true |- _ => apply Z.ltb_lt in H
  | H : (_ <? _) = false |- _ => apply Z.ltb_ge in H
  | H : (_ =? _) = true |- _ => apply Z.eqb_eq in H
  | H : (_ =? _) = false |- _ => apply Z.eqb_neq in H
  | H : bool_decide _ = true |- _ => apply bool_decide_eq_true in H
  | H : bool_decide _ = false |- _ => apply bool_decide_eq_false in H
  end.

(** ** Facts about integers and lists *)

Create HintDb rust discriminated.

Lemma clamp_range lo hi z : lo ≤ hi → lo ≤ clamp lo hi z ≤ hi.
Proof. unfold clamp. lia. Qed.

Lemma u64_saturating_add_range a b : in_u64 (u64_saturating_add a b).
Proof. apply clamp_range. unfold U64_MAX. lia. Qed.

Lemma u32_saturating_add_range a b : in_u32 (u32_saturating_add a b).
Proof. apply clamp_range. unfold U32_MAX. lia. Qed.

Lemma i64_saturating_sub_range a b : in_i64 (i64_saturating_sub a b).
Proof. apply clamp_range. unfold I64_MIN, I64_MAX. lia. Qed.

#[export] Hint Resolve u64_saturating_add_range u32_saturating_add_range
  i64_saturating_sub_range : rust.

Lemma map_err_Ok {T E F} (g : E → F) (r : result T E) a : map_err g r = Ok a ↔ r = Ok a.
Proof. destruct r; naive_solver. Qed.

Lemma ok_or_Ok {T E} (o : option T) (e : E) a : ok_or o e = Ok a ↔ o = Some a.
Proof. destruct o; naive_solver. Qed.

Lemma u64_checked_add_Some a b c :
  u64_checked_add a b = Some c → c = a + b ∧ c ≤ U64_MAX.
Proof. unfold u64_checked_add. case_match; intros; simplify_eq; boolify; auto. Qed.

(** [iter().find(p)] when at most one element satisfies [p]. *)
Lemma head_filter_unique {A} (P : A → Prop) `{∀ x, Decision (P x)} (l : list A) x :
  x ∈ l → P x → (∀ y, y ∈ l → P y → y = x) → head (filter P l) = Some x.
Proof.
  intros Hx HP Hu. destruct (filter P l) as [|y l'] eqn:Hf; simpl.
  - assert (Hin : x ∈ filter P l) by by apply list_elem_of_filter.
    rewrite Hf in Hin. set_solver.
  - assert (Hin : y ∈ filter P l) by (rewrite Hf; set_solver).
    apply list_elem_of_filter in Hin as [? ?]. f_equal. auto.
Qed.

Lemma head_filter_none {A} (P : A → Prop) `{∀ x, Decision (P x)} (l : list A) :
  (∀ y, y ∈ l → ¬ P y) → head (filter P l) = None.
Proof.
  intros Hn. destruct (filter P l) as [|y l'] eqn:Hf; [done|].
  assert (Hin : y ∈ filter P l) by (rewrite Hf; set_solver).
  apply list_elem_of_filter in Hin as [? ?]. by destruct (Hn y).
Qed.
