(* ===== verification/Chrono.v ===== *)
(** * Times and identifiers

    [chrono] and [uuid] as the program uses them.  [DateTime<Utc>] is a
    nanosecond count with [chrono]'s documented limits written out; a [Uuid] is
    its number. *)
From stdpp Require Import base numbers.
From S2P Require Import Prelude.

Notation Uuid := Z (only parsing).
Notation DateTime := Z (only parsing).

(** [Uuid::is_nil] *)
Definition is_nil (u : Uuid) : bool := u =? 0.
Definition valid_uuid (u : Uuid) : Prop := 0 ≤ u < 2 ^ 128.

Definition NANOS : Z := 1000000000.

(** [DateTime::<Utc>::MAX_UTC], the last instant of the year 262142. *)
Definition MAX_UTC : Z := 8210266876799 * NANOS + 999999999.

(** [DateTime::<Utc>::MIN_UTC], the first instant of the year -262143. *)
Definition MIN_UTC : Z := -8334601228800 * NANOS.

Definition valid_time (t : DateTime) : Prop := MIN_UTC ≤ t ≤ MAX_UTC.

(** [Duration::seconds], which panics beyond [i64::MAX] milliseconds. *)
Definition duration_seconds (s : Z) : option Z :=
  if (- (I64_MAX / 1000) <=? s) && (s <=? I64_MAX / 1000) then Some (s * NANOS) else None.

Definition checked_add_signed (t d : Z) : option Z :=
  if t + d <=? MAX_UTC then Some (t + d) else None.

(** [a.signed_duration_since(b).num_seconds()], whole seconds towards zero. *)
Definition seconds_since (a b : Z) : Z := Z.quot (a - b) NANOS.

(** [DateTime::from_timestamp(s, 0)] and [DateTime::timestamp], whole seconds
    rounded down. *)
Definition from_timestamp (s : Z) : option DateTime :=
  if (MIN_UTC <=? s * NANOS) && (s * NANOS <=? MAX_UTC) then Some (s * NANOS) else None.

Definition timestamp (t : DateTime) : Z := t / NANOS.
