(* ===== verification/Postgres.v ===== *)
(** * What the PostgreSQL repositories share

    The error type of the repositories ([crates/identity/src/ports/common.rs]),
    [Option]/[Vec] of results, and transactions: functions on the tables that may
    fail at every statement and roll back on error ([txn], [transaction]). *)
From stdpp Require Import base list strings.
From S2P Require Import Prelude.

Local Open Scope rust_scope.
Local Open Scope string_scope.

(** [nazo_identity::ports::RepositoryError] *)
Inductive RepositoryError :=
| Unavailable
| Conflict
| AlreadyProcessed
| NotFound
| Consistency (message : string)
| Unexpected (message : string).

(** [Display for RepositoryError] *)
Definition repository_error_text (e : RepositoryError) : string :=
  match e with
  | Unavailable => "repository unavailable"
  | Conflict => "repository conflict"
  | AlreadyProcessed => "repository value already processed"
  | NotFound => "repository value not found"
  | Consistency message => "repository consistency error: " +:+ message
  | Unexpected message => "unexpected repository error: " +:+ message
  end.

(** [Option<Result>::transpose] and [collect::<Result<Vec<_>, _>>]. *)
Definition transpose {A E} (o : option (result A E)) : result (option A) E :=
  match o with
  | None => Ok None
  | Some (Ok a) => Ok (Some a)
  | Some (Err e) => Err e
  end.

Fixpoint collect {A E} (l : list (result A E)) : result (list A) E :=
  match l with
  | [] => Ok []
  | r :: l => let? a := r in let? rest := collect l in Ok (a :: rest)
  end.

(** ** Statements and transactions *)

(** [diesel::result::Error], as far as the program tells its cases apart. *)
Inductive DieselError :=
| UniqueViolation
| DatabaseError (text : string)
| DieselNotFound
| RollbackTransaction
| DeserializationError (text : string)
| SerializationError (text : string).

(** The failures of a transaction's statements, in order: [Some e] when the
    statement fails with [e]. *)
Definition Faults : Type := list (option DieselError).

(** A transaction over the tables [T]. *)
Definition txn (T E A : Type) : Type := Faults → T → result (A * (Faults * T)) E.

Definition tx_ret {T E A} (a : A) : txn T E A := fun faults t => Ok (a, (faults, t)).

Definition tx_bind {T E A B} (m : txn T E A) (k : A → txn T E B) : txn T E B :=
  fun faults t => match m faults t with
                  | Ok (a, (faults', t')) => k a faults' t'
                  | Err e => Err e
                  end.

Definition tx_err {T E A} (e : E) : txn T E A := fun _ _ => Err e.

Definition tx_lift {T E A} (r : result A E) : txn T E A :=
  match r with Ok a => tx_ret a | Err e => tx_err e end.

Definition tx_map_err {T E F A} (f : E → F) (m : txn T E A) : txn T F A :=
  fun faults t => map_err f (m faults t).

Declare Scope tx_scope.
Delimit Scope tx_scope with tx.
Notation "'let!' x ':=' e 'in' k" := (tx_bind e (fun x => k))
  (at level 10, x binder, e at level 100, k at level 200) : tx_scope.
Local Open Scope tx_scope.

(** The checks of the server ([CHECK] and foreign-key constraints, limits), asked
    of the tables each statement would leave. *)
Class Server (T : Type) := server_constraints : T → option DieselError.

(** A statement that reads and writes. *)
Definition execute {T A} `{!Server T} (f : T → result (A * T) DieselError) : txn T DieselError A :=
  fun faults t =>
    match head faults with
    | Some (Some e) => Err e
    | _ =>
        match f t with
        | Err e => Err e
        | Ok (a, t') =>
            match server_constraints t' with
            | Some e => Err e
            | None => Ok (a, (tail faults, t'))
            end
        end
    end.

(** A statement that only reads. *)
Definition query {T A} (f : T → A) : txn T DieselError A :=
  fun faults t =>
    match head faults with
    | Some (Some e) => Err e
    | _ => Ok (f t, (tail faults, t))
    end.

Definition update {T} `{!Server T} (f : T → T) : txn T DieselError unit := execute (fun t => Ok (tt, f t)).

(** An advisory lock, held to the end of the transaction. *)
Definition advisory_lock {T} : txn T DieselError unit := query (fun _ => tt).

(** The connection of a call: whether the pool gives one, how its statements
    fail, and how [COMMIT] fails, with whether it took effect all the same. *)
Record Connection := {
  cn_available : bool;
  cn_faults : Faults;
  cn_commit : option (DieselError * bool);
}.

(** [connection.transaction] *)
Definition transaction {T E A} (from : DieselError → E) (connection : Connection) (body : txn T E A)
    (t : T) : result A E * T :=
  match body connection.(cn_faults) t with
  | Err e => (Err e, t)
  | Ok (a, (_, t')) =>
      match connection.(cn_commit) with
      | None => (Ok a, t')
      | Some (e, done) => (Err (from e), if done then t' else t)
      end
  end.

(** ** Running transactions *)

Section running.
Context {T : Type}.

Lemma tx_bind_Ok {E A B} (m : txn T E A) (k : A → txn T E B) f t r :
  tx_bind m k f t = Ok r ↔
  ∃ a f' t', m f t = Ok (a, (f', t')) ∧ k a f' t' = Ok r.
Proof.
  unfold tx_bind. destruct (m f t) as [[a [f' t']]|e]; split; naive_solver.
Qed.

Lemma tx_map_err_Ok {E F A} (g : E → F) (m : txn T E A) f t r :
  tx_map_err g m f t = Ok r ↔ m f t = Ok r.
Proof. unfold tx_map_err. destruct (m f t); naive_solver. Qed.

Lemma tx_lift_Ok {E A} (x : result A E) f t a f' t' :
  tx_lift (T:=T) x f t = Ok (a, (f', t')) ↔ x = Ok a ∧ f' = f ∧ t' = t.
Proof. destruct x; simpl; unfold tx_ret, tx_err; naive_solver. Qed.

Lemma tx_ret_Ok {E A} (x : A) f t a f' t' :
  tx_ret (T:=T) (E:=E) x f t = Ok (a, (f', t')) ↔ a = x ∧ f' = f ∧ t' = t.
Proof. unfold tx_ret. naive_solver. Qed.

Lemma tx_err_Ok {E A} (e : E) f t r : tx_err (T:=T) (A:=A) e f t = Ok r ↔ False.
Proof. unfold tx_err. naive_solver. Qed.

Lemma query_Ok {A} (g : T → A) f t a f' t' :
  query g f t = Ok (a, (f', t')) → a = g t ∧ t' = t.
Proof. unfold query. destruct f as [|[e|] f]; simpl; naive_solver. Qed.

Lemma execute_Ok `{!Server T} {A} (g : T → result (A * T) DieselError) f t a f' t' :
  execute g f t = Ok (a, (f', t')) → g t = Ok (a, t').
Proof.
  unfold execute. intros H. repeat case_match; simplify_eq; done.
Qed.

Lemma update_Ok `{!Server T} (g : T → T) f t a f' t' :
  update g f t = Ok (a, (f', t')) → t' = g t.
Proof. intros ?%execute_Ok. naive_solver. Qed.

Lemma advisory_lock_Ok f (t : T) a f' t' : advisory_lock f t = Ok (a, (f', t')) → t' = t.
Proof. by intros [_ ?]%query_Ok. Qed.

(** A transaction commits the tables of its body, or leaves them. *)
Lemma transaction_cases {E A} (from : DieselError → E) c (body : txn T E A) t r t' :
  transaction from c body t = (r, t') →
  (t' = t ∧ ∃ e, r = Err e) ∨
  ∃ a f', body c.(cn_faults) t = Ok (a, (f', t')) ∧ (r = Ok a ∨ ∃ e, r = Err e).
Proof.
  unfold transaction. intros H.
  destruct (body (cn_faults c) t) as [[a [f' t1]]|e]; simplify_eq; [|left; eauto].
  destruct (cn_commit c) as [[e [|]]|]; simplify_eq; [right|left|right]; eauto 6.
Qed.

End running.

(** Inverts the run of a program that succeeded, statement by statement. *)
Ltac tx_step :=
  match goal with
  | H : tx_bind _ _ _ _ = Ok _ |- _ =>
      apply tx_bind_Ok in H as (? & ? & ? & ? & ?)
  | H : tx_map_err _ _ _ _ = Ok _ |- _ => apply tx_map_err_Ok in H
  | H : tx_lift _ _ _ = Ok _ |- _ => apply tx_lift_Ok in H as (? & ? & ?)
  | H : tx_ret _ _ _ = Ok _ |- _ => apply tx_ret_Ok in H as (? & ? & ?)
  | H : tx_err _ _ _ = Ok _ |- _ => by apply tx_err_Ok in H
  | H : query _ _ _ = Ok _ |- _ => apply query_Ok in H as [? ?]
  | H : advisory_lock _ _ = Ok _ |- _ => apply advisory_lock_Ok in H
  | H : update _ _ _ = Ok _ |- _ => apply update_Ok in H
  | H : execute _ _ _ = Ok _ |- _ => apply execute_Ok in H
  end; simplify_eq.
Ltac tx_inv := repeat (tx_step; cbn beta in * ).
