(* ===== verification/Effects.v ===== *)
(** * Programs over effect signatures

    The asynchronous services of the repository are written against port
    traits (stores, repositories, clocks).  Here a service function is a
    program over the signature of its ports, and this file gives the three
    meanings the development uses:

    - [run] executes a program against a deterministic handler;
    - [sched] runs it against a step relation, other tasks acting between
      its effects (every effect is an await point);
    - [pool_steps] interleaves any number of programs over one shared world.

    [wp] is the proof rule for the last two: a weakest precondition with a
    rely (what the other tasks may do) and a guarantee (what this one does). *)
From stdpp Require Import base list relations.
From S2P Require Import Prelude.

(** A program over the effect signature [E]: it returns, or performs an
    effect and continues with the reply.  A signature has one constructor per
    trait method, indexed by the reply type. *)
Inductive prog (E : Type → Type) (A : Type) : Type :=
| Ret (a : A)
| Vis {X : Type} (e : E X) (k : X → prog E A).
Arguments Ret {E A} a.
Arguments Vis {E A X} e k.

Section prog.
Context {E : Type → Type}.

Fixpoint bind {A B} (p : prog E A) (f : A → prog E B) : prog E B :=
  match p with
  | Ret a => f a
  | Vis e k => Vis e (fun x => bind (k x) f)
  end.

Definition call {X} (e : E X) : prog E X := Vis e Ret.

(** Execution against a handler; [None] is an effect that never completes. *)
Fixpoint run {S A} (handle : ∀ X, E X → S → option (X * S)) (p : prog E A) (s : S)
    : option (A * S) :=
  match p with
  | Ret a => Some (a, s)
  | Vis e k =>
      match handle _ e s with
      | Some (x, s') => run handle (k x) s'
      | None => None
      end
  end.

End prog.

(** Two signatures side by side, and the programs of one seen as programs of both. *)
Inductive sumE (E F : Type → Type) (X : Type) : Type :=
| Left (e : E X)
| Right (f : F X).
Arguments Left {E F X} e.
Arguments Right {E F X} f.

Fixpoint translate {E F : Type → Type} (h : ∀ X, E X → F X) {A} (p : prog E A) : prog F A :=
  match p with
  | Ret a => Ret a
  | Vis e k => Vis (h _ e) (fun x => translate h (k x))
  end.

(** A program that keeps to the port's rules: its effects satisfy [pre] as long as
    the replies satisfy [post], and its result satisfies [Q]. *)
Fixpoint obeys {E : Type → Type} (pre : ∀ X, E X → Prop) (post : ∀ X, E X → X → Prop) {A}
    (Q : A → Prop) (p : prog E A) : Prop :=
  match p with
  | Ret a => Q a
  | Vis e k => pre _ e ∧ ∀ x, post _ e x → obeys pre post Q (k x)
  end.

(** One effect of the [i]-th program of a pool for each [i] of the schedule. *)
Fixpoint pool_run {E : Type → Type} {S A} (handle : ∀ X, E X → S → option (X * S))
    (schedule : list nat) (c : list (prog E A) * S) : option (list (prog E A) * S) :=
  match schedule with
  | [] => Some c
  | i :: schedule =>
      match c.1 !! i with
      | Some (Vis e k) =>
          match handle _ e c.2 with
          | Some (x, s') => pool_run handle schedule (<[i := k x]> c.1, s')
          | None => None
          end
      | _ => None
      end
  end.

(** The same against handlers that know whose effect it is. *)
Fixpoint pool_play {E : Type → Type} {S A} (handle : nat → ∀ X, E X → S → option (X * S))
    (schedule : list nat) (c : list (prog E A) * S) : option (list (prog E A) * S) :=
  match schedule with
  | [] => Some c
  | i :: schedule =>
      match c.1 !! i with
      | Some (Vis e k) =>
          match handle i _ e c.2 with
          | Some (x, s') => pool_play handle schedule (<[i := k x]> c.1, s')
          | None => None
          end
      | _ => None
      end
  end.

(** [let* x := p in k] is [let x = p.await; k]; [let*? x := p in k] is
    [let x = p.await?; k]. *)
Notation "'let*' x ':=' p 'in' k" :=
  (bind p (fun x => k))
  (at level 10, x binder, p at level 100, k at level 200) : rust_scope.
Notation "'let*?' x ':=' p 'in' k" :=
  (bind p (fun res => match res with Ok x => k | Err err => Ret (Err err) end))
  (at level 10, x binder, p at level 100, k at level 200) : rust_scope.

Section logic.
Context {E : Type → Type} {W : Type}.
Context (step : ∀ X, E X → W → X → W → Prop).

(** One program, the others acting by [rely] before each of its effects and
    after its return. *)
Inductive sched {A} (rely : W → W → Prop) : prog E A → W → A → W → Prop :=
| sched_ret a w w' : rely w w' → sched rely (Ret a) w a w'
| sched_vis {X} (e : E X) k w w' x w'' a w''' :
    rely w w' → step X e w' x w'' → sched rely (k x) w'' a w''' →
    sched rely (Vis e k) w a w'''.

(** [guar] constrains every effect the program performs: the effect, the world
    before, the reply and the world after. *)
Fixpoint wp {A} (rely : W → W → Prop) (guar : ∀ X, E X → W → X → W → Prop)
    (p : prog E A) (Q : A → W → Prop) (w : W) : Prop :=
  match p with
  | Ret a => ∀ w', rely w w' → Q a w'
  | Vis e k => ∀ w', rely w w' → ∀ x w'', step _ e w' x w'' →
      guar _ e w' x w'' ∧ wp rely guar (k x) Q w''
  end.

Definition no_guar (X : Type) (e : E X) (w : W) (x : X) (w' : W) : Prop := True.
End logic.

(** Traces: the effects a program performed, with their replies, which are any. *)
Inductive event (E : Type → Type) : Type :=
| Event {X : Type} (e : E X) (x : X).
Arguments Event {E X} e x.

Definition traced {E : Type → Type} X (e : E X) (w : list (event E)) (x : X) (w' : list (event E)) : Prop :=
  w' = w ++ [Event e x].

(** Every event of a trace is justified by the ones before it. *)
Definition justified_trace {E : Type → Type} (justified : list (event E) → event E → Prop)
    (tr : list (event E)) : Prop :=
  ∀ i ev, tr !! i = Some ev → justified (take i tr) ev.

Definition justifies {E : Type → Type} (justified : list (event E) → event E → Prop)
    X (e : E X) (w : list (event E)) (x : X) (w' : list (event E)) : Prop :=
  justified w (Event e x).

(** A pool of programs over one world, each effect atomic; [step i] is a step
    of the [i]-th program. *)
Section pool.
Context {E : Type → Type} {W : Type}.
Context (step : nat → ∀ X, E X → W → X → W → Prop).

Inductive pool_step {A} : list (prog E A) * W → list (prog E A) * W → Prop :=
| pool_step_intro {X} ts i (e : E X) k w x w' :
    ts !! i = Some (Vis e k) → step i X e w x w' →
    pool_step (ts, w) (<[i := k x]> ts, w').

Definition pool_steps {A} : list (prog E A) * W → list (prog E A) * W → Prop := rtc pool_step.

(** Every program of the pool has its [wp], with its own rely, guarantee and
    postcondition. *)
Definition pool_ok {A} (R : nat → relation W) (G : nat → ∀ X, E X → W → X → W → Prop)
    (Q : nat → A → W → Prop) (c : list (prog E A) * W) : Prop :=
  ∀ i p, c.1 !! i = Some p → wp (step i) (R i) (G i) p (Q i) c.2.
End pool.

Section facts.
Context {E : Type → Type} {W : Type}.
Context {step : ∀ X, E X → W → X → W → Prop}.

Lemma wp_mono {A} rely guar (p : prog E A) (Q Q' : A → W → Prop) w :
  wp step rely guar p Q w → (∀ a w', Q a w' → Q' a w') → wp step rely guar p Q' w.
Proof.
  intros H HQ. revert w H. induction p as [a|X e k IH]; simpl; [by eauto|].
  intros w H w' Hr x w'' Hs. destruct (H _ Hr _ _ Hs). eauto.
Qed.

Lemma wp_guar_mono {A} rely (guar guar' : ∀ X, E X → W → X → W → Prop) (p : prog E A) Q w :
  (∀ X (e : E X) v x v', guar X e v x v' → guar' X e v x v') →
  wp step rely guar p Q w → wp step rely guar' p Q w.
Proof.
  intros HG. revert w. induction p as [a|X e k IH]; simpl; [by eauto|].
  intros w H w' Hr x w'' Hs. destruct (H _ Hr _ _ Hs). eauto.
Qed.

Lemma wp_bind {A B} rely guar `{!PreOrder rely} (p : prog E A) (f : A → prog E B) Q w :
  wp step rely guar p (fun a w' => wp step rely guar (f a) Q w') w →
  wp step rely guar (bind p f) Q w.
Proof.
  revert w. induction p as [a|X e k IH]; simpl; intros w H; [by apply H|].
  intros w' Hr x w'' Hs. destruct (H _ Hr _ _ Hs). eauto.
Qed.

(** The rules for the two forms of a program. *)
Lemma wp_ret {A} rely guar (a : A) Q w :
  (∀ w', rely w w' → Q a w') → wp step rely guar (Ret a) Q w.
Proof. done. Qed.

Lemma wp_call {A X} rely guar (e : E X) (f : X → prog E A) Q w :
  (∀ w' x w'', rely w w' → step X e w' x w'' →
     guar X e w' x w'' ∧ wp step rely guar (f x) Q w'') →
  wp step rely guar (bind (call e) f) Q w.
Proof. intros H w' Hr x w'' Hs. by apply H. Qed.

Lemma wp_stable {A} rely guar `{!PreOrder rely} (p : prog E A) Q w w' :
  wp step rely guar p Q w → rely w w' → wp step rely guar p Q w'.
Proof.
  destruct p; simpl; intros H Hr; [intros v Hr'; apply H; by etrans|].
  intros v Hr' x v' Hs. eapply H; [by etrans|done].
Qed.

Lemma wp_translate {F : Type → Type} {A} (h : ∀ X, F X → E X) rely guar (p : prog F A) Q w :
  wp (fun X e => step X (h X e)) rely (fun X e => guar X (h X e)) p Q w →
  wp step rely guar (translate h p) Q w.
Proof.
  revert w. induction p as [a|X e k IH]; simpl; intros w H; [done|].
  intros w' Hr x w'' Hs. destruct (H w' Hr x w'' Hs). eauto.
Qed.

(** An invariant of the rely and the guarantee comes with every result. *)
Lemma wp_invariant {A} (I : W → Prop) rely guar (p : prog E A) Q w :
  (∀ v v', rely v v' → I v → I v') → (∀ X (e : E X) v x v', guar X e v x v' → I v → I v') →
  I w → wp step rely guar p Q w → wp step rely guar p (fun a w' => Q a w' ∧ I w') w.
Proof.
  intros HR HG. revert w. induction p as [a|X e k IH]; simpl; intros w Hi H.
  - intros w' Hr. split; [by apply H|by eapply HR].
  - intros w' Hr x w'' Hs. destruct (H w' Hr x w'' Hs) as [Hg Hk]. split; [done|]. eauto.
Qed.

Lemma wp_sched {A} rely guar (p : prog E A) Q w a w' :
  wp step rely guar p Q w → sched step rely p w a w' → Q a w'.
Proof.
  intros H Hs. induction Hs; simpl in H; [by eauto|].
  apply IHHs. eapply H; eauto.
Qed.

(** The invariant of the guarantee and the steps holds in the end. *)
Lemma wp_sched_invariant {A} (I : W → Prop) rely guar (p : prog E A) Q w a w' :
  (∀ v v', rely v v' → I v → I v') →
  (∀ X (e : E X) v x v', step X e v x v' → guar X e v x v' → I v → I v') →
  wp step rely guar p Q w → sched step rely p w a w' → I w → I w'.
Proof.
  intros HR HG H Hs. induction Hs as [a w w' Hr|X e k w w1 x w2 a w3 Hr Hst _ IH]; simpl in H; [by eauto|].
  intros Hi. destruct (H _ Hr _ _ Hst). eauto.
Qed.

(** A handler inside the step relation: [run] is one of the schedules. *)
Lemma run_sched {A} rely `{!PreOrder rely} (handle : ∀ X, E X → W → option (X * W))
    (p : prog E A) w a w' :
  (∀ X (e : E X) v x v', handle X e v = Some (x, v') → step X e v x v') →
  run handle p w = Some (a, w') → sched step rely p w a w'.
Proof.
  intros Hh. revert w. induction p as [b|X e k IH]; simpl; intros w H.
  - simplify_eq. by constructor.
  - destruct (handle X e w) as [[x v]|] eqn:He; [|done].
    econstructor; [reflexivity|by apply Hh|by apply IH].
Qed.

End facts.

(** The traces of a program whose effects are justified. *)
Section trace_facts.
Context {E : Type → Type} (justified : list (event E) → event E → Prop).
Notation wpt := (wp (traced (E := E)) eq (justifies justified)).

Lemma trace_justified {A} (p : prog E A) Q a tr :
  wpt p Q [] → sched traced eq p [] a tr → justified_trace justified tr.
Proof.
  intros H Hs. eapply (wp_sched_invariant (justified_trace justified)); [| |exact H|exact Hs|done].
  - by intros v v' ->.
  - intros X e v x v' -> Hj Hv i ev Hi. destruct (decide (i < length v)%nat) as [Hlt|Hge].
    + rewrite lookup_app_l in Hi by done. rewrite take_app_le by lia. by apply Hv.
    + rewrite lookup_app_r in Hi by lia. apply list_lookup_singleton_Some in Hi as [Hz <-].
      assert (i = length v) as -> by lia. by rewrite take_app_length.
Qed.

Lemma wpt_call {A X} (e : E X) (k : X → prog E A) Q w :
  (∀ x, justified w (Event e x) ∧ wpt (k x) Q (w ++ [Event e x])) → wpt (bind (call e) k) Q w.
Proof. intros H. apply wp_call. intros w' x w'' <- ->. apply H. Qed.

Lemma wpt_ret {A} (a : A) (Q : A → list (event E) → Prop) w : Q a w → wpt (Ret a) Q w.
Proof. intros H. apply wp_ret. by intros w' <-. Qed.
End trace_facts.

(** Every program of a pool keeps its [wp] while any of them steps, when each
    one's guarantee is in the rely of the others. *)
Section pool_facts.
Context {E : Type → Type} {W A : Type}.
Context {step : nat → ∀ X, E X → W → X → W → Prop}.
Context (R : nat → relation W) (G : nat → ∀ X, E X → W → X → W → Prop).
Context (Q : nat → A → W → Prop).
Context (HR : ∀ i, PreOrder (R i)).
Context (HG : ∀ i j X (e : E X) w x w', i ≠ j → G j X e w x w' → R i w w').

Lemma pool_step_ok c c' :
  pool_ok step R G Q c → pool_step step c c' →
  pool_ok step R G Q c' ∧ ∃ i X (e : E X) x, G i X e c.2 x c'.2.
Proof.
  intros Hok Hs. destruct Hs as [X ts i e k w x w' Hi Hs].
  destruct (Hok i _ Hi w (PreOrder_Reflexive _) x w' Hs) as [Hg Hk]; simpl in *.
  split; [|by eauto 6]. intros j p Hj; simpl in *.
  destruct (decide (i = j)) as [<-|Hne].
  - rewrite list_lookup_insert_eq in Hj by (by eapply lookup_lt_Some). by simplify_eq.
  - rewrite list_lookup_insert_ne in Hj by done.
    eapply wp_stable; [apply _|by apply (Hok j)|by eapply HG].
Qed.

Lemma pool_steps_ok c c' :
  pool_ok step R G Q c → pool_steps step c c' →
  pool_ok step R G Q c' ∧ rtc (fun w w' => ∃ i X (e : E X) x, G i X e w x w') c.2 c'.2.
Proof.
  intros Hok Hs. induction Hs as [c|c1 c2 c3 H1 _ IH]; [done|].
  destruct (pool_step_ok _ _ Hok H1) as [H2 ?]. destruct (IH H2).
  split; [done|]. by eapply rtc_l.
Qed.

Lemma pool_returns c c' i a :
  pool_ok step R G Q c → pool_steps step c c' → c'.1 !! i = Some (Ret a) → Q i a c'.2.
Proof.
  intros Hok Hs Hi. destruct (pool_steps_ok _ _ Hok Hs) as [Hok' _].
  apply (Hok' i _ Hi). reflexivity.
Qed.
End pool_facts.

(** A schedule executed against a handler is one of the interleavings. *)
Lemma pool_run_steps {E : Type → Type} {W A} (step : nat → ∀ X, E X → W → X → W → Prop)
    (handle : ∀ X, E X → W → option (X * W)) schedule (c c' : list (prog E A) * W) :
  (∀ i X (e : E X) w x w', handle X e w = Some (x, w') → step i X e w x w') →
  pool_run handle schedule c = Some c' → pool_steps step c c'.
Proof.
  intros Hh. revert c. induction schedule as [|i schedule IH]; intros [ts w]; simpl.
  { intros [= <-]. apply rtc_refl. }
  destruct (ts !! i) as [[a|X e k]|] eqn:Hi; try done.
  destruct (handle X e w) as [[x w']|] eqn:He; [|done]. intros Hr%IH.
  eapply rtc_l; [|exact Hr]. econstructor; eauto.
Qed.

Lemma pool_play_steps {E : Type → Type} {W A} (step : nat → ∀ X, E X → W → X → W → Prop)
    (handle : nat → ∀ X, E X → W → option (X * W)) schedule (c c' : list (prog E A) * W) :
  (∀ i X (e : E X) w x w', handle i X e w = Some (x, w') → step i X e w x w') →
  pool_play handle schedule c = Some c' → pool_steps step c c'.
Proof.
  intros Hh. revert c. induction schedule as [|i schedule IH]; intros [ts w]; simpl.
  { intros [= <-]. apply rtc_refl. }
  destruct (ts !! i) as [[a|X e k]|] eqn:Hi; try done.
  destruct (handle i X e w) as [[x w']|] eqn:He; [|done]. intros Hr%IH.
  eapply rtc_l; [|exact Hr]. econstructor; eauto.
Qed.

Lemma pool_run_step {E : Type → Type} {W A} (step : nat → ∀ X, E X → W → X → W → Prop)
    (handle : ∀ X, E X → W → option (X * W)) i (c c' : list (prog E A) * W) :
  (∀ i X (e : E X) w x w', handle X e w = Some (x, w') → step i X e w x w') →
  pool_run handle [i] c = Some c' → pool_step step c c'.
Proof.
  intros Hh. destruct c as [ts w]; simpl. destruct (ts !! i) as [[a|X e k]|] eqn:Hi; try done.
  destruct (handle X e w) as [[x w']|] eqn:He; [|done]. intros [= <-]. econstructor; eauto.
Qed.

Section obeys_facts.
Context {E : Type → Type} (pre : ∀ X, E X → Prop) (post : ∀ X, E X → X → Prop).

Lemma obeys_mono {A} (Q Q' : A → Prop) (p : prog E A) :
  obeys pre post Q p → (∀ a, Q a → Q' a) → obeys pre post Q' p.
Proof.
  intros H HQ. induction p as [a|X e k IH]; simpl in *; [by apply HQ|].
  destruct H as [? H]. split; [done|]. intros x Hx. by apply IH, H.
Qed.

Lemma obeys_bind {A B} (Q : B → Prop) (p : prog E A) (f : A → prog E B) :
  obeys pre post (fun a => obeys pre post Q (f a)) p → obeys pre post Q (bind p f).
Proof.
  intros H. induction p as [a|X e k IH]; simpl in *; [done|].
  destruct H as [? H]. split; [done|]. intros x Hx. by apply IH, H.
Qed.
End obeys_facts.

Lemma obeys_anything {E : Type → Type} {A} (p : prog E A) :
  obeys (fun _ _ => True) (fun _ _ _ => True) (fun _ => True) p.
Proof. induction p; simpl; auto. Qed.

(** Pools over related worlds: when every effect of one that keeps to the rules is
    matched by the other, so is every interleaving of programs that keep to them. *)
Lemma pool_simulation_obeys {E : Type → Type} {W K A} (R : W → K → Prop)
    (pre : ∀ X, E X → Prop) (post : ∀ X, E X → X → Prop)
    (step : nat → ∀ X, E X → W → X → W → Prop) (step' : nat → ∀ X, E X → K → X → K → Prop)
    (ts : list (prog E A)) w k c' :
  (∀ i X (e : E X) w k x k', R w k → pre X e → step' i X e k x k' →
     post X e x ∧ ∃ w', R w' k' ∧ step i X e w x w') →
  Forall (obeys pre post (fun _ => True)) ts →
  R w k → pool_steps step' (ts, k) c' →
  ∃ w', R w' c'.2 ∧ pool_steps step (ts, w) (c'.1, w').
Proof.
  intros Hsim Hob HR Hs. remember (ts, k) as c eqn:Hc. revert ts w k Hob Hc HR.
  induction Hs as [c|c1 c2 c3 H1 _ IH]; intros ts w k Hob -> HR.
  { exists w. split; [done|apply rtc_refl]. }
  inversion H1 as [X ts' i e f k' x k2 Hi Hst]; simplify_eq.
  pose proof (proj1 (Forall_lookup _ _) Hob _ _ Hi) as [Hpre Hk].
  destruct (Hsim _ _ _ _ _ _ _ HR Hpre Hst) as (Hpost & w2 & HR2 & Hw).
  destruct (IH (<[i := f x]> ts) w2 k2) as (w3 & HR3 & Hs3); [by apply Forall_insert; auto|done|done|].
  exists w3. split; [done|]. eapply rtc_l; [|exact Hs3]. by econstructor.
Qed.

Lemma pool_simulation {E : Type → Type} {W K A} (R : W → K → Prop)
    (step : nat → ∀ X, E X → W → X → W → Prop) (step' : nat → ∀ X, E X → K → X → K → Prop)
    (ts : list (prog E A)) w k c' :
  (∀ i X (e : E X) w k x k', R w k → step' i X e k x k' → ∃ w', R w' k' ∧ step i X e w x w') →
  R w k → pool_steps step' (ts, k) c' →
  ∃ w', R w' c'.2 ∧ pool_steps step (ts, w) (c'.1, w').
Proof.
  intros Hsim. apply (pool_simulation_obeys R (fun _ _ => True) (fun _ _ _ => True)).
  - intros. split; [done|]. by eapply Hsim.
  - apply Forall_forall. intros p _. apply obeys_anything.
Qed.
