(* ===== verification/Text.v ===== *)
(** * Text

    The [str] operations the program uses.  A [str] is its UTF-8 bytes; the
    operations on characters are written on the encoding. *)
From Stdlib Require Import Ascii.
From stdpp Require Import base sets list strings.
From S2P Require Import Prelude.

Local Open Scope string_scope.
Open Scope Z_scope.

Definition byte (c : Ascii.ascii) : Z := Z.of_nat (Ascii.nat_of_ascii c).

Definition bytes (s : string) : list Ascii.ascii := String.list_ascii_of_string s.
Definition of_bytes (l : list Ascii.ascii) : string := String.string_of_list_ascii l.

(** [str::len] *)
Definition len (s : string) : Z := Z.of_nat (String.length s).

Definition is_empty (s : string) : bool := match s with EmptyString => true | _ => false end.

Definition in_range (lo hi z : Z) : bool := (lo <=? z) && (z <=? hi).

Definition is_ascii_digit (c : Ascii.ascii) : bool := in_range 48 57 (byte c).

Definition is_ascii_alphanumeric (c : Ascii.ascii) : bool :=
  is_ascii_digit c || in_range 65 90 (byte c) || in_range 97 122 (byte c).

Definition to_ascii_uppercase (c : Ascii.ascii) : Ascii.ascii :=
  if in_range 97 122 (byte c) then Ascii.ascii_of_nat (Ascii.nat_of_ascii c - 32) else c.

Definition to_ascii_lowercase (c : Ascii.ascii) : Ascii.ascii :=
  if in_range 65 90 (byte c) then Ascii.ascii_of_nat (Ascii.nat_of_ascii c + 32) else c.

Definition eq_ignore_ascii_case (s t : string) : bool :=
  bool_decide (to_ascii_lowercase <$> bytes s = to_ascii_lowercase <$> bytes t).

(** [chars().count()]: the bytes that are not continuation bytes. *)
Definition chars_count (s : string) : Z :=
  Z.of_nat (length (filter (fun c => negb (in_range 128 191 (byte c)) = true) (bytes s))).

(** [starts_with], [strip_prefix], [contains] of a pattern, [ends_with] of an
    ASCII character. *)
Fixpoint strip (pattern s : string) : option string :=
  match pattern, s with
  | EmptyString, _ => Some s
  | String p pattern, String c s => if decide (p = c) then strip pattern s else None
  | _, EmptyString => None
  end.

Definition starts_with (s pattern : string) : bool := is_some (strip pattern s).

Fixpoint contains (s pattern : string) : bool :=
  starts_with s pattern || match s with EmptyString => false | String _ s => contains s pattern end.

Definition contains_char (s : string) (c : Ascii.ascii) : bool := existsb (fun d => bool_decide (c = d)) (bytes s).

Definition ends_with_char (s : string) (c : Ascii.ascii) : bool := bool_decide (last (bytes s) = Some c).

(** [char::is_whitespace], on the encodings: the whitespace character a list of
    bytes starts with is removed. *)
Definition strip_whitespace (l : list Ascii.ascii) : option (list Ascii.ascii) :=
  match l with
  | a :: l1 =>
      if in_range 9 13 (byte a) || (byte a =? 32) then Some l1
      else match l1 with
      | b :: l2 =>
          if (byte a =? 194) && ((byte b =? 133) || (byte b =? 160)) then Some l2
          else match l2 with
          | c :: l3 =>
              if ((byte a =? 225) && (byte b =? 154) && (byte c =? 128))
                 || ((byte a =? 226) && (byte b =? 128)
                     && (in_range 128 138 (byte c) || (byte c =? 168) || (byte c =? 169)
                         || (byte c =? 175)))
                 || ((byte a =? 226) && (byte b =? 129) && (byte c =? 159))
                 || ((byte a =? 227) && (byte b =? 128) && (byte c =? 128))
              then Some l3 else None
          | [] => None
          end
      | [] => None
      end
  | [] => None
  end.

(** The words of [split_whitespace]; [word] is the current one, reversed.  Every
    step consumes a byte, so the length of the text is enough fuel. *)
Fixpoint words (fuel : nat) (word : list Ascii.ascii) (l : list Ascii.ascii) : list string :=
  let flush rest := match word with [] => rest | _ => of_bytes (reverse word) :: rest end in
  match fuel with
  | O => flush []
  | S fuel =>
      match strip_whitespace l with
      | Some l' => flush (words fuel [] l')
      | None =>
          match l with
          | [] => flush []
          | c :: l' => words fuel (c :: word) l'
          end
      end
  end.

Definition split_whitespace (s : string) : list string :=
  words (S (String.length s)) [] (bytes s).

Fixpoint trim_front (fuel : nat) (l : list Ascii.ascii) : list Ascii.ascii :=
  match fuel with
  | O => l
  | S fuel => match strip_whitespace l with Some l' => trim_front fuel l' | None => l end
  end.

(** A suffix that is whitespace, if the text ends with one: of one, two or three
    bytes. *)
Definition strip_whitespace_end (l : list Ascii.ascii) : option (list Ascii.ascii) :=
  let ends n := (n <=? length l)%nat && bool_decide (strip_whitespace (drop (length l - n) l) = Some []) in
  if ends 1%nat then Some (take (length l - 1) l)
  else if ends 2%nat then Some (take (length l - 2) l)
  else if ends 3%nat then Some (take (length l - 3) l)
  else None.

Fixpoint trim_back (fuel : nat) (l : list Ascii.ascii) : list Ascii.ascii :=
  match fuel with
  | O => l
  | S fuel => match strip_whitespace_end l with Some l' => trim_back fuel l' | None => l end
  end.

Definition trim (s : string) : string :=
  of_bytes (trim_back (String.length s) (trim_front (String.length s) (bytes s))).

(** [str::trim_end_matches] of a character *)
Definition trim_end_matches (c : Ascii.ascii) (s : string) : string :=
  of_bytes (foldr (fun d l => match l with [] => if decide (d = c) then [] else [d] | _ => d :: l end)
    [] (bytes s)).

(** [split] at an ASCII character. *)
Fixpoint split_bytes (c : Ascii.ascii) (word l : list Ascii.ascii) : list string :=
  match l with
  | [] => [of_bytes (reverse word)]
  | d :: l => if decide (c = d) then of_bytes (reverse word) :: split_bytes c [] l
              else split_bytes c (d :: word) l
  end.

Definition split_char (c : Ascii.ascii) (s : string) : list string := split_bytes c [] (bytes s).

(** [split_once] at a pattern: the text before its first occurrence and after it. *)
Fixpoint split_once (pattern s : string) : option (string * string) :=
  match strip pattern s with
  | Some rest => Some ("", rest)
  | None =>
      match s with
      | "" => None
      | String c s => (fun '(a, b) => (String c a, b)) <$> split_once pattern s
      end
  end.

(** The text before the first of the given ASCII characters. *)
Fixpoint until (stop : list Ascii.ascii) (s : string) : string :=
  match s with
  | "" => ""
  | String c s => if bool_decide (c ∈ stop) then "" else String c (until stop s)
  end.

(** [parse::<i64>]: a sign, at least one digit, in range. *)
Fixpoint digits_value (acc : Z) (l : list Ascii.ascii) : option Z :=
  match l with
  | [] => Some acc
  | c :: l => if is_ascii_digit c then digits_value (acc * 10 + (byte c - 48)) l else None
  end.

Definition parse_digits (l : list Ascii.ascii) : option Z :=
  match l with [] => None | _ => digits_value 0 l end.

Definition parse_i64 (s : string) : option Z :=
  let value :=
    match bytes s with
    | "-"%char :: l => Z.opp <$> parse_digits l
    | "+"%char :: l => parse_digits l
    | l => parse_digits l
    end in
  match value with
  | Some z => if in_range I64_MIN I64_MAX z then Some z else None
  | None => None
  end.

(** ** Facts *)

Lemma strip_app p s : strip p (p +:+ s) = Some s.
Proof. induction p as [|c p IH]; simpl; [done|]. by rewrite decide_True. Qed.

Lemma strip_Some p s t : strip p s = Some t ↔ s = p +:+ t.
Proof.
  split; [|intros ->; apply strip_app].
  revert s. induction p as [|c p IH]; intros s; simpl; [by intros [= ->]|].
  destruct s as [|d s]; [done|]. case_decide; [|done]. intros ->%IH. by subst.
Qed.

Lemma is_empty_spec s : is_empty s = false ↔ s ≠ "".
Proof. by destruct s. Qed.

Lemma starts_with_spec s p : starts_with s p = true ↔ ∃ t, s = p +:+ t.
Proof.
  unfold starts_with. destruct (strip p s) as [t|] eqn:H; simpl.
  - apply strip_Some in H. naive_solver.
  - split; [done|]. intros [t ->]. by rewrite strip_app in H.
Qed.

Lemma is_empty_true s : is_empty s = true ↔ s = "".
Proof. by destruct s. Qed.

Lemma strip_whitespace_length l l' :
  strip_whitespace l = Some l' → (length l' < length l)%nat.
Proof.
  unfold strip_whitespace. intros. repeat case_match; simplify_eq/=; lia.
Qed.

(** No word is empty. *)
Lemma words_nonempty fuel word l s : s ∈ words fuel word l → s ≠ "".
Proof.
  assert (Hw : ∀ c w, of_bytes (reverse (c :: w)) ≠ "").
  { intros c w H%(f_equal String.length). unfold of_bytes in H.
    rewrite reverse_cons in H. by destruct (reverse w). }
  revert word l. induction fuel as [|fuel IH]; intros word l; simpl.
  - destruct word; set_solver.
  - destruct (strip_whitespace l); [destruct word; set_solver|].
    destruct l; [destruct word; set_solver|apply IH].
Qed.

(** ** [split] *)

Lemma bytes_app s t : bytes (s +:+ t) = (bytes s ++ bytes t)%list.
Proof. unfold bytes. induction s as [|c s IH]; simpl; [done|by f_equal]. Qed.

Lemma of_bytes_bytes s : of_bytes (bytes s) = s.
Proof. apply String.string_of_list_ascii_of_string. Qed.

Lemma bytes_of_bytes l : bytes (of_bytes l) = l.
Proof. apply String.list_ascii_of_string_of_list_ascii. Qed.

Lemma of_bytes_app l m : of_bytes (l ++ m)%list = of_bytes l +:+ of_bytes m.
Proof. induction l as [|c l IH]; simpl; [done|]. unfold of_bytes in *. simpl. by rewrite IH. Qed.

Lemma split_bytes_app c w a l : c ∉ a → split_bytes c w (a ++ l)%list = split_bytes c (reverse a ++ w)%list l.
Proof.
  revert w. induction a as [|d a IH]; intros w Hc; simpl; [done|].
  apply not_elem_of_cons in Hc as [??]. rewrite decide_False by done.
  rewrite IH by done. by rewrite reverse_cons, <-(assoc_L (++)).
Qed.

Lemma split_char_free c s : c ∉ bytes s → split_char c s = [s].
Proof.
  intros Hc. unfold split_char. rewrite <-(app_nil_r (bytes s)), split_bytes_app by done. simpl.
  by rewrite app_nil_r, reverse_involutive, of_bytes_bytes.
Qed.

Lemma split_char_app c a t : c ∉ bytes a → split_char c (a +:+ String c t) = a :: split_char c t.
Proof.
  intros Hc. unfold split_char. rewrite bytes_app, split_bytes_app by done. simpl.
  rewrite decide_True by done. by rewrite app_nil_r, reverse_involutive, of_bytes_bytes.
Qed.

(** The first part of a text and the rest. *)
Lemma split_char_cases c s :
  c ∉ bytes s ∨ ∃ a t, c ∉ bytes a ∧ s = a +:+ String c t.
Proof.
  destruct (decide (c ∈ bytes s)) as [Hc|]; [right|by left].
  apply list_elem_of_split_l in Hc as (l & m & Hs & Hc).
  exists (of_bytes l), (of_bytes m). rewrite bytes_of_bytes. split; [done|].
  rewrite <-(of_bytes_bytes s), Hs, of_bytes_app. done.
Qed.

Lemma split_char_cons c s a p rest : split_char c s = a :: p :: rest →
  c ∉ bytes a ∧ ∃ t, s = a +:+ String c t ∧ split_char c t = p :: rest.
Proof.
  destruct (split_char_cases c s) as [Hc|(b & t & Hc & ->)].
  - by rewrite split_char_free.
  - rewrite split_char_app by done. intros [= -> ?]. eauto.
Qed.

Lemma split_char_single c s a : split_char c s = [a] → c ∉ bytes a ∧ s = a.
Proof.
  destruct (split_char_cases c s) as [Hc|(b & t & Hc & ->)].
  - rewrite split_char_free by done. by intros [= ->].
  - rewrite split_char_app by done. intros [= -> Ht]. exfalso.
    destruct (split_char_cases c t) as [?|(? & ? & ? & ->)];
      [by rewrite split_char_free in Ht|by rewrite split_char_app in Ht].
Qed.

Lemma split_char_three c s p q r :
  split_char c s = [p; q; r] ↔
  s = p +:+ String c (q +:+ String c r) ∧ c ∉ bytes p ∧ c ∉ bytes q ∧ c ∉ bytes r.
Proof.
  split.
  - intros [? (t & -> & [? (u & -> & [? ->]%split_char_single)]%split_char_cons)]%split_char_cons. done.
  - intros (-> & ? & ? & ?). by rewrite !split_char_app, split_char_free.
Qed.
