(* ===== verification/Json.v ===== *)
(** * JSON values

    [serde_json::Value] as the program uses it.  An object is the list of its
    members in key order ([serde_json] keeps them in a [BTreeMap]); a number is
    one of [serde_json]'s three kinds, a float given by its bits. *)
From stdpp Require Import base list strings.
From S2P Require Import Prelude.

Inductive Number :=
| PosInt (n : Z)
| NegInt (n : Z)
| Float (bits : Z).

Inductive Value :=
| JNull
| JBool (b : bool)
| JNumber (n : Number)
| JString (s : string)
| JArray (items : list Value)
| JObject (members : list (string * Value)).

#[export] Instance Number_eq_dec : EqDecision Number.
Proof. solve_decision. Defined.

(** [Value] is nested in lists: equality by recursion on the tree. *)
#[export] Instance Value_eq_dec : EqDecision Value.
Proof.
  unfold EqDecision, Decision. fix go 1. intros v w.
  destruct v as [|a|a|a|a|a], w as [|b|b|b|b|b]; try (right; congruence); [by left|..].
  - destruct (decide (a = b)); [left|right]; congruence.
  - destruct (decide (a = b)); [left|right]; congruence.
  - destruct (decide (a = b)); [left|right]; congruence.
  - enough ({a = b} + {a ≠ b}) as [->|]; [by left|right; congruence|].
    revert b. induction a as [|x a IH]; intros [|y b]; try (right; congruence); [by left|].
    destruct (go x y) as [->|]; [|right; congruence].
    destruct (IH b) as [->|]; [by left|right; congruence].
  - enough ({a = b} + {a ≠ b}) as [->|]; [by left|right; congruence|].
    revert b. induction a as [|[k x] a IH]; intros [|[k' y] b]; try (right; congruence); [by left|].
    destruct (decide (k = k')) as [->|]; [|right; congruence].
    destruct (go x y) as [->|]; [|right; congruence].
    destruct (IH b) as [->|]; [by left|right; congruence].
Defined.

Definition as_array (v : Value) : option (list Value) :=
  match v with JArray items => Some items | _ => None end.

Definition as_object (v : Value) : option (list (string * Value)) :=
  match v with JObject members => Some members | _ => None end.

Definition as_str (v : Value) : option string :=
  match v with JString s => Some s | _ => None end.

Definition as_bool (v : Value) : option bool :=
  match v with JBool b => Some b | _ => None end.

Definition as_i64 (v : Value) : option Z :=
  match v with
  | JNumber (PosInt n) => i64_try_from_u64 n
  | JNumber (NegInt n) => Some n
  | _ => None
  end.

Definition as_u64 (v : Value) : option Z :=
  match v with JNumber (PosInt n) => Some n | _ => None end.

(** [Map::get] *)
Fixpoint object_get (members : list (string * Value)) (key : string) : option Value :=
  match members with
  | [] => None
  | (k, v) :: rest => if decide (k = key) then Some v else object_get rest key
  end.

(** ** Documents

    [serde_json]'s text functions are parameters of what uses them; a parsed
    text is its tree, the members of an object in the order and the number the
    text has them.  [canonical] is the [Value] built from a tree: objects are
    maps, a later member replaces an earlier one. *)

Definition key_lt (k l : string) : bool := match String.compare k l with Lt => true | _ => false end.

(** [BTreeMap::insert] *)
Fixpoint map_insert (k : string) (v : Value) (m : list (string * Value)) : list (string * Value) :=
  match m with
  | [] => [(k, v)]
  | (l, w) :: rest =>
      if key_lt k l then (k, v) :: m
      else if key_lt l k then (l, w) :: map_insert k v rest
      else (k, v) :: rest
  end.

Fixpoint canonical (v : Value) : Value :=
  match v with
  | JArray items => JArray (canonical <$> items)
  | JObject members =>
      JObject (foldl (fun m p => map_insert p.1 p.2 m) []
                 ((fix go l := match l with [] => [] | (k, w) :: l => (k, canonical w) :: go l end) members))
  | v => v
  end.

(** The nesting of arrays and objects; a text nested deeper than [127] is refused. *)
Definition JSON_MAX_DEPTH : nat := 127.

Fixpoint depth (v : Value) : nat :=
  match v with
  | JArray items => S (foldr (fun v n => Nat.max (depth v) n) 0%nat items)
  | JObject members => S (foldr (fun p n => Nat.max (depth p.2) n) 0%nat members)
  | _ => 0%nat
  end.

(** The numbers the text keeps exactly: integers of 64 bits.  A float may lose
    its last digit. *)
Definition exact_number (n : Number) : bool :=
  match n with
  | PosInt n => (0 <=? n) && (n <=? U64_MAX)
  | NegInt n => (I64_MIN <=? n) && (n <? 0)
  | Float _ => false
  end.

Fixpoint exact (v : Value) : bool :=
  match v with
  | JNumber n => exact_number n
  | JArray items => forallb exact items
  | JObject members => forallb (fun p => exact p.2) members
  | _ => true
  end.

(** What a text codec keeps: exact numbers, nested no deeper than the parser allows. *)
Definition storable (v : Value) : bool := exact v && (depth v <=? JSON_MAX_DEPTH)%nat.

(** An integer as [serde] writes it. *)
Definition json_u64 (n : Z) : Value := JNumber (PosInt n).
Definition json_i64 (n : Z) : Value := JNumber (if 0 <=? n then PosInt n else NegInt n).

(** A member of a struct: absent, present once, or an error when repeated. *)
Definition field (members : list (string * Value)) (key : string)
    : result (option Value) unit :=
  match filter (fun p => p.1 = key) members with
  | [] => Ok None
  | [p] => Ok (Some p.2)
  | _ => Err tt
  end.

(** [Value::get] with a string index. *)
Definition value_get (v : Value) (key : string) : option Value :=
  match v with JObject members => object_get members key | _ => None end.

Lemma key_lt_irrefl k : key_lt k k = false.
Proof.
  unfold key_lt. pose proof (String.compare_antisym k k) as H.
  by destruct (String.compare k k).
Qed.

(** Reading back an inserted member. *)
Lemma object_get_map_insert k v m j :
  object_get (map_insert k v m) j = if decide (k = j) then Some v else object_get m j.
Proof.
  induction m as [|[l w] m IH]; simpl; [done|].
  destruct (key_lt k l) eqn:H1; simpl; [done|]. destruct (key_lt l k) eqn:H2; simpl.
  - rewrite IH. destruct (decide (k = j)) as [<-|]; [|done].
    rewrite decide_False; [done|]. intros ->. by rewrite key_lt_irrefl in H2.
  - assert (k = l) as ->; [|by destruct (decide (l = j))]. apply String.compare_eq_iff.
    unfold key_lt in *. rewrite (String.compare_antisym l k) in H2.
    by destruct (String.compare k l).
Qed.
