(* ===== verification/ExampleCodec.v ===== *)
(** * A codec

    The hypotheses the theorems make about [serde_json] say that a stored text
    gives back what was written.  This file has a codec for which they hold: a
    value as a tree, the tree as a number, the number as a text of digits. *)
From Stdlib Require Import Ascii.
From stdpp Require Import base list strings countable.
From S2P Require Import Prelude Json.

Local Open Scope string_scope.
Open Scope Z_scope.

Notation tree := (gen_tree (string + Z)).

Fixpoint value_tree (v : Value) : tree :=
  match v with
  | JNull => GenNode 0 []
  | JBool b => GenNode 1 [GenLeaf (inr (Z.b2z b))]
  | JNumber (PosInt n) => GenNode 2 [GenLeaf (inr n)]
  | JNumber (NegInt n) => GenNode 3 [GenLeaf (inr n)]
  | JNumber (Float n) => GenNode 4 [GenLeaf (inr n)]
  | JString s => GenLeaf (inl s)
  | JArray items => GenNode 5 (value_tree <$> items)
  | JObject members =>
      GenNode 6 ((fun '(k, v) => GenNode 7 [GenLeaf (inl k); value_tree v]) <$> members)
  end.

Fixpoint tree_value (t : tree) : option Value :=
  match t with
  | GenLeaf (inl s) => Some (JString s)
  | GenLeaf (inr _) => None
  | GenNode 0 [] => Some JNull
  | GenNode 1 [GenLeaf (inr b)] => Some (JBool (b =? 1))
  | GenNode 2 [GenLeaf (inr n)] => Some (JNumber (PosInt n))
  | GenNode 3 [GenLeaf (inr n)] => Some (JNumber (NegInt n))
  | GenNode 4 [GenLeaf (inr n)] => Some (JNumber (Float n))
  | GenNode 5 items => JArray <$> mapM tree_value items
  | GenNode 6 members =>
      JObject <$> mapM (fun t =>
        match t with
        | GenNode 7 [GenLeaf (inl k); t] => pair k <$> tree_value t
        | _ => None
        end) members
  | _ => None
  end.

Fixpoint pos_text (p : positive) : string :=
  match p with
  | xH => ""
  | xO p => String "0" (pos_text p)
  | xI p => String "1" (pos_text p)
  end.

Fixpoint text_pos (s : string) : positive :=
  match s with
  | String "0" s => xO (text_pos s)
  | String _ s => xI (text_pos s)
  | "" => xH
  end.

Definition print_value (v : Value) : string := pos_text (encode (value_tree v)).
Definition parse_value (s : string) : option Value := decode (text_pos s) ≫= tree_value.

(** Lists of strings, as [Vec<String>] is written. *)
Definition print_strings (l : list string) : string := print_value (JArray (JString <$> l)).
Definition parse_strings (s : string) : option (list string) :=
  v ← parse_value s; items ← as_array v; mapM as_str items.

(** Induction with the values inside arrays and objects. *)
Lemma Value_nested_ind (P : Value → Prop) :
  P JNull → (∀ b, P (JBool b)) → (∀ n, P (JNumber n)) → (∀ s, P (JString s)) →
  (∀ items, Forall P items → P (JArray items)) →
  (∀ members, Forall (fun m => P m.2) members → P (JObject members)) →
  ∀ v, P v.
Proof.
  intros H0 H1 H2 H3 H4 H5. fix go 1. intros [|b|n|s|items|members].
  - apply H0.
  - apply H1.
  - apply H2.
  - apply H3.
  - apply H4. induction items as [|v items IH]; constructor; [apply go|apply IH].
  - apply H5. induction members as [|[k v] members IH]; constructor; [apply go|apply IH].
Qed.

Lemma tree_value_tree v : tree_value (value_tree v) = Some v.
Proof.
  induction v as [|b|n|s|items IH|members IH] using Value_nested_ind; simpl; try done.
  - by destruct b.
  - by destruct n.
  - assert (Hm : mapM tree_value (value_tree <$> items) = Some items) by
      (induction IH as [|v items Hv _ IHl]; [done|]; rewrite fmap_cons; simpl; by rewrite Hv, IHl).
    by rewrite Hm.
  - match goal with |- _ <$> mapM ?f ?l = _ => assert (Hm : mapM f l = Some members) end.
    { induction IH as [|[k v] members Hv _ IHl]; [done|]. rewrite fmap_cons. simpl in *.
      by rewrite Hv, IHl. }
    by rewrite Hm.
Qed.

Lemma text_pos_text p : text_pos (pos_text p) = p.
Proof. induction p as [p IH|p IH|]; simpl; [by rewrite IH..|done]. Qed.

Lemma parse_print v : parse_value (print_value v) = Some v.
Proof.
  unfold parse_value, print_value. rewrite text_pos_text, decode_encode. simpl. apply tree_value_tree.
Qed.

Lemma strings_of_values l : mapM as_str (JString <$> l) = Some l.
Proof. induction l as [|s l IH]; [done|]. rewrite fmap_cons. simpl. by rewrite IH. Qed.

Lemma parse_print_strings l : parse_strings (print_strings l) = Some l.
Proof. unfold parse_strings, print_strings. rewrite parse_print. apply strings_of_values. Qed.
