(* ===== verification/AuthorizationDetails.v ===== *)
(** * Rich authorization requests

    [crates/authorization-server-core/src/authorization_details.rs]: what an
    [authorization_details] parameter may say.  [url::Url::parse] and
    [serde_json::from_str] are parameters. *)
From stdpp Require Import base sets list strings.
From S2P Require Import Prelude Text Json.

Local Open Scope string_scope.
Local Open Scope rust_scope.
Open Scope Z_scope.

Definition AUTHORIZATION_DETAILS_MAX_BYTES : Z := 16 * 1024.

Definition SUPPORTED_AUTHORIZATION_DETAILS_TYPES : list string :=
  ["account_information"; "payment_initiation"; "openid_credential"].

Inductive AuthorizationDetailsErrorType := AuthorizationDetailsError.

Definition empty_authorization_details : Value := JArray [].

Definition authorization_details_empty (value : Value) : bool :=
  is_none_or (as_array value) (fun items => bool_decide (items = [])).

Definition HIGH_RISK_ACTIONS : list string :=
  ["write"; "create"; "update"; "delete"; "transfer"; "payment"].

Definition high_risk_authorization_details (value : Value) : bool :=
  is_some_and (as_array value) (fun items =>
    existsb (fun item =>
      match as_object item with
      | None => false
      | Some object =>
          let type_ := unwrap_or (object_get object "type" ≫= as_str) "" in
          contains type_ "payment"
          || is_some_and (object_get object "actions" ≫= as_array) (fun actions =>
               existsb (fun action => bool_decide (action ∈ HIGH_RISK_ACTIONS)) (omap as_str actions))
      end) items).

(** [for item in items { check(item)?; }] *)
Fixpoint for_each {A E} (check : A → result unit E) (items : list A) : result unit E :=
  match items with
  | [] => Ok tt
  | item :: items => let? _ := check item in for_each check items
  end.

Section validate.
Context (url_parses : string → bool).

Definition location_refused (location : Value) : bool :=
  is_none_or (as_str location) (fun location =>
    negb (url_parses location) || negb (starts_with location "https://")).

Definition locations_refused (locations : Value) : bool :=
  is_none_or (as_array locations) (fun locations =>
    bool_decide (locations = []) || (8 <? Z.of_nat (length locations))
    || existsb location_refused locations).

Definition validate_credential (object : list (string * Value))
    : result unit AuthorizationDetailsErrorType :=
  let has_configuration :=
    is_some_and (object_get object "credential_configuration_id" ≫= as_str) (fun value =>
      negb (is_empty value) && (len value <=? 255)) in
  let has_format :=
    is_some_and (object_get object "format" ≫= as_str) (fun value =>
      bool_decide (value = "dc+sd-jwt") || bool_decide (value = "mso_mdoc")) in
  if eqb has_configuration has_format then Err AuthorizationDetailsError
  else if is_some_and (object_get object "locations") locations_refused
  then Err AuthorizationDetailsError
  else Ok tt.

Definition validate_action (action : Value) : result unit AuthorizationDetailsErrorType :=
  match as_str action with
  | None => Err AuthorizationDetailsError
  | Some action =>
      if is_empty (trim action) || (128 <? len action) then Err AuthorizationDetailsError else Ok tt
  end.

Definition validate_actions (object : list (string * Value))
    : result unit AuthorizationDetailsErrorType :=
  match object_get object "actions" with
  | None => Ok tt
  | Some actions =>
      match as_array actions with
      | None => Err AuthorizationDetailsError
      | Some actions =>
          if bool_decide (actions = []) || (32 <? Z.of_nat (length actions))
          then Err AuthorizationDetailsError
          else for_each validate_action actions
      end
  end.

Definition validate_item (item : Value) : result unit AuthorizationDetailsErrorType :=
  match as_object item with
  | None => Err AuthorizationDetailsError
  | Some object =>
      match object_get object "type" ≫= as_str with
      | None => Err AuthorizationDetailsError
      | Some type_ =>
          if negb (bool_decide (type_ ∈ SUPPORTED_AUTHORIZATION_DETAILS_TYPES))
          then Err AuthorizationDetailsError
          else
            let? _ := if bool_decide (type_ = "openid_credential") then validate_credential object
                      else Ok tt in
            validate_actions object
      end
  end.

Definition validate_authorization_details (value : Value)
    : result unit AuthorizationDetailsErrorType :=
  match as_array value with
  | None => Err AuthorizationDetailsError
  | Some items =>
      if 32 <? Z.of_nat (length items) then Err AuthorizationDetailsError
      else for_each validate_item items
  end.

Definition normalize_authorization_details (value : Value)
    : result Value AuthorizationDetailsErrorType :=
  match value with
  | JNull | JObject [] => Ok empty_authorization_details
  | other => let? _ := validate_authorization_details other in Ok other
  end.

Definition parse_authorization_details (from_str : string → option Value) (raw : option string)
    : result Value AuthorizationDetailsErrorType :=
  match raw with
  | None => Ok empty_authorization_details
  | Some raw =>
      if AUTHORIZATION_DETAILS_MAX_BYTES <? len raw then Err AuthorizationDetailsError
      else
        let? value := ok_or (from_str raw) AuthorizationDetailsError in
        let? _ := validate_authorization_details value in
        Ok value
  end.
End validate.

(** ** What is accepted *)

Definition action_ok (action : Value) : Prop :=
  ∃ a, action = JString a ∧ trim a ≠ "" ∧ len a ≤ 128.

Definition location_ok (url_parses : string → bool) (location : Value) : Prop :=
  ∃ l rest, location = JString l ∧ url_parses l = true ∧ l = "https://" +:+ rest.

(** A credential is named by its configuration or by its format, not both. *)
Definition credential_ok (url_parses : string → bool) (object : list (string * Value)) : Prop :=
  let configured := ∃ c, object_get object "credential_configuration_id" = Some (JString c) ∧
    c ≠ "" ∧ len c ≤ 255 in
  let formatted := object_get object "format" = Some (JString "dc+sd-jwt") ∨
    object_get object "format" = Some (JString "mso_mdoc") in
  ((configured ∧ ¬ formatted) ∨ (formatted ∧ ¬ configured)) ∧
  ∀ v, object_get object "locations" = Some v →
    ∃ ls, v = JArray ls ∧ 1 ≤ Z.of_nat (length ls) ≤ 8 ∧ Forall (location_ok url_parses) ls.

Definition item_ok (url_parses : string → bool) (item : Value) : Prop :=
  ∃ object type_, item = JObject object ∧ object_get object "type" = Some (JString type_) ∧
    (type_ = "account_information" ∨ type_ = "payment_initiation" ∨
     (type_ = "openid_credential" ∧ credential_ok url_parses object)) ∧
    ∀ v, object_get object "actions" = Some v →
      ∃ as_, v = JArray as_ ∧ 1 ≤ Z.of_nat (length as_) ≤ 32 ∧ Forall action_ok as_.

Definition details_ok (url_parses : string → bool) (value : Value) : Prop :=
  ∃ items, value = JArray items ∧ Z.of_nat (length items) ≤ 32 ∧ Forall (item_ok url_parses) items.

(** ** Facts *)

Lemma for_each_Ok {A E} (check : A → result unit E) items :
  for_each check items = Ok tt ↔ Forall (fun x => check x = Ok tt) items.
Proof.
  induction items as [|x items IH]; simpl; [done|]. rewrite Forall_cons, <- IH.
  destruct (check x) as [[]|]; naive_solver.
Qed.

Lemma as_str_Some v s : as_str v = Some s ↔ v = JString s.
Proof. destruct v; naive_solver. Qed.

Lemma as_array_Some v l : as_array v = Some l ↔ v = JArray l.
Proof. destruct v; naive_solver. Qed.

Lemma as_object_Some v o : as_object v = Some o ↔ v = JObject o.
Proof. destruct v; naive_solver. Qed.

Lemma get_str object key s :
  object_get object key ≫= as_str = Some s ↔ object_get object key = Some (JString s).
Proof. destruct (object_get object key) as [v|]; simpl; [rewrite as_str_Some|]; naive_solver. Qed.

Lemma validate_action_ok action : validate_action action = Ok tt ↔ action_ok action.
Proof.
  unfold validate_action, action_ok. destruct (as_str action) as [a|] eqn:Ha.
  - apply as_str_Some in Ha as ->. destruct (is_empty (trim a)) eqn:He; simpl.
    + split; [done|]. intros (? & [= <-] & Ht%is_empty_spec & _). congruence.
    + apply is_empty_spec in He. destruct (128 <? len a) eqn:Hl; boolify; split; try done.
      * intros (? & [= <-] & _ & ?). lia.
      * eauto.
  - split; [done|]. by intros (? & -> & _).
Qed.

Section facts.
Context (url_parses : string → bool).

Lemma location_refused_ok location :
  location_refused url_parses location = false ↔ location_ok url_parses location.
Proof.
  unfold location_refused, location_ok. destruct (as_str location) as [l|] eqn:Hl; simpl.
  - apply as_str_Some in Hl as ->. rewrite orb_false_iff, !negb_false_iff, starts_with_spec.
    naive_solver.
  - split; [done|]. by intros (? & ? & -> & _).
Qed.

Lemma locations_refused_ok v :
  locations_refused url_parses v = false ↔
  ∃ ls, v = JArray ls ∧ 1 ≤ Z.of_nat (length ls) ≤ 8 ∧ Forall (location_ok url_parses) ls.
Proof.
  unfold locations_refused. destruct (as_array v) as [ls|] eqn:Hl; simpl.
  - apply as_array_Some in Hl as ->. rewrite !orb_false_iff, Z.ltb_ge, bool_decide_eq_false.
    assert (He : existsb (location_refused url_parses) ls = false ↔ Forall (location_ok url_parses) ls).
    { clear. induction ls as [|x ls IH]; simpl; [by split|].
      by rewrite orb_false_iff, IH, Forall_cons, location_refused_ok. }
    rewrite He. assert (Hne : ls ≠ [] ↔ 1 ≤ Z.of_nat (length ls)) by (destruct ls; naive_solver lia).
    rewrite Hne. naive_solver.
  - split; [done|]. by intros (? & -> & _).
Qed.

Lemma validate_credential_ok object :
  validate_credential url_parses object = Ok tt ↔ credential_ok url_parses object.
Proof.
  unfold validate_credential, credential_ok.
  set (conf := is_some_and _ _). set (fmt := is_some_and (_ ≫= _) (fun v => _ || _)).
  assert (Hconf : conf = true ↔ ∃ c, object_get object "credential_configuration_id" = Some (JString c)
    ∧ c ≠ "" ∧ len c ≤ 255).
  { unfold conf. destruct (object_get _ _ ≫= as_str) as [c|] eqn:Hc; simpl.
    - apply get_str in Hc. rewrite andb_true_iff, negb_true_iff, is_empty_spec, Z.leb_le. naive_solver.
    - split; [done|]. intros (c & Hc' & _). apply get_str in Hc'. congruence. }
  assert (Hfmt : fmt = true ↔ object_get object "format" = Some (JString "dc+sd-jwt") ∨
    object_get object "format" = Some (JString "mso_mdoc")).
  { unfold fmt. rewrite <- !get_str. destruct (object_get object "format" ≫= as_str) as [c|]; simpl.
    2: { by split; [|intros []]. }
    rewrite orb_true_iff, !bool_decide_eq_true. naive_solver. }
  rewrite <- Hconf, <- Hfmt.
  assert (Hloc : is_some_and (object_get object "locations") (locations_refused url_parses) = false ↔
    ∀ v, object_get object "locations" = Some v → ∃ ls, v = JArray ls ∧
      1 ≤ Z.of_nat (length ls) ≤ 8 ∧ Forall (location_ok url_parses) ls).
  { destruct (object_get object "locations") as [v|]; simpl; [|naive_solver].
    rewrite locations_refused_ok. naive_solver. }
  rewrite <- Hloc. clearbody conf fmt. clear Hconf Hfmt Hloc.
  destruct conf, fmt, (is_some_and _ _); simpl; (split; [intros|intros [[[]|[]] ?]]; done || auto).
Qed.

Lemma validate_actions_ok object :
  validate_actions object = Ok tt ↔
  ∀ v, object_get object "actions" = Some v →
    ∃ as_, v = JArray as_ ∧ 1 ≤ Z.of_nat (length as_) ≤ 32 ∧ Forall action_ok as_.
Proof.
  unfold validate_actions. destruct (object_get object "actions") as [v|]; [|naive_solver].
  destruct (as_array v) as [l|] eqn:Hl.
  - apply as_array_Some in Hl as ->.
    assert (Hf : for_each validate_action l = Ok tt ↔ Forall action_ok l).
    { rewrite for_each_Ok. apply Forall_iff, validate_action_ok. }
    assert (Hne : l ≠ [] ↔ 1 ≤ Z.of_nat (length l)) by (destruct l; naive_solver lia).
    destruct (bool_decide (l = [])) eqn:H1; boolify; simpl; [naive_solver|].
    destruct (32 <? _) eqn:H2; boolify; [naive_solver lia|]. naive_solver.
  - split; [done|]. intros H. destruct (H v eq_refl) as (? & -> & _). done.
Qed.

Lemma validate_item_ok item : validate_item url_parses item = Ok tt ↔ item_ok url_parses item.
Proof.
  unfold validate_item, item_ok. destruct (as_object item) as [o|] eqn:Ho.
  2: { split; [done|]. by intros (? & ? & -> & _). }
  apply as_object_Some in Ho as ->. destruct (object_get o "type" ≫= as_str) as [t|] eqn:Ht.
  2: { split; [done|]. intros (? & ? & [= <-] & Ht' & _). apply get_str in Ht'. congruence. }
  apply get_str in Ht. transitivity ((t = "account_information" ∨ t = "payment_initiation" ∨
    t = "openid_credential" ∧ credential_ok url_parses o) ∧ validate_actions o = Ok tt).
  - rewrite <- validate_credential_ok. unfold SUPPORTED_AUTHORIZATION_DETAILS_TYPES.
    destruct (bool_decide _) eqn:Hs; boolify; simpl.
    + case_bool_decide; [|set_solver]. destruct (validate_credential _ _) as [[]|]; naive_solver.
    + set_solver.
  - rewrite validate_actions_ok. naive_solver.
Qed.

Lemma validate_details_ok value :
  validate_authorization_details url_parses value = Ok tt ↔ details_ok url_parses value.
Proof.
  unfold validate_authorization_details, details_ok. destruct (as_array value) as [l|] eqn:Hl.
  - apply as_array_Some in Hl as ->.
    assert (Hf : for_each (validate_item url_parses) l = Ok tt ↔ Forall (item_ok url_parses) l).
    { rewrite for_each_Ok. apply Forall_iff, validate_item_ok. }
    destruct (32 <? _) eqn:H2; boolify; naive_solver lia.
  - split; [done|]. by intros (? & -> & _).
Qed.
End facts.

#[export] Instance details_ok_dec url_parses v : Decision (details_ok url_parses v).
Proof.
  destruct (validate_authorization_details url_parses v) as [[]|] eqn:H.
  - left. by apply validate_details_ok.
  - right. intros ?%validate_details_ok. congruence.
Defined.

Lemma normalize_ok url_parses v : details_ok url_parses v →
  normalize_authorization_details url_parses v = Ok v.
Proof.
  intros Hok. assert (Hv := proj2 (validate_details_ok url_parses v) Hok).
  destruct Hok as (items & -> & _). unfold normalize_authorization_details. by rewrite Hv.
Qed.

(** C28: the server accepts exactly the authorization details its policy
    describes.  A request's parameter is accepted when it is absent, or when it
    is at most 16 KiB of JSON and its value has at most 32 items, each an object
    of a supported type, a credential named by exactly one of its configuration
    and its format, with [https] locations, and 1 to 32 non-blank actions where
    it names actions.  Reading a stored value back accepts the same values
    unchanged, and reads [null] and the empty object as no details. *)
Theorem authorization_details_accepted url_parses (from_str : string → option Value) raw stored v :
  (parse_authorization_details url_parses from_str raw = Ok v ↔
     (raw = None ∧ v = JArray []) ∨
     ∃ text, raw = Some text ∧ len text ≤ 16384 ∧ from_str text = Some v ∧ details_ok url_parses v) ∧
  (normalize_authorization_details url_parses stored = Ok v ↔
     (v = JArray [] ∧ (stored = JNull ∨ stored = JObject [])) ∨ (v = stored ∧ details_ok url_parses v)).
Proof.
  split.
  - unfold parse_authorization_details. destruct raw as [text|]; [|naive_solver].
    unfold AUTHORIZATION_DETAILS_MAX_BYTES. destruct (_ <? len text) eqn:Hl; boolify.
    { split; [done|]. intros [[? ?]|(? & [= <-] & ? & _)]; [done|lia]. }
    destruct (from_str text) as [w|] eqn:Hf; simpl; [|naive_solver].
    destruct (validate_authorization_details url_parses w) as [[]|] eqn:Hv.
    + apply validate_details_ok in Hv. naive_solver lia.
    + split; [done|]. intros [[? ?]|(? & [= <-] & _ & Hw & Hok%validate_details_ok)]; [done|].
      simplify_eq. congruence.
  - split.
    + unfold normalize_authorization_details. intros H.
      destruct stored as [| | | | |[|]]; try (by left; naive_solver); right;
        destruct (validate_authorization_details url_parses _) as [[]|] eqn:Hv; simplify_eq;
        by apply validate_details_ok in Hv.
    + intros [[-> [-> | ->]]|[-> Hok]]; [done..|]. by apply normalize_ok.
Qed.
