(* ===== verification/UriPolicy.v ===== *)
(** * URLs, redirect URIs, resource indicators and PKCE values

    [uri_policy.rs], [resource_indicator.rs] and the value checks of
    [sender_constraint.rs] in [crates/authorization-server-core/src].  The [url]
    crate is a parameter: [Url] is what its parser returns, with its accessors.
    So are [serde_json] and base64. *)
From Stdlib Require Import Ascii.
From stdpp Require Import base sets list strings gmap.
From S2P Require Import Prelude Text Json ExampleCodec.

Local Open Scope string_scope.
Local Open Scope rust_scope.
Open Scope Z_scope.

Inductive Host :=
| Domain (name : string)
| Ipv4 (address : Z)
| Ipv6 (address : Z).

#[export] Instance Host_eq_dec : EqDecision Host.
Proof. solve_decision. Defined.

(** A parsed URL: the accessors the program calls. *)
Record Url := {
  url_scheme : string;
  url_host : option Host;
  url_host_str : option string;
  url_username : string;
  url_password : option string;
  url_port : option Z;
  url_path : string;
  url_query : option string;
  url_fragment : option string;
}.

Definition has_host (u : Url) : bool := is_some u.(url_host).

(** [Ipv4Addr::is_loopback]: [127.0.0.0/8]; [Ipv6Addr::is_loopback]: [::1]. *)
Definition is_loopback_host (u : Url) : bool :=
  match u.(url_host) with
  | Some (Domain host) => eq_ignore_ascii_case host "localhost"
  | Some (Ipv4 addr) => Z.shiftr addr 24 =? 127
  | Some (Ipv6 addr) => addr =? 1
  | None => false
  end.

Inductive UriError :=
| Whitespace | NotAbsolute | NoHost | TrailingSlash | Credentials | QueryOrFragment | NotOrigin
| HasFragment | InsecureScheme | Wildcard | HttpRedirect | RedirectScheme.

Inductive RedirectUriError := RedirectMissing | RedirectInvalid.

Inductive ResourceIndicatorError := ResourceInvalid | ResourceDuplicate.

Definition INTERNAL_RESOURCE_SET_PREFIX : string := "nazo-internal-resource-set:".

(** Validates an RFC 7636 [code_verifier] or [code_challenge] value. *)
Definition is_valid_pkce_value (value : string) : bool :=
  in_range 43 128 (len value)
  && forallb (fun c => is_ascii_alphanumeric c || bool_decide (c ∈ ["-"; "."; "_"; "~"]%char)) (bytes value).

Section policy.
Context (parse : string → option Url).

Definition parse_url (value : string) : result Url UriError :=
  if negb (bool_decide (value = trim value)) then Err Whitespace
  else ok_or (parse value) NotAbsolute.

Definition validate_https_or_loopback_http (u : Url) : result unit UriError :=
  if bool_decide (u.(url_scheme) = "https") then Ok tt
  else if bool_decide (u.(url_scheme) = "http") && is_loopback_host u then Ok tt
  else Err InsecureScheme.

Definition has_explicit_userinfo (value : string) : bool :=
  is_some_and (split_once "://" value) (fun '(_, remainder) =>
    contains_char (until ["/"; "?"; "#"]%char remainder) "@").

Definition reject_url_credentials (value : string) (u : Url) : result unit UriError :=
  if has_explicit_userinfo value || negb (is_empty u.(url_username)) || is_some u.(url_password)
  then Err Credentials else Ok tt.

Definition validate_issuer_url (value : string) : result Url UriError :=
  let? url := parse_url value in
  if negb (has_host url) then Err NoHost
  else if ends_with_char value "/" then Err TrailingSlash
  else
    let? _ := reject_url_credentials value url in
    if is_some url.(url_query) || is_some url.(url_fragment) then Err QueryOrFragment
    else let? _ := validate_https_or_loopback_http url in Ok url.

Definition validate_frontend_base_url (value : string) : result unit UriError :=
  let? url := parse_url value in
  if negb (has_host url) then Err NoHost
  else
    let? _ := reject_url_credentials value url in
    if is_some url.(url_query) || is_some url.(url_fragment) then Err QueryOrFragment
    else validate_https_or_loopback_http url.

Definition validate_cors_origin (value : string) : result unit UriError :=
  let? url := parse_url value in
  if negb (has_host url) then Err NoHost
  else
    let? _ := reject_url_credentials value url in
    if negb (bool_decide (url.(url_path) = "/")) || is_some url.(url_query)
       || is_some url.(url_fragment)
    then Err NotOrigin
    else validate_https_or_loopback_http url.

Definition validate_http_endpoint (value : string) : result Url UriError :=
  let? url := parse_url value in
  if negb (has_host url) then Err NoHost
  else
    let? _ := reject_url_credentials value url in
    if is_some url.(url_fragment) then Err HasFragment
    else let? _ := validate_https_or_loopback_http url in Ok url.

Definition validate_oauth_redirect_uri (client_type value : string) : result unit UriError :=
  if contains_char value "*" then Err Wildcard
  else
    let? uri := parse_url value in
    let? _ := reject_url_credentials value uri in
    if is_some uri.(url_fragment) then Err HasFragment
    else if bool_decide (uri.(url_scheme) = "https") then Ok tt
    else if bool_decide (uri.(url_scheme) = "http") then
      if negb (bool_decide (client_type = "public")) || negb (is_loopback_host uri)
      then Err HttpRedirect else Ok tt
    else if bool_decide (client_type = "public") && contains_char uri.(url_scheme) "."
    then Ok tt
    else Err RedirectScheme.

Definition oauth_redirect_uri_matches (client_type registered requested : string) : bool :=
  if decide (registered = requested) then true
  else if negb (bool_decide (client_type = "public")) then false
  else match parse registered, parse requested with
  | Some registered, Some requested =>
      bool_decide (registered.(url_scheme) = "http")
      && bool_decide (requested.(url_scheme) = "http")
      && is_loopback_host registered
      && is_loopback_host requested
      && bool_decide (registered.(url_host_str) = requested.(url_host_str))
      && bool_decide (registered.(url_username) = requested.(url_username))
      && bool_decide (registered.(url_password) = requested.(url_password))
      && bool_decide (registered.(url_path) = requested.(url_path))
      && bool_decide (registered.(url_query) = requested.(url_query))
      && bool_decide (registered.(url_fragment) = requested.(url_fragment))
  | _, _ => false
  end.

Definition resolve_registered_redirect_uri (client_type : string) (registered : list string)
    (requested_redirect_uri : option string) : result string RedirectUriError :=
  match requested_redirect_uri with
  | Some value =>
      if existsb (fun r => oauth_redirect_uri_matches client_type r value) registered
      then Ok value else Err RedirectInvalid
  | None => match registered with [only] => Ok only | _ => Err RedirectMissing end
  end.

Definition is_loopback_http_url (value : string) : bool :=
  is_some_and (parse value) (fun url => bool_decide (url.(url_scheme) = "http") && is_loopback_host url).

(** The loop of [parse_resource_indicators]; [seen] is its [HashSet]. *)
Fixpoint check_resources (seen : gset string) (values : list string)
    : result unit ResourceIndicatorError :=
  match values with
  | [] => Ok tt
  | value :: values =>
      let? parsed := ok_or (parse value) ResourceInvalid in
      if is_some parsed.(url_fragment) then Err ResourceInvalid
      else if bool_decide (value ∈ seen) then Err ResourceDuplicate
      else check_resources ({[ value ]} ∪ seen) values
  end.

Definition parse_resource_indicators (values : list string)
    : result (list string) ResourceIndicatorError :=
  let? _ := check_resources ∅ values in Ok values.

(** [serde_json] for [Vec<String>]. *)
Context (strings_from_str : string → option (list string)) (strings_to_string : list string → string).

Definition parse_resource_indicator_parameter (value : option string)
    : result (list string) ResourceIndicatorError :=
  match value with
  | None => Ok []
  | Some value =>
      match strip INTERNAL_RESOURCE_SET_PREFIX value with
      | Some encoded =>
          let? values := ok_or (strings_from_str encoded) ResourceInvalid in
          parse_resource_indicators values
      | None => parse_resource_indicators [value]
      end
  end.

Definition encode_resource_indicators (values : list string) : option string :=
  match values with
  | [] => None
  | _ => Some (INTERNAL_RESOURCE_SET_PREFIX +:+ strings_to_string values)
  end.
End policy.

(** ** What the policies promise *)

(** A URL that is [https], or [http] to the local machine. *)
Definition secure_url (u : Url) : Prop :=
  u.(url_scheme) = "https" ∨ (u.(url_scheme) = "http" ∧ is_loopback_host u = true).

Definition no_credentials (value : string) (u : Url) : Prop :=
  has_explicit_userinfo value = false ∧ u.(url_username) = "" ∧ u.(url_password) = None.

(** Everything but the port. *)
Definition same_but_port (u v : Url) : Prop :=
  u.(url_scheme) = v.(url_scheme) ∧ u.(url_host_str) = v.(url_host_str) ∧
  u.(url_username) = v.(url_username) ∧ u.(url_password) = v.(url_password) ∧
  u.(url_path) = v.(url_path) ∧ u.(url_query) = v.(url_query) ∧ u.(url_fragment) = v.(url_fragment).

(** The native-app exception: a loopback redirect of a public client on another port. *)
Definition loopback_variant (parse : string → option Url) (registered requested : string) : Prop :=
  ∃ u v, parse registered = Some u ∧ parse requested = Some v ∧ u.(url_scheme) = "http" ∧
    is_loopback_host u = true ∧ is_loopback_host v = true ∧ same_but_port u v.

Definition resource_ok (parse : string → option Url) (value : string) : Prop :=
  ∃ u, parse value = Some u ∧ u.(url_fragment) = None.

(** ** Facts *)

Lemma is_some_false {A} (o : option A) : is_some o = false ↔ o = None.
Proof. by destruct o. Qed.

Section facts.
Context (parse : string → option Url).

Lemma parse_url_Ok value u :
  parse_url parse value = Ok u ↔ value = trim value ∧ parse value = Some u.
Proof.
  unfold parse_url. destruct (bool_decide (value = trim value)) eqn:H; boolify; simpl.
  - destruct (parse value); simpl; naive_solver.
  - naive_solver.
Qed.

Lemma credentials_Ok value u : reject_url_credentials value u = Ok tt ↔ no_credentials value u.
Proof.
  unfold reject_url_credentials, no_credentials.
  rewrite <- is_some_false, <- is_empty_true.
  destruct (has_explicit_userinfo value), (is_empty _), (is_some _); simpl; naive_solver.
Qed.

Lemma secure_Ok u : validate_https_or_loopback_http u = Ok tt ↔ secure_url u.
Proof.
  unfold validate_https_or_loopback_http, secure_url.
  destruct (bool_decide (url_scheme u = "https")) eqn:H1; boolify; [naive_solver|].
  destruct (bool_decide (url_scheme u = "http")) eqn:H2; boolify; simpl; [|naive_solver].
  destruct (is_loopback_host u); naive_solver.
Qed.

(** The checks in sequence, as a conjunction. *)
Lemma let_Ok {A B E} (r : result A E) (k : A → result B E) b :
  (let? a := r in k a) = Ok b ↔ ∃ a, r = Ok a ∧ k a = Ok b.
Proof. destruct r; naive_solver. Qed.

Lemma if_Err {A E} (c : bool) (e : E) (r : result A E) a :
  (if c then Err e else r) = Ok a ↔ c = false ∧ r = Ok a.
Proof. destruct c; naive_solver. Qed.

Lemma ex_unit (P : unit → Prop) : (∃ x, P x) ↔ P tt.
Proof. split; [by intros [[] ?]|eauto]. Qed.

Lemma has_host_spec u : negb (has_host u) = false ↔ is_Some u.(url_host).
Proof. unfold has_host. rewrite negb_false_iff. destruct (url_host u); simpl; naive_solver. Qed.

Lemma redirect_Ok client_type value :
  validate_oauth_redirect_uri parse client_type value = Ok tt ↔
  contains_char value "*" = false ∧ ∃ u, value = trim value ∧ parse value = Some u ∧
    no_credentials value u ∧ u.(url_fragment) = None ∧
    (u.(url_scheme) = "https" ∨
     (client_type = "public" ∧ u.(url_scheme) = "http" ∧ is_loopback_host u = true) ∨
     (client_type = "public" ∧ u.(url_scheme) ≠ "http" ∧ contains_char u.(url_scheme) "." = true)).
Proof.
  unfold validate_oauth_redirect_uri. rewrite if_Err, let_Ok.
  apply and_iff_compat_l. f_equiv. intros u. rewrite parse_url_Ok, let_Ok, ex_unit.
  rewrite credentials_Ok, if_Err, is_some_false, !(assoc (∧)). apply and_iff_compat_l.
  destruct (bool_decide (url_scheme u = "https")) eqn:H1; boolify; [naive_solver|].
  destruct (bool_decide (url_scheme u = "http")) eqn:H2; boolify;
    destruct (bool_decide (client_type = "public")) eqn:H3; boolify;
    destruct (is_loopback_host u), (contains_char (url_scheme u) "."); naive_solver.
Qed.

Lemma redirect_matches client_type registered requested :
  oauth_redirect_uri_matches parse client_type registered requested = true ↔
  registered = requested ∨ (client_type = "public" ∧ loopback_variant parse registered requested).
Proof.
  unfold oauth_redirect_uri_matches, loopback_variant, same_but_port. case_decide; [naive_solver|].
  destruct (bool_decide (client_type = "public")) eqn:Hp; boolify; simpl; [|naive_solver].
  destruct (parse registered) as [u|]; [|naive_solver]. destruct (parse requested) as [v|]; [|naive_solver].
  rewrite !andb_true_iff, !bool_decide_eq_true. split.
  - intros. right. split; [done|]. exists u, v. naive_solver congruence.
  - intros [?|[_ (? & ? & [= <-] & [= <-] & Hs & ? & ? & Hs' & ?)]]; [done|]. naive_solver congruence.
Qed.

Lemma existsb_elem {A} (f : A → bool) l : existsb f l = true ↔ ∃ x, x ∈ l ∧ f x = true.
Proof.
  rewrite existsb_exists. f_equiv. intros x. by rewrite list_elem_of_In.
Qed.

Lemma check_resources_Ok seen values :
  check_resources parse seen values = Ok tt ↔
  Forall (resource_ok parse) values ∧ NoDup values ∧ ∀ v, v ∈ values → v ∉ seen.
Proof.
  revert seen. induction values as [|v values IH]; intros seen; simpl.
  { split; [|done]. intros _. split_and!; [constructor..|set_solver]. }
  rewrite Forall_cons, NoDup_cons. unfold resource_ok at 1.
  destruct (parse v) as [u|]; simpl; [|naive_solver].
  destruct (url_fragment u) eqn:Hf; simpl.
  { split; [naive_solver|]. intros [[(? & [= <-] & ?) _] _]. congruence. }
  destruct (bool_decide (v ∈ seen)) eqn:Hs; boolify; [set_solver|].
  split.
  - intros (? & ? & Hn)%IH.
    split_and!; [naive_solver|done| |done|set_solver]. intros Hv. apply (Hn v Hv). set_solver.
  - intros ([_ ?] & [? ?] & ?). apply IH. set_solver.
Qed.

Lemma resources_Ok values vs :
  parse_resource_indicators parse values = Ok vs ↔
  vs = values ∧ NoDup values ∧ Forall (resource_ok parse) values.
Proof.
  unfold parse_resource_indicators. rewrite let_Ok, ex_unit, check_resources_Ok. set_solver.
Qed.
End facts.

(** C26: where an authorization response may be sent.  A redirect URI is resolved
    exactly when the client has one registered and names none, or names one it
    registered, or is a public client naming a loopback [http] URI that differs
    from a registered one in its port only.  When the registered URIs passed the
    registration policy, the resolved one is a URL without fragment that is
    [https], or a public client's loopback [http] or private scheme. *)
Theorem redirect_resolution parse client_type registered requested v :
  (resolve_registered_redirect_uri parse client_type registered requested = Ok v ↔
     (requested = None ∧ registered = [v]) ∨
     (requested = Some v ∧ ∃ r, r ∈ registered ∧
        (r = v ∨ (client_type = "public" ∧ loopback_variant parse r v)))) ∧
  ((∀ r, r ∈ registered → validate_oauth_redirect_uri parse client_type r = Ok tt) →
   resolve_registered_redirect_uri parse client_type registered requested = Ok v →
   ∃ u, parse v = Some u ∧ u.(url_fragment) = None ∧
     (u.(url_scheme) = "https" ∨
      (client_type = "public" ∧
       ((u.(url_scheme) = "http" ∧ is_loopback_host u = true) ∨
        (u.(url_scheme) ≠ "http" ∧ contains_char u.(url_scheme) "." = true))))).
Proof.
  assert (Hiff : resolve_registered_redirect_uri parse client_type registered requested = Ok v ↔
     (requested = None ∧ registered = [v]) ∨
     (requested = Some v ∧ ∃ r, r ∈ registered ∧
        (r = v ∨ (client_type = "public" ∧ loopback_variant parse r v)))).
  { unfold resolve_registered_redirect_uri. destruct requested as [w|].
    - destruct (existsb _ _) eqn:He.
      + apply existsb_elem in He as (r & Hr & Hm%redirect_matches). naive_solver.
      + split; [done|]. intros [[? _]|([= ->] & r & Hr & Hm%redirect_matches)]; [done|].
        apply not_true_iff_false in He. destruct He. apply existsb_elem. eauto.
    - destruct registered as [|r [|]]; naive_solver. }
  split; [done|]. intros Hreg [[_ ->]|(_ & r & Hr & Hm)]%Hiff.
  - assert (Hv : v ∈ [v]) by set_solver. apply Hreg, redirect_Ok in Hv as [_ Hv]. naive_solver.
  - apply Hreg, redirect_Ok in Hr as [_ (u & _ & Hu & _ & Hf & Hs)].
    destruct Hm as [->|[Hp (u' & w & Hu' & Hw & Hh & _ & Hl & Hsame)]]; [naive_solver|].
    destruct Hsame as (Hs' & _ & _ & _ & _ & _ & Hf'). simplify_eq.
    exists w. split_and!; [done|congruence|]. right. split; [done|]. left. split; congruence.
Qed.

(** Two loopback URLs on different ports. *)
Definition example_urls (s : string) : option Url :=
  let u port := Some {| url_scheme := "http"; url_host := Some (Ipv4 2130706433);
    url_host_str := Some "127.0.0.1"; url_username := ""; url_password := None; url_port := Some port;
    url_path := "/cb"; url_query := None; url_fragment := None |} in
  if decide (s = "http://127.0.0.1:1/cb") then u 1
  else if decide (s = "http://127.0.0.1:2/cb") then u 2 else None.

Lemma redirect_resolution_witness :
  ∃ u, example_urls "http://127.0.0.1:2/cb" = Some u ∧ u.(url_fragment) = None.
Proof.
  destruct (proj2 (redirect_resolution example_urls "public" ["http://127.0.0.1:1/cb"]
    (Some "http://127.0.0.1:2/cb") "http://127.0.0.1:2/cb")) as (u & Hu & Hf & _).
  - intros r Hr. apply list_elem_of_singleton in Hr as ->. vm_compute. reflexivity.
  - vm_compute. reflexivity.
  - exists u. split; [exact Hu|exact Hf].
Defined.

(** The configured URLs.  An issuer, a frontend base, a CORS origin and an
    HTTP endpoint are accepted exactly when they are absolute URLs with a host,
    written without surrounding blanks and credentials (an empty user before
    [@] included), [https] or loopback [http], and an issuer has no query, no
    fragment and no trailing slash, an origin neither path, query nor fragment,
    a frontend base neither query nor fragment, an endpoint no fragment. *)
Theorem configured_urls parse value u :
  (validate_issuer_url parse value = Ok u ↔
     parse value = Some u ∧ value = trim value ∧ no_credentials value u ∧ is_Some u.(url_host) ∧
     ends_with_char value "/" = false ∧ u.(url_query) = None ∧ u.(url_fragment) = None ∧
     secure_url u) ∧
  (validate_http_endpoint parse value = Ok u ↔
     parse value = Some u ∧ value = trim value ∧ no_credentials value u ∧ is_Some u.(url_host) ∧
     u.(url_fragment) = None ∧ secure_url u) ∧
  (validate_frontend_base_url parse value = Ok tt ↔
     ∃ w, parse value = Some w ∧ value = trim value ∧ no_credentials value w ∧ is_Some w.(url_host) ∧
       w.(url_query) = None ∧ w.(url_fragment) = None ∧ secure_url w) ∧
  (validate_cors_origin parse value = Ok tt ↔
     ∃ w, parse value = Some w ∧ value = trim value ∧ no_credentials value w ∧ is_Some w.(url_host) ∧
       w.(url_path) = "/" ∧ w.(url_query) = None ∧ w.(url_fragment) = None ∧ secure_url w).
Proof.
  unfold validate_issuer_url, validate_http_endpoint, validate_frontend_base_url, validate_cors_origin.
  repeat (setoid_rewrite let_Ok || setoid_rewrite if_Err || setoid_rewrite ex_unit).
  unfold no_credentials.
  repeat (setoid_rewrite secure_Ok || setoid_rewrite ok_or_Ok || setoid_rewrite is_empty_true
    || setoid_rewrite has_host_spec || setoid_rewrite orb_false_iff || setoid_rewrite is_some_false
    || setoid_rewrite negb_false_iff || setoid_rewrite bool_decide_eq_true).
  split_and!; naive_solver.
Qed.

(** Resource indicators.  A list is accepted exactly when every value is an
    absolute URL without fragment and none is repeated, and it is passed on
    unchanged; the private encoding of repeated parameters gives the accepted
    list back. *)
Theorem resource_indicators_roundtrip parse strings_from_str strings_to_string values vs :
  (∀ l, strings_from_str (strings_to_string l) = Some l) →
  (parse_resource_indicators parse values = Ok vs ↔
     vs = values ∧ NoDup values ∧ Forall (resource_ok parse) values) ∧
  (NoDup values → Forall (resource_ok parse) values →
   parse_resource_indicator_parameter parse strings_from_str
     (encode_resource_indicators strings_to_string values) = Ok values).
Proof.
  intros Hc. split; [apply resources_Ok|]. intros Hd Hf. destruct values as [|v values]; [done|].
  unfold parse_resource_indicator_parameter, encode_resource_indicators.
  rewrite strip_app, Hc. by apply resources_Ok.
Qed.


Lemma resource_indicators_roundtrip_witness :
  parse_resource_indicator_parameter example_urls parse_strings
    (encode_resource_indicators print_strings ["http://127.0.0.1:1/cb"; "http://127.0.0.1:2/cb"])
  = Ok ["http://127.0.0.1:1/cb"; "http://127.0.0.1:2/cb"].
Proof.
  apply (proj2 (resource_indicators_roundtrip example_urls parse_strings print_strings
    ["http://127.0.0.1:1/cb"; "http://127.0.0.1:2/cb"] [] parse_print_strings)).
  - apply (bool_decide_unpack _). vm_compute. exact I.
  - repeat constructor; eexists; split; reflexivity.
Defined.
