(* ===== verification/AuthorizationPolicy.v ===== *)
(** * The authorization request policy

    [authorization_policy.rs] of [crates/authorization-server-core/src], with the
    parameter functions it calls ([oauth_parameters.rs], [claims.rs]): what an
    authorization request may ask for, whether the user's session satisfies it,
    and how the response is returned.  The parameters are a map from names to
    values; [url], [serde_json] and base64 are parameters of the policy. *)
From Stdlib Require Import Ascii.
From stdpp Require Import base sets list strings gmap.
From S2P Require Import Prelude Text Json AuthorizationDetails UriPolicy.

Local Open Scope string_scope.
Local Open Scope rust_scope.
Open Scope Z_scope.

(** ** Parameters and claims *)

Definition parse_scope (raw : string) : list string :=
  filter (fun s => negb (is_empty s) = true) (split_char " " raw).

Definition is_subset (requested allowed : list string) : bool :=
  forallb (fun value => bool_decide (value ∈ allowed)) requested.

Definition SUPPORTED_USER_CLAIMS : list string :=
  ["preferred_username"; "name"; "given_name"; "family_name"; "middle_name"; "nickname"; "profile";
   "picture"; "website"; "gender"; "birthdate"; "zoneinfo"; "locale"; "updated_at"; "email";
   "email_verified"; "address"; "phone_number"; "phone_number_verified"].

Definition supported_user_claim (name : string) : bool := bool_decide (name ∈ SUPPORTED_USER_CLAIMS).

Record OidcClaimRequest := {
  cr_name : string;
  cr_essential : bool;
  cr_value : option Value;
  cr_values : list Value;
}.

(** ** Data *)

Definition BASELINE_ACR_VALUE : string := "1".
Definition AUTHORIZATION_NONCE_MAX_CHARS : Z := 64.

Record PromptDirectives := {
  pr_login : bool;
  pr_consent : bool;
  pr_select_account : bool;
  pr_none : bool;
}.

Record RequestedClaims := {
  rc_userinfo : list OidcClaimRequest;
  rc_id_token : list OidcClaimRequest;
  rc_acr : option OidcClaimRequest;
  rc_auth_time : bool;
}.

Record AuthorizationClientPolicy := {
  cp_client_type : string;
  cp_allowed_scopes : list string;
  cp_allowed_audiences : list string;
}.

Record AuthorizationCapabilityPolicy := {
  cap_authorization_details : bool;
  cap_jarm : bool;
  cap_native_sso : bool;
  cap_form_post : bool;
}.

Record AuthorizationProfilePolicy := {
  pp_signed_authorization_response_required : bool;
  pp_pkce_required : bool;
}.

Record NormalizedAuthorizationRequest := {
  nr_response_mode : option string;
  nr_code_challenge : option string;
  nr_prompt : PromptDirectives;
  nr_max_age : option Z;
  nr_requested_claims : RequestedClaims;
  nr_acr : option string;
  nr_scopes : list string;
  nr_resources : list string;
  nr_authorization_details : Value;
  nr_dpop_jkt : option string;
}.

Inductive AuthorizationPolicyError :=
| InvalidRequest | InvalidScope | InvalidTarget | UnsupportedResponseType | UnsupportedResponseMode.

Definition oauth_error (e : AuthorizationPolicyError) : string :=
  match e with
  | InvalidRequest => "invalid_request"
  | InvalidScope => "invalid_scope"
  | InvalidTarget => "invalid_target"
  | UnsupportedResponseType => "unsupported_response_type"
  | UnsupportedResponseMode => "unsupported_response_mode"
  end.

Notation params := (gmap string string).

(** ** Prompt *)

Definition no_prompt : PromptDirectives :=
  {| pr_login := false; pr_consent := false; pr_select_account := false; pr_none := false |}.

Definition prompt_value (d : PromptDirectives) (value : string)
    : result PromptDirectives AuthorizationPolicyError :=
  if decide (value = "login") then
    Ok {| pr_login := true; pr_consent := d.(pr_consent);
          pr_select_account := d.(pr_select_account); pr_none := d.(pr_none) |}
  else if decide (value = "consent") then
    Ok {| pr_login := d.(pr_login); pr_consent := true;
          pr_select_account := d.(pr_select_account); pr_none := d.(pr_none) |}
  else if decide (value = "select_account") then
    Ok {| pr_login := d.(pr_login); pr_consent := d.(pr_consent);
          pr_select_account := true; pr_none := d.(pr_none) |}
  else if decide (value = "none") then
    Ok {| pr_login := d.(pr_login); pr_consent := d.(pr_consent);
          pr_select_account := d.(pr_select_account); pr_none := true |}
  else Err InvalidRequest.

Fixpoint prompt_values (d : PromptDirectives) (values : list string)
    : result PromptDirectives AuthorizationPolicyError :=
  match values with
  | [] => Ok d
  | value :: values => let? d := prompt_value d value in prompt_values d values
  end.

Definition requested_prompt (parameters : params) : result PromptDirectives AuthorizationPolicyError :=
  match parameters !! "prompt" with
  | None => Ok no_prompt
  | Some raw =>
      let? directives := prompt_values no_prompt (split_whitespace raw) in
      if directives.(pr_none)
         && (directives.(pr_login) || directives.(pr_consent) || directives.(pr_select_account))
      then Err InvalidRequest
      else Ok directives
  end.

(** ** Requested claims *)

Definition parse_optional_claim_request (name : option string) (value : Value)
    : result (option OidcClaimRequest) AuthorizationPolicyError :=
  match value with
  | JNull => Ok ((fun name => {| cr_name := name; cr_essential := false; cr_value := None;
                                 cr_values := [] |}) <$> name)
  | _ =>
      let? object := ok_or (as_object value) InvalidRequest in
      let? essential :=
        match object_get object "essential" with
        | Some value => ok_or (as_bool value) InvalidRequest
        | None => Ok false
        end in
      if is_some (object_get object "value") && is_some (object_get object "values")
      then Err InvalidRequest
      else
        let? requested_values :=
          match object_get object "values" with
          | Some values =>
              match as_array values with
              | Some (v :: vs) => Ok (v :: vs)
              | _ => Err InvalidRequest
              end
          | None => Ok []
          end in
        Ok ((fun name => {| cr_name := name; cr_essential := essential;
                            cr_value := object_get object "value";
                            cr_values := requested_values |}) <$> name)
  end.

Definition parse_claim_request (name : string) (value : Value)
    : result OidcClaimRequest AuthorizationPolicyError :=
  let? request := parse_optional_claim_request (Some name) value in ok_or request InvalidRequest.

(** The loop over an object's members. *)
Fixpoint claim_requests (members : list (string * Value))
    : result (list OidcClaimRequest) AuthorizationPolicyError :=
  match members with
  | [] => Ok []
  | (name, request) :: members =>
      if supported_user_claim name then
        let? r := parse_claim_request name request in
        let? rs := claim_requests members in Ok (r :: rs)
      else
        let? _ := parse_optional_claim_request None request in claim_requests members
  end.

(** [sort_by] on the names: a stable insertion. *)
Fixpoint insert_by_name (r : OidcClaimRequest) (l : list OidcClaimRequest) : list OidcClaimRequest :=
  match l with
  | [] => [r]
  | s :: l' => if key_lt s.(cr_name) r.(cr_name) then s :: insert_by_name r l' else r :: l
  end.

Definition sort_by_name (l : list OidcClaimRequest) : list OidcClaimRequest :=
  foldr insert_by_name [] l.

(** The object a claims target names: absent, an object, or an error. *)
Definition target_object (value : option Value)
    : result (option (list (string * Value))) AuthorizationPolicyError :=
  match value with
  | None => Ok None
  | Some value => let? object := ok_or (as_object value) InvalidRequest in Ok (Some object)
  end.

Definition requested_claim_requests (value : option Value)
    : result (list OidcClaimRequest) AuthorizationPolicyError :=
  let? object := target_object value in
  match object with
  | None => Ok []
  | Some object => let? requests := claim_requests object in Ok (sort_by_name requests)
  end.

Definition requested_acr_claim (value : option Value)
    : result (option OidcClaimRequest) AuthorizationPolicyError :=
  let? object := target_object value in
  match object with
  | None => Ok None
  | Some object =>
      match object_get object "acr" with
      | None => Ok None
      | Some acr => let? r := parse_claim_request "acr" acr in Ok (Some r)
      end
  end.

Definition requested_auth_time_claim (value : option Value) : result bool AuthorizationPolicyError :=
  let? object := target_object value in
  match object with
  | None => Ok false
  | Some object =>
      match object_get object "auth_time" with
      | None => Ok false
      | Some auth_time => let? _ := parse_optional_claim_request None auth_time in Ok true
      end
  end.

Definition acr_value_is_baseline (value : Value) : result bool AuthorizationPolicyError :=
  ok_or ((fun value => bool_decide (value = BASELINE_ACR_VALUE)) <$> as_str value) InvalidRequest.

(** [try_fold(false, ..)] *)
Fixpoint any_baseline (supported : bool) (values : list Value) : result bool AuthorizationPolicyError :=
  match values with
  | [] => Ok supported
  | value :: values =>
      let? b := acr_value_is_baseline value in any_baseline (supported || b) values
  end.

Definition supports_baseline (claim : OidcClaimRequest) : result bool AuthorizationPolicyError :=
  let? by_value :=
    match claim.(cr_value) with Some value => acr_value_is_baseline value | None => Ok false end in
  if by_value : bool then Ok true else any_baseline false claim.(cr_values).

Definition acr_from_values (parameters : params) : option string :=
  parameters !! "acr_values" ≫= fun values =>
    head (filter (fun value => value = BASELINE_ACR_VALUE) (split_whitespace values)).

Definition requested_acr (parameters : params) (claims_acr : option OidcClaimRequest)
    : result (option string) AuthorizationPolicyError :=
  match claims_acr with
  | None => Ok (acr_from_values parameters)
  | Some claim =>
      let constrained := is_some claim.(cr_value) || negb (bool_decide (claim.(cr_values) = [])) in
      let? supports := supports_baseline claim in
      if claim.(cr_essential) && constrained && negb supports then Err InvalidRequest
      else if negb constrained || supports then Ok (Some BASELINE_ACR_VALUE)
      else Ok (acr_from_values parameters)
  end.

(** ** The request *)

Definition response_mode_of (parameters : params) (capabilities : AuthorizationCapabilityPolicy)
    : result (option string) AuthorizationPolicyError :=
  match parameters !! "response_mode" with
  | None => Ok None
  | Some mode =>
      if decide (mode = "query") then Ok None
      else if decide (mode = "form_post") then
        if capabilities.(cap_form_post) then Ok (Some "form_post") else Err InvalidRequest
      else if decide (mode = "jwt") then
        if capabilities.(cap_jarm) then Ok (Some "jwt") else Err UnsupportedResponseMode
      else Err InvalidRequest
  end.

Definition code_challenge_of (parameters : params) : result (option string) AuthorizationPolicyError :=
  match parameters !! "code_challenge", parameters !! "code_challenge_method" with
  | None, None => Ok None
  | Some challenge, Some method =>
      if bool_decide (method = "S256") && is_valid_pkce_value challenge
      then Ok (Some challenge) else Err InvalidRequest
  | _, _ => Err InvalidRequest
  end.

Definition max_age_of (parameters : params) : result (option Z) AuthorizationPolicyError :=
  match parameters !! "max_age" with
  | None => Ok None
  | Some value =>
      match parse_i64 value with
      | Some z => if 0 <=? z then Ok (Some z) else Err InvalidRequest
      | None => Err InvalidRequest
      end
  end.

Section request.
Context (parse : string → option Url) (from_str : string → option Value).
Context (strings_from_str : string → option (list string)) (is_valid_dpop_jkt : string → bool).

Definition requested_claims (parameters : params) : result RequestedClaims AuthorizationPolicyError :=
  match parameters !! "claims" with
  | None => Ok {| rc_userinfo := []; rc_id_token := []; rc_acr := None; rc_auth_time := false |}
  | Some raw =>
      let? claims := ok_or (from_str raw) InvalidRequest in
      let? claims := ok_or (as_object claims) InvalidRequest in
      let? userinfo := requested_claim_requests (object_get claims "userinfo") in
      let? id_token := requested_claim_requests (object_get claims "id_token") in
      let? acr := requested_acr_claim (object_get claims "id_token") in
      let? auth_time := requested_auth_time_claim (object_get claims "id_token") in
      Ok {| rc_userinfo := userinfo; rc_id_token := id_token; rc_acr := acr; rc_auth_time := auth_time |}
  end.

Definition dpop_jkt_of (parameters : params) : result (option string) AuthorizationPolicyError :=
  match parameters !! "dpop_jkt" with
  | None => Ok None
  | Some value => if is_valid_dpop_jkt value then Ok (Some value) else Err InvalidRequest
  end.

Definition normalize_authorization_request (parameters : params) (client : AuthorizationClientPolicy)
    (capabilities : AuthorizationCapabilityPolicy) (profile : AuthorizationProfilePolicy)
    : result NormalizedAuthorizationRequest AuthorizationPolicyError :=
  if negb (bool_decide (parameters !! "response_type" = Some "code")) then Err UnsupportedResponseType
  else if is_some_and (parameters !! "nonce") (fun nonce =>
            AUTHORIZATION_NONCE_MAX_CHARS <? chars_count nonce) then Err InvalidRequest
  else if is_some (parameters !! "authorization_details")
          && negb capabilities.(cap_authorization_details) then Err InvalidRequest
  else
    let? response_mode := response_mode_of parameters capabilities in
    if profile.(pp_signed_authorization_response_required) && negb capabilities.(cap_jarm)
    then Err UnsupportedResponseMode
    else
      let scopes := parse_scope (unwrap_or (parameters !! "scope") "") in
      let? code_challenge := code_challenge_of parameters in
      let confidential_oidc_compatibility :=
        negb profile.(pp_pkce_required) && bool_decide (client.(cp_client_type) = "confidential")
        && bool_decide ("openid" ∈ scopes) in
      if is_none code_challenge && negb confidential_oidc_compatibility then Err InvalidRequest
      else
        let? prompt := requested_prompt parameters in
        let? max_age := max_age_of parameters in
        let? claims := requested_claims parameters in
        let? acr := requested_acr parameters claims.(rc_acr) in
        if negb (is_subset scopes client.(cp_allowed_scopes)) then Err InvalidScope
        else if negb capabilities.(cap_native_sso) && bool_decide ("device_sso" ∈ scopes)
        then Err InvalidScope
        else
          let? resources :=
            map_err (fun _ => InvalidTarget)
              (parse_resource_indicator_parameter parse strings_from_str (parameters !! "resource")) in
          if negb (bool_decide (resources = [])) && negb (is_subset resources client.(cp_allowed_audiences))
          then Err InvalidTarget
          else
            let? authorization_details :=
              map_err (fun _ => InvalidRequest)
                (parse_authorization_details (fun s => is_some (parse s)) from_str
                   (parameters !! "authorization_details")) in
            let? dpop_jkt := dpop_jkt_of parameters in
            Ok {| nr_response_mode := response_mode; nr_code_challenge := code_challenge;
                  nr_prompt := prompt; nr_max_age := max_age; nr_requested_claims := claims;
                  nr_acr := acr; nr_scopes := scopes; nr_resources := resources;
                  nr_authorization_details := authorization_details; nr_dpop_jkt := dpop_jkt |}.
End request.

(** ** The session *)

Record AuthorizationSession := {
  as_auth_time : Z;
  as_auth_time_micros : option Z;
}.

Inductive AuthorizationSessionDecision :=
| SessionContinue
| SessionLogin (fresh_authentication : bool)
| SessionLoginRequired.

Definition reauthenticated (session : AuthorizationSession) (started : option Z) (now : Z) : bool :=
  is_some_and started (fun started_at =>
    is_some_and session.(as_auth_time_micros) (fun authenticated_at =>
      (0 <? started_at) && (started_at <? authenticated_at)
      && (Z.quot authenticated_at 1000000 =? session.(as_auth_time))
      && (session.(as_auth_time) <=? now))).

Definition authorization_session_decision (session : option AuthorizationSession)
    (prompt : PromptDirectives) (max_age reauthentication_started_at_micros : option Z) (now : Z)
    : AuthorizationSessionDecision :=
  let fresh_authentication :=
    prompt.(pr_login) || prompt.(pr_select_account) || bool_decide (max_age = Some 0) in
  let login := if prompt.(pr_none) then SessionLoginRequired else SessionLogin fresh_authentication in
  match session with
  | None => login
  | Some session =>
      let prompt_requires_fresh_login :=
        fresh_authentication && negb (reauthenticated session reauthentication_started_at_micros now) in
      let max_age_expired :=
        match max_age with
        | None => false
        | Some max_age =>
            if max_age =? 0 then false
            else max_age <? i64_saturating_sub now session.(as_auth_time)
        end in
      if prompt_requires_fresh_login || max_age_expired then login else SessionContinue
  end.

Inductive PromptNoneDecision := IssueAuthorizationCode | ConsentRequired.

Definition prompt_none_decision {E} (grant_covers_request : result bool E) : result PromptNoneDecision E :=
  map_ok (fun covers : bool => if covers then IssueAuthorizationCode else ConsentRequired)
    grant_covers_request.

Inductive UserAuthorizationDecision := UserApprove | UserDeny.

Definition parse_user_authorization_decision (value : string) : option UserAuthorizationDecision :=
  if decide (value = "approve") then Some UserApprove
  else if decide (value = "deny") then Some UserDeny else None.

(** ** The response *)

Record AuthorizationResponsePolicyInput := {
  ri_issuer : string;
  ri_redirect_uri : string;
  ri_client_id : string;
  ri_response_mode : option string;
  ri_code : option string;
  ri_error : option string;
  ri_state : option string;
  ri_ttl_seconds : Z;
  ri_signed_response_required : bool;
  ri_jarm_available : bool;
  ri_session_management_available : bool;
}.

Record PlainAuthorizationResponse := {
  pl_redirect_uri : string;
  pl_parameters : list (string * string);
  pl_issue_session_state : bool;
}.

Record JarmAuthorizationResponse := {
  jr_redirect_uri : string;
  jr_issuer : string;
  jr_client_id : string;
  jr_code : option string;
  jr_error : option string;
  jr_state : option string;
  jr_ttl_seconds : Z;
}.

Inductive AuthorizationResponsePlan :=
| Plain (response : PlainAuthorizationResponse)
| FormPost (response : PlainAuthorizationResponse)
| Jarm (response : JarmAuthorizationResponse).

Inductive AuthorizationResponsePolicyError := ResponseModeUnsupported | MissingClientId.

Definition response_parameters (input : AuthorizationResponsePolicyInput) : list (string * string) :=
  omap (fun '(name, value) => pair name <$> value)
    [("code", input.(ri_code)); ("error", input.(ri_error)); ("state", input.(ri_state))]
  ++ [("iss", input.(ri_issuer))].

Definition plan_authorization_response (input : AuthorizationResponsePolicyInput)
    : result AuthorizationResponsePlan AuthorizationResponsePolicyError :=
  let use_jarm :=
    bool_decide (input.(ri_response_mode) = Some "jwt") || input.(ri_signed_response_required) in
  if use_jarm && negb input.(ri_jarm_available) then Err ResponseModeUnsupported
  else if use_jarm then
    if is_empty (trim input.(ri_client_id)) then Err MissingClientId
    else Ok (Jarm {| jr_redirect_uri := input.(ri_redirect_uri); jr_issuer := input.(ri_issuer);
                     jr_client_id := input.(ri_client_id); jr_code := input.(ri_code);
                     jr_error := input.(ri_error); jr_state := input.(ri_state);
                     jr_ttl_seconds := input.(ri_ttl_seconds) |})
  else
    let response :=
      {| pl_redirect_uri := input.(ri_redirect_uri); pl_parameters := response_parameters input;
         pl_issue_session_state := input.(ri_session_management_available)
           && is_some input.(ri_code) && is_none input.(ri_error) |} in
    Ok (if bool_decide (input.(ri_response_mode) = Some "form_post") then FormPost response
        else Plain response).
