(* ===== verification/AuthorizationPolicyFacts.v ===== *)
(** * What the authorization request policy admits

    The declarative reading of [AuthorizationPolicy]: the requests that are
    accepted and what they become, when a session satisfies a request, and what
    a response carries. *)
From stdpp Require Import base sets list strings gmap.
From S2P Require Import Prelude Text Json ExampleCodec AuthorizationDetails UriPolicy.
From S2P Require Import AuthorizationPolicy.

Local Open Scope string_scope.
Local Open Scope rust_scope.
Open Scope Z_scope.

Definition prompt_names : list string := ["login"; "consent"; "select_account"; "none"].

(** The directives a list of prompt values sets. *)
Definition prompt_of (values : list string) : PromptDirectives :=
  {| pr_login := bool_decide ("login" ∈ values); pr_consent := bool_decide ("consent" ∈ values);
     pr_select_account := bool_decide ("select_account" ∈ values);
     pr_none := bool_decide ("none" ∈ values) |}.

(** [none] stands alone. *)
Definition prompt_ok (parameters : params) (d : PromptDirectives) : Prop :=
  let values := match parameters !! "prompt" with Some raw => split_whitespace raw | None => [] end in
  values ⊆ prompt_names ∧ d = prompt_of values ∧ ("none" ∈ values → values ⊆ ["none"]).

Definition mode_ok (parameters : params) (capabilities : AuthorizationCapabilityPolicy)
    (mode : option string) : Prop :=
  (mode = None ∧ (parameters !! "response_mode" = None ∨ parameters !! "response_mode" = Some "query")) ∨
  (mode = Some "form_post" ∧ parameters !! "response_mode" = mode ∧ capabilities.(cap_form_post) = true) ∨
  (mode = Some "jwt" ∧ parameters !! "response_mode" = mode ∧ capabilities.(cap_jarm) = true).

(** Proof key for code exchange: [S256], and absent only for a confidential
    OpenID client where the profile does not require it. *)
Definition challenge_ok (parameters : params) (client : AuthorizationClientPolicy)
    (profile : AuthorizationProfilePolicy) (scopes : list string) (challenge : option string) : Prop :=
  parameters !! "code_challenge" = challenge ∧
  match challenge with
  | Some c => parameters !! "code_challenge_method" = Some "S256" ∧ is_valid_pkce_value c = true
  | None => parameters !! "code_challenge_method" = None ∧ profile.(pp_pkce_required) = false ∧
      client.(cp_client_type) = "confidential" ∧ "openid" ∈ scopes
  end.

Definition max_age_ok (parameters : params) (max_age : option Z) : Prop :=
  match parameters !! "max_age" with
  | None => max_age = None
  | Some text => ∃ z, parse_i64 text = Some z ∧ 0 ≤ z ∧ max_age = Some z
  end.

Section accepted.
Context (parse : string → option Url) (from_str : string → option Value).
Context (strings_from_str : string → option (list string)) (is_valid_dpop_jkt : string → bool).

(** The resources a request names. *)
Definition named_resources (parameters : params) (resources : list string) : Prop :=
  match parameters !! "resource" with
  | None => resources = []
  | Some text =>
      match strip INTERNAL_RESOURCE_SET_PREFIX text with
      | Some encoded => strings_from_str encoded = Some resources
      | None => resources = [text]
      end
  end.

Definition details_named (parameters : params) (details : Value) : Prop :=
  match parameters !! "authorization_details" with
  | None => details = JArray []
  | Some text => len text ≤ 16384 ∧ from_str text = Some details ∧
      details_ok (fun s => is_some (parse s)) details
  end.

Definition dpop_ok (parameters : params) (jkt : option string) : Prop :=
  parameters !! "dpop_jkt" = jkt ∧ ∀ k, jkt = Some k → is_valid_dpop_jkt k = true.

Definition request_ok (parameters : params) (client : AuthorizationClientPolicy)
    (capabilities : AuthorizationCapabilityPolicy) (profile : AuthorizationProfilePolicy)
    (r : NormalizedAuthorizationRequest) : Prop :=
  parameters !! "response_type" = Some "code" ∧
  (∀ nonce, parameters !! "nonce" = Some nonce → chars_count nonce ≤ 64) ∧
  (is_Some (parameters !! "authorization_details") → capabilities.(cap_authorization_details) = true) ∧
  (profile.(pp_signed_authorization_response_required) = true → capabilities.(cap_jarm) = true) ∧
  mode_ok parameters capabilities r.(nr_response_mode) ∧
  r.(nr_scopes) = parse_scope (unwrap_or (parameters !! "scope") "") ∧
  challenge_ok parameters client profile r.(nr_scopes) r.(nr_code_challenge) ∧
  prompt_ok parameters r.(nr_prompt) ∧
  max_age_ok parameters r.(nr_max_age) ∧
  requested_claims from_str parameters = Ok r.(nr_requested_claims) ∧
  requested_acr parameters r.(nr_requested_claims).(rc_acr) = Ok r.(nr_acr) ∧
  r.(nr_scopes) ⊆ client.(cp_allowed_scopes) ∧
  ("device_sso" ∈ r.(nr_scopes) → capabilities.(cap_native_sso) = true) ∧
  named_resources parameters r.(nr_resources) ∧ NoDup r.(nr_resources) ∧
  Forall (resource_ok parse) r.(nr_resources) ∧ r.(nr_resources) ⊆ client.(cp_allowed_audiences) ∧
  details_named parameters r.(nr_authorization_details) ∧
  dpop_ok parameters r.(nr_dpop_jkt).
End accepted.

(** ** Facts *)

Lemma is_subset_spec l m : is_subset l m = true ↔ l ⊆ m.
Proof.
  unfold is_subset. rewrite forallb_forall. split.
  - intros H x Hx%list_elem_of_In. by apply H, bool_decide_eq_true in Hx.
  - intros H x Hx%list_elem_of_In. apply bool_decide_eq_true. auto.
Qed.

Lemma response_mode_Ok parameters capabilities mode :
  response_mode_of parameters capabilities = Ok mode ↔ mode_ok parameters capabilities mode.
Proof.
  unfold response_mode_of, mode_ok. destruct (parameters !! "response_mode") as [m|]; [|naive_solver].
  repeat case_decide; subst; try (destruct (cap_form_post _)); try (destruct (cap_jarm _)); naive_solver.
Qed.

Lemma max_age_Ok parameters age : max_age_of parameters = Ok age ↔ max_age_ok parameters age.
Proof.
  unfold max_age_of, max_age_ok. destruct (parameters !! "max_age") as [t|]; [|naive_solver].
  destruct (parse_i64 t) as [z|]; [|naive_solver].
  destruct (0 <=? z) eqn:Hz; boolify; naive_solver lia.
Qed.

Lemma dpop_Ok is_valid_dpop_jkt parameters jkt :
  dpop_jkt_of is_valid_dpop_jkt parameters = Ok jkt ↔ dpop_ok is_valid_dpop_jkt parameters jkt.
Proof.
  unfold dpop_jkt_of, dpop_ok. destruct (parameters !! "dpop_jkt") as [k|]; [|naive_solver].
  destruct (is_valid_dpop_jkt k) eqn:Hk; naive_solver congruence.
Qed.

Lemma cons_subseteq (x : string) l m : x :: l ⊆ m ↔ x ∈ m ∧ l ⊆ m.
Proof. set_solver. Qed.

Lemma prompt_of_cons v seen :
  prompt_of (v :: seen) =
  {| pr_login := bool_decide ("login" = v) || (prompt_of seen).(pr_login);
     pr_consent := bool_decide ("consent" = v) || (prompt_of seen).(pr_consent);
     pr_select_account := bool_decide ("select_account" = v) || (prompt_of seen).(pr_select_account);
     pr_none := bool_decide ("none" = v) || (prompt_of seen).(pr_none) |}.
Proof.
  assert (H : ∀ x, bool_decide (x ∈ v :: seen) = bool_decide (x = v) || bool_decide (x ∈ seen)).
  { intros x. rewrite <- bool_decide_or. apply bool_decide_ext, elem_of_cons. }
  unfold prompt_of. by rewrite !H.
Qed.

Lemma prompt_value_cases seen v :
  v ∈ prompt_names ∧ prompt_value (prompt_of seen) v = Ok (prompt_of (v :: seen)) ∨
  v ∉ prompt_names ∧ prompt_value (prompt_of seen) v = Err InvalidRequest.
Proof.
  rewrite prompt_of_cons. unfold prompt_value, prompt_names.
  do 4 (case_decide; [left; subst; split; [repeat constructor|done]|]).
  right. split; [|done]. rewrite !not_elem_of_cons. split_and!; try done. apply not_elem_of_nil.
Qed.

(** Folding the prompt values sets the flags of the values seen. *)
Lemma prompt_values_Ok values seen d :
  prompt_values (prompt_of seen) values = Ok d ↔
  values ⊆ prompt_names ∧ d = prompt_of (values ++ seen).
Proof.
  revert seen. induction values as [|v values IH]; intros seen; simpl.
  { split; [intros [= <-]; split; [set_solver|done]|by intros [_ ->]]. }
  rewrite let_Ok. transitivity (v ∈ prompt_names ∧ prompt_values (prompt_of (v :: seen)) values = Ok d).
  - destruct (prompt_value_cases seen v) as [[? ->]|[? ->]]; naive_solver.
  - rewrite IH. assert (Hp : prompt_of (values ++ v :: seen) = prompt_of (v :: values ++ seen)).
    { assert (Hx : ∀ x, x ∈ (values ++ v :: seen)%list ↔ x ∈ (v :: values ++ seen)%list) by set_solver.
      unfold prompt_of. f_equal; apply bool_decide_ext, Hx. }
    rewrite Hp, cons_subseteq. naive_solver.
Qed.

Lemma prompt_Ok parameters d : requested_prompt parameters = Ok d ↔ prompt_ok parameters d.
Proof.
  unfold requested_prompt, prompt_ok. destruct (parameters !! "prompt") as [raw|]; cycle 1.
  { split; [intros [= <-]|intros (_ & -> & _); done].
    split_and!; [apply list_subseteq_nil|done|]. by intros ?%elem_of_nil. }
  rewrite let_Ok. change no_prompt with (prompt_of []). setoid_rewrite prompt_values_Ok.
  rewrite app_nil_r. set (values := split_whitespace raw).
  assert (Hex : (pr_none (prompt_of values) && (pr_login (prompt_of values) ||
      pr_consent (prompt_of values) || pr_select_account (prompt_of values))) = false ↔
    ("none" ∈ values → "login" ∉ values ∧ "consent" ∉ values ∧ "select_account" ∉ values)).
  { simpl. repeat case_bool_decide; naive_solver. }
  split.
  - intros (p & [Hs ->] & [Hn [= <-]]%if_Err). split_and!; [done..|]. intros Hnone x Hx.
    destruct (proj1 Hex Hn Hnone) as (Hl & Hc & Ha). apply Hs in Hx as Hp. unfold prompt_names in Hp.
    rewrite !elem_of_cons in Hp. destruct Hp as [->|[->|[->|[->|?%elem_of_nil]]]]; try done.
    by apply elem_of_cons; left.
  - intros (Hs & -> & Hn). exists (prompt_of values). split; [done|]. apply if_Err. split; [|done].
    apply Hex. intros Hnone. specialize (Hn Hnone).
    assert (Hne : ∀ x, x ≠ "none" → x ∉ values).
    { intros x Hx Hin%Hn. apply elem_of_cons in Hin as [?|?%elem_of_nil]; done. }
    split_and!; by apply Hne.
Qed.

Lemma code_challenge_Ok parameters challenge :
  code_challenge_of parameters = Ok challenge ↔
  parameters !! "code_challenge" = challenge ∧
  match challenge with
  | Some c => parameters !! "code_challenge_method" = Some "S256" ∧ is_valid_pkce_value c = true
  | None => parameters !! "code_challenge_method" = None
  end.
Proof.
  unfold code_challenge_of.
  destruct (parameters !! "code_challenge") as [c|], (parameters !! "code_challenge_method") as [m|];
    try naive_solver.
  destruct (bool_decide (m = "S256")) eqn:Hm; boolify; simpl; [|naive_solver].
  destruct (is_valid_pkce_value c) eqn:Hc; naive_solver congruence.
Qed.

Lemma nonce_Ok (o : option string) :
  is_some_and o (fun nonce => AUTHORIZATION_NONCE_MAX_CHARS <? chars_count nonce) = false ↔
  ∀ nonce, o = Some nonce → chars_count nonce ≤ 64.
Proof.
  unfold AUTHORIZATION_NONCE_MAX_CHARS. destruct o; simpl; [rewrite Z.ltb_ge|]; naive_solver.
Qed.

Lemma implies_false (a b : bool) : a && negb b = false ↔ (a = true → b = true).
Proof. destruct a, b; naive_solver. Qed.

Lemma is_some_true {A} (o : option A) : is_some o = true ↔ is_Some o.
Proof. destruct o; simpl; naive_solver. Qed.

Lemma no_challenge_Ok_iff (challenge : option string) (compatible : bool) :
  is_none challenge && negb compatible = false ↔ (challenge = None → compatible = true).
Proof. destruct challenge, compatible; naive_solver. Qed.

Lemma resources_named parse strings_from_str (parameters : params) resources :
  parse_resource_indicator_parameter parse strings_from_str (parameters !! "resource") = Ok resources ↔
  named_resources strings_from_str parameters resources ∧ NoDup resources ∧
  Forall (resource_ok parse) resources.
Proof.
  unfold parse_resource_indicator_parameter, named_resources.
  destruct (parameters !! "resource") as [t|]; cycle 1.
  { split; [intros [= <-]|naive_solver]. split_and!; constructor. }
  destruct (strip _ t) as [e|]; [|rewrite resources_Ok; naive_solver].
  destruct (strings_from_str e); simpl; [rewrite resources_Ok|]; naive_solver.
Qed.

Lemma details_named_Ok parse from_str (parameters : params) details :
  parse_authorization_details (fun s => is_some (parse s)) from_str
    (parameters !! "authorization_details") = Ok details ↔
  details_named parse from_str parameters details.
Proof.
  unfold parse_authorization_details, details_named.
  destruct (parameters !! "authorization_details") as [t|]; [|naive_solver].
  rewrite if_Err, let_Ok. setoid_rewrite let_Ok. setoid_rewrite ok_or_Ok. setoid_rewrite ex_unit.
  setoid_rewrite validate_details_ok. unfold AUTHORIZATION_DETAILS_MAX_BYTES. rewrite Z.ltb_ge.
  naive_solver.
Qed.

Lemma targets_Ok resources audiences :
  negb (bool_decide (resources = [])) && negb (is_subset resources audiences) = false ↔
  resources ⊆ audiences.
Proof.
  rewrite implies_false, negb_true_iff, bool_decide_eq_false, is_subset_spec.
  split; [|done]. destruct resources; [intros _; apply list_subseteq_nil|naive_solver].
Qed.

Section request.
Context (parse : string → option Url) (from_str : string → option Value).
Context (strings_from_str : string → option (list string)) (is_valid_dpop_jkt : string → bool).
Context (parameters : params) (client : AuthorizationClientPolicy).
Context (capabilities : AuthorizationCapabilityPolicy) (profile : AuthorizationProfilePolicy).
Notation normalize := (normalize_authorization_request parse from_str strings_from_str
  is_valid_dpop_jkt parameters client capabilities profile).
Notation ok_request :=
  (request_ok parse from_str strings_from_str is_valid_dpop_jkt parameters client capabilities profile).

Lemma compatible_Ok scopes challenge :
  is_none challenge && negb (negb profile.(pp_pkce_required)
    && bool_decide (client.(cp_client_type) = "confidential") && bool_decide ("openid" ∈ scopes)) = false →
  code_challenge_of parameters = Ok challenge → challenge_ok parameters client profile scopes challenge.
Proof.
  rewrite no_challenge_Ok_iff. intros Hc [H1 H2]%code_challenge_Ok. split; [done|].
  destruct challenge; [done|]. specialize (Hc eq_refl). boolify. done.
Qed.

Lemma request_sound r : normalize = Ok r → ok_request r.
Proof.
  intros H. apply if_Err in H as [Htype H]. apply if_Err in H as [Hnonce H].
  apply if_Err in H as [Hdet H]. apply let_Ok in H as (mode & Hmode & H).
  apply if_Err in H as [Hsigned H]. apply let_Ok in H as (ch & Hch & H).
  apply if_Err in H as [Hcompat H]. apply let_Ok in H as (pr & Hpr & H).
  apply let_Ok in H as (age & Hage & H). apply let_Ok in H as (cl & Hcl & H).
  apply let_Ok in H as (acr & Hacr & H). apply if_Err in H as [Hscope H].
  apply if_Err in H as [Hsso H]. apply let_Ok in H as (res & Hres & H).
  apply if_Err in H as [Htgt H]. apply let_Ok in H as (det & Hd & H).
  apply let_Ok in H as (jkt & Hjkt & H). injection H as <-.
  rewrite map_err_Ok, resources_named in Hres. destruct Hres as (? & ? & ?). rewrite map_err_Ok, details_named_Ok in Hd.
  apply negb_false_iff, bool_decide_eq_true in Htype. rewrite nonce_Ok in Hnonce.
  rewrite implies_false in Hdet, Hsigned. rewrite is_some_true in Hdet.
  apply response_mode_Ok in Hmode. apply negb_false_iff, is_subset_spec in Hscope.
  assert (Hsso' : "device_sso" ∈ parse_scope (unwrap_or (parameters !! "scope") "") →
    cap_native_sso capabilities = true).
  { intros Hin. by apply andb_false_iff in Hsso as [?%negb_false_iff|?%bool_decide_eq_false]. }
  unfold request_ok; simpl.
  repeat (apply conj; [solve [done|by apply compatible_Ok|by apply prompt_Ok|by apply max_age_Ok
    |by apply targets_Ok]|]).
  by apply dpop_Ok.
Qed.

Lemma request_complete r : ok_request r → normalize = Ok r.
Proof.
  intros (Htype & Hnonce & Hdet & Hsigned & Hmode & Hscopes & [Hch Hpkce] & Hpr & Hage & Hcl & Hacr &
    Hsub & Hsso & Hnamed & Hdup & Hres & Haud & Hd & Hjkt).
  unfold normalize_authorization_request. rewrite <- Hscopes.
  apply if_Err. split; [by apply negb_false_iff, bool_decide_eq_true|].
  apply if_Err. split; [by rewrite nonce_Ok|].
  apply if_Err. split; [by rewrite implies_false, is_some_true|].
  rewrite (proj2 (response_mode_Ok _ _ _) Hmode). apply if_Err. split; [by rewrite implies_false|].
  assert (code_challenge_of parameters = Ok (nr_code_challenge r)) as ->.
  { apply code_challenge_Ok. split; [done|]. by destruct (nr_code_challenge r); [|destruct Hpkce]. }
  apply if_Err. split.
  { rewrite no_challenge_Ok_iff. intros Hn. rewrite Hn in Hpkce. destruct Hpkce as (_ & -> & -> & ?).
    by rewrite !bool_decide_true. }
  rewrite (proj2 (prompt_Ok _ _) Hpr), (proj2 (max_age_Ok _ _) Hage), Hcl, Hacr.
  apply if_Err. split; [by apply negb_false_iff, is_subset_spec|].
  apply if_Err. split.
  { destruct (cap_native_sso capabilities); [done|]. apply bool_decide_eq_false. by intros ?%Hsso. }
  rewrite (proj2 (resources_named _ _ _ _) (conj Hnamed (conj Hdup Hres))). cbn [map_err].
  apply if_Err. split; [by apply targets_Ok|].
  rewrite (proj2 (details_named_Ok _ _ _ _) Hd), (proj2 (dpop_Ok _ _ _) Hjkt). by destruct r.
Qed.
End request.

(** C18: the authorization requests the server accepts, and what it makes of
    them.  A request is accepted exactly when its response type is [code], its
    nonce has at most 64 characters, it uses only enabled capabilities, its
    proof-key challenge is a valid [S256] one (absent only for a confidential
    OpenID client under a profile that does not require it), its prompt values
    are known and [none] stands alone, its age limit is a non-negative integer,
    its scopes and resources are allowed to the client, the resources absolute
    URLs without fragment and without repetition, its authorization details
    valid, and its DPoP thumbprint well formed. *)
Theorem authorization_request_accepted parse from_str strings_from_str is_valid_dpop_jkt parameters
    client capabilities profile r :
  normalize_authorization_request parse from_str strings_from_str is_valid_dpop_jkt parameters client
    capabilities profile = Ok r ↔
  request_ok parse from_str strings_from_str is_valid_dpop_jkt parameters client capabilities profile r.
Proof. split; [apply request_sound|apply request_complete]. Qed.

(** ** Sessions *)

(** The user authenticated again, after the reauthentication of this request began. *)
Definition reauthenticated_since (s : AuthorizationSession) (started : option Z) (now : Z) : Prop :=
  ∃ started_at authenticated_at, started = Some started_at ∧
    s.(as_auth_time_micros) = Some authenticated_at ∧ 0 < started_at < authenticated_at ∧
    authenticated_at ÷ 1000000 = s.(as_auth_time) ∧ s.(as_auth_time) ≤ now.

Lemma reauthenticated_spec s started now :
  reauthenticated s started now = true ↔ reauthenticated_since s started now.
Proof.
  unfold reauthenticated, reauthenticated_since. destruct started as [t|]; simpl; [|naive_solver].
  destruct (as_auth_time_micros s) as [a|]; simpl; [|naive_solver].
  rewrite !andb_true_iff, !Z.ltb_lt, Z.eqb_eq, Z.leb_le. naive_solver.
Qed.

Lemma age_spec now auth m :
  in_i64 now → in_i64 auth → 0 ≤ m →
  (m <? i64_saturating_sub now auth) = false ↔ now - auth ≤ m ∨ I64_MAX ≤ m.
Proof.
  unfold in_i64, i64_saturating_sub, clamp, I64_MIN, I64_MAX. rewrite Z.ltb_ge. intros. lia.
Qed.

(** C27: when a request goes on without a login.  It does exactly when there is a
    session that, if the request asks for a fresh authentication ([login],
    [select_account] or an age limit of zero), was authenticated after the
    reauthentication of this request began and not in the future, and whose
    authentication is no older than a positive age limit.  A request with
    [prompt=none] is never sent to a login page, any other is never refused for
    lack of one. *)
Theorem session_satisfies_request session prompt max_age started now :
  in_i64 now → (∀ s, session = Some s → in_i64 s.(as_auth_time)) → (∀ m, max_age = Some m → 0 ≤ m ≤ I64_MAX) →
  let fresh := pr_login prompt = true ∨ pr_select_account prompt = true ∨ max_age = Some 0 in
  let decision := authorization_session_decision session prompt max_age started now in
  (decision = SessionContinue ↔
    ∃ s, session = Some s ∧ (fresh → reauthenticated_since s started now) ∧
      ∀ m, max_age = Some m → 0 < m < I64_MAX → now - s.(as_auth_time) ≤ m) ∧
  (decision = SessionLoginRequired → prompt.(pr_none) = true) ∧
  (∀ f, decision = SessionLogin f → prompt.(pr_none) = false ∧ (f = true ↔ fresh)).
Proof.
  intros Hnow Hs Hm fresh decision.
  assert (Hfresh : pr_login prompt || pr_select_account prompt || bool_decide (max_age = Some 0) = true
    ↔ fresh).
  { unfold fresh. rewrite !orb_true_iff, bool_decide_eq_true. naive_solver. }
  unfold decision, authorization_session_decision.
  set (f := pr_login prompt || _ || _) in *. clearbody f. destruct session as [s|]; cycle 1.
  { split_and!; destruct (pr_none prompt); naive_solver. }
  specialize (Hs s eq_refl).
  match goal with |- context [if ?a || ?b then _ else _] => set (stale := a); set (old := b) end.
  assert (Hstale : stale = false ↔ (fresh → reauthenticated_since s started now)).
  { unfold stale. rewrite implies_false, Hfresh, reauthenticated_spec. done. }
  assert (Hold : old = false ↔ ∀ m, max_age = Some m → 0 < m < I64_MAX → now - s.(as_auth_time) ≤ m).
  { unfold old. destruct max_age as [m|]; [|naive_solver]. specialize (Hm m eq_refl).
    destruct (m =? 0) eqn:H0; boolify; [naive_solver lia|]. rewrite age_spec by (done || lia).
    split; [intros ? m' [= <-]; lia|]. intros H. specialize (H m eq_refl). lia. }
  clearbody stale old. destruct (stale || old) eqn:Hso.
  - apply orb_true_iff in Hso. split_and!.
    + split; [by destruct (pr_none prompt)|]. intros (s' & [= <-] & H1 & H2).
      rewrite <- Hstale in H1. rewrite <- Hold in H2. destruct Hso; congruence.
    + by destruct (pr_none prompt).
    + destruct (pr_none prompt); naive_solver.
  - apply orb_false_iff in Hso as [H1 H2]. rewrite Hstale in H1. rewrite Hold in H2. naive_solver.
Qed.

Lemma session_satisfies_request_witness :
  authorization_session_decision (Some {| as_auth_time := 100; as_auth_time_micros := Some 100000005 |})
    {| pr_login := true; pr_consent := false; pr_select_account := false; pr_none := false |}
    (Some 60) (Some 100000000) 130 = SessionContinue.
Proof.
  apply (session_satisfies_request
    (Some {| as_auth_time := 100; as_auth_time_micros := Some 100000005 |})
    {| pr_login := true; pr_consent := false; pr_select_account := false; pr_none := false |}
    (Some 60) (Some 100000000) 130).
  - unfold in_i64, I64_MIN, I64_MAX. lia.
  - intros s [= <-]. simpl. unfold in_i64, I64_MIN, I64_MAX. lia.
  - intros m [= <-]. unfold I64_MAX. lia.
  - eexists. split; [reflexivity|]. split.
    + intros _. exists 100000000, 100000005. split_and!; try reflexivity; try lia; simpl; lia.
    + intros m [= <-] _. simpl. lia.
Defined.

(** ** Responses *)

Lemma response_parameters_spec input name value :
  (name, value) ∈ response_parameters input ↔
    (name = "code" ∧ input.(ri_code) = Some value) ∨
    (name = "error" ∧ input.(ri_error) = Some value) ∨
    (name = "state" ∧ input.(ri_state) = Some value) ∨
    (name = "iss" ∧ value = input.(ri_issuer)).
Proof.
  unfold response_parameters. rewrite elem_of_app, list_elem_of_omap.
  setoid_rewrite elem_of_cons. setoid_rewrite elem_of_cons. setoid_rewrite elem_of_cons.
  setoid_rewrite elem_of_nil.
  split.
  - intros [([n o] & Hin & He)|[[= -> ->]|[]]]; [|naive_solver].
    destruct o; simplify_eq/=. naive_solver.
  - intros [[-> H]|[[-> H]|[[-> H]|[-> ->]]]]; [left..|right; naive_solver].
    + exists ("code", ri_code input). rewrite H. naive_solver.
    + exists ("error", ri_error input). rewrite H. naive_solver.
    + exists ("state", ri_state input). rewrite H. naive_solver.
Qed.

(** C36: how a response is returned.  A response that must be signed, or whose
    request asked for a signed one, is signed or refused, never sent in the
    clear; an unsigned one names its issuer (RFC 9207) last, after the code, the
    error and the state it has and nothing else; a session state accompanies
    only a code without an error; and every response goes to the redirect URI it
    was planned for. *)
Theorem response_plan input plan :
  plan_authorization_response input = Ok plan →
  match plan with
  | Jarm r =>
      (input.(ri_response_mode) = Some "jwt" ∨ input.(ri_signed_response_required) = true) ∧
      input.(ri_jarm_available) = true ∧ trim input.(ri_client_id) ≠ "" ∧
      r = {| jr_redirect_uri := input.(ri_redirect_uri); jr_issuer := input.(ri_issuer);
             jr_client_id := input.(ri_client_id); jr_code := input.(ri_code);
             jr_error := input.(ri_error); jr_state := input.(ri_state);
             jr_ttl_seconds := input.(ri_ttl_seconds) |}
  | Plain r | FormPost r =>
      input.(ri_signed_response_required) = false ∧ input.(ri_response_mode) ≠ Some "jwt" ∧
      (input.(ri_response_mode) = Some "form_post" ↔ plan = FormPost r) ∧
      r.(pl_redirect_uri) = input.(ri_redirect_uri) ∧
      last r.(pl_parameters) = Some ("iss", input.(ri_issuer)) ∧
      (∀ name value, (name, value) ∈ r.(pl_parameters) ↔
        (name = "code" ∧ input.(ri_code) = Some value) ∨
        (name = "error" ∧ input.(ri_error) = Some value) ∨
        (name = "state" ∧ input.(ri_state) = Some value) ∨
        (name = "iss" ∧ value = input.(ri_issuer))) ∧
      (r.(pl_issue_session_state) = true ↔ input.(ri_session_management_available) = true ∧
        is_Some input.(ri_code) ∧ input.(ri_error) = None)
  end.
Proof.
  unfold plan_authorization_response.
  destruct (bool_decide (ri_response_mode input = Some "jwt") || ri_signed_response_required input)
    eqn:Hj; simpl.
  - destruct (ri_jarm_available input); simpl; [|done].
    destruct (is_empty (trim (ri_client_id input))) eqn:He; [done|]. apply is_empty_spec in He.
    intros [= <-]. split_and!; try done. apply orb_true_iff in Hj. rewrite bool_decide_eq_true in Hj. done.
  - apply orb_false_iff in Hj as [Hm%bool_decide_eq_false Hs]. intros [= <-].
    assert (Hss : is_some (ri_code input) && is_none (ri_error input) = true ↔
      is_Some (ri_code input) ∧ ri_error input = None).
    { destruct (ri_code input), (ri_error input); simpl; naive_solver. }
    case_bool_decide as Hf; (split_and!; [done|done|naive_solver|done|apply last_snoc
      |apply response_parameters_spec|]); simpl; rewrite <- andb_assoc, andb_true_iff, Hss; done.
Qed.

Definition example_response : AuthorizationResponsePolicyInput :=
  {| ri_issuer := "https://as.example"; ri_redirect_uri := "https://c.example/cb";
     ri_client_id := "c"; ri_response_mode := None; ri_code := Some "abc"; ri_error := None;
     ri_state := Some "s"; ri_ttl_seconds := 60; ri_signed_response_required := false;
     ri_jarm_available := false; ri_session_management_available := true |}.

Lemma response_plan_witness :
  ∃ r, plan_authorization_response example_response = Ok (Plain r) ∧
    last r.(pl_parameters) = Some ("iss", "https://as.example").
Proof.
  assert (Hp : ∃ r, plan_authorization_response example_response = Ok (Plain r))
    by (eexists; vm_compute; reflexivity).
  destruct Hp as [r Hp]. exists r. split; [exact Hp|].
  destruct (response_plan example_response (Plain r) Hp) as (_ & _ & _ & _ & H & _). exact H.
Defined.
