(* ===== verification/Valkey.v ===== *)
(** * Valkey as a parameter

    The state stores of [crates/state-store-valkey] run Lua scripts on a Valkey
    server.  The server is not part of the program: the class [Valkey] names the
    commands the scripts use and the documented behaviour the proofs rely on; a
    script runs atomically, as a function on the server's state.  The instance
    at the end shows that the laws can hold. *)
From stdpp Require Import base list strings gmap.
From S2P Require Import Prelude.

Local Open Scope string_scope.
Open Scope Z_scope.

(** The error kinds of the client library that [Error::from_fred] tells apart. *)
Inductive FredErrorKind :=
| FredTimeout | FredCanceled | FredProtocol | FredParse | FredNotFound | FredAuth | FredIO
| FredRouting | FredCluster | FredSentinel | FredBackpressure | FredOther.

(** The commands.  [pexpiretime] is [-2] for an absent key and [-1] for a key
    without expiry; [set_ex] and [set_exat] (a lifetime and a deadline, in
    seconds) fail on a value the server does not accept; [set_keepttl] leaves the
    expiry as it is. *)
Class Valkey (K : Type) := {
  vk_get : K → string → option string;
  vk_pexpiretime : K → string → Z;
  vk_time_ms : K → Z;
  vk_set : string → string → K → K;
  vk_set_ex : string → string → Z → K → result K FredErrorKind;
  vk_set_exat : string → string → Z → K → result K FredErrorKind;
  vk_pexpireat : string → Z → K → K;
  vk_del : string → K → K;
  vk_zadd : string → Z → string → K → K;
  vk_zrem : string → string → K → K;
  vk_set_keepttl : string → string → K → K;
}.

(** [EXISTS] *)
Definition vk_exists {K} `{!Valkey K} (k : K) (key : string) : bool := is_some (vk_get k key).

(** [EXPIRETIME]: in seconds, rounded. *)
Definition vk_expiretime {K} `{!Valkey K} (k : K) (key : string) : Z :=
  let expire := vk_pexpiretime k key in
  if expire <? 0 then expire else (expire + 500) / 1000.

(** [TIME[1]] *)
Definition vk_time {K} `{!Valkey K} (k : K) : Z := vk_time_ms k / 1000.

(** Lua's numbers are doubles: an integer rounds to the nearest one, to the even
    one when two are as near. *)
Definition tonumber (n : Z) : Z :=
  if Z.abs n <=? 2 ^ 53 then n
  else
    let ulp := 2 ^ (Z.log2 (Z.abs n) - 52) in
    let q := Z.abs n / ulp in
    let r := Z.abs n mod ulp in
    let up := (ulp <? 2 * r) || ((2 * r =? ulp) && Z.odd q) in
    Z.sgn n * ((if up then q + 1 else q) * ulp).

Class ValkeyLaws (K : Type) `{!Valkey K} := {
  vk_time_nonneg k : 0 ≤ vk_time_ms k;
  vk_absent k key : vk_get k key = None ↔ vk_pexpiretime k key = -2;
  vk_get_set k a v key :
    vk_get (vk_set a v k) key = if decide (a = key) then Some v else vk_get k key;
  vk_get_set_ex k a v ttl k' key : vk_set_ex a v ttl k = Ok k' →
    vk_get k' key = if decide (a = key) then Some v else vk_get k key;
  vk_get_set_exat k a v at_ k' : vk_time_ms k < at_ * 1000 → vk_set_exat a v at_ k = Ok k' →
    vk_get k' a = Some v;
  vk_get_set_exat_other k a v at_ k' key : a ≠ key → vk_set_exat a v at_ k = Ok k' →
    vk_get k' key = vk_get k key;
  vk_get_del k a key :
    vk_get (vk_del a k) key = if decide (a = key) then None else vk_get k key;
  vk_get_pexpireat k a at_ key : vk_time_ms k < at_ → vk_get (vk_pexpireat a at_ k) key = vk_get k key;
  vk_time_set k a v : vk_time_ms (vk_set a v k) = vk_time_ms k;
  vk_time_set_ex k a v ttl k' : vk_set_ex a v ttl k = Ok k' → vk_time_ms k' = vk_time_ms k;
  vk_time_set_exat k a v at_ k' : vk_set_exat a v at_ k = Ok k' → vk_time_ms k' = vk_time_ms k;
  vk_expiry_set_other k a v key : a ≠ key →
    vk_pexpiretime (vk_set a v k) key = vk_pexpiretime k key;
  vk_expiry_set_ex k a v ttl k' : vk_set_ex a v ttl k = Ok k' →
    vk_pexpiretime k' a = vk_time_ms k + ttl * 1000;
  vk_expiry_set_ex_other k a v ttl k' key : a ≠ key → vk_set_ex a v ttl k = Ok k' →
    vk_pexpiretime k' key = vk_pexpiretime k key;
  vk_expiry_set_exat k a v at_ k' : vk_time_ms k < at_ * 1000 → vk_set_exat a v at_ k = Ok k' →
    vk_pexpiretime k' a = at_ * 1000;
  vk_expiry_set_exat_other k a v at_ k' key : a ≠ key → vk_set_exat a v at_ k = Ok k' →
    vk_pexpiretime k' key = vk_pexpiretime k key;
  vk_expiry_del_other k a key : a ≠ key →
    vk_pexpiretime (vk_del a k) key = vk_pexpiretime k key;
  vk_expiry_pexpireat k a at_ : vk_time_ms k < at_ → is_Some (vk_get k a) →
    vk_pexpiretime (vk_pexpireat a at_ k) a = at_;
  vk_get_zadd k a score member key : a ≠ key → vk_get (vk_zadd a score member k) key = vk_get k key;
  vk_get_zrem k a member key : a ≠ key → vk_get (vk_zrem a member k) key = vk_get k key;
  vk_expiry_zadd k a score member key : a ≠ key →
    vk_pexpiretime (vk_zadd a score member k) key = vk_pexpiretime k key;
  vk_expiry_zrem k a member key : a ≠ key →
    vk_pexpiretime (vk_zrem a member k) key = vk_pexpiretime k key;
  vk_expiry_pexpireat_other k a at_ key : a ≠ key →
    vk_pexpiretime (vk_pexpireat a at_ k) key = vk_pexpiretime k key;
  vk_get_keepttl k a v key :
    vk_get (vk_set_keepttl a v k) key = if decide (a = key) then Some v else vk_get k key;
  vk_expiry_keepttl k a v key : is_Some (vk_get k a) →
    vk_pexpiretime (vk_set_keepttl a v k) key = vk_pexpiretime k key;
}.

(** ** Numbers and deadlines *)

Lemma tonumber_exact n : Z.abs n ≤ 2 ^ 53 → tonumber n = n.
Proof. intros H. unfold tonumber. by rewrite (proj2 (Z.leb_le _ _) H). Qed.

Lemma tonumber_le e n : Z.abs e ≤ 2 ^ 53 → e ≤ n → e ≤ tonumber n.
Proof.
  intros He Hn. unfold tonumber. case_match; boolify; [done|].
  destruct (Z.le_gt_cases n 0); [lia|]. rewrite Z.abs_eq, Z.sgn_pos by lia.
  set (l := Z.log2 n). assert (2 ^ l ≤ n) by (apply Z.log2_spec; lia).
  assert (53 ≤ l) by (apply Z.log2_le_pow2; lia).
  assert (2 ^ 52 ≤ n / 2 ^ (l - 52)) as Hq.
  { apply Z.div_le_lower_bound; [lia|]. rewrite <-Z.pow_add_r by lia.
    by replace (l - 52 + 52) with l by lia. }
  assert (2 ^ 53 ≤ 2 ^ 52 * 2 ^ (l - 52)).
  { rewrite <-Z.pow_add_r by lia. apply Z.pow_le_mono_r; lia. }
  assert (2 ^ 52 * 2 ^ (l - 52) ≤ n / 2 ^ (l - 52) * 2 ^ (l - 52)) by (apply Z.mul_le_mono_nonneg_r; lia).
  case_match; lia.
Qed.

Lemma before_deadline {K} `{!Valkey K} (k : K) e :
  Z.abs e ≤ 2 ^ 53 → tonumber (vk_time k) < e → vk_time_ms k < e * 1000.
Proof.
  intros He Ht. destruct (Z.le_gt_cases e (vk_time k)) as [H|H]; [apply tonumber_le in H; [lia|done]|].
  unfold vk_time in H. pose proof (Z.mod_pos_bound (vk_time_ms k) 1000 ltac:(done)).
  pose proof (Z.div_mod (vk_time_ms k) 1000 ltac:(done)). lia.
Qed.

(** ** Running commands *)

Inductive ErrorKind := Timeout | KindUnavailable | Protocol | KindCorruptData | UnexpectedResult.

Definition from_fred (kind : FredErrorKind) : ErrorKind :=
  match kind with
  | FredTimeout | FredCanceled => Timeout
  | FredProtocol | FredParse | FredNotFound => Protocol
  | FredAuth | FredIO | FredRouting | FredCluster | FredSentinel | FredBackpressure =>
      KindUnavailable
  | FredOther => Protocol
  end.

(** A command or a script: its reply or an error reply.  What ran before an
    error reply keeps its effect. *)
Definition script (K R : Type) : Type := K → result R FredErrorKind * K.

Definition reply {K R} (r : R) : script K R := fun k => (Ok r, k).

(** [redis.call] of a write, and what follows it. *)
Definition then_write {K R} (f : K → K) (next : script K R) : script K R := fun k => next (f k).

Definition then_set_ex {K R} `{!Valkey K} (key v : string) (ttl : Z) (next : script K R)
    : script K R :=
  fun k => match vk_set_ex key v ttl k with
           | Ok k' => next k'
           | Err e => (Err e, k)
           end.

(** The connection: [None] when the command runs and its reply arrives, else
    the client's error and whether the server ran the command all the same. *)
Definition transport : Type := option (FredErrorKind * bool).

Definition eval {K R} (tr : transport) (s : script K R) (k : K) : result R ErrorKind * K :=
  match tr with
  | None => let '(r, k') := s k in (map_err from_fred r, k')
  | Some (e, ran) => (Err (from_fred e), if ran then (s k).2 else k)
  end.

(** ** A server: keys with an optional deadline, and a clock *)

Record mem_server := {
  ms_clock : N;
  ms_keys : gmap string (string * option Z);
  ms_sets : gmap string (gmap string Z);
}.

Definition ms_time (k : mem_server) : Z := Z.of_N k.(ms_clock).

Definition ms_lookup (k : mem_server) (key : string) : option (string * option Z) :=
  match k.(ms_keys) !! key with
  | Some (v, Some deadline) =>
      if ms_time k <? deadline then Some (v, Some deadline) else None
  | r => r
  end.

Definition ms_write (key : string) (entry : option (string * option Z)) (k : mem_server)
    : mem_server :=
  {| ms_clock := k.(ms_clock); ms_keys := partial_alter (fun _ => entry) key k.(ms_keys);
     ms_sets := k.(ms_sets) |}.

Definition ms_alter_set (key member : string) (score : option Z) (k : mem_server) : mem_server :=
  {| ms_clock := k.(ms_clock); ms_keys := k.(ms_keys);
     ms_sets := partial_alter (fun set => Some (partial_alter (fun _ => score) member (default ∅ set)))
       key k.(ms_sets) |}.

#[export] Instance mem_valkey : Valkey mem_server := {|
  vk_get k key := fst <$> ms_lookup k key;
  vk_pexpiretime k key :=
    match ms_lookup k key with None => -2 | Some (_, None) => -1 | Some (_, Some d) => d end;
  vk_time_ms := ms_time;
  vk_set key v := ms_write key (Some (v, None));
  vk_set_ex key v ttl k :=
    if 0 <? ttl then
      Ok (ms_write key (Some (v, Some (ms_time k + ttl * 1000))) k)
    else Err FredOther;
  vk_set_exat key v at_ k :=
    if (0 <? at_) && (at_ * 1000 <=? I64_MAX) then
      Ok (ms_write key (Some (v, Some (at_ * 1000))) k)
    else Err FredOther;
  vk_pexpireat key at_ k :=
    match ms_lookup k key with
    | Some (v, _) => ms_write key (Some (v, Some at_)) k
    | None => k
    end;
  vk_del key := ms_write key None;
  vk_zadd key score member := ms_alter_set key member (Some score);
  vk_zrem key member := ms_alter_set key member None;
  vk_set_keepttl key v k := ms_write key (Some (v, ms_lookup k key ≫= snd)) k;
|}.

Lemma ms_lookup_write k a e key :
  ms_lookup (ms_write a e k) key =
    if decide (a = key) then
      match e with
      | Some (v, Some d) => if ms_time k <? d then Some (v, Some d) else None
      | r => r
      end
    else ms_lookup k key.
Proof.
  unfold ms_lookup, ms_write, ms_time; simpl. case_decide; subst.
  - rewrite lookup_partial_alter_eq. by destruct e as [[? [|]]|].
  - by rewrite lookup_partial_alter_ne.
Qed.

Lemma ms_lookup_deadline k key v d : ms_lookup k key = Some (v, Some d) → 0 ≤ ms_time k < d.
Proof.
  unfold ms_lookup. destruct (ms_keys k !! key) as [[? [|]]|]; intros; simplify_eq.
  case_match; simplify_eq. unfold ms_time in *. lia.
Qed.

#[export] Instance mem_laws : ValkeyLaws mem_server.
Proof.
  split; simpl; intros;
    repeat match goal with
    | H : (if ?b then Ok _ else Err _) = Ok _ |- _ => destruct b eqn:?; simplify_eq
    end;
    try (rewrite ms_lookup_write; repeat (case_decide || case_match); simplify_eq/=; try done;
         lia).
  - unfold ms_time. lia.
  - destruct (ms_lookup k key) as [[v [d|]]|] eqn:E; simpl; try done.
    apply ms_lookup_deadline in E. split; [done|lia].
  - destruct (ms_lookup k a) as [[? ?]|] eqn:E; [|done].
    rewrite ms_lookup_write. case_decide; subst; [|done].
    by rewrite E, (proj2 (Z.ltb_lt _ _)).
  - done.
  - done.
  - done.
  - destruct (ms_lookup k a) as [[? ?]|] eqn:E; [|by destruct H0].
    rewrite ms_lookup_write, decide_True by done. by rewrite (proj2 (Z.ltb_lt _ _)).
  - done.
  - done.
  - done.
  - done.
  - destruct (ms_lookup k a) as [[? ?]|] eqn:E; [|done].
    by rewrite ms_lookup_write, decide_False by done.
  - rewrite ms_lookup_write. case_decide; subst; [|done].
    destruct (ms_lookup k key) as [[? [d|]]|] eqn:E; simpl; try done.
    apply ms_lookup_deadline in E. by rewrite (proj2 (Z.ltb_lt _ _)) by lia.
  - destruct (ms_lookup k a) as [[? [d|]]|] eqn:E; [| |by destruct H]; rewrite ms_lookup_write;
      case_decide; subst; try done; rewrite E; simpl; [|done].
    apply ms_lookup_deadline in E. by rewrite (proj2 (Z.ltb_lt _ _)) by lia.
Qed.
