(* ===== verification/RuntimeModel.v ===== *)
(** * Runtime modules: identities, lifecycle states and the catalog

    Models [crates/runtime-capabilities/src]: [model.rs] (desired modes, actual
    states, the closed module catalog, audit event types), [transition.rs]
    (revisions and the transition guard), [policy.rs] (disable policies and the
    dependency check) and [catalog.rs] (the fixed catalog and its queries).

    A [BTreeSet<ModuleId>] is a [gset]; iterating it is [btree_iter], which
    lists the members in [Ord] order, the declaration order of [ModuleId].
    [Duration] and [SystemTime] are nanosecond counts in [Z]. *)
From stdpp Require Import base list strings gmap relations.
From S2P Require Import Prelude.

(** ** [model.rs] *)

Inductive DesiredMode :=
| DesiredMode_Enabled
| DesiredMode_Disabled.

Definition is_enabled (self : DesiredMode) : bool :=
  match self with DesiredMode_Enabled => true | DesiredMode_Disabled => false end.

Inductive HistoricalDesiredMode :=
| HistoricalDesiredMode_Inherit
| HistoricalDesiredMode_Enabled
| HistoricalDesiredMode_Disabled.

Definition historical_from (value : DesiredMode) : HistoricalDesiredMode :=
  match value with
  | DesiredMode_Enabled => HistoricalDesiredMode_Enabled
  | DesiredMode_Disabled => HistoricalDesiredMode_Disabled
  end.

Inductive ModuleState :=
| ModuleState_Disabled
| ModuleState_Starting
| ModuleState_Enabled
| ModuleState_Draining
| ModuleState_Failed.

Definition can_transition_to (self next : ModuleState) : bool :=
  match self, next with
  | ModuleState_Disabled, ModuleState_Starting
  | ModuleState_Starting, (ModuleState_Enabled | ModuleState_Failed | ModuleState_Disabled)
  | ModuleState_Enabled, (ModuleState_Draining | ModuleState_Failed)
  | ModuleState_Draining, (ModuleState_Disabled | ModuleState_Failed)
  | ModuleState_Failed, (ModuleState_Starting | ModuleState_Disabled) => true
  | _, _ => false
  end.

Inductive ModuleId :=
| DeviceAuthorization
| TokenExchange
| JwtBearerGrant
| Ciba
| DynamicClientRegistration
| RequestObjects
| Jarm
| AuthorizationDetails
| HttpMessageSignatures
| Scim
| ScimSecurityEvents
| NativeSso
| FrontchannelLogout
| SessionManagement
| Openid4vciIssuer
| Openid4vpVerifier.

(** [ModuleId::ALL] *)
Definition ModuleId_ALL : list ModuleId :=
  [DeviceAuthorization; TokenExchange; JwtBearerGrant; Ciba; DynamicClientRegistration;
   RequestObjects; Jarm; AuthorizationDetails; HttpMessageSignatures; Scim;
   ScimSecurityEvents; NativeSso; FrontchannelLogout; SessionManagement;
   Openid4vciIssuer; Openid4vpVerifier].

Inductive ModuleEventType :=
| DesiredStateChanged
| TransitionStarted
| TransitionCompleted
| TransitionFailed
| DrainStarted
| DrainCompleted
| StaleTransitionDiscarded.

#[export] Instance DesiredMode_eq_dec : EqDecision DesiredMode.
Proof. solve_decision. Defined.
#[export] Instance ModuleState_eq_dec : EqDecision ModuleState.
Proof. solve_decision. Defined.
#[export] Instance ModuleId_eq_dec : EqDecision ModuleId.
Proof. solve_decision. Defined.
#[export] Instance ModuleEventType_eq_dec : EqDecision ModuleEventType.
Proof. solve_decision. Defined.

(** The derived [Ord] compares declaration positions. *)
Definition module_ordinal (id : ModuleId) : nat :=
  match id with
  | DeviceAuthorization => 0 | TokenExchange => 1 | JwtBearerGrant => 2 | Ciba => 3
  | DynamicClientRegistration => 4 | RequestObjects => 5 | Jarm => 6
  | AuthorizationDetails => 7 | HttpMessageSignatures => 8 | Scim => 9
  | ScimSecurityEvents => 10 | NativeSso => 11 | FrontchannelLogout => 12
  | SessionManagement => 13 | Openid4vciIssuer => 14 | Openid4vpVerifier => 15
  end%nat.

#[export] Instance ModuleId_countable : Countable ModuleId.
Proof.
  refine (inj_countable module_ordinal (fun n => ModuleId_ALL !! n) _).
  by intros [].
Defined.

(** Ascending iteration of a [BTreeSet<ModuleId>]. *)
Definition btree_iter (s : gset ModuleId) : list ModuleId :=
  filter (fun id => id ∈ s) ModuleId_ALL.

(** Ascending iteration of the values of a [BTreeMap<ModuleId, V>]. *)
Definition btree_values {V} (m : gmap ModuleId V) : list V :=
  omap (fun id => m !! id) ModuleId_ALL.

(** ** [transition.rs] *)

(** [ModuleRevision] is a newtype of [u64]. *)
Notation ModuleRevision := Z (only parsing).

Inductive StaleTransition :=
| RevisionChanged (expected current : ModuleRevision)
| NonMonotonicPublication (expected attempted : ModuleRevision).

Record TransitionGuard := { latest : Z; bound : ModuleRevision }.

(** [latest] is the value the atomic holds when it is loaded. *)
Definition ensure_current (self : TransitionGuard) : result unit StaleTransition :=
  let current := self.(latest) in
  if current =? self.(bound) then Ok tt
  else Err (RevisionChanged self.(bound) current).

(** ** [policy.rs] *)

Inductive DisablePolicy :=
| Immediate
| FinishExecutingRequests
| DrainStoredTransactions (max_duration : Z)
| NotRuntimeDisableable.

#[export] Instance DisablePolicy_eq_dec : EqDecision DisablePolicy.
Proof. solve_decision. Defined.

Record ModuleSpec := {
  spec_id : ModuleId;
  dependencies : gset ModuleId;
  disable_policy : DisablePolicy;
}.

Inductive ModuleCatalogError :=
| SelfDependency (id : ModuleId)
| DependencyCycle (id : ModuleId).

(** The [for dependency in &spec.dependencies] loop of [visit]. *)
Fixpoint visit_dependencies
    (visit : ModuleId → gset ModuleId → gset ModuleId →
             option (result (gset ModuleId * gset ModuleId) ModuleCatalogError))
    (deps : list ModuleId) (visiting visited : gset ModuleId)
    : option (result (gset ModuleId * gset ModuleId) ModuleCatalogError) :=
  match deps with
  | [] => Some (Ok (visiting, visited))
  | dependency :: rest =>
      match visit dependency visiting visited with
      | Some (Ok (visiting', visited')) => visit_dependencies visit rest visiting' visited'
      | failed => failed
      end
  end.

(** Depth-first search; the two mutable sets are threaded through.  [None] is
    the panic of [specs[&id]] on a missing key, or too little fuel. *)
Fixpoint visit (fuel : nat) (specs : gmap ModuleId ModuleSpec)
    (id : ModuleId) (visiting visited : gset ModuleId)
    : option (result (gset ModuleId * gset ModuleId) ModuleCatalogError) :=
  match fuel with
  | O => None
  | S fuel =>
      if decide (id ∈ visited) then Some (Ok (visiting, visited))
      else if decide (id ∈ visiting) then Some (Err (DependencyCycle id))
      else
        let visiting := {[id]} ∪ visiting in
        match specs !! id with
        | None => None
        | Some spec =>
            match visit_dependencies (visit fuel specs) (btree_iter spec.(dependencies))
                    visiting visited with
            | Some (Ok (visiting', visited')) =>
                Some (Ok (visiting' ∖ {[id]}, {[id]} ∪ visited'))
            | failed => failed
            end
        end
  end.

(** One level per module on the search path, and one more to return. *)
Definition visit_fuel : nat := S (length ModuleId_ALL).

Definition self_dependency (specs : gmap ModuleId ModuleSpec) : option ModuleId :=
  spec_id <$> head (filter (fun spec => spec.(spec_id) ∈ spec.(dependencies)) (btree_values specs)).

Definition validate_dependencies (specs : gmap ModuleId ModuleSpec)
    : option (result unit ModuleCatalogError) :=
  match self_dependency specs with
  | Some id => Some (Err (SelfDependency id))
  | None =>
      match visit_dependencies (visit visit_fuel specs) ModuleId_ALL ∅ ∅ with
      | Some (Ok _) => Some (Ok tt)
      | Some (Err e) => Some (Err e)
      | None => None
      end
  end.

(** ** [catalog.rs] *)

Record CatalogDurations := {
  device_authorization : Z;
  ciba : Z;
  authorization_code : Z;
  refresh_token : Z;
  session : Z;
  presentation_transaction : Z;
  scim_security_events : Z;
}.

Record ModuleCatalog := {
  specs : gmap ModuleId ModuleSpec;
  blocked : gset ModuleId;  (* [runtime_disable_blocked] *)
  unavailable : gset ModuleId;
}.

Definition fixed_disable_policy (durations : CatalogDurations) (id : ModuleId) : DisablePolicy :=
  match id with
  | DeviceAuthorization => DrainStoredTransactions durations.(device_authorization)
  | Ciba => DrainStoredTransactions durations.(ciba)
  | Jarm => DrainStoredTransactions durations.(authorization_code)
  | AuthorizationDetails | NativeSso | Openid4vciIssuer =>
      DrainStoredTransactions durations.(refresh_token)
  | ScimSecurityEvents => DrainStoredTransactions durations.(scim_security_events)
  | SessionManagement => DrainStoredTransactions durations.(session)
  | Openid4vpVerifier => DrainStoredTransactions durations.(presentation_transaction)
  | TokenExchange | JwtBearerGrant | DynamicClientRegistration | RequestObjects
  | HttpMessageSignatures | Scim | FrontchannelLogout => FinishExecutingRequests
  end.

Definition fixed (durations : CatalogDurations) : ModuleCatalog := {|
  specs := list_to_map (map (fun id =>
    (id, {| spec_id := id; dependencies := ∅;
            disable_policy := fixed_disable_policy durations id |})) ModuleId_ALL);
  blocked := ∅;
  unavailable := ∅;
|}.

Definition with_constructed_availability (self : ModuleCatalog)
    (availability : list (ModuleId * bool)) : ModuleCatalog := {|
  specs := self.(specs);
  blocked := self.(blocked);
  unavailable := foldl (fun acc '(module_id, constructed) =>
    if negb constructed then {[module_id]} ∪ acc else acc) self.(unavailable) availability;
|}.

Definition is_available (self : ModuleCatalog) (module_id : ModuleId) : bool :=
  negb (bool_decide (module_id ∈ self.(unavailable))).

Definition effective_enabled (self : ModuleCatalog) (module_id : ModuleId)
    (desired_enabled : bool) : bool :=
  desired_enabled && is_available self module_id.

Definition with_runtime_disable_blocked (self : ModuleCatalog) (modules : list ModuleId)
    : ModuleCatalog := {|
  specs := self.(specs);
  blocked := self.(blocked) ∪ list_to_set modules;
  unavailable := self.(unavailable);
|}.

(** [None] is a panic: [expect] on a missing spec. *)
Definition with_dependencies (self : ModuleCatalog) (module_id : ModuleId)
    (deps : list ModuleId) : option (result ModuleCatalog ModuleCatalogError) :=
  match self.(specs) !! module_id with
  | None => None
  | Some spec =>
      let self := {|
        specs := <[module_id := {| spec_id := spec.(spec_id);
                                   dependencies := list_to_set deps;
                                   disable_policy := spec.(disable_policy) |}]> self.(specs);
        blocked := self.(blocked);
        unavailable := self.(unavailable) |} in
      match validate_dependencies self.(specs) with
      | Some (Ok _) => Some (Ok self)
      | Some (Err e) => Some (Err e)
      | None => None
      end
  end.

(** [&self.specs[&module_id]]; the default is the panic, ruled out by
    [catalog_wf]. *)
Definition spec (self : ModuleCatalog) (module_id : ModuleId) : ModuleSpec :=
  match self.(specs) !! module_id with
  | Some spec => spec
  | None => {| spec_id := module_id; dependencies := ∅; disable_policy := Immediate |}
  end.

Definition runtime_disable_blocked (self : ModuleCatalog) (module_id : ModuleId) : bool :=
  bool_decide (module_id ∈ self.(blocked)).

Definition effective_disable_policy (self : ModuleCatalog) (module_id : ModuleId)
    : DisablePolicy :=
  if negb (is_available self module_id) then Immediate
  else if runtime_disable_blocked self module_id then NotRuntimeDisableable
  else (spec self module_id).(disable_policy).

(** [self.catalog.specs().values().filter(|c| c.dependencies.contains(&module_id))] *)
Definition dependents_of (self : ModuleCatalog) (module_id : ModuleId) : list ModuleSpec :=
  filter (fun candidate => module_id ∈ candidate.(dependencies)) (btree_values self.(specs)).

(** The catalog has every module, each under its own identity. *)
Definition specs_wf (specs : gmap ModuleId ModuleSpec) : Prop :=
  ∀ id, ∃ s, specs !! id = Some s ∧ s.(spec_id) = id.

(** The dependency graph. *)
Definition depends_on (specs : gmap ModuleId ModuleSpec) (a b : ModuleId) : Prop :=
  ∃ s, specs !! a = Some s ∧ b ∈ s.(dependencies).

Definition acyclic (specs : gmap ModuleId ModuleSpec) : Prop :=
  ∀ id, ¬ tc (depends_on specs) id id.

Definition catalog_wf (c : ModuleCatalog) : Prop :=
  specs_wf c.(specs) ∧ acyclic c.(specs).

(** Catalogs the builder methods can produce. *)
Inductive built : ModuleCatalog → Prop :=
| built_fixed durations : built (fixed durations)
| built_availability c availability :
    built c → built (with_constructed_availability c availability)
| built_blocked c modules : built c → built (with_runtime_disable_blocked c modules)
| built_dependencies c module_id deps c' :
    built c → with_dependencies c module_id deps = Some (Ok c') → built c'.

(** What holds of the search state of [visit]: the finished modules [V] are
    closed under dependency and on no cycle, and none is on the path [P]. *)
Definition closed (sp : gmap ModuleId ModuleSpec) (V : gset ModuleId) : Prop :=
  ∀ a b, a ∈ V → depends_on sp a b → b ∈ V.

Definition search_inv (sp : gmap ModuleId ModuleSpec) (P V : gset ModuleId) : Prop :=
  closed sp V ∧ (∀ a, a ∈ V → ¬ tc (depends_on sp) a a) ∧ P ## V.

Definition visit_post (sp : gmap ModuleId ModuleSpec) (P V : gset ModuleId)
    (targets : list ModuleId)
    (r : result (gset ModuleId * gset ModuleId) ModuleCatalogError) : Prop :=
  match r with
  | Ok (P', V') => P' = P ∧ V ⊆ V' ∧ (∀ t, t ∈ targets → t ∈ V') ∧ search_inv sp P V'
  | Err (DependencyCycle c) => tc (depends_on sp) c c
  | Err (SelfDependency _) => False
  end.

(** ** Facts *)

Lemma elem_of_ModuleId_ALL id : id ∈ ModuleId_ALL.
Proof. destruct id; set_solver. Qed.

Lemma NoDup_ModuleId_ALL : NoDup ModuleId_ALL.
Proof. apply (bool_decide_unpack _). by vm_compute. Qed.

Lemma elem_of_btree_iter id s : id ∈ btree_iter s ↔ id ∈ s.
Proof.
  unfold btree_iter. rewrite list_elem_of_filter.
  pose proof (elem_of_ModuleId_ALL id). tauto.
Qed.

Lemma elem_of_btree_values {V} (m : gmap ModuleId V) v :
  v ∈ btree_values m ↔ ∃ id, m !! id = Some v.
Proof.
  unfold btree_values. rewrite list_elem_of_omap. split.
  - intros (id & _ & ?). eauto.
  - intros [id ?]. exists id. split; [apply elem_of_ModuleId_ALL|done].
Qed.

#[export] Hint Resolve elem_of_ModuleId_ALL NoDup_ModuleId_ALL : rust.

Lemma module_set_size (s : gset ModuleId) : (size s ≤ length ModuleId_ALL)%nat.
Proof.
  rewrite <- (size_list_to_set (C := gset ModuleId) ModuleId_ALL) by auto with rust.
  apply subseteq_size. intros id _. rewrite elem_of_list_to_set. auto with rust.
Qed.

(** *** The dependency check *)
Section visit.
Context (sp : gmap ModuleId ModuleSpec).

Lemma closed_tc V a b : closed sp V → a ∈ V → tc (depends_on sp) a b → b ∈ V.
Proof. intros Hc Ha Ht. induction Ht; eauto. Qed.

Lemma search_inv_finish P V id s :
  sp !! id = Some s → id ∉ P → s.(dependencies) ⊆ V → search_inv sp ({[id]} ∪ P) V →
  search_inv sp P ({[id]} ∪ V).
Proof.
  intros Hs HP Hd (Hc & Ha & Hdis).
  assert (Hout : ∀ b, tc (depends_on sp) id b → b ∈ V).
  { intros b Ht.
    inversion Ht as [? ? (s' & ? & ?)|? y ? (s' & ? & ?) Ht']; simplify_eq; [set_solver|].
    eapply closed_tc; [done| |done]. set_solver. }
  split_and!.
  - intros a b Hin (s' & Hs' & Hb). destruct (decide (a = id)) as [->|]; [simplify_eq; set_solver|].
    apply elem_of_union_r, (Hc a); [set_solver|by exists s'].
  - intros a Hin Ht. destruct (decide (a = id)) as [->|]; [apply Hout in Ht; set_solver|].
    eapply Ha; [|done]. set_solver.
  - set_solver.
Qed.

(** Both results of [visit] are right, and fuel for the modules not yet on the
    path is enough for it to return. *)
Lemma visit_dependencies_spec (f : ModuleId → gset ModuleId → gset ModuleId → _) l P V :
  search_inv sp P V →
  (∀ d V', d ∈ l → search_inv sp P V' → ∃ r, f d P V' = Some r ∧ visit_post sp P V' [d] r) →
  ∃ r, visit_dependencies f l P V = Some r ∧ visit_post sp P V l r.
Proof.
  revert V. induction l as [|d l IH]; intros V Hinv Hf; simpl.
  { eexists; split; [done|]. simpl. split_and!; try done. set_solver. }
  destruct (Hf d V ltac:(set_solver) Hinv) as (r & -> & Hr).
  destruct r as [[P' V']|e]; [|by eexists].
  destruct Hr as (-> & Hsub & Ht & Hinv').
  destruct (IH V' Hinv') as (r & -> & Hr); [by intros; apply Hf; [set_solver|]|].
  eexists; split; [done|]. destruct r as [[P' V'']|e]; simpl in *; [|done].
  destruct Hr as (-> & ? & ? & ?). split_and!; try done; [set_solver|].
  intros t Hin. rewrite elem_of_cons in Hin. destruct Hin as [->|]; [|by auto].
  set_solver.
Qed.

Lemma visit_spec fuel id P V :
  specs_wf sp → search_inv sp P V → (∀ p, p ∈ P → tc (depends_on sp) p id) →
  (length ModuleId_ALL < fuel + size P)%nat →
  ∃ r, visit fuel sp id P V = Some r ∧ visit_post sp P V [id] r.
Proof.
  intros Hwf. revert id P V. induction fuel as [|fuel IH]; intros id P V Hinv Hpath Hfuel.
  { pose proof (module_set_size P). lia. }
  simpl. case_decide as HV.
  { eexists; split; [done|]. simpl. split_and!; try done. set_solver. }
  case_decide as HP; [by eexists; split; [done|]; apply Hpath|].
  destruct (Hwf id) as (s & Hs & Hid). rewrite Hs.
  assert (Hinv1 : search_inv sp ({[id]} ∪ P) V).
  { destruct Hinv as (? & ? & ?). split_and!; try done. set_solver. }
  destruct (visit_dependencies_spec (visit fuel sp) (btree_iter s.(dependencies))
    ({[id]} ∪ P) V Hinv1) as (r & -> & Hr).
  { intros d V' Hd Hinv'. apply IH; [done| |].
    - intros p [->%elem_of_singleton|Hp]%elem_of_union.
      + apply tc_once. exists s. by rewrite <- elem_of_btree_iter.
      + eapply tc_r; [by apply Hpath|]. exists s. by rewrite <- elem_of_btree_iter.
    - rewrite size_union, size_singleton by set_solver. lia. }
  destruct r as [[P' V']|e]; [|by eexists].
  destruct Hr as (-> & ? & Hdeps & ?). eexists; split; [done|]; simpl.
  split_and!; [set_solver|set_solver|set_solver|].
  eapply search_inv_finish; [done..| |done].
  intros d Hd. apply Hdeps. by apply elem_of_btree_iter.
Qed.
End visit.

Lemma self_dependency_None sp :
  specs_wf sp → self_dependency sp = None → ∀ id, ¬ depends_on sp id id.
Proof.
  intros Hwf Hn id (s & Hs & Hin). unfold self_dependency in Hn.
  destruct (head _) eqn:Hh; [done|]. apply head_None in Hh.
  assert (s ∈ filter (fun s => s.(spec_id) ∈ s.(dependencies)) (btree_values sp)) as Hf.
  { apply list_elem_of_filter. destruct (Hwf id) as (? & ? & ?); simplify_eq.
    split; [done|]. apply elem_of_btree_values. eauto. }
  rewrite Hh in Hf. set_solver.
Qed.

Lemma self_dependency_Some sp id :
  specs_wf sp → self_dependency sp = Some id → depends_on sp id id.
Proof.
  unfold self_dependency. intros Hwf Hn. destruct (head _) as [s|] eqn:Hh; simplify_eq/=.
  assert (s ∈ filter (fun s => s.(spec_id) ∈ s.(dependencies)) (btree_values sp)) as Hf.
  { by apply head_Some_elem_of in Hh. }
  apply list_elem_of_filter in Hf as [Hin [i Hi]%elem_of_btree_values].
  exists s. destruct (Hwf i) as (? & ? & ?); by simplify_eq.
Qed.

Lemma validate_dependencies_returns sp :
  specs_wf sp → ∃ r, validate_dependencies sp = Some r ∧
    match r with
    | Ok _ => acyclic sp
    | Err (SelfDependency id) => depends_on sp id id
    | Err (DependencyCycle id) => tc (depends_on sp) id id
    end.
Proof.
  intros Hwf. unfold validate_dependencies.
  destruct (self_dependency sp) as [i|] eqn:Hself.
  { eexists; split; [done|]. by apply self_dependency_Some. }
  destruct (visit_dependencies_spec sp (visit visit_fuel sp) ModuleId_ALL ∅ ∅)
    as (r & -> & Hr).
  { split_and!; [intros ??; set_solver..]. }
  { intros d V' _ Hinv. apply visit_spec; [done|done|set_solver|].
    rewrite size_empty. unfold visit_fuel. lia. }
  destruct r as [[P V]|[|c]]; simpl in Hr; [|done|by eexists].
  destruct Hr as (_ & _ & Hall & _ & Hacyc & _).
  eexists; split; [done|]. intros id. apply Hacyc, Hall. auto with rust.
Qed.

Lemma validate_dependencies_Ok sp :
  specs_wf sp → validate_dependencies sp = Some (Ok tt) ↔ acyclic sp.
Proof.
  intros Hwf. destruct (validate_dependencies_returns sp Hwf) as (r & -> & Hr).
  destruct r as [[]|[i|i]]; [done|..]; (split; [done|]); intros Ha; destruct (Ha i); [|done].
  by apply tc_once.
Qed.

Lemma specs_wf_insert sp id s :
  specs_wf sp → s.(spec_id) = id → specs_wf (<[id := s]> sp).
Proof.
  intros Hwf Hs i. destruct (decide (id = i)) as [->|]; [|rewrite lookup_insert_ne by done; auto].
  rewrite lookup_insert_eq. eauto.
Qed.

Lemma fixed_wf durations : catalog_wf (fixed durations).
Proof.
  split.
  - intros []; eexists; split; reflexivity.
  - apply validate_dependencies_Ok; [intros []; eexists; split; reflexivity|].
    by vm_compute.
Qed.

(** C31: the dependency check returns on every catalog that lists all modules,
    it accepts exactly the acyclic dependency graphs, and the module an error
    names is on a cycle. *)
Theorem validate_dependencies_correct (sp : gmap ModuleId ModuleSpec) :
  specs_wf sp →
  (validate_dependencies sp = Some (Ok tt) ↔ acyclic sp) ∧
  (∃ r, validate_dependencies sp = Some r) ∧
  (∀ id, validate_dependencies sp = Some (Err (SelfDependency id)) → depends_on sp id id) ∧
  (∀ id, validate_dependencies sp = Some (Err (DependencyCycle id)) → tc (depends_on sp) id id).
Proof.
  intros Hwf. split; [by apply validate_dependencies_Ok|].
  destruct (validate_dependencies_returns sp Hwf) as (r & -> & Hr).
  split_and!; [by eauto| |]; intros id [= ->]; done.
Qed.

Lemma validate_dependencies_correct_witness :
  validate_dependencies (specs (fixed (Build_CatalogDurations 1 1 1 1 1 1 1))) = Some (Ok tt) ∧
  acyclic (specs (fixed (Build_CatalogDurations 1 1 1 1 1 1 1))).
Proof.
  assert (H : validate_dependencies (specs (fixed (Build_CatalogDurations 1 1 1 1 1 1 1)))
              = Some (Ok tt)) by (vm_compute; reflexivity).
  split; [exact H|].
  apply (validate_dependencies_correct (specs (fixed (Build_CatalogDurations 1 1 1 1 1 1 1)))).
  - intros []; eexists; split; vm_compute; reflexivity.
  - exact H.
Defined.

(** C32: every catalog the builder methods produce lists each module under its
    own identity and has an acyclic dependency graph, so none of the panicking
    lookups of the catalog is reached; [with_dependencies] on such a catalog
    fails exactly when the new graph would be cyclic. *)
Theorem built_catalog_wf (c : ModuleCatalog) :
  built c →
  catalog_wf c ∧
  (∀ id, ∃ s, c.(specs) !! id = Some s ∧ spec c id = s ∧ s.(spec_id) = id) ∧
  (∀ id deps, ∃ r, with_dependencies c id deps = Some r ∧
     (is_ok r = true ↔
      acyclic (<[id := {| spec_id := id; dependencies := list_to_set deps;
                          disable_policy := (spec c id).(disable_policy) |}]> c.(specs)))).
Proof.
  intros Hb. assert (Hwf : catalog_wf c).
  { induction Hb as [d| | |c id deps c' Hb [IH _] Hd]; [apply fixed_wf|done|done|].
    unfold with_dependencies in Hd. destruct (IH id) as (s & Hs & Hid). rewrite Hs in Hd.
    set (sp := <[id := _]> _) in Hd. assert (Hsp : specs_wf sp) by by apply specs_wf_insert.
    destruct (validate_dependencies_returns sp Hsp) as (r & Hv & Hr); simpl in Hd.
    rewrite Hv in Hd. destruct r as [|]; simplify_eq. done. }
  split; [done|]. destruct Hwf as [Hwf _]. split.
  - intros id. destruct (Hwf id) as (s & Hs & Hid). exists s. unfold spec. by rewrite Hs.
  - intros id deps. unfold with_dependencies, spec. destruct (Hwf id) as (s & Hs & <-).
    rewrite Hs. simpl. set (sp := <[_ := _]> _).
    assert (Hsp : specs_wf sp) by by apply specs_wf_insert.
    pose proof (validate_dependencies_Ok sp Hsp) as Hiff.
    destruct (validate_dependencies_returns sp Hsp) as (r & Hv & _). rewrite Hv in Hiff |- *.
    destruct r as [[]|]; (eexists; split; [done|]); simpl; rewrite <- Hiff; naive_solver.
Qed.

Lemma built_catalog_wf_witness :
  catalog_wf (with_runtime_disable_blocked
    (fixed (Build_CatalogDurations 1 1 1 1 1 1 1)) [Scim]).
Proof. apply built_catalog_wf. apply built_blocked, built_fixed. Defined.
