(* ===== verification/RuntimeLeases.v ===== *)
(** * Admission snapshots and request leases

    Models [crates/runtime-capabilities/src/snapshot.rs] and [lease.rs]: the
    immutable admission snapshot, the store that publishes it, the lease
    tracker and the request view; and [registry/lease.rs], the publication
    loop of the registry, as a program over the store's two operations.

    The tracker's mutex makes every method atomic, so the concurrent system is
    the step relation [lease_step]: any task may acquire with any snapshot it
    ever loaded, drop a lease, publish, or poll the idle wait.  A [Waker] is an
    identity and [will_wake] is equality.  Lease counts are [nat]: a count is
    bounded by the leases in memory. *)
From stdpp Require Import base list strings gmap relations.
From S2P Require Import Prelude Effects RuntimeModel.

Local Open Scope rust_scope.

(** ** [snapshot.rs] *)

Inductive CapabilityAdmission := NewRequest | ExistingTransaction.

#[export] Instance CapabilityAdmission_eq_dec : EqDecision CapabilityAdmission.
Proof. solve_decision. Defined.

Record ActiveModuleSnapshot := {
  revision : ModuleRevision;
  accepting : gset ModuleId;
  draining : gset ModuleId;
}.

Definition admits (self : ActiveModuleSnapshot) (module_id : ModuleId) : bool :=
  bool_decide (module_id ∈ self.(accepting)).

Definition is_draining (self : ActiveModuleSnapshot) (module_id : ModuleId) : bool :=
  bool_decide (module_id ∈ self.(draining)).

Definition advertises (self : ActiveModuleSnapshot) (module_id : ModuleId) : bool :=
  admits self module_id.

Definition permits (self : ActiveModuleSnapshot) (module_id : ModuleId)
    (admission : CapabilityAdmission) : bool :=
  admits self module_id
  || (bool_decide (admission = ExistingTransaction) && is_draining self module_id).

(** ** [lease.rs] *)

Notation GenerationKey := (ModuleId * Z)%type (only parsing).
Notation Waker := nat (only parsing).

Record LeaseState := {
  active : gmap (ModuleId * ModuleRevision) nat;
  waiters : gmap ModuleId (list nat);
  closed_through : gmap ModuleId ModuleRevision;
}.

Definition LeaseState_default : LeaseState :=
  {| active := ∅; waiters := ∅; closed_through := ∅ |}.

Definition close_generation (self : LeaseState) (module_id : ModuleId)
    (generation : ModuleRevision) : LeaseState := {|
  active := self.(active);
  waiters := self.(waiters);
  closed_through := <[module_id :=
    match self.(closed_through) !! module_id with
    | Some closed => Z.max closed generation
    | None => generation
    end]> self.(closed_through);
|}.

(** The condition under which publishing [next] closes a module's generation. *)
Definition closes (current next : ActiveModuleSnapshot) (module_id : ModuleId) : bool :=
  (admits current module_id && negb (admits next module_id))
  || (is_draining current module_id && negb (is_draining next module_id)).

Definition close_removed_generations (self : LeaseState)
    (current next : ActiveModuleSnapshot) : LeaseState :=
  foldl (fun self module_id =>
    if closes current next module_id
    then close_generation self module_id current.(revision)
    else self) self ModuleId_ALL.

Record RequestLease := {
  lease_key : ModuleId * ModuleRevision;
  lease_snapshot : ActiveModuleSnapshot;
}.

Definition acquire_for (self : LeaseState) (snapshot : ActiveModuleSnapshot)
    (module_id : ModuleId) (admission : CapabilityAdmission)
    : option RequestLease * LeaseState :=
  if negb (permits snapshot module_id admission) then (None, self)
  else
    let key := (module_id, snapshot.(revision)) in
    if is_some_and (self.(closed_through) !! module_id)
         (fun closed => snapshot.(revision) <=? closed)
    then (None, self)
    else
      (Some {| lease_key := key; lease_snapshot := snapshot |},
       {| active := <[key := S (unwrap_or (self.(active) !! key) 0%nat)]> self.(active);
          waiters := self.(waiters);
          closed_through := self.(closed_through) |}).

Definition acquire (self : LeaseState) (snapshot : ActiveModuleSnapshot) (module_id : ModuleId)
    : option RequestLease * LeaseState :=
  acquire_for self snapshot module_id NewRequest.

(** [RequestLeaseTracker::active] *)
Definition active_count (self : LeaseState) (module_id : ModuleId)
    (generation : ModuleRevision) : nat :=
  unwrap_or (self.(active) !! (module_id, generation)) 0%nat.

Definition has_active (self : LeaseState) (module_id : ModuleId) : bool :=
  existsb (fun '((id, _), _) => bool_decide (id = module_id)) (map_to_list self.(active)).

Inductive Poll := Ready | Pending.

(** One poll of the future of [wait_until_zero]. *)
Definition poll_until_zero (self : LeaseState) (module_id : ModuleId) (waker : Waker)
    : Poll * LeaseState :=
  if negb (has_active self module_id) then (Ready, self)
  else
    let ws := unwrap_or (self.(waiters) !! module_id) [] in
    let ws := if bool_decide (waker ∈ ws) then ws else ws ++ [waker] in
    (Pending, {| active := self.(active);
                 waiters := <[module_id := ws]> self.(waiters);
                 closed_through := self.(closed_through) |}).

(** [Drop for RequestLease]: the woken tasks and the new state; [None] is the
    panic of a lease without a count. *)
Definition drop_lease (self : LeaseState) (lease : RequestLease)
    : option (list Waker * LeaseState) :=
  match self.(active) !! lease.(lease_key) with
  | None => None
  | Some count =>
      let remaining := (count - 1)%nat in
      if bool_decide (remaining = 0%nat) then
        let module_id := lease.(lease_key).1 in
        Some (unwrap_or (self.(waiters) !! module_id) [],
              {| active := delete lease.(lease_key) self.(active);
                 waiters := delete module_id self.(waiters);
                 closed_through := self.(closed_through) |})
      else
        Some ([], {| active := <[lease.(lease_key) := remaining]> self.(active);
                     waiters := self.(waiters);
                     closed_through := self.(closed_through) |})
  end.

(** ** [snapshot.rs]: the store *)

Record SnapshotStore := {
  current : ActiveModuleSnapshot;
  leases : LeaseState;
}.

Definition SnapshotStore_new (initial : ActiveModuleSnapshot) : SnapshotStore :=
  {| current := initial; leases := LeaseState_default |}.

Definition load_full (self : SnapshotStore) : ActiveModuleSnapshot := self.(current).

Definition store_lease (self : SnapshotStore) (module_id : ModuleId)
    (admission : CapabilityAdmission) : option RequestLease * SnapshotStore :=
  let '(lease, ls) := acquire_for self.(leases) (load_full self) module_id admission in
  (lease, {| current := self.(current); leases := ls |}).

Definition compare_and_publish (self : SnapshotStore) (expected : ModuleRevision)
    (next : ActiveModuleSnapshot) : result unit StaleTransition * SnapshotStore :=
  if next.(revision) <=? expected then
    (Err (NonMonotonicPublication expected next.(revision)), self)
  else if negb (self.(current).(revision) =? expected) then
    (Err (RevisionChanged expected self.(current).(revision)), self)
  else
    (Ok tt, {| current := next;
               leases := close_removed_generations self.(leases) self.(current) next |}).

(** [RequestSnapshot]: a request's coherent view and the leases it retains. *)
Record RequestSnapshot := {
  request_snapshot : ActiveModuleSnapshot;
  request_leases : list RequestLease;
}.

(** [SnapshotStore::request], through [RequestSnapshot::new] *)
Definition request (self : SnapshotStore) : RequestSnapshot :=
  {| request_snapshot := load_full self; request_leases := [] |}.

(** [RequestSnapshot::permits] *)
Definition request_permits (self : RequestSnapshot) (tracker : LeaseState)
    (module_id : ModuleId) (admission : CapabilityAdmission)
    : bool * RequestSnapshot * LeaseState :=
  if negb (permits self.(request_snapshot) module_id admission) then (false, self, tracker)
  else if existsb (fun lease => bool_decide (lease.(lease_key).1 = module_id))
            self.(request_leases)
  then (true, self, tracker)
  else
    match acquire_for tracker self.(request_snapshot) module_id admission with
    | (None, tracker) => (false, self, tracker)
    | (Some lease, tracker) =>
        (true,
         {| request_snapshot := self.(request_snapshot);
            request_leases := self.(request_leases) ++ [lease] |},
         tracker)
    end.

(** ** [registry/lease.rs]: publication *)

Inductive snapE : Type → Type :=
| LoadFull : snapE ActiveModuleSnapshot
| CompareAndPublish (expected : ModuleRevision) (next : ActiveModuleSnapshot)
    : snapE (result unit StaleTransition)
| OutOfFuel : snapE Empty_set.

Definition set_membership (set : gset ModuleId) (module_id : ModuleId) (present : bool)
    : gset ModuleId :=
  if present then {[module_id]} ∪ set else set ∖ {[module_id]}.

(** The only error of [publish] is [RegistryError::SnapshotRevisionExhausted]. *)
Inductive PublishError := PublishRevisionExhausted.

Definition next_snapshot (current : ActiveModuleSnapshot) (module_id : ModuleId)
    (accept drain : bool) : result ActiveModuleSnapshot PublishError :=
  match u64_checked_add current.(revision) 1 with
  | None => Err PublishRevisionExhausted
  | Some next_revision =>
      Ok {| revision := next_revision;
            accepting := set_membership current.(accepting) module_id accept;
            draining := set_membership current.(draining) module_id drain |}
  end.

Fixpoint publish_loop (fuel : nat) (module_id : ModuleId) (accept drain : bool)
    : prog snapE (result unit PublishError) :=
  match fuel with
  | O => Vis OutOfFuel (fun impossible : Empty_set => match impossible with end)
  | S fuel =>
      let* current := call LoadFull in
      match next_snapshot current module_id accept drain with
      | Err e => Ret (Err e)
      | Ok next =>
          let* published := call (CompareAndPublish current.(revision) next) in
          if is_ok published then Ret (Ok tt) else publish_loop fuel module_id accept drain
      end
  end.

(** [RuntimeModuleRegistry::publish] *)
Definition publish (fuel : nat) (catalog : ModuleCatalog) (module_id : ModuleId)
    (accept drain : bool) : prog snapE (result unit PublishError) :=
  let accept := effective_enabled catalog module_id accept in
  let drain := drain && is_available catalog module_id in
  publish_loop fuel module_id accept drain.

(** The same publication as one atomic operation on the store. *)
Definition publish_atomic (catalog : ModuleCatalog) (module_id : ModuleId)
    (accept drain : bool) (s : SnapshotStore) : result unit PublishError * SnapshotStore :=
  let accept := effective_enabled catalog module_id accept in
  let drain := drain && is_available catalog module_id in
  match next_snapshot s.(current) module_id accept drain with
  | Err e => (Err e, s)
  | Ok next =>
      (Ok tt, {| current := next;
                 leases := close_removed_generations s.(leases) s.(current) next |})
  end.

(** The store as the environment of the publication loop. *)
Definition snap_step (X : Type) (e : snapE X) : SnapshotStore → X → SnapshotStore → Prop :=
  match e in snapE X return SnapshotStore → X → SnapshotStore → Prop with
  | LoadFull => fun s x s' => x = load_full s ∧ s' = s
  | CompareAndPublish expected next => fun s x s' => compare_and_publish s expected next = (x, s')
  | OutOfFuel => fun _ _ _ => False
  end.

(** What other tasks do to the store between two operations: publications
    raise the revision, lease operations keep the snapshot. *)
Definition snap_rely (s s' : SnapshotStore) : Prop :=
  s.(current).(revision) ≤ s'.(current).(revision) ∧
  (s.(current).(revision) = s'.(current).(revision) → s.(current) = s'.(current)).

(** The store with a list of interfering actions, one before each operation. *)
Definition noisy_handle (X : Type) (e : snapE X)
    (st : SnapshotStore * list (SnapshotStore → SnapshotStore))
    : option (X * (SnapshotStore * list (SnapshotStore → SnapshotStore))) :=
  let s := match st.2 with [] => st.1 | f :: _ => f st.1 end in
  match e in snapE X return option (X * (SnapshotStore * list _)) with
  | LoadFull => Some (load_full s, (s, tail st.2))
  | CompareAndPublish expected next =>
      let '(x, s') := compare_and_publish s expected next in Some (x, (s', tail st.2))
  | OutOfFuel => None
  end.

(** ** The concurrent system *)

Record lease_system := {
  store : SnapshotStore;
  outstanding : list RequestLease;
  published : list ActiveModuleSnapshot;  (* every snapshot a task may hold *)
}.

Inductive lease_step : lease_system → lease_system → Prop :=
| step_acquire sys sn module_id admission lease ls :
    sn ∈ sys.(published) →
    acquire_for sys.(store).(leases) sn module_id admission = (Some lease, ls) →
    lease_step sys {| store := {| current := sys.(store).(current); leases := ls |};
                      outstanding := lease :: sys.(outstanding);
                      published := sys.(published) |}
| step_drop sys before lease after woken ls :
    sys.(outstanding) = before ++ lease :: after →
    drop_lease sys.(store).(leases) lease = Some (woken, ls) →
    lease_step sys {| store := {| current := sys.(store).(current); leases := ls |};
                      outstanding := before ++ after;
                      published := sys.(published) |}
| step_publish sys expected next st :
    compare_and_publish sys.(store) expected next = (Ok tt, st) →
    lease_step sys {| store := st;
                      outstanding := sys.(outstanding);
                      published := next :: sys.(published) |}
| step_poll sys module_id waker p ls :
    poll_until_zero sys.(store).(leases) module_id waker = (p, ls) →
    lease_step sys {| store := {| current := sys.(store).(current); leases := ls |};
                      outstanding := sys.(outstanding);
                      published := sys.(published) |}.

Definition lease_init (initial : ActiveModuleSnapshot) : lease_system :=
  {| store := SnapshotStore_new initial; outstanding := []; published := [initial] |}.

Definition reachable (sys : lease_system) : Prop :=
  ∃ initial, rtc lease_step (lease_init initial) sys.

Definition leases_at (key : ModuleId * ModuleRevision) (l : list RequestLease) : list RequestLease :=
  filter (fun lease => lease.(lease_key) = key) l.

Definition closed_at (ls : LeaseState) (module_id : ModuleId) (r : ModuleRevision) : Prop :=
  ∃ c, ls.(closed_through) !! module_id = Some c ∧ r ≤ c.

(** The invariant of the system. *)
Record lease_inv (sys : lease_system) : Prop := {
  inv_counts : ∀ key, sys.(store).(leases).(active) !! key =
    match leases_at key sys.(outstanding) with [] => None | l => Some (length l) end;
  inv_current : sys.(store).(current) ∈ sys.(published);
  inv_latest : ∀ sn, sn ∈ sys.(published) → sn.(revision) ≤ sys.(store).(current).(revision);
  inv_closed_old : ∀ m c, sys.(store).(leases).(closed_through) !! m = Some c →
    c < sys.(store).(current).(revision);
  inv_accepting : ∀ sn m, sn ∈ sys.(published) → m ∈ sn.(accepting) →
    m ∉ sys.(store).(current).(accepting) → closed_at sys.(store).(leases) m sn.(revision);
  inv_draining : ∀ sn m, sn ∈ sys.(published) → m ∈ sn.(draining) →
    m ∉ sys.(store).(current).(draining) → closed_at sys.(store).(leases) m sn.(revision);
  inv_waiters : ∀ m, (∀ l, l ∈ sys.(outstanding) → l.(lease_key).1 ≠ m) →
    sys.(store).(leases).(waiters) !! m = None;
}.

(** ** An example run: a request leases SCIM, the module is disabled, a task
    waits for it to become idle, and the request ends. *)

Definition example_open : ActiveModuleSnapshot :=
  {| revision := 1; accepting := {[Scim]}; draining := ∅ |}.

Definition example_closed : ActiveModuleSnapshot :=
  {| revision := 2; accepting := ∅; draining := ∅ |}.

Definition example_lease : RequestLease :=
  {| lease_key := (Scim, 1); lease_snapshot := example_open |}.

Definition example_leased : lease_system :=
  {| store := (store_lease (SnapshotStore_new example_open) Scim NewRequest).2;
     outstanding := [example_lease]; published := [example_open] |}.

Definition example_disabled : lease_system :=
  {| store := (compare_and_publish example_leased.(store) 1 example_closed).2;
     outstanding := [example_lease]; published := [example_closed; example_open] |}.

Definition example_waiting : lease_system :=
  {| store := {| current := example_closed;
                 leases := (poll_until_zero example_disabled.(store).(leases) Scim 7%nat).2 |};
     outstanding := [example_lease]; published := [example_closed; example_open] |}.

Definition example_idle : lease_system :=
  {| store := {| current := example_closed;
                 leases := match drop_lease example_waiting.(store).(leases) example_lease with
                           | Some (_, ls) => ls | None => LeaseState_default end |};
     outstanding := []; published := [example_closed; example_open] |}.

(** ** Facts *)

Lemma close_removed_fields ls cur next :
  (close_removed_generations ls cur next).(active) = ls.(active) ∧
  (close_removed_generations ls cur next).(waiters) = ls.(waiters).
Proof.
  unfold close_removed_generations. revert ls.
  induction ModuleId_ALL as [|m l IH]; intros ls; simpl; [done|].
  destruct (IH (if closes cur next m then close_generation ls m cur.(revision) else ls))
    as [Ha Hw]. rewrite Ha, Hw. by destruct (closes cur next m).
Qed.

Lemma close_removed_lookup ls cur next m :
  (close_removed_generations ls cur next).(closed_through) !! m =
  if closes cur next m
  then Some (match ls.(closed_through) !! m with
             | Some c => Z.max c cur.(revision) | None => cur.(revision) end)
  else ls.(closed_through) !! m.
Proof.
  unfold close_removed_generations.
  assert (Hgen : ∀ l ls, m ∈ l ∨ closes cur next m = false ∨
      (∃ c, ls.(closed_through) !! m = Some c ∧ cur.(revision) ≤ c) →
    (foldl (fun self m => if closes cur next m
        then close_generation self m cur.(revision) else self) ls l).(closed_through) !! m =
    if closes cur next m
    then Some (match ls.(closed_through) !! m with
               | Some c => Z.max c cur.(revision) | None => cur.(revision) end)
    else ls.(closed_through) !! m).
  { induction l as [|m' l IH]; intros ls' Hm; simpl.
    - destruct Hm as [?|[->|(c & -> & ?)]]; [set_solver|done|].
      destruct (closes _ _ _); [|done]. f_equal. lia.
    - destruct (decide (m' = m)) as [->|Hne].
      + destruct (closes cur next m) eqn:Hc.
        * rewrite IH; simpl; rewrite lookup_insert_eq.
          { f_equal. destruct (ls'.(closed_through) !! m); lia. }
          right; right. eexists; split; [done|]. destruct (ls'.(closed_through) !! m); lia.
        * rewrite IH by auto. done.
      + assert (Hl : (if closes cur next m' then close_generation ls' m' cur.(revision)
                      else ls').(closed_through) !! m = ls'.(closed_through) !! m).
        { destruct (closes cur next m'); [|done]. simpl. by rewrite lookup_insert_ne. }
        rewrite IH; [by rewrite Hl|].
        destruct Hm as [?|[?|(c & ? & ?)]]; [set_solver|by auto|].
        right; right. exists c. by rewrite Hl. }
  apply Hgen. auto with rust.
Qed.

Lemma has_active_false ls m :
  has_active ls m = false ↔ ∀ r, ls.(active) !! (m, r) = None.
Proof.
  unfold has_active. rewrite <- not_true_iff_false, existsb_exists. split.
  - intros H r. apply eq_None_not_Some. intros [n Hn]. apply H.
    exists ((m, r), n). rewrite <- list_elem_of_In, elem_of_map_to_list.
    split; [done|]. by apply bool_decide_eq_true.
  - intros H ([[id r] n] & Hin & Hid). rewrite <- list_elem_of_In, elem_of_map_to_list in Hin.
    apply bool_decide_eq_true in Hid as ->. by rewrite H in Hin.
Qed.

Lemma leases_at_nil key l :
  leases_at key l = [] ↔ ∀ lease, lease ∈ l → lease.(lease_key) ≠ key.
Proof.
  unfold leases_at. split.
  - intros H lease Hin Hk. assert (lease ∈ filter (fun l => l.(lease_key) = key) l) as Hf.
    { by apply list_elem_of_filter. }
    rewrite H in Hf. set_solver.
  - intros H. apply elem_of_nil_inv. intros x [Hk Hin]%list_elem_of_filter. by eapply H.
Qed.

Lemma no_active_iff sys m :
  lease_inv sys →
  has_active sys.(store).(leases) m = false ↔
  ∀ l, l ∈ sys.(outstanding) → l.(lease_key).1 ≠ m.
Proof.
  intros Hinv. rewrite has_active_false. split.
  - intros H l Hl Hm. specialize (H l.(lease_key).2). rewrite (inv_counts _ Hinv) in H.
    destruct (leases_at _ _) eqn:Hla; [|done].
    rewrite leases_at_nil in Hla. apply (Hla l Hl). rewrite <- Hm. by destruct (lease_key l).
  - intros H r. rewrite (inv_counts _ Hinv).
    rewrite (proj2 (leases_at_nil (m, r) _)); [done|].
    intros l Hl Hk. apply (H l Hl). by rewrite Hk.
Qed.

(** What a successful acquisition gives. *)
Lemma acquire_for_Some ls sn m a lease ls' :
  acquire_for ls sn m a = (Some lease, ls') →
  permits sn m a = true ∧ ¬ closed_at ls m sn.(revision) ∧
  lease = {| lease_key := (m, sn.(revision)); lease_snapshot := sn |} ∧
  ls' = {| active := <[(m, sn.(revision)) :=
             S (unwrap_or (ls.(active) !! (m, sn.(revision))) 0%nat)]> ls.(active);
           waiters := ls.(waiters); closed_through := ls.(closed_through) |}.
Proof.
  unfold acquire_for. destruct (permits sn m a); [|done]; simpl.
  destruct (is_some_and _ _) eqn:Hc; [done|]. intros [= <- <-].
  split_and!; try done. intros (c & Hc' & ?). rewrite Hc' in Hc. simpl in Hc. boolify. lia.
Qed.

Lemma permits_in sn m a : permits sn m a = true → m ∈ sn.(accepting) ∨ m ∈ sn.(draining).
Proof.
  unfold permits, admits, is_draining. rewrite orb_true_iff, andb_true_iff, !bool_decide_eq_true.
  tauto.
Qed.

Lemma lease_inv_init initial : lease_inv (lease_init initial).
Proof.
  split; simpl; try done; set_solver.
Qed.

Lemma leases_at_cons key lease l :
  leases_at key (lease :: l) =
  if decide (lease.(lease_key) = key) then lease :: leases_at key l else leases_at key l.
Proof. done. Qed.

Lemma leases_at_middle key before lease after :
  length (leases_at key (before ++ lease :: after)) =
  ((if decide (lease.(lease_key) = key) then 1 else 0) +
   length (leases_at key (before ++ after)))%nat.
Proof.
  unfold leases_at. rewrite !filter_app, filter_cons, !length_app.
  case_decide; simpl; lia.
Qed.

Lemma inv_counts_length sys key :
  lease_inv sys →
  sys.(store).(leases).(active) !! key =
  let n := length (leases_at key sys.(outstanding)) in
  if decide (n = 0%nat) then None else Some n.
Proof.
  intros H. rewrite (inv_counts _ H). by destruct (leases_at _ _).
Qed.

Lemma counts_of_length (act : gmap (ModuleId * ModuleRevision) nat) l key :
  act !! key = (if decide (length (leases_at key l) = 0%nat) then None
                else Some (length (leases_at key l))) →
  act !! key = match leases_at key l with [] => None | l => Some (length l) end.
Proof. intros ->. by destruct (leases_at key l). Qed.

Lemma lease_inv_acquire sys sn m a lease ls :
  lease_inv sys → sn ∈ sys.(published) →
  acquire_for sys.(store).(leases) sn m a = (Some lease, ls) →
  lease_inv {| store := {| current := sys.(store).(current); leases := ls |};
               outstanding := lease :: sys.(outstanding); published := sys.(published) |}.
Proof.
  intros Hinv Hsn (Hp & Hopen & -> & ->)%acquire_for_Some.
  destruct Hinv as [Hc Hcur Hlat Hold Hacc Hdr Hw]; split; simpl; try done.
  - intros key. rewrite leases_at_cons. simpl.
    case_decide as Hk; [subst key; rewrite lookup_insert_eq|by rewrite lookup_insert_ne].
    rewrite Hc. by destruct (leases_at _ _).
  - intros m' Hm'. apply Hw. intros l Hl. apply Hm'. set_solver.
Qed.

Lemma drop_lease_Some ls lease woken ls' :
  drop_lease ls lease = Some (woken, ls') →
  ∃ n, ls.(active) !! lease.(lease_key) = Some n ∧
  ls'.(closed_through) = ls.(closed_through) ∧
  ls'.(active) = (if decide (n - 1 = 0)%nat then delete lease.(lease_key) ls.(active)
                  else <[lease.(lease_key) := (n - 1)%nat]> ls.(active)) ∧
  ls'.(waiters) = (if decide (n - 1 = 0)%nat then delete lease.(lease_key).1 ls.(waiters)
                   else ls.(waiters)).
Proof.
  unfold drop_lease. destruct (ls.(active) !! _) as [n|]; [|done].
  case_bool_decide; intros [= <- <-]; exists n; simpl; repeat case_decide; done.
Qed.

Lemma lease_inv_drop sys before lease after woken ls :
  lease_inv sys → sys.(outstanding) = before ++ lease :: after →
  drop_lease sys.(store).(leases) lease = Some (woken, ls) →
  lease_inv {| store := {| current := sys.(store).(current); leases := ls |};
               outstanding := before ++ after; published := sys.(published) |}.
Proof.
  intros Hinv Hout (n & Hn & Hcl & Hact & Hwait)%drop_lease_Some.
  pose proof (inv_counts_length _ lease.(lease_key) Hinv) as Hlen.
  rewrite Hout, leases_at_middle, Hn in Hlen.
  destruct (decide (lease.(lease_key) = lease.(lease_key))); [simpl in Hlen|done].
  assert (n - 1 = length (leases_at lease.(lease_key) (before ++ after)))%nat as Hn1.
  { case_decide; simplify_eq; lia. }
  split; simpl; unfold closed_at; rewrite ?Hcl; try apply Hinv.
  - intros key. apply counts_of_length. rewrite Hact.
    pose proof (inv_counts_length _ key Hinv) as Hk. rewrite Hout, leases_at_middle in Hk.
    destruct (decide (lease.(lease_key) = key)) as [<-|Hne].
    + rewrite <- Hn1.
      destruct (decide (n - 1 = 0)%nat); [by rewrite lookup_delete_eq|by rewrite lookup_insert_eq].
    + simpl in Hk. rewrite <- Hk.
      destruct (decide (n - 1 = 0)%nat); [by rewrite lookup_delete_ne|by rewrite lookup_insert_ne].
  - intros m Hm. rewrite Hwait. destruct (decide (lease.(lease_key).1 = m)) as [<-|Hne].
    + rewrite decide_True; [by rewrite lookup_delete_eq|].
      rewrite Hn1, (proj2 (leases_at_nil _ _)); [done|]. intros l Hl Hk.
      apply (Hm l Hl). by rewrite Hk.
    + case_decide; [rewrite lookup_delete_ne by done|]; apply (inv_waiters _ Hinv);
        rewrite Hout; intros l; rewrite !elem_of_app, elem_of_cons;
        specialize (Hm l); rewrite elem_of_app in Hm; naive_solver.
Qed.

Lemma compare_and_publish_Ok s expected next st :
  compare_and_publish s expected next = (Ok tt, st) →
  s.(current).(revision) = expected ∧ expected < next.(revision) ∧
  st = {| current := next;
          leases := close_removed_generations s.(leases) s.(current) next |}.
Proof.
  unfold compare_and_publish. destruct (_ <=? _) eqn:?; [done|].
  destruct (_ =? _) eqn:?; [|done]. simpl. intros [= <-]. boolify. by auto.
Qed.

Lemma closes_spec cur next m :
  closes cur next m = true ↔
  (m ∈ cur.(accepting) ∧ m ∉ next.(accepting)) ∨ (m ∈ cur.(draining) ∧ m ∉ next.(draining)).
Proof.
  unfold closes, admits, is_draining.
  rewrite orb_true_iff, !andb_true_iff, !negb_true_iff, !bool_decide_eq_true,
    !bool_decide_eq_false. done.
Qed.

Lemma closed_at_publish ls cur next m r :
  closed_at ls m r ∨ (closes cur next m = true ∧ r ≤ cur.(revision)) →
  closed_at (close_removed_generations ls cur next) m r.
Proof.
  unfold closed_at. rewrite close_removed_lookup. intros [(c & Hc & ?)|[-> ?]].
  - destruct (closes _ _ _); rewrite Hc; eexists; split; try done. lia.
  - eexists; split; [done|]. destruct (_ !! _); lia.
Qed.

Lemma lease_inv_publish sys expected next st :
  lease_inv sys → compare_and_publish sys.(store) expected next = (Ok tt, st) →
  lease_inv {| store := st; outstanding := sys.(outstanding);
               published := next :: sys.(published) |}.
Proof.
  intros Hinv (<- & Hlt & ->)%compare_and_publish_Ok.
  destruct (close_removed_fields sys.(store).(leases) sys.(store).(current) next) as [Ha Hw].
  split; simpl; rewrite ?Ha, ?Hw; try apply Hinv.
  - set_solver.
  - intros sn [->|Hsn]%elem_of_cons; [done|]. pose proof (inv_latest _ Hinv sn Hsn). lia.
  - intros m c. rewrite close_removed_lookup. pose proof (inv_closed_old _ Hinv m) as Hold.
    destruct (closes _ _ _); [|naive_solver lia].
    destruct (closed_through _ !! m) as [c'|]; [specialize (Hold c' eq_refl)|]; naive_solver lia.
  - intros sn m [->|Hsn]%elem_of_cons Hm Hn; [done|]. apply closed_at_publish.
    destruct (decide (m ∈ sys.(store).(current).(accepting))).
    + right. split; [rewrite closes_spec; auto|by apply (inv_latest _ Hinv)].
    + left. by apply (inv_accepting _ Hinv).
  - intros sn m [->|Hsn]%elem_of_cons Hm Hn; [done|]. apply closed_at_publish.
    destruct (decide (m ∈ sys.(store).(current).(draining))).
    + right. split; [rewrite closes_spec; auto|by apply (inv_latest _ Hinv)].
    + left. by apply (inv_draining _ Hinv).
Qed.

Lemma lease_inv_poll sys m w p ls :
  lease_inv sys → poll_until_zero sys.(store).(leases) m w = (p, ls) →
  lease_inv {| store := {| current := sys.(store).(current); leases := ls |};
               outstanding := sys.(outstanding); published := sys.(published) |}.
Proof.
  intros Hinv. unfold poll_until_zero. destruct (has_active _ _) eqn:Hact; simpl.
  - intros [= <- <-]. split; simpl; try apply Hinv. intros m' Hm'.
    rewrite lookup_insert_ne; [by apply Hinv|]. intros <-.
    apply (no_active_iff _ _ Hinv) in Hm'. congruence.
  - intros [= <- <-]. by destruct sys as [[]].
Qed.

Lemma lease_inv_step sys sys' : lease_inv sys → lease_step sys sys' → lease_inv sys'.
Proof.
  intros Hinv Hs. destruct Hs.
  - by eapply lease_inv_acquire.
  - by eapply lease_inv_drop.
  - by eapply lease_inv_publish.
  - by eapply lease_inv_poll.
Qed.

Lemma lease_inv_reachable sys : reachable sys → lease_inv sys.
Proof.
  intros [initial Hs]. assert (lease_inv (lease_init initial)) by apply lease_inv_init.
  clear -H Hs. induction Hs; eauto using lease_inv_step.
Qed.

Lemma acquire_closed sys sn m a lease ls :
  lease_inv sys → sn ∈ sys.(published) →
  m ∉ sys.(store).(current).(accepting) → m ∉ sys.(store).(current).(draining) →
  acquire_for sys.(store).(leases) sn m a ≠ (Some lease, ls).
Proof.
  intros Hinv Hsn Ha Hd (Hp & Hopen & _)%acquire_for_Some.
  apply Hopen. apply permits_in in Hp as [Hin|Hin].
  - by apply (inv_accepting _ Hinv).
  - by apply (inv_draining _ Hinv).
Qed.

Lemma step_keeps_idle sys sys' m :
  lease_inv sys → m ∉ sys.(store).(current).(accepting) →
  m ∉ sys.(store).(current).(draining) → lease_step sys sys' →
  (∀ l, l ∈ sys.(outstanding) → l.(lease_key).1 ≠ m) →
  ∀ l, l ∈ sys'.(outstanding) → l.(lease_key).1 ≠ m.
Proof.
  intros Hinv Ha Hd Hs Hidle.
  destruct Hs as [? sn m' a lease ls Hsn Hacq|? before lease after ? ? Hout _| |]; simpl; try done.
  - intros l [->|Hl]%elem_of_cons; [|by auto].
    destruct (acquire_for_Some _ _ _ _ _ _ Hacq) as (_ & _ & -> & _). simpl. intros ->.
    by eapply acquire_closed.
  - intros l Hl. apply Hidle. rewrite Hout. set_solver.
Qed.

Lemma example_leased_reachable : reachable example_leased.
Proof.
  exists example_open. apply rtc_once.
  by apply (step_acquire (lease_init example_open) example_open Scim NewRequest example_lease);
    [left|].
Qed.

Lemma example_waiting_reachable : reachable example_waiting.
Proof.
  destruct example_leased_reachable as [sn Hr]. exists sn. eapply rtc_r; [eapply rtc_r|].
  - exact Hr.
  - by apply (step_publish example_leased 1 example_closed).
  - by apply (step_poll example_disabled Scim 7%nat Pending).
Qed.

Lemma example_idle_reachable : reachable example_idle.
Proof.
  destruct example_waiting_reachable as [sn Hr]. exists sn. eapply rtc_r; [exact Hr|].
  by apply (step_drop example_waiting [] example_lease [] [7%nat]).
Qed.

(** C20: once a module is in neither set of the published snapshot and the idle
    wait has completed, no lease of the module exists, and none can be acquired
    — through no snapshot any task still holds — until a later publication
    admits the module again. *)
Theorem drained_module_stays_idle (sys sys' : lease_system) (m : ModuleId) (w : Waker) ls :
  reachable sys →
  m ∉ sys.(store).(current).(accepting) → m ∉ sys.(store).(current).(draining) →
  poll_until_zero sys.(store).(leases) m w = (Ready, ls) →
  rtc (fun a b => lease_step a b ∧ m ∉ b.(store).(current).(accepting) ∧
                  m ∉ b.(store).(current).(draining)) sys sys' →
  ∀ l, l ∈ sys'.(outstanding) → l.(lease_key).1 ≠ m.
Proof.
  intros Hr Ha Hd Hw Hs. apply lease_inv_reachable in Hr.
  assert (Hidle : ∀ l, l ∈ sys.(outstanding) → l.(lease_key).1 ≠ m).
  { apply (no_active_iff _ _ Hr). unfold poll_until_zero in Hw. by destruct (has_active _ _). }
  clear Hw. induction Hs as [sys|a b c (Hab & Hba & Hbd) _ IH]; [done|].
  apply IH; eauto using lease_inv_step, step_keeps_idle.
Qed.

Lemma drained_module_stays_idle_witness :
  Forall (fun l => l.(lease_key).1 ≠ Scim) example_idle.(outstanding).
Proof.
  apply Forall_forall.
  apply (drained_module_stays_idle example_idle example_idle Scim 7%nat
           example_idle.(store).(leases) example_idle_reachable).
  - apply not_elem_of_empty.
  - apply not_elem_of_empty.
  - vm_compute. reflexivity.
  - apply rtc_refl.
Defined.

(** A request that loads the current snapshot gets a lease exactly when the
    snapshot permits the module for that kind of admission: the generations a
    publication closes never include the published one. *)
Theorem current_snapshot_leases (sys : lease_system) (m : ModuleId) (a : CapabilityAdmission) :
  reachable sys →
  (∃ lease, (store_lease sys.(store) m a).1 = Some lease) ↔
  permits sys.(store).(current) m a = true.
Proof.
  intros Hr%lease_inv_reachable. unfold store_lease, load_full.
  destruct (acquire_for _ _ _ _) as [[lease|] ls] eqn:Hacq; simpl.
  - split; [|by eauto]. intros _. by apply acquire_for_Some in Hacq as [? _].
  - split; [by intros []|]. intros Hp. unfold acquire_for in Hacq. rewrite Hp in Hacq. simpl in Hacq.
    destruct (closed_through _ !! m) as [c|] eqn:Hc; simpl in Hacq; [|done].
    apply (inv_closed_old _ Hr) in Hc. by destruct (Z.leb_spec (revision (current (store sys))) c); [lia|].
Qed.

Lemma current_snapshot_leases_witness :
  (∃ lease, (store_lease example_leased.(store) Scim NewRequest).1 = Some lease) ↔
  permits example_leased.(store).(current) Scim NewRequest = true.
Proof. apply (current_snapshot_leases example_leased), example_leased_reachable. Defined.

(** C33: no wake-up is lost and no drop panics.  A registered waiter of a module
    has an outstanding lease to wait for; dropping any outstanding lease
    succeeds; and the drop that leaves the module without a lease wakes every
    registered waiter. *)
Theorem drop_wakes_waiters (sys : lease_system) :
  reachable sys →
  (∀ m ws, sys.(store).(leases).(waiters) !! m = Some ws →
     ∃ l, l ∈ sys.(outstanding) ∧ l.(lease_key).1 = m) ∧
  (∀ l, l ∈ sys.(outstanding) → is_Some (drop_lease sys.(store).(leases) l)) ∧
  (∀ before l after woken ls,
     sys.(outstanding) = before ++ l :: after →
     (∀ l', l' ∈ before ++ after → l'.(lease_key).1 ≠ l.(lease_key).1) →
     drop_lease sys.(store).(leases) l = Some (woken, ls) →
     woken = unwrap_or (sys.(store).(leases).(waiters) !! l.(lease_key).1) []).
Proof.
  intros Hr%lease_inv_reachable. split_and!.
  - intros m ws Hws.
    destruct (decide (Exists (fun l => l.(lease_key).1 = m) sys.(outstanding))) as [He|He].
    + by apply Exists_exists in He as (l & ? & ?); eauto.
    + rewrite (inv_waiters _ Hr) in Hws; [done|]. intros l Hl Hm. apply He, Exists_exists. eauto.
  - intros l Hl. unfold drop_lease. rewrite (inv_counts _ Hr).
    destruct (leases_at _ _) eqn:Hla; [|by case_bool_decide].
    rewrite leases_at_nil in Hla. by destruct (Hla l Hl).
  - intros before l after woken ls Hout Hlast. unfold drop_lease.
    rewrite (inv_counts_length _ _ Hr), Hout. simpl.
    rewrite leases_at_middle, (proj2 (leases_at_nil _ (before ++ after))).
    + destruct (decide (l.(lease_key) = l.(lease_key))); [|done]. simpl. by intros [= <- <-].
    + intros l' Hl' Hk. apply (Hlast l' Hl'). by rewrite Hk.
Qed.

Lemma drop_wakes_waiters_witness :
  ∃ woken ls, drop_lease example_waiting.(store).(leases) example_lease = Some (woken, ls) ∧
    woken = unwrap_or (example_waiting.(store).(leases).(waiters) !! Scim) [].
Proof.
  destruct (drop_lease example_waiting.(store).(leases) example_lease) as [[woken ls]|] eqn:Hd;
    [|discriminate Hd].
  exists woken, ls. split; [reflexivity|].
  apply (proj2 (proj2 (drop_wakes_waiters example_waiting example_waiting_reachable))
           [] example_lease [] woken ls eq_refl); [|exact Hd].
  intros l Hl. destruct (not_elem_of_nil l Hl).
Defined.

(** *** Publication *)

Lemma next_snapshot_Ok cur m a d next :
  next_snapshot cur m a d = Ok next →
  next = {| revision := cur.(revision) + 1;
            accepting := set_membership cur.(accepting) m a;
            draining := set_membership cur.(draining) m d |} ∧ cur.(revision) + 1 ≤ U64_MAX.
Proof.
  unfold next_snapshot. destruct (u64_checked_add _ _) eqn:H; intros; simplify_eq.
  apply u64_checked_add_Some in H as [-> ?]. by auto.
Qed.

Lemma compare_and_publish_current s next :
  s.(current).(revision) < next.(revision) →
  compare_and_publish s s.(current).(revision) next =
  (Ok tt, {| current := next; leases := close_removed_generations s.(leases) s.(current) next |}).
Proof.
  intros H. unfold compare_and_publish. rewrite (proj2 (Z.leb_gt _ _)) by done.
  by rewrite Z.eqb_refl.
Qed.

Lemma compare_and_publish_not_ok s expected next x s' :
  compare_and_publish s expected next = (x, s') → is_ok x = false → s' = s.
Proof.
  unfold compare_and_publish. repeat case_match; intros; simplify_eq/=; done.
Qed.

Lemma publish_loop_wp rely guar `{!PreOrder rely} fuel cat m a d s0 s :
  (∀ s s', rely s s' → snap_rely s s') →
  (∀ X (e : snapE X) s x s', guar X e s x s') → rely s0 s →
  wp snap_step rely guar (publish fuel cat m a d)
    (fun r s' => ∃ s1 s2, rely s0 s1 ∧ publish_atomic cat m a d s1 = (r, s2) ∧ rely s2 s') s.
Proof.
  intros Hrely Hg. unfold publish, publish_atomic.
  set (a' := effective_enabled cat m a). set (d' := d && is_available cat m).
  revert s. induction fuel as [|fuel IH]; intros s Hs0; simpl; [by intros|].
  intros s1 Hs1 x s2 [-> ->]. split; [by apply Hg|].
  destruct (next_snapshot (load_full s1) m a' d') as [next|e] eqn:Hn; simpl.
  - intros s3 Hs3 y s4 Hcas. split; [by apply Hg|].
    destruct (is_ok y) eqn:Hy; simpl.
    + destruct y as [[]|]; [|done]. intros s5 Hs5. exists s3, s4.
      apply compare_and_publish_Ok in Hcas as (Hrev & _ & ->).
      destruct (Hrely _ _ Hs3) as [_ Heq]. unfold load_full in *.
      rewrite Heq in Hn by (by rewrite Hrev). rewrite Hn.
      split_and!; [by do 2 (etrans; [done|])|done|done].
    + apply (compare_and_publish_not_ok _ _ _ _ _ Hcas) in Hy as ->.
      apply IH. by do 2 (etrans; [done|]).
  - intros s3 Hs3. exists s1, s1. unfold load_full in Hn. rewrite Hn.
    split_and!; [by etrans|done|done].
Qed.

(** C24: the retry loop of [publish] behaves as one atomic publication: when it
    returns, its result and effect are those of [publish_atomic] applied at
    some moment during the call, whatever the other tasks did meanwhile. *)
Theorem publish_linearizable (rely : SnapshotStore → SnapshotStore → Prop) fuel cat m a d s r s' :
  PreOrder rely → (∀ s s', rely s s' → snap_rely s s') →
  sched snap_step rely (publish fuel cat m a d) s r s' →
  ∃ s1 s2, rely s s1 ∧ publish_atomic cat m a d s1 = (r, s2) ∧ rely s2 s'.
Proof.
  intros Hpre Hrely Hs.
  pose proof (publish_loop_wp rely no_guar fuel cat m a d s s Hrely) as Hwp.
  by apply (wp_sched _ _ _ _ _ _ _ (Hwp (fun _ _ _ _ _ => I) (PreOrder_Reflexive s)) Hs).
Qed.

Lemma publish_linearizable_witness :
  ∃ s1 s2, example_leased.(store) = s1 ∧
    publish_atomic (fixed (Build_CatalogDurations 1 1 1 1 1 1 1)) Scim false false s1
      = (Ok tt, s2) ∧ s2 = example_disabled.(store).
Proof.
  apply (publish_linearizable eq 1 (fixed (Build_CatalogDurations 1 1 1 1 1 1 1))
           Scim false false example_leased.(store) (Ok tt) example_disabled.(store)).
  - apply _.
  - intros s ? <-. split; [reflexivity|done].
  - econstructor; [reflexivity|split; reflexivity|].
    econstructor; [reflexivity|reflexivity|]. by constructor.
Defined.

(** C34: [publish] terminates: with [n] interfering publications it needs at
    most [n + 1] iterations of its retry loop. *)
Theorem publish_terminates cat m a d s noise fuel :
  Forall (fun f => ∀ s, snap_rely s (f s)) noise → (length noise < fuel)%nat →
  ∃ r s' noise', run noisy_handle (publish fuel cat m a d) (s, noise) = Some (r, (s', noise')).
Proof.
  unfold publish. generalize (effective_enabled cat m a) (d && is_available cat m).
  clear a d. intros a d. revert s noise.
  induction fuel as [|fuel IH]; intros s noise Hn Hf; [lia|]. simpl.
  set (s1 := match noise with [] => s | f :: _ => f s end).
  destruct (next_snapshot (load_full s1) m a d) as [next|e] eqn:Hnext; simpl; [|by eauto].
  apply next_snapshot_Ok in Hnext as [-> _].
  set (s2 := match tail noise with [] => s1 | f :: _ => f s1 end).
  destruct (compare_and_publish s2 _ _) as [x s3] eqn:Hcas.
  destruct (is_ok x) eqn:Hx; simpl; [by eauto|].
  destruct (tail noise) as [|f rest] eqn:Ht; simpl in *.
  { subst s2. unfold load_full in Hcas. rewrite compare_and_publish_current in Hcas; simpl; [|lia].
    by simplify_eq. }
  destruct noise as [|g noise]; simplify_eq/=. apply IH; [|lia].
  by do 2 apply Forall_inv_tail in Hn.
Qed.

Lemma publish_terminates_witness :
  ∃ r s' noise', run noisy_handle
    (publish 2 (fixed (Build_CatalogDurations 1 1 1 1 1 1 1)) Scim true false)
    (SnapshotStore_new example_closed,
     [fun s => (compare_and_publish s s.(current).(revision)
        {| revision := s.(current).(revision) + 1; accepting := ∅; draining := ∅ |}).2])
    = Some (r, (s', noise')).
Proof.
  apply publish_terminates; [|simpl; lia].
  constructor; [|constructor]. intros s. rewrite compare_and_publish_current by (simpl; lia).
  split; simpl; lia.
Defined.
