(* ===== verification/RuntimeRegistry.v ===== *)
(** * The runtime-module registry

    Models [crates/runtime-capabilities/src/repository.rs] (the records and the
    [ModuleStateRepository] port), [reconcile.rs] (the lifecycle port, outcomes
    and errors) and [registry/]: [dependency.rs], [desired.rs],
    [persistence.rs], [reconcile.rs] and [transition.rs].

    A registry method is a program over [regE]: the methods of the repository
    and lifecycle ports, the snapshot store, the clock, fresh event ids and the
    registry's locks.  [Publish] is the atomic publication, which
    [RuntimeLeases.publish_linearizable] proves of the retry loop.  The one
    unbounded loop, [align_admission_with_current_intent], takes fuel; when it
    runs out the program performs [Diverge], which never completes. *)
From stdpp Require Import base list strings gmap.
From S2P Require Import Prelude Effects RuntimeModel RuntimeLeases.

Local Open Scope rust_scope.
Local Open Scope string_scope.
Open Scope Z_scope.

(** ** [repository.rs] *)

Record DesiredStateRecord := {
  d_module_id : ModuleId;
  d_mode : DesiredMode;
  d_revision : ModuleRevision;
  d_actor_id : option string;
  d_reason : option string;
  d_updated_at : Z;
}.

Record DesiredStateChange := {
  c_expected_revision : option ModuleRevision;
  c_next : DesiredStateRecord;
}.

Record DesiredRevisionGuard := {
  g_module_id : ModuleId;
  g_expected_revision : option ModuleRevision;
}.

Record InstanceStateRecord := {
  i_instance_id : string;
  i_module_id : ModuleId;
  i_state : ModuleState;
  i_transition_revision : ModuleRevision;
  i_applied_revision : option ModuleRevision;
  i_drain_deadline : option Z;
  i_error_code : option string;
  i_updated_at : Z;
}.

Record ModuleReconcileState := {
  rs_desired : DesiredStateRecord;
  rs_instance : option InstanceStateRecord;
}.

Record InstanceStateChange := {
  ic_expected_revision : option ModuleRevision;
  ic_next : InstanceStateRecord;
}.

Inductive ModuleEventState :=
| EventDesired (mode : HistoricalDesiredMode)
| EventActual (state : ModuleState).

Record ModuleEventRecord := {
  ev_event_id : string;
  ev_module_id : ModuleId;
  ev_event_type : ModuleEventType;
  ev_revision : ModuleRevision;
  ev_instance_id : option string;
  ev_actor_id : option string;
  ev_reason : option string;
  ev_before : option ModuleEventState;
  ev_after : option ModuleEventState;
  ev_outcome_code : option string;
  ev_occurred_at : Z;
}.

Record InstanceStateMutation := {
  im_change : InstanceStateChange;
  im_event : ModuleEventRecord;
}.

Record InstanceStateObservation := { io_event : ModuleEventRecord }.

Record ModuleEventPage := { page_total : Z; page_events : list ModuleEventRecord }.

Inductive CasOutcome (T : Type) :=
| Applied (value : T)
| Stale (current : option T).
Arguments Applied {T} value.
Arguments Stale {T} current.

(** ** [reconcile.rs] *)

Record LifecycleFailure := { code : string }.

Inductive ReconcileOutcome :=
| NoChange
| OutcomeEnabled
| OutcomeDisabled
| StaleDiscarded
| OutcomeFailed.

Inductive RegistryError (ε : Type) :=
| Repository (error : ε)
| Compensation (operation compensation : RegistryError ε)
| MissingDesiredState (module_id : ModuleId)
| RuntimeDisableBlocked (module_id : ModuleId)
| ServiceNotConstructed (module_id : ModuleId)
| ActiveDependent (module_id dependent : ModuleId)
| DependencyUnavailable (module_id dependency : ModuleId)
| RevisionExhausted (module_id : ModuleId)
| SnapshotRevisionExhausted.
Arguments Repository {ε}.
Arguments Compensation {ε}.
Arguments MissingDesiredState {ε}.
Arguments RuntimeDisableBlocked {ε}.
Arguments ServiceNotConstructed {ε}.
Arguments ActiveDependent {ε}.
Arguments DependencyUnavailable {ε}.
Arguments RevisionExhausted {ε}.
Arguments SnapshotRevisionExhausted {ε}.

(** The ports of the registry: [ModuleStateRepository], [ModuleLifecycle], the
    snapshot store, the clock, [Uuid::now_v7] and the two kinds of locks. *)
Inductive regE (ε : Type) : Type → Type :=
| ReadDesired (module_id : ModuleId) : regE ε (result (option DesiredStateRecord) ε)
| ReadAllDesired : regE ε (result (list DesiredStateRecord) ε)
| ReadReconcileState (instance_id : string) : regE ε (result (list ModuleReconcileState) ε)
| CompareAndSetDesiredGuarded (change : DesiredStateChange)
    (required_revisions : list DesiredRevisionGuard)
    : regE ε (result (CasOutcome DesiredStateRecord) ε)
| ReadInstance (instance_id : string) (module_id : ModuleId)
    : regE ε (result (option InstanceStateRecord) ε)
| PageEvents (offset limit : Z) : regE ε (result ModuleEventPage ε)
| CompareAndSetInstance (mutation : InstanceStateMutation)
    : regE ε (result (CasOutcome InstanceStateRecord) ε)
| RecordInstanceObservation (observation : InstanceStateObservation) : regE ε (result unit ε)
| ValidateRevision (module_id : ModuleId) (expected : ModuleRevision) : regE ε (result bool ε)
| DrainStored (module_id : ModuleId) (rev : ModuleRevision) (remaining_duration : Z)
    : regE ε (result bool LifecycleFailure)
| Snapshot : regE ε ActiveModuleSnapshot
| Publish (module_id : ModuleId) (accept drain : bool) : regE ε (result unit PublishError)
| WaitUntilIdle (module_id : ModuleId) : regE ε unit
| SystemTimeNow : regE ε Z
| UuidNowV7 : regE ε string
| LockTransition (module_id : ModuleId) : regE ε unit
| UnlockTransition (module_id : ModuleId) : regE ε unit
| LockPolicy : regE ε unit
| UnlockPolicy : regE ε unit
| Diverge : regE ε Empty_set.
Arguments ReadDesired {ε}.
Arguments ReadAllDesired {ε}.
Arguments ReadReconcileState {ε}.
Arguments CompareAndSetDesiredGuarded {ε}.
Arguments ReadInstance {ε}.
Arguments PageEvents {ε}.
Arguments CompareAndSetInstance {ε}.
Arguments RecordInstanceObservation {ε}.
Arguments ValidateRevision {ε}.
Arguments DrainStored {ε}.
Arguments Snapshot {ε}.
Arguments Publish {ε}.
Arguments WaitUntilIdle {ε}.
Arguments SystemTimeNow {ε}.
Arguments UuidNowV7 {ε}.
Arguments LockTransition {ε}.
Arguments UnlockTransition {ε}.
Arguments LockPolicy {ε}.
Arguments UnlockPolicy {ε}.
Arguments Diverge {ε}.

(** The part of [RuntimeModuleRegistry] that is data. *)
Record Registry := {
  catalog : ModuleCatalog;
  instance_id : string;
}.

(** [RuntimeModuleRegistry::new]: the initial snapshot loses unavailable modules. *)
Definition new_registry (cat : ModuleCatalog) (instance : string)
    (initial_snapshot : ActiveModuleSnapshot) : Registry * SnapshotStore :=
  ({| catalog := cat; instance_id := instance |},
   SnapshotStore_new
     {| revision := initial_snapshot.(revision);
        accepting := filter (fun id => is_available cat id = true) initial_snapshot.(accepting);
        draining := filter (fun id => is_available cat id = true) initial_snapshot.(draining) |}).

(** [let*?c x := p in k]: the [?] of a function with a [&mut bool] output [c]. *)
Notation "'let*?[' c ']' x ':=' p 'in' k" :=
  (bind p (fun res => match res with Ok x => k | Err err => Ret (Err err, c) end))
  (at level 10, c at level 100, x binder, p at level 100, k at level 200) : rust_scope.

(** The latest [SystemTime] of the platform: [i64] seconds. *)
Definition SYSTEM_TIME_MAX : Z := I64_MAX * 1000000000 + 999999999.

Definition checked_add_time (now duration : Z) : option Z :=
  if now + duration <=? SYSTEM_TIME_MAX then Some (now + duration) else None.

(** [deadline.duration_since(now).ok()] *)
Definition duration_since (deadline now : Z) : option Z :=
  if now <=? deadline then Some (deadline - now) else None.

Section registry.
Context {ε : Type} (self : Registry).

Definition M (A : Type) : Type := prog (regE ε) (result A (RegistryError ε)).

(** A repository call with [map_err(RegistryError::Repository)]. *)
Definition repository {A} (e : regE ε (result A ε)) : M A :=
  let* r := call e in Ret (map_err Repository r).

Definition publish_ (module_id : ModuleId) (accept drain : bool) : M unit :=
  let* r := call (Publish module_id accept drain) in
  Ret (map_err (fun _ : PublishError => SnapshotRevisionExhausted) r).

(** ** [registry/persistence.rs] *)

Definition revision_is_current (module_id : ModuleId) (rev : ModuleRevision) : M bool :=
  repository (ValidateRevision module_id rev).

Definition event (state : InstanceStateRecord) (event_type : ModuleEventType)
    (before : option ModuleState) (outcome_code : option string)
    : prog (regE ε) ModuleEventRecord :=
  let* event_id := call UuidNowV7 in
  Ret {| ev_event_id := event_id;
         ev_module_id := state.(i_module_id);
         ev_event_type := event_type;
         ev_revision := state.(i_transition_revision);
         ev_instance_id := Some self.(instance_id);
         ev_actor_id := None;
         ev_reason := None;
         ev_before := EventActual <$> before;
         ev_after := Some (EventActual state.(i_state));
         ev_outcome_code := outcome_code;
         ev_occurred_at := state.(i_updated_at) |}.

Definition persist_state (module_id : ModuleId) (rev : ModuleRevision)
    (expected_revision : option ModuleRevision) (state : ModuleState)
    (applied_revision : option ModuleRevision) (event_type : ModuleEventType)
    (before : option ModuleState) (drain_deadline : option Z) (outcome_code : option string)
    : M (CasOutcome InstanceStateRecord) :=
  let* now := call SystemTimeNow in
  let next := {| i_instance_id := self.(instance_id);
                 i_module_id := module_id;
                 i_state := state;
                 i_transition_revision := rev;
                 i_applied_revision := applied_revision;
                 i_drain_deadline := drain_deadline;
                 i_error_code := outcome_code;
                 i_updated_at := now |} in
  let* event := event next event_type before outcome_code in
  repository (CompareAndSetInstance
    {| im_change := {| ic_expected_revision := expected_revision; ic_next := next |};
       im_event := event |}).

Definition discard_stale (module_id : ModuleId) (rev : ModuleRevision)
    (observed : option InstanceStateRecord) : M unit :=
  let state := (fun record => EventActual record.(i_state)) <$> observed in
  let* event_id := call UuidNowV7 in
  let* occurred_at := call SystemTimeNow in
  repository (RecordInstanceObservation
    {| io_event := {| ev_event_id := event_id;
                      ev_module_id := module_id;
                      ev_event_type := StaleTransitionDiscarded;
                      ev_revision := rev;
                      ev_instance_id := Some self.(instance_id);
                      ev_actor_id := None;
                      ev_reason := None;
                      ev_before := state;
                      ev_after := state;
                      ev_outcome_code := Some "revision_changed";
                      ev_occurred_at := occurred_at |} |}).

Definition is_applied {T} (outcome : CasOutcome T) : bool :=
  match outcome with Applied _ => true | Stale _ => false end.

Definition persist_failure (current : InstanceStateRecord) (failure : LifecycleFailure)
    : M bool :=
  let*? outcome := persist_state current.(i_module_id) current.(i_transition_revision)
    (Some current.(i_transition_revision)) ModuleState_Failed None TransitionFailed
    (Some current.(i_state)) current.(i_drain_deadline) (Some failure.(code)) in
  Ret (Ok (is_applied outcome)).

(** ** [registry/dependency.rs] *)

Definition find_desired (desired : list DesiredStateRecord) (module_id : ModuleId)
    : option DesiredStateRecord :=
  head (filter (fun record => record.(d_module_id) = module_id) desired).

Fixpoint unavailable_dependency (snapshot : ActiveModuleSnapshot)
    (desired : list DesiredStateRecord) (deps : list ModuleId)
    : result (option ModuleId) (RegistryError ε) :=
  match deps with
  | [] => Ok None
  | dependency :: rest =>
      let? record := ok_or (find_desired desired dependency) (MissingDesiredState dependency) in
      if negb (effective_enabled self.(catalog) dependency (is_enabled record.(d_mode)))
         || negb (admits snapshot dependency)
      then Ok (Some dependency)
      else unavailable_dependency snapshot desired rest
  end.

Definition first_unavailable_dependency (module_id : ModuleId) : M (option ModuleId) :=
  let deps := btree_iter (spec self.(catalog) module_id).(dependencies) in
  if decide (deps = []) then Ret (Ok None)
  else
    let* snapshot := call Snapshot in
    let*? desired := repository ReadAllDesired in
    Ret (unavailable_dependency snapshot desired deps).

Fixpoint enabled_dependent (snapshot : ActiveModuleSnapshot)
    (desired : list DesiredStateRecord) (dependents : list ModuleId)
    : result (option ModuleId) (RegistryError ε) :=
  match dependents with
  | [] => Ok None
  | dependent :: rest =>
      let? record := ok_or (find_desired desired dependent) (MissingDesiredState dependent) in
      if effective_enabled self.(catalog) dependent (is_enabled record.(d_mode))
         || admits snapshot dependent
         || is_draining snapshot dependent
      then Ok (Some dependent)
      else enabled_dependent snapshot desired rest
  end.

Definition first_enabled_dependent (module_id : ModuleId) : M (option ModuleId) :=
  let dependents := spec_id <$> dependents_of self.(catalog) module_id in
  if decide (dependents = []) then Ret (Ok None)
  else
    let* snapshot := call Snapshot in
    let*? desired := repository ReadAllDesired in
    Ret (enabled_dependent snapshot desired dependents).

Definition failed_or_stale (failed : bool) : ReconcileOutcome :=
  if failed then OutcomeFailed else StaleDiscarded.

Definition fail_dependency_loss (current : InstanceStateRecord) : M ReconcileOutcome :=
  let*? _ := publish_ current.(i_module_id) false false in
  let*? failed := persist_failure current {| code := "dependency_unavailable" |} in
  Ret (Ok (failed_or_stale failed)).

(** ** [registry/desired.rs] *)

(** The dependency loop of [set_desired_mode] when enabling: the revision guards
    of the dependencies, or the error. *)
Fixpoint dependency_guards (module_id : ModuleId) (snapshot : ActiveModuleSnapshot)
    (desired : list DesiredStateRecord) (deps : list ModuleId)
    : result (list DesiredRevisionGuard) (RegistryError ε) :=
  match deps with
  | [] => Ok []
  | dependency :: rest =>
      let? record := ok_or (find_desired desired dependency) (MissingDesiredState dependency) in
      if negb (effective_enabled self.(catalog) dependency (is_enabled record.(d_mode)))
         || negb (admits snapshot dependency)
      then Err (DependencyUnavailable module_id dependency)
      else
        let? guards := dependency_guards module_id snapshot desired rest in
        Ok ({| g_module_id := dependency;
               g_expected_revision := Some record.(d_revision) |} :: guards)
  end.

(** The dependents loop when disabling. *)
Fixpoint dependent_guards (module_id : ModuleId) (snapshot : ActiveModuleSnapshot)
    (desired : list DesiredStateRecord) (dependents : list ModuleId)
    : result (list DesiredRevisionGuard) (RegistryError ε) :=
  match dependents with
  | [] => Ok []
  | dependent :: rest =>
      let? record := ok_or (find_desired desired dependent) (MissingDesiredState dependent) in
      if effective_enabled self.(catalog) dependent (is_enabled record.(d_mode))
         || admits snapshot dependent
         || is_draining snapshot dependent
      then Err (ActiveDependent module_id dependent)
      else
        let? guards := dependent_guards module_id snapshot desired rest in
        Ok ({| g_module_id := dependent;
               g_expected_revision := Some record.(d_revision) |} :: guards)
  end.

Definition set_desired_mode_locked (module_id : ModuleId) (mode : DesiredMode)
    (expected_revision : option ModuleRevision) (actor_id reason : option string)
    (changed_at : Z) : M (CasOutcome DesiredStateRecord) :=
  let spec := spec self.(catalog) module_id in
  let disable_policy := effective_disable_policy self.(catalog) module_id in
  let enabling := is_enabled mode in
  if enabling && negb (is_available self.(catalog) module_id) then
    Ret (Err (ServiceNotConstructed module_id))
  else if negb enabling && bool_decide (disable_policy = NotRuntimeDisableable) then
    Ret (Err (RuntimeDisableBlocked module_id))
  else
    let* snapshot := call Snapshot in
    let*? desired := repository ReadAllDesired in
    match
      if enabling then
        dependency_guards module_id snapshot desired (btree_iter spec.(dependencies))
      else
        dependent_guards module_id snapshot desired
          (spec_id <$> dependents_of self.(catalog) module_id)
    with
    | Err e => Ret (Err e)
    | Ok required_revisions =>
        match find_desired desired module_id with
        | None => Ret (Err (MissingDesiredState module_id))
        | Some current =>
            if bool_decide (Some current.(d_revision) ≠ expected_revision) then
              Ret (Ok (Stale (Some current)))
            else
              match u64_checked_add current.(d_revision) 1 with
              | None => Ret (Err (RevisionExhausted module_id))
              | Some next_revision =>
                  repository (CompareAndSetDesiredGuarded
                    {| c_expected_revision := expected_revision;
                       c_next := {| d_module_id := module_id;
                                    d_mode := mode;
                                    d_revision := next_revision;
                                    d_actor_id := actor_id;
                                    d_reason := reason;
                                    d_updated_at := changed_at |} |}
                    required_revisions)
              end
        end
    end.

(** The policy lock is held for the whole call. *)
Definition set_desired_mode (module_id : ModuleId) (mode : DesiredMode)
    (expected_revision : option ModuleRevision) (actor_id reason : option string)
    (changed_at : Z) : M (CasOutcome DesiredStateRecord) :=
  let* _ := call LockPolicy in
  let* r := set_desired_mode_locked module_id mode expected_revision actor_id reason changed_at in
  let* _ := call UnlockPolicy in
  Ret r.

(** ** [registry/transition.rs] *)

Definition is_drain_policy (p : DisablePolicy) : bool :=
  match p with DrainStoredTransactions _ => true | _ => false end.

Definition is_immediate (p : DisablePolicy) : bool :=
  match p with Immediate => true | _ => false end.

(** [matches!(state.state, ModuleState::Enabled | ModuleState::Draining)] *)
Definition restorable (state : InstanceStateRecord) : bool :=
  match state.(i_state) with
  | ModuleState_Enabled | ModuleState_Draining => true
  | _ => false
  end.

Definition close_and_fail {A} (module_id : ModuleId) (error : RegistryError ε) : M A :=
  let*? _ := publish_ module_id false false in
  Ret (Err error).

(** One iteration: [Ok true] returns, [Ok false] loops. *)
Definition align_once (module_id : ModuleId) (can_restore completed_enable : bool) : M bool :=
  let* read := call (ReadDesired module_id) in
  match read with
  | Ok None => close_and_fail module_id (MissingDesiredState module_id)
  | Err error => close_and_fail module_id (Repository error)
  | Ok (Some desired) =>
      let enabled := effective_enabled self.(catalog) module_id (is_enabled desired.(d_mode)) in
      let*? runtime_ready :=
        if can_restore && negb completed_enable then
          let* read := call (ReadInstance self.(instance_id) module_id) in
          match read with
          | Ok state => Ret (Ok (is_some_and state restorable))
          | Err error => close_and_fail module_id (Repository error)
          end
        else Ret (Ok can_restore) in
      let*? dependencies_ready :=
        if runtime_ready && enabled then
          let* checked := first_unavailable_dependency module_id in
          match checked with
          | Ok dependency => Ret (Ok (is_none dependency))
          | Err error => close_and_fail module_id error
          end
        else Ret (Ok false) in
      let*? _ := publish_ module_id
        (runtime_ready && enabled && dependencies_ready)
        (runtime_ready && negb enabled && is_available self.(catalog) module_id
         && is_drain_policy (effective_disable_policy self.(catalog) module_id)) in
      let* checked := revision_is_current module_id desired.(d_revision) in
      match checked with
      | Ok is_current => Ret (Ok is_current)
      | Err error => close_and_fail module_id error
      end
  end.

Fixpoint align_admission_with_current_intent (fuel : nat) (module_id : ModuleId)
    (can_restore completed_enable : bool) : M unit :=
  match fuel with
  | O => Vis Diverge (fun impossible : Empty_set => match impossible with end)
  | S fuel =>
      let*? settled := align_once module_id can_restore completed_enable in
      if settled then Ret (Ok tt)
      else align_admission_with_current_intent fuel module_id can_restore completed_enable
  end.

Definition is_outcome_enabled (r : result ReconcileOutcome (RegistryError ε)) : bool :=
  match r with Ok OutcomeEnabled => true | _ => false end.

Definition is_outcome_disabled (r : result ReconcileOutcome (RegistryError ε)) : bool :=
  match r with Ok OutcomeDisabled => true | _ => false end.

Definition is_exhausted (e : RegistryError ε) : bool :=
  match e with SnapshotRevisionExhausted => true | _ => false end.

Definition finish_admission (fuel : nat) (module_id : ModuleId) (can_restore : bool)
    (r : result ReconcileOutcome (RegistryError ε)) : M ReconcileOutcome :=
  let completed_enable := is_outcome_enabled r in
  let can_restore := can_restore && negb (is_outcome_disabled r) in
  let* compensation := align_admission_with_current_intent fuel module_id can_restore
                         completed_enable in
  Ret match r, compensation with
      | Ok outcome, Ok _ => Ok outcome
      | Err error, Ok _ | Ok _, Err error => Err error
      | Err operation, Err compensation =>
          if is_exhausted operation && is_exhausted compensation then Err operation
          else Err (Compensation operation compensation)
      end.

(** The result and the final value of [can_restore]. *)
Definition enable_transition (module_id : ModuleId) (rev : ModuleRevision)
    (current : option InstanceStateRecord)
    : prog (regE ε) (result ReconcileOutcome (RegistryError ε) * bool) :=
  let*?[false] starting := persist_state module_id rev (i_transition_revision <$> current)
    ModuleState_Starting None TransitionStarted (i_state <$> current) None None in
  match starting with
  | Stale _ => Ret (Ok StaleDiscarded, false)
  | Applied starting =>
  let*?[false] dependency := first_unavailable_dependency module_id in
  if is_some dependency then
    let* r := fail_dependency_loss starting in Ret (r, false)
  else
  let*?[true] is_current := revision_is_current module_id rev in
  if negb is_current then
    let*?[true] _ := discard_stale module_id rev (Some starting) in
    Ret (Ok StaleDiscarded, true)
  else
  let*?[true] _ := publish_ module_id true false in
  let*?[true] dependency := first_unavailable_dependency module_id in
  if is_some dependency then
    let*?[true] _ := publish_ module_id false false in
    let* r := fail_dependency_loss starting in Ret (r, false)
  else
  let*?[true] is_current := revision_is_current module_id rev in
  if negb is_current then
    let*?[true] _ := publish_ module_id false false in
    let*?[true] _ := discard_stale module_id rev (Some starting) in
    Ret (Ok StaleDiscarded, true)
  else
  let*?[true] completed := persist_state module_id rev (Some rev) ModuleState_Enabled (Some rev)
    TransitionCompleted (Some ModuleState_Starting) None None in
  match completed with
  | Applied _ => Ret (Ok OutcomeEnabled, true)
  | Stale _ =>
      let*?[true] _ := publish_ module_id false false in
      Ret (Ok StaleDiscarded, true)
  end
  end.

(** [discard_stale(...).await?; return Ok(StaleDiscarded)] *)
Definition discarded (module_id : ModuleId) (rev : ModuleRevision)
    (observed : option InstanceStateRecord) : M ReconcileOutcome :=
  let*? _ := discard_stale module_id rev observed in
  Ret (Ok StaleDiscarded).

(** [persist_failure(...).await?] and the outcome it selects. *)
Definition fail_with (current : InstanceStateRecord) (failure : LifecycleFailure)
    : M ReconcileOutcome :=
  let*? failed := persist_failure current failure in
  Ret (Ok (failed_or_stale failed)).

(** The first branch of [disable_transition]: no instance state, or [Disabled]. *)
Definition disable_settled (module_id : ModuleId) (rev : ModuleRevision)
    (current : option InstanceStateRecord) (policy : DisablePolicy) : M ReconcileOutcome :=
  let*? _ := publish_ module_id false false in
  let* _ := if negb (is_immediate policy) then call (WaitUntilIdle module_id) else Ret tt in
  let*? is_current := revision_is_current module_id rev in
  if negb is_current then discarded module_id rev current
  else
  let*? completed := persist_state module_id rev (i_transition_revision <$> current)
    ModuleState_Disabled (Some rev) TransitionCompleted (i_state <$> current) None None in
  match completed with
  | Applied _ =>
      let*? is_current := revision_is_current module_id rev in
      if negb is_current then Ret (Ok StaleDiscarded)
      else
        let*? _ := publish_ module_id false false in
        Ret (Ok OutcomeDisabled)
  | Stale _ => Ret (Ok StaleDiscarded)
  end.

(** [drain_deadline] of [disable_transition]; the clock is read only when no
    deadline of the same draining revision is kept. *)
Definition drain_deadline_for (rev : ModuleRevision) (current : option InstanceStateRecord)
    (policy : DisablePolicy) : prog (regE ε) (option Z) :=
  match policy with
  | DrainStoredTransactions max_duration =>
      let kept := match current with
        | Some instance =>
            if bool_decide (instance.(i_state) = ModuleState_Draining)
               && (instance.(i_transition_revision) =? rev)
            then instance.(i_drain_deadline) else None
        | None => None
        end in
      match kept with
      | Some deadline => Ret (Some deadline)
      | None => let* now := call SystemTimeNow in Ret (checked_add_time now max_duration)
      end
  | _ => Ret None
  end.

(** [DrainStarted] or [DrainCompleted] recorded on the draining instance. *)
Definition persist_drain (module_id : ModuleId) (rev : ModuleRevision)
    (event_type : ModuleEventType) (drain_deadline : option Z)
    : M (CasOutcome InstanceStateRecord) :=
  persist_state module_id rev (Some rev) ModuleState_Draining None event_type
    (Some ModuleState_Draining) drain_deadline None.

(** The drain of stored transactions: [Ok None] continues. *)
Definition drain_stored (module_id : ModuleId) (rev : ModuleRevision)
    (draining : InstanceStateRecord) (drain_deadline : option Z)
    : M (option ReconcileOutcome) :=
  let* remaining_duration :=
    match drain_deadline with
    | Some deadline =>
        let* now := call SystemTimeNow in
        Ret (unwrap_or (duration_since deadline now) 0)
    | None => Ret 0
    end in
  let* drained := call (DrainStored module_id rev remaining_duration) in
  match drained with
  | Ok true => Ret (Ok None)
  | Ok false =>
      let*? outcome := fail_with draining {| code := "drain_deadline_elapsed" |} in
      Ret (Ok (Some outcome))
  | Err failure =>
      let*? outcome := fail_with draining failure in
      Ret (Ok (Some outcome))
  end.

(** The [!matches!(disable_policy, Immediate)] block: [Ok None] continues. *)
Definition drain_phase (module_id : ModuleId) (rev : ModuleRevision)
    (draining : InstanceStateRecord) (policy : DisablePolicy) (drain_deadline : option Z)
    : M (option ReconcileOutcome) :=
  let*? started := persist_drain module_id rev DrainStarted drain_deadline in
  if negb (is_applied started) then Ret (Ok (Some StaleDiscarded))
  else
  let*? stop :=
    if is_drain_policy policy then drain_stored module_id rev draining drain_deadline
    else Ret (Ok None) in
  if is_some stop then Ret (Ok stop)
  else
  let*? _ := publish_ module_id false false in
  let* _ := call (WaitUntilIdle module_id) in
  let*? is_current := revision_is_current module_id rev in
  if negb is_current then
    let*? outcome := discarded module_id rev (Some draining) in Ret (Ok (Some outcome))
  else
  let*? completed := persist_drain module_id rev DrainCompleted drain_deadline in
  if negb (is_applied completed) then Ret (Ok (Some StaleDiscarded))
  else
  let*? is_current := revision_is_current module_id rev in
  if negb is_current then
    let*? outcome := discarded module_id rev (Some draining) in Ret (Ok (Some outcome))
  else Ret (Ok None).

(** The tail of [disable_transition]: the [Disabled] state and its publication. *)
Definition complete_disable (module_id : ModuleId) (rev : ModuleRevision) : M ReconcileOutcome :=
  let*? completed := persist_state module_id rev (Some rev) ModuleState_Disabled (Some rev)
    TransitionCompleted (Some ModuleState_Draining) None None in
  match completed with
  | Applied _ =>
      let*? is_current := revision_is_current module_id rev in
      if negb is_current then
        let*? _ := publish_ module_id false false in
        Ret (Ok StaleDiscarded)
      else
        let*? _ := publish_ module_id false false in
        Ret (Ok OutcomeDisabled)
  | Stale _ =>
      let*? _ := publish_ module_id false false in
      Ret (Ok StaleDiscarded)
  end.

Definition disable_transition (module_id : ModuleId) (rev : ModuleRevision)
    (current : option InstanceStateRecord) : M ReconcileOutcome :=
  let policy := effective_disable_policy self.(catalog) module_id in
  if is_none_or current (fun instance => bool_decide (instance.(i_state) = ModuleState_Disabled))
  then disable_settled module_id rev current policy
  else
  let* drain_deadline := drain_deadline_for rev current policy in
  let*? draining := persist_state module_id rev (i_transition_revision <$> current)
    ModuleState_Draining None TransitionStarted (i_state <$> current) drain_deadline None in
  match draining with
  | Stale _ => Ret (Ok StaleDiscarded)
  | Applied draining =>
  let*? dependent := first_enabled_dependent module_id in
  if is_some dependent then fail_with draining {| code := "active_dependent" |}
  else
  let*? is_current := revision_is_current module_id rev in
  if negb is_current then discarded module_id rev (Some draining)
  else
  let*? _ := publish_ module_id false (is_drain_policy policy) in
  let*? is_current := revision_is_current module_id rev in
  if negb is_current then discarded module_id rev (Some draining)
  else
  let*? stop :=
    if negb (is_immediate policy) then
      drain_phase module_id rev draining policy drain_deadline
    else Ret (Ok None) in
  match stop with
  | Some outcome => Ret (Ok outcome)
  | None => complete_disable module_id rev
  end
  end.

Definition enable (fuel : nat) (module_id : ModuleId) (rev : ModuleRevision)
    (current : option InstanceStateRecord) : M ReconcileOutcome :=
  let* rc := enable_transition module_id rev current in
  finish_admission fuel module_id rc.2 rc.1.

Definition disable (fuel : nat) (module_id : ModuleId) (rev : ModuleRevision)
    (current : option InstanceStateRecord) : M ReconcileOutcome :=
  let can_restore := is_some_and current restorable in
  let* r := disable_transition module_id rev current in
  finish_admission fuel module_id can_restore r.

(** ** [registry/reconcile.rs] *)

(** The instance has applied the desired revision in the matching state. *)
Definition instance_settled (enabled : bool) (desired : DesiredStateRecord)
    (current : option InstanceStateRecord) : bool :=
  is_some_and current (fun instance =>
    bool_decide (instance.(i_applied_revision) = Some desired.(d_revision))
    && ((enabled && bool_decide (instance.(i_state) = ModuleState_Enabled))
        || (negb enabled && bool_decide (instance.(i_state) = ModuleState_Disabled)))).

Definition reconcile_states (states : list ModuleReconcileState)
    : gmap ModuleId ModuleReconcileState :=
  foldl (fun acc state => <[state.(rs_desired).(d_module_id) := state]> acc) ∅ states.

(** The checks of [is_settled] that read the admission snapshot. *)
Definition admission_settled (snapshot : ActiveModuleSnapshot) (module_id : ModuleId)
    (enabled : bool) (states : gmap ModuleId ModuleReconcileState) : bool :=
  if negb (Bool.eqb (admits snapshot module_id) enabled) || is_draining snapshot module_id
  then false
  else if enabled then
    forallb (fun dependency =>
      is_some_and (states !! dependency) (fun state =>
        effective_enabled self.(catalog) dependency (is_enabled state.(rs_desired).(d_mode)))
      && admits snapshot dependency)
      (btree_iter (spec self.(catalog) module_id).(dependencies))
  else
    forallb (fun dependent =>
      is_some_and (states !! dependent.(spec_id)) (fun state =>
        negb (effective_enabled self.(catalog) dependent.(spec_id)
                (is_enabled state.(rs_desired).(d_mode))))
      && negb (admits snapshot dependent.(spec_id))
      && negb (is_draining snapshot dependent.(spec_id)))
      (dependents_of self.(catalog) module_id).

Definition is_settled (module_id : ModuleId) (states : gmap ModuleId ModuleReconcileState)
    : prog (regE ε) bool :=
  match states !! module_id with
  | None => Ret false
  | Some state =>
      let enabled :=
        effective_enabled self.(catalog) module_id (is_enabled state.(rs_desired).(d_mode)) in
      if negb (instance_settled enabled state.(rs_desired) state.(rs_instance)) then Ret false
      else
        let* snapshot := call Snapshot in
        Ret (admission_settled snapshot module_id enabled states)
  end.

(** The dependency check of an enabled module: [Ok None] continues,
    [Ok (Some outcome)] returns it. *)
Definition dependency_gate (module_id : ModuleId) (desired : DesiredStateRecord)
    (current : option InstanceStateRecord) : M (option ReconcileOutcome) :=
  let* checked := first_unavailable_dependency module_id in
  match checked with
  | Err error => close_and_fail module_id error
  | Ok None => Ret (Ok None)
  | Ok (Some dependency) =>
      let* snapshot := call Snapshot in
      let*? _ :=
        if admits snapshot module_id then publish_ module_id false false
        else Ret (Ok tt) in
      match current with
      | Some current =>
          if current.(i_transition_revision) =? desired.(d_revision) then
            let*? outcome := fail_dependency_loss current in
            Ret (Ok (Some outcome))
          else Ret (Err (DependencyUnavailable module_id dependency))
      | None => Ret (Err (DependencyUnavailable module_id dependency))
      end
  end.

(** The dependents check of a disabled module. *)
Definition dependent_gate (module_id : ModuleId) : M (option ReconcileOutcome) :=
  let* checked := first_enabled_dependent module_id in
  match checked with
  | Err error => close_and_fail module_id error
  | Ok None => Ret (Ok None)
  | Ok (Some dependent) => Ret (Err (ActiveDependent module_id dependent))
  end.

Definition reconcile_once_serialized (fuel : nat) (module_id : ModuleId) : M ReconcileOutcome :=
  let* read := call (ReadDesired module_id) in
  match read with
  | Ok None => close_and_fail module_id (MissingDesiredState module_id)
  | Err error => close_and_fail module_id (Repository error)
  | Ok (Some desired) =>
      let enabled := effective_enabled self.(catalog) module_id (is_enabled desired.(d_mode)) in
      let* read := call (ReadInstance self.(instance_id) module_id) in
      match read with
      | Err error => close_and_fail module_id (Repository error)
      | Ok current =>
          let*? early :=
            if enabled then dependency_gate module_id desired current
            else dependent_gate module_id in
          match early with
          | Some outcome => Ret (Ok outcome)
          | None =>
              let* snapshot := call Snapshot in
              if Bool.eqb (admits snapshot module_id) enabled
                 && negb (is_draining snapshot module_id)
                 && instance_settled enabled desired current
              then Ret (Ok NoChange)
              else if enabled then enable fuel module_id desired.(d_revision) current
              else disable fuel module_id desired.(d_revision) current
          end
      end
  end.

(** The module's transition lock is held for the whole call. *)
Definition reconcile_once (fuel : nat) (module_id : ModuleId) : M ReconcileOutcome :=
  let* _ := call (LockTransition module_id) in
  let* r := reconcile_once_serialized fuel module_id in
  let* _ := call (UnlockTransition module_id) in
  Ret r.

Fixpoint reconcile_each (fuel : nat) (states : gmap ModuleId ModuleReconcileState)
    (modules : list ModuleId)
    : prog (regE ε) (list (ModuleId * result ReconcileOutcome (RegistryError ε))) :=
  match modules with
  | [] => Ret []
  | module_id :: rest =>
      let* settled := is_settled module_id states in
      let* outcome :=
        if settled then Ret (Ok NoChange) else reconcile_once fuel module_id in
      let* outcomes := reconcile_each fuel states rest in
      Ret ((module_id, outcome) :: outcomes)
  end.

Definition reconcile_all (fuel : nat)
    : M (list (ModuleId * result ReconcileOutcome (RegistryError ε))) :=
  let*? states := repository (ReadReconcileState self.(instance_id)) in
  let* outcomes := reconcile_each fuel (reconcile_states states) ModuleId_ALL in
  Ret (Ok outcomes).

Fixpoint unsettled (states : gmap ModuleId ModuleReconcileState) (modules : list ModuleId)
    : prog (regE ε) (list ModuleId) :=
  match modules with
  | [] => Ret []
  | module_id :: rest =>
      let* settled := is_settled module_id states in
      let* ids := unsettled states rest in
      Ret (if settled then ids else module_id :: ids)
  end.

Definition plan_reconciliation : M (list ModuleId) :=
  let*? states := repository (ReadReconcileState self.(instance_id)) in
  let* ids := unsettled (reconcile_states states) ModuleId_ALL in
  Ret (Ok ids).

End registry.
Arguments M : clear implicits.
