(* ===== verification/RuntimeRegistryFacts.v ===== *)
(** * The registry fails closed

    The environment of the registry's programs is adversarial: [reg_step] lets
    the repository, the lifecycle port and the clock reply anything at any
    time, so the theorems hold for every failure, every lost write and every
    change another process instance or an administrator makes.  The snapshot
    store is the real one; other tasks may publish other modules between any
    two effects ([reg_rely]), the module's transition lock keeping them off
    the module itself. *)
From stdpp Require Import base list strings gmap.
From S2P Require Import Prelude Effects RuntimeModel RuntimeLeases RuntimeRegistry.

Local Open Scope rust_scope.


Inductive logged (ε : Type) : Type :=
| Logged {X : Type} (e : regE ε X) (x : X).
Arguments Logged {ε X} e x.

(** The snapshot store and the effects the program has performed, newest first. *)
Record reg_world (ε : Type) := {
  w_store : SnapshotStore;
  w_log : list (logged ε);
}.
Arguments w_store {ε} _.
Arguments w_log {ε} _.
Arguments Build_reg_world {ε} _ _.

Section world.
Context {ε : Type} (self : Registry).

Definition log_reply {X} (e : regE ε X) (x : X) (w : reg_world ε) (st : SnapshotStore)
    : reg_world ε :=
  {| w_store := st; w_log := Logged e x :: w.(w_log) |}.

Definition reg_step (X : Type) (e : regE ε X) (w : reg_world ε) : X → reg_world ε → Prop :=
  match e in regE _ X return X → reg_world ε → Prop with
  | Snapshot => fun x w' =>
      x = load_full w.(w_store) ∧ w' = log_reply Snapshot x w w.(w_store)
  | Publish m a d => fun x w' => ∃ st,
      publish_atomic self.(catalog) m a d w.(w_store) = (x, st) ∧
      w' = log_reply (Publish m a d) x w st
  | WaitUntilIdle m => fun x w' =>
      has_active w.(w_store).(leases) m = false ∧
      w' = log_reply (WaitUntilIdle m) x w w.(w_store)
  | Diverge => fun _ _ => False
  | e => fun x w' => w' = log_reply e x w w.(w_store)
  end.

Definition acc (w : reg_world ε) (m : ModuleId) : Prop := m ∈ w.(w_store).(current).(accepting).
Definition dr (w : reg_world ε) (m : ModuleId) : Prop := m ∈ w.(w_store).(current).(draining).

(** Other tasks leave the module's membership alone; the snapshot revision grows. *)
Definition reg_rely (m : ModuleId) (w w' : reg_world ε) : Prop :=
  w.(w_log) = w'.(w_log) ∧ (acc w m ↔ acc w' m) ∧ (dr w m ↔ dr w' m) ∧
  w.(w_store).(current).(revision) ≤ w'.(w_store).(current).(revision).

(** There is no next 64-bit snapshot revision. *)
Definition full (w : reg_world ε) : Prop := U64_MAX ≤ w.(w_store).(current).(revision).

(** The error is, or carries, the exhaustion of the 64-bit snapshot revision. *)
Fixpoint exhausted (e : RegistryError ε) : bool :=
  match e with
  | SnapshotRevisionExhausted => true
  | Compensation operation compensation => exhausted operation || exhausted compensation
  | _ => false
  end.

(** Every dependency was seen enabled and admitted. *)
Definition deps_ready (m : ModuleId) (log : list (logged ε)) : Prop :=
  btree_iter (spec self.(catalog) m).(dependencies) = [] ∨
  ∃ sn desired, Logged Snapshot sn ∈ log ∧ Logged ReadAllDesired (Ok desired) ∈ log ∧
    unavailable_dependency (ε := ε) self sn desired
      (btree_iter (spec self.(catalog) m).(dependencies)) = Ok None.

(** The last two effects publish the module as accepting and confirm that the
    desired revision read before is still the durable one; that revision asks
    for the module, its service is constructed and its dependencies are ready. *)
Definition aligned (m : ModuleId) (log : list (logged ε)) : Prop :=
  ∃ d before,
    log = Logged (ValidateRevision m d.(d_revision)) (Ok true)
          :: Logged (Publish m true false) (Ok tt) :: before ∧
    Logged (ReadDesired m) (Ok (Some d)) ∈ before ∧
    d.(d_mode) = DesiredMode_Enabled ∧ is_available self.(catalog) m = true ∧
    deps_ready m before.

(** Nothing to do: admission agrees with the desired state that was read, the
    instance has applied it, and the dependencies of an admitted module were
    ready. *)
Definition agrees (m : ModuleId) (w : reg_world ε) : Prop :=
  ∃ d instance, Logged (ReadDesired m) (Ok (Some d)) ∈ w.(w_log) ∧
    Logged (ReadInstance self.(instance_id) m) (Ok (Some instance)) ∈ w.(w_log) ∧
    instance.(i_applied_revision) = Some d.(d_revision) ∧ ¬ dr w m ∧
    (acc w m ↔ effective_enabled self.(catalog) m (is_enabled d.(d_mode)) = true) ∧
    (acc w m → instance.(i_state) = ModuleState_Enabled ∧ deps_ready m w.(w_log)).

(** A dependent of the module, which is not asked for, was seen enabled, admitted
    or draining. *)
Definition needed (m dependent : ModuleId) (log : list (logged ε)) : Prop :=
  ∃ d sn desired record,
    Logged (ReadDesired m) (Ok (Some d)) ∈ log ∧
    effective_enabled self.(catalog) m (is_enabled d.(d_mode)) = false ∧
    Logged Snapshot sn ∈ log ∧ Logged ReadAllDesired (Ok desired) ∈ log ∧
    dependent ∈ spec_id <$> dependents_of self.(catalog) m ∧
    find_desired desired dependent = Some record ∧
    (effective_enabled self.(catalog) dependent (is_enabled record.(d_mode)) = true ∨
     dependent ∈ sn.(accepting) ∨ dependent ∈ sn.(draining)).

(** The error with which a pass ends closed, or cannot publish at all. *)
Definition closed (m : ModuleId) (e : RegistryError ε) (w : reg_world ε) : Prop :=
  (exhausted e = true ∧ full w) ∨ ¬ acc w m.

Definition reconcile_post (m : ModuleId) (w0 : reg_world ε)
    (r : result ReconcileOutcome (RegistryError ε)) (w : reg_world ε) : Prop :=
  (∃ dependent, r = Err (ActiveDependent m dependent) ∧ needed m dependent w.(w_log) ∧
     (acc w m ↔ acc w0 m) ∧ (dr w m ↔ dr w0 m))
  ∨ (r = Ok NoChange ∧ agrees m w ∧ (acc w m ↔ acc w0 m))
  ∨ (∃ e, r = Err e ∧ exhausted e = true ∧ full w)
  ∨ ¬ acc w m
  ∨ aligned m w.(w_log).

(** The log has grown by effects that leave the module's membership alone. *)
Definition quiet (m : ModuleId) (w w' : reg_world ε) : Prop :=
  (∃ l, w'.(w_log) = l ++ w.(w_log)) ∧ (acc w' m ↔ acc w m) ∧ (dr w' m ↔ dr w m).

(** What the dependency gate leaves: quiet when it lets the module pass, closed
    otherwise. *)
Definition gate_post (m : ModuleId) (w : reg_world ε)
    (r : result (option ReconcileOutcome) (RegistryError ε)) (w' : reg_world ε) : Prop :=
  match r with
  | Ok None => quiet m w w' ∧ deps_ready m w'.(w_log)
  | Ok (Some _) => ¬ acc w' m
  | Err e => closed m e w'
  end.

(** A quiet success, or closed. *)
Definition quiet_or_closed {A} (m : ModuleId) (w : reg_world ε)
    (r : result A (RegistryError ε)) (w' : reg_world ε) : Prop :=
  match r with
  | Ok _ => quiet m w w'
  | Err e => closed m e w'
  end.
End world.

(** ** An example: the repository cannot be reached *)

Definition example_registry : Registry :=
  {| catalog := fixed (Build_CatalogDurations 1 1 1 1 1 1 1); instance_id := "a"%string |}.

Definition example_world : reg_world unit :=
  {| w_store := SnapshotStore_new example_open; w_log := [] |}.

Definition unreachable_repository (self : Registry) (X : Type) (e : regE unit X)
    (w : reg_world unit) : option (X * reg_world unit) :=
  match e in regE _ X return option (X * reg_world unit) with
  | ReadDesired m => Some (Err tt, log_reply (ReadDesired m) (Err tt) w w.(w_store))
  | Publish m a d =>
      let '(x, st) := publish_atomic self.(catalog) m a d w.(w_store) in
      Some (x, log_reply (Publish m a d) x w st)
  | _ => None
  end.

(** ** Facts *)

Ltac wp_call :=
  let w := fresh "w" in let Hr := fresh "Hr" in let x := fresh "x" in
  let w' := fresh "w'" in let Hs := fresh "Hs" in
  apply wp_call; intros w x w' Hr Hs; split; [exact I|]; cbn [reg_step] in Hs.
Ltac wp_bind := apply wp_bind; [apply _|].
Ltac wp_ret := apply wp_ret.

Section facts.
Context {ε : Type} (self : Registry).
Notation wp_ m := (wp (reg_step (ε := ε) self) (reg_rely m) no_guar).

#[export] Instance reg_rely_preorder m : PreOrder (reg_rely (ε := ε) m).
Proof.
  split; [by repeat split|]. intros w1 w2 w3 (? & ? & ? & ?) (? & ? & ? & ?).
  repeat split; [by etrans|naive_solver..|lia].
Qed.

Lemma wp_true {A} m (p : prog (regE ε) A) w : wp_ m p (fun _ _ => True) w.
Proof. revert w. induction p; simpl; [done|]. intros w w' _ x w'' _. split; [exact I|auto]. Qed.

Lemma set_membership_in s m b : m ∈ set_membership s m b ↔ b = true.
Proof. unfold set_membership. destruct b; set_solver. Qed.

Lemma publish_atomic_cases cat m a d s r s' :
  publish_atomic cat m a d s = (r, s') →
  match r with
  | Ok _ => (m ∈ s'.(current).(accepting) ↔ effective_enabled cat m a = true) ∧
            (m ∈ s'.(current).(draining) ↔ (d && is_available cat m)%bool = true)
  | Err _ => s' = s ∧ U64_MAX ≤ s.(current).(revision)
  end.
Proof.
  unfold publish_atomic. destruct (next_snapshot _ _ _ _) as [next|e] eqn:Hn; intros [= <- <-].
  2: { split; [done|]. unfold next_snapshot, u64_checked_add in Hn.
    destruct (_ <=? _) eqn:Hu; [done|]. apply Z.leb_gt in Hu. lia. }
  apply next_snapshot_Ok in Hn as [-> _]; simpl. by rewrite !set_membership_in.
Qed.

Lemma wp_publish m a d w :
  wp_ m (publish_ m a d) (fun r w' =>
    match r with
    | Ok _ => (acc w' m ↔ effective_enabled self.(catalog) m a = true) ∧
              (dr w' m ↔ (d && is_available self.(catalog) m)%bool = true) ∧
              w'.(w_log) = Logged (Publish m a d) (Ok tt) :: w.(w_log)
    | Err e => e = SnapshotRevisionExhausted ∧ full w'
    end) w.
Proof.
  unfold publish_. wp_call. destruct Hs as (st & Hp & ->). apply publish_atomic_cases in Hp.
  wp_ret. intros w2 (Hl & Ha & Hd & Hrev). destruct x as [[]|[]]; simpl.
  2: { destruct Hp as [-> ?]. split; [done|]. unfold full. simpl in Hrev. lia. }
  destruct Hr as (Hl0 & _), Hp as [? ?]. rewrite <- Ha, <- Hd, <- Hl. simpl. by rewrite Hl0.
Qed.

Lemma wp_close_and_fail {A} m error w :
  wp_ m (close_and_fail (A := A) m error) (fun r w' =>
    match r with
    | Ok _ => False
    | Err e => closed m e w'
    end) w.
Proof.
  unfold close_and_fail. wp_bind. eapply wp_mono; [apply wp_publish|].
  intros [[]|e] w' H; wp_ret; intros w2 (_ & Ha2 & _ & Hrev).
  - destruct H as (Ha & _). right. by rewrite <- Ha2, Ha.
  - destruct H as [-> Hf]. left. split; [done|]. unfold full in *. lia.
Qed.

Lemma wp_close {A} m error (Q : result A (RegistryError ε) → reg_world ε → Prop) w :
  (∀ e w', closed m e w' → Q (Err e) w') →
  wp_ m (close_and_fail m error) Q w.
Proof.
  intros HQ. eapply wp_mono; [apply wp_close_and_fail|]. intros [a|e] w'; simpl; [done|]. apply HQ.
Qed.

Lemma closed_rely m e w w' : reg_rely (ε := ε) m w w' → closed m e w → closed m e w'.
Proof.
  intros (_ & Ha & _ & Hrev) [[? Hf]|?]; [left|right; by rewrite <- Ha].
  split; [done|]. unfold full in *. lia.
Qed.

Lemma quiet_refl m w : quiet (ε := ε) m w w.
Proof. split; [by exists []|done]. Qed.

Lemma quiet_trans m w1 w2 w3 : quiet (ε := ε) m w1 w2 → quiet m w2 w3 → quiet m w1 w3.
Proof.
  intros ([l1 H1] & ? & ?) ([l2 H2] & ? & ?). split; [|naive_solver].
  exists (l2 ++ l1). by rewrite H2, H1, app_assoc.
Qed.

Lemma quiet_rely m w w' : reg_rely (ε := ε) m w w' → quiet m w w'.
Proof. intros (Hl & ? & ? & _). split; [by exists []|naive_solver]. Qed.

Lemma quiet_log {X} m (e : regE ε X) x w : quiet m w (log_reply e x w w.(w_store)).
Proof. split; [by exists [Logged e x]|done]. Qed.

Lemma quiet_logged m (w w' : reg_world ε) ev : quiet m w w' → ev ∈ w.(w_log) → ev ∈ w'.(w_log).
Proof. intros ([l ->] & _) ?. set_solver. Qed.

(** Follow the worlds backwards through the hypotheses. *)
Ltac quiet :=
  match goal with
  | |- quiet _ ?w ?w => apply quiet_refl
  | |- quiet_or_closed _ _ (Ok _) _ => unfold quiet_or_closed; quiet
  | |- quiet _ _ (log_reply _ _ _ _) => eapply quiet_trans; [|apply quiet_log]; quiet
  | H : reg_rely _ _ ?w |- quiet _ _ ?w =>
      eapply quiet_trans; [|apply (quiet_rely _ _ _ H)]; quiet
  | H : quiet _ _ ?w |- quiet _ _ ?w => eapply quiet_trans; [|exact H]; quiet
  end.

(** Find a logged effect, looking backwards from the newest world. *)
Ltac logged :=
  match goal with
  | H : ?ev ∈ w_log ?w |- ?ev ∈ w_log ?w => exact H
  | |- _ ∈ w_log (log_reply _ _ _ _) =>
      first [apply list_elem_of_here | apply list_elem_of_further; logged]
  | H : reg_rely _ _ ?w |- _ ∈ w_log ?w => rewrite <- (proj1 H); logged
  | H : quiet _ _ ?w |- _ ∈ w_log ?w => apply (quiet_logged _ _ _ _ H); logged
  end.

Lemma wp_first_unavailable m w :
  wp_ m (first_unavailable_dependency self m) (fun r w' =>
    quiet m w w' ∧ (r = Ok None → deps_ready self m w'.(w_log))) w.
Proof.
  unfold first_unavailable_dependency. case_decide as Hd.
  { wp_ret. intros w' Hr. split; [quiet|]. intros _. by left. }
  wp_call. destruct Hs as [-> ->]. wp_bind. unfold repository. wp_call. subst.
  wp_ret. intros w3 Hr3. destruct x as [desired|]; wp_ret; intros w4 Hr4.
  - split; [quiet|]. intros Hn. right.
    exists (load_full w0.(w_store)), desired. split_and!; [logged|logged|done].
  - split; [quiet|done].
Qed.

Lemma wp_runtime_ready m (cond d : bool) w :
  wp_ m (if cond then
           let* read := call (ReadInstance self.(instance_id) m) in
           match read with
           | Ok state => Ret (Ok (is_some_and state restorable))
           | Err error => close_and_fail m (Repository error)
           end
         else Ret (Ok d)) (quiet_or_closed m w) w.
Proof.
  destruct cond; [|wp_ret; intros w' Hr; quiet].
  wp_call. subst. destruct x as [state|e]; [|by apply wp_close].
  wp_ret. intros w2 Hr2. quiet.
Qed.

Lemma wp_dependencies_ready m (cond : bool) w :
  wp_ m (if cond then
           let* checked := first_unavailable_dependency self m in
           match checked with
           | Ok dependency => Ret (Ok (is_none dependency))
           | Err error => close_and_fail m error
           end
         else Ret (Ok false))
    (fun r w' => quiet_or_closed m w r w' ∧ (r = Ok true → deps_ready self m w'.(w_log))) w.
Proof.
  destruct cond; [|wp_ret; intros w' Hr; split; [quiet|done]].
  wp_bind. eapply wp_mono; [apply wp_first_unavailable|].
  intros r w1 [Hq Hd]. destruct r as [dep|e]; [|by apply wp_close].
  wp_ret. intros w2 Hr. split; [quiet|]. intros [= Hn]. destruct dep; [done|].
  destruct Hr as [<- _]. auto.
Qed.

Lemma wp_align_once m can_restore completed w :
  wp_ m (align_once self m can_restore completed) (fun r w' =>
    match r with
    | Ok true => ¬ acc w' m ∨ aligned self m w'.(w_log)
    | Ok false => True
    | Err e => closed m e w'
    end) w.
Proof.
  unfold align_once. wp_call. subst.
  destruct x as [[d|]|e]; [|by apply wp_close..].
  set (enabled := effective_enabled _ _ _).
  wp_bind. eapply wp_mono; [apply wp_runtime_ready|].
  intros [ready|e] w2 H2; [|by wp_ret; intros w3 ?; eapply closed_rely].
  wp_bind. eapply wp_mono; [apply wp_dependencies_ready|].
  intros [deps|e] w3 [H3 Hdeps]; [|by wp_ret; intros w4 ?; eapply closed_rely].
  wp_bind. eapply wp_mono; [apply wp_publish|].
  intros [[]|e] w4; [|by intros [-> ?]; wp_ret; intros w5 ?; eapply closed_rely; [done|left]].
  intros (Ha4 & _ & Hl4).
  wp_bind. unfold revision_is_current, repository. wp_call. subst.
  wp_ret. intros w6 Hr6. destruct x as [[]|e]; [|by wp_ret|by apply wp_close].
  wp_ret. intros w5 Hr5.
  assert (Ha : acc w5 m ↔ acc w4 m).
  { destruct Hr0 as (_ & ? & _), Hr6 as (_ & ? & _), Hr5 as (_ & ? & _).
    unfold acc in *. simpl in *. naive_solver. }
  rewrite Ha, Ha4, <- (proj1 Hr5), <- (proj1 Hr6). simpl. rewrite <- (proj1 Hr0), Hl4.
  destruct (effective_enabled _ _ (_ && _)) eqn:Heff; [right|by left].
  unfold effective_enabled in Heff. boolify. subst ready deps.
  destruct enabled eqn:Hen; [|done]. unfold enabled, effective_enabled in Hen. boolify.
  exists d, w3.(w_log). split_and!; [done| |by destruct (d_mode d)|done|by auto].
  unfold quiet_or_closed in H2, H3. logged.
Qed.

Lemma wp_align m fuel can_restore completed w :
  wp_ m (align_admission_with_current_intent self fuel m can_restore completed) (fun r w' =>
    match r with
    | Ok _ => ¬ acc w' m ∨ aligned self m w'.(w_log)
    | Err e => closed m e w'
    end) w.
Proof.
  revert w. induction fuel as [|fuel IH]; intros w; [by intros w' _ []|].
  cbn [align_admission_with_current_intent].
  wp_bind. eapply wp_mono; [apply wp_align_once|].
  intros [[]|e] w1 H1; [|by apply IH|].
  - wp_ret. intros w2 (Hl & Ha & _). by rewrite <- Ha, <- Hl.
  - wp_ret. intros w2 Hr. by eapply closed_rely.
Qed.

Lemma wp_finish m fuel can_restore r0 w0 w :
  wp_ m (finish_admission self fuel m can_restore r0) (reconcile_post self m w0) w.
Proof.
  unfold finish_admission. wp_bind. eapply wp_mono; [apply wp_align|].
  intros r w1 H1. wp_ret. intros w2 Hr. unfold reconcile_post. destruct r as [[]|e].
  { destruct Hr as (Hl & Ha & _). rewrite Ha, Hl in H1. tauto. }
  eapply closed_rely in H1; [|done]. destruct H1 as [[He Hf]|He]; [|tauto]. right; right; left.
  destruct r0 as [o|op]; [by eauto|].
  destruct (is_exhausted op && is_exhausted e) eqn:Hb; eexists; (split; [done|]); (split; [|done]).
  - boolify. by destruct op.
  - simpl. rewrite He. apply orb_true_r.
Qed.

Lemma wp_enable m fuel rev cur w0 w :
  wp_ m (enable self fuel m rev cur) (reconcile_post self m w0) w.
Proof.
  unfold enable. wp_bind. eapply wp_mono; [apply wp_true|]. intros rc w1 _. apply wp_finish.
Qed.

Lemma wp_disable m fuel rev cur w0 w :
  wp_ m (disable self fuel m rev cur) (reconcile_post self m w0) w.
Proof.
  unfold disable. wp_bind. eapply wp_mono; [apply wp_true|]. intros rc w1 _. apply wp_finish.
Qed.

Lemma wp_first_enabled m w :
  wp_ m (first_enabled_dependent self m) (fun r w' => quiet m w w' ∧
    ∀ dependent, r = Ok (Some dependent) → ∃ sn desired, Logged Snapshot sn ∈ w'.(w_log) ∧
      Logged ReadAllDesired (Ok desired) ∈ w'.(w_log) ∧
      enabled_dependent (ε := ε) self sn desired (spec_id <$> dependents_of self.(catalog) m)
        = Ok (Some dependent)) w.
Proof.
  unfold first_enabled_dependent. case_decide as Hd.
  { wp_ret. intros w' Hr. split; [quiet|done]. }
  wp_call. destruct Hs as [-> ->]. wp_bind. unfold repository. wp_call. subst.
  wp_ret. intros w3 Hr3. destruct x as [desired|]; wp_ret; intros w4 Hr4; (split; [quiet|]); [|done].
  intros dependent Hdep. exists (load_full w0.(w_store)), desired. split_and!; [logged|logged|done].
Qed.

Lemma enabled_dependent_needs sn desired dependents dependent :
  enabled_dependent (ε := ε) self sn desired dependents = Ok (Some dependent) →
  dependent ∈ dependents ∧ ∃ record, find_desired desired dependent = Some record ∧
    (effective_enabled self.(catalog) dependent (is_enabled record.(d_mode)) = true ∨
     dependent ∈ sn.(accepting) ∨ dependent ∈ sn.(draining)).
Proof.
  induction dependents as [|x rest IH]; simpl; [done|].
  destruct (find_desired desired x) as [record|] eqn:Hf; [|done]. simpl.
  destruct (_ || _ || _) eqn:Hb.
  - intros [= <-]. split; [by left|]. exists record. split; [done|].
    unfold admits, is_draining in Hb. rewrite !orb_true_iff, !bool_decide_eq_true in Hb. tauto.
  - intros [? ?]%IH. split; [by right|done].
Qed.

Lemma wp_persist_state m id rev expected st applied ev before deadline oc w :
  wp_ m (persist_state self id rev expected st applied ev before deadline oc)
    (fun _ w' => quiet m w w') w.
Proof.
  unfold persist_state. wp_call. subst. wp_bind. unfold event. wp_call. subst.
  wp_ret. intros w4 Hr4. unfold repository. wp_call. subst. wp_ret. intros w6 Hr6. quiet.
Qed.

Lemma publish_atomic_false cat m' m d s r s' :
  publish_atomic cat m' false d s = (r, s') →
  m ∈ s'.(current).(accepting) → m ∈ s.(current).(accepting).
Proof.
  unfold publish_atomic. destruct (next_snapshot _ _ _ _) as [next|e] eqn:Hn; intros [= <- <-]; [|done].
  apply next_snapshot_Ok in Hn as [-> _]; simpl. unfold set_membership. set_solver.
Qed.

(** Closing a module never admits another. *)
Lemma wp_fail_dependency_loss m cur w :
  ¬ acc w m →
  wp_ m (fail_dependency_loss self cur) (fun _ w' => ¬ acc w' m) w.
Proof.
  intros Hn. unfold fail_dependency_loss. wp_bind. unfold publish_. wp_call.
  destruct Hs as (st & Hp & ->). wp_ret. intros w2 (_ & Ha2 & _).
  assert (Hn2 : ¬ acc w2 m).
  { rewrite <- Ha2. intros Hin. apply (publish_atomic_false _ _ m _ _ _ _ Hp) in Hin.
    by apply Hn, (proj1 (proj2 Hr)). }
  destruct x as [[]|[]]; [|by wp_ret; intros w3 (_ & Ha3 & _); rewrite <- Ha3].
  wp_bind. unfold persist_failure. wp_bind. eapply wp_mono; [apply wp_persist_state|].
  intros [o|e] w3 (_ & Ha3 & _); wp_ret; intros w4 (_ & Ha4 & _); wp_ret;
    intros w5 (_ & Ha5 & _); rewrite <- Ha5, <- Ha4, Ha3; done.
Qed.

Lemma deps_ready_rely m w w' : reg_rely (ε := ε) m w w' → deps_ready self m w.(w_log) → deps_ready self m w'.(w_log).
Proof. by intros [<- _]. Qed.

Lemma wp_dependency_gate m d cur w :
  wp_ m (dependency_gate self m d cur) (gate_post self m w) w.
Proof.
  unfold dependency_gate. wp_bind. eapply wp_mono; [apply wp_first_unavailable|].
  intros [[dep|]|e] w1 [Hq Hd]; [| |by apply wp_close].
  2: { wp_ret; intros w2 Hr2; simpl. split; [quiet|]. eapply deps_ready_rely; [done|]. by apply Hd. }
  wp_call. destruct Hs as [-> ->]. wp_bind.
  eapply (wp_mono _ _ _ (fun r w' => match r with
    | Ok _ => ¬ acc w' m | Err e => closed m e w' end)).
  - destruct (admits _ m) eqn:Hadm.
    + eapply wp_mono; [apply wp_publish|]. intros [[]|e] w3; [|by intros [-> ?]; left].
      intros [Ha _]. rewrite Ha. done.
    + wp_ret. intros w3 (_ & Ha3 & _). rewrite <- Ha3. unfold admits in Hadm. boolify. done.
  - intros [[]|e] w3 H3; [|by wp_ret; intros ? ?; eapply closed_rely].
    assert (Hrest : ∀ x, wp_ m (Ret (Err x)) (gate_post self m w) w3).
    { intros x. wp_ret. intros w4 (_ & Ha4 & _). right. by rewrite <- Ha4. }
    destruct cur as [cur|]; [|apply Hrest]. destruct (_ =? _); [|apply Hrest].
    wp_bind. eapply wp_mono; [by apply wp_fail_dependency_loss|].
    intros [o|e] w4 H4; wp_ret; intros w5 (_ & Ha5 & _); [|right]; simpl; by rewrite <- Ha5.
Qed.

Lemma wp_dependent_gate m d w :
  Logged (ReadDesired m) (Ok (Some d)) ∈ w.(w_log) →
  effective_enabled self.(catalog) m (is_enabled d.(d_mode)) = false →
  wp_ m (dependent_gate self m) (fun r w' =>
    match r with
    | Ok None => quiet m w w'
    | Ok (Some _) => False
    | Err e => closed m e w' ∨
               (∃ dep, e = ActiveDependent m dep ∧ needed self m dep w'.(w_log) ∧ quiet m w w')
    end) w.
Proof.
  intros Hlog Hoff. unfold dependent_gate. wp_bind. eapply wp_mono; [apply wp_first_enabled|].
  intros [[dep|]|e] w1 [Hq Hdep]; [| |by apply wp_close; naive_solver]; wp_ret; intros w2 Hr2; [|quiet].
  right. exists dep. split; [done|]. split; [|quiet].
  destruct (Hdep _ eq_refl) as (sn & desired & Hsn & Hdes & He).
  apply enabled_dependent_needs in He as (? & record & ? & ?).
  exists d, sn, desired, record. split_and!; try done; logged.
Qed.

(** A pass that finds nothing to do. *)
Lemma settled_agrees m d cur sn enabled w :
  enabled = effective_enabled self.(catalog) m (is_enabled d.(d_mode)) →
  Logged (ReadDesired m) (Ok (Some d)) ∈ w.(w_log) →
  Logged (ReadInstance self.(instance_id) m) (Ok cur) ∈ w.(w_log) →
  (enabled = true → deps_ready self m w.(w_log)) → sn = load_full w.(w_store) →
  Bool.eqb (admits sn m) enabled && negb (is_draining sn m) && instance_settled enabled d cur = true →
  agrees (ε := ε) self m w.
Proof.
  intros -> Hd Hi Hdeps -> Hset. unfold instance_settled in Hset.
  destruct cur as [instance|]; [|simpl in Hset; by rewrite andb_false_r in Hset].
  simpl in Hset. unfold admits, is_draining, load_full in Hset. boolify. rewrite eqb_true_iff in *.
  exists d, instance. split_and!; try done.
  - match goal with H : bool_decide (m ∈ _) = _ |- _ => rewrite <- H end.
    by rewrite bool_decide_eq_true.
  - unfold acc. intros Hacc.
    match goal with H : bool_decide (m ∈ _) = _ |- _ =>
      rewrite bool_decide_true in H by done; rewrite <- H in * end.
    split; [|by apply Hdeps].
    match goal with H : _ || _ = true |- _ => simpl in H; rewrite orb_false_r in H end. by boolify.
Qed.

Lemma reconcile_post_rely m w0 r w w' :
  reg_rely m w w' → reconcile_post self m w0 r w → reconcile_post (ε := ε) self m w0 r w'.
Proof.
  unfold reconcile_post, agrees, full. intros (Hl & Ha & Hd & Hrev) Hp.
  rewrite <- Hl. setoid_rewrite <- Ha. setoid_rewrite <- Hd.
  destruct Hp as [?|[?|[(e & -> & He & Hf)|?]]]; [tauto..| |tauto].
  right; right; left. exists e. split_and!; [done..|lia].
Qed.

Lemma wp_reconcile m fuel w :
  wp_ m (reconcile_once_serialized self fuel m) (reconcile_post self m w) w.
Proof.
  unfold reconcile_once_serialized. wp_call. subst.
  assert (Hclosed : ∀ e w', closed m e w' → reconcile_post self m w (Err e) w').
  { unfold reconcile_post. intros e w' [[? ?]|He]; [right; right; left; by eauto|tauto]. }
  destruct x as [[d|]|e]; [|by apply wp_close..].
  remember (effective_enabled _ _ _) as enabled eqn:Hen. wp_call. subst w'.
  destruct x as [cur|e]; [|by apply wp_close].
  set (w2 := log_reply (ReadInstance _ _) _ _ _).
  assert (Hd2 : Logged (ReadDesired m) (Ok (Some d)) ∈ w2.(w_log)) by (subst w2; logged).
  assert (Hq2 : quiet m w w2) by (subst w2; quiet).
  assert (Hi2 : Logged (ReadInstance self.(instance_id) m) (Ok cur) ∈ w2.(w_log)) by (subst w2; logged).
  clearbody w2. wp_bind.
  eapply (wp_mono _ _ _ (fun r w' => match r with
    | Ok None => quiet m w2 w' ∧ (enabled = true → deps_ready self m w'.(w_log))
    | Ok (Some o) => reconcile_post self m w (Ok o) w'
    | Err e => reconcile_post self m w (Err e) w' end)).
  { destruct enabled.
    - eapply wp_mono; [apply wp_dependency_gate|].
      intros [[o|]|e] w3 H3; [by right; right; right; left|by destruct H3|by apply Hclosed].
    - eapply wp_mono; [by apply (wp_dependent_gate m d)|].
      intros [[o|]|e] w3 H3; [done|done|]. destruct H3 as [?|(dep & -> & Hn & Hq)]; [by auto|].
      left. exists dep. split; [done|]. split; [done|].
      by destruct (quiet_trans _ _ _ _ Hq2 Hq) as (_ & ? & ?). }
  intros [[o|]|e] w3 H3; [by wp_ret; intros; eapply reconcile_post_rely| |
    by wp_ret; intros; eapply reconcile_post_rely].
  destruct H3 as [Hq3 Hdeps]. wp_call. destruct Hs as [-> ->].
  destruct (Bool.eqb _ enabled && _ && _) eqn:Hset; [|destruct enabled; [apply wp_enable|apply wp_disable]].
  wp_ret. intros w5 Hr5. eapply reconcile_post_rely; [done|]. right; left. split; [done|]. split.
  - eapply (settled_agrees m d cur); [exact Hen|logged|logged| |reflexivity|exact Hset].
    intros He. destruct (Hdeps He) as [?|(sn & desired & ? & ? & ?)]; [by left|right].
    exists sn, desired. split_and!; [logged..|done].
  - assert (quiet m w (log_reply Snapshot (load_full w4.(w_store)) w4 w4.(w_store))) as (_ & ? & _) by quiet.
    done.
Qed.
End facts.

(** C12: a reconciliation pass fails closed.  Whatever the repository replies and
    whichever calls fail, when the pass returns the module is not admitted, unless
    one of four cases holds: (1) the last two effects published the module and
    confirmed that the desired revision read before is still the durable one, and
    that revision asks for the module, whose service is constructed and whose
    dependencies were seen ready; (2) the pass changed nothing, and the desired
    state it read, without confirming it again, asks for the module, the instance
    has applied that revision, and the dependencies were seen ready; (3) the module
    is not asked for, but one of its dependents was seen enabled, admitted or
    draining, and the pass, which fails with that dependent, left the module's
    admission as it was; (4) the pass fails because the snapshot store has reached
    the last 64-bit revision and can publish nothing. *)
Theorem reconcile_fails_closed {ε} (self : Registry) (m : ModuleId) fuel
    (w : reg_world ε) r (w' : reg_world ε) :
  sched (reg_step self) (reg_rely m) (reconcile_once_serialized self fuel m) w r w' →
  reconcile_post self m w r w'.
Proof. intros Hs. by apply (wp_sched _ _ _ _ _ _ _ (wp_reconcile self m fuel w) Hs). Qed.

Lemma reconcile_fails_closed_witness :
  ∃ w', w'.(w_store).(current).(accepting) = ∅ ∧
    reconcile_post example_registry Scim example_world (Err (Repository tt)) w'.
Proof.
  eexists. split; cycle 1.
  - apply (reconcile_fails_closed example_registry Scim 1%nat).
    apply (run_sched _ (unreachable_repository example_registry)).
    + intros X [] v x v' Hh; simpl in Hh; try (by simplify_eq);
        destruct (publish_atomic _ _ _ _ _) eqn:Hp; simplify_eq; eexists; by split.
    + vm_compute. reflexivity.
  - vm_compute. reflexivity.
Defined.
