(* ===== verification/RuntimeRepository.v ===== *)
(** * The repository port as an interface

    What [ModuleStateRepository] ([crates/runtime-capabilities/src/repository.rs])
    promises to the registry: a class of operations on a durable state, and the
    laws the registry's clients rely on.  [PostgresModules] implements it.

    Against this interface the file proves what concurrent administrators can
    do to the desired modes.  [repo_step] is the environment of any number of
    processes sharing one repository: every call may fail, before or after its
    transaction commits, and each process reads its own admission snapshot. *)
From stdpp Require Import base list strings gmap relations.
From S2P Require Import Prelude Effects RuntimeModel RuntimeLeases RuntimeRegistry.

Local Open Scope rust_scope.

(** The repository's operations.  [cas_desired] takes the fresh identifier the
    implementation draws for its event. *)
Class ModuleStateRepository (DB ε : Type) := {
  repo_read_desired : DB → ModuleId → result (option DesiredStateRecord) ε;
  repo_read_all_desired : DB → result (list DesiredStateRecord) ε;
  repo_read_reconcile_state : DB → string → result (list ModuleReconcileState) ε;
  repo_cas_desired : string → DesiredStateChange → list DesiredRevisionGuard → DB →
    result (CasOutcome DesiredStateRecord) ε * DB;
  repo_read_instance : DB → string → ModuleId → result (option InstanceStateRecord) ε;
  repo_page_events : DB → Z → Z → result ModuleEventPage ε;
  repo_cas_instance : InstanceStateMutation → DB →
    result (CasOutcome InstanceStateRecord) ε * DB;
  repo_record_observation : InstanceStateObservation → DB → result unit ε * DB;
  repo_validate_revision : DB → ModuleId → ModuleRevision → result bool ε;
}.

(** Records that ask for the same thing; a store may normalise the rest (the
    precision of a timestamp, the spelling of an actor id). *)
Definition same_intent (a b : DesiredStateRecord) : Prop :=
  a.(d_module_id) = b.(d_module_id) ∧ a.(d_mode) = b.(d_mode) ∧ a.(d_revision) = b.(d_revision).

Definition same_progress (a b : InstanceStateRecord) : Prop :=
  a.(i_instance_id) = b.(i_instance_id) ∧ a.(i_module_id) = b.(i_module_id) ∧
  a.(i_state) = b.(i_state) ∧ a.(i_transition_revision) = b.(i_transition_revision) ∧
  a.(i_applied_revision) = b.(i_applied_revision).

(** The compare-and-set precondition: the target and every guarded row are at
    the expected revisions. *)
Definition revisions_hold (ds : ModuleId → option DesiredStateRecord)
    (change : DesiredStateChange) (guards : list DesiredRevisionGuard)
    (cur : DesiredStateRecord) : Prop :=
  ds change.(c_next).(d_module_id) = Some cur ∧
  Some cur.(d_revision) = change.(c_expected_revision) ∧
  ∀ g, g ∈ guards → d_revision <$> ds g.(g_module_id) = g.(g_expected_revision).

Definition cas_desired_spec (ds : ModuleId → option DesiredStateRecord)
    (change : DesiredStateChange) (guards : list DesiredRevisionGuard) {ε}
    (x : result (CasOutcome DesiredStateRecord) ε)
    (ds' : ModuleId → option DesiredStateRecord) : Prop :=
  (* nothing is written *)
  ((∀ m, ds' m = ds m) ∧
   match x with
   | Ok (Applied r) => revisions_hold ds change guards r ∧ r.(d_mode) = change.(c_next).(d_mode)
   | Ok (Stale cur) => cur = ds change.(c_next).(d_module_id)
   | Err _ => True
   end) ∨
  (* the target row advances by one revision *)
  (x = Ok (Applied change.(c_next)) ∧
   ∃ cur stored, revisions_hold ds change guards cur ∧
     cur.(d_mode) ≠ change.(c_next).(d_mode) ∧
     change.(c_next).(d_revision) = cur.(d_revision) + 1 ∧
     same_intent stored change.(c_next) ∧
     ∀ m, ds' m = if decide (m = change.(c_next).(d_module_id)) then Some stored else ds m).

(** A transition may be recorded: its revision is the durable desired one, and
    the instance is where the caller saw it. *)
Definition transition_holds (ds : ModuleId → option DesiredStateRecord)
    (insts : string → ModuleId → option InstanceStateRecord) (change : InstanceStateChange) : Prop :=
  let next := change.(ic_next) in
  d_revision <$> ds next.(i_module_id) = Some next.(i_transition_revision) ∧
  i_transition_revision <$> insts next.(i_instance_id) next.(i_module_id)
    = change.(ic_expected_revision) ∧
  (∀ r, change.(ic_expected_revision) = Some r → r ≤ next.(i_transition_revision)).

Definition cas_instance_spec (ds : ModuleId → option DesiredStateRecord)
    (insts : string → ModuleId → option InstanceStateRecord) (change : InstanceStateChange) {ε}
    (x : result (CasOutcome InstanceStateRecord) ε)
    (insts' : string → ModuleId → option InstanceStateRecord) : Prop :=
  let next := change.(ic_next) in
  ((∀ i m, insts' i m = insts i m) ∧ ∀ r, x ≠ Ok (Applied r)) ∨
  (x = Ok (Applied next) ∧ transition_holds ds insts change ∧
   ∃ stored, same_progress stored next ∧
     ∀ i m, insts' i m = if decide (i = next.(i_instance_id) ∧ m = next.(i_module_id))
                      then Some stored else insts i m).

(** The events a mutation may carry, as every implementation checks them. *)
Definition mutation_wf (mutation : InstanceStateMutation) : Prop :=
  let next := mutation.(im_change).(ic_next) in
  let event := mutation.(im_event) in
  event.(ev_event_type) ∈ [TransitionStarted; TransitionCompleted; TransitionFailed;
                           DrainStarted; DrainCompleted] ∧
  event.(ev_module_id) = next.(i_module_id) ∧
  event.(ev_instance_id) = Some next.(i_instance_id) ∧
  event.(ev_revision) = next.(i_transition_revision) ∧
  event.(ev_after) = Some (EventActual next.(i_state)).

(** The applied revision is an unsigned number. *)
Definition applied_in_range (mutation : InstanceStateMutation) : Prop :=
  ∀ r, mutation.(im_change).(ic_next).(i_applied_revision) = Some r → 0 ≤ r.

(** The laws.  [repo_accepts] is the store's own admission of a write (its
    constraints), which the laws about failures leave open. *)
Class RepositoryLaws (DB ε : Type) `{!ModuleStateRepository DB ε} := {
  repo_inv : DB → Prop;
  repo_accepts : DB → InstanceStateMutation → Prop;
  desired_of : DB → ModuleId → option DesiredStateRecord;
  instance_of : DB → string → ModuleId → option InstanceStateRecord;
  law_desired_id db m d : repo_inv db → desired_of db m = Some d → d.(d_module_id) = m;
  law_read_desired db m : repo_inv db → repo_read_desired db m = Ok (desired_of db m);
  law_read_all db : repo_inv db →
    ∃ l, repo_read_all_desired db = Ok l ∧ ∀ m, find_desired l m = desired_of db m;
  law_read_instance db i m : repo_inv db → repo_read_instance db i m = Ok (instance_of db i m);
  law_validate db m r : repo_inv db →
    repo_validate_revision db m r = Ok (bool_decide (d_revision <$> desired_of db m = Some r));
  law_cas_desired db id change guards x db' : repo_inv db →
    repo_cas_desired id change guards db = (x, db') →
    repo_inv db' ∧ (∀ i m, instance_of db' i m = instance_of db i m) ∧
    cas_desired_spec (desired_of db) change guards x (desired_of db');
  law_cas_instance db mutation x db' : repo_inv db → applied_in_range mutation →
    repo_cas_instance mutation db = (x, db') →
    repo_inv db' ∧ (∀ m, desired_of db' m = desired_of db m) ∧
    cas_instance_spec (desired_of db) (instance_of db) mutation.(im_change) x (instance_of db');
  law_cas_instance_accepts db mutation : repo_inv db → mutation_wf mutation →
    repo_accepts db mutation →
    transition_holds (desired_of db) (instance_of db) mutation.(im_change) →
    (repo_cas_instance mutation db).1 = Ok (Applied mutation.(im_change).(ic_next));
  law_observation db observation x db' : repo_inv db →
    repo_record_observation observation db = (x, db') →
    repo_inv db' ∧ (∀ m, desired_of db' m = desired_of db m) ∧
    (∀ i m, instance_of db' i m = instance_of db i m);
}.

(** The shared repository as environment: a call gives its result, or fails
    before or after committing; every other port replies anything. *)
Definition fails_or {A DB ε : Type} (db : DB) (call : result A ε * DB)
    (x : result A ε) (db' : DB) : Prop :=
  (x = call.1 ∧ db' = call.2) ∨ ((∃ e, x = Err e) ∧ (db' = db ∨ db' = call.2)).

Definition repo_step {DB ε} `{!ModuleStateRepository DB ε} (X : Type) (e : regE ε X) (db : DB)
    : X → DB → Prop :=
  match e in regE _ X return X → DB → Prop with
  | ReadDesired m => fails_or db (repo_read_desired db m, db)
  | ReadAllDesired => fails_or db (repo_read_all_desired db, db)
  | ReadReconcileState i => fails_or db (repo_read_reconcile_state db i, db)
  | CompareAndSetDesiredGuarded change guards => fun x db' =>
      ∃ id, fails_or db (repo_cas_desired id change guards db) x db'
  | ReadInstance i m => fails_or db (repo_read_instance db i m, db)
  | PageEvents offset limit => fails_or db (repo_page_events db offset limit, db)
  | CompareAndSetInstance mutation => fails_or db (repo_cas_instance mutation db)
  | RecordInstanceObservation o => fails_or db (repo_record_observation o db)
  | ValidateRevision m r => fails_or db (repo_validate_revision db m r, db)
  | Diverge => fun _ _ => False
  | _ => fun _ db' => db' = db
  end.

(** The same environment without failures: every process sees the snapshot
    [sn], and [id] is the next identifier. *)
Definition repo_handle {DB ε} `{!ModuleStateRepository DB ε} (sn : ActiveModuleSnapshot)
    (id : string) (X : Type) (e : regE ε X) (db : DB) : option (X * DB) :=
  match e in regE _ X return option (X * DB) with
  | ReadDesired m => Some (repo_read_desired db m, db)
  | ReadAllDesired => Some (repo_read_all_desired db, db)
  | ReadReconcileState i => Some (repo_read_reconcile_state db i, db)
  | CompareAndSetDesiredGuarded change guards => Some (repo_cas_desired id change guards db)
  | ReadInstance i m => Some (repo_read_instance db i m, db)
  | PageEvents offset limit => Some (repo_page_events db offset limit, db)
  | CompareAndSetInstance mutation => Some (repo_cas_instance mutation db)
  | RecordInstanceObservation o => Some (repo_record_observation o db)
  | ValidateRevision m r => Some (repo_validate_revision db m r, db)
  | DrainStored _ _ _ => Some (Ok true, db)
  | Snapshot => Some (sn, db)
  | Publish _ _ _ => Some (Ok tt, db)
  | SystemTimeNow => Some (0, db)
  | UuidNowV7 => Some (id, db)
  | WaitUntilIdle _ | LockTransition _ | UnlockTransition _ | LockPolicy | UnlockPolicy =>
      Some (tt, db)
  | Diverge => None
  end.

(** ** Concurrent changes of the desired modes *)

(** A call of [set_desired_mode] by some process. *)
Record desired_request := {
  req_registry : Registry;
  req_module : ModuleId;
  req_mode : DesiredMode;
  req_expected : option ModuleRevision;
  req_actor : option string;
  req_reason : option string;
  req_at : Z;
}.

Definition serve {ε} (r : desired_request) : M ε (CasOutcome DesiredStateRecord) :=
  set_desired_mode r.(req_registry) r.(req_module) r.(req_mode) r.(req_expected)
    r.(req_actor) r.(req_reason) r.(req_at).

Section desired.
Context {DB ε : Type} `{!ModuleStateRepository DB ε, !RepositoryLaws DB ε}.

Definition effective (cat : ModuleCatalog) (db : DB) (m : ModuleId) : Prop :=
  ∃ d, desired_of db m = Some d ∧ effective_enabled cat m (is_enabled d.(d_mode)) = true.

(** Whatever is effectively enabled has its dependencies effectively enabled. *)
Definition dep_closed (cat : ModuleCatalog) (db : DB) : Prop :=
  ∀ m dep, effective cat db m → dep ∈ (spec cat m).(dependencies) → effective cat db dep.

(** Revisions only advance, and a revision determines the mode. *)
Definition desired_advances (db db' : DB) : Prop :=
  repo_inv db → repo_inv db' ∧
  ∀ m d, desired_of db m = Some d →
    ∃ d', desired_of db' m = Some d' ∧ d.(d_revision) ≤ d'.(d_revision) ∧
      (d.(d_revision) = d'.(d_revision) → d.(d_mode) = d'.(d_mode)).

(** The change a request writes, and the guards it computed from the rows [db0]
    it had read. *)
Definition justified (self : Registry) (db0 : DB) (change : DesiredStateChange)
    (guards : list DesiredRevisionGuard) : Prop :=
  let m := change.(c_next).(d_module_id) in
  if is_enabled change.(c_next).(d_mode) then
    is_available self.(catalog) m = true ∧
    ∀ dep, dep ∈ (spec self.(catalog) m).(dependencies) → ∃ d, desired_of db0 dep = Some d ∧
      effective_enabled self.(catalog) dep (is_enabled d.(d_mode)) = true ∧
      {| g_module_id := dep; g_expected_revision := Some d.(d_revision) |} ∈ guards
  else
    ∀ m', m ∈ (spec self.(catalog) m').(dependencies) → ∃ d, desired_of db0 m' = Some d ∧
      effective_enabled self.(catalog) m' (is_enabled d.(d_mode)) = false ∧
      {| g_module_id := m'; g_expected_revision := Some d.(d_revision) |} ∈ guards.

Definition desired_guar (cat : ModuleCatalog) (X : Type) (e : regE ε X)
    (db : DB) (x : X) (db' : DB) : Prop :=
  desired_advances db db' ∧ (repo_inv db → dep_closed cat db → dep_closed cat db').
End desired.

(** ** Facts *)

Section desired_facts.
Context {DB ε : Type} `{!ModuleStateRepository DB ε, !RepositoryLaws DB ε}.

Lemma repo_handle_step sn id X (e : regE ε X) (db : DB) x db' :
  repo_handle sn id X e db = Some (x, db') → repo_step X e db x db'.
Proof.
  destruct e; simpl; intros Hh; try done; try (by simplify_eq); try exists id; left;
    first [by simplify_eq|by injection Hh as ->].
Qed.

#[export] Instance desired_advances_preorder : PreOrder (desired_advances (DB := DB)).
Proof.
  split; [intros db Hi; split; [done|]; intros m d ->; eauto with lia|].
  intros a b c Hab Hbc Ha. destruct (Hab Ha) as [Hb Hab']. destruct (Hbc Hb) as [Hc Hbc'].
  split; [done|]. intros m d Hd. destruct (Hab' m d Hd) as (d1 & Hd1 & ? & Heq1).
  destruct (Hbc' m d1 Hd1) as (d2 & -> & ? & Heq2). exists d2. split_and!; [done|lia|].
  intros Heq. rewrite Heq1 by lia. apply Heq2. lia.
Qed.

Lemma effective_same cat (db db' : DB) m :
  desired_of db' m = desired_of db m → effective cat db' m ↔ effective cat db m.
Proof. unfold effective. by intros ->. Qed.

Lemma dep_closed_same cat (db db' : DB) :
  (∀ m, desired_of db' m = desired_of db m) → dep_closed cat db → dep_closed cat db'.
Proof.
  intros H Hd m dep. rewrite !(effective_same cat db db') by apply H. apply Hd.
Qed.

Lemma desired_advances_same (db db' : DB) :
  (repo_inv db → repo_inv db') → (∀ m, desired_of db' m = desired_of db m) →
  desired_advances db db'.
Proof.
  intros Hi H Hd. split; [by auto|]. intros m d Hm. exists d. rewrite H. by auto with lia.
Qed.

Lemma desired_guar_same cat X (e : regE ε X) (db : DB) x db' :
  (repo_inv db → repo_inv db') → (∀ m, desired_of db' m = desired_of db m) →
  desired_guar cat X e db x db'.
Proof. split; [by apply desired_advances_same|eauto using dep_closed_same]. Qed.

(** A row seen at a guarded revision is unchanged as long as its revision is. *)
Lemma guarded_row (db db' : DB) m d :
  repo_inv db → desired_advances db db' → desired_of db m = Some d →
  d_revision <$> desired_of db' m = Some d.(d_revision) →
  ∃ d', desired_of db' m = Some d' ∧ d'.(d_mode) = d.(d_mode).
Proof.
  intros Hi Ha Hd Hr. destruct (Ha Hi) as [_ Hadv]. destruct (Hadv m d Hd) as (d' & Hd' & _ & Heq).
  rewrite Hd' in Hr. simplify_eq/=. exists d'. split; [done|]. symmetry. by apply Heq.
Qed.

Lemma dependency_guards_spec self m sn l deps guards :
  dependency_guards (ε := ε) self m sn l deps = Ok guards →
  ∀ dep, dep ∈ deps → ∃ d, find_desired l dep = Some d ∧
    effective_enabled self.(catalog) dep (is_enabled d.(d_mode)) = true ∧
    {| g_module_id := dep; g_expected_revision := Some d.(d_revision) |} ∈ guards.
Proof.
  revert guards. induction deps as [|dep deps IH]; simpl; intros guards Hg; [set_solver|].
  destruct (find_desired l dep) as [d|] eqn:Hd; simpl in Hg; [|done].
  destruct (_ || _) eqn:Hcond; [done|]. boolify.
  destruct (dependency_guards _ _ _ _ _) as [gs|] eqn:Hgs; [|done]. simplify_eq.
  intros dep' [->|Hin]%elem_of_cons; [exists d; set_solver|].
  destruct (IH gs eq_refl dep' Hin) as (d' & ? & ? & ?). exists d'. set_solver.
Qed.

Lemma dependent_guards_spec self m sn l deps guards :
  dependent_guards (ε := ε) self m sn l deps = Ok guards →
  ∀ dep, dep ∈ deps → ∃ d, find_desired l dep = Some d ∧
    effective_enabled self.(catalog) dep (is_enabled d.(d_mode)) = false ∧
    {| g_module_id := dep; g_expected_revision := Some d.(d_revision) |} ∈ guards.
Proof.
  revert guards. induction deps as [|dep deps IH]; simpl; intros guards Hg; [set_solver|].
  destruct (find_desired l dep) as [d|] eqn:Hd; simpl in Hg; [|done].
  destruct (_ || _) eqn:Hcond; [done|]. boolify.
  destruct (dependent_guards _ _ _ _ _) as [gs|] eqn:Hgs; [|done]. simplify_eq.
  intros dep' [->|Hin]%elem_of_cons; [exists d; set_solver|].
  destruct (IH gs eq_refl dep' Hin) as (d' & ? & ? & ?). exists d'. set_solver.
Qed.

Lemma elem_of_dependents cat m m' :
  catalog_wf cat → m ∈ (spec cat m').(dependencies) → m' ∈ spec_id <$> dependents_of cat m.
Proof.
  intros [Hwf _]. unfold spec. destruct (Hwf m') as (s & Hs & Hid). rewrite Hs. intros Hm.
  apply list_elem_of_fmap. exists s. split; [done|]. unfold dependents_of.
  apply list_elem_of_filter. split; [done|]. apply elem_of_btree_values. eauto.
Qed.

Lemma cas_desired_advances (db db' : DB) id change guards x :
  repo_cas_desired id change guards db = (x, db') → desired_advances db db'.
Proof.
  intros Hc Hi. destruct (law_cas_desired db id change guards x db' Hi Hc) as (Hi' & _ & Hs).
  split; [done|]. intros m d Hd. destruct Hs as [[Heq _]|(_ & cur & st & Hh & Hne & Hrev & Hst & Heq)].
  - exists d. rewrite Heq. auto with lia.
  - rewrite Heq. destruct (decide _) as [->|]; [|exists d; auto with lia].
    destruct Hh as (Hcur & _), Hst as (_ & _ & Hst). simplify_eq.
    exists st. split_and!; [done|lia|lia].
Qed.

Lemma cas_desired_closed self (db0 db db' : DB) id change guards x :
  repo_inv db0 → desired_advances db0 db → justified self db0 change guards →
  repo_cas_desired id change guards db = (x, db') →
  dep_closed self.(catalog) db → dep_closed self.(catalog) db'.
Proof.
  intros Hi0 Hadv Hj Hc Hdc. destruct (Hadv Hi0) as [Hi _].
  destruct (law_cas_desired db id change guards x db' Hi Hc) as (_ & _ & [[Heq _]|Hw]).
  { by eapply dep_closed_same. }
  destruct Hw as (_ & cur & st & (Hcur & _ & Hguards) & _ & _ & (_ & Hmode & _) & Heq).
  set (m := d_module_id _) in *. intros m' dep Hm' Hdep.
  assert (Hne : ∀ k, k ≠ m → effective self.(catalog) db' k ↔ effective self.(catalog) db k).
  { intros k Hk. apply effective_same. rewrite Heq. by rewrite decide_False. }
  assert (Hself : effective self.(catalog) db' m ↔
    effective_enabled self.(catalog) m (is_enabled change.(c_next).(d_mode)) = true).
  { unfold effective. rewrite Heq, decide_True by done. rewrite <- Hmode. naive_solver. }
  assert (Hguarded : ∀ k d b, desired_of db0 k = Some d →
    effective_enabled self.(catalog) k (is_enabled d.(d_mode)) = b →
    {| g_module_id := k; g_expected_revision := Some d.(d_revision) |} ∈ guards →
    ∃ d', desired_of db k = Some d' ∧
      effective_enabled self.(catalog) k (is_enabled d'.(d_mode)) = b).
  { intros k d b Hd He Hg. destruct (guarded_row db0 db k d Hi0 Hadv Hd (Hguards _ Hg))
      as (d' & ? & Hd'). exists d'. by rewrite Hd'. }
  unfold justified in Hj. fold m in Hj. destruct (is_enabled _) eqn:Hen.
  - destruct Hj as [Hav Hj].
    assert (Hm : effective self.(catalog) db' m) by (apply Hself; unfold effective_enabled; by rewrite Hav).
    destruct (decide (dep = m)) as [->|Hdm]; [done|]. apply Hne; [done|].
    destruct (decide (m' = m)) as [->|Hmm].
    + destruct (Hj dep Hdep) as (d & Hd & He & Hg). by apply (Hguarded dep d true).
    + eapply Hdc; [by apply Hne|done].
  - destruct (decide (m' = m)) as [->|Hmm]; [by apply Hself in Hm'|]. apply Hne in Hm'; [|done].
    destruct (decide (dep = m)) as [->|Hdm]; [|apply Hne; [done|]; by eapply Hdc].
    destruct (Hj m' Hdep) as (d & Hd & He & Hg).
    destruct (Hguarded m' d false Hd He Hg) as (d' & Hd' & He'). destruct Hm' as (? & ? & ?). congruence.
Qed.

Lemma guar_fails_or cat X (e : regE ε X) {A} (db : DB) (call : result A ε * DB) x y db' :
  (call.2 = db ∨ desired_guar cat X e db y call.2) → fails_or db call x db' →
  desired_guar cat X e db y db'.
Proof.
  intros Hg [[-> ->]|[_ [->| ->]]]; [destruct Hg as [->|?]|..|destruct Hg as [->|?]];
    try done; by apply desired_guar_same.
Qed.

Notation wp_desired cat := (wp (repo_step (DB := DB) (ε := ε)) desired_advances (desired_guar cat)).

Lemma wp_cas_desired self (db0 db : DB) change guards Q :
  repo_inv db0 → desired_advances db0 db → justified self db0 change guards →
  (∀ r db', Q r db') →
  wp_desired self.(catalog) (repository (CompareAndSetDesiredGuarded change guards)) Q db.
Proof.
  intros Hi Hadv Hj HQ. apply wp_call. intros db1 x db2 Hr (id & Hs).
  assert (desired_advances db0 db1) by by etrans.
  destruct (repo_cas_desired id change guards db1) as [y db3] eqn:Hc.
  split; [|by apply wp_ret].
  eapply guar_fails_or; [|exact Hs]. right. simpl. split.
  - by eapply cas_desired_advances.
  - intros _. by eapply cas_desired_closed.
Qed.

(** Every effect of a request keeps the desired modes closed. *)
Lemma wp_set_desired_mode self m mode expected actor reason at_ (db : DB) :
  catalog_wf self.(catalog) → repo_inv db →
  wp_desired self.(catalog) (set_desired_mode self m mode expected actor reason at_)
    (fun _ _ => True) db.
Proof.
  intros Hcat Hi.
  assert (Hpure : ∀ X (e : regE ε X) db x, desired_guar self.(catalog) X e db x db).
  { intros. by apply desired_guar_same. }
  apply wp_call. intros db1 [] ? Hr1 ->. split; [done|].
  apply wp_bind; [apply _|]. eapply (wp_mono _ _ _ (fun _ _ => True)); cycle 1.
  { intros x db2 _. apply wp_call. intros db3 [] ? _ ->. split; [done|]. by apply wp_ret. }
  unfold set_desired_mode_locked. destruct (_ && _) eqn:Hc1; [by apply wp_ret|].
  destruct (negb _ && _) eqn:Hc2; [by apply wp_ret|].
  apply wp_call. intros db2 sn ? Hr2 ->. split; [done|].
  apply wp_bind; [apply _|]. apply wp_call. intros db3 l db4 Hr3 Hs.
  assert (Hi3 : repo_inv db3) by (apply Hr3, Hr2, Hr1, Hi).
  split; [by eapply guar_fails_or; [left|exact Hs]|].
  apply wp_ret. intros db5 Hr5. destruct l as [l|e]; [|by apply wp_ret]. simpl.
  destruct (law_read_all db3 Hi3) as (l' & Hl' & Hfind).
  destruct Hs as [[Hx ->]|[[? ?] _]]; [|done].
  cbn [fst] in Hx. rewrite Hl' in Hx. simplify_eq.
  destruct (if is_enabled mode then _ else _) as [guards|e] eqn:Hg; [|by apply wp_ret].
  destruct (find_desired _ m) as [cur|] eqn:Hcur; [|by apply wp_ret].
  destruct (bool_decide (Some _ ≠ _)); [by apply wp_ret|].
  destruct (u64_checked_add _ _) as [next|]; [|by apply wp_ret].
  eapply wp_cas_desired; [exact Hi3|done| |done]. unfold justified. simpl.
  destruct (is_enabled mode); simpl in Hc1.
  - split; [by apply negb_false_iff|]. intros dep Hdep. apply elem_of_btree_iter in Hdep.
    rewrite <- Hfind. by eapply dependency_guards_spec.
  - intros m' Hm'. rewrite <- Hfind. eapply dependent_guards_spec; [exact Hg|].
    by apply elem_of_dependents.
Qed.

(** Any number of processes serve requests over one repository. *)
Lemma pool_serve cat (rs : list desired_request) (db : DB) ts (db' : DB) :
  catalog_wf cat → Forall (fun r => r.(req_registry).(catalog) = cat) rs →
  repo_inv db → dep_closed cat db →
  pool_steps (fun _ => repo_step) (serve (ε := ε) <$> rs, db) (ts, db') →
  repo_inv db' ∧ dep_closed cat db' ∧ desired_advances db db'.
Proof.
  intros Hcat Hrs Hi Hdc Hs.
  assert (Hok : pool_ok (fun _ => repo_step) (fun _ => desired_advances)
    (fun _ => desired_guar cat) (fun _ _ _ => True) (serve (ε := ε) <$> rs, db)).
  { intros i p Hp. apply list_lookup_fmap_Some in Hp as (r & -> & Hr).
    rewrite Forall_lookup in Hrs. specialize (Hrs i r Hr). subst cat.
    by apply wp_set_desired_mode. }
  destruct (pool_steps_ok _ _ _ (fun _ => _) (fun _ _ _ _ _ _ _ _ H => proj1 H) _ _ Hok Hs)
    as [_ Hg].
  simpl in Hg. clear Hok Hs. induction Hg as [db|a b c (i & X & e & x & Hg) _ IH]; [done|].
  destruct Hg as [Hab Hc]. destruct (Hab Hi) as [Hb _].
  destruct (IH Hb (Hc Hi Hdc)) as (? & ? & ?). split_and!; [done..|]. by etrans.
Qed.
End desired_facts.
