(* ===== verification/PostgresModules.v ===== *)
(** * The PostgreSQL repository of runtime modules

    Models [crates/persistence-postgres/src/repositories/runtime_modules/]
    ([desired.rs], [instance.rs], [events.rs], [mapping.rs]), its rows
    ([rows/runtime.rs]) and the column texts and event insertion of
    [repositories/audit.rs].

    A table is a finite map from its primary key to the row; a transaction is
    atomic and rolls back on error, its [FOR UPDATE] locks keeping concurrent
    transactions off the rows it read.  The server's own checks (primary keys,
    [CHECK] and foreign-key constraints) are the parameter [constraints], asked
    of the tables each statement would leave.  [Uuid] values are numbers;
    parsing and printing them is the [uuid] crate's.  [timestamptz] is what a
    [SystemTime] becomes when it is stored and read back. *)
From stdpp Require Import base list strings gmap sorting pretty.
From S2P Require Import Prelude Chrono Postgres Effects RuntimeModel RuntimeLeases RuntimeRegistry.

Local Open Scope rust_scope.
Local Open Scope string_scope.
Local Open Scope list_scope.
Open Scope Z_scope.

(** ** [rows/runtime.rs] *)

Record DesiredStateRow := {
  dr_module_id : string;
  dr_desired_mode : string;
  dr_revision : Z;
  dr_actor_id : option Uuid;
  dr_reason : option string;
  dr_updated_at : Z;
}.

Record InstanceStateRow := {
  ir_instance_id : string;
  ir_module_id : string;
  ir_actual_state : string;
  ir_transition_revision : Z;
  ir_applied_revision : option Z;
  ir_drain_deadline : option Z;
  ir_error_code : option string;
  ir_updated_at : Z;
}.

Record ModuleEventRow := {
  er_event_id : Uuid;
  er_tenant_id : Uuid;
  er_module_id : string;
  er_event_type : string;
  er_revision : Z;
  er_instance_id : option string;
  er_actor_id : option Uuid;
  er_reason : option string;
  er_before_state : option string;
  er_after_state : option string;
  er_outcome_code : option string;
  er_occurred_at : Z;
}.

(** The three tables, by primary key; events in insertion order. *)
Record Tables := {
  desired_states : gmap (Uuid * string) DesiredStateRow;
  instance_states : gmap (Uuid * string * string) InstanceStateRow;
  state_events : list ModuleEventRow;
}.

(** ** The column texts of [audit.rs] *)
Module audit.

Definition module_id (value : ModuleId) : string :=
  match value with
  | DeviceAuthorization => "device_authorization"
  | TokenExchange => "token_exchange"
  | JwtBearerGrant => "jwt_bearer_grant"
  | Ciba => "ciba"
  | DynamicClientRegistration => "dynamic_client_registration"
  | RequestObjects => "request_objects"
  | Jarm => "jarm"
  | AuthorizationDetails => "authorization_details"
  | HttpMessageSignatures => "http_message_signatures"
  | Scim => "scim"
  | ScimSecurityEvents => "scim_security_events"
  | NativeSso => "native_sso"
  | FrontchannelLogout => "frontchannel_logout"
  | SessionManagement => "session_management"
  | Openid4vciIssuer => "openid4vci_issuer"
  | Openid4vpVerifier => "openid4vp_verifier"
  end.

Definition desired_mode (value : DesiredMode) : string :=
  match value with
  | DesiredMode_Enabled => "enabled"
  | DesiredMode_Disabled => "disabled"
  end.

Definition historical_desired_mode (value : HistoricalDesiredMode) : string :=
  match value with
  | HistoricalDesiredMode_Inherit => "inherit"
  | HistoricalDesiredMode_Enabled => "enabled"
  | HistoricalDesiredMode_Disabled => "disabled"
  end.

Definition actual_state (value : ModuleState) : string :=
  match value with
  | ModuleState_Disabled => "disabled"
  | ModuleState_Starting => "starting"
  | ModuleState_Enabled => "enabled"
  | ModuleState_Draining => "draining"
  | ModuleState_Failed => "failed"
  end.

Definition event_type (value : ModuleEventType) : string :=
  match value with
  | DesiredStateChanged => "desired_state_changed"
  | TransitionStarted => "transition_started"
  | TransitionCompleted => "transition_completed"
  | TransitionFailed => "transition_failed"
  | DrainStarted => "drain_started"
  | DrainCompleted => "drain_completed"
  | StaleTransitionDiscarded => "stale_transition_discarded"
  end.

Definition event_state (value : ModuleEventState) : string :=
  match value with
  | EventDesired mode => historical_desired_mode mode
  | EventActual state => actual_state state
  end.

Definition revision (value : ModuleRevision) : result Z RepositoryError :=
  ok_or (i64_try_from_u64 value) (Unexpected "runtime revision exceeds PostgreSQL BIGINT").

End audit.

(** ** [mapping.rs] *)
Module mapping.

Definition parse_event_type (value : string) : result ModuleEventType RepositoryError :=
  if decide (value = "desired_state_changed") then Ok DesiredStateChanged
  else if decide (value = "transition_started") then Ok TransitionStarted
  else if decide (value = "transition_completed") then Ok TransitionCompleted
  else if decide (value = "transition_failed") then Ok TransitionFailed
  else if decide (value = "drain_started") then Ok DrainStarted
  else if decide (value = "drain_completed") then Ok DrainCompleted
  else if decide (value = "stale_transition_discarded") then Ok StaleTransitionDiscarded
  else Err (Consistency ("unknown runtime event type: " +:+ value)).

Definition parse_revision (value : Z) : result ModuleRevision RepositoryError :=
  ok_or (u64_try_from_i64 value) (Consistency "negative runtime revision").

Definition parse_desired_mode (value : string) : result DesiredMode RepositoryError :=
  if decide (value = "enabled") then Ok DesiredMode_Enabled
  else if decide (value = "disabled") then Ok DesiredMode_Disabled
  else Err (Consistency ("unknown runtime desired mode: " +:+ value)).

Definition parse_historical_desired_mode (value : string)
    : result HistoricalDesiredMode RepositoryError :=
  if decide (value = "inherit") then Ok HistoricalDesiredMode_Inherit
  else if decide (value = "enabled") then Ok HistoricalDesiredMode_Enabled
  else if decide (value = "disabled") then Ok HistoricalDesiredMode_Disabled
  else Err (Consistency ("unknown runtime historical desired mode: " +:+ value)).

Definition parse_actual_state (value : string) : result ModuleState RepositoryError :=
  if decide (value = "disabled") then Ok ModuleState_Disabled
  else if decide (value = "starting") then Ok ModuleState_Starting
  else if decide (value = "enabled") then Ok ModuleState_Enabled
  else if decide (value = "draining") then Ok ModuleState_Draining
  else if decide (value = "failed") then Ok ModuleState_Failed
  else Err (Consistency ("unknown runtime actual state: " +:+ value)).

Definition parse_event_state (event_type : ModuleEventType) (value : string)
    : result ModuleEventState RepositoryError :=
  if decide (event_type = DesiredStateChanged)
  then map_ok EventDesired (parse_historical_desired_mode value)
  else map_ok EventActual (parse_actual_state value).

Definition parse_module_id (value : string) : result ModuleId RepositoryError :=
  if decide (value = "device_authorization") then Ok DeviceAuthorization
  else if decide (value = "token_exchange") then Ok TokenExchange
  else if decide (value = "jwt_bearer_grant") then Ok JwtBearerGrant
  else if decide (value = "ciba") then Ok Ciba
  else if decide (value = "dynamic_client_registration") then Ok DynamicClientRegistration
  else if decide (value = "request_objects") then Ok RequestObjects
  else if decide (value = "jarm") then Ok Jarm
  else if decide (value = "authorization_details") then Ok AuthorizationDetails
  else if decide (value = "http_message_signatures") then Ok HttpMessageSignatures
  else if decide (value = "scim") then Ok Scim
  else if decide (value = "scim_security_events") then Ok ScimSecurityEvents
  else if decide (value = "native_sso") then Ok NativeSso
  else if decide (value = "frontchannel_logout") then Ok FrontchannelLogout
  else if decide (value = "session_management") then Ok SessionManagement
  else if decide (value = "openid4vci_issuer") then Ok Openid4vciIssuer
  else if decide (value = "openid4vp_verifier") then Ok Openid4vpVerifier
  else Err (Consistency ("unknown runtime module id: " +:+ value)).

End mapping.
Import mapping.

#[export] Instance HistoricalDesiredMode_eq_dec : EqDecision HistoricalDesiredMode.
Proof. solve_decision. Defined.
#[export] Instance ModuleEventState_eq_dec : EqDecision ModuleEventState.
Proof. solve_decision. Defined.

Section postgres.
(** The [uuid] crate, the database server, and the repository's tenant. *)
Context (uuid_parse_str : string → result Uuid string) (uuid_to_string : Uuid → string).
Context (timestamptz : Z → Z) (constraints : Tables → result unit string).
Context (tenant_id : Uuid).

Definition desired_from_row (row : DesiredStateRow) : result DesiredStateRecord RepositoryError :=
  let? module_id := parse_module_id row.(dr_module_id) in
  let? mode := parse_desired_mode row.(dr_desired_mode) in
  let? revision := parse_revision row.(dr_revision) in
  Ok {| d_module_id := module_id;
        d_mode := mode;
        d_revision := revision;
        d_actor_id := uuid_to_string <$> row.(dr_actor_id);
        d_reason := row.(dr_reason);
        d_updated_at := row.(dr_updated_at) |}.

Definition instance_from_row (row : InstanceStateRow)
    : result InstanceStateRecord RepositoryError :=
  let? module_id := parse_module_id row.(ir_module_id) in
  let? state := parse_actual_state row.(ir_actual_state) in
  let? transition_revision := parse_revision row.(ir_transition_revision) in
  let? applied_revision := transpose (parse_revision <$> row.(ir_applied_revision)) in
  Ok {| i_instance_id := row.(ir_instance_id);
        i_module_id := module_id;
        i_state := state;
        i_transition_revision := transition_revision;
        i_applied_revision := applied_revision;
        i_drain_deadline := row.(ir_drain_deadline);
        i_error_code := row.(ir_error_code);
        i_updated_at := row.(ir_updated_at) |}.

Definition event_from_row (row : ModuleEventRow) : result ModuleEventRecord RepositoryError :=
  let? event_type := parse_event_type row.(er_event_type) in
  let? module_id := parse_module_id row.(er_module_id) in
  let? revision := parse_revision row.(er_revision) in
  let? before := transpose (parse_event_state event_type <$> row.(er_before_state)) in
  let? after := transpose (parse_event_state event_type <$> row.(er_after_state)) in
  Ok {| ev_event_id := uuid_to_string row.(er_event_id);
        ev_module_id := module_id;
        ev_event_type := event_type;
        ev_revision := revision;
        ev_instance_id := row.(er_instance_id);
        ev_actor_id := uuid_to_string <$> row.(er_actor_id);
        ev_reason := row.(er_reason);
        ev_before := before;
        ev_after := after;
        ev_outcome_code := row.(er_outcome_code);
        ev_occurred_at := row.(er_occurred_at) |}.

Definition parse_optional_uuid (value : option string) (field : string)
    : result (option Uuid) RepositoryError :=
  map_err (fun error => Consistency ("invalid runtime " +:+ field +:+ " id: " +:+ error))
    (transpose (uuid_parse_str <$> value)).

(** A statement: the server checks the tables it would leave; a Diesel error
    becomes [Unexpected] with its text. *)
Definition execute (tables : Tables) : result Tables RepositoryError :=
  match constraints tables with
  | Ok _ => Ok tables
  | Err text => Err (Unexpected text)
  end.

(** [connection.transaction]: commit, or roll back on error. *)
Definition transaction {A} (body : Tables → result (A * Tables) RepositoryError)
    (tables : Tables) : result A RepositoryError * Tables :=
  match body tables with
  | Ok (a, tables') => (Ok a, tables')
  | Err e => (Err e, tables)
  end.

(** *** [audit.rs] *)

Definition append_runtime_event (event : ModuleEventRecord) (tables : Tables)
    : result Tables RepositoryError :=
  let? event_id := map_err (fun error => Unexpected ("invalid runtime event id: " +:+ error))
    (uuid_parse_str event.(ev_event_id)) in
  let? actor_id := map_err (fun error => Unexpected ("invalid runtime actor id: " +:+ error))
    (transpose (uuid_parse_str <$> event.(ev_actor_id))) in
  let? revision := audit.revision event.(ev_revision) in
  execute {|
    desired_states := tables.(desired_states);
    instance_states := tables.(instance_states);
    state_events := tables.(state_events) ++ [{|
      er_event_id := event_id;
      er_tenant_id := tenant_id;
      er_module_id := audit.module_id event.(ev_module_id);
      er_event_type := audit.event_type event.(ev_event_type);
      er_revision := revision;
      er_instance_id := event.(ev_instance_id);
      er_actor_id := actor_id;
      er_reason := event.(ev_reason);
      er_before_state := audit.event_state <$> event.(ev_before);
      er_after_state := audit.event_state <$> event.(ev_after);
      er_outcome_code := event.(ev_outcome_code);
      er_occurred_at := timestamptz event.(ev_occurred_at) |}] |}.

(** *** [events.rs] *)

(** [ORDER BY occurred_at DESC, event_id DESC] *)
Definition event_before (a b : ModuleEventRow) : Prop :=
  b.(er_occurred_at) < a.(er_occurred_at) ∨
  (b.(er_occurred_at) = a.(er_occurred_at) ∧ b.(er_event_id) ≤ a.(er_event_id)).

#[export] Instance event_before_dec : RelDecision event_before.
Proof. intros a b. unfold event_before. apply _. Defined.

(** The count and the page are two queries: [counted] and [tables] are what
    each of them sees. *)
Definition page_events (counted tables : Tables) (offset limit : Z)
    : result ModuleEventPage RepositoryError :=
  if (offset <? 0) || negb ((1 <=? limit) && (limit <=? 100)) then
    Err (Consistency "runtime event pagination is out of bounds")
  else
    let of_tenant := filter (fun row => row.(er_tenant_id) = tenant_id) in
    let total := Z.of_nat (length (of_tenant counted.(state_events))) in
    let rows := take (Z.to_nat limit) (drop (Z.to_nat offset)
      (merge_sort event_before (of_tenant tables.(state_events)))) in
    let? events := collect (event_from_row <$> rows) in
    Ok {| page_total := total; RuntimeRegistry.page_events := events |}.

Definition desired_event (now_v7 : string) (next : DesiredStateRecord)
    (before : HistoricalDesiredMode) (revision : ModuleRevision)
    (outcome_code : option string) : ModuleEventRecord :=
  {| ev_event_id := now_v7;
     ev_module_id := next.(d_module_id);
     ev_event_type := DesiredStateChanged;
     ev_revision := revision;
     ev_instance_id := None;
     ev_actor_id := next.(d_actor_id);
     ev_reason := next.(d_reason);
     ev_before := Some (EventDesired before);
     ev_after := Some (EventDesired (match next.(d_mode) with
       | DesiredMode_Enabled => HistoricalDesiredMode_Enabled
       | DesiredMode_Disabled => HistoricalDesiredMode_Disabled
       end));
     ev_outcome_code := outcome_code;
     ev_occurred_at := next.(d_updated_at) |}.

(** *** [desired.rs] *)

(** The tenant's rows, in no particular order. *)
Definition tenant_rows (tables : Tables) : list DesiredStateRow :=
  snd <$> filter (fun '((tenant, _), _) => tenant = tenant_id) (map_to_list tables.(desired_states)).

Definition read_desired (tables : Tables) (requested_module_id : ModuleId)
    : result (option DesiredStateRecord) RepositoryError :=
  transpose (desired_from_row <$>
    tables.(desired_states) !! (tenant_id, audit.module_id requested_module_id)).

Definition read_all_desired (tables : Tables) : result (list DesiredStateRecord) RepositoryError :=
  collect (desired_from_row <$> tenant_rows tables).

Definition read_reconcile_state (tables : Tables) (instance_id : string)
    : result (list ModuleReconcileState) RepositoryError :=
  collect ((fun row : DesiredStateRow =>
    let? desired := desired_from_row row in
    let? instance := transpose (instance_from_row <$>
      tables.(instance_states) !! (tenant_id, instance_id, row.(dr_module_id))) in
    Ok {| rs_desired := desired; rs_instance := instance |}) <$> tenant_rows tables).

Definition next_desired_revision (expected_revision : option ModuleRevision)
    : result Z RepositoryError :=
  match expected_revision with
  | None => Ok 1
  | Some revision =>
      ok_or (u64_checked_add revision 1) (Consistency "desired revision space is exhausted")
  end.

Definition find_row (rows : list DesiredStateRow) (id : ModuleId) : option DesiredStateRow :=
  head (filter (fun row => row.(dr_module_id) = audit.module_id id) rows).

(** The loop over [required_revisions]. *)
Fixpoint guards_match (rows : list DesiredStateRow) (required : list DesiredRevisionGuard)
    : result bool RepositoryError :=
  match required with
  | [] => Ok true
  | guard :: rest =>
      let? guarded_revision := transpose
        ((fun row => parse_revision row.(dr_revision)) <$> find_row rows guard.(g_module_id)) in
      if decide (guarded_revision = guard.(g_expected_revision))
      then guards_match rows rest
      else Ok false
  end.

(** The rows locked [FOR UPDATE]: the target's and the guards'. *)
Definition locked_rows (tables : Tables) (target : ModuleId)
    (required : list DesiredRevisionGuard) : list DesiredStateRow :=
  filter (fun row => row.(dr_module_id) ∈
    audit.module_id target :: ((fun guard => audit.module_id guard.(g_module_id)) <$> required))
    (tenant_rows tables).

(** [diesel::update(...).set(...)] on the target row. *)
Definition update_desired_row (tables : Tables) (next : DesiredStateRecord) (revision : Z)
    (actor_id : option Uuid) : Tables :=
  {| desired_states := alter (fun row =>
       {| dr_module_id := row.(dr_module_id);
          dr_desired_mode := audit.desired_mode next.(d_mode);
          dr_revision := revision;
          dr_actor_id := actor_id;
          dr_reason := next.(d_reason);
          dr_updated_at := timestamptz next.(d_updated_at) |})
       (tenant_id, audit.module_id next.(d_module_id)) tables.(desired_states);
     instance_states := tables.(instance_states);
     state_events := tables.(state_events) |}.

(** The text of the [format!] when the revision does not advance by one. *)
Definition advance_message (expected_next : Z) : string :=
  "desired revision must advance to " +:+ pretty expected_next.

Definition compare_and_set_desired (now_v7 : string) (change : DesiredStateChange)
    (required_revisions : list DesiredRevisionGuard) (tables : Tables)
    : result (CasOutcome DesiredStateRecord) RepositoryError * Tables :=
  match next_desired_revision change.(c_expected_revision) with
  | Err e => (Err e, tables)
  | Ok expected_next =>
  transaction (fun tables =>
    let next := change.(c_next) in
    let rows := locked_rows tables next.(d_module_id) required_revisions in
    let? guards_match := guards_match rows required_revisions in
    let? current := ok_or (find_row rows next.(d_module_id))
      (Consistency "runtime desired state is missing") in
    let? current := desired_from_row current in
    if bool_decide (Some current.(d_revision) ≠ change.(c_expected_revision)) || negb guards_match
    then Ok (Stale (Some current), tables)
    else if decide (current.(d_mode) = next.(d_mode)) then
      let event := desired_event now_v7 next (historical_from current.(d_mode))
                     current.(d_revision) (Some "noop") in
      let? tables := append_runtime_event event tables in
      Ok (Applied current, tables)
    else if negb (next.(d_revision) =? expected_next) then
      Err (Consistency (advance_message expected_next))
    else
      let? actor_id := parse_optional_uuid next.(d_actor_id) "actor" in
      let? revision := audit.revision next.(d_revision) in
      let? tables := execute (update_desired_row tables next revision actor_id) in
      let event := desired_event now_v7 next (historical_from current.(d_mode))
                     next.(d_revision) None in
      let? tables := append_runtime_event event tables in
      Ok (Applied next, tables)) tables
  end.

Definition validate_revision (tables : Tables) (requested_module_id : ModuleId)
    (expected : ModuleRevision) : result bool RepositoryError :=
  let? current := transpose ((fun row => parse_revision row.(dr_revision)) <$>
    tables.(desired_states) !! (tenant_id, audit.module_id requested_module_id)) in
  Ok (bool_decide (current = Some expected)).

(** *** [instance.rs] *)

Definition load_instance (tables : Tables) (instance_id : string) (module_id : ModuleId)
    : result (option InstanceStateRecord) RepositoryError :=
  transpose (instance_from_row <$>
    tables.(instance_states) !! (tenant_id, instance_id, audit.module_id module_id)).

(** [read_instance] *)
Definition read_instance (tables : Tables) (requested_instance_id : string)
    (requested_module_id : ModuleId) : result (option InstanceStateRecord) RepositoryError :=
  load_instance tables requested_instance_id requested_module_id.

Definition read_all_instances (tables : Tables) (requested_instance_id : string)
    : result (list InstanceStateRecord) RepositoryError :=
  collect (instance_from_row <$> (snd <$>
    filter (fun '((tenant, instance, _), _) =>
      tenant = tenant_id ∧ instance = requested_instance_id)
      (map_to_list tables.(instance_states)))).

Definition is_transition_event (event_type : ModuleEventType) : bool :=
  match event_type with
  | TransitionStarted | TransitionCompleted | TransitionFailed | DrainStarted | DrainCompleted => true
  | DesiredStateChanged | StaleTransitionDiscarded => false
  end.

Definition validate_instance_mutation (mutation : InstanceStateMutation)
    : result unit RepositoryError :=
  let next := mutation.(im_change).(ic_next) in
  let event := mutation.(im_event) in
  if negb (is_transition_event event.(ev_event_type)) then
    Err (Consistency "actual-state mutation requires a transition or drain event")
  else if bool_decide (event.(ev_module_id) ≠ next.(i_module_id))
       || bool_decide (event.(ev_instance_id) ≠ Some next.(i_instance_id))
       || bool_decide (event.(ev_revision) ≠ next.(i_transition_revision)) then
    Err (Consistency "actual-state event does not match its revision-bound mutation")
  else if bool_decide (event.(ev_after) ≠ Some (EventActual next.(i_state))) then
    Err (Consistency "applied actual-state event must describe the committed state")
  else Ok tt.

(** [event.event_type = ModuleEventType::StaleTransitionDiscarded] *)
Definition discarded_event (event : ModuleEventRecord) : ModuleEventRecord :=
  {| ev_event_id := event.(ev_event_id);
     ev_module_id := event.(ev_module_id);
     ev_event_type := StaleTransitionDiscarded;
     ev_revision := event.(ev_revision);
     ev_instance_id := event.(ev_instance_id);
     ev_actor_id := event.(ev_actor_id);
     ev_reason := event.(ev_reason);
     ev_before := event.(ev_before);
     ev_after := event.(ev_after);
     ev_outcome_code := event.(ev_outcome_code);
     ev_occurred_at := event.(ev_occurred_at) |}.

(** The [UPDATE], or the [INSERT] when no revision was expected. *)
Definition write_instance_row (tables : Tables) (next : InstanceStateRecord) (insert_row : bool)
    (transition_revision : Z) (applied_revision : option Z) : Tables :=
  let row := {| ir_instance_id := next.(i_instance_id);
                ir_module_id := audit.module_id next.(i_module_id);
                ir_actual_state := audit.actual_state next.(i_state);
                ir_transition_revision := transition_revision;
                ir_applied_revision := applied_revision;
                ir_drain_deadline := timestamptz <$> next.(i_drain_deadline);
                ir_error_code := next.(i_error_code);
                ir_updated_at := timestamptz next.(i_updated_at) |} in
  let key := (tenant_id, next.(i_instance_id), audit.module_id next.(i_module_id)) in
  {| desired_states := tables.(desired_states);
     instance_states :=
       if insert_row then <[key := row]> tables.(instance_states)
       else alter (fun _ => row) key tables.(instance_states);
     state_events := tables.(state_events) |}.

(** The body of the transaction of [compare_and_set_instance]. *)
Definition set_instance (change : InstanceStateChange) (event : ModuleEventRecord)
    (tables : Tables) : result (CasOutcome InstanceStateRecord * Tables) RepositoryError :=
  let next := change.(ic_next) in
  let durable_desired_revision := dr_revision <$>
    tables.(desired_states) !! (tenant_id, audit.module_id next.(i_module_id)) in
  let? revision := audit.revision next.(i_transition_revision) in
  if bool_decide (durable_desired_revision ≠ Some revision) then
    let? current := load_instance tables next.(i_instance_id) next.(i_module_id) in
    let? tables := append_runtime_event (discarded_event event) tables in
    Ok (Stale current, tables)
  else
  let? current := load_instance tables next.(i_instance_id) next.(i_module_id) in
  if bool_decide (i_transition_revision <$> current ≠ change.(ic_expected_revision)) then
    let? tables := append_runtime_event (discarded_event event) tables in
    Ok (Stale current, tables)
  else if is_some_and change.(ic_expected_revision)
            (fun expected => next.(i_transition_revision) <? expected) then
    Err (Consistency "instance transition revision cannot move backwards")
  else
  let? transition_revision := audit.revision next.(i_transition_revision) in
  let? applied_revision := transpose (audit.revision <$> next.(i_applied_revision)) in
  let? tables := execute (write_instance_row tables next
    (is_none change.(ic_expected_revision)) transition_revision applied_revision) in
  let? tables := append_runtime_event event tables in
  Ok (Applied next, tables).

Definition compare_and_set_instance (mutation : InstanceStateMutation) (tables : Tables)
    : result (CasOutcome InstanceStateRecord) RepositoryError * Tables :=
  match validate_instance_mutation mutation with
  | Err e => (Err e, tables)
  | Ok _ => transaction (set_instance mutation.(im_change) mutation.(im_event)) tables
  end.

Definition record_instance_observation (observation : InstanceStateObservation) (tables : Tables)
    : result unit RepositoryError * Tables :=
  let event := observation.(io_event) in
  if bool_decide (event.(ev_event_type) ≠ StaleTransitionDiscarded)
     || is_none_or event.(ev_instance_id) (fun id => bool_decide (id = ""))
     || bool_decide (event.(ev_before) ≠ event.(ev_after))
     || match event.(ev_before) with Some (EventDesired _) => true | _ => false end
  then (Err (Consistency
    "instance observation must describe unchanged actual state and discarded work"), tables)
  else
    match append_runtime_event event tables with
    | Ok tables' => (Ok tt, tables')
    | Err e => (Err e, tables)
    end.

End postgres.
