(* ===== verification/PostgresModulesFacts.v ===== *)
(** * The PostgreSQL repository keeps its promises

    The column texts round-trip, stored events can be read back, and the
    repository implements the interface of [RuntimeRepository] on well-formed
    tables.  Through the interface, the registry's theorems about concurrent
    administrators hold of the rows in the database. *)
From stdpp Require Import base list strings gmap relations sorting.
From S2P Require Import Prelude Chrono Postgres Effects RuntimeModel RuntimeLeases RuntimeRegistry.
From S2P Require Import RuntimeRepository PostgresModules.

Import mapping.

Local Open Scope rust_scope.

(** The rows the [CHECK] constraints of the migrations admit. *)
Definition desired_row_wf (key : string) (row : DesiredStateRow) : Prop :=
  ∃ m mode, key = audit.module_id m ∧ row.(dr_module_id) = key ∧
    row.(dr_desired_mode) = audit.desired_mode mode ∧ 0 ≤ row.(dr_revision) ≤ I64_MAX.

Definition instance_row_wf (instance key : string) (row : InstanceStateRow) : Prop :=
  ∃ m state, key = audit.module_id m ∧ row.(ir_module_id) = key ∧
    row.(ir_instance_id) = instance ∧ row.(ir_actual_state) = audit.actual_state state ∧
    0 ≤ row.(ir_transition_revision) ≤ I64_MAX ∧
    ∀ r, row.(ir_applied_revision) = Some r → 0 ≤ r ≤ I64_MAX.

Record tables_wf (t : Tables) : Prop := {
  wf_desired tenant key row :
    t.(desired_states) !! (tenant, key) = Some row → desired_row_wf key row;
  wf_instance tenant instance key row :
    t.(instance_states) !! (tenant, instance, key) = Some row → instance_row_wf instance key row;
}.

(** An event whose states are of the kind its type says. *)
Definition event_kinds_ok (event : ModuleEventRecord) : Prop :=
  ∀ s, event.(ev_before) = Some s ∨ event.(ev_after) = Some s →
    match s with
    | EventDesired _ => event.(ev_event_type) = DesiredStateChanged
    | EventActual _ => event.(ev_event_type) ≠ DesiredStateChanged
    end.

(** An event as it is read back: identifiers in canonical form, the time as
    the column keeps it. *)
Definition normalized (timestamptz : Z → Z) (event_id : string) (actor_id : option string)
    (event : ModuleEventRecord) : ModuleEventRecord :=
  {| ev_event_id := event_id;
     ev_module_id := event.(ev_module_id);
     ev_event_type := event.(ev_event_type);
     ev_revision := event.(ev_revision);
     ev_instance_id := event.(ev_instance_id);
     ev_actor_id := actor_id;
     ev_reason := event.(ev_reason);
     ev_before := event.(ev_before);
     ev_after := event.(ev_after);
     ev_outcome_code := event.(ev_outcome_code);
     ev_occurred_at := timestamptz event.(ev_occurred_at) |}.

Section projections.
Context (uuid_parse_str : string → result Z string) (uuid_to_string : Z → string).
Context (timestamptz : Z → Z) (constraints : Tables → result unit string).
Context (tenant_id : Z).

Definition pg_desired_of (t : Tables) (m : ModuleId) : option DesiredStateRecord :=
  match t.(desired_states) !! (tenant_id, audit.module_id m) with
  | Some row => ok (desired_from_row uuid_to_string row)
  | None => None
  end.

Definition pg_instance_of (t : Tables) (instance : string) (m : ModuleId)
    : option InstanceStateRecord :=
  match t.(instance_states) !! (tenant_id, instance, audit.module_id m) with
  | Some row => ok (instance_from_row row)
  | None => None
  end.

(** The server and the [uuid] crate accept a mutation. *)
Definition pg_accepts (t : Tables) (mutation : InstanceStateMutation) : Prop :=
  let next := mutation.(im_change).(ic_next) in
  (∀ r, next.(i_applied_revision) = Some r → r ≤ I64_MAX) ∧
  ∃ t', execute constraints (write_instance_row timestamptz tenant_id t next
          (is_none mutation.(im_change).(ic_expected_revision)) next.(i_transition_revision)
          next.(i_applied_revision)) = Ok t' ∧
    is_ok (append_runtime_event uuid_parse_str timestamptz constraints tenant_id
             mutation.(im_event) t') = true.

(** No record of the tenant changed. *)
Definition unchanged {A} (t : Tables) (x : result A RepositoryError) (t' : Tables) : Prop :=
  tables_wf t' ∧ (∀ m, pg_desired_of t' m = pg_desired_of t m) ∧
  (∀ i m, pg_instance_of t' i m = pg_instance_of t i m).

(** Every module whose row asks for it and whose service is constructed has
    its dependencies asked for and constructed. *)
Definition dependencies_desired (cat : ModuleCatalog) (t : Tables) : Prop :=
  ∀ m d dep, pg_desired_of t m = Some d →
    effective_enabled cat m (is_enabled d.(d_mode)) = true →
    dep ∈ (spec cat m).(dependencies) →
    ∃ d', pg_desired_of t dep = Some d' ∧
      effective_enabled cat dep (is_enabled d'.(d_mode)) = true.
End projections.

Definition postgres_repository uuid_parse_str uuid_to_string timestamptz constraints
    tenant_id : ModuleStateRepository Tables RepositoryError := {|
  repo_read_desired := read_desired uuid_to_string tenant_id;
  repo_read_all_desired := read_all_desired uuid_to_string tenant_id;
  repo_read_reconcile_state := read_reconcile_state uuid_to_string tenant_id;
  repo_cas_desired :=
    compare_and_set_desired uuid_parse_str uuid_to_string timestamptz constraints tenant_id;
  repo_read_instance := read_instance tenant_id;
  repo_page_events t := page_events uuid_to_string tenant_id t t;
  repo_cas_instance :=
    compare_and_set_instance uuid_parse_str timestamptz constraints tenant_id;
  repo_record_observation :=
    record_instance_observation uuid_parse_str timestamptz constraints tenant_id;
  repo_validate_revision := validate_revision tenant_id;
|}.

(** ** An example deployment: SCIM security events depend on SCIM *)

Definition example_uuid_parse_str (s : string) : result Z string :=
  Ok (Z.of_nat (String.length s)).
Definition example_uuid_to_string (u : Z) : string := "".

Definition example_catalog : ModuleCatalog :=
  match with_dependencies (fixed (Build_CatalogDurations 1 1 1 1 1 1 1))
          ScimSecurityEvents [Scim] with
  | Some (Ok c) => c
  | _ => fixed (Build_CatalogDurations 1 1 1 1 1 1 1)
  end.

Definition example_row (m : ModuleId) (mode : DesiredMode) : DesiredStateRow :=
  {| dr_module_id := audit.module_id m; dr_desired_mode := audit.desired_mode mode;
     dr_revision := 1; dr_actor_id := None; dr_reason := None; dr_updated_at := 0 |}.

Definition example_tables : Tables :=
  {| desired_states := list_to_map
       ((fun m => ((7, audit.module_id m), example_row m
          (if decide (m = Scim) then DesiredMode_Enabled else DesiredMode_Disabled)))
        <$> ModuleId_ALL);
     instance_states := ∅; state_events := [] |}.

Definition example_request (m : ModuleId) (mode : DesiredMode) : desired_request :=
  {| req_registry := {| catalog := example_catalog; instance_id := "a" |};
     req_module := m; req_mode := mode; req_expected := Some 1;
     req_actor := None; req_reason := None; req_at := 5 |}.

(** One administrator enables SCIM security events while another disables SCIM. *)
Definition example_requests : list desired_request :=
  [example_request ScimSecurityEvents DesiredMode_Enabled;
   example_request Scim DesiredMode_Disabled].

Definition example_run :=
  @pool_run _ _ _ (@repo_handle _ _ (postgres_repository example_uuid_parse_str
    example_uuid_to_string (fun t => t) (fun _ => Ok tt) 7)
    {| revision := 1; accepting := {[Scim]}; draining := ∅ |} "x")
    [0; 0; 0; 1; 1; 1; 0; 1]%nat (serve <$> example_requests, example_tables).

Definition example_event : ModuleEventRecord :=
  desired_event "x" {| d_module_id := Scim; d_mode := DesiredMode_Enabled; d_revision := 2;
    d_actor_id := None; d_reason := None; d_updated_at := 5 |} HistoricalDesiredMode_Disabled 2 None.

Definition example_appended : result Tables RepositoryError :=
  append_runtime_event example_uuid_parse_str (fun t => t) (fun _ => Ok tt) 7 example_event
    {| desired_states := ∅; instance_states := ∅; state_events := [] |}.

(** ** Column texts *)

Lemma parse_module_id_text m : parse_module_id (audit.module_id m) = Ok m.
Proof. by destruct m. Qed.

Lemma parse_desired_mode_text m : parse_desired_mode (audit.desired_mode m) = Ok m.
Proof. by destruct m. Qed.

Lemma parse_actual_state_text s : parse_actual_state (audit.actual_state s) = Ok s.
Proof. by destruct s. Qed.

Lemma parse_event_type_text t : parse_event_type (audit.event_type t) = Ok t.
Proof. by destruct t. Qed.

Lemma parse_historical_text m :
  parse_historical_desired_mode (audit.historical_desired_mode m) = Ok m.
Proof. by destruct m. Qed.

#[export] Instance module_id_inj : Inj (=) (=) audit.module_id.
Proof. intros a b H. pose proof (parse_module_id_text a). rewrite H, parse_module_id_text in *. congruence. Qed.

Lemma parse_revision_ok r : 0 ≤ r → parse_revision r = Ok r.
Proof. intros ?. unfold parse_revision, u64_try_from_i64. by rewrite (proj2 (Z.leb_le 0 r)). Qed.

Lemma revision_ok r : r ≤ I64_MAX → audit.revision r = Ok r.
Proof. intros ?. unfold audit.revision, i64_try_from_u64. by rewrite (proj2 (Z.leb_le r _)). Qed.

Lemma revision_Ok r z : audit.revision r = Ok z → z = r ∧ r ≤ I64_MAX.
Proof.
  unfold audit.revision, i64_try_from_u64. destruct (r <=? I64_MAX) eqn:H; intros; simplify_eq/=.
  by boolify.
Qed.

(** The column texts are a bijection with the values: each parser accepts
    exactly the texts its printer writes and gives the value back. *)
Theorem column_texts_roundtrip :
  (∀ v m, parse_module_id v = Ok m ↔ v = audit.module_id m) ∧
  (∀ v m, parse_desired_mode v = Ok m ↔ v = audit.desired_mode m) ∧
  (∀ v m, parse_historical_desired_mode v = Ok m ↔ v = audit.historical_desired_mode m) ∧
  (∀ v s, parse_actual_state v = Ok s ↔ v = audit.actual_state s) ∧
  (∀ v t, parse_event_type v = Ok t ↔ v = audit.event_type t).
Proof.
  split_and!; intros v x; split; intros H;
    solve [ subst v; by destruct x
          | revert H; unfold parse_module_id, parse_desired_mode, parse_historical_desired_mode,
              parse_actual_state, parse_event_type; repeat case_decide; intros; by simplify_eq ].
Qed.

(** ** Rows *)

Section facts.
Context (uuid_parse_str : string → result Z string) (uuid_to_string : Z → string).
Context (timestamptz : Z → Z) (constraints : Tables → result unit string).
Context (tenant_id : Z).
Notation desired_of_ := (pg_desired_of uuid_to_string tenant_id).
Notation instance_of_ := (pg_instance_of tenant_id).
Notation unchanged := (unchanged uuid_to_string tenant_id).
Notation pg_accepts := (pg_accepts uuid_parse_str timestamptz constraints tenant_id).
Notation append := (append_runtime_event uuid_parse_str timestamptz constraints tenant_id).

Lemma desired_from_row_ok key row :
  desired_row_wf key row → ∃ d, desired_from_row uuid_to_string row = Ok d ∧
    key = audit.module_id d.(d_module_id) ∧ d.(d_revision) = row.(dr_revision) ∧
    row.(dr_desired_mode) = audit.desired_mode d.(d_mode).
Proof.
  intros (m & mode & -> & Hm & Hmode & Hr). unfold desired_from_row.
  rewrite Hm, parse_module_id_text, Hmode, parse_desired_mode_text, parse_revision_ok by lia.
  by eexists.
Qed.

Lemma instance_from_row_ok instance key row :
  instance_row_wf instance key row → ∃ r, instance_from_row row = Ok r ∧
    key = audit.module_id r.(i_module_id) ∧ r.(i_instance_id) = instance ∧
    r.(i_transition_revision) = row.(ir_transition_revision).
Proof.
  intros (m & st & -> & Hm & Hi & Hs & Hr & Ha). unfold instance_from_row.
  rewrite Hm, parse_module_id_text, Hs, parse_actual_state_text, parse_revision_ok by lia.
  destruct (ir_applied_revision row) as [a|]; simpl; [|by eexists].
  rewrite parse_revision_ok by (specialize (Ha a eq_refl); lia). by eexists.
Qed.

Lemma pg_desired_Some t m d :
  tables_wf t → desired_of_ t m = Some d → d.(d_module_id) = m ∧
  ∃ row, t.(desired_states) !! (tenant_id, audit.module_id m) = Some row ∧
    desired_from_row uuid_to_string row = Ok d ∧ d.(d_revision) = row.(dr_revision).
Proof.
  intros Hwf. unfold pg_desired_of. destruct (_ !! _) as [row|] eqn:Hrow; [|done].
  destruct (desired_from_row_ok _ _ (wf_desired _ Hwf _ _ _ Hrow)) as (d' & Hd' & Hk & Hr & _).
  rewrite Hd'. intros [= ->]. apply (inj _) in Hk as ->. eauto.
Qed.

Lemma pg_desired_row t m row :
  tables_wf t → t.(desired_states) !! (tenant_id, audit.module_id m) = Some row →
  ∃ d, desired_of_ t m = Some d ∧ desired_from_row uuid_to_string row = Ok d ∧
    d.(d_revision) = row.(dr_revision) ∧ 0 ≤ row.(dr_revision) ≤ I64_MAX.
Proof.
  intros Hwf Hrow. unfold pg_desired_of. rewrite Hrow.
  pose proof (wf_desired _ Hwf _ _ _ Hrow) as Hw.
  destruct (desired_from_row_ok _ _ Hw) as (d & Hd & _ & Hr & _). rewrite Hd.
  destruct Hw as (? & ? & _ & _ & _ & ?). eauto.
Qed.

Lemma elem_of_tenant_rows t row :
  row ∈ tenant_rows tenant_id t ↔ ∃ key, t.(desired_states) !! (tenant_id, key) = Some row.
Proof.
  unfold tenant_rows. rewrite list_elem_of_fmap. split.
  - intros ([[tenant key] row'] & -> & [-> Hin]%list_elem_of_filter).
    apply elem_of_map_to_list in Hin. eauto.
  - intros [key Hk]. exists ((tenant_id, key), row). split; [done|].
    apply list_elem_of_filter. by rewrite elem_of_map_to_list.
Qed.

Lemma tenant_row_key t row :
  tables_wf t → row ∈ tenant_rows tenant_id t →
  t.(desired_states) !! (tenant_id, row.(dr_module_id)) = Some row ∧
  desired_row_wf row.(dr_module_id) row.
Proof.
  intros Hwf [key Hk]%elem_of_tenant_rows. pose proof (wf_desired _ Hwf _ _ _ Hk) as Hw.
  destruct Hw as (m & mode & Hkey & Hm & Hrest). rewrite Hm. split; [done|].
  exists m, mode. naive_solver.
Qed.

(** Finding a module's row among any of the tenant's rows that include it. *)
Lemma find_row_lookup t rows m :
  tables_wf t → (∀ row, row ∈ rows → row ∈ tenant_rows tenant_id t) →
  (∀ row, t.(desired_states) !! (tenant_id, audit.module_id m) = Some row → row ∈ rows) →
  find_row rows m = t.(desired_states) !! (tenant_id, audit.module_id m).
Proof.
  intros Hwf Hsub Hall. unfold find_row. destruct (_ !! (_, _)) as [row|] eqn:Hrow.
  - apply head_filter_unique; [by auto| |].
    + destruct (wf_desired _ Hwf _ _ _ Hrow) as (? & ? & _ & ? & _). done.
    + intros y Hy Hm. apply Hsub in Hy. apply tenant_row_key in Hy as [Hy _]; [|done].
      rewrite Hm, Hrow in Hy. by simplify_eq.
  - apply head_filter_none. intros y Hy Hm. apply Hsub, tenant_row_key in Hy as [Hy _]; [|done].
    rewrite Hm, Hrow in Hy. done.
Qed.

Lemma find_locked_row t target required m :
  tables_wf t → (m = target ∨ m ∈ g_module_id <$> required) →
  find_row (locked_rows tenant_id t target required) m
    = t.(desired_states) !! (tenant_id, audit.module_id m).
Proof.
  intros Hwf Hm. apply find_row_lookup; [done| |].
  - by intros row [_ ?]%list_elem_of_filter.
  - intros row Hrow. apply list_elem_of_filter. split; [|apply elem_of_tenant_rows; eauto].
    destruct (wf_desired _ Hwf _ _ _ Hrow) as (? & ? & _ & -> & _).
    destruct Hm as [->|Hm]; [by left|right]. apply list_elem_of_fmap in Hm as (g & -> & Hg).
    apply list_elem_of_fmap. eauto.
Qed.

Lemma collect_ok {A B E} (f : A → result B E) (g : A → B) l :
  (∀ a, a ∈ l → f a = Ok (g a)) → collect (f <$> l) = Ok (g <$> l).
Proof.
  induction l as [|a l IH]; intros H; [done|].
  rewrite !fmap_cons; cbn [collect]. rewrite (H a) by set_solver. rewrite IH by set_solver. done.
Qed.

Lemma pg_read_desired t m :
  tables_wf t → read_desired uuid_to_string tenant_id t m = Ok (desired_of_ t m).
Proof.
  intros Hwf. unfold read_desired. destruct (_ !! _) as [row|] eqn:Hrow; simpl.
  - destruct (pg_desired_row t m row Hwf Hrow) as (d & -> & -> & _). done.
  - unfold pg_desired_of. by rewrite Hrow.
Qed.

Lemma pg_read_instance t i m :
  tables_wf t → load_instance tenant_id t i m = Ok (instance_of_ t i m).
Proof.
  intros Hwf. unfold load_instance, pg_instance_of. destruct (_ !! _) as [row|] eqn:Hrow; [|done].
  simpl. by destruct (instance_from_row_ok _ _ _ (wf_instance _ Hwf _ _ _ _ Hrow)) as (r & -> & _).
Qed.

Lemma pg_read_all t :
  tables_wf t → ∃ l, read_all_desired uuid_to_string tenant_id t = Ok l ∧
    ∀ m, find_desired l m = desired_of_ t m.
Proof.
  intros Hwf. set (dummy := Build_DesiredStateRecord Scim DesiredMode_Enabled 0 None None 0).
  set (g row := unwrap_or (ok (desired_from_row uuid_to_string row)) dummy).
  assert (Hg : ∀ row, row ∈ tenant_rows tenant_id t →
    desired_from_row uuid_to_string row = Ok (g row) ∧
    row.(dr_module_id) = audit.module_id (g row).(d_module_id)).
  { intros row [_ Hw]%tenant_row_key; [|done]. unfold g.
    by destruct (desired_from_row_ok _ _ Hw) as (d & -> & ? & _). }
  exists (g <$> tenant_rows tenant_id t). split; [by apply collect_ok; naive_solver|].
  intros m. unfold find_desired, pg_desired_of. destruct (_ !! _) as [row|] eqn:Hrow.
  - assert (Hin : row ∈ tenant_rows tenant_id t) by (apply elem_of_tenant_rows; eauto).
    destruct (Hg row Hin) as [-> Hid]. simpl.
    destruct (wf_desired _ Hwf _ _ _ Hrow) as (? & ? & _ & Hm & _).
    apply head_filter_unique; [by apply list_elem_of_fmap_2|rewrite Hm in Hid; by apply (inj _) in Hid|].
    intros d (row' & -> & Hin')%list_elem_of_fmap Hd. f_equal.
    apply tenant_row_key in Hin' as Hk; [|done]. destruct Hk as [Hk _].
    rewrite (proj2 (Hg row' Hin')), Hd, Hrow in Hk. by simplify_eq.
  - apply head_filter_none. intros d (row & -> & Hin)%list_elem_of_fmap Hd.
    apply tenant_row_key in Hin as Hk; [|done]. destruct Hk as [Hk _].
    by rewrite (proj2 (Hg row Hin)), Hd, Hrow in Hk.
Qed.

Lemma pg_validate t m r :
  tables_wf t → validate_revision tenant_id t m r
    = Ok (bool_decide (d_revision <$> desired_of_ t m = Some r)).
Proof.
  intros Hwf. unfold validate_revision. destruct (_ !! _) as [row|] eqn:Hrow; simpl.
  - destruct (pg_desired_row t m row Hwf Hrow) as (d & -> & _ & Hrev & ?).
    rewrite parse_revision_ok by lia. simpl. by rewrite Hrev.
  - unfold pg_desired_of. by rewrite Hrow.
Qed.

Lemma append_tables e t t' :
  append e t = Ok t' →
  t'.(desired_states) = t.(desired_states) ∧ t'.(instance_states) = t.(instance_states).
Proof.
  unfold append_runtime_event, execute. destruct (map_err _ _); [|done].
  destruct (map_err _ (transpose _)); [|done]. destruct (audit.revision _); [|done].
  destruct (constraints _); intros; by simplify_eq.
Qed.

Lemma append_wf e t t' : append e t = Ok t' → tables_wf t → tables_wf t'.
Proof.
  intros [Hd Hi]%append_tables [Hwd Hwi]. split; [rewrite Hd|rewrite Hi]; eauto.
Qed.

Lemma same_desired t t' m :
  t'.(desired_states) = t.(desired_states) → desired_of_ t' m = desired_of_ t m.
Proof. unfold pg_desired_of. by intros ->. Qed.

Lemma same_instances t t' i m :
  t'.(instance_states) = t.(instance_states) → instance_of_ t' i m = instance_of_ t i m.
Proof. unfold pg_instance_of. by intros ->. Qed.

Lemma guards_match_ok t target required guards :
  tables_wf t → guards ⊆ required →
  ∃ b, guards_match (locked_rows tenant_id t target required) guards = Ok b ∧
    (b = true → ∀ g, g ∈ guards →
       d_revision <$> desired_of_ t g.(g_module_id) = g.(g_expected_revision)).
Proof.
  intros Hwf. induction guards as [|g guards IH]; intros Hsub; simpl; [exists true; set_solver|].
  destruct IH as (b & Hb & Hspec); [set_solver|].
  rewrite find_locked_row by (done || right; apply list_elem_of_fmap_2; set_solver).
  assert (Htr : transpose ((fun row => parse_revision row.(dr_revision)) <$>
      t.(desired_states) !! (tenant_id, audit.module_id g.(g_module_id)))
    = Ok (d_revision <$> desired_of_ t g.(g_module_id))).
  { destruct (_ !! _) as [row|] eqn:Hrow; simpl.
    - destruct (pg_desired_row t _ row Hwf Hrow) as (d & -> & _ & Hrev & ?).
      rewrite parse_revision_ok by lia. simpl. by rewrite Hrev.
    - unfold pg_desired_of. by rewrite Hrow. }
  rewrite Htr. destruct (decide _) as [Heq|]; [|by exists false].
  exists b. split; [done|]. intros ? g' [->|]%elem_of_cons; naive_solver.
Qed.

Lemma update_desired_wf t next actor :
  tables_wf t → 0 ≤ next.(d_revision) ≤ I64_MAX →
  tables_wf (update_desired_row timestamptz tenant_id t next next.(d_revision) actor).
Proof.
  intros [Hwd Hwi] Hr. split; [|done]. intros tenant key row; simpl.
  rewrite lookup_alter. case_decide as Hk; [|by apply Hwd].
  destruct (_ !! (tenant_id, _)) as [old|] eqn:Hold; [|done]. intros [= <-]. simplify_eq.
  destruct (Hwd _ _ _ Hold) as (m & mode & Hm & Hid & _). apply (inj _) in Hm as <-.
  by exists next.(d_module_id), next.(d_mode).
Qed.

Lemma update_desired_of t next actor cur :
  tables_wf t → 0 ≤ next.(d_revision) ≤ I64_MAX →
  desired_of_ t next.(d_module_id) = Some cur →
  ∃ stored, same_intent stored next ∧ ∀ m,
    desired_of_ (update_desired_row timestamptz tenant_id t next next.(d_revision) actor) m
      = if decide (m = next.(d_module_id)) then Some stored else desired_of_ t m.
Proof.
  intros Hwf Hr Hcur. pose proof (update_desired_wf t next actor Hwf Hr) as Hwf'.
  destruct (pg_desired_Some t _ cur Hwf Hcur) as (_ & row & Hrow & _).
  set (t' := update_desired_row _ _ _ _ _ _) in *.
  assert (Hrow' : ∃ row', t'.(desired_states) !! (tenant_id, audit.module_id next.(d_module_id))
      = Some row' ∧ row'.(dr_revision) = next.(d_revision) ∧
        row'.(dr_desired_mode) = audit.desired_mode next.(d_mode)).
  { subst t'. simpl. rewrite lookup_alter_eq, Hrow. by eexists. }
  destruct Hrow' as (row' & Hrow' & Hrev & Hmode).
  pose proof (wf_desired _ Hwf' _ _ _ Hrow') as Hw.
  destruct (desired_from_row_ok _ _ Hw) as (stored & Hst & Hid & Hrev' & Hmode').
  exists stored. split.
  - apply (inj _) in Hid. split_and!; [done| |congruence].
    rewrite Hmode in Hmode'. by destruct (d_mode next), (d_mode stored).
  - intros m. destruct (decide _) as [->|Hne]; unfold pg_desired_of; [by rewrite Hrow', Hst|].
    subst t'. simpl. rewrite lookup_alter_ne; [done|]. intros [= Heq]. by apply (inj _) in Heq.
Qed.

Lemma pg_cas_desired t id change guards x t' :
  tables_wf t →
  compare_and_set_desired uuid_parse_str uuid_to_string timestamptz constraints tenant_id
    id change guards t = (x, t') →
  tables_wf t' ∧ (∀ i m, instance_of_ t' i m = instance_of_ t i m) ∧
  cas_desired_spec (desired_of_ t) change guards x (desired_of_ t').
Proof.
  intros Hwf. unfold compare_and_set_desired.
  assert (Herr : ∀ e, tables_wf t ∧ (∀ i m, instance_of_ t i m = instance_of_ t i m) ∧
    cas_desired_spec (desired_of_ t) change guards (Err e : result _ RepositoryError) (desired_of_ t)).
  { intros e. split_and!; [done..|]. by left. }
  destruct (next_desired_revision _) as [expected_next|e] eqn:Hnext; [|intros; by simplify_eq].
  set (next := change.(c_next)). unfold transaction.
  destruct (guards_match_ok t next.(d_module_id) guards guards Hwf) as (b & -> & Hb); [done|].
  rewrite find_locked_row by auto. destruct (_ !! _) as [row|] eqn:Hrow; simpl; [|intros; by simplify_eq].
  destruct (pg_desired_row t _ row Hwf Hrow) as (cur & Hcur & -> & Hrev & Hrange).
  destruct (_ || _) eqn:Hstale.
  { intros [= <- <-]. split_and!; [done..|]. left. split; [done|exact (eq_sym Hcur)]. }
  boolify. subst b. apply dec_stable in H.
  assert (Hhold : revisions_hold (desired_of_ t) change guards cur) by (split_and!; auto).
  destruct (decide _) as [Hmode|Hmode].
  { destruct (append _ _) as [t1|e] eqn:Ha; intros [= <- <-]; [|by apply Herr].
    apply append_tables in Ha as Ht. destruct Ht as [Hd Hi].
    split_and!; [by eapply append_wf|intros; by apply same_instances|].
    left. split; [intros; by apply same_desired|done]. }
  destruct (negb _) eqn:Hadv; [intros; by simplify_eq|]. boolify.
  destruct (parse_optional_uuid _ _ _) as [actor|]; [|intros; by simplify_eq].
  destruct (audit.revision _) as [z|] eqn:Hz; [|intros; by simplify_eq].
  apply revision_Ok in Hz as [-> Hz]. unfold execute. destruct (constraints _); [|intros; by simplify_eq].
  destruct (append _ _) as [t1|e] eqn:Ha; intros [= <- <-]; [|by apply Herr].
  assert (Hplus : next.(d_revision) = cur.(d_revision) + 1).
  { unfold next_desired_revision in Hnext. rewrite <- H in Hnext.
    destruct (u64_checked_add _ _) eqn:Hu; simplify_eq/=.
    apply u64_checked_add_Some in Hu as [-> _]. done. }
  assert (Hr : 0 ≤ next.(d_revision) ≤ I64_MAX) by lia.
  apply append_tables in Ha as Ht. destruct Ht as [Hd Hi].
  split_and!.
  - eapply append_wf; [done|]. by apply update_desired_wf.
  - intros. by apply same_instances.
  - right. split; [done|].
    destruct (update_desired_of t next actor cur Hwf Hr Hcur) as (stored & Hst & Hof).
    exists cur, stored. split_and!; [done..|]. intros m. rewrite <- Hof. by apply same_desired.
Qed.

(** *** Instance states *)

Lemma applied_texts next z :
  transpose (audit.revision <$> next.(i_applied_revision)) = Ok z →
  z = next.(i_applied_revision) ∧ ∀ r, z = Some r → r ≤ I64_MAX.
Proof.
  destruct (i_applied_revision next) as [a|]; simpl; [|by intros; simplify_eq].
  destruct (audit.revision a) as [b|] eqn:Ha; intros; simplify_eq.
  apply revision_Ok in Ha as [-> ?]. naive_solver.
Qed.

Lemma write_instance_wf t next ins :
  tables_wf t → 0 ≤ next.(i_transition_revision) ≤ I64_MAX →
  (∀ r, next.(i_applied_revision) = Some r → 0 ≤ r ≤ I64_MAX) →
  tables_wf (write_instance_row timestamptz tenant_id t next ins
    next.(i_transition_revision) next.(i_applied_revision)).
Proof.
  intros [Hwd Hwi] Hr Ha. split; [done|]. intros tenant instance key row; simpl.
  set (new := Build_InstanceStateRow _ _ _ _ _ _ _ _).
  assert (Hnew : instance_row_wf next.(i_instance_id) (audit.module_id next.(i_module_id)) new)
    by by exists next.(i_module_id), next.(i_state).
  destruct ins.
  - rewrite lookup_insert. case_decide as Hk; [|by apply Hwi]. intros [= <-]. by simplify_eq.
  - rewrite lookup_alter. case_decide as Hk; [|by apply Hwi].
    destruct (_ !! (tenant_id, _, _)); intros; by simplify_eq/=.
Qed.

Lemma write_instance_of t next ins :
  tables_wf t → 0 ≤ next.(i_transition_revision) ≤ I64_MAX →
  (∀ r, next.(i_applied_revision) = Some r → 0 ≤ r ≤ I64_MAX) →
  (ins = false → is_Some (instance_of_ t next.(i_instance_id) next.(i_module_id))) →
  ∃ stored, same_progress stored next ∧ ∀ i m,
    instance_of_ (write_instance_row timestamptz tenant_id t next ins
      next.(i_transition_revision) next.(i_applied_revision)) i m
    = if decide (i = next.(i_instance_id) ∧ m = next.(i_module_id)) then Some stored
      else instance_of_ t i m.
Proof.
  intros Hwf Hr Ha Hold. unfold pg_instance_of. simpl.
  set (new := Build_InstanceStateRow _ _ _ _ _ _ _ _).
  set (key := (tenant_id, next.(i_instance_id), audit.module_id next.(i_module_id))).
  assert (Hnew : ∃ stored, instance_from_row new = Ok stored ∧ same_progress stored next).
  { unfold instance_from_row, new. simpl.
    rewrite parse_module_id_text, parse_actual_state_text, parse_revision_ok by lia.
    destruct (i_applied_revision next) as [a|] eqn:Hap; simpl.
    - rewrite parse_revision_ok by (specialize (Ha a eq_refl); lia).
      eexists; split; [done|]. by split_and!.
    - eexists; split; [done|]. by split_and!. }
  destruct Hnew as (stored & Hst & Hsame). exists stored. split; [done|]. intros i m.
  assert (Hlook : (if ins then <[key := new]> t.(instance_states)
                   else alter (fun _ => new) key t.(instance_states)) !! key = Some new).
  { destruct ins; [by rewrite lookup_insert_eq|]. rewrite lookup_alter_eq.
    destruct (Hold eq_refl) as [r Hr']. unfold pg_instance_of in Hr'. fold key in Hr'.
    by destruct (_ !! key). }
  destruct (decide _) as [[-> ->]|Hne]; fold key; [by rewrite Hlook, Hst|].
  assert (Hk : key ≠ (tenant_id, i, audit.module_id m)).
  { intros [= <- Hm]. apply (inj _) in Hm. naive_solver. }
  by destruct ins; [rewrite lookup_insert_ne by done|rewrite lookup_alter_ne by done].
Qed.

Lemma durable_revision t m r :
  tables_wf t →
  dr_revision <$> t.(desired_states) !! (tenant_id, audit.module_id m) = Some r ↔
  d_revision <$> desired_of_ t m = Some r.
Proof.
  intros Hwf. destruct (_ !! _) as [row|] eqn:Hrow; simpl.
  - destruct (pg_desired_row t m row Hwf Hrow) as (d & -> & _ & Hrev & _). simpl. by rewrite Hrev.
  - unfold pg_desired_of. by rewrite Hrow.
Qed.

Lemma desired_revision_range t m r :
  tables_wf t → d_revision <$> desired_of_ t m = Some r → 0 ≤ r ≤ I64_MAX.
Proof.
  intros Hwf. destruct (desired_of_ t m) as [d|] eqn:Hd; [|done]. intros [= <-].
  destruct (pg_desired_Some t m d Hwf Hd) as (_ & row & Hrow & _ & ->).
  by destruct (wf_desired _ Hwf _ _ _ Hrow) as (? & ? & _ & _ & _ & ?).
Qed.

Lemma append_unchanged {A} e t t' (x : result A RepositoryError) :
  tables_wf t → append e t = Ok t' → unchanged t x t'.
Proof.
  intros Hwf Ha. apply append_tables in Ha as Ht. destruct Ht as [Hd Hi].
  split_and!; [by eapply append_wf|intros; by apply same_desired|intros; by apply same_instances].
Qed.

Lemma set_instance_spec t change event outcome t' :
  tables_wf t → (∀ r, change.(ic_next).(i_applied_revision) = Some r → 0 ≤ r) →
  set_instance uuid_parse_str timestamptz constraints tenant_id change event t = Ok (outcome, t') →
  tables_wf t' ∧ (∀ m, desired_of_ t' m = desired_of_ t m) ∧
  cas_instance_spec (desired_of_ t) (instance_of_ t) change
    (Ok outcome : result _ RepositoryError) (instance_of_ t').
Proof.
  intros Hwf Happ. unfold set_instance. set (next := change.(ic_next)).
  destruct (audit.revision _) as [z|] eqn:Hz; [|done]. apply revision_Ok in Hz as [-> Hz].
  rewrite pg_read_instance by done.
  assert (Hstale : ∀ cur, (let? tables := append (discarded_event event) t in
      Ok (Stale cur, tables)) = Ok (outcome, t') →
    tables_wf t' ∧ (∀ m, desired_of_ t' m = desired_of_ t m) ∧
    cas_instance_spec (desired_of_ t) (instance_of_ t) change
      (Ok outcome : result _ RepositoryError) (instance_of_ t')).
  { intros cur. destruct (append _ _) as [t1|] eqn:Ha; intros; simplify_eq.
    destruct (append_unchanged (A := unit) _ _ _ (Ok tt) Hwf Ha) as (? & ? & ?).
    split_and!; [done..|]. by left. }
  destruct (bool_decide (_ ≠ Some next.(i_transition_revision))) eqn:Hd; [by apply Hstale|].
  destruct (bool_decide (_ ≠ change.(ic_expected_revision))) eqn:He; [by apply Hstale|]. clear Hstale.
  apply bool_decide_eq_false, dec_stable in Hd, He. apply durable_revision in Hd; [|done].
  destruct (is_some_and _ _) eqn:Hmono; [done|].
  destruct (transpose _) as [ap|] eqn:Hap; [|done]. apply applied_texts in Hap as [-> Hap].
  unfold execute. destruct (constraints _); [|done].
  destruct (append event _) as [t1|] eqn:Ha; intros; simplify_eq.
  pose proof (desired_revision_range _ _ _ Hwf Hd) as Hr.
  assert (Hrange : ∀ r, next.(i_applied_revision) = Some r → 0 ≤ r ≤ I64_MAX)
    by (intros r Hr'; split; [by apply Happ|by apply Hap]).
  destruct (append_unchanged (A := unit) _ _ _ (Ok tt)
    (write_instance_wf t next _ Hwf Hr Hrange) Ha) as (Hwf' & Hdes & Hins).
  split_and!; [done|intros m; by rewrite Hdes|]. right. split; [done|]. split.
  - split_and!; [done..|]. intros r Hx. fold next. rewrite Hx in Hmono. simpl in Hmono. by boolify.
  - edestruct (write_instance_of t next) as (stored & Hsame & Hof); [done..| |exists stored; split;
      [done|]; intros i m; rewrite Hins; apply Hof].
    intros Hins0. fold next in He. destruct (instance_of_ t _ _); [by eexists|].
    by rewrite <- He in Hins0.
Qed.

Lemma pg_cas_instance t mutation x t' :
  tables_wf t → applied_in_range mutation →
  compare_and_set_instance uuid_parse_str timestamptz constraints tenant_id mutation t = (x, t') →
  tables_wf t' ∧ (∀ m, desired_of_ t' m = desired_of_ t m) ∧
  cas_instance_spec (desired_of_ t) (instance_of_ t) mutation.(im_change) x (instance_of_ t').
Proof.
  intros Hwf Happ. unfold compare_and_set_instance, transaction.
  destruct (validate_instance_mutation _); [|intros [= <- <-]; split_and!; [done..|by left]].
  destruct (set_instance _ _ _ _ _ _ _) as [[o t1]|] eqn:Hs; intros [= <- <-];
    [by eapply set_instance_spec|split_and!; [done..|by left]].
Qed.

Lemma pg_cas_instance_accepts t mutation :
  tables_wf t → mutation_wf mutation → pg_accepts t mutation →
  transition_holds (desired_of_ t) (instance_of_ t) mutation.(im_change) →
  (compare_and_set_instance uuid_parse_str timestamptz constraints tenant_id mutation t).1
    = Ok (Applied mutation.(im_change).(ic_next)).
Proof.
  intros Hwf (Htype & Hid & Hinst & Hrev & Hafter) (Hap & t' & Hex & Happ) (Hd & He & Hmono).
  unfold compare_and_set_instance, validate_instance_mutation, transaction, set_instance.
  assert (is_transition_event mutation.(im_event).(ev_event_type) = true) as ->.
  { by repeat (apply elem_of_cons in Htype as [->|Htype]; [done|]); apply not_elem_of_nil in Htype. }
  rewrite !bool_decide_eq_false_2 by tauto. simpl. set (next := ic_next _) in *.
  pose proof (desired_revision_range _ _ _ Hwf Hd) as Hr. rewrite revision_ok by lia.
  rewrite (proj2 (durable_revision _ _ _ Hwf) Hd), bool_decide_eq_false_2 by tauto.
  rewrite pg_read_instance, bool_decide_eq_false_2 by tauto.
  destruct (is_some_and _ _) eqn:Hback.
  { destruct (ic_expected_revision _) as [r|]; [|done]. specialize (Hmono r eq_refl).
    simpl in Hback. boolify. lia. }
  assert (transpose (audit.revision <$> next.(i_applied_revision)) = Ok next.(i_applied_revision)) as ->.
  { destruct (i_applied_revision next); simpl; [|done]. by rewrite revision_ok by auto. }
  rewrite Hex. by destruct (append _ _).
Qed.

Lemma pg_observation t observation x t' :
  tables_wf t →
  record_instance_observation uuid_parse_str timestamptz constraints tenant_id observation t
    = (x, t') →
  unchanged t x t'.
Proof.
  intros Hwf. unfold record_instance_observation. destruct (_ || _); [by intros [= <- <-]|].
  destruct (append _ _) as [t1|] eqn:Ha; intros [= <- <-]; [|done]. by eapply append_unchanged.
Qed.

(** The repository implements the interface. *)
Definition postgres_laws : @RepositoryLaws Tables RepositoryError
    (postgres_repository uuid_parse_str uuid_to_string timestamptz constraints tenant_id).
Proof.
  refine (Build_RepositoryLaws _ _ _ tables_wf pg_accepts desired_of_ instance_of_
    _ _ _ _ _ _ _ _ _).
  - intros t m d Hwf Hd. by apply (pg_desired_Some t m d Hwf Hd).
  - apply pg_read_desired.
  - apply pg_read_all.
  - apply pg_read_instance.
  - apply pg_validate.
  - intros t id change guards x t' Hwf Hc. exact (pg_cas_desired _ _ _ _ _ _ Hwf Hc).
  - intros t mutation x t' Hwf Ha Hc. exact (pg_cas_instance _ _ _ _ Hwf Ha Hc).
  - apply pg_cas_instance_accepts.
  - intros t observation x t' Hwf Hc. exact (pg_observation _ _ _ _ Hwf Hc).
Defined.
End facts.

Lemma parse_event_state_text event o :
  event_kinds_ok event → (o = event.(ev_before) ∨ o = event.(ev_after)) →
  transpose (parse_event_state event.(ev_event_type) <$> (audit.event_state <$> o)) = Ok o.
Proof.
  intros Hk Ho. destruct o as [s|]; [|done]. simpl.
  assert (H : match s with EventDesired _ => event.(ev_event_type) = DesiredStateChanged
              | EventActual _ => event.(ev_event_type) ≠ DesiredStateChanged end)
    by (apply Hk; naive_solver).
  unfold parse_event_state. destruct s as [mode|state]; simpl.
  - rewrite decide_True by done. by rewrite parse_historical_text.
  - rewrite decide_False by done. by rewrite parse_actual_state_text.
Qed.

(** C35: the audit trail is readable: an appended event is the last of its
    tenant's rows, reading the row gives the event back with its identifiers in
    canonical form, and no other row changes. *)
Theorem appended_event_reads_back uuid_parse_str uuid_to_string timestamptz constraints
    tenant_id event t t' :
  event_kinds_ok event → 0 ≤ event.(ev_revision) →
  append_runtime_event uuid_parse_str timestamptz constraints tenant_id event t = Ok t' →
  ∃ row id actor,
    t' = {| desired_states := t.(desired_states); instance_states := t.(instance_states);
            state_events := t.(state_events) ++ [row] |} ∧
    row.(er_tenant_id) = tenant_id ∧
    uuid_parse_str event.(ev_event_id) = Ok id ∧
    transpose (uuid_parse_str <$> event.(ev_actor_id)) = Ok actor ∧
    event_from_row uuid_to_string row = Ok
      (normalized timestamptz (uuid_to_string id) (uuid_to_string <$> actor) event).
Proof.
  intros Hk Hr. unfold append_runtime_event.
  destruct (uuid_parse_str (ev_event_id event)) as [id|]; [|done]; simpl.
  destruct (transpose (uuid_parse_str <$> _)) as [actor|]; [|done]; simpl.
  destruct (audit.revision _) as [z|] eqn:Hz; [|done]. apply revision_Ok in Hz as [-> _].
  unfold execute. destruct (constraints _); [|done]. intros [= <-].
  eexists _, id, actor. split_and!; [done..|]. unfold event_from_row. simpl.
  rewrite parse_event_type_text, parse_module_id_text, parse_revision_ok by done.
  rewrite !parse_event_state_text by auto. done.
Qed.

Lemma appended_event_reads_back_witness :
  ∃ row id actor, example_appended = Ok {| desired_states := ∅; instance_states := ∅;
      state_events := [] ++ [row] |} ∧
    row.(er_tenant_id) = 7 ∧ example_uuid_parse_str "x" = Ok id ∧ actor = None ∧
    event_from_row example_uuid_to_string row = Ok
      (normalized (fun t => t) (example_uuid_to_string id) (example_uuid_to_string <$> actor)
         example_event).
Proof.
  destruct (appended_event_reads_back example_uuid_parse_str example_uuid_to_string
    (fun t => t) (fun _ => Ok tt) 7 example_event
    {| desired_states := ∅; instance_states := ∅; state_events := [] |}
    (match example_appended with Ok t => t | Err _ => example_tables end))
    as (row & id & actor & Ht & ? & ? & Ha & ?).
  - intros s [Hs|Hs]; simpl in Hs; simplify_eq; done.
  - simpl. lia.
  - vm_compute. reflexivity.
  - exists row, id, actor. injection Ha as <-. split_and!; try assumption; [|reflexivity].
    refine (eq_trans _ (f_equal Ok Ht)). vm_compute. reflexivity.
Defined.

(** C11: however many administrators, in however many processes, change desired
    modes at once through [set_desired_mode], and whichever calls fail, the
    rows in the database stay well formed, every effectively enabled module
    keeps its dependencies effectively enabled, and a module's revision never
    goes back nor is reused for another mode. *)
Theorem concurrent_changes_keep_dependencies uuid_parse_str uuid_to_string timestamptz constraints
    tenant_id (cat : ModuleCatalog) (rs : list desired_request) (t : Tables) ts (t' : Tables) :
  catalog_wf cat → Forall (fun r => r.(req_registry).(catalog) = cat) rs →
  tables_wf t → dependencies_desired uuid_to_string tenant_id cat t →
  pool_steps (fun _ => @repo_step _ _ (postgres_repository uuid_parse_str uuid_to_string
    timestamptz constraints tenant_id)) (serve <$> rs, t) (ts, t') →
  tables_wf t' ∧ dependencies_desired uuid_to_string tenant_id cat t' ∧
  ∀ m d, pg_desired_of uuid_to_string tenant_id t m = Some d →
    ∃ d', pg_desired_of uuid_to_string tenant_id t' m = Some d' ∧
      d.(d_revision) ≤ d'.(d_revision) ∧
      (d.(d_revision) = d'.(d_revision) → d.(d_mode) = d'.(d_mode)).
Proof.
  intros Hcat Hrs Hwf Hdep Hs.
  destruct (@pool_serve _ _ _
    (postgres_laws uuid_parse_str uuid_to_string timestamptz constraints tenant_id)
    cat rs t ts t' Hcat Hrs Hwf) as (? & Hc & Ha); [|exact Hs|].
  - intros m dep (d & Hd & He) Hin. exact (Hdep m d dep Hd He Hin).
  - split_and!; [done| |exact (proj2 (Ha Hwf))].
    intros m d dep Hd He Hin. exact (Hc m dep (ex_intro _ d (conj Hd He)) Hin).
Qed.

Lemma example_catalog_wf : catalog_wf example_catalog.
Proof.
  assert (specs_wf example_catalog.(specs)) by (intros []; eexists; split; vm_compute; reflexivity).
  split; [done|]. apply validate_dependencies_Ok; [done|]. vm_compute. reflexivity.
Qed.

Lemma example_tables_wf : tables_wf example_tables.
Proof.
  split; [|done]. intros tenant key row. cbn [example_tables desired_states].
  intros (m & Heq & _)%elem_of_list_to_map_2%list_elem_of_fmap. simplify_eq.
  exists m. eexists. by split_and!.
Qed.

Lemma example_desired m :
  pg_desired_of example_uuid_to_string 7 example_tables m = Some
    {| d_module_id := m;
       d_mode := if decide (m = Scim) then DesiredMode_Enabled else DesiredMode_Disabled;
       d_revision := 1; d_actor_id := None; d_reason := None; d_updated_at := 0 |}.
Proof. destruct m; vm_compute; reflexivity. Qed.

Lemma concurrent_changes_keep_dependencies_witness :
  ∃ ts t', example_run = Some (ts, t') ∧
    dependencies_desired example_uuid_to_string 7 example_catalog t'.
Proof.
  assert (Hsome : is_some example_run = true) by (vm_compute; reflexivity).
  destruct example_run as [[ts t']|] eqn:Hrun; [|discriminate Hsome].
  exists ts, t'. split; [reflexivity|].
  apply (concurrent_changes_keep_dependencies example_uuid_parse_str example_uuid_to_string
    (fun t => t) (fun _ => Ok tt) 7 example_catalog example_requests example_tables ts t').
  - apply example_catalog_wf.
  - by repeat constructor.
  - apply example_tables_wf.
  - intros m d dep. rewrite example_desired. intros [= <-]. cbn [d_mode].
    destruct (decide (m = Scim)) as [->|]; [|discriminate]. intros _ Hd.
    vm_compute in Hd. discriminate Hd.
  - eapply pool_run_steps; [|exact Hrun]. intros _. apply repo_handle_step.
Defined.
