(* ===== verification/DeviceGrant.v ===== *)
(** * The device authorization grant

    Models [crates/authorization-server-core/src/device.rs]: the state of a
    device authorization, the request policy, the poll evaluation and the
    service operations, which are programs over the state-store and
    grant-repository ports, the clock, and the code generators.

    The retry loops are bounded by the code itself
    ([DEVICE_TRANSITION_MAX_ATTEMPTS]). *)
From stdpp Require Import base list strings.
From S2P Require Import Prelude Chrono Effects Json.

Local Open Scope rust_scope.

(** ** Data *)

Record DeviceAuthorizationPayload := {
  dp_client_id : string;
  dp_client_name : string;
  dp_scopes : list string;
  dp_resource_indicators : list string;
  dp_authorization_details : Value;
  dp_interval_seconds : Z;
  dp_issued_at : DateTime;
  dp_expires_at : DateTime;
}.

Record DeviceAuthorizationApproval := {
  da_user_id : Uuid;
  da_subject : string;
  da_auth_time : Z;
  da_amr : list string;
  da_oidc_sid : option string;
}.

Inductive DeviceAuthorizationState :=
| Pending (payload : DeviceAuthorizationPayload) (last_poll_at : option DateTime)
    (slow_down_count : Z)
| Approving (payload : DeviceAuthorizationPayload) (approval : DeviceAuthorizationApproval)
    (claim_id : Uuid) (grant_recorded : bool) (started_at : DateTime)
| Approved (payload : DeviceAuthorizationPayload) (approval : DeviceAuthorizationApproval)
    (approved_at : DateTime)
| Denied (payload : DeviceAuthorizationPayload) (denied_at : DateTime)
| Consumed (consumed_at : DateTime).

#[export] Instance DeviceAuthorizationPayload_eq_dec : EqDecision DeviceAuthorizationPayload.
Proof. solve_decision. Defined.
#[export] Instance DeviceAuthorizationApproval_eq_dec : EqDecision DeviceAuthorizationApproval.
Proof. solve_decision. Defined.
#[export] Instance DeviceAuthorizationState_eq_dec : EqDecision DeviceAuthorizationState.
Proof. solve_decision. Defined.

Definition device_authorization_payload (state : DeviceAuthorizationState)
    : option DeviceAuthorizationPayload :=
  match state with
  | Pending payload _ _ | Approving payload _ _ _ _ | Approved payload _ _ | Denied payload _ =>
      Some payload
  | Consumed _ => None
  end.

(** ** The request policy *)

Record DeviceAuthorizationRequestPolicy := {
  rp_enabled : bool;
  rp_client_active : bool;
  rp_client_supports_grant : bool;
  rp_client_id : string;
  rp_client_name : string;
  rp_requested_scopes : list string;
  rp_allowed_scopes : list string;
  rp_requested_resources : list string;
  rp_allowed_resources : list string;
  rp_default_resource : string;
  rp_interval_seconds : Z;
  rp_ttl_seconds : Z;
  rp_now : DateTime;
}.

Inductive DeviceAuthorizationRequestError :=
| RequestDisabled
| UnauthorizedClient
| InvalidScope
| InvalidTarget.

Definition all_in (items allowed : list string) : bool :=
  forallb (fun item => bool_decide (item ∈ allowed)) items.

(** [None] is the panic of [chrono::Duration::seconds]. *)
Definition device_authorization_request_payload (input : DeviceAuthorizationRequestPolicy)
    : option (result DeviceAuthorizationPayload DeviceAuthorizationRequestError) :=
  if negb input.(rp_enabled) then Some (Err RequestDisabled)
  else if negb input.(rp_client_active) || negb input.(rp_client_supports_grant) then
    Some (Err UnauthorizedClient)
  else if negb (all_in input.(rp_requested_scopes) input.(rp_allowed_scopes)) then
    Some (Err InvalidScope)
  else
  let resource_indicators :=
    match input.(rp_requested_resources) with
    | [] => [input.(rp_default_resource)]
    | resources => resources
    end in
  if negb (all_in resource_indicators input.(rp_allowed_resources)) then Some (Err InvalidTarget)
  else
  let ttl := unwrap_or (i64_try_from_u64 input.(rp_ttl_seconds)) (I64_MAX / 1000) in
  match duration_seconds ttl with
  | None => None
  | Some d =>
  let expires_at := unwrap_or (checked_add_signed input.(rp_now) d) MAX_UTC in
  Some (Ok {| dp_client_id := input.(rp_client_id);
              dp_client_name := input.(rp_client_name);
              dp_scopes := input.(rp_requested_scopes);
              dp_resource_indicators := resource_indicators;
              dp_authorization_details := JArray [];
              dp_interval_seconds := input.(rp_interval_seconds);
              dp_issued_at := input.(rp_now);
              dp_expires_at := expires_at |})
  end.

(** ** Ports *)

Definition DEVICE_TRANSITION_MAX_ATTEMPTS : nat := 5.
Definition DEVICE_SLOW_DOWN_INCREMENT_SECONDS : Z := 5.
Definition DEVICE_APPROVAL_CLAIM_TIMEOUT_SECONDS : Z := 30.

Inductive DeviceAtomicResult := AtomicApplied | AtomicConflict | AtomicDeadlineElapsed.

Inductive DeviceCreateResult :=
| CreateApplied | DeviceCodeCollision | UserCodeCollision | CreateDeadlineElapsed.

Inductive DeviceStatePortError := StateUnavailable | StateCorruptData | StateUnexpected.

Inductive DeviceGrantPortError :=
| GrantUnavailable | GrantConflict | GrantCorruptData | GrantUnexpected.

Record DeviceGrantWrite := {
  dw_device_code_hash : string;
  dw_expires_at : DateTime;
  dw_tenant_id : Uuid;
  dw_user_id : Uuid;
  dw_client_id : Uuid;
  dw_scopes : list string;
  dw_resource_indicators : list string;
  dw_authorization_details : Value;
}.

Record StoredDeviceAuthorization (V : Type) := {
  sd_state : DeviceAuthorizationState;
  sd_version : V;
}.
Arguments sd_state {V} _.
Arguments sd_version {V} _.
Arguments Build_StoredDeviceAuthorization {V} _ _.

Record PreparedDeviceDecision (V : Type) := {
  pd_user_code : string;
  pd_device_hash : string;
  pd_stored : StoredDeviceAuthorization V;
}.
Arguments pd_user_code {V} _.
Arguments pd_device_hash {V} _.
Arguments pd_stored {V} _.
Arguments Build_PreparedDeviceDecision {V} _ _ _.

Inductive DeviceStateReplacement (V : Type) :=
| ReplacementApplied (version : V)
| ReplacementConflict
| ReplacementDeadlineElapsed.
Arguments ReplacementApplied {V} version.
Arguments ReplacementConflict {V}.
Arguments ReplacementDeadlineElapsed {V}.

(** The part of [OAuthClient] the grant reads. *)
Record OAuthClient := {
  oc_id : Uuid;
  oc_tenant_id : Uuid;
  oc_client_id : string;
  oc_is_active : bool;
}.

(** [DeviceStateStorePort], [DeviceGrantRepositoryPort], the clock, the code
    generators and [Uuid::now_v7]. *)
Inductive devE (V : Type) : Type → Type :=
| Create (device_code user_code : string) (state : DeviceAuthorizationState) (ttl_seconds : Z)
    : devE V (result DeviceCreateResult DeviceStatePortError)
| LoadByDeviceCode (device_code : string)
    : devE V (result (option (StoredDeviceAuthorization V)) DeviceStatePortError)
| LoadByDeviceHash (device_hash : string)
    : devE V (result (option (StoredDeviceAuthorization V)) DeviceStatePortError)
| ResolveUserCode (user_code : string) : devE V (result (option string) DeviceStatePortError)
| ReplaceByDeviceCode (device_code : string) (version : V) (replacement : DeviceAuthorizationState)
    : devE V (result DeviceAtomicResult DeviceStatePortError)
| ReplaceByDeviceHash (device_hash : string) (version : V) (replacement : DeviceAuthorizationState)
    : devE V (result (DeviceStateReplacement V) DeviceStatePortError)
| ClaimDecision (device_hash user_code : string) (version : V)
    (replacement : DeviceAuthorizationState)
    : devE V (result DeviceAtomicResult DeviceStatePortError)
| CompleteDecision (device_hash user_code : string) (version : V)
    (replacement : DeviceAuthorizationState)
    : devE V (result DeviceAtomicResult DeviceStatePortError)
| DeleteUserCodeIfMatches (user_code device_hash : string)
    : devE V (result DeviceAtomicResult DeviceStatePortError)
| UpsertGrant (write : DeviceGrantWrite) : devE V (result unit DeviceGrantPortError)
| CurrentTime : devE V DateTime
| GenerateDeviceCode : devE V string
| GenerateUserCode : devE V string
| UuidNowV7 : devE V Uuid.
Arguments Create {V}.
Arguments LoadByDeviceCode {V}.
Arguments LoadByDeviceHash {V}.
Arguments ResolveUserCode {V}.
Arguments ReplaceByDeviceCode {V}.
Arguments ReplaceByDeviceHash {V}.
Arguments ClaimDecision {V}.
Arguments CompleteDecision {V}.
Arguments DeleteUserCodeIfMatches {V}.
Arguments UpsertGrant {V}.
Arguments CurrentTime {V}.
Arguments GenerateDeviceCode {V}.
Arguments GenerateUserCode {V}.
Arguments UuidNowV7 {V}.

(** ** Polling *)

Inductive DevicePollTransition :=
| TransitionPending (next : DeviceAuthorizationState)
| TransitionPendingUnchanged
| TransitionSlowDown (next : DeviceAuthorizationState)
| TransitionApproved (payload : DeviceAuthorizationPayload) (approval : DeviceAuthorizationApproval)
| TransitionAccessDenied
| TransitionExpired
| TransitionConsumed.

Definition device_approval_claim_is_stale (started_at now : DateTime) : bool :=
  DEVICE_APPROVAL_CLAIM_TIMEOUT_SECONDS <=? seconds_since now started_at.

Definition required_wait (payload : DeviceAuthorizationPayload) (slow_down_count : Z) : Z :=
  u64_saturating_add payload.(dp_interval_seconds)
    (u64_saturating_mul slow_down_count DEVICE_SLOW_DOWN_INCREMENT_SECONDS).

Definition evaluate_device_poll (state : DeviceAuthorizationState) (now : DateTime)
    : DevicePollTransition :=
  if is_some_and (device_authorization_payload state)
       (fun payload => payload.(dp_expires_at) <=? now)
  then TransitionExpired
  else
  match state with
  | Pending payload last_poll_at slow_down_count =>
      let too_early := is_some_and last_poll_at (fun last =>
        let elapsed := seconds_since now last in
        (elapsed <? 0)
        || is_some_and (u64_try_from_i64 elapsed)
             (fun elapsed => elapsed <? required_wait payload slow_down_count)) in
      let next := Pending payload (Some now)
        (if too_early then u32_saturating_add slow_down_count 1 else slow_down_count) in
      if too_early then TransitionSlowDown next else TransitionPending next
  | Approved payload approval _ => TransitionApproved payload approval
  | Approving _ _ _ _ _ => TransitionPendingUnchanged
  | Denied _ _ => TransitionAccessDenied
  | Consumed _ => TransitionConsumed
  end.

(** ** The service *)

Inductive DeviceCreateFailure :=
| CreateFailureDeadlineElapsed
| CreateFailureStorage (error : DeviceStatePortError)
| CollisionLimit.

Record ApprovedDeviceAuthorization := {
  ad_payload : DeviceAuthorizationPayload;
  ad_approval : DeviceAuthorizationApproval;
}.

Inductive DevicePollCommit :=
| CommitAuthorizationPending
| CommitSlowDown
| CommitApproved (approved : ApprovedDeviceAuthorization)
| CommitAccessDenied
| CommitExpired
| CommitConsumed.

Inductive DevicePollFailure :=
| PollMissing
| PollClientMismatch
| PollStorage (error : DeviceStatePortError)
| PollContended.

Inductive DeviceDecisionFailure :=
| DecisionMissing
| DecisionAlreadyHandled
| DecisionExpired
| DecisionStorage (error : DeviceStatePortError)
| DecisionRepository (error : DeviceGrantPortError)
| DecisionContended.

(** One iteration of a decision loop: it returns, or continues with the
    snapshot for the next iteration ([None]: reload). *)
Inductive decision_step (V : Type) :=
| Return (r : result unit DeviceDecisionFailure)
| Continue (snapshot : option (StoredDeviceAuthorization V)).
Arguments Return {V} r.
Arguments Continue {V} snapshot.

Section service.
Context {V : Type}.
Notation prog_ := (prog (devE V)).

(** A call with [map_err(f)]. *)
Definition port {A E F} (e : devE V (result A E)) (f : E → F) : prog_ (result A F) :=
  let* r := call e in Ret (map_err f r).

(** The collision loop of [create_unique]. *)
Fixpoint create_loop (attempts : nat) (pending : DeviceAuthorizationState) (ttl_seconds : Z)
    : prog_ (result (string * string) DeviceCreateFailure) :=
  match attempts with
  | O => Ret (Err CollisionLimit)
  | S attempts =>
      let* device_code := call GenerateDeviceCode in
      let* user_code := call GenerateUserCode in
      let* created := call (Create device_code user_code pending ttl_seconds) in
      match created with
      | Ok CreateApplied => Ret (Ok (device_code, user_code))
      | Ok (DeviceCodeCollision | UserCodeCollision) => create_loop attempts pending ttl_seconds
      | Ok CreateDeadlineElapsed => Ret (Err CreateFailureDeadlineElapsed)
      | Err error => Ret (Err (CreateFailureStorage error))
      end
  end.

Definition create_unique (payload : DeviceAuthorizationPayload) (ttl_seconds : Z)
    : prog_ (result (string * string) DeviceCreateFailure) :=
  if (ttl_seconds =? 0) || (payload.(dp_expires_at) <=? payload.(dp_issued_at))
  then Ret (Err CreateFailureDeadlineElapsed)
  else create_loop DEVICE_TRANSITION_MAX_ATTEMPTS (Pending payload None 0) ttl_seconds.

(** The compare-and-set of a poll, and what it commits when it applies. *)
Definition poll_replace (device_code : string) (version : V) (next : DeviceAuthorizationState)
    (commit : DevicePollCommit) (retry : prog_ (result DevicePollCommit DevicePollFailure))
    : prog_ (result DevicePollCommit DevicePollFailure) :=
  let*? replaced := port (ReplaceByDeviceCode device_code version next) PollStorage in
  match replaced with
  | AtomicApplied => Ret (Ok commit)
  | AtomicConflict => retry
  | AtomicDeadlineElapsed => Ret (Ok CommitExpired)
  end.

Fixpoint poll_loop (attempts : nat) (device_code expected_client_id : string)
    : prog_ (result DevicePollCommit DevicePollFailure) :=
  match attempts with
  | O => Ret (Err PollContended)
  | S attempts =>
      let*? stored := port (LoadByDeviceCode device_code) PollStorage in
      match stored with
      | None => Ret (Err PollMissing)
      | Some stored =>
          if is_some_and (device_authorization_payload stored.(sd_state))
               (fun payload => bool_decide (payload.(dp_client_id) ≠ expected_client_id))
          then Ret (Err PollClientMismatch)
          else
          let* now := call CurrentTime in
          match evaluate_device_poll stored.(sd_state) now with
          | TransitionPending next =>
              poll_replace device_code stored.(sd_version) next CommitAuthorizationPending
                (poll_loop attempts device_code expected_client_id)
          | TransitionPendingUnchanged => Ret (Ok CommitAuthorizationPending)
          | TransitionSlowDown next =>
              poll_replace device_code stored.(sd_version) next CommitSlowDown
                (poll_loop attempts device_code expected_client_id)
          | TransitionApproved payload approval =>
              Ret (Ok (CommitApproved {| ad_payload := payload; ad_approval := approval |}))
          | TransitionAccessDenied => Ret (Ok CommitAccessDenied)
          | TransitionExpired => Ret (Ok CommitExpired)
          | TransitionConsumed => Ret (Ok CommitConsumed)
          end
      end
  end.

Definition poll (device_code expected_client_id : string)
    : prog_ (result DevicePollCommit DevicePollFailure) :=
  poll_loop DEVICE_TRANSITION_MAX_ATTEMPTS device_code expected_client_id.

Definition prepare_decision (user_code : string)
    : prog_ (result (option (PreparedDeviceDecision V)) DeviceStatePortError) :=
  let*? resolved := call (ResolveUserCode user_code) in
  match resolved with
  | None => Ret (Ok None)
  | Some device_hash =>
      let*? stored := call (LoadByDeviceHash device_hash) in
      match stored with
      | None =>
          let*? _ := call (DeleteUserCodeIfMatches user_code device_hash) in
          Ret (Ok None)
      | Some stored =>
          match stored.(sd_state) with
          | Pending payload _ _ | Approving payload _ _ _ _ =>
              let* now := call CurrentTime in
              if payload.(dp_expires_at) <=? now then
                let*? _ := call (DeleteUserCodeIfMatches user_code device_hash) in
                Ret (Ok None)
              else
                Ret (Ok (Some {| pd_user_code := user_code;
                                 pd_device_hash := device_hash;
                                 pd_stored := stored |}))
          | Approved _ _ _ | Denied _ _ | Consumed _ => Ret (Ok None)
          end
      end
  end.

(** [None] inside is the [unreachable!] of an unprepared state. *)
Definition pending_request_for_user_code (user_code : string)
    : prog_ (result (option (option DeviceAuthorizationPayload)) DeviceStatePortError) :=
  let*? prepared := prepare_decision user_code in
  Ret (Ok ((fun prepared => match prepared.(pd_stored).(sd_state) with
    | Pending payload _ _ | Approving payload _ _ _ _ => Some payload
    | _ => None
    end) <$> prepared)).

(** The state of the iteration: the snapshot, or a reload whose payload must
    be the prepared one. *)
Definition refreshed (device_hash : string)
    (expected_payload : option DeviceAuthorizationPayload)
    (snapshot : option (StoredDeviceAuthorization V))
    : prog_ (result (StoredDeviceAuthorization V) DeviceDecisionFailure) :=
  match snapshot with
  | Some stored => Ret (Ok stored)
  | None =>
      let*? loaded := port (LoadByDeviceHash device_hash) DecisionStorage in
      match loaded with
      | None => Ret (Err DecisionMissing)
      | Some stored =>
          if is_some_and (device_authorization_payload stored.(sd_state))
               (fun payload => bool_decide (Some payload ≠ expected_payload))
          then Ret (Err (DecisionStorage StateCorruptData))
          else Ret (Ok stored)
      end
  end.

(** The user code of an expired authorization is deleted. *)
Definition expire_decision (user_code device_hash : string)
    : prog_ (result (decision_step V) DeviceDecisionFailure) :=
  let*? _ := port (DeleteUserCodeIfMatches user_code device_hash) DecisionStorage in
  Ret (Err DecisionExpired).

(** The loop of a decision; [iterate] is one iteration. *)
Fixpoint decide_loop (attempts : nat) (device_hash : string)
    (expected_payload : option DeviceAuthorizationPayload)
    (iterate : StoredDeviceAuthorization V → prog_ (result (decision_step V) DeviceDecisionFailure))
    (snapshot : option (StoredDeviceAuthorization V))
    : prog_ (result unit DeviceDecisionFailure) :=
  match attempts with
  | O => Ret (Err DecisionContended)
  | S attempts =>
      let*? stored := refreshed device_hash expected_payload snapshot in
      let*? step := iterate stored in
      match step with
      | Return r => Ret r
      | Continue snapshot =>
          decide_loop attempts device_hash expected_payload iterate snapshot
      end
  end.

(** One iteration of [deny]. *)
Definition deny_once (user_code device_hash : string) (stored : StoredDeviceAuthorization V)
    : prog_ (result (decision_step V) DeviceDecisionFailure) :=
  let* now := call CurrentTime in
  match stored.(sd_state) with
  | Pending payload _ _ =>
      if payload.(dp_expires_at) <=? now then expire_decision user_code device_hash
      else
      let*? completed := port (CompleteDecision device_hash user_code stored.(sd_version)
        (Denied payload now)) DecisionStorage in
      match completed with
      | AtomicApplied => Ret (Ok (Return (Ok tt)))
      | AtomicConflict => Ret (Ok (Continue None))
      | AtomicDeadlineElapsed => Ret (Err DecisionExpired)
      end
  | _ => Ret (Err DecisionAlreadyHandled)
  end.

Definition deny (prepared : PreparedDeviceDecision V)
    : prog_ (result unit DeviceDecisionFailure) :=
  decide_loop DEVICE_TRANSITION_MAX_ATTEMPTS prepared.(pd_device_hash)
    (device_authorization_payload prepared.(pd_stored).(sd_state))
    (deny_once prepared.(pd_user_code) prepared.(pd_device_hash)) (Some prepared.(pd_stored)).

(** A claim or a reclaim of the approval: either way the state is reloaded. *)
Definition claim (device_hash user_code : string) (version : V) (next : DeviceAuthorizationState)
    : prog_ (result (decision_step V) DeviceDecisionFailure) :=
  let*? claimed := port (ClaimDecision device_hash user_code version next) DecisionStorage in
  match claimed with
  | AtomicApplied | AtomicConflict => Ret (Ok (Continue None))
  | AtomicDeadlineElapsed => Ret (Err DecisionExpired)
  end.

Definition client_matches (client : OAuthClient) (payload : DeviceAuthorizationPayload) : bool :=
  client.(oc_is_active) && bool_decide (client.(oc_client_id) = payload.(dp_client_id)).

(** The durable grant, then its mark in the state. *)
Definition record_grant (device_hash : string) (client : OAuthClient)
    (version : V) (payload : DeviceAuthorizationPayload) (approval : DeviceAuthorizationApproval)
    (active_claim_id : Uuid) (started_at : DateTime)
    : prog_ (result (decision_step V) DeviceDecisionFailure) :=
  let*? _ := port (UpsertGrant {|
    dw_device_code_hash := device_hash;
    dw_expires_at := payload.(dp_expires_at);
    dw_tenant_id := client.(oc_tenant_id);
    dw_user_id := approval.(da_user_id);
    dw_client_id := client.(oc_id);
    dw_scopes := payload.(dp_scopes);
    dw_resource_indicators := payload.(dp_resource_indicators);
    dw_authorization_details := payload.(dp_authorization_details) |}) DecisionRepository in
  let recorded := Approving payload approval active_claim_id true started_at in
  let*? replaced := port (ReplaceByDeviceHash device_hash version recorded) DecisionStorage in
  match replaced with
  | ReplacementApplied version =>
      Ret (Ok (Continue (Some {| sd_state := recorded; sd_version := version |})))
  | ReplacementConflict => Ret (Ok (Continue None))
  | ReplacementDeadlineElapsed => Ret (Err DecisionExpired)
  end.

(** The final compare-and-set of an approval. *)
Definition complete_approval (device_hash user_code : string) (version : V)
    (payload : DeviceAuthorizationPayload) (approval : DeviceAuthorizationApproval)
    : prog_ (result (decision_step V) DeviceDecisionFailure) :=
  let* approved_at := call CurrentTime in
  let*? completed := port (CompleteDecision device_hash user_code version
    (Approved payload approval approved_at)) DecisionStorage in
  match completed with
  | AtomicApplied => Ret (Ok (Return (Ok tt)))
  | AtomicConflict => Ret (Ok (Continue None))
  | AtomicDeadlineElapsed => Ret (Err DecisionExpired)
  end.

(** One iteration of [approve]. *)
Definition approve_once (user_code device_hash : string)
    (approval : DeviceAuthorizationApproval) (client : OAuthClient) (claim_id : Uuid)
    (stored : StoredDeviceAuthorization V)
    : prog_ (result (decision_step V) DeviceDecisionFailure) :=
  let* now := call CurrentTime in
  match stored.(sd_state) with
  | Pending payload _ _ =>
      if payload.(dp_expires_at) <=? now then expire_decision user_code device_hash
      else if negb (client_matches client payload) then
        Ret (Err (DecisionRepository GrantCorruptData))
      else
        claim device_hash user_code stored.(sd_version)
          (Approving payload approval claim_id false now)
  | Approving payload claimed_approval active_claim_id grant_recorded started_at =>
      if negb (claimed_approval.(da_user_id) =? approval.(da_user_id)) then
        Ret (Err DecisionAlreadyHandled)
      else if negb (client_matches client payload) then
        Ret (Err (DecisionRepository GrantCorruptData))
      else if payload.(dp_expires_at) <=? now then expire_decision user_code device_hash
      else if negb grant_recorded then
        if negb (active_claim_id =? claim_id) then
          if negb (device_approval_claim_is_stale started_at now) then Ret (Err DecisionContended)
          else
            claim device_hash user_code stored.(sd_version)
              (Approving payload claimed_approval claim_id false now)
        else
          record_grant device_hash client stored.(sd_version) payload claimed_approval
            active_claim_id started_at
      else
        complete_approval device_hash user_code stored.(sd_version) payload claimed_approval
  | Approved _ _ _ | Denied _ _ | Consumed _ => Ret (Err DecisionAlreadyHandled)
  end.

Definition approve (prepared : PreparedDeviceDecision V) (approval : DeviceAuthorizationApproval)
    (client : OAuthClient) : prog_ (result unit DeviceDecisionFailure) :=
  let* claim_id := call UuidNowV7 in
  decide_loop DEVICE_TRANSITION_MAX_ATTEMPTS prepared.(pd_device_hash)
    (device_authorization_payload prepared.(pd_stored).(sd_state))
    (approve_once prepared.(pd_user_code) prepared.(pd_device_hash) approval client claim_id)
    (Some prepared.(pd_stored)).

End service.
