(* ===== verification/DeviceGrantFacts.v ===== *)
(** * Device authorizations move forward only, and tokens rest on grants

    The environment: [dev_step] is any state store that honours its
    compare-and-set contract.  Entries and user codes may expire at any moment,
    and any call may fail, whether or not it took effect.  The version of an
    entry is what the store compares; it determines the state ([dec]), and
    writing a well-formed state stores a version that decodes to it.

    Any number of tasks — requests of devices, users and clients — run against
    one store; the theorems hold of every interleaving. *)
From stdpp Require Import base list strings gmap relations.
From S2P Require Import Prelude Chrono Effects Json AuthorizationDetails DeviceGrant.

Local Open Scope rust_scope.

(** The store by device-code hash, the live user codes, and the grants the
    repository has recorded. *)
Record dev_world (V : Type) := {
  w_states : gmap string V;
  w_users : gmap string string;
  w_grants : list DeviceGrantWrite;
}.
Arguments w_states {V} _.
Arguments w_users {V} _.
Arguments w_grants {V} _.
Arguments Build_dev_world {V} _ _ _.

(** The transitions of a stored authorization. *)
Inductive legal : DeviceAuthorizationState → DeviceAuthorizationState → Prop :=
| legal_poll p last c now c' :
    c ≤ c' → legal (Pending p last c) (Pending p (Some now) c')
| legal_claim p last c a id now :
    now < p.(dp_expires_at) → legal (Pending p last c) (Approving p a id false now)
| legal_reclaim p a id started id' now :
    now < p.(dp_expires_at) → device_approval_claim_is_stale started now = true →
    legal (Approving p a id false started) (Approving p a id' false now)
| legal_record p a id started :
    legal (Approving p a id false started) (Approving p a id true started)
| legal_approve p a id started at_ :
    legal (Approving p a id true started) (Approved p a at_)
| legal_deny p last c now :
    now < p.(dp_expires_at) → legal (Pending p last c) (Denied p now).

(** What a recorded grant must say for an approval. *)
Definition grant_for (h : string) (p : DeviceAuthorizationPayload)
    (a : DeviceAuthorizationApproval) (g : DeviceGrantWrite) : Prop :=
  g.(dw_device_code_hash) = h ∧ g.(dw_user_id) = a.(da_user_id) ∧
  g.(dw_scopes) = p.(dp_scopes) ∧ g.(dw_resource_indicators) = p.(dp_resource_indicators) ∧
  g.(dw_authorization_details) = p.(dp_authorization_details) ∧
  g.(dw_expires_at) = p.(dp_expires_at).

(** ** Well-formed states

    The values of the source's types, with details that a stored text gives back:
    valid, its numbers integers, its objects canonical, nested no deeper than the
    parser allows below the two objects around them. *)

Definition stored_details (url_parses : string → bool) (v : Value) : Prop :=
  details_ok url_parses v ∧ exact v = true ∧ canonical v = v ∧ (depth v + 2 ≤ JSON_MAX_DEPTH)%nat.

Definition payload_wf (url_parses : string → bool) (p : DeviceAuthorizationPayload) : Prop :=
  in_u64 p.(dp_interval_seconds) ∧ valid_time p.(dp_issued_at) ∧ valid_time p.(dp_expires_at) ∧
  stored_details url_parses p.(dp_authorization_details).

Definition approval_wf (a : DeviceAuthorizationApproval) : Prop :=
  valid_uuid a.(da_user_id) ∧ in_i64 a.(da_auth_time).

Definition state_wf (url_parses : string → bool) (s : DeviceAuthorizationState) : Prop :=
  match s with
  | Pending p last c => payload_wf url_parses p ∧ (∀ t, last = Some t → valid_time t) ∧ in_u32 c
  | Approving p a id _ t => payload_wf url_parses p ∧ approval_wf a ∧ valid_uuid id ∧ valid_time t
  | Approved p a t => payload_wf url_parses p ∧ approval_wf a ∧ valid_time t
  | Denied p t => payload_wf url_parses p ∧ valid_time t
  | Consumed t => valid_time t
  end.

#[export] Instance valid_time_dec t : Decision (valid_time t).
Proof. apply _. Defined.
#[export] Instance valid_uuid_dec u : Decision (valid_uuid u).
Proof. apply _. Defined.
#[export] Instance stored_details_dec url_parses v : Decision (stored_details url_parses v).
Proof. apply _. Defined.
#[export] Instance payload_wf_dec url_parses p : Decision (payload_wf url_parses p).
Proof. unfold payload_wf, in_u64. apply _. Defined.
#[export] Instance approval_wf_dec a : Decision (approval_wf a).
Proof. unfold approval_wf, in_i64. apply _. Defined.
#[export] Instance state_wf_dec url_parses s : Decision (state_wf url_parses s).
Proof.
  destruct s as [p [t|] c| | | |]; simpl; unfold in_u32; try apply _.
  - apply and_dec; [apply _|]. apply and_dec; [|apply _].
    destruct (decide (valid_time t)); [left; naive_solver|right; naive_solver].
  - apply and_dec; [apply _|]. apply and_dec; [left; naive_solver|apply _].
Defined.

Section world.
Context {V : Type} (url_parses : string → bool).
Context (hash ukey : string → string).
Context (enc : DeviceAuthorizationState → V) (dec : V → option DeviceAuthorizationState).
Notation W := (dev_world V).

(** Keys expire. *)
Definition expires (w w' : W) : Prop :=
  w'.(w_states) ⊆ w.(w_states) ∧ w'.(w_users) ⊆ w.(w_users) ∧ w'.(w_grants) = w.(w_grants).

(** A call: its outcome, or an error with or without its effect. *)
Definition outcome {A E} (w : W) (op : A → W → Prop) (x : result A E) (w' : W) : Prop :=
  ∃ w1, expires w1 w' ∧
    ((∃ a, x = Ok a ∧ op a w1) ∨ (∃ e, x = Err e ∧ (w1 = w ∨ ∃ a, op a w1))).

Definition load (h : string) (w : W) (a : option (StoredDeviceAuthorization V)) (w' : W) : Prop :=
  w' = w ∧
  match a with
  | None => w.(w_states) !! h = None
  | Some s => w.(w_states) !! h = Some s.(sd_version) ∧ dec s.(sd_version) = Some s.(sd_state)
  end.

Definition set_state (h : string) (next : DeviceAuthorizationState) (w : W) : W :=
  {| w_states := <[h := enc next]> w.(w_states); w_users := w.(w_users);
     w_grants := w.(w_grants) |}.

Definition drop_user (u : string) (w : W) : W :=
  {| w_states := w.(w_states); w_users := delete (ukey u) w.(w_users);
     w_grants := w.(w_grants) |}.

(** Compare and set: [cond] is the extra condition, [fin] what follows it. *)
Definition compare_set (h : string) (v : V) (next : DeviceAuthorizationState)
    (cond : Prop) (fin : W → W) (w : W) (a : DeviceAtomicResult) (w' : W) : Prop :=
  match a with
  | AtomicApplied => w.(w_states) !! h = Some v ∧ cond ∧ w' = fin (set_state h next w)
  | AtomicConflict => w' = w
  | AtomicDeadlineElapsed => expires w w'
  end.

Definition dev_step (X : Type) (e : devE V X) (w : W) : X → W → Prop :=
  match e in devE _ X return X → W → Prop with
  | Create code u st _ => outcome w (fun a w' =>
      match a with
      | CreateApplied => w.(w_states) !! hash code = None ∧ w.(w_users) !! ukey u = None ∧
          w' = {| w_states := <[hash code := enc st]> w.(w_states);
                  w_users := <[ukey u := hash code]> w.(w_users);
                  w_grants := w.(w_grants) |}
      | _ => w' = w
      end)
  | LoadByDeviceCode code => outcome w (load (hash code) w)
  | LoadByDeviceHash h => outcome w (load h w)
  | ResolveUserCode u => outcome w (fun a w' => w' = w ∧ a = w.(w_users) !! ukey u)
  | ReplaceByDeviceCode code v next =>
      outcome w (compare_set (hash code) v next True id w)
  | ReplaceByDeviceHash h v next => outcome w (fun a w' =>
      match a with
      | ReplacementApplied v' => v' = enc next ∧ compare_set h v next True id w AtomicApplied w'
      | ReplacementConflict => w' = w
      | ReplacementDeadlineElapsed => expires w w'
      end)
  | ClaimDecision h u v next =>
      outcome w (compare_set h v next (w.(w_users) !! ukey u = Some h) id w)
  | CompleteDecision h u v next =>
      outcome w (compare_set h v next (w.(w_users) !! ukey u = Some h) (drop_user u) w)
  | DeleteUserCodeIfMatches u h => outcome w (fun a w' =>
      match a with
      | AtomicApplied => w.(w_users) !! ukey u = Some h ∧ w' = drop_user u w
      | _ => w' = w
      end)
  | UpsertGrant g => outcome w (fun _ w' =>
      w' = {| w_states := w.(w_states); w_users := w.(w_users); w_grants := g :: w.(w_grants) |})
  | CurrentTime => fun now w' => valid_time now ∧ expires w w'
  | UuidNowV7 => fun id w' => valid_uuid id ∧ expires w w'
  | GenerateDeviceCode | GenerateUserCode => fun _ w' => expires w w'
  end.

(** Every approval the store holds as recorded or complete has its grant. *)
Definition recorded (w : W) : Prop :=
  ∀ h v p a, w.(w_states) !! h = Some v →
    (∃ id started, dec v = Some (Approving p a id true started)) ∨
    (∃ at_, dec v = Some (Approved p a at_)) →
    ∃ g, g ∈ w.(w_grants) ∧ grant_for h p a g.

(** The invariant, with what the texts of the store decode to. *)
Definition dev_inv (w : W) : Prop :=
  recorded w ∧ ∀ h v s, w.(w_states) !! h = Some v → dec v = Some s → state_wf url_parses s.

(** One step: an entry stays, vanishes or moves legally; a new one is pending. *)
Definition evolves (w w' : W) : Prop :=
  ∀ h, match w.(w_states) !! h, w'.(w_states) !! h with
       | _, None => True
       | None, Some v' => ∃ p, dec v' = Some (Pending p None 0)
       | Some v, Some v' => v' = v ∨ ∃ s s', dec v = Some s ∧ dec v' = Some s' ∧ legal s s'
       end.

Definition dev_rely (w w' : W) : Prop :=
  w.(w_grants) ⊆ w'.(w_grants) ∧ (dev_inv w → dev_inv w').

Definition dev_guar (X : Type) (e : devE V X) (w : W) (x : X) (w' : W) : Prop :=
  dev_rely w w' ∧ evolves w w'.

Definition ok_stored (s : StoredDeviceAuthorization V) : Prop :=
  dec s.(sd_version) = Some s.(sd_state) ∧ state_wf url_parses s.(sd_state).

(** When [next] may be written over the stored [s]. *)
Definition may_write (h : string) (s : StoredDeviceAuthorization V)
    (next : DeviceAuthorizationState) (w : W) : Prop :=
  legal s.(sd_state) next ∧ state_wf url_parses next ∧
  (dev_inv w → w.(w_states) !! h = Some s.(sd_version) →
   ∀ p a, (∃ id t, next = Approving p a id true t) ∨ (∃ t, next = Approved p a t) →
     ∃ g, g ∈ w.(w_grants) ∧ grant_for h p a g).

(** Effects that write no state. *)
Definition quiet_effect {X} (e : devE V X) : bool :=
  match e with
  | LoadByDeviceCode _ | LoadByDeviceHash _ | ResolveUserCode _ | DeleteUserCodeIfMatches _ _
  | UpsertGrant _ | CurrentTime | GenerateDeviceCode | GenerateUserCode | UuidNowV7 => true
  | _ => false
  end.

Definition ok_step (r : result (decision_step V) DeviceDecisionFailure) : Prop :=
  match r with Ok (Continue (Some s)) => ok_stored s | _ => True end.
End world.

(** ** Tasks *)

Inductive task :=
| TCreate (payload : DeviceAuthorizationPayload) (ttl_seconds : Z)
| TPoll (device_code client_id : string)
| TApprove (user_code : string) (approval : DeviceAuthorizationApproval) (client : OAuthClient)
| TDeny (user_code : string).

Inductive task_result :=
| RCreate (r : result (string * string) DeviceCreateFailure)
| RPoll (r : result DevicePollCommit DevicePollFailure)
| RDecision (r : result unit DeviceDecisionFailure)
| RNoDecision.

(** A decision is prepared from the user code, then taken. *)
Definition decided {V} (user_code : string)
    (act : PreparedDeviceDecision V → prog (devE V) (result unit DeviceDecisionFailure))
    : prog (devE V) task_result :=
  let* prepared := prepare_decision user_code in
  match prepared with
  | Ok (Some p) => let* r := act p in Ret (RDecision r)
  | _ => Ret RNoDecision
  end.

(** What a request may carry. *)
Definition task_wf (url_parses : string → bool) (t : task) : Prop :=
  match t with
  | TCreate payload _ => payload_wf url_parses payload
  | TApprove _ approval _ => approval_wf approval
  | TPoll _ _ | TDeny _ => True
  end.

Definition task_prog {V} (t : task) : prog (devE V) task_result :=
  match t with
  | TCreate payload ttl => let* r := create_unique payload ttl in Ret (RCreate r)
  | TPoll code client => let* r := poll code client in Ret (RPoll r)
  | TApprove u approval client => decided u (fun p => approve p approval client)
  | TDeny u => decided u deny
  end.

(** What a returned poll means: an approval was granted to this client. *)
Definition task_post {V} (hash : string → string) (t : task) (r : task_result) (w : dev_world V)
    : Prop :=
  match t, r with
  | TPoll code client, RPoll (Ok (CommitApproved ad)) =>
      ad.(ad_payload).(dp_client_id) = client ∧
      ∃ g, g ∈ w.(w_grants) ∧ grant_for (hash code) ad.(ad_payload) ad.(ad_approval) g
  | _, _ => True
  end.

(** ** The request policy *)

Definition requested_or_default (input : DeviceAuthorizationRequestPolicy) : list string :=
  match input.(rp_requested_resources) with
  | [] => [input.(rp_default_resource)]
  | resources => resources
  end.

Definition admitted (input : DeviceAuthorizationRequestPolicy) : Prop :=
  input.(rp_enabled) = true ∧ input.(rp_client_active) = true ∧
  input.(rp_client_supports_grant) = true ∧
  input.(rp_requested_scopes) ⊆ input.(rp_allowed_scopes) ∧
  requested_or_default input ⊆ input.(rp_allowed_resources).

Definition example_policy : DeviceAuthorizationRequestPolicy :=
  {| rp_enabled := true; rp_client_active := true; rp_client_supports_grant := true;
     rp_client_id := "tv"; rp_client_name := "TV"; rp_requested_scopes := ["openid"%string];
     rp_allowed_scopes := ["openid"%string]; rp_requested_resources := [];
     rp_allowed_resources := ["https://api.example"%string];
     rp_default_resource := "https://api.example"; rp_interval_seconds := 5;
     rp_ttl_seconds := 600; rp_now := 0 |}.

(** ** A reference store

    Every call succeeds, nothing expires, the clock stands still. *)
Section reference.
Context (now : DateTime).
Notation V := DeviceAuthorizationState.

Definition no_urls (_ : string) : bool := false.

Definition ref_dec (s : V) : option V := if decide (state_wf no_urls s) then Some s else None.

Definition ref_load (h : string) (w : dev_world V)
    : result (option (StoredDeviceAuthorization V)) DeviceStatePortError :=
  match w.(w_states) !! h with
  | None => Ok None
  | Some v => match ref_dec v with
              | Some s => Ok (Some {| sd_state := s; sd_version := v |})
              | None => Err StateCorruptData
              end
  end.

Definition ref_set (h : string) (v next : V) (cond : bool) (fin : dev_world V → dev_world V)
    (w : dev_world V) : DeviceAtomicResult * dev_world V :=
  if bool_decide (w.(w_states) !! h = Some v) && cond
  then (AtomicApplied, fin (set_state id h next w))
  else (AtomicConflict, w).

Definition ref_handle (X : Type) (e : devE V X) (w : dev_world V) : option (X * dev_world V) :=
  match e in devE _ X return option (X * dev_world V) with
  | Create code u st _ =>
      Some (match w.(w_states) !! code, w.(w_users) !! u with
        | Some _, _ => (Ok DeviceCodeCollision, w)
        | _, Some _ => (Ok UserCodeCollision, w)
        | None, None => (Ok CreateApplied,
            {| w_states := <[code := st]> w.(w_states); w_users := <[u := code]> w.(w_users);
               w_grants := w.(w_grants) |})
        end)
  | LoadByDeviceCode h | LoadByDeviceHash h => Some (ref_load h w, w)
  | ResolveUserCode u => Some (Ok (w.(w_users) !! u), w)
  | ReplaceByDeviceCode h v next =>
      let '(a, w') := ref_set h v next true id w in Some (Ok a, w')
  | ReplaceByDeviceHash h v next =>
      let '(a, w') := ref_set h v next true id w in
      Some (Ok (match a with AtomicApplied => ReplacementApplied next | _ => ReplacementConflict end), w')
  | ClaimDecision h u v next =>
      let '(a, w') := ref_set h v next (bool_decide (w.(w_users) !! u = Some h)) id w in
      Some (Ok a, w')
  | CompleteDecision h u v next =>
      let '(a, w') := ref_set h v next (bool_decide (w.(w_users) !! u = Some h)) (drop_user id u) w in
      Some (Ok a, w')
  | DeleteUserCodeIfMatches u h =>
      Some (if decide (w.(w_users) !! u = Some h) then (Ok AtomicApplied, drop_user id u w)
            else (Ok AtomicConflict, w))
  | UpsertGrant g =>
      Some (Ok tt, {| w_states := w.(w_states); w_users := w.(w_users);
                      w_grants := g :: w.(w_grants) |})
  | CurrentTime => Some (now, w)
  | GenerateDeviceCode => Some ("device"%string, w)
  | GenerateUserCode => Some ("user"%string, w)
  | UuidNowV7 => Some (1, w)
  end.
End reference.

Definition example_payload : DeviceAuthorizationPayload :=
  {| dp_client_id := "tv"; dp_client_name := "TV"; dp_scopes := ["openid"%string];
     dp_resource_indicators := ["https://api.example"%string]; dp_authorization_details := JArray [];
     dp_interval_seconds := 5; dp_issued_at := 0; dp_expires_at := 600 * NANOS |}.

Definition example_approval : DeviceAuthorizationApproval :=
  {| da_user_id := 42; da_subject := "alice"; da_auth_time := 0; da_amr := []; da_oidc_sid := None |}.

Definition example_client : OAuthClient :=
  {| oc_id := 7; oc_tenant_id := 1; oc_client_id := "tv"; oc_is_active := true |}.

(** A device asks for a code, its user approves, the device polls. *)
Definition example_tasks : list task :=
  [TCreate example_payload 600; TApprove "user" example_approval example_client; TPoll "device" "tv"].

Definition example_start : dev_world DeviceAuthorizationState :=
  {| w_states := ∅; w_users := ∅; w_grants := [] |}.

Definition example_schedule : list nat := repeat 0%nat 3 ++ repeat 1%nat 13 ++ repeat 2%nat 2.

Definition example_run (schedule : list nat) :=
  pool_run (ref_handle NANOS) schedule (task_prog <$> example_tasks, example_start).

(** ** Facts *)

Section facts.
Context {V : Type} (url_parses : string → bool) (hash ukey : string → string).
Context (enc : DeviceAuthorizationState → V) (dec : V → option DeviceAuthorizationState).
Context (Henc : ∀ s, state_wf url_parses s → dec (enc s) = Some s).
Notation W := (dev_world V).
Notation guar := (dev_guar url_parses dec).
Notation wp_ := (wp (dev_step hash ukey enc dec) (dev_rely url_parses dec) guar).

#[export] Instance dev_rely_preorder : PreOrder (dev_rely (V := V) url_parses dec).
Proof.
  split; [by split|]. intros a b c [Hab ?] [Hbc ?]. split; [by etrans|by auto].
Qed.

Notation inv := (dev_inv url_parses dec).

Lemma inv_expires w w' : expires w w' → inv w → inv w'.
Proof.
  intros (Hs & _ & Hg) [Hr Hw]. split.
  - intros h v p a Hv. rewrite Hg. apply Hr. by eapply lookup_weaken.
  - intros h v s Hv. apply (Hw h). by eapply lookup_weaken.
Qed.

Lemma guar_expires X (e : devE V X) x (w w1 w' : W) :
  guar X e w x w1 → expires w1 w' → guar X e w x w'.
Proof.
  intros [[Hg Hr] He] Hx. split.
  - split; [by destruct Hx as (_ & _ & ->)|]. eauto using inv_expires.
  - intros h. specialize (He h). destruct Hx as (Hs & _).
    destruct (w_states w' !! h) as [v'|] eqn:Hv'; [|by destruct (w_states w !! h)].
    rewrite (lookup_weaken _ _ _ _ Hv' Hs) in He. done.
Qed.

Lemma guar_refl X (e : devE V X) x (w : W) : guar X e w x w.
Proof. split; [done|]. intros h. destruct (w_states w !! h); auto. Qed.

Lemma guar_same_states X (e : devE V X) x (w w' : W) :
  w'.(w_states) = w.(w_states) → w.(w_grants) ⊆ w'.(w_grants) → guar X e w x w'.
Proof.
  intros Hs Hg. split; [split; [done|]|].
  - intros [Hr Hw]. split; [|by rewrite Hs]. intros h v p a. rewrite Hs. intros Hv Hst.
    destruct (Hr h v p a Hv Hst) as (g & ? & ?). exists g. auto.
  - intros h. rewrite Hs. destruct (w_states w !! h); auto.
Qed.

Lemma outcome_guar {A E} X (e : devE V X) y (w : W) (op : A → W → Prop) (x : result A E) w' :
  (∀ a w1, op a w1 → guar X e w y w1) → outcome w op x w' → guar X e w y w'.
Proof.
  intros Hop (w1 & Hx & Ho). eapply guar_expires; [|exact Hx].
  destruct Ho as [(a & _ & Ho)|(err & _ & [->|(a & Ho)])]; eauto using guar_refl.
Qed.

Lemma set_state_guar X (e : devE V X) x (w : W) h s next fin :
  (∀ w, (fin w).(w_states) = w.(w_states) ∧ (fin w).(w_grants) = w.(w_grants)) →
  w.(w_states) !! h = Some s.(sd_version) → ok_stored url_parses dec s → may_write url_parses dec h s next w →
  guar X e w x (fin (set_state enc h next w)).
Proof.
  intros Hfin Hv [Hs _] (Hl & Hwf & Hg). destruct (Hfin (set_state enc h next w)) as [Hst Hgr].
  split; [split|].
  - by rewrite Hgr.
  - intros Hinv. split; [intros h' v' p a|intros h' v' s']; rewrite Hst, ?Hgr; simpl;
      (destruct (decide (h = h')) as [<-|Hne];
       [rewrite lookup_insert_eq; intros [= <-]; rewrite Henc by done
       |rewrite lookup_insert_ne by done; apply Hinv]).
    + intros Hn. apply (Hg Hinv Hv). naive_solver.
    + by intros [= <-].
  - intros h'. rewrite Hst. simpl. destruct (decide (h = h')) as [<-|Hne].
    + rewrite Hv, lookup_insert_eq. right. exists s.(sd_state), next. by rewrite Henc.
    + rewrite lookup_insert_ne by done. destruct (w_states w !! h'); auto.
Qed.

Lemma compare_set_guar X (e : devE V X) x (w : W) h s next cond fin a w1 :
  (∀ w, (fin w).(w_states) = w.(w_states) ∧ (fin w).(w_grants) = w.(w_grants)) →
  ok_stored url_parses dec s → may_write url_parses dec h s next w →
  compare_set enc h s.(sd_version) next cond fin w a w1 → guar X e w x w1.
Proof.
  intros Hfin Hok Hm. destruct a; simpl.
  - intros (Hv & _ & ->). by eapply set_state_guar.
  - intros ->. apply guar_refl.
  - intros Hx. eapply guar_expires; [apply guar_refl|exact Hx].
Qed.

Lemma quiet_guar X (e : devE V X) (w : W) x w' :
  quiet_effect e = true → dev_step hash ukey enc dec X e w x w' → guar X e w x w'.
Proof.
  destruct e; simpl; try done; intros _;
    try first [by intros [_ Hx]; eapply guar_expires; [apply guar_refl|]
              |by intros Hx; eapply guar_expires; [apply guar_refl|]].
  - apply outcome_guar. intros a w1 [-> _]. apply guar_refl.
  - apply outcome_guar. intros a w1 [-> _]. apply guar_refl.
  - apply outcome_guar. intros a w1 [-> _]. apply guar_refl.
  - apply outcome_guar. intros [] w1; [intros [_ ->]|intros ->..]; by apply guar_same_states.
  - apply outcome_guar. intros [] w1 ->. apply guar_same_states; set_solver.
Qed.

Lemma wp_quiet {A X} (e : devE V X) (f : X → prog (devE V) A) Q w :
  quiet_effect e = true →
  (∀ w1 x w2, dev_rely url_parses dec w w1 → dev_step hash ukey enc dec X e w1 x w2 →
     dev_rely url_parses dec w1 w2 → wp_ (f x) Q w2) →
  wp_ (bind (call e) f) Q w.
Proof.
  intros Hq H. apply wp_call. intros w1 x w2 Hr Hs. pose proof (quiet_guar _ _ _ _ _ Hq Hs) as Hg.
  split; [done|]. eapply H; [done..|apply Hg].
Qed.

(** A call whose error is mapped and returned. *)
Lemma wp_port {A B E F} (e : devE V (result A E)) (f : E → F)
    (k : result A F → prog (devE V) B) Q w :
  (∀ w1 x w2, dev_rely url_parses dec w w1 → dev_step hash ukey enc dec _ e w1 x w2 →
     guar _ e w1 x w2 ∧ ∀ w3, dev_rely url_parses dec w2 w3 → wp_ (k (map_err f x)) Q w3) →
  wp_ (bind (port e f) k) Q w.
Proof.
  intros H. apply wp_bind; [apply _|]. apply wp_call. intros w1 x w2 Hr Hs.
  destruct (H w1 x w2 Hr Hs) as [Hg Hk]. split; [done|]. by apply wp_ret.
Qed.

Lemma outcome_ok {A E} (w : W) (op : A → W → Prop) (a : A) w' :
  outcome w op (Ok a : result A E) w' → ∃ w1, op a w1 ∧ expires w1 w'.
Proof. intros (w1 & Hx & [(a' & [= <-] & Ho)|(e & ? & _)]); [eauto|done]. Qed.

Lemma load_stored h (w : W) s w' :
  inv w → outcome w (load dec h w) (Ok (Some s) : result _ DeviceStatePortError) w' →
  w.(w_states) !! h = Some s.(sd_version) ∧ ok_stored url_parses dec s.
Proof. intros [_ Hw] (w1 & [_ [? ?]] & _)%outcome_ok. repeat split; eauto. Qed.

Lemma grants_outcome g (w : W) w' :
  outcome w (fun _ w' => w' = {| w_states := w.(w_states); w_users := w.(w_users);
      w_grants := g :: w.(w_grants) |}) (Ok tt : result unit DeviceGrantPortError) w' →
  g ∈ w'.(w_grants).
Proof. intros (w1 & -> & _ & _ & ->)%outcome_ok. set_solver. Qed.

(** The invariant comes with every result. *)
Lemma wp_inv {A} (p : prog (devE V) A) Q w :
  inv w → wp_ p Q w → wp_ p (fun a w' => Q a w' ∧ inv w') w.
Proof.
  intros Hi. apply wp_invariant; [by intros v v' [_ ?]|by intros X e v x v' [[_ ?] _]|done].
Qed.

(** *** Decisions *)

Notation okp := (fun r (_ : W) => ok_step url_parses dec r).

Lemma wp_expire_decision u h w : wp_ (expire_decision u h) okp w.
Proof.
  apply wp_port. intros w1 x w2 _ Hs. split; [by apply quiet_guar|]. intros w3 _.
  by destruct x; apply wp_ret.
Qed.

Lemma wp_claim h u s next w :
  ok_stored url_parses dec s → (∀ w, may_write url_parses dec h s next w) →
  wp_ (claim h u s.(sd_version) next) okp w.
Proof.
  intros Hok Hm. apply wp_port. intros w1 x w2 _ Hs. split.
  - eapply outcome_guar; [|exact Hs]. intros a w3 Hc. by eapply (compare_set_guar _ _ _ _ _ _ _ _ id).
  - intros w3 _. by destruct x as [[]|]; apply wp_ret.
Qed.

Lemma wp_complete h u s next w :
  ok_stored url_parses dec s → (∀ w, may_write url_parses dec h s next w) →
  wp_ (let*? completed := port (CompleteDecision h u s.(sd_version) next) DecisionStorage in
       match completed with
       | AtomicApplied => Ret (Ok (Return (Ok tt)))
       | AtomicConflict => Ret (Ok (Continue None))
       | AtomicDeadlineElapsed => Ret (Err DecisionExpired)
       end) okp w.
Proof.
  intros Hok Hm. apply wp_port. intros w1 x w2 _ Hs. split.
  - eapply outcome_guar; [|exact Hs]. intros a w3 Hc.
    by eapply (compare_set_guar _ _ _ _ _ _ _ _ (drop_user ukey u)).
  - intros w3 _. by destruct x as [[]|]; apply wp_ret.
Qed.

Lemma wp_record_grant h client s p a active started w :
  ok_stored url_parses dec s → s.(sd_state) = Approving p a active false started →
  wp_ (record_grant h client s.(sd_version) p a active started) okp w.
Proof.
  intros Hok Hst. pose proof (proj2 Hok) as Hwf. rewrite Hst in Hwf.
  apply wp_port. intros w1 x w2 _ Hs. split; [by apply quiet_guar|].
  intros w3 Hr3. destruct x as [[]|e]; [|by apply wp_ret]. apply grants_outcome in Hs.
  cbn [map_err]. apply wp_port. intros w4 y w5 Hr4 Hs5.
  assert (Hg : ∃ g, g ∈ w4.(w_grants) ∧ grant_for h p a g).
  { eexists. split; [apply Hr4, Hr3, Hs|]. by split_and!. }
  split.
  - eapply outcome_guar; [|exact Hs5]. intros [v'| |] w6; simpl.
    + intros (_ & Hc). eapply (compare_set_guar _ _ _ _ _ _ _ True id AtomicApplied); [done|done| |exact Hc].
      unfold may_write. rewrite Hst. split; [constructor|split; [exact Hwf|]]. naive_solver.
    + intros ->. apply guar_refl.
    + intros Hx. eapply guar_expires; [apply guar_refl|exact Hx].
  - intros w6 _. destruct y as [[v'| |]|]; apply wp_ret; try done. intros _ _. simpl.
    apply outcome_ok in Hs5 as (w7 & (-> & _) & _). split; [by apply Henc|exact Hwf].
Qed.

Lemma wp_deny_once u h s w : ok_stored url_parses dec s → wp_ (deny_once u h s) okp w.
Proof.
  intros Hok. pose proof (proj2 Hok) as Hwf.
  apply wp_quiet; [done|]. intros w1 now w2 _ [Hnow _] _.
  destruct (sd_state s) as [p last c|p a active g t|p a t|p t|t] eqn:Hst; try (by apply wp_ret).
  destruct (dp_expires_at p <=? now) eqn:Hexp; [apply wp_expire_decision|]. boolify.
  apply wp_complete; [done|]. intros w3. unfold may_write. rewrite Hst.
  split; [by constructor|split; [simpl in *; tauto|]]. naive_solver.
Qed.

Lemma wp_approve_once u h approval client cid s w :
  approval_wf approval → valid_uuid cid →
  ok_stored url_parses dec s → wp_ (approve_once u h approval client cid s) okp w.
Proof.
  intros Hap Hcid Hok. pose proof (proj2 Hok) as Hwf.
  apply wp_quiet; [done|]. intros w1 now w2 _ [Hnow _] _.
  destruct (sd_state s) as [p last c|p a active g t|p a t|p t|t] eqn:Hst; try (by apply wp_ret).
  - destruct (dp_expires_at p <=? now) eqn:Hexp; [apply wp_expire_decision|]. boolify.
    destruct (negb _); [by apply wp_ret|]. apply wp_claim; [done|]. intros w3.
    unfold may_write. rewrite Hst. split; [by constructor|split; [simpl in *; tauto|]].
    naive_solver.
  - destruct (negb _); [by apply wp_ret|]. destruct (negb (client_matches _ _)); [by apply wp_ret|].
    destruct (dp_expires_at p <=? now) eqn:Hexp; [apply wp_expire_decision|]. boolify.
    destruct g; cbn [negb].
    + apply wp_quiet; [done|]. intros w3 at_ w4 _ [Hat _] _. apply wp_complete; [done|]. intros w5.
      unfold may_write. rewrite Hst. split; [constructor|split; [simpl in *; tauto|]].
      intros [Hr _] Hv p' a' Hn. apply (Hr h s.(sd_version)); [done|]. left.
      rewrite (proj1 Hok), Hst. naive_solver.
    + destruct (active =? cid) eqn:Hid; cbn [negb]; [by apply wp_record_grant|].
      destruct (device_approval_claim_is_stale _ _) eqn:Hstale; cbn [negb]; [|by apply wp_ret].
      apply wp_claim; [done|]. intros w3. unfold may_write. rewrite Hst.
      split; [by constructor|split; [simpl in *; tauto|]]. naive_solver.
Qed.

Lemma wp_decide_loop n h payload iterate snapshot w :
  (∀ s w, ok_stored url_parses dec s → wp_ (iterate s) okp w) →
  (∀ s, snapshot = Some s → ok_stored url_parses dec s) → inv w →
  wp_ (decide_loop n h payload iterate snapshot) (fun _ _ => True) w.
Proof.
  intros Hit. revert snapshot w. induction n as [|n IH]; intros snapshot w Hsn Hi; [by apply wp_ret|].
  apply wp_bind; [apply _|].
  eapply (wp_mono _ _ _ (fun r w => match r with Ok s => ok_stored url_parses dec s | Err _ => True end
    ∧ inv w)); [apply wp_inv; [done|]|].
  - unfold refreshed. destruct snapshot as [s|]; [apply wp_ret; eauto|].
    apply wp_port. intros w1 x w2 Hr Hs. split; [by apply quiet_guar|]. intros w3 _.
    destruct x as [[s|]|]; cbn [map_err]; [|by apply wp_ret..].
    destruct (is_some_and _ _); [by apply wp_ret|]. apply wp_ret. intros _ _.
    eapply load_stored; [|exact Hs]. by apply Hr.
  - intros [s|e] w1 [Hs Hi1]; [|by apply wp_ret]. apply wp_bind; [apply _|].
    eapply wp_mono; [apply wp_inv; [done|by apply Hit]|].
    intros [[r|sn]|e] w2 [Hst Hi2]; [by apply wp_ret| |by apply wp_ret].
    apply IH; [|done]. intros s' ->. done.
Qed.

(** *** Requests *)

Lemma wp_prepare u w :
  inv w → wp_ (prepare_decision u) (fun r _ =>
    match r with Ok (Some p) => ok_stored url_parses dec p.(pd_stored) | _ => True end) w.
Proof.
  intros Hi. apply wp_quiet; [done|]. intros w1 x w2 Hr1 _ Hr2. destruct x as [[h|]|e]; [|by apply wp_ret..].
  apply wp_quiet; [done|]. intros w3 y w4 Hr3 Hs _. destruct y as [[s|]|e]; [| |by apply wp_ret].
  - apply load_stored in Hs as [_ Hok]; [|by apply Hr3, Hr2, Hr1].
    assert (Hdel : ∀ p w, wp_ (let* now := call CurrentTime in
        if dp_expires_at p <=? now then
          let*? _ := call (DeleteUserCodeIfMatches u h) in Ret (Ok None)
        else Ret (Ok (Some {| pd_user_code := u; pd_device_hash := h; pd_stored := s |})))
      (fun r _ => match r with Ok (Some p) => ok_stored url_parses dec p.(pd_stored) | _ => True end) w).
    { intros p w5. apply wp_quiet; [done|]. intros w6 now w7 _ _ _.
      destruct (_ <=? now); [|by apply wp_ret]. apply wp_quiet; [done|].
      intros w8 z w9 _ _ _. by destruct z; apply wp_ret. }
    by destruct (sd_state s); try apply Hdel; apply wp_ret.
  - apply wp_quiet; [done|]. intros w5 z w6 _ _ _. by destruct z; apply wp_ret.
Qed.

Lemma create_guar X (e : devE V X) x (w : W) h p users :
  payload_wf url_parses p → w.(w_states) !! h = None →
  guar X e w x {| w_states := <[h := enc (Pending p None 0)]> w.(w_states);
                  w_users := users; w_grants := w.(w_grants) |}.
Proof.
  intros Hwf Hn. assert (Hw : state_wf url_parses (Pending p None 0)).
  { by split_and!. }
  pose proof (Henc _ Hw) as Hd.
  split; [split; [done|]|].
  - intros Hinv. split; [intros h' v p' a'|intros h' v s']; simpl;
      (destruct (decide (h = h')) as [<-|Hne];
       [rewrite lookup_insert_eq; intros [= <-]; rewrite Hd
       |rewrite lookup_insert_ne by done; apply Hinv]); [naive_solver|by intros [= <-]].
  - intros h'. simpl. destruct (decide (h = h')) as [<-|Hne].
    + rewrite Hn, lookup_insert_eq. eauto.
    + rewrite lookup_insert_ne by done. destruct (w_states w !! h'); auto.
Qed.

Lemma wp_create n p ttl w :
  payload_wf url_parses p → wp_ (create_loop n (Pending p None 0) ttl) (fun _ _ => True) w.
Proof.
  intros Hwf. revert w. induction n as [|n IH]; intros w; [by apply wp_ret|].
  apply wp_quiet; [done|]. intros w1 code w2 _ _ _. apply wp_quiet; [done|]. intros w3 u w4 _ _ _.
  apply wp_call. intros w5 x w6 _ Hs. split.
  - eapply outcome_guar; [|exact Hs]. intros [] w7; [|intros ->; apply guar_refl..].
    intros (Hn & _ & ->). by apply create_guar.
  - by destruct x as [[]|]; first [apply IH|apply wp_ret].
Qed.

Lemma poll_next_wf s now next :
  valid_time now → state_wf url_parses s → (evaluate_device_poll s now = TransitionPending next ∨
                evaluate_device_poll s now = TransitionSlowDown next) →
  legal s next ∧ state_wf url_parses next ∧ ∃ p l c, next = Pending p l c.
Proof.
  intros Hnow Hwf. unfold evaluate_device_poll. destruct (is_some_and _ _); [naive_solver|].
  destruct s as [p last c| | | |]; try naive_solver. destruct Hwf as (Hp & _ & Hc).
  destruct (is_some_and last _); intros [[= <-]|[= <-]].
  - split_and!; [|split_and!; [done|naive_solver|apply u32_saturating_add_range]|by eauto].
    constructor. unfold u32_saturating_add, clamp, in_u32, U32_MAX in *. lia.
  - split_and!; [by constructor|split_and!; [done|naive_solver|done]|by eauto].
Qed.

Lemma poll_approved s now p a :
  evaluate_device_poll s now = TransitionApproved p a →
  ∃ t, s = Approved p a t ∧ now < p.(dp_expires_at).
Proof.
  unfold evaluate_device_poll. destruct (is_some_and (device_authorization_payload s) _) eqn:He; [done|].
  destruct s as [? last ?| |p' a' t| |]; try done.
  - by destruct (is_some_and last _).
  - intros [= -> ->]. simpl in He. boolify. eauto.
Qed.

Lemma wp_poll_replace code s next commit retry w (Q : _ → W → Prop) :
  ok_stored url_parses dec s → (∀ h w, may_write url_parses dec h s next w) →
  (∀ w', dev_rely url_parses dec w w' → wp_ retry Q w') → (∀ w', Q (Ok commit) w') →
  (∀ w', Q (Ok CommitExpired) w') → (∀ e w', Q (Err e) w') →
  wp_ (poll_replace code s.(sd_version) next commit retry) Q w.
Proof.
  intros Hok Hm Hre H1 H2 H3. apply wp_port. intros w1 x w2 Hr Hs.
  assert (Hg : guar _ (ReplaceByDeviceCode code s.(sd_version) next) w1 x w2).
  { eapply outcome_guar; [|exact Hs]. intros a w3 Hc.
    by eapply (compare_set_guar _ _ _ _ _ _ _ _ id). }
  split; [done|]. intros w3 Hr3. destruct x as [[]|]; cbn [map_err]; [by apply wp_ret| |by apply wp_ret..].
  apply Hre. etrans; [done|]. etrans; [apply Hg|done].
Qed.

Lemma wp_poll n code client w :
  inv w →
  wp_ (poll_loop n code client) (fun r w' => task_post hash (TPoll code client) (RPoll r) w') w.
Proof.
  revert w. induction n as [|n IH]; intros w Hrec; [by apply wp_ret|].
  apply wp_port. intros w1 x w2 Hr Hs. split; [by apply quiet_guar|]. intros w3 Hr3.
  pose proof (quiet_guar _ (LoadByDeviceCode code) _ _ _ eq_refl Hs) as [Hr2 _].
  destruct x as [[s|]|e]; cbn [map_err]; [|by apply wp_ret..].
  apply load_stored in Hs as [Hv Hok]; [|by apply Hr]. destruct (is_some_and _ _) eqn:Hcl; [by apply wp_ret|].
  apply wp_quiet; [done|]. intros w4 now w5 Hr4 [Hnow _] Hr5.
  assert (Hrely : dev_rely url_parses dec w w5) by (do 3 (etrans; [done|]); by etrans).
  assert (Hm : ∀ next, (evaluate_device_poll s.(sd_state) now = TransitionPending next ∨
      evaluate_device_poll s.(sd_state) now = TransitionSlowDown next) →
    ∀ h w, may_write url_parses dec h s next w).
  { intros next He h w'. destruct (poll_next_wf _ _ _ Hnow (proj2 Hok) He) as (? & ? & p & l & c & ->).
    split_and!; [done..|]. naive_solver. }
  destruct (evaluate_device_poll s.(sd_state) now) as [next| |next|p a| | |] eqn:He;
    try (by apply wp_ret).
  - apply wp_poll_replace; try done; [by eauto|]. intros w' Hw'. apply IH. by apply Hw', Hrely.
  - apply wp_poll_replace; try done; [by eauto|]. intros w' Hw'. apply IH. by apply Hw', Hrely.
  - apply wp_ret. intros w6 Hr6. simpl.
    destruct (poll_approved _ _ _ _ He) as (t & Hst & _).
    rewrite Hst in Hcl. simpl in Hcl. boolify. split; [by apply dec_stable|].
    destruct (proj2 Hr Hrec) as [Hrec1 _].
    destruct (Hrec1 _ _ p a Hv) as (g & Hg & ?); [right; rewrite (proj1 Hok), Hst; eauto|].
    exists g. split; [|done]. apply Hr6, Hr5, Hr4, Hr3, Hr2, Hg.
Qed.

Lemma wp_task t w :
  task_wf url_parses t → inv w → wp_ (task_prog t) (task_post hash t) w.
Proof.
  intros Ht Hrec. destruct t as [p ttl|code client|u approval client|u]; apply wp_bind; try apply _.
  - unfold create_unique. destruct (_ || _); [by apply wp_ret; intros; apply wp_ret|].
    eapply wp_mono; [by apply wp_create|]. intros; by apply wp_ret.
  - eapply wp_mono; [by apply wp_poll|]. intros r w' Hp. apply wp_ret. intros w'' [Hg _].
    destruct r as [[]|]; try done. simpl in *. naive_solver.
  - eapply wp_mono; [apply wp_inv; [done|by apply wp_prepare]|].
    intros [[p|]|] w' [Hok Hi]; [|by apply wp_ret..].
    apply wp_bind; [apply _|]. apply wp_quiet; [done|]. intros w1 cid w2 Hr1 [Hcid _] Hr2.
    eapply wp_mono; [apply wp_decide_loop|by intros; apply wp_ret].
    + intros. by apply wp_approve_once.
    + by intros s [= <-].
    + by apply Hr2, Hr1.
  - eapply wp_mono; [apply wp_inv; [done|by apply wp_prepare]|].
    intros [[p|]|] w' [Hok Hi]; [|by apply wp_ret..].
    apply wp_bind; [apply _|]. eapply wp_mono; [apply wp_decide_loop|by intros; apply wp_ret].
    + intros. by apply wp_deny_once.
    + by intros s [= <-].
    + done.
Qed.

Lemma tasks_ok (ts : list task) w :
  Forall (task_wf url_parses) ts → inv w →
  pool_ok (fun _ => dev_step hash ukey enc dec) (fun _ => dev_rely url_parses dec) (fun _ => guar)
    (fun i r w' => ∀ t, ts !! i = Some t → task_post hash t r w') (task_prog <$> ts, w).
Proof.
  intros Hts Hr i p Hp. apply list_lookup_fmap_Some in Hp as (t & -> & Ht).
  eapply wp_mono; [apply wp_task; [by eapply Forall_lookup_1|done]|]. intros r w' Hpost t' Ht'. by simplify_eq.
Qed.

Lemma pool_inv (ts : list task) w c :
  Forall (task_wf url_parses) ts → inv w →
  pool_steps (fun _ => dev_step hash ukey enc dec) (task_prog <$> ts, w) c →
  pool_ok (fun _ => dev_step hash ukey enc dec) (fun _ => dev_rely url_parses dec) (fun _ => guar)
    (fun i r w' => ∀ t, ts !! i = Some t → task_post hash t r w') c ∧ inv c.2.
Proof.
  intros Hts Hr Hs.
  destruct (pool_steps_ok _ _ _ (fun _ => _) (fun _ _ _ _ _ _ _ _ H => proj1 H) _ _
    (tasks_ok ts w Hts Hr) Hs) as [Hok Hg].
  split; [done|]. clear -Hg Hr. simpl in Hg. revert Hr.
  induction Hg as [|a b c' (i & X & e & x & [[_ Hab] _]) _ IH]; auto.
Qed.
End facts.

Lemma ref_enc s : state_wf no_urls s → ref_dec (id s) = Some s.
Proof. intros H. unfold ref_dec. by rewrite decide_True. Qed.

Lemma outcome_done {V A E} (w : dev_world V) (op : A → dev_world V → Prop) (a : A) w' :
  op a w' → outcome w op (Ok a : result A E) w'.
Proof. intros. exists w'. split; [by split_and!|]. left. eauto. Qed.

Lemma ref_load_step h (w : dev_world DeviceAuthorizationState) :
  outcome w (load ref_dec h w) (ref_load h w) w.
Proof.
  unfold ref_load. destruct (w_states w !! h) as [v|] eqn:Hv; [|by apply outcome_done].
  destruct (ref_dec v) as [s|] eqn:Hd; [by apply outcome_done|].
  exists w. split; [by split_and!|]. right. eexists. split; [done|by left].
Qed.

Lemma ref_set_step h v next (cond : bool) (P : Prop) fin (w : dev_world DeviceAuthorizationState) a w' :
  (cond = true → P) → ref_set h v next cond fin w = (a, w') →
  compare_set id h v next P fin w a w' ∧ a ≠ AtomicDeadlineElapsed.
Proof.
  intros HP. unfold ref_set. destruct (_ && _) eqn:Hc; intros [= <- <-]; [|done].
  boolify. split; [|done]. split_and!; auto.
Qed.

Lemma ref_handle_step now X e w x w' :
  valid_time now → ref_handle now X e w = Some (x, w') → dev_step id id id ref_dec X e w x w'.
Proof.
  intros Hnow. destruct e; simpl; intros Hh; try (simplify_eq; by split_and!).
  - destruct (w_states w !! device_code) eqn:H1; [|destruct (w_users w !! user_code) eqn:H2];
      simplify_eq; by apply outcome_done.
  - simplify_eq. apply ref_load_step.
  - simplify_eq. apply ref_load_step.
  - simplify_eq. by apply outcome_done.
  - destruct (ref_set _ _ _ _ _ _) as [a w1] eqn:Hs. simplify_eq. apply outcome_done.
    by eapply ref_set_step.
  - destruct (ref_set _ _ _ _ _ _) as [a w1] eqn:Hs. simplify_eq. apply outcome_done.
    destruct (ref_set_step _ _ _ _ True _ _ _ _ (fun _ => I) Hs) as [Hc Hn]. by destruct a.
  - destruct (ref_set _ _ _ _ _ _) as [a w1] eqn:Hs. simplify_eq. apply outcome_done.
    eapply ref_set_step; [|exact Hs]. by intros ?%bool_decide_eq_true.
  - destruct (ref_set _ _ _ _ _ _) as [a w1] eqn:Hs. simplify_eq. apply outcome_done.
    eapply ref_set_step; [|exact Hs]. by intros ?%bool_decide_eq_true.
  - case_decide; simplify_eq; by apply outcome_done.
  - simplify_eq. by apply outcome_done.
Qed.

Lemma example_inv : dev_inv no_urls ref_dec example_start.
Proof. split; [intros h v p a Hv|intros h v s Hv]; simpl in Hv; by rewrite lookup_empty in Hv. Qed.

Lemma example_tasks_wf : Forall (task_wf no_urls) example_tasks.
Proof. repeat constructor; apply (bool_decide_unpack _); vm_compute; done. Qed.

Lemma example_now : valid_time NANOS.
Proof. apply (bool_decide_unpack _). vm_compute. done. Qed.

(** C13: in every interleaving of device requests, polls, approvals and denials,
    each step leaves every stored authorization as it is, removes it, or moves
    it along the state machine [legal]: the payload never changes, an approval
    is claimed once and keeps its user, a claim is taken over only when stale,
    completion follows the recorded grant, and [Approved], [Denied] and
    [Consumed] are final.  A new entry is a fresh pending one. *)
Theorem device_states_move_forward {V} url_parses (hash ukey : string → string)
    (enc : DeviceAuthorizationState → V) (dec : V → option DeviceAuthorizationState)
    (ts : list task) (w : dev_world V) c c' :
  (∀ s, state_wf url_parses s → dec (enc s) = Some s) →
  Forall (task_wf url_parses) ts → dev_inv url_parses dec w →
  pool_steps (fun _ => dev_step hash ukey enc dec) (task_prog <$> ts, w) c →
  pool_step (fun _ => dev_step hash ukey enc dec) c c' →
  evolves dec c.2 c'.2.
Proof.
  intros Henc Hts Hr Hs Hs'. destruct (pool_inv _ _ _ _ _ Henc ts w c Hts Hr Hs) as [Hok _].
  by destruct (pool_step_ok _ _ _ (fun _ => _) (fun _ _ _ _ _ _ _ _ H => proj1 H) _ _ Hok Hs')
    as (_ & i & X & e & x & _ & He).
Qed.

Lemma device_states_move_forward_witness :
  ∃ c c', example_run (take 8 example_schedule) = Some c ∧
    pool_run (ref_handle NANOS) [1%nat] c = Some c' ∧ evolves ref_dec c.2 c'.2.
Proof.
  assert (Hsome : match example_run (take 8 example_schedule) with
    | Some c => is_some (pool_run (ref_handle NANOS) [1%nat] c)
    | None => false end = true) by (vm_compute; reflexivity).
  destruct (example_run (take 8 example_schedule)) as [c|] eqn:Hrun; [|discriminate Hsome].
  destruct (pool_run (ref_handle NANOS) [1%nat] c) as [c'|] eqn:Hstep; [|discriminate Hsome].
  exists c, c'. split; [reflexivity|]. split; [exact Hstep|].
  apply (device_states_move_forward no_urls id id id ref_dec example_tasks example_start c c'
    ref_enc example_tasks_wf example_inv).
  - eapply pool_run_steps; [|exact Hrun]. intros _ X e v x v'. apply ref_handle_step, example_now.
  - eapply pool_run_step; [|exact Hstep]. intros _ X e v x v'. apply ref_handle_step, example_now.
Defined.

(** C22: a token rests on a durable grant.  Whatever the interleaving, the
    expiries and the failures: when a poll returns an approved authorization,
    it is for the polling client, and the repository has recorded the grant of
    exactly its user, scopes, resources and details under the device code; and
    every approval the store holds as recorded or complete has its grant. *)
Theorem approved_poll_has_grant {V} url_parses (hash ukey : string → string)
    (enc : DeviceAuthorizationState → V) (dec : V → option DeviceAuthorizationState)
    (ts : list task) (w : dev_world V) c :
  (∀ s, state_wf url_parses s → dec (enc s) = Some s) →
  Forall (task_wf url_parses) ts → dev_inv url_parses dec w →
  pool_steps (fun _ => dev_step hash ukey enc dec) (task_prog <$> ts, w) c →
  dev_inv url_parses dec c.2 ∧
  ∀ i code client ad,
    ts !! i = Some (TPoll code client) →
    c.1 !! i = Some (Ret (RPoll (Ok (CommitApproved ad)))) →
    ad.(ad_payload).(dp_client_id) = client ∧
    ∃ g, g ∈ c.2.(w_grants) ∧ grant_for (hash code) ad.(ad_payload) ad.(ad_approval) g.
Proof.
  intros Henc Hts Hr Hs. destruct (pool_inv _ _ _ _ _ Henc ts w c Hts Hr Hs) as [Hok Hrec].
  split; [done|]. intros i code client ad Ht Hret.
  apply (Hok i _ Hret _ (PreOrder_Reflexive _) _ Ht).
Qed.

Lemma approved_poll_has_grant_witness :
  ∃ c, example_run example_schedule = Some c ∧ dev_inv no_urls ref_dec c.2 ∧
    ∃ g, g ∈ c.2.(w_grants) ∧ grant_for "device" example_payload example_approval g.
Proof.
  assert (Hret : match example_run example_schedule with
    | Some (ts, _) => match ts !! 2%nat with
                      | Some (Ret r) => r = RPoll (Ok (CommitApproved
                          {| ad_payload := example_payload; ad_approval := example_approval |}))
                      | _ => False end
    | None => False end) by (vm_compute; reflexivity).
  destruct (example_run example_schedule) as [[ts w]|] eqn:Hrun; [|destruct Hret].
  destruct (ts !! 2%nat) as [[r|]|] eqn:Hts; [subst r|destruct Hret..].
  exists (ts, w). split; [reflexivity|].
  destruct (approved_poll_has_grant no_urls id id id ref_dec example_tasks example_start (ts, w)
    ref_enc example_tasks_wf example_inv) as [Hrec Hpoll].
  - eapply pool_run_steps; [|exact Hrun]. intros _ X e v x v'. apply ref_handle_step, example_now.
  - split; [exact Hrec|].
    exact (proj2 (Hpoll 2%nat "device"%string "tv"%string _ eq_refl Hts)).
Defined.

(** ** Pacing and the request policy *)

Lemma seconds_since_nonneg a b : b ≤ a → 0 ≤ seconds_since a b.
Proof. intros. unfold seconds_since, NANOS. apply Z.quot_pos; lia. Qed.

Lemma required_wait_min p c :
  in_u64 p.(dp_interval_seconds) → in_u32 c →
  required_wait p c = Z.min U64_MAX (p.(dp_interval_seconds) + 5 * c).
Proof.
  unfold required_wait, u64_saturating_add, u64_saturating_mul, clamp,
    DEVICE_SLOW_DOWN_INCREMENT_SECONDS, in_u64, in_u32, U64_MAX, U32_MAX. lia.
Qed.

(** Polling is paced as RFC 8628 asks.  A poll of a live pending
    authorization slows the device down exactly when fewer whole seconds than
    the interval plus five per earlier slow-down have passed since its last
    poll (a clock that went back counts as too early); a slow-down raises the
    wait by five seconds, the counter and the wait saturating at their width. *)
Theorem device_poll_pacing p last c now :
  in_u64 p.(dp_interval_seconds) → in_u32 c → now < p.(dp_expires_at) →
  evaluate_device_poll (Pending p last c) now =
    (if match last with
        | Some l => seconds_since now l <? Z.min U64_MAX (p.(dp_interval_seconds) + 5 * c)
        | None => false
        end
     then TransitionSlowDown (Pending p (Some now) (Z.min U32_MAX (c + 1)))
     else TransitionPending (Pending p (Some now) c)) ∧
  (c < U32_MAX → required_wait p (c + 1) = Z.min U64_MAX (required_wait p c + 5)).
Proof.
  intros Hi Hc Hexp. split.
  - unfold evaluate_device_poll. simpl. rewrite (proj2 (Z.leb_gt _ _)) by done.
    rewrite required_wait_min by done.
    destruct last as [l|]; simpl; [|done].
    assert (Hmin : u32_saturating_add c 1 = Z.min U32_MAX (c + 1)).
    { unfold u32_saturating_add, clamp, in_u32, U32_MAX in *. lia. }
    rewrite Hmin. unfold u64_try_from_i64. destruct (Z.ltb_spec (seconds_since now l) 0).
    + simpl. rewrite (proj2 (Z.ltb_lt _ _)); [done|].
      unfold in_u64, in_u32, U64_MAX, U32_MAX in *. lia.
    + rewrite (proj2 (Z.leb_le 0 _)) by done. simpl. by destruct (_ <? _).
  - intros. rewrite !required_wait_min by (unfold in_u32 in *; done || lia). lia.
Qed.

Lemma device_poll_pacing_witness :
  evaluate_device_poll (Pending example_payload (Some 0) 1) (9 * NANOS)
    = TransitionSlowDown (Pending example_payload (Some (9 * NANOS)) 2).
Proof.
  destruct (device_poll_pacing example_payload (Some 0) 1 (9 * NANOS)) as [H _].
  - unfold in_u64, U64_MAX. simpl. lia.
  - unfold in_u32, U32_MAX. lia.
  - unfold NANOS. simpl. unfold NANOS. lia.
  - exact H.
Defined.

Lemma expires_min now d :
  unwrap_or (checked_add_signed now d) MAX_UTC = Z.min MAX_UTC (now + d).
Proof. unfold checked_add_signed. destruct (Z.leb_spec (now + d) MAX_UTC); simpl; lia. Qed.

Lemma all_in_spec items allowed : all_in items allowed = true ↔ items ⊆ allowed.
Proof.
  unfold all_in. rewrite forallb_forall. split.
  - intros H x Hx. apply list_elem_of_In in Hx. by apply H, bool_decide_eq_true in Hx.
  - intros H x Hx%list_elem_of_In. apply bool_decide_eq_true. auto.
Qed.

Lemma request_scoped input :
  0 ≤ input.(rp_ttl_seconds) →
  (∀ p, device_authorization_request_payload input = Some (Ok p) ↔
    admitted input ∧ ¬ I64_MAX / 1000 < input.(rp_ttl_seconds) ≤ I64_MAX ∧
    p = {| dp_client_id := input.(rp_client_id); dp_client_name := input.(rp_client_name);
           dp_scopes := input.(rp_requested_scopes);
           dp_resource_indicators := requested_or_default input;
           dp_authorization_details := JArray [];
           dp_interval_seconds := input.(rp_interval_seconds);
           dp_issued_at := input.(rp_now);
           dp_expires_at := Z.min MAX_UTC
             (input.(rp_now) + Z.min (I64_MAX / 1000) input.(rp_ttl_seconds) * NANOS) |}) ∧
  (device_authorization_request_payload input = None ↔
    admitted input ∧ I64_MAX / 1000 < input.(rp_ttl_seconds) ≤ I64_MAX).
Proof.
  intros Httl. unfold device_authorization_request_payload, admitted. fold (requested_or_default input).
  destruct (rp_enabled input); [|naive_solver]. destruct (rp_client_active input); [|naive_solver].
  destruct (rp_client_supports_grant input); [|naive_solver]. simpl.
  destruct (all_in (rp_requested_scopes input) _) eqn:Hs; simpl; cycle 1.
  { apply not_true_iff_false in Hs. rewrite all_in_spec in Hs. naive_solver. }
  destruct (all_in (requested_or_default input) _) eqn:Hr; simpl; cycle 1.
  { apply not_true_iff_false in Hr. rewrite all_in_spec in Hr. naive_solver. }
  apply all_in_spec in Hs, Hr.
  assert (Hmax : I64_MAX / 1000 = 9223372036854775) by reflexivity.
  unfold i64_try_from_u64, duration_seconds. rewrite Hmax.
  destruct (Z.leb_spec (rp_ttl_seconds input) I64_MAX) as [Hle|Hgt]; simpl.
  - destruct (Z.leb_spec (rp_ttl_seconds input) 9223372036854775).
    + rewrite (proj2 (Z.leb_le _ _)) by lia. simpl. rewrite expires_min. split; [|naive_solver lia].
      rewrite (Z.min_r 9223372036854775) by lia. intros p. naive_solver lia.
    + rewrite andb_false_r. naive_solver lia.
  - simpl. rewrite expires_min, (Z.min_l 9223372036854775); [|unfold I64_MAX in *; lia].
    split; [|naive_solver lia]. intros p. naive_solver lia.
Qed.

Lemma empty_details_stored url_parses : stored_details url_parses (JArray []).
Proof. split; [|split_and!; by vm_compute; try lia]. exists []. split_and!; [done|simpl; lia|constructor]. Qed.

Lemma valid_expiry now ttl : valid_time now → 0 ≤ ttl → valid_time (Z.min MAX_UTC (now + ttl)).
Proof. unfold valid_time, MIN_UTC, MAX_UTC, NANOS. lia. Qed.

(** The request policy, on every input: an authorization is granted exactly
    to an enabled feature's active client that may use the grant, for scopes and
    resources (the default one when none is named) it is allowed, and it lives
    for its time to live, capped by the calendar; the computation fails to return
    exactly for admitted requests whose lifetime in seconds is beyond [chrono]'s
    durations but within [i64].  What is granted is well formed. *)
Theorem device_request_scoped input :
  0 ≤ input.(rp_ttl_seconds) →
  (∀ p, device_authorization_request_payload input = Some (Ok p) ↔
    admitted input ∧ ¬ I64_MAX / 1000 < input.(rp_ttl_seconds) ≤ I64_MAX ∧
    p = {| dp_client_id := input.(rp_client_id); dp_client_name := input.(rp_client_name);
           dp_scopes := input.(rp_requested_scopes);
           dp_resource_indicators := requested_or_default input;
           dp_authorization_details := JArray [];
           dp_interval_seconds := input.(rp_interval_seconds);
           dp_issued_at := input.(rp_now);
           dp_expires_at := Z.min MAX_UTC
             (input.(rp_now) + Z.min (I64_MAX / 1000) input.(rp_ttl_seconds) * NANOS) |}) ∧
  (device_authorization_request_payload input = None ↔
    admitted input ∧ I64_MAX / 1000 < input.(rp_ttl_seconds) ≤ I64_MAX) ∧
  (in_u64 input.(rp_interval_seconds) → valid_time input.(rp_now) →
   ∀ p url_parses, device_authorization_request_payload input = Some (Ok p) →
     payload_wf url_parses p).
Proof.
  intros Httl. destruct (request_scoped input Httl) as [Hok Hnone]. split; [done|]. split; [done|].
  intros Hi Hn p url_parses (_ & _ & ->)%Hok. split; [done|]. split; [done|].
  split; [|apply empty_details_stored]. apply valid_expiry; [done|].
  assert (I64_MAX / 1000 = 9223372036854775) as -> by reflexivity. unfold NANOS. lia.
Qed.

Lemma device_request_scoped_witness :
  ∃ p, device_authorization_request_payload example_policy = Some (Ok p) ∧
    p.(dp_resource_indicators) = ["https://api.example"%string].
Proof.
  eexists. split.
  - apply (proj1 (device_request_scoped example_policy ltac:(simpl; lia))).
    split; [|split; [|reflexivity]].
    + split_and!; [reflexivity..| |]; intros x Hx; exact Hx.
    + intros [H _]. vm_compute in H. discriminate H.
  - reflexivity.
Defined.
