(* ===== verification/ValkeyDevice.v ===== *)
(** * The device-authorization store on Valkey

    [crates/state-store-valkey/src/device.rs]: the five Lua scripts, one
    definition each, and the adapter that runs them behind
    [DeviceStateStorePort].  The digest (blake3, in hexadecimal) and serde_json
    are parameters.  [device_handle] is the port's implementation: its effect on
    a server and its reply, for a given behaviour of the connection. *)
From stdpp Require Import base list strings gmap.
From S2P Require Import Prelude Chrono Text Json Valkey DeviceGrant.

Local Open Scope string_scope.
Local Open Scope rust_scope.
Open Scope Z_scope.

(** ** [keys.rs] *)

Definition normalize_user_code (value : string) : string :=
  of_bytes (to_ascii_uppercase <$> filter is_ascii_alphanumeric (bytes value)).

Definition device_code_hash (h : string) : string := "oauth:device:code:" +:+ h.

Definition state_key (namespace key : string) : string := namespace +:+ key.

(** ** The scripts *)
Section scripts.
Context {K : Type} `{!Valkey K}.

Definition CREATE_DEVICE_SCRIPT (key1 key2 state hash : string) (ttl : Z) : script K string := fun k =>
  if vk_exists k key1 then (Ok "device_collision", k)
  else if vk_exists k key2 then (Ok "user_collision", k)
  else then_set_ex key1 state ttl (then_set_ex key2 hash ttl (reply "applied")) k.

Definition SNAPSHOT_DEVICE_SCRIPT (key : string) : script K (option (string * Z)) := fun k =>
  (Ok (match vk_get k key with
       | Some value => Some (value, vk_pexpiretime k key)
       | None => None
       end), k).

(** [KEYS[2]] and [ARGV[3]] are present for a decision's claim. *)
Definition COMPARE_SET_DEVICE_SCRIPT (key expected replacement : string)
    (user : option (string * string)) : script K string := fun k =>
  if negb (bool_decide (vk_get k key = Some expected)) then (Ok "conflict", k)
  else if is_some_and user (fun '(key2, hash) => negb (bool_decide (vk_get k key2 = Some hash)))
  then (Ok "conflict", k)
  else
    let deadline := vk_pexpiretime k key in
    if deadline =? -2 then (Ok "deadline_elapsed", k)
    else if deadline =? -1 then (Ok "invalid_deadline", k)
    else if deadline <=? vk_time_ms k then (Ok "deadline_elapsed", vk_del key k)
    else (Ok "applied", vk_pexpireat key deadline (vk_set key replacement k)).

Definition COMPLETE_DEVICE_DECISION_SCRIPT (key1 key2 expected replacement hash : string)
    : script K string := fun k =>
  if negb (bool_decide (vk_get k key1 = Some expected)) then (Ok "conflict", k)
  else if negb (bool_decide (vk_get k key2 = Some hash)) then (Ok "conflict", k)
  else
    let deadline := vk_pexpiretime k key1 in
    if deadline =? -2 then (Ok "deadline_elapsed", vk_del key2 k)
    else if deadline =? -1 then (Ok "invalid_deadline", k)
    else if deadline <=? vk_time_ms k then
      (Ok "deadline_elapsed", vk_del key2 (vk_del key1 k))
    else (Ok "applied", vk_del key2 (vk_pexpireat key1 deadline (vk_set key1 replacement k))).

Definition DELETE_USER_CODE_IF_MATCHES_SCRIPT (key hash : string) : script K string := fun k =>
  if negb (bool_decide (vk_get k key = Some hash)) then (Ok "conflict", k)
  else (Ok "applied", vk_del key k).
End scripts.

(** ** Replies and errors *)

Definition parse_atomic_result (r : string) : result DeviceAtomicResult ErrorKind :=
  if decide (r = "applied") then Ok AtomicApplied
  else if decide (r = "conflict") then Ok AtomicConflict
  else if decide (r = "deadline_elapsed") then Ok AtomicDeadlineElapsed
  else if decide (r = "invalid_deadline") then Err Protocol
  else Err UnexpectedResult.

Definition parse_create_result (r : string) : result DeviceCreateResult ErrorKind :=
  if decide (r = "applied") then Ok CreateApplied
  else if decide (r = "device_collision") then Ok DeviceCodeCollision
  else if decide (r = "user_collision") then Ok UserCodeCollision
  else Err UnexpectedResult.

Definition port_error (kind : ErrorKind) : DeviceStatePortError :=
  match kind with
  | Timeout | KindUnavailable => StateUnavailable
  | Protocol | KindCorruptData => StateCorruptData
  | UnexpectedResult => StateUnexpected
  end.

(** ** The adapter *)
Section store.
Context {K : Type} `{!Valkey K}.
Context (digest : string → string) (to_string : DeviceAuthorizationState → option string).
Context (from_str : string → option DeviceAuthorizationState).
Context (namespace : string).

Definition device_code (code : string) : string := device_code_hash (digest code).

Definition device_user_code (user_code : string) : string :=
  "oauth:device:user_code:" +:+ digest (normalize_user_code user_code).

Definition serialize_state (state : DeviceAuthorizationState) : result string ErrorKind :=
  ok_or (to_string state) Protocol.

(** A script's reply, parsed: [command::eval_string(..).await?] and a [match]. *)
Definition eval_parse {Q R} (parse : Q → result R ErrorKind) (tr : transport)
    (s : script K Q) (k : K) : result R ErrorKind * K :=
  let '(r, k') := eval tr s k in (let? value := r in parse value, k').

Definition create (tr : transport) (code user_code : string) (state : DeviceAuthorizationState)
    (ttl_seconds : Z) (k : K) : result DeviceCreateResult ErrorKind * K :=
  match serialize_state state with
  | Err e => (Err e, k)
  | Ok raw =>
      let device_hash := digest code in
      eval_parse parse_create_result tr
        (CREATE_DEVICE_SCRIPT (state_key namespace (device_code_hash device_hash))
           (state_key namespace (device_user_code user_code)) raw device_hash ttl_seconds) k
  end.

Definition load_snapshot (tr : transport) (key : string) (k : K)
    : result (option (StoredDeviceAuthorization string)) ErrorKind * K :=
  let '(snapshot, k') := eval tr (SNAPSHOT_DEVICE_SCRIPT (state_key namespace key)) k in
  (let? snapshot := snapshot in
   match snapshot with
   | None => Ok None
   | Some (raw, deadline) =>
       if deadline =? -2 then Ok None
       else if deadline =? -1 then Err Protocol
       else let? value := ok_or (from_str raw) Protocol in
            Ok (Some {| sd_state := value; sd_version := raw |})
   end, k').

Definition resolve_user_code (tr : transport) (user_code : string) (k : K)
    : result (option string) ErrorKind * K :=
  eval tr (fun k => (Ok (vk_get k (state_key namespace (device_user_code user_code))), k)) k.

Definition replace_snapshot (tr : transport) (key expected replacement : string)
    (user_code_mapping : option (string * string)) (k : K) : result DeviceAtomicResult ErrorKind * K :=
  eval_parse parse_atomic_result tr
    (COMPARE_SET_DEVICE_SCRIPT (state_key namespace key) expected replacement
       ((fun '(user_code, device_hash) =>
           (state_key namespace (device_user_code user_code), device_hash)) <$> user_code_mapping)) k.

(** [replace_snapshot] of a state that serializes. *)
Definition replace_state (tr : transport) (key expected : string)
    (replacement : DeviceAuthorizationState) (user_code_mapping : option (string * string)) (k : K)
    : result DeviceAtomicResult ErrorKind * K :=
  match serialize_state replacement with
  | Err e => (Err e, k)
  | Ok raw => replace_snapshot tr key expected raw user_code_mapping k
  end.

Definition replace_by_device_hash (tr : transport) (h version : string)
    (replacement : DeviceAuthorizationState) (k : K)
    : result (DeviceStateReplacement string) ErrorKind * K :=
  match serialize_state replacement with
  | Err e => (Err e, k)
  | Ok raw =>
      let '(r, k') := replace_snapshot tr (device_code_hash h) version raw None k in
      (let? a := r in
       Ok (match a with
           | AtomicApplied => ReplacementApplied raw
           | AtomicConflict => ReplacementConflict
           | AtomicDeadlineElapsed => ReplacementDeadlineElapsed
           end), k')
  end.

Definition complete_decision_snapshot (tr : transport) (h user_code expected : string)
    (replacement : DeviceAuthorizationState) (k : K) : result DeviceAtomicResult ErrorKind * K :=
  match serialize_state replacement with
  | Err e => (Err e, k)
  | Ok raw =>
      eval_parse parse_atomic_result tr
        (COMPLETE_DEVICE_DECISION_SCRIPT (state_key namespace (device_code_hash h))
           (state_key namespace (device_user_code user_code)) expected raw h) k
  end.

Definition delete_user_code_if_matches (tr : transport) (user_code h : string) (k : K)
    : result DeviceAtomicResult ErrorKind * K :=
  eval_parse parse_atomic_result tr
    (DELETE_USER_CODE_IF_MATCHES_SCRIPT (state_key namespace (device_user_code user_code)) h) k.

Definition ported {R} (r : result R ErrorKind * K) : option (result R DeviceStatePortError * K) :=
  Some (map_err port_error r.1, r.2).

(** [impl DeviceStateStorePort for DeviceStore]; the grant repository, the
    clock and the generators are other ports. *)
Definition device_handle (tr : transport) (X : Type) (e : devE string X) (k : K)
    : option (X * K) :=
  match e in devE _ X return option (X * K) with
  | Create code u st ttl => ported (create tr code u st ttl k)
  | LoadByDeviceCode code => ported (load_snapshot tr (device_code code) k)
  | LoadByDeviceHash h => ported (load_snapshot tr (device_code_hash h) k)
  | ResolveUserCode u => ported (resolve_user_code tr u k)
  | ReplaceByDeviceCode code v next => ported (replace_state tr (device_code code) v next None k)
  | ReplaceByDeviceHash h v next => ported (replace_by_device_hash tr h v next k)
  | ClaimDecision h u v next =>
      ported (replace_state tr (device_code_hash h) v next (Some (u, h)) k)
  | CompleteDecision h u v next => ported (complete_decision_snapshot tr h u v next k)
  | DeleteUserCodeIfMatches u h => ported (delete_user_code_if_matches tr u h k)
  | UpsertGrant _ | CurrentTime | GenerateDeviceCode | GenerateUserCode | UuidNowV7 => None
  end.
End store.
