(* ===== verification/ValkeyDeviceFacts.v ===== *)
(** * The Valkey device store implements its port

    [refines] relates a server to the store of [DeviceGrantFacts]: the entries
    under the code keys are the states, those under the user-code keys the live
    user codes.  Every call of the adapter is a step of that store, so the
    guarantees proved against the port hold of the services running over
    Valkey. *)
From stdpp Require Import base list strings gmap relations.
From S2P Require Import Prelude Chrono Effects Json ExampleCodec AuthorizationDetails Valkey.
From S2P Require Import DeviceGrant DeviceGrantFacts ValkeyDevice.

Local Open Scope string_scope.
Local Open Scope rust_scope.
Open Scope Z_scope.

Section facts.
Context {K : Type} `{!Valkey K, !ValkeyLaws K}.
Context (digest : string → string) (to_string : DeviceAuthorizationState → option string).
Context (from_str : string → option DeviceAuthorizationState).
Context (namespace : string).
Notation W := (dev_world string).

Definition code_key (h : string) : string := state_key namespace (device_code_hash h).
Definition user_key (x : string) : string := state_key namespace ("oauth:device:user_code:" +:+ x).
Definition user_hash (user_code : string) : string := digest (normalize_user_code user_code).
Definition encode (s : DeviceAuthorizationState) : string := unwrap_or (to_string s) "".

Definition refines (w : W) (k : K) : Prop :=
  (∀ h, w.(w_states) !! h = vk_get k (code_key h)) ∧
  (∀ x, w.(w_users) !! x = vk_get k (user_key x)).

(** Time passes on the server: keys reach their deadlines. *)
Definition elapses (k k' : K) : Prop :=
  ∀ key, vk_get k' key = None ∨
    (vk_get k' key = vk_get k key ∧ vk_pexpiretime k' key = vk_pexpiretime k key).

(** The services over Valkey and the grant repository. *)
Definition valkey_step (X : Type) (e : devE string X) (s : K * list DeviceGrantWrite)
    : X → K * list DeviceGrantWrite → Prop :=
  match e in devE _ X return X → K * list DeviceGrantWrite → Prop with
  | UpsertGrant g => fun x s' => elapses s.1 s'.1 ∧
      (s'.2 = g :: s.2 ∨ (s'.2 = s.2 ∧ ∃ err, x = Err err))
  | CurrentTime => fun now s' => valid_time now ∧ elapses s.1 s'.1 ∧ s'.2 = s.2
  | UuidNowV7 => fun id s' => valid_uuid id ∧ elapses s.1 s'.1 ∧ s'.2 = s.2
  | GenerateDeviceCode | GenerateUserCode => fun _ s' => elapses s.1 s'.1 ∧ s'.2 = s.2
  | e => fun x s' => s'.2 = s.2 ∧ ∃ tr k1,
      device_handle digest to_string from_str namespace tr _ e s.1 = Some (x, k1) ∧
      elapses k1 s'.1
  end.

Definition valkey_refines (w : W) (s : K * list DeviceGrantWrite) : Prop :=
  refines w s.1 ∧ w.(w_grants) = s.2.

(** The lifetime of the entries a server keeps. *)
Definition same_deadlines (k k' : K) : Prop :=
  ∀ h, is_Some (vk_get k (code_key h)) → is_Some (vk_get k' (code_key h)) →
    vk_pexpiretime k' (code_key h) = vk_pexpiretime k (code_key h).

(** What a script does to the store: its reply with the effect the port
    promises, or an error. *)
Definition script_ok {Q A} (w : W) (op : A → W → Prop) (parse : Q → result A ErrorKind)
    (rk : result Q FredErrorKind * K) : Prop :=
  ∃ w1 w2, refines w2 rk.2 ∧ expires w1 w2 ∧
    match rk.1 with
    | Ok r => match parse r with Ok a => op a w1 | Err _ => w1 = w end
    | Err _ => w1 = w ∨ ∃ a, op a w1
    end.

Lemma code_key_inj h h' : code_key h = code_key h' → h = h'.
Proof. by intros H%(inj (String.append _))%(inj (String.append _)). Qed.

Lemma user_key_inj x x' : user_key x = user_key x' → x = x'.
Proof. by intros H%(inj (String.append _))%(inj (String.append _)). Qed.

Lemma code_user_key h x : code_key h ≠ user_key x.
Proof. intros H%(inj (String.append namespace)). discriminate H. Qed.

Lemma expires_refl (w : W) : expires w w.
Proof. by split_and!. Qed.

(** The keys of a server after a write, as a store. *)
Lemma refines_code (w : W) k k' h o :
  refines w k →
  (∀ key, vk_get k' key = if decide (code_key h = key) then o else vk_get k key) →
  refines {| w_states := partial_alter (fun _ => o) h w.(w_states); w_users := w.(w_users);
             w_grants := w.(w_grants) |} k'.
Proof.
  intros [Hs Hu] Hk. split; intros y; simpl; rewrite Hk.
  - case_decide as Hd.
    + apply code_key_inj in Hd as <-. apply lookup_partial_alter_eq.
    + rewrite lookup_partial_alter_ne by congruence. apply Hs.
  - rewrite decide_False by apply code_user_key. apply Hu.
Qed.

Lemma refines_user (w : W) k k' x o :
  refines w k →
  (∀ key, vk_get k' key = if decide (user_key x = key) then o else vk_get k key) →
  refines {| w_states := w.(w_states); w_users := partial_alter (fun _ => o) x w.(w_users);
             w_grants := w.(w_grants) |} k'.
Proof.
  intros [Hs Hu] Hk. split; intros y; simpl; rewrite Hk.
  - rewrite decide_False by (intros E; by apply (code_user_key y x)). apply Hs.
  - case_decide as Hd.
    + apply user_key_inj in Hd as <-. apply lookup_partial_alter_eq.
    + rewrite lookup_partial_alter_ne by congruence. apply Hu.
Qed.

Lemma refines_elapses (w : W) k k' :
  refines w k → elapses k k' → ∃ w', refines w' k' ∧ expires w w'.
Proof.
  intros [Hs Hu] Hel.
  exists {| w_states := filter (fun p => is_Some (vk_get k' (code_key p.1))) w.(w_states);
            w_users := filter (fun p => is_Some (vk_get k' (user_key p.1))) w.(w_users);
            w_grants := w.(w_grants) |}.
  split; [|split_and!; [apply map_filter_subseteq..|done]].
  split; intros y; simpl; rewrite map_lookup_filter, ?Hs, ?Hu;
    [destruct (Hel (code_key y)) as [E|[E _]]|destruct (Hel (user_key y)) as [E|[E _]]];
    rewrite E; destruct (vk_get k _) as [v|] eqn:Hv; cbn;
    try done; case_guard as Hg; try done; exfalso; rewrite E in Hg; revert Hg;
    rewrite ?is_Some_alt; naive_solver.
Qed.

Lemma eval_parse_outcome {Q A} w (op : A → W → Prop) (parse : Q → result A ErrorKind) tr
    (s : script K Q) k :
  refines w k → script_ok w op parse (s k) →
  ∃ w', refines w' (eval_parse parse tr s k).2 ∧
    outcome w op (map_err port_error (eval_parse parse tr s k).1) w'.
Proof.
  intros Hw (w1 & w2 & H2 & Hx & Hr). unfold eval_parse, eval. destruct tr as [[e []]|].
  - exists w2. split; [done|]. exists w1. split; [done|]. right. eexists. split; [done|].
    destruct (s k).1 as [r|]; [|done]. destruct (parse r); eauto.
  - exists w. split; [done|]. exists w. split; [apply expires_refl|]. right. eauto.
  - exists w2. destruct (s k) as [[r|e] k1]; simpl in *; (split; [done|]); exists w1; split; try done.
    + destruct (parse r); [left|right]; eauto.
    + right; eauto.
Qed.

Lemma script_same {Q A} w (op : A → W → Prop) (parse : Q → result A ErrorKind) k r :
  refines w k → match parse r with Ok a => op a w | Err _ => True end →
  script_ok w op parse (Ok r, k).
Proof.
  intros Hw Hr. exists w, w. split_and!; [done|apply expires_refl|]. simpl. by destruct (parse r).
Qed.

Lemma load_ok w h k :
  refines w k →
  script_ok w (load from_str h w)
    (fun snapshot =>
       match snapshot with
       | None => Ok None
       | Some (raw, deadline) =>
           if deadline =? -2 then Ok None
           else if deadline =? -1 then Err Protocol
           else let? value := ok_or (from_str raw) Protocol in
                Ok (Some {| sd_state := value; sd_version := raw |})
       end)
    (SNAPSHOT_DEVICE_SCRIPT (code_key h) k).
Proof.
  intros Hw. apply script_same; [done|]. unfold load. rewrite (proj1 Hw).
  destruct (vk_get k (code_key h)) as [raw|] eqn:Hg; [|done].
  destruct (_ =? -2) eqn:Hd.
  - apply Z.eqb_eq, vk_absent in Hd. congruence.
  - destruct (_ =? -1); [done|]. destruct (from_str raw) eqn:Hf; simpl; [|done]. by rewrite Hf.
Qed.

(** [SET] keeps the other keys, and the deadline it restores is in the future. *)
Lemma get_reset k key v deadline x :
  vk_time_ms k < deadline →
  vk_get (vk_pexpireat key deadline (vk_set key v k)) x =
    if decide (key = x) then Some v else vk_get k x.
Proof. intros. rewrite vk_get_pexpireat, vk_get_set; [done|]. by rewrite vk_time_set. Qed.

Lemma expires_delete (w : W) states users :
  states ⊆ w.(w_states) → users ⊆ w.(w_users) →
  expires w {| w_states := states; w_users := users; w_grants := w.(w_grants) |}.
Proof. intros. by split_and!. Qed.

Lemma compare_set_ok w k h v next raw user (cond : Prop) :
  refines w k → to_string next = Some raw →
  (cond ↔ match user with None => True | Some (u, h') => w.(w_users) !! user_hash u = Some h' end) →
  script_ok w (compare_set encode h v next cond id w) parse_atomic_result
    (COMPARE_SET_DEVICE_SCRIPT (code_key h) v raw
       ((fun '(u, h') => (user_key (user_hash u), h')) <$> user) k).
Proof.
  intros Hw Hraw Hc. unfold COMPARE_SET_DEVICE_SCRIPT.
  destruct (bool_decide (vk_get k (code_key h) = Some v)) eqn:Hv; simpl; [|by apply script_same].
  destruct (is_some_and _ _) eqn:Hu; [by apply script_same|]. boolify.
  assert (cond) as Hcond.
  { apply Hc. destruct user as [[u h']|]; [|done]. simpl in Hu. boolify. by rewrite (proj2 Hw). }
  destruct (_ =? -2) eqn:Hd; [apply Z.eqb_eq, vk_absent in Hd; congruence|].
  destruct (_ =? -1); [by apply script_same|]. destruct (_ <=? _) eqn:Ht; boolify.
  - eexists w, _. split_and!; [eapply (refines_code _ _ _ h None); [done|apply vk_get_del]| |].
    + apply expires_delete; [exact (delete_subseteq (w_states w) h)|done].
    + apply expires_refl.
  - eexists _, _. split_and!; [eapply (refines_code _ _ _ h (Some raw)); [done|]| |].
    + intros key. by apply get_reset.
    + apply expires_refl.
    + simpl. rewrite (proj1 Hw). split_and!; [done..|]. unfold set_state, encode. by rewrite Hraw.
Qed.

Lemma complete_ok w k h u v next raw :
  refines w k → to_string next = Some raw →
  script_ok w
    (compare_set encode h v next (w.(w_users) !! user_hash u = Some h) (drop_user user_hash u) w)
    parse_atomic_result
    (COMPLETE_DEVICE_DECISION_SCRIPT (code_key h) (user_key (user_hash u)) v raw h k).
Proof.
  intros Hw Hraw. unfold COMPLETE_DEVICE_DECISION_SCRIPT.
  destruct (bool_decide (vk_get k (code_key h) = Some v)) eqn:Hv; simpl; [|by apply script_same].
  destruct (bool_decide (vk_get k (user_key (user_hash u)) = Some h)) eqn:Hu; simpl;
    [|by apply script_same]. boolify.
  destruct (_ =? -2) eqn:Hd; [apply Z.eqb_eq, vk_absent in Hd; congruence|].
  destruct (_ =? -1); [by apply script_same|]. destruct (_ <=? _) eqn:Ht; boolify.
  - eexists w, _. split_and!.
    + eapply refines_user; [|apply vk_get_del]. eapply refines_code; [done|apply vk_get_del].
    + simpl. apply expires_delete; [exact (delete_subseteq (w_states w) h)|].
      exact (delete_subseteq (w_users w) (user_hash u)).
    + apply expires_refl.
  - eexists _, _. split_and!.
    + eapply refines_user; [|apply vk_get_del]. eapply (refines_code _ _ _ h (Some raw)); [done|].
      intros key. by apply get_reset.
    + apply expires_refl.
    + simpl. rewrite (proj1 Hw), (proj2 Hw). split_and!; [done..|].
      unfold drop_user, set_state, encode. by rewrite Hraw.
Qed.

Lemma delete_user_ok w k u h :
  refines w k →
  script_ok w (fun a w' =>
      match a with
      | AtomicApplied => w.(w_users) !! user_hash u = Some h ∧ w' = drop_user user_hash u w
      | _ => w' = w
      end) parse_atomic_result
    (DELETE_USER_CODE_IF_MATCHES_SCRIPT (user_key (user_hash u)) h k).
Proof.
  intros Hw. unfold DELETE_USER_CODE_IF_MATCHES_SCRIPT.
  destruct (bool_decide _) eqn:Hu; simpl; [|by apply script_same]. boolify.
  eexists _, _. split_and!; [eapply refines_user; [done|apply vk_get_del]|apply expires_refl|].
  simpl. by rewrite (proj2 Hw).
Qed.

(** The second write of a creation may fail: the entry stays without its user
    code, as if that had expired. *)
Lemma create_ok w k code u st raw ttl :
  refines w k → to_string st = Some raw →
  script_ok w (fun a w' =>
      match a with
      | CreateApplied => w.(w_states) !! digest code = None ∧ w.(w_users) !! user_hash u = None ∧
          w' = {| w_states := <[digest code := encode st]> w.(w_states);
                  w_users := <[user_hash u := digest code]> w.(w_users);
                  w_grants := w.(w_grants) |}
      | _ => w' = w
      end) parse_create_result
    (CREATE_DEVICE_SCRIPT (code_key (digest code)) (user_key (user_hash u)) raw (digest code) ttl k).
Proof.
  intros Hw Hraw. unfold CREATE_DEVICE_SCRIPT, vk_exists.
  destruct (vk_get k (code_key _)) eqn:Hc; simpl; [by apply script_same|].
  destruct (vk_get k (user_key _)) eqn:Hu; simpl; [by apply script_same|].
  rewrite <- (proj1 Hw) in Hc. rewrite <- (proj2 Hw) in Hu. unfold encode. rewrite Hraw.
  unfold then_set_ex. destruct (vk_set_ex (code_key _) raw ttl k) as [k1|e] eqn:H1.
  - assert (Hk1 := refines_code w k k1 _ (Some raw) Hw (fun key => vk_get_set_ex _ _ _ _ _ key H1)).
    destruct (vk_set_ex (user_key _) _ ttl k1) as [k2|e] eqn:H2; simpl.
    + eexists _, _. split_and!; [eapply refines_user; [exact Hk1|]|apply expires_refl|done].
      intros key. by eapply vk_get_set_ex.
    + eexists _, _. split_and!; [exact Hk1| |right; exists CreateApplied; by split_and!].
      split_and!; simpl; [done|by apply insert_subseteq|done].
  - exists w, w. split_and!; [done|apply expires_refl|by left].
Qed.

Notation handle := (device_handle digest to_string from_str namespace).
Notation step := (dev_step digest user_hash encode from_str).

Lemma replace_state_ok tr w k h v next user cond :
  refines w k →
  (cond ↔ match user with None => True | Some (u, h') => w.(w_users) !! user_hash u = Some h' end) →
  ∃ w', refines w' (replace_state digest to_string namespace tr (device_code_hash h) v next user k).2 ∧
    outcome w (compare_set encode h v next cond id w)
      (map_err port_error
         (replace_state digest to_string namespace tr (device_code_hash h) v next user k).1) w'.
Proof.
  intros Hw Hc. unfold replace_state, serialize_state. destruct (to_string next) as [raw|] eqn:Hr; simpl.
  - by apply eval_parse_outcome, compare_set_ok.
  - exists w. split; [done|]. exists w. split; [apply expires_refl|eauto].
Qed.

Lemma unserialized {A} w (op : A → W → Prop) k :
  refines w k → ∃ w', refines w' k ∧ outcome w op (Err StateCorruptData) w'.
Proof. intros. exists w. split; [done|]. exists w. split; [apply expires_refl|eauto]. Qed.

Lemma outcome_map {A B E} w (op : A → W → Prop) (op' : B → W → Prop) (f : A → B)
    (x : result A E) w' :
  (∀ a w1, op a w1 → op' (f a) w1) → outcome w op x w' → outcome w op' (map_ok f x) w'.
Proof.
  intros Hop (w1 & Hx & Ho). exists w1. split; [done|].
  destruct Ho as [(a & -> & Ho)|(e & -> & [->|(a & Ho)])]; [left|right..]; eauto 6.
Qed.

Lemma map_err_ok {A B E F} (f : A → B) (g : E → F) (r : result A E) :
  map_err g (let? a := r in Ok (f a)) = map_ok f (map_err g r).
Proof. by destruct r. Qed.

Lemma replace_by_hash_ok tr w k h v next :
  refines w k →
  let r := replace_by_device_hash digest to_string namespace tr h v next k in
  ∃ w', refines w' r.2 ∧ step _ (ReplaceByDeviceHash h v next) w (map_err port_error r.1) w'.
Proof.
  intros Hw. unfold replace_by_device_hash, serialize_state.
  destruct (to_string next) as [raw|] eqn:Hr; [|by apply unserialized]. cbn [ok_or].
  destruct (replace_snapshot _ _ _ _ _ _ _ _) as [r k'] eqn:E.
  destruct (eval_parse_outcome w _ _ tr _ k Hw (compare_set_ok w k h v next raw None True Hw Hr
    (reflexivity _))) as (w' & Hw' & Ho).
  change (eval_parse _ tr _ k) with
    (replace_snapshot digest namespace tr (device_code_hash h) v raw None k) in *.
  rewrite E in *. exists w'. split; [done|]. simpl. rewrite map_err_ok.
  eapply outcome_map; [|exact Ho]. intros [] w1; simpl; try done.
  intros ?. unfold encode. by rewrite Hr.
Qed.

(** Every call of the adapter is a step of the store it refines. *)
Lemma device_handle_step tr X (e : devE string X) w k x k' :
  refines w k → handle tr X e k = Some (x, k') →
  ∃ w', refines w' k' ∧ step X e w x w'.
Proof.
  intros Hw. destruct e; simpl; try done; intros [= <- <-].
  - unfold create, serialize_state. destruct (to_string state) as [raw|] eqn:Hr; simpl.
    + by apply eval_parse_outcome, create_ok.
    + by apply unserialized.
  - by apply (eval_parse_outcome w), load_ok.
  - by apply (eval_parse_outcome w), load_ok.
  - destruct (eval_parse_outcome w (fun a w' => w' = w ∧ a = w.(w_users) !! user_hash user_code) Ok tr
      (fun k => (Ok (vk_get k (user_key (user_hash user_code))), k)) k Hw) as (w' & Hw' & Ho).
    { apply script_same; [done|]. by rewrite (proj2 Hw). }
    exists w'. unfold eval_parse in *. unfold resolve_user_code.
    change (state_key namespace _) with (user_key (user_hash user_code)).
    destruct (eval _ _ _) as [[]]; done.
  - by apply replace_state_ok.
  - by apply replace_by_hash_ok.
  - by apply replace_state_ok.
  - unfold complete_decision_snapshot, serialize_state.
    destruct (to_string replacement) as [raw|] eqn:Hr; simpl; [|by apply unserialized].
    by apply eval_parse_outcome, complete_ok.
  - by apply eval_parse_outcome, delete_user_ok.
Qed.

Lemma expires_trans (w1 w2 w3 : W) : expires w1 w2 → expires w2 w3 → expires w1 w3.
Proof. intros (? & ? & ?) (? & ? & ?). split_and!; [by etrans..|congruence]. Qed.

Lemma outcome_expires {A E} w (op : A → W → Prop) (x : result A E) w1 w2 :
  outcome w op x w1 → expires w1 w2 → outcome w op x w2.
Proof. intros (w0 & Hx & Ho) ?. exists w0. split; [by eapply expires_trans|done]. Qed.

Lemma step_expires X (e : devE string X) w x w1 w2 :
  step X e w x w1 → expires w1 w2 → step X e w x w2.
Proof.
  destruct e; simpl; try apply outcome_expires; try (by intros [? ?] ?; eauto using expires_trans);
    eauto using expires_trans.
Qed.

Lemma outcome_grants {A E} w (op : A → W → Prop) (x : result A E) w' :
  (∀ a w1, op a w1 → w1.(w_grants) = w.(w_grants)) → outcome w op x w' →
  w'.(w_grants) = w.(w_grants).
Proof. intros Hop (w1 & (_ & _ & ->) & [(a & _ & H)|(e & _ & [->|(a & H)])]); eauto. Qed.

Lemma compare_set_grants h v next cond fin w a w1 :
  (∀ w, (fin w).(w_grants) = w.(w_grants)) → compare_set encode h v next cond fin w a w1 →
  w1.(w_grants) = w.(w_grants).
Proof.
  intros Hfin. destruct a; simpl.
  - intros (_ & _ & ->). by rewrite Hfin.
  - by intros ->.
  - by intros (_ & _ & ?).
Qed.

(** A call of the store records no grant. *)
Lemma handle_grants tr X (e : devE string X) k r w x w' :
  handle tr X e k = Some r → step X e w x w' → w'.(w_grants) = w.(w_grants).
Proof.
  destruct e; simpl; try done; intros _; apply outcome_grants; intros a w1;
    try (by apply compare_set_grants).
  - by destruct a; [intros (_ & _ & ->)|intros ->..].
  - by intros [-> _].
  - by intros [-> _].
  - by intros [-> _].
  - destruct a; [by intros (_ & _ & _ & ->)|by intros ->|by intros (_ & _ & ?)].
  - by destruct a; [intros [_ ->]|intros ->..].
Qed.

Lemma valkey_step_handle X (e : devE string X) w s x s' tr k1 :
  valkey_refines w s → s'.2 = s.2 → handle tr X e s.1 = Some (x, k1) → elapses k1 s'.1 →
  ∃ w', valkey_refines w' s' ∧ step X e w x w'.
Proof.
  intros [Hw Hg] Hs Hh Hel. destruct (device_handle_step _ _ _ _ _ _ _ Hw Hh) as (w1 & Hw1 & Hst).
  destruct (refines_elapses _ _ _ Hw1 Hel) as (w2 & Hw2 & Hx).
  exists w2. split; [split; [done|]|by eapply step_expires].
  destruct Hx as (_ & _ & ->). rewrite (handle_grants _ _ _ _ _ _ _ _ Hh Hst). congruence.
Qed.

Lemma valkey_elapses w s s' :
  valkey_refines w s → elapses s.1 s'.1 ∧ s'.2 = s.2 → ∃ w', valkey_refines w' s' ∧ expires w w'.
Proof.
  intros [Hw Hg] [Hel Hs]. destruct (refines_elapses _ _ _ Hw Hel) as (w2 & Hw2 & Hx).
  exists w2. split; [split; [done|]|done]. destruct Hx as (_ & _ & ->). congruence.
Qed.

Lemma valkey_step_simulated X (e : devE string X) w s x s' :
  valkey_refines w s → valkey_step X e s x s' → ∃ w', valkey_refines w' s' ∧ step X e w x w'.
Proof.
  intros HR. destruct e;
    try match goal with |- valkey_step ?X ?e _ _ _ → _ =>
      intros (Hs & tr & k1 & Hh & Hel); by eapply (valkey_step_handle X e) end.
  - destruct HR as [Hw Hg]. intros [Hel Hs].
    destruct (refines_elapses _ _ _ Hw Hel) as (w2 & Hw2 & Hx & Hu & Hgr).
    exists {| w_states := w2.(w_states); w_users := w2.(w_users); w_grants := s'.2 |}. split; [done|].
    eexists {| w_states := w.(w_states); w_users := w.(w_users); w_grants := s'.2 |}.
    split; [by split_and!|]. destruct Hs as [->|[-> [err ->]]].
    + rewrite <- Hg. destruct x as [[]|err]; [left; by exists tt|right].
      exists err. split; [done|]. right. by exists tt.
    + right. exists err. split; [done|]. left. rewrite <- Hg. by destruct w.
  - intros (Ht & He). destruct (valkey_elapses _ _ _ HR He) as (w' & ? & ?).
    by exists w'.
  - apply valkey_elapses, HR.
  - apply valkey_elapses, HR.
  - intros (Ht & He). destruct (valkey_elapses _ _ _ HR He) as (w' & ? & ?).
    by exists w'.
Qed.

(** *** Lifetimes *)

Lemma same_deadlines_refl k : same_deadlines k k.
Proof. by intros h. Qed.

(** A write to one key that keeps its deadline, or removes it. *)
Lemma deadlines_del k key : same_deadlines k (vk_del key k).
Proof.
  intros h _. rewrite vk_get_del. case_decide; [by intros []|]. intros _. by apply vk_expiry_del_other.
Qed.

Lemma deadlines_reset k key v :
  vk_time_ms k < vk_pexpiretime k key →
  same_deadlines k (vk_pexpireat key (vk_pexpiretime k key) (vk_set key v k)).
Proof.
  intros Ht h _ _. destruct (decide (key = code_key h)) as [->|Hne].
  - apply vk_expiry_pexpireat; [by rewrite vk_time_set|]. rewrite vk_get_set, decide_True; eauto.
  - by rewrite vk_expiry_pexpireat_other, vk_expiry_set_other.
Qed.

Lemma deadlines_del_after k k' key :
  same_deadlines k k' → same_deadlines k (vk_del key k').
Proof.
  intros H h Hk. rewrite vk_get_del. case_decide; [by intros []|]. intros Hk'.
  rewrite vk_expiry_del_other by done. by apply H.
Qed.

Ltac deadlines := repeat case_match; simplify_eq/=; boolify;
  repeat apply deadlines_del_after;
  first [apply same_deadlines_refl|apply deadlines_reset; lia].

Lemma deadlines_compare_set k key v raw user :
  same_deadlines k (COMPARE_SET_DEVICE_SCRIPT key v raw user k).2.
Proof. unfold COMPARE_SET_DEVICE_SCRIPT. deadlines. Qed.

Lemma deadlines_complete k key1 key2 v raw h :
  same_deadlines k (COMPLETE_DEVICE_DECISION_SCRIPT key1 key2 v raw h k).2.
Proof. unfold COMPLETE_DEVICE_DECISION_SCRIPT. deadlines. Qed.

Lemma deadlines_delete k key h :
  same_deadlines k (DELETE_USER_CODE_IF_MATCHES_SCRIPT key h k).2.
Proof. unfold DELETE_USER_CODE_IF_MATCHES_SCRIPT. deadlines. Qed.

(** A creation writes no live entry. *)
Lemma deadlines_create k code u raw hash ttl :
  same_deadlines k (CREATE_DEVICE_SCRIPT (code_key code) (user_key u) raw hash ttl k).2.
Proof.
  unfold CREATE_DEVICE_SCRIPT, vk_exists, then_set_ex, reply.
  destruct (vk_get k (code_key code)) eqn:Hc; simpl; [apply same_deadlines_refl|].
  destruct (vk_get k (user_key u)); simpl; [apply same_deadlines_refl|].
  destruct (vk_set_ex (code_key code) _ _ k) as [k1|] eqn:H1; [|apply same_deadlines_refl].
  assert (Hs1 : same_deadlines k k1).
  { intros h Hh _. destruct (decide (code = h)) as [->|]; [rewrite Hc in Hh; by destruct Hh|].
    eapply vk_expiry_set_ex_other; [|done]. by intros ?%code_key_inj. }
  destruct (vk_set_ex (user_key u) _ _ k1) as [k2|] eqn:H2; [|done]. intros h Hh Hh2. simpl in *.
  rewrite (vk_get_set_ex _ _ _ _ _ _ H2), decide_False in Hh2 by (intros ?; by eapply code_user_key).
  rewrite (vk_expiry_set_ex_other _ _ _ _ _ _ (fun E => code_user_key _ _ (eq_sym E)) H2). auto.
Qed.

Lemma eval_deadlines {Q} tr (s : script K Q) k :
  same_deadlines k (s k).2 → same_deadlines k (eval tr s k).2.
Proof.
  intros H. destruct tr as [[e []]|]; simpl; [done|apply same_deadlines_refl|].
  by destruct (s k) as [[]].
Qed.

Lemma eval_parse_deadlines {Q R} (parse : Q → result R ErrorKind) tr (s : script K Q) k :
  same_deadlines k (s k).2 → same_deadlines k (eval_parse parse tr s k).2.
Proof. intros H%(eval_deadlines tr). unfold eval_parse. by destruct (eval tr s k). Qed.

Lemma handle_deadlines tr X (e : devE string X) k x k' :
  handle tr X e k = Some (x, k') → same_deadlines k k'.
Proof.
  destruct e; simpl; try done; intros [= _ <-];
    unfold create, replace_state, replace_by_device_hash, complete_decision_snapshot;
    try (destruct (serialize_state _ _); [|apply same_deadlines_refl]).
  - apply eval_parse_deadlines, deadlines_create.
  - by apply (eval_parse_deadlines _ tr), same_deadlines_refl.
  - by apply (eval_parse_deadlines _ tr), same_deadlines_refl.
  - by apply eval_deadlines, same_deadlines_refl.
  - apply eval_parse_deadlines, deadlines_compare_set.
  - destruct (replace_snapshot _ _ _ _ _ _ _ _) as [r k1] eqn:E.
    change k1 with (r, k1).2. rewrite <- E. apply eval_parse_deadlines, deadlines_compare_set.
  - apply eval_parse_deadlines, deadlines_compare_set.
  - apply eval_parse_deadlines, deadlines_complete.
  - apply eval_parse_deadlines, deadlines_delete.
Qed.

(** A new entry lives for its time to live. *)
Lemma create_deadline tr code u st ttl k k' :
  handle tr _ (Create code u st ttl) k = Some (Ok CreateApplied, k') →
  vk_pexpiretime k' (code_key (digest code)) = vk_time_ms k + ttl * 1000.
Proof.
  simpl. unfold create, ported, serialize_state. destruct (to_string st) as [raw|]; simpl; [|done].
  unfold eval_parse, eval. destruct tr as [[]|]; [done|].
  unfold CREATE_DEVICE_SCRIPT, then_set_ex, reply, parse_create_result.
  fold (code_key (digest code)). change (state_key namespace (device_user_code _ _)) with (user_key (user_hash u)).
  destruct (vk_exists k (code_key _)); [done|]. destruct (vk_exists k (user_key _)); [done|].
  destruct (vk_set_ex (code_key _) _ _ k) as [k1|] eqn:H1; [|done].
  destruct (vk_set_ex (user_key _) _ _ k1) as [k2|] eqn:H2; [|done].
  intros [= <-].
  rewrite (vk_expiry_set_ex_other _ _ _ _ _ _ (fun E => code_user_key _ _ (eq_sym E)) H2).
  by eapply vk_expiry_set_ex.
Qed.

End facts.

(** ** A text of device states *)
Module example.

Definition num (z : Z) : Value := JNumber (PosInt z).
Definition strs (l : list string) : Value := JArray (JString <$> l).

Definition payload_doc (p : DeviceAuthorizationPayload) : Value :=
  JArray [JString p.(dp_client_id); JString p.(dp_client_name); strs p.(dp_scopes);
    strs p.(dp_resource_indicators); p.(dp_authorization_details); num p.(dp_interval_seconds);
    num p.(dp_issued_at); num p.(dp_expires_at)].

Definition approval_doc (a : DeviceAuthorizationApproval) : Value :=
  JArray [num a.(da_user_id); JString a.(da_subject); num a.(da_auth_time); strs a.(da_amr);
    match a.(da_oidc_sid) with Some s => JString s | None => JNull end].

Definition state_doc (s : DeviceAuthorizationState) : Value :=
  match s with
  | Pending p last c =>
      JArray [JString "pending"; payload_doc p;
        match last with Some t => num t | None => JNull end; num c]
  | Approving p a id g t =>
      JArray [JString "approving"; payload_doc p; approval_doc a; num id; JBool g; num t]
  | Approved p a t => JArray [JString "approved"; payload_doc p; approval_doc a; num t]
  | Denied p t => JArray [JString "denied"; payload_doc p; num t]
  | Consumed t => JArray [JString "consumed"; num t]
  end.

Definition doc_strs (v : Value) : option (list string) := as_array v ≫= mapM as_str.

Definition doc_payload (v : Value) : option DeviceAuthorizationPayload :=
  match v with
  | JArray [JString id; JString name; scopes; resources; details; JNumber (PosInt interval);
            JNumber (PosInt issued); JNumber (PosInt expires)] =>
      scopes ← doc_strs scopes; resources ← doc_strs resources;
      Some {| dp_client_id := id; dp_client_name := name; dp_scopes := scopes;
              dp_resource_indicators := resources; dp_authorization_details := details;
              dp_interval_seconds := interval; dp_issued_at := issued; dp_expires_at := expires |}
  | _ => None
  end.

Definition doc_approval (v : Value) : option DeviceAuthorizationApproval :=
  match v with
  | JArray [JNumber (PosInt user); JString subject; JNumber (PosInt auth_time); amr; sid] =>
      amr ← doc_strs amr;
      Some {| da_user_id := user; da_subject := subject; da_auth_time := auth_time; da_amr := amr;
              da_oidc_sid := as_str sid |}
  | _ => None
  end.

Definition doc_state (v : Value) : option DeviceAuthorizationState :=
  match v with
  | JArray [JString "pending"; p; last; JNumber (PosInt c)] =>
      p ← doc_payload p; Some (Pending p (as_u64 last) c)
  | JArray [JString "approving"; p; a; JNumber (PosInt id); JBool g; JNumber (PosInt t)] =>
      p ← doc_payload p; a ← doc_approval a; Some (Approving p a id g t)
  | JArray [JString "approved"; p; a; JNumber (PosInt t)] =>
      p ← doc_payload p; a ← doc_approval a; Some (Approved p a t)
  | JArray [JString "denied"; p; JNumber (PosInt t)] => p ← doc_payload p; Some (Denied p t)
  | JArray [JString "consumed"; JNumber (PosInt t)] => Some (Consumed t)
  | _ => None
  end.

Definition to_string (s : DeviceAuthorizationState) : option string := Some (print_value (state_doc s)).
Definition from_str (text : string) : option DeviceAuthorizationState :=
  parse_value text ≫= doc_state.

(** A quiet deployment: every call reaches the server, nothing expires, the clock
    of the service stands still. *)
Definition server : Type := mem_server * list DeviceGrantWrite.

Definition handle (X : Type) (e : devE string X) (s : server) : option (X * server) :=
  match e in devE _ X return option (X * server) → option (X * server) with
  | UpsertGrant g => fun _ => Some (Ok tt, (s.1, g :: s.2))
  | CurrentTime => fun _ => Some (NANOS, s)
  | GenerateDeviceCode => fun _ => Some ("device"%string, s)
  | GenerateUserCode => fun _ => Some ("user"%string, s)
  | UuidNowV7 => fun _ => Some (1, s)
  | _ => fun r => r
  end (match device_handle id to_string from_str "nazo:" None X e s.1 with
       | Some (x, k) => Some (x, (k, s.2))
       | None => None
       end).

Definition start : server := ({| ms_clock := 1000; ms_keys := ∅; ms_sets := ∅ |}, []).

Definition flow (schedule : list nat) :=
  pool_run handle schedule (task_prog <$> example_tasks, start).

Lemma doc_strs_strs l : doc_strs (strs l) = Some l.
Proof. apply strings_of_values. Qed.

Lemma doc_payload_doc p : doc_payload (payload_doc p) = Some p.
Proof. destruct p. cbn -[strs doc_strs]. by rewrite !doc_strs_strs. Qed.

Lemma doc_approval_doc a : doc_approval (approval_doc a) = Some a.
Proof. destruct a as [? ? ? ? []]; cbn -[strs doc_strs]; by rewrite doc_strs_strs. Qed.

Lemma doc_state_doc s : doc_state (state_doc s) = Some s.
Proof.
  destruct s as [p [t|] c|p a id g t|p a t|p t|t];
    cbn -[payload_doc approval_doc doc_payload doc_approval];
    rewrite ?doc_payload_doc; cbn -[approval_doc doc_approval]; rewrite ?doc_approval_doc; done.
Qed.

Lemma from_to s : from_str (encode to_string s) = Some s.
Proof. unfold from_str, encode, to_string. cbn [unwrap_or]. rewrite parse_print. apply doc_state_doc. Qed.

Lemma handle_step X (e : devE string X) s x s' :
  handle X e s = Some (x, s') → valkey_step id to_string from_str "nazo:" X e s x s'.
Proof.
  assert (Hel : ∀ k : mem_server, elapses k k) by (intros k key; by right).
  unfold handle. destruct e;
    try match goal with |- context [device_handle _ _ _ _ _ _ ?e _] =>
      destruct (device_handle id to_string from_str "nazo:" None _ e s.1) as [[y k]|] eqn:Hh;
      intros; simplify_eq; split; [done|]; by exists None, k end.
  all: intros [= <- <-]; simpl; split_and!; try done; auto.
  all: apply (bool_decide_unpack _); by vm_compute.
Qed.

Lemma start_refines : valkey_refines "nazo:" (Build_dev_world ∅ ∅ []) start.
Proof. split; [|done]. split; intros x; simpl; unfold ms_lookup; simpl; by rewrite !lookup_empty. Qed.

Lemma start_inv : dev_inv no_urls from_str (Build_dev_world (V := string) ∅ ∅ []).
Proof. split; [intros h v p a Hv|intros h v s Hv]; simpl in Hv; by rewrite lookup_empty in Hv. Qed.

End example.

(** C21: the Valkey store implements the port the services are written against.
    On every server, whatever the connection does (lost replies, errors before or
    after a script ran, a script stopped between its two writes) and whatever
    expires in between, each call has the effect and the reply the port's
    contract allows: the compare-and-set is on the stored text, and a decision's
    claim and completion also require the user code to be live and bound to the
    device. *)
Theorem valkey_device_store_refines {K} `{!Valkey K, !ValkeyLaws K} digest to_string from_str
    namespace X (e : devE string X) w (s : K * list DeviceGrantWrite) x s' :
  valkey_refines namespace w s →
  valkey_step digest to_string from_str namespace X e s x s' →
  ∃ w', valkey_refines namespace w' s' ∧
    dev_step digest (user_hash digest) (encode to_string) from_str X e w x w'.
Proof. apply valkey_step_simulated. Qed.

Lemma valkey_device_store_refines_witness :
  ∃ x s' w', example.handle _ (Create "d" "u" (Pending example_payload None 0) 600) example.start
      = Some (x, s') ∧ x = Ok CreateApplied ∧ valkey_refines "nazo:" w' s' ∧
    dev_step id (user_hash id) (encode example.to_string) example.from_str _
      (Create "d" "u" (Pending example_payload None 0) 600) (Build_dev_world ∅ ∅ []) x w'.
Proof.
  assert (Hr : match example.handle _ (Create "d" "u" (Pending example_payload None 0) 600)
      example.start with Some (x, _) => x = Ok CreateApplied | None => False end)
    by (vm_compute; reflexivity).
  destruct (example.handle _ _ _) as [[x s']|] eqn:Hh; [|destruct Hr].
  destruct (valkey_device_store_refines id example.to_string example.from_str "nazo:" _ _ _ _ x s'
    example.start_refines (example.handle_step _ _ _ _ _ Hh)) as (w' & Hw' & Hs).
  exists x, s', w'. split; [reflexivity|]. split; [exact Hr|]. split; [exact Hw'|exact Hs].
Defined.

(** C6: tokens of the device flow over Valkey rest on durable grants.  Device
    requests, polls, approvals and denials interleave over one server and the
    grant repository, under any expiry and any failure of the connections.  When
    a poll returns an approved authorization it is for the polling client, and
    the repository has the grant of exactly its user, scopes, resources and
    details under the digest of the device code.  [serde_json] is assumed to read
    back the texts it wrote of well-formed states. *)
Theorem valkey_device_flow {K} `{!Valkey K, !ValkeyLaws K} url_parses digest to_string from_str
    namespace ts w (s : K * list DeviceGrantWrite) c :
  (∀ st, state_wf url_parses st → ∃ text, to_string st = Some text ∧ from_str text = Some st) →
  Forall (task_wf url_parses) ts → valkey_refines namespace w s → dev_inv url_parses from_str w →
  pool_steps (fun _ => valkey_step digest to_string from_str namespace) (task_prog <$> ts, s) c →
  ∀ i code client ad,
    ts !! i = Some (TPoll code client) →
    c.1 !! i = Some (Ret (RPoll (Ok (CommitApproved ad)))) →
    ad.(ad_payload).(dp_client_id) = client ∧
    ∃ g, g ∈ c.2.2 ∧ grant_for (digest code) ad.(ad_payload) ad.(ad_approval) g.
Proof.
  intros Hcodec Hts HR Hinv Hs i code client ad Ht Hret.
  destruct (pool_simulation (valkey_refines namespace)
    (fun _ => dev_step digest (user_hash digest) (encode to_string) from_str) _ _ _ _ _
    (fun _ => valkey_step_simulated _ _ _ _) HR Hs) as (w' & [_ Hg] & Hs').
  assert (Henc : ∀ st, state_wf url_parses st → from_str (encode to_string st) = Some st).
  { intros st Hst. destruct (Hcodec st Hst) as (text & Htext & ?). unfold encode. by rewrite Htext. }
  destruct (pool_inv _ _ _ _ _ Henc ts w _ Hts Hinv Hs') as [Hok _].
  rewrite <- Hg. apply (Hok i _ Hret _ (PreOrder_Reflexive _) _ Ht).
Qed.

Lemma valkey_device_flow_witness :
  ∃ c, example.flow example_schedule = Some c ∧
    ∃ g, g ∈ c.2.2 ∧ grant_for "device" example_payload example_approval g.
Proof.
  assert (Hret : match example.flow example_schedule with
    | Some (ts, _) => match ts !! 2%nat with
                      | Some (Ret r) => r = RPoll (Ok (CommitApproved
                          {| ad_payload := example_payload; ad_approval := example_approval |}))
                      | _ => False end
    | None => False end) by (vm_compute; reflexivity).
  destruct (example.flow example_schedule) as [[ts s]|] eqn:Hrun; [|destruct Hret].
  destruct (ts !! 2%nat) as [[r|]|] eqn:Hts; [subst r|destruct Hret..].
  exists (ts, s). split; [reflexivity|].
  refine (proj2 (valkey_device_flow no_urls id example.to_string example.from_str "nazo:"
    example_tasks _ example.start (ts, s) _ example_tasks_wf example.start_refines example.start_inv
    _ 2%nat "device" "tv" _ eq_refl Hts)).
  - intros st _. exists (print_value (example.state_doc st)). split; [reflexivity|].
    exact (example.from_to st).
  - eapply pool_run_steps; [|exact Hrun]. intros _. exact example.handle_step.
Defined.

(** The lifetime of a device authorization is set when it is created and
    never extended: a creation that succeeds expires after its time to live, and
    no call of the store, whatever the connection does, moves the deadline of an
    entry that stays. *)
Theorem device_lifetime_fixed {K} `{!Valkey K, !ValkeyLaws K} digest to_string from_str namespace tr
    X (e : devE string X) (k : K) x k' :
  device_handle digest to_string from_str namespace tr X e k = Some (x, k') →
  same_deadlines namespace k k' ∧
  ∀ code u st ttl k1,
    device_handle digest to_string from_str namespace tr _ (Create code u st ttl) k
      = Some (Ok CreateApplied, k1) →
    vk_pexpiretime k1 (code_key namespace (digest code)) = vk_time_ms k + ttl * 1000.
Proof. eauto using handle_deadlines, create_deadline. Qed.

Lemma device_lifetime_fixed_witness :
  ∃ k1, device_handle id example.to_string example.from_str "nazo:" None _
      (Create "d" "u" (Pending example_payload None 0) 600) example.start.1
      = Some (Ok CreateApplied, k1) ∧
    same_deadlines "nazo:" example.start.1 k1 ∧
    vk_pexpiretime k1 (code_key "nazo:" "d") = 601000.
Proof.
  assert (Hr : match device_handle id example.to_string example.from_str "nazo:" None _
      (Create "d" "u" (Pending example_payload None 0) 600) example.start.1 with
    | Some (x, _) => x = Ok CreateApplied | None => False end) by (vm_compute; reflexivity).
  destruct (device_handle _ _ _ _ _ _ _ _) as [[x k1]|] eqn:Hh; [|destruct Hr]. subst x.
  exists k1. split; [reflexivity|].
  destruct (device_lifetime_fixed _ _ _ _ _ _ _ _ _ _ Hh) as [Hs Hc]. split; [exact Hs|].
  exact (Hc _ _ _ _ _ Hh).
Defined.
