(* ===== verification/Dpop.v ===== *)
(** * DPoP proofs

    [crates/authorization-server-core/src/dpop.rs]: the verification of a proof
    of possession (RFC 9449), the nonce policy and the admission against the
    replay store; the parts of [crates/crypto] it calls; and
    [crates/authorization-server/src/security/dpop.rs], which finds the request's
    target and records a replay.  The services are programs over the state-store
    port, the clock, the random source and the audit port. *)
From Stdlib Require Import Ascii.
From stdpp Require Import base list strings.
From S2P Require Import Prelude Effects Text Json UriPolicy.

Local Open Scope string_scope.
Local Open Scope rust_scope.
Local Open Scope Z_scope.

(** ** Data *)

Definition DPOP_MAX_PROOF_AGE_SECONDS : Z := 300.
Definition DPOP_CLOCK_SKEW_SECONDS : Z := 30.
Definition DPOP_REPLAY_TTL_SECONDS : Z := DPOP_MAX_PROOF_AGE_SECONDS + DPOP_CLOCK_SKEW_SECONDS + 1.
Definition DPOP_NONCE_TTL_SECONDS : Z := 300.
Definition MAX_DPOP_JTI_BYTES : Z := 128.

Inductive DpopNoncePolicy := Required | Optional.

#[export] Instance DpopNoncePolicy_eq_dec : EqDecision DpopNoncePolicy.
Proof. solve_decision. Defined.

Record DpopProofRequest := {
  dr_proof : option string;
  dr_method : string;
  dr_target_uris : list string;
  dr_access_token : option string;
  dr_expected_jkt : option string;
}.

Record DpopReplayAudit := {
  ra_jti_hash : string;
  ra_key_id : option string;
}.

Inductive DpopError :=
| MissingProof
| MalformedProof
| InvalidProof
| ReplayDetected (audit : DpopReplayAudit)
| BindingMismatch
| TokenNotBound
| UseNonce (nonce : string)
| StateStoreUnavailable.

Record VerifiedDpopProof := {
  vp_jkt : string;
  vp_jti : string;
  vp_nonce : option string;
  vp_key_id : option string;
}.

Record DpopHeader := {
  dh_alg : string;
  dh_typ : option string;
  dh_jwk : Value;
  dh_critical_extension_present : bool;
}.

Record DpopClaims := {
  dc_htm : string;
  dc_htu : string;
  dc_iat : Z;
  dc_jti : string;
  dc_ath : option string;
  dc_nonce : option string;
}.

(** [jsonwebtoken::Algorithm] *)
Inductive Algorithm :=
| HS256 | HS384 | HS512 | ES256 | ES384 | RS256 | RS384 | RS512 | PS256 | PS384 | PS512 | EdDSA.

Inductive AlgorithmFamily := Hmac | Rsa | Ec | Ed.

#[export] Instance AlgorithmFamily_eq_dec : EqDecision AlgorithmFamily.
Proof. solve_decision. Defined.

Definition family (a : Algorithm) : AlgorithmFamily :=
  match a with
  | HS256 | HS384 | HS512 => Hmac
  | RS256 | RS384 | RS512 | PS256 | PS384 | PS512 => Rsa
  | ES256 | ES384 => Ec
  | EdDSA => Ed
  end.

(** [jsonwebtoken::DecodingKey]: a family, and a key of bytes or an RSA key's parts. *)
Inductive DecodingKeyKind :=
| SecretOrDer (bytes : string)
| RsaModulusExponent (n e : string).

Record VerificationKey := {
  vk_family : AlgorithmFamily;
  vk_kind : DecodingKeyKind;
}.

Definition try_get_as_bytes (key : VerificationKey) : option string :=
  match key.(vk_kind) with SecretOrDer bytes => Some bytes | RsaModulusExponent _ _ => None end.

Inductive CryptoError :=
| UnsupportedAlgorithm | InvalidKey | InvalidInput | InvalidSignature | AuthenticationFailed
| InvalidToken | OperationFailed.

(** [aws_lc_rs]'s verification algorithms. *)
Inductive Verifier :=
| ED25519 | ECDSA_P256_SHA256_FIXED | RSA_PKCS1_2048_8192_SHA256 | RSA_PSS_2048_8192_SHA256.

(** Other crates: [url], [http]'s authority (its text when it parses), base64
    in the URL alphabet without padding, the tree of a JSON text and the text of
    a value, SHA-256, BLAKE3 in hexadecimal, and the signature check. *)
Class Crates := {
  url_parse : string → option Url;
  url_set_query : option string → Url → Url;
  url_set_fragment : option string → Url → Url;
  url_to_string : Url → string;
  authority_parse : string → option string;
  base64url_encode : string → string;
  base64url_decode : string → option string;
  json_parse : string → option Value;
  json_print : Value → string;
  sha256 : string → string;
  blake3_text : string → string;
  verify_sig : Verifier → DecodingKeyKind → string → string → bool;
}.

(** ** [serde]'s structs *)

(** A struct from a document: an object whose members appear at most once, or
    an array of its first fields, as long as the ones without a default. *)
Definition struct_fields (names : list string) (required : nat) (v : Value)
    : option (string → option Value) :=
  match v with
  | JObject members =>
      if forallb (fun name => is_ok (field members name)) names
      then Some (object_get members) else None
  | JArray items =>
      if (required <=? length items)%nat && (length items <=? length names)%nat
      then Some (object_get (zip names items)) else None
  | _ => None
  end.

Definition string_field (get : string → option Value) (name : string) : option string :=
  get name ≫= as_str.

Definition i64_field (get : string → option Value) (name : string) : option Z :=
  get name ≫= as_i64.

Definition option_field (get : string → option Value) (name : string) : option (option string) :=
  match get name with
  | None | Some JNull => Some None
  | Some (JString s) => Some (Some s)
  | Some _ => None
  end.

Definition header_of (v : Value) : option DpopHeader :=
  get ← struct_fields ["alg"; "typ"; "jwk"; "crit"] 3 v;
  alg ← string_field get "alg";
  typ ← option_field get "typ";
  jwk ← get "jwk";
  Some {| dh_alg := alg; dh_typ := typ; dh_jwk := canonical jwk;
          dh_critical_extension_present := is_some (get "crit") |}.

Definition claims_of (v : Value) : option DpopClaims :=
  get ← struct_fields ["htm"; "htu"; "iat"; "jti"; "ath"; "nonce"] 4 v;
  htm ← string_field get "htm";
  htu ← string_field get "htu";
  iat ← i64_field get "iat";
  jti ← string_field get "jti";
  ath ← option_field get "ath";
  nonce ← option_field get "nonce";
  Some {| dc_htm := htm; dc_htu := htu; dc_iat := iat; dc_jti := jti; dc_ath := ath;
          dc_nonce := nonce |}.

(** ** Verification of a proof *)
Section verification.
Context `{C : Crates}.

Definition nonempty_segment (segment : option string) : result string DpopError :=
  match segment with
  | Some s => if negb (is_empty s) then Ok s else Err MalformedProof
  | None => Err MalformedProof
  end.

(** The header, the claims, the signed text and the signature. *)
Definition decode_proof (raw : string)
    : result (DpopHeader * DpopClaims * string * string) DpopError :=
  let parts := split_char "." raw in
  let? encoded_header := nonempty_segment (parts !! 0%nat) in
  let? encoded_payload := nonempty_segment (parts !! 1%nat) in
  let? encoded_signature := nonempty_segment (parts !! 2%nat) in
  if is_some (parts !! 3%nat) then Err MalformedProof
  else
    let? header := ok_or (bytes ← base64url_decode encoded_header; v ← json_parse bytes; header_of v)
      MalformedProof in
    let? claims := ok_or (bytes ← base64url_decode encoded_payload; v ← json_parse bytes; claims_of v)
      MalformedProof in
    let? signature := ok_or (base64url_decode encoded_signature) MalformedProof in
    Ok (header, claims, encoded_header +:+ "." +:+ encoded_payload, signature).

Definition dpop_algorithm (value : string) : option Algorithm :=
  if decide (value = "EdDSA") then Some EdDSA
  else if decide (value = "ES256") then Some ES256
  else None.

Definition has_private_key_material (key : Value) : bool :=
  existsb (fun member => is_some (value_get key member))
    ["d"; "p"; "q"; "dp"; "dq"; "qi"; "oth"; "k"].

Definition key_ops_allow_verification (key : Value) : bool :=
  match value_get key "key_ops" with
  | None => true
  | Some operations =>
      match as_array operations with
      | None => false
      | Some operations =>
          (length operations =? 1)%nat
          && bool_decide (head operations ≫= as_str = Some "verify")
      end
  end.

(** [get(name).and_then(Value::as_str)] *)
Definition text_member (key : Value) (name : string) : option string := value_get key name ≫= as_str.

(** [try_into] of a key's or a coordinate's 32 bytes. *)
Definition bytes_32 (bytes : string) : result string DpopError :=
  if len bytes =? 32 then Ok bytes else Err InvalidProof.

(** [from_ed25519_bytes], [from_p256_coordinates] *)
Definition from_ed25519_bytes (bytes : string) : VerificationKey :=
  {| vk_family := Ed; vk_kind := SecretOrDer bytes |}.

Definition from_p256_coordinates (x y : string) : VerificationKey :=
  {| vk_family := Ec; vk_kind := SecretOrDer (String (Ascii.ascii_of_nat 4) (x +:+ y)) |}.

Definition public_dpop_decoding_key (key : Value) (algorithm : Algorithm)
    : result VerificationKey DpopError :=
  let? expected_alg := match algorithm with
    | EdDSA => Ok "EdDSA"
    | ES256 => Ok "ES256"
    | _ => Err InvalidProof
    end in
  if is_some_and (text_member key "alg") (fun value => negb (bool_decide (value = expected_alg)))
     || is_some_and (text_member key "use") (fun value => negb (bool_decide (value = "sig")))
     || has_private_key_material key
     || negb (key_ops_allow_verification key)
  then Err InvalidProof
  else match algorithm with
  | EdDSA =>
      if negb (bool_decide (text_member key "kty" = Some "OKP"))
         || negb (bool_decide (text_member key "crv" = Some "Ed25519"))
      then Err InvalidProof
      else
        let? x := ok_or (text_member key "x") MalformedProof in
        let? bytes := ok_or (base64url_decode x) InvalidProof in
        let? bytes := bytes_32 bytes in
        Ok (from_ed25519_bytes bytes)
  | ES256 =>
      if negb (bool_decide (text_member key "kty" = Some "EC"))
         || negb (bool_decide (text_member key "crv" = Some "P-256"))
      then Err InvalidProof
      else
        let? x := ok_or (text_member key "x") MalformedProof in
        let? y := ok_or (text_member key "y") MalformedProof in
        let? x_bytes := ok_or (base64url_decode x) InvalidProof in
        let? y_bytes := ok_or (base64url_decode y) InvalidProof in
        let? x_bytes := bytes_32 x_bytes in
        let? y_bytes := bytes_32 y_bytes in
        Ok (from_p256_coordinates x_bytes y_bytes)
  | _ => Err InvalidProof
  end.

(** [nazo_crypto::signature::verify] *)
Definition signature_verify (algorithm : Algorithm) (key : VerificationKey)
    (message signature : string) : result unit CryptoError :=
  match algorithm with
  | EdDSA | RS256 | PS256 | ES256 =>
      if negb (bool_decide (key.(vk_family) = family algorithm)) then Err InvalidInput
      else
        let? valid :=
          match algorithm with
          | EdDSA | ES256 =>
              let? bytes := ok_or (try_get_as_bytes key) InvalidInput in
              let verifier := match algorithm with EdDSA => ED25519 | _ => ECDSA_P256_SHA256_FIXED end in
              Ok (verify_sig verifier (SecretOrDer bytes) message signature)
          | _ =>
              let parameters := match algorithm with
                | RS256 => RSA_PKCS1_2048_8192_SHA256
                | _ => RSA_PSS_2048_8192_SHA256
                end in
              Ok (verify_sig parameters key.(vk_kind) message signature)
          end in
        if valid : bool then Ok tt else Err InvalidSignature
  | _ => Err UnsupportedAlgorithm
  end.

Definition verify_signature (algorithm : Algorithm) (decoding_key : VerificationKey)
    (signing_input signature : string) : result unit DpopError :=
  match signature_verify algorithm decoding_key signing_input signature with
  | Ok tt => Ok tt
  | Err InvalidSignature => Err InvalidProof
  | Err _ => Err MalformedProof
  end.

(** The required members of a key (RFC 7638), in their order. *)
Definition thumbprint_members (key : Value) : result (list (string * string)) DpopError :=
  let member name := ok_or (text_member key name) MalformedProof in
  match text_member key "kty" with
  | Some kty =>
      if decide (kty = "OKP") then
        let? crv := member "crv" in
        let? x := member "x" in
        Ok [("crv", crv); ("kty", "OKP"); ("x", x)]
      else if decide (kty = "EC") then
        let? crv := member "crv" in
        let? x := member "x" in
        let? y := member "y" in
        Ok [("crv", crv); ("kty", "EC"); ("x", x); ("y", y)]
      else Err InvalidProof
  | None => Err InvalidProof
  end.

Definition jwk_thumbprint (key : Value) : result string DpopError :=
  let? members := thumbprint_members key in
  Ok (base64url_encode (sha256 (json_print (JObject (prod_map id JString <$> members))))).

Definition i64_checked_sub (a b : Z) : option Z :=
  if in_range I64_MIN I64_MAX (a - b) then Some (a - b) else None.

Definition iat_within_window (iat now : Z) : bool :=
  if i64_saturating_add now DPOP_CLOCK_SKEW_SECONDS <? iat then false
  else (now <? iat)
       || is_some_and (i64_checked_sub now iat) (fun age => age <=? DPOP_MAX_PROOF_AGE_SECONDS).

Definition valid_jti (jti : string) : bool :=
  negb (is_empty (trim jti)) && (len jti <=? MAX_DPOP_JTI_BYTES).

Definition normalize_htu (value : string) : result string DpopError :=
  let? url := ok_or (url_parse value) MalformedProof in
  Ok (url_to_string (url_set_fragment None (url_set_query None url))).

(** The loop over the targets: a target that does not parse is an error, also
    after a match. *)
Fixpoint htu_matches (actual : string) (targets : list string) (found : bool) : result bool DpopError :=
  match targets with
  | [] => Ok found
  | expected :: targets =>
      let? expected := normalize_htu expected in
      htu_matches actual targets (if decide (actual = expected) then true else found)
  end.

Definition validate_claims (request : DpopProofRequest) (claims : DpopClaims) (now : Z)
    : result unit DpopError :=
  let? actual_htu := normalize_htu claims.(dc_htu) in
  let? matches := htu_matches actual_htu request.(dr_target_uris) false in
  if negb matches || negb (bool_decide (claims.(dc_htm) = request.(dr_method))) then Err InvalidProof
  else if negb (iat_within_window claims.(dc_iat) now) || negb (valid_jti claims.(dc_jti))
  then Err InvalidProof
  else match request.(dr_access_token) with
  | Some access_token =>
      if negb (bool_decide (claims.(dc_ath) = Some (base64url_encode (sha256 access_token))))
      then Err InvalidProof
      else Ok tt
  | None => Ok tt
  end.

Definition verify_dpop_proof_at (request : DpopProofRequest) (now : Z)
    : result (option VerifiedDpopProof) DpopError :=
  match (raw ← request.(dr_proof); if negb (is_empty (trim raw)) then Some raw else None) with
  | None => if is_some request.(dr_expected_jkt) then Err MissingProof else Ok None
  | Some raw =>
      let? decoded := decode_proof raw in
      let '(header, claims, signing_input, signature) := decoded in
      if header.(dh_critical_extension_present) then Err InvalidProof
      else if negb (is_some_and header.(dh_typ) (fun value => eq_ignore_ascii_case value "dpop+jwt"))
      then Err InvalidProof
      else
        let? algorithm := ok_or (dpop_algorithm header.(dh_alg)) InvalidProof in
        let? decoding_key := public_dpop_decoding_key header.(dh_jwk) algorithm in
        let? _ := verify_signature algorithm decoding_key signing_input signature in
        let? jkt := jwk_thumbprint header.(dh_jwk) in
        if is_some_and request.(dr_expected_jkt) (fun expected => negb (bool_decide (expected = jkt)))
        then Err BindingMismatch
        else
          let? _ := validate_claims request claims now in
          Ok (Some {| vp_jkt := jkt; vp_jti := claims.(dc_jti); vp_nonce := claims.(dc_nonce);
                      vp_key_id := text_member header.(dh_jwk) "kid" |})
  end.

(** The text under which a proof is spent. *)
Definition replay_scope (request : DpopProofRequest) (verified : VerifiedDpopProof)
    : result string DpopError :=
  if is_none request.(dr_access_token) then Ok verified.(vp_jkt)
  else
    let? target := match head request.(dr_target_uris) with
      | None => Err InvalidProof
      | Some target => normalize_htu target
      end in
    Ok ("resource:" +:+ blake3_text (request.(dr_method) +:+ ":" +:+ target)).

End verification.

(** ** Admission *)

(** The ports of an admission: the state store, the clock (in seconds), the
    random source and the security audit. *)
Inductive dpopE : Type → Type :=
| ConsumeReplay (jkt jti : string) (ttl_seconds : Z) : dpopE (result bool unit)
| IssueNonce (nonce : string) (ttl_seconds : Z) : dpopE (result unit unit)
| ValidateNonce (nonce : string) : dpopE (result bool unit)
| UtcNow : dpopE Z
| RandomBytes : dpopE string
| RecordRequired (event : string) (fields : list (string * Value)) : dpopE (result unit unit).

(** [DpopRequestFacts] *)
Record DpopRequestFacts := {
  rf_method : string;
  rf_path : string;
  rf_authority : option string;
  rf_proof : result (option string) DpopError;
  rf_proof_present : bool;
}.

Section admission.
Context `{C : Crates}.

Definition new_dpop_nonce : prog dpopE string :=
  let* random := call RandomBytes in
  Ret (base64url_encode random).

Definition issue_authorization_server_dpop_nonce : prog dpopE (result string DpopError) :=
  let* nonce := new_dpop_nonce in
  let* issued := call (IssueNonce nonce DPOP_NONCE_TTL_SECONDS) in
  match issued with
  | Ok _ => Ret (Ok nonce)
  | Err _ => Ret (Err StateStoreUnavailable)
  end.

Definition validate_nonce (policy : DpopNoncePolicy) (nonce : option string)
    : prog dpopE (result unit DpopError) :=
  match nonce with
  | None =>
      if decide (policy = Optional) then Ret (Ok tt)
      else
        let*? nonce := issue_authorization_server_dpop_nonce in
        Ret (Err (UseNonce nonce))
  | Some nonce =>
      let* valid := call (ValidateNonce nonce) in
      match valid with
      | Ok true => Ret (Ok tt)
      | Ok false =>
          if decide (policy = Optional) then Ret (Err InvalidProof)
          else
            let*? nonce := issue_authorization_server_dpop_nonce in
            Ret (Err (UseNonce nonce))
      | Err _ => Ret (Err StateStoreUnavailable)
      end
  end.

Definition validate_authorization_server_dpop_at (request : DpopProofRequest)
    (nonce_policy : DpopNoncePolicy) (now : Z) : prog dpopE (result (option string) DpopError) :=
  match verify_dpop_proof_at request now with
  | Err e => Ret (Err e)
  | Ok None => Ret (Ok None)
  | Ok (Some verified) =>
      let*? _ := validate_nonce nonce_policy verified.(vp_nonce) in
      match replay_scope request verified with
      | Err e => Ret (Err e)
      | Ok scope =>
          let* consumed := call (ConsumeReplay scope verified.(vp_jti) DPOP_REPLAY_TTL_SECONDS) in
          match consumed with
          | Ok true => Ret (Ok (Some verified.(vp_jkt)))
          | Ok false =>
              Ret (Err (ReplayDetected {| ra_jti_hash := blake3_text verified.(vp_jti);
                                          ra_key_id := verified.(vp_key_id) |}))
          | Err _ => Ret (Err StateStoreUnavailable)
          end
      end
  end.

Definition validate_authorization_server_dpop (request : DpopProofRequest)
    (nonce_policy : DpopNoncePolicy) : prog dpopE (result (option string) DpopError) :=
  let* now := call UtcNow in
  validate_authorization_server_dpop_at request nonce_policy now.

(** [Url::origin] of an [http] or [https] URL. *)
Definition origin (u : Url) : string * option Host * Z :=
  (u.(url_scheme), u.(url_host),
   default (if decide (u.(url_scheme) = "http") then 80 else 443) u.(url_port)).

Fixpoint select_target (authority path : string) (bases : list string) (selected : option string)
    : result (option string) DpopError :=
  match bases with
  | [] => Ok selected
  | base :: bases =>
      let? url := ok_or (url_parse base) InvalidProof in
      if negb (bool_decide (url.(url_scheme) ∈ ["http"; "https"])) then Err InvalidProof
      else
        let? request_url := ok_or (url_parse (url.(url_scheme) +:+ "://" +:+ authority)) InvalidProof in
        if decide (origin url = origin request_url) then
          let candidate := trim_end_matches "/" base +:+ path in
          if is_some_and selected (fun current => negb (bool_decide (current = candidate)))
          then Err InvalidProof
          else select_target authority path bases (Some candidate)
        else select_target authority path bases selected
  end.

(** One configured origin, by the request's own authority. *)
Definition dpop_target_uri (issuer mtls_endpoint_base_url : string) (authority : option string)
    (path : string) : result string DpopError :=
  let? authority := ok_or
    (value ← authority; if contains_char value "@" then None else authority_parse value)
    InvalidProof in
  let? selected := select_target authority path [issuer; mtls_endpoint_base_url] None in
  ok_or selected InvalidProof.

Definition json_option (value : option string) : Value :=
  match value with Some s => JString s | None => JNull end.

Definition validate_dpop_proof (issuer mtls_endpoint_base_url : string)
    (nonce_policy : DpopNoncePolicy) (request : DpopRequestFacts)
    (token_for_ath expected_jkt : option string) : prog dpopE (result (option string) DpopError) :=
  match request.(rf_proof) with
  | Err e => Ret (Err e)
  | Ok proof =>
      match (match proof with
             | Some _ => map_ok Some
                 (dpop_target_uri issuer mtls_endpoint_base_url request.(rf_authority) request.(rf_path))
             | None => Ok None
             end) with
      | Err e => Ret (Err e)
      | Ok target_uri =>
          let* admitted := validate_authorization_server_dpop
            {| dr_proof := proof; dr_method := request.(rf_method);
               dr_target_uris := [default "" target_uri];
               dr_access_token := token_for_ath; dr_expected_jkt := expected_jkt |} nonce_policy in
          match admitted with
          | Err (ReplayDetected event) =>
              let* recorded := call (RecordRequired "dpop_replay_detected"
                [("jti_hash", JString event.(ra_jti_hash)); ("kid", json_option event.(ra_key_id))]) in
              match recorded with
              | Err _ => Ret (Err StateStoreUnavailable)
              | Ok _ => Ret admitted
              end
          | _ => Ret admitted
          end
      end
  end.
End admission.
