(* ===== verification/ValkeyReplay.v ===== *)
(** * The replay store on Valkey

    [crates/state-store-valkey/src/replay.rs]: the markers by which proofs,
    assertions and request objects are spent, with the keys of [keys.rs] and the
    commands of [command.rs].  A marker is written by a [SET NX]: with a lifetime
    ([EX]), or, inside a script that checks the server's clock first, with a
    deadline ([EXAT]).  An operation is a function of the connection's behaviour
    and the server; the ones that read the local clock take it as [now]. *)
From stdpp Require Import base list strings.
From S2P Require Import Prelude Text Valkey Dpop ValkeyDevice.

Local Open Scope string_scope.
Local Open Scope rust_scope.
Local Open Scope Z_scope.

(** ** Data *)

Definition FAPI_HTTP_SIGNATURE_FUTURE_SKEW_SECONDS : Z := 5.

Record ClientAttestationProofWindow := {
  aw_not_before : Z;
  aw_expires_at : Z;
}.

Definition FUTURE_TOLERANCE_SECONDS : Z := 60.
Definition MAX_AGE_SECONDS : Z := 300.

Definition i64_checked (n : Z) : option Z := if in_range I64_MIN I64_MAX n then Some n else None.

Definition from_verified_issued_at (iat : Z) : option ClientAttestationProofWindow :=
  not_before ← i64_checked (iat - FUTURE_TOLERANCE_SECONDS);
  last ← i64_checked (iat + MAX_AGE_SECONDS);
  expires_at ← i64_checked (last + 1);
  Some {| aw_not_before := not_before; aw_expires_at := expires_at |}.

Definition accepts (w : ClientAttestationProofWindow) (now : Z) : bool :=
  (w.(aw_not_before) <=? now) && (now <? w.(aw_expires_at)).

Record DpopReplayKey := {
  rk_jkt : string;
  rk_jti : string;
  rk_expires_at : Z;
}.

Inductive DpopReplayConsumptionResult := ReplayAccepted | Replay.

Inductive DpopNonceValidationResult := NonceAccepted | NonceUnknown.

Inductive ProtectedResourceDependencyError :=
| InvalidTenantBoundary
| RevocationLookupUnavailable
| DpopReplayStoreUnavailable
| DpopNonceStoreUnavailable.

(** ** [keys.rs] *)
Section keys.
Context (digest : string → string).

Definition dpop_replay (jkt jti : string) : string := "oauth:dpop:jti:" +:+ jkt +:+ ":" +:+ digest jti.

Definition dpop_nonce (nonce : string) : string := "oauth:dpop:nonce:" +:+ digest nonce.

Definition private_key_jwt_replay (client_id jti : string) : string :=
  "oauth:client_assertion:jti:" +:+ digest client_id +:+ ":" +:+ digest jti.

Definition client_attestation_replay (client_id jti : string) : string :=
  private_key_jwt_replay ("client-attestation:" +:+ client_id) jti.

Definition jar_replay (client_id jti : string) : string :=
  "oauth:jar:jti:" +:+ digest client_id +:+ ":" +:+ digest jti.

Definition jwt_bearer_replay (client_id jti : string) : string :=
  "oauth:jwt_bearer:jti:" +:+ digest client_id +:+ ":" +:+ digest jti.

Definition ciba_request_object_replay (client_id jti : string) : string :=
  "oauth:ciba:request_object:jti:" +:+ digest client_id +:+ ":" +:+ digest jti.

(** The tenant's identifier and the fingerprint, as the key has them: the
    UUID's text and the digest's hexadecimal digits. *)
Definition fapi_http_signature_replay (tenant_id fingerprint : string) : string :=
  "fapi_http_signature_replay:" +:+ tenant_id +:+ ":" +:+ fingerprint.
End keys.

(** ** Commands and scripts *)
Section commands.
Context {K : Type} `{!Valkey K}.

(** [SET key value EX ttl NX]: the lifetime is checked before the key. *)
Definition SET_EX_NX (key value : string) (ttl : Z) : script K (option string) := fun k =>
  match vk_set_ex key value ttl k with
  | Err e => (Err e, k)
  | Ok k' => if vk_exists k key then (Ok None, k) else (Ok (Some "OK"), k')
  end.

(** [SET key value NX EXAT at], inside a script: whether it wrote. *)
Definition set_exat_nx (key value : string) (at_ : Z) : script K bool := fun k =>
  match vk_set_exat key value at_ k with
  | Err e => (Err e, k)
  | Ok k' => if vk_exists k key then (Ok false, k) else (Ok true, k')
  end.

Definition CLIENT_ATTESTATION_PROOF_SCRIPT (key : string) (argv1 argv2 : Z) : script K string := fun k =>
  let now := tonumber (vk_time k) in
  let not_before := tonumber argv1 in
  let expires_at := tonumber argv2 in
  if (now <? not_before) || (expires_at <=? now) then (Ok "rejected", k)
  else match set_exat_nx key "1" expires_at k with
       | (Err e, k') => (Err e, k')
       | (Ok true, k') => (Ok "accepted", k')
       | (Ok false, k') => (Ok "rejected", k')
       end.

Definition REQUEST_OBJECT_REPLAY_SCRIPT (key : string) (argv1 : Z) : script K string := fun k =>
  let now := tonumber (vk_time k) in
  let expires_at := tonumber argv1 in
  if expires_at <=? now then (Ok "rejected", k)
  else match set_exat_nx key "1" argv1 k with
       | (Err e, k') => (Err e, k')
       | (Ok true, k') => (Ok "accepted", k')
       | (Ok false, k') => (Ok "rejected", k')
       end.

Definition parse_set_nx (reply : option string) : result bool ErrorKind :=
  match reply with
  | Some r => if decide (r = "OK") then Ok true else Err UnexpectedResult
  | None => Ok false
  end.

Definition parse_replay (reply : string) : result bool ErrorKind :=
  if decide (reply = "accepted") then Ok true
  else if decide (reply = "rejected") then Ok false
  else Err UnexpectedResult.

Context (namespace : string).

Definition set_ex_nx (tr : transport) (key value : string) (ttl_seconds : Z) (k : K)
    : result bool ErrorKind * K :=
  eval_parse parse_set_nx tr
    (SET_EX_NX (state_key namespace key) value (Z.min ttl_seconds I64_MAX)) k.

Definition set_ex (tr : transport) (key value : string) (ttl_seconds : Z) (k : K)
    : result unit ErrorKind * K :=
  eval tr (then_set_ex (state_key namespace key) value (Z.min ttl_seconds I64_MAX) (reply tt)) k.

Definition get (tr : transport) (key : string) (k : K) : result (option string) ErrorKind * K :=
  eval tr (fun k => (Ok (vk_get k (state_key namespace key)), k)) k.

(** ** [ReplayStore] *)
Context (digest : string → string).

Definition consume_key (tr : transport) (key : string) (ttl_seconds : Z) (k : K)
    : result bool ErrorKind * K :=
  set_ex_nx tr key "1" ttl_seconds k.

Definition consume_fapi_http_signature (tr : transport) (tenant_id fingerprint : string)
    (max_age_seconds : Z) (k : K) : result bool ErrorKind * K :=
  match (ttl ← i64_checked (max_age_seconds + FAPI_HTTP_SIGNATURE_FUTURE_SKEW_SECONDS);
         if 0 <=? ttl then Some ttl else None) with
  | None => (Err UnexpectedResult, k)
  | Some ttl_seconds =>
      set_ex_nx tr (fapi_http_signature_replay tenant_id fingerprint) "1" ttl_seconds k
  end.

Definition consume_dpop (tr : transport) (jkt jti : string) (ttl_seconds : Z) (k : K)
    : result bool ErrorKind * K :=
  consume_key tr (dpop_replay digest jkt jti) ttl_seconds k.

Definition issue_dpop_nonce (tr : transport) (nonce : string) (ttl_seconds : Z) (k : K)
    : result unit ErrorKind * K :=
  set_ex tr (dpop_nonce digest nonce) "1" ttl_seconds k.

Definition validate_dpop_nonce (tr : transport) (nonce : string) (k : K) : result bool ErrorKind * K :=
  let '(r, k') := get tr (dpop_nonce digest nonce) k in (map_ok is_some r, k').

Definition consume_client_attestation_proof (tr : transport) (client_id jti : string)
    (window : ClientAttestationProofWindow) (k : K) : result bool ErrorKind * K :=
  eval_parse parse_replay tr
    (CLIENT_ATTESTATION_PROOF_SCRIPT (state_key namespace (client_attestation_replay digest client_id jti))
       window.(aw_not_before) window.(aw_expires_at)) k.

Definition consume_private_key_jwt (tr : transport) (client_id jti : string) (ttl_seconds : Z) (k : K)
    : result bool ErrorKind * K :=
  consume_key tr (private_key_jwt_replay digest client_id jti) ttl_seconds k.

Definition consume_request_object_key (tr : transport) (key : string) (expires_at : Z) (k : K)
    : result bool ErrorKind * K :=
  eval_parse parse_replay tr (REQUEST_OBJECT_REPLAY_SCRIPT (state_key namespace key) expires_at) k.

Definition consume_jar (tr : transport) (client_id jti : string) (expires_at : Z) (k : K)
    : result bool ErrorKind * K :=
  consume_request_object_key tr (jar_replay digest client_id jti) expires_at k.

Definition consume_jwt_bearer (tr : transport) (client_id jti : string) (ttl_seconds : Z) (k : K)
    : result bool ErrorKind * K :=
  consume_key tr (jwt_bearer_replay digest client_id jti) ttl_seconds k.

Definition consume_ciba_request_object (tr : transport) (client_id jti : string) (expires_at : Z) (k : K)
    : result bool ErrorKind * K :=
  consume_request_object_key tr (ciba_request_object_replay digest client_id jti) expires_at k.

(** [DpopStateStorePort]: every error is the port's one error. *)
Definition state_store {R} (r : result R ErrorKind * K) : result R unit * K :=
  (map_err (fun _ => tt) r.1, r.2).

Definition port_consume_replay (tr : transport) (jkt jti : string) (ttl_seconds : Z) (k : K)
    : result bool unit * K :=
  state_store (consume_dpop tr jkt jti ttl_seconds k).

Definition port_issue_nonce (tr : transport) (nonce : string) (ttl_seconds : Z) (k : K)
    : result unit unit * K :=
  state_store (issue_dpop_nonce tr nonce ttl_seconds k).

Definition port_validate_nonce (tr : transport) (nonce : string) (k : K) : result bool unit * K :=
  state_store (validate_dpop_nonce tr nonce k).

(** [DpopReplayConsumption] and [DpopNonceStorage], for protected resources. *)
Definition resource_ttl (expires_at now : Z) : Z := Z.max (i64_saturating_sub expires_at now) 1.

Definition resource_consume (tr : transport) (now : Z) (key : DpopReplayKey) (k : K)
    : result DpopReplayConsumptionResult ProtectedResourceDependencyError * K :=
  let '(r, k') := consume_dpop tr key.(rk_jkt) key.(rk_jti) (resource_ttl key.(rk_expires_at) now) k in
  (map_err (fun _ => DpopReplayStoreUnavailable)
     (map_ok (fun accepted : bool => if accepted then ReplayAccepted else Replay) r), k').

Definition resource_issue_nonce (tr : transport) (now : Z) (nonce : string) (expires_at : Z) (k : K)
    : result unit ProtectedResourceDependencyError * K :=
  let '(r, k') := issue_dpop_nonce tr nonce (resource_ttl expires_at now) k in
  (map_err (fun _ => DpopNonceStoreUnavailable) r, k').

Definition resource_validate_nonce (tr : transport) (nonce : string) (k : K)
    : result DpopNonceValidationResult ProtectedResourceDependencyError * K :=
  let '(r, k') := validate_dpop_nonce tr nonce k in
  (map_err (fun _ => DpopNonceStoreUnavailable)
     (map_ok (fun valid : bool => if valid then NonceAccepted else NonceUnknown) r), k').

End commands.
