(* ===== verification/DpopFacts.v ===== *)
(** * What the DPoP checks admit, and how often

    The proofs that verification accepts, as a predicate on the request
    ([accepted]); and, over the Valkey replay store, that a proof is admitted
    once while its window is open, whatever the interleaving of the requests.
    Request objects and client attestation proofs, whose markers carry the
    deadline itself, are accepted once and for all. *)
From Stdlib Require Import Ascii.
From stdpp Require Import base list strings gmap relations.
From S2P Require Import Prelude Chrono Effects Text Json UriPolicy Valkey.
From S2P Require Import Dpop ValkeyDevice ValkeyReplay.

Local Open Scope string_scope.
Local Open Scope rust_scope.
Local Open Scope Z_scope.

(** ** The proofs that are accepted *)
Section spec.
Context `{C : Crates}.

(** The proof of a request, when it is not blank. *)
Definition presented (r : DpopProofRequest) : option string :=
  raw ← r.(dr_proof); if negb (is_empty (trim raw)) then Some raw else None.

Definition segment (s : string) : Prop := s ≠ "" ∧ "."%char ∉ bytes s.

(** The three parts of a proof, its header and claims, and what is signed. *)
Inductive proof_parts (raw : string) : DpopHeader → DpopClaims → string → string → Prop :=
| parts_intro h p s header_text header_doc header claims_text claims_doc claims signature :
    raw = h +:+ "." +:+ p +:+ "." +:+ s →
    segment h → segment p → segment s →
    base64url_decode h = Some header_text → json_parse header_text = Some header_doc →
    header_of header_doc = Some header →
    base64url_decode p = Some claims_text → json_parse claims_text = Some claims_doc →
    claims_of claims_doc = Some claims →
    base64url_decode s = Some signature →
    proof_parts raw header claims (h +:+ "." +:+ p) signature.

(** The keys a proof may carry for its algorithm, and the members that identify them. *)
Inductive public_key (jwk : Value) : string → VerificationKey → list (string * string) → Prop :=
| public_ed25519 x bytes :
    text_member jwk "kty" = Some "OKP" → text_member jwk "crv" = Some "Ed25519" →
    text_member jwk "x" = Some x → base64url_decode x = Some bytes → len bytes = 32 →
    public_key jwk "EdDSA" (from_ed25519_bytes bytes) [("crv", "Ed25519"); ("kty", "OKP"); ("x", x)]
| public_p256 x y x_bytes y_bytes :
    text_member jwk "kty" = Some "EC" → text_member jwk "crv" = Some "P-256" →
    text_member jwk "x" = Some x → base64url_decode x = Some x_bytes → len x_bytes = 32 →
    text_member jwk "y" = Some y → base64url_decode y = Some y_bytes → len y_bytes = 32 →
    public_key jwk "ES256" (from_p256_coordinates x_bytes y_bytes)
      [("crv", "P-256"); ("kty", "EC"); ("x", x); ("y", y)].

Definition verification_only (alg : string) (jwk : Value) : Prop :=
  (∀ a, text_member jwk "alg" = Some a → a = alg) ∧
  (∀ u, text_member jwk "use" = Some u → u = "sig") ∧
  (∀ m, m ∈ ["d"; "p"; "q"; "dp"; "dq"; "qi"; "oth"; "k"] → value_get jwk m = None) ∧
  (value_get jwk "key_ops" = None ∨ value_get jwk "key_ops" = Some (JArray [JString "verify"])).

Definition signed (alg : string) (key : VerificationKey) (message signature : string) : Prop :=
  verify_sig (if decide (alg = "EdDSA") then ED25519 else ECDSA_P256_SHA256_FIXED)
    key.(vk_kind) message signature = true.

Definition thumbprint (members : list (string * string)) : string :=
  base64url_encode (sha256 (json_print (JObject (prod_map id JString <$> members)))).

(** A URL without query and fragment. *)
Definition bare (u : Url) : string := url_to_string (url_set_fragment None (url_set_query None u)).

(** The proof is for this request. *)
Definition bound (r : DpopProofRequest) (claims : DpopClaims) : Prop :=
  claims.(dc_htm) = r.(dr_method) ∧
  (∀ t, t ∈ r.(dr_target_uris) → is_Some (url_parse t)) ∧
  (∃ u t v, url_parse claims.(dc_htu) = Some u ∧ t ∈ r.(dr_target_uris) ∧ url_parse t = Some v ∧
     bare u = bare v) ∧
  (∀ token, r.(dr_access_token) = Some token →
     claims.(dc_ath) = Some (base64url_encode (sha256 token))).

Inductive accepted (r : DpopProofRequest) (now : Z) : VerifiedDpopProof → Prop :=
| accepted_intro raw header claims message signature key members :
    r.(dr_proof) = Some raw → trim raw ≠ "" →
    proof_parts raw header claims message signature →
    header.(dh_critical_extension_present) = false →
    (∃ typ, header.(dh_typ) = Some typ ∧ eq_ignore_ascii_case typ "dpop+jwt" = true) →
    verification_only header.(dh_alg) header.(dh_jwk) →
    public_key header.(dh_jwk) header.(dh_alg) key members →
    signed header.(dh_alg) key message signature →
    (∀ expected, r.(dr_expected_jkt) = Some expected → expected = thumbprint members) →
    bound r claims →
    now - 300 ≤ claims.(dc_iat) ≤ now + 30 →
    trim claims.(dc_jti) ≠ "" → len claims.(dc_jti) ≤ 128 →
    accepted r now {| vp_jkt := thumbprint members; vp_jti := claims.(dc_jti);
                      vp_nonce := claims.(dc_nonce);
                      vp_key_id := text_member header.(dh_jwk) "kid" |}.
End spec.

(** The seconds of an instant of [chrono]. *)
Definition utc_seconds (now : Z) : Prop := ∃ t, valid_time t ∧ now = timestamp t.

(** ** Lemmas on the checks *)
Section checks.
Context `{C : Crates}.

Lemma nonempty_segment_Ok o s : nonempty_segment o = Ok s ↔ o = Some s ∧ s ≠ "".
Proof.
  unfold nonempty_segment. destruct o as [t|]; [|naive_solver].
  destruct (is_empty t) eqn:E; simpl; [apply is_empty_true in E|apply is_empty_spec in E]; naive_solver.
Qed.

Lemma three_parts (l : list string) a b c :
  l !! 0%nat = Some a → l !! 1%nat = Some b → l !! 2%nat = Some c → is_some (l !! 3%nat) = false →
  l = [a; b; c].
Proof. destruct l as [|? [|? [|? [|? ?]]]]; simpl; intros; by simplify_eq. Qed.

Lemma decode_proof_Ok raw h c m s :
  decode_proof raw = Ok (h, c, m, s) ↔ proof_parts raw h c m s.
Proof.
  unfold decode_proof. split.
  - intros H. repeat (case_match; simplify_eq).
    repeat match goal with
    | H : nonempty_segment _ = Ok _ |- _ => apply nonempty_segment_Ok in H as [? ?]
    | H : ok_or _ _ = Ok _ |- _ => apply ok_or_Ok in H
    | H : _ ≫= _ = Some _ |- _ => apply bind_Some in H as (? & ? & ?)
    end.
    match goal with
    | A : _ !! 0%nat = _, B : _ !! 1%nat = _, D : _ !! 2%nat = _, E : is_some _ = false |- _ =>
        pose proof (three_parts _ _ _ _ A B D E) as Hl
    end.
    apply split_char_three in Hl as (-> & ? & ? & ?). by econstructor.
  - intros []. destruct H0, H1, H2. subst raw.
    rewrite (proj2 (split_char_three "." _ h0 p s0)) by done. simpl.
    unfold nonempty_segment; rewrite !(proj2 (is_empty_spec _)) by done. simpl.
    by rewrite H3, H6, H9; simpl; rewrite H4, H7; simpl; rewrite H5, H8.
Qed.

Lemma iat_within_window_spec iat now : I64_MIN ≤ now → now + 30 ≤ I64_MAX →
  iat_within_window iat now = true ↔ now - 300 ≤ iat ≤ now + 30.
Proof.
  intros. assert (I64_MIN < 0 ∧ 300 < I64_MAX) as [? ?] by done.
  unfold iat_within_window, i64_checked_sub, DPOP_CLOCK_SKEW_SECONDS, DPOP_MAX_PROOF_AGE_SECONDS.
  replace (i64_saturating_add now 30) with (now + 30) by (unfold i64_saturating_add, clamp; lia).
  destruct (Z.ltb_spec (now + 30) iat); [split; [done|lia]|].
  destruct (Z.ltb_spec now iat); simpl; [split; [lia|done]|].
  destruct (in_range I64_MIN I64_MAX (now - iat)) eqn:E; simpl.
  - rewrite Z.leb_le. lia.
  - split; [done|]. unfold in_range in E. apply andb_false_iff in E as [E|E]; boolify; lia.
Qed.

Lemma iat_within_window_lower iat now : I64_MIN ≤ now →
  iat_within_window iat now = true → iat ≤ now + 30.
Proof.
  unfold iat_within_window, i64_saturating_add, clamp, DPOP_CLOCK_SKEW_SECONDS. intros ? H.
  case_match; boolify; lia.
Qed.

Lemma key_ops_spec jwk : key_ops_allow_verification jwk = true ↔
  value_get jwk "key_ops" = None ∨ value_get jwk "key_ops" = Some (JArray [JString "verify"]).
Proof.
  unfold key_ops_allow_verification. destruct (value_get jwk "key_ops") as [v|]; [|naive_solver].
  split.
  - intros H. right. destruct v as [| | | |items|]; try done. simpl in H.
    apply andb_true_iff in H as [H1 H2]. boolify.
    destruct items as [|w [|]]; try done. simpl in *. destruct w; naive_solver.
  - intros [|H]; [done|]. by injection H as ->.
Qed.

Lemma private_material_spec jwk : has_private_key_material jwk = false ↔
  ∀ m, m ∈ ["d"; "p"; "q"; "dp"; "dq"; "qi"; "oth"; "k"] → value_get jwk m = None.
Proof.
  unfold has_private_key_material. generalize ["d"; "p"; "q"; "dp"; "dq"; "qi"; "oth"; "k"].
  induction l as [|m l IH]; simpl; [set_solver|].
  rewrite orb_false_iff, IH. setoid_rewrite elem_of_cons.
  destruct (value_get jwk m) eqn:E; naive_solver.
Qed.

Lemma text_unless (o : option string) (s : string) :
  is_some_and o (fun value => negb (bool_decide (value = s))) = false ↔ ∀ a, o = Some a → a = s.
Proof.
  destruct o as [t|]; simpl; [|naive_solver]. rewrite negb_false_iff, bool_decide_eq_true. naive_solver.
Qed.

Lemma verification_only_spec alg jwk :
  (is_some_and (text_member jwk "alg") (fun value => negb (bool_decide (value = alg)))
   || is_some_and (text_member jwk "use") (fun value => negb (bool_decide (value = "sig")))
   || has_private_key_material jwk
   || negb (key_ops_allow_verification jwk)) = false ↔ verification_only alg jwk.
Proof.
  rewrite !orb_false_iff, negb_false_iff, !text_unless, private_material_spec, key_ops_spec.
  unfold verification_only. tauto.
Qed.

Lemma decoding_key_Ok a alg jwk key : dpop_algorithm a = Some alg →
  public_dpop_decoding_key jwk alg = Ok key ↔
  verification_only a jwk ∧ ∃ members, public_key jwk a key members.
Proof.
  rewrite <-verification_only_spec. unfold dpop_algorithm, public_dpop_decoding_key, bytes_32. intros Ha.
  split.
  - intros H. repeat (case_match; simplify_eq/=); boolify; simplify_eq;
      repeat match goal with H : ok_or _ _ = Ok _ |- _ => apply ok_or_Ok in H end;
      (split; [by rewrite !orb_false_iff, negb_false_iff|eexists; by econstructor]).
  - intros [Hv [ms Hk]]. destruct Hk; simplify_eq/=; rewrite Hv; simpl;
      rewrite H, H0, H1; simpl; rewrite ?H4; simpl; rewrite H2; simpl; rewrite ?H5; simpl;
      rewrite H3; simpl; rewrite ?H6; done.
Qed.

Lemma public_key_algorithm jwk a key ms : public_key jwk a key ms → is_Some (dpop_algorithm a).
Proof. intros []; by eexists. Qed.

Lemma public_key_thumbprint jwk a key ms :
  public_key jwk a key ms → jwk_thumbprint jwk = Ok (thumbprint ms).
Proof.
  intros []; unfold jwk_thumbprint, thumbprint_members; rewrite H; simpl; rewrite H0; simpl;
    rewrite H1; simpl; rewrite ?H4; done.
Qed.

Lemma public_key_signature jwk a alg key ms m s :
  public_key jwk a key ms → dpop_algorithm a = Some alg →
  verify_signature alg key m s = Ok tt ↔ signed a key m s.
Proof.
  intros [] Ha; unfold dpop_algorithm in Ha; simplify_eq/=; unfold verify_signature, signature_verify, signed;
    simpl; destruct (verify_sig _ _ _ _); naive_solver.
Qed.

Lemma normalize_htu_Ok value s :
  normalize_htu value = Ok s ↔ ∃ u, url_parse value = Some u ∧ s = bare u.
Proof.
  unfold normalize_htu. destruct (url_parse value) as [u|]; simpl; [|naive_solver].
  split; [intros [= <-]; by exists u|by intros (? & [= <-] & ->)].
Qed.

Lemma htu_matches_Ok actual targets found b :
  htu_matches actual targets found = Ok b →
  (∀ t, t ∈ targets → is_Some (url_parse t)) ∧
  (b = true ↔ found = true ∨ ∃ t v, t ∈ targets ∧ url_parse t = Some v ∧ actual = bare v).
Proof.
  revert found. induction targets as [|t l IH]; intros found; simpl.
  { intros [= ->]. set_solver. }
  destruct (normalize_htu t) as [e|] eqn:E; [|done].
  apply normalize_htu_Ok in E as (u & Hu & ->).
  intros [Hl Hb]%IH. setoid_rewrite elem_of_cons. split; [naive_solver|].
  rewrite Hb. case_decide; naive_solver.
Qed.

Lemma htu_matches_total actual targets found :
  (∀ t, t ∈ targets → is_Some (url_parse t)) → ∃ b, htu_matches actual targets found = Ok b.
Proof.
  revert found. induction targets as [|t l IH]; intros found H; simpl; [by eexists|].
  destruct (H t) as [u Hu]; [by left|].
  rewrite (proj2 (normalize_htu_Ok t (bare u))) by eauto. apply IH. intros. apply H. by right.
Qed.

Lemma valid_jti_spec jti : valid_jti jti = true ↔ trim jti ≠ "" ∧ len jti ≤ 128.
Proof.
  unfold valid_jti, MAX_DPOP_JTI_BYTES. rewrite andb_true_iff, negb_true_iff, is_empty_spec, Z.leb_le.
  done.
Qed.

Lemma validate_claims_Ok r claims now :
  validate_claims r claims now = Ok tt ↔
  bound r claims ∧ iat_within_window claims.(dc_iat) now = true ∧ valid_jti claims.(dc_jti) = true.
Proof.
  unfold validate_claims. split.
  - intros H. destruct (normalize_htu (dc_htu claims)) as [a|] eqn:Ea; [|done].
    apply normalize_htu_Ok in Ea as (u & Hu & ->).
    destruct (htu_matches _ _ _) as [b|] eqn:Eb; [|done].
    apply htu_matches_Ok in Eb as [Ht Hb].
    do 2 (case_match; [done|]). boolify; subst b. destruct (proj1 Hb eq_refl) as [|(t & v & ? & ? & ?)]; [done|].
    unfold bound. split_and!; try done; [by eauto 8|].
    intros token Htok. rewrite Htok in H. by case_match; boolify.
  - intros [(Hm & Ht & (u & t & v & Hu & Hin & Hv & Hbare) & Hath) [Hi Hj]].
    rewrite (proj2 (normalize_htu_Ok _ (bare u))) by eauto.
    destruct (htu_matches_total (bare u) _ false Ht) as [b Hb]. rewrite Hb.
    apply htu_matches_Ok in Hb as [_ Hb]. rewrite (proj2 Hb) by eauto 8.
    rewrite (bool_decide_eq_true_2 _ Hm), Hi, Hj. simpl.
    destruct (dr_access_token r) as [token|]; [|done].
    by rewrite (bool_decide_eq_true_2 _ (Hath token eq_refl)).
Qed.

Lemma presented_Some r raw : presented r = Some raw ↔ r.(dr_proof) = Some raw ∧ trim raw ≠ "".
Proof.
  unfold presented. destruct (dr_proof r) as [s|]; simpl; [|naive_solver].
  destruct (is_empty (trim s)) eqn:E; simpl; [apply is_empty_true in E|apply is_empty_spec in E];
    naive_solver.
Qed.

Lemma utc_seconds_range now : utc_seconds now → I64_MIN ≤ now ∧ now + 30 ≤ I64_MAX.
Proof.
  intros (t & [H1 H2] & ->). unfold timestamp, MIN_UTC, MAX_UTC, NANOS, I64_MIN, I64_MAX in *.
  pose proof (Z.div_mod t 1000000000 ltac:(done)). pose proof (Z.mod_pos_bound t 1000000000 ltac:(done)).
  lia.
Qed.

Lemma verified_accepted r now v : utc_seconds now →
  verify_dpop_proof_at r now = Ok (Some v) → accepted r now v.
Proof.
  intros [? ?]%utc_seconds_range. unfold verify_dpop_proof_at. fold (presented r).
  destruct (presented r) as [raw|] eqn:Ep; [|by case_match].
  apply presented_Some in Ep as [Hr Ht].
  destruct (decode_proof raw) as [[[[h c] m] s]|] eqn:Ed; [|done]. apply decode_proof_Ok in Ed.
  destruct (dh_critical_extension_present h) eqn:Ec; [done|].
  destruct (dh_typ h) as [typ|] eqn:Et; simpl; [|done]. destruct (eq_ignore_ascii_case _ _) eqn:Ei; [|done].
  simpl. destruct (dpop_algorithm (dh_alg h)) as [alg|] eqn:Ea; simpl; [|done].
  destruct (public_dpop_decoding_key _ _) as [key|] eqn:Ek; [|done].
  apply (decoding_key_Ok _ _ _ _ Ea) in Ek as [Hv [ms Hk]].
  destruct (verify_signature _ _ _ _) as [[]|] eqn:Es; [|done].
  apply (public_key_signature _ _ _ _ _ _ _ Hk Ea) in Es.
  rewrite (public_key_thumbprint _ _ _ _ Hk). case_match eqn:Ej; [done|].
  destruct (validate_claims r c now) as [[]|] eqn:Ev; [|done].
  apply validate_claims_Ok in Ev as (? & ?%iat_within_window_spec & [??]%valid_jti_spec); [|done..].
  intros [= <-]. econstructor; eauto. intros e He. rewrite He in Ej. simpl in Ej. by boolify.
Qed.

Lemma accepted_verified r now v : utc_seconds now →
  accepted r now v → verify_dpop_proof_at r now = Ok (Some v).
Proof.
  intros [? ?]%utc_seconds_range [raw h c m s key ms Hr Ht Hp Hc (typ & Et & Ei) Hv Hk Hs Hj Hb Hi J1 J2].
  unfold verify_dpop_proof_at. fold (presented r).
  rewrite (proj2 (presented_Some r raw)) by done. rewrite (proj2 (decode_proof_Ok _ _ _ _ _) Hp).
  rewrite Hc, Et. simpl. rewrite Ei. simpl.
  destruct (public_key_algorithm _ _ _ _ Hk) as [alg Ea]. rewrite Ea. simpl.
  rewrite (proj2 (decoding_key_Ok _ _ _ key Ea)) by eauto.
  rewrite (proj2 (public_key_signature _ _ _ _ _ m s Hk Ea)) by done.
  rewrite (public_key_thumbprint _ _ _ _ Hk).
  destruct (is_some_and _ _) eqn:Ej.
  { destruct (dr_expected_jkt r) as [e|]; [|done]. simpl in Ej. boolify. by destruct Ej; apply Hj. }
  rewrite (proj2 (validate_claims_Ok r c now)); [done|]. split_and!; [done| |].
  - by apply iat_within_window_spec.
  - by apply valid_jti_spec.
Qed.

Lemma no_proof_verified r now :
  verify_dpop_proof_at r now = Ok None ↔ presented r = None ∧ r.(dr_expected_jkt) = None.
Proof.
  unfold verify_dpop_proof_at. fold (presented r). destruct (presented r) as [raw|].
  - split; [|by intros []]. intros H. repeat (case_match; simplify_eq).
  - destruct (dr_expected_jkt r); naive_solver.
Qed.

(** A proof that is asked to be bound to a key is bound to it. *)
Lemma verified_expected r now v key :
  verify_dpop_proof_at r now = Ok v → r.(dr_expected_jkt) = Some key →
  ∃ verified, v = Some verified ∧ verified.(vp_jkt) = key.
Proof.
  unfold verify_dpop_proof_at. intros H Hk. rewrite Hk in H. case_match; [|done].
  destruct (decode_proof _) as [[[[header claims] message] signature]|]; simpl in H; [|done].
  repeat (case_match; simpl in H; try done). simplify_eq. eexists. split; [done|]. simpl.
  by match goal with H : negb _ = false |- _ => apply negb_false_iff, bool_decide_eq_true in H end.
Qed.

Lemma validate_dpop_expected issuer mtls policy request token expected :
  obeys (fun _ _ => True) (fun _ _ _ => True)
    (fun r => ∀ jkt key, r = Ok jkt → expected = Some key → jkt = Some key)
    (validate_dpop_proof issuer mtls policy request token expected).
Proof.
  unfold validate_dpop_proof. destruct (rf_proof request) as [proof|]; [|done].
  case_match; [|done]. apply obeys_bind.
  eapply (obeys_mono _ _ (fun r => ∀ jkt key, r = Ok jkt → expected = Some key → jkt = Some key)).
  - unfold validate_authorization_server_dpop, call. cbn [bind obeys]. split; [done|]. intros now _.
    unfold validate_authorization_server_dpop_at.
    destruct (verify_dpop_proof_at _ now) as [[verified|]|] eqn:Hv; [| |done].
    + apply obeys_bind. eapply obeys_mono; [apply obeys_anything|]. intros [u|] _; [|done].
      destruct (replay_scope _ _); [|done]. split; [done|]. intros [[]|] _; try done.
      intros jkt key [= <-] Hk. eapply verified_expected in Hv as (? & [= <-] & ?); [|done]. by f_equal.
    + intros jkt key [= <-] Hk. by eapply verified_expected in Hv as (? & ? & ?).
  - intros [jkt|[]] Hr; try done. split; [done|]. by intros [] _.
Qed.
End checks.

(** ** Admissions over the replay store *)
Section store.
Context `{C : Crates} {K : Type} `{!Valkey K}.
Context (namespace issuer mtls_endpoint_base_url : string).
(** By how much, in milliseconds, a node's clock may be ahead of the server's. *)
Context (ahead : Z).

Definition marker (scope jti : string) : string :=
  state_key namespace (dpop_replay blake3_text scope jti).

(** An entry that has not reached its deadline stays, with no earlier deadline. *)
Definition keeps (key : string) (k k' : K) : Prop :=
  vk_time_ms k ≤ vk_time_ms k' ∧
  (is_Some (vk_get k key) → vk_time_ms k' < vk_pexpiretime k key →
   is_Some (vk_get k' key) ∧ vk_pexpiretime k key ≤ vk_pexpiretime k' key).

(** Time and the server's other clients: anything that keeps the markers. *)
Definition others (k k' : K) : Prop := ∀ scope jti, keeps (marker scope jti) k k'.

(** The effects of an admission, for any behaviour of the connection. *)
Definition dpop_effect (X : Type) (e : dpopE X) (k : K) : X → K → Prop :=
  match e in dpopE X return X → K → Prop with
  | ConsumeReplay jkt jti ttl => fun x k' => ∃ tr,
      port_consume_replay namespace blake3_text tr jkt jti ttl k = (x, k')
  | IssueNonce nonce ttl => fun x k' => ∃ tr,
      port_issue_nonce namespace blake3_text tr nonce ttl k = (x, k')
  | ValidateNonce nonce => fun x k' => ∃ tr,
      port_validate_nonce namespace blake3_text tr nonce k = (x, k')
  | UtcNow => fun now k' => utc_seconds now ∧ now * 1000 ≤ vk_time_ms k + ahead ∧ k' = k
  | RandomBytes => fun _ k' => k' = k
  | RecordRequired _ _ => fun _ k' => k' = k
  end.

Definition dpop_step (i : nat) (X : Type) (e : dpopE X) (k : K) (x : X) (k' : K) : Prop :=
  ∃ k1, others k k1 ∧ dpop_effect X e k1 x k'.

(** A call of [validate_dpop_proof]. *)
Record attempt := {
  at_policy : DpopNoncePolicy;
  at_request : DpopRequestFacts;
  at_token : option string;
  at_expected : option string;
}.

Definition run_attempt (a : attempt) : prog dpopE (result (option string) DpopError) :=
  validate_dpop_proof issuer mtls_endpoint_base_url a.(at_policy) a.(at_request) a.(at_token)
    a.(at_expected).

(** The request carries this proof, with an access token or without one. *)
Definition carries (raw : string) (token : bool) (a : attempt) : Prop :=
  a.(at_request).(rf_proof) = Ok (Some raw) ∧ is_some a.(at_token) = token.

(** The scope a proof is spent in. *)
Definition spent_scope (token : bool) (header : DpopHeader) (claims : DpopClaims)
    : result string DpopError :=
  if token then
    let? target := normalize_htu claims.(dc_htu) in
    Ok ("resource:" +:+ blake3_text (claims.(dc_htm) +:+ ":" +:+ target))
  else jwk_thumbprint header.(dh_jwk).

(** The markers of the replay store against its operations. *)
Context `{!ValkeyLaws K}.

Lemma keeps_refl key k : keeps key k k.
Proof. split; [lia|done]. Qed.

Lemma keeps_trans key k1 k2 k3 : keeps key k1 k2 → keeps key k2 k3 → keeps key k1 k3.
Proof.
  intros [T1 H1] [T2 H2]. split; [lia|]. intros Hs Ht.
  destruct H1 as [??]; [done|lia|]. destruct H2 as [??]; [done|lia|]. split; [done|lia].
Qed.

Lemma SET_EX_NX_cases key v ttl (k : K) :
  (SET_EX_NX key v ttl k).2 = k ∧ (SET_EX_NX key v ttl k).1 ≠ Ok (Some "OK") ∨
  ∃ k', vk_get k key = None ∧ vk_set_ex key v ttl k = Ok k' ∧ SET_EX_NX key v ttl k = (Ok (Some "OK"), k').
Proof.
  unfold SET_EX_NX, vk_exists. destruct (vk_set_ex key v ttl k) as [k'|]; [|by left].
  destruct (vk_get k key) eqn:E; simpl; [by left|]. right. eauto.
Qed.

Lemma set_ex_keeps key a v ttl k k' : a ≠ key ∨ vk_get k key = None →
  vk_set_ex a v ttl k = Ok k' → keeps key k k'.
Proof.
  intros Ha Hk. split; [by rewrite (vk_time_set_ex _ _ _ _ _ Hk)|]. intros [x Hx] _.
  destruct Ha as [Ha|Ha]; [|congruence].
  rewrite (vk_get_set_ex _ _ _ _ _ _ Hk), decide_False by done.
  rewrite (vk_expiry_set_ex_other _ _ _ _ _ _ Ha Hk). split; [by eexists|done].
Qed.

Lemma set_ex_nx_keeps key tr a v ttl k : keeps key k (set_ex_nx namespace tr a v ttl k).2.
Proof.
  unfold set_ex_nx, eval_parse, eval.
  assert (keeps key k (SET_EX_NX (state_key namespace a) v (Z.min ttl I64_MAX) k).2) as Hk.
  { destruct (SET_EX_NX_cases (state_key namespace a) v (Z.min ttl I64_MAX) k)
      as [[-> _]|(k' & Hn & Hk & ->)]; [apply keeps_refl|simpl].
    eapply set_ex_keeps; [|done]. destruct (decide (state_key namespace a = key)); naive_solver. }
  destruct tr as [[e []]|]; simpl; [done|apply keeps_refl|].
  by destruct (SET_EX_NX _ _ _ _).
Qed.

Lemma set_ex_op_keeps key tr a v ttl k : state_key namespace a ≠ key →
  keeps key k (set_ex namespace tr a v ttl k).2.
Proof.
  intros Ha. unfold set_ex, eval, then_set_ex, reply.
  destruct (vk_set_ex _ _ _ _) as [k'|] eqn:Hk; destruct tr as [[e []]|]; simpl;
    try apply keeps_refl; eapply set_ex_keeps; eauto.
Qed.

Lemma marker_not_nonce scope jti nonce :
  state_key namespace (dpop_nonce blake3_text nonce) ≠ marker scope jti.
Proof. intros H%(inj (String.append namespace)). discriminate H. Qed.

Lemma effect_others X (e : dpopE X) k x k' : dpop_effect X e k x k' → others k k'.
Proof.
  intros H scope jti. destruct e; simpl in H.
  - destruct H as [tr [= _ <-]]. apply set_ex_nx_keeps.
  - destruct H as [tr [= _ <-]]. apply set_ex_op_keeps, marker_not_nonce.
  - destruct H as [tr [= _ <-]]. unfold validate_dpop_nonce, get, eval.
    destruct tr as [[? []]|]; apply keeps_refl.
  - destruct H as (_ & _ & ->). apply keeps_refl.
  - subst. apply keeps_refl.
  - subst. apply keeps_refl.
Qed.

Lemma others_trans k1 k2 k3 : others k1 k2 → others k2 k3 → others k1 k3.
Proof. intros H1 H2 scope jti. by eapply keeps_trans. Qed.

(** A consumption that succeeds wrote the marker, for its lifetime. *)
Lemma consume_wrote tr jkt jti ttl k k' : ttl ≤ I64_MAX →
  port_consume_replay namespace blake3_text tr jkt jti ttl k = (Ok true, k') →
  vk_get k (marker jkt jti) = None ∧ is_Some (vk_get k' (marker jkt jti)) ∧
  vk_pexpiretime k' (marker jkt jti) = vk_time_ms k + ttl * 1000.
Proof.
  intros Ht. unfold port_consume_replay, state_store, consume_dpop, consume_key, set_ex_nx, eval_parse, eval.
  rewrite Z.min_l by done. destruct tr as [[? ?]|]; [done|]. fold (marker jkt jti).
  destruct (SET_EX_NX_cases (marker jkt jti) "1" ttl k) as [[Hk Hr]|(k1 & Hn & Hk & ->)].
  - destruct (SET_EX_NX _ _ _ _) as [[[r|]|] ?]; simpl in *; try done.
    unfold parse_set_nx. case_decide; subst; naive_solver.
  - simpl. intros [= <-]. split; [done|]. rewrite (vk_get_set_ex _ _ _ _ _ _ Hk), decide_True by done.
    rewrite (vk_expiry_set_ex _ _ _ _ _ Hk). eauto.
Qed.
(** ** One admission per proof *)

Lemma accepted_spends r now v raw header claims message signature target scope :
  utc_seconds now → decode_proof raw = Ok (header, claims, message, signature) →
  r.(dr_proof) = Some raw → r.(dr_target_uris) = [target] →
  verify_dpop_proof_at r now = Ok (Some v) → replay_scope r v = Ok scope →
  spent_scope (is_some r.(dr_access_token)) header claims = Ok scope ∧
  v.(vp_jti) = claims.(dc_jti) ∧ claims.(dc_iat) ≤ now + 30 ∧
  ∀ access_token, r.(dr_access_token) = Some access_token →
    claims.(dc_ath) = Some (base64url_encode (sha256 access_token)).
Proof.
  intros Hnow Hd Hr Htgt Hv Hs.
  destruct (verified_accepted _ _ _ Hnow Hv) as [raw' h c m s key ms Hr' _ Hp _ _ _ Hk _ _ Hb Hi _ _].
  rewrite Hr in Hr'; injection Hr' as <-. apply decode_proof_Ok in Hp.
  rewrite Hd in Hp; injection Hp as <- <- <- <-.
  split; [|split; [done|split; [lia|apply Hb]]]. unfold replay_scope, spent_scope in *.
  destruct (dr_access_token r) as [token|]; simpl in *.
  - destruct Hb as (Hm & _ & (u & t & w & Hu & Hin & Hw & Hbare) & _).
    rewrite Htgt in Hs, Hin. apply list_elem_of_singleton in Hin as ->. simpl in Hs.
    rewrite (proj2 (normalize_htu_Ok _ (bare w))) in Hs by eauto.
    rewrite Hm. by rewrite (proj2 (normalize_htu_Ok _ (bare w))) by eauto.
  - rewrite (public_key_thumbprint _ _ _ _ Hk). done.
Qed.

Section once.
Context (raw : string) (header : DpopHeader) (claims : DpopClaims) (message signature : string).
Context (Hraw : decode_proof raw = Ok (header, claims, message, signature)).
Context (token : bool) (attempts : list attempt).

Definition spent_marker : string :=
  marker (match spent_scope token header claims with Ok scope => scope | Err _ => "" end)
    claims.(dc_jti).

(** When the proof's window closes, on the server's clock. *)
Definition closes : Z := (claims.(dc_iat) + 301) * 1000 - ahead.

(** The server, with the attempts that spent the proof. *)
Definition ghost : Type := K * list nat.

Definition carrier (i : nat) : Prop := ∃ a, attempts !! i = Some a ∧ carries raw token a.

Definition spends (X : Type) (e : dpopE X) : X → Prop :=
  match e in dpopE X return X → Prop with
  | ConsumeReplay jkt jti _ => fun x => x = Ok true ∧ marker jkt jti = spent_marker
  | _ => fun _ => False
  end.

Definition ghost_step (i : nat) (X : Type) (e : dpopE X) (w : ghost) (x : X) (w' : ghost) : Prop :=
  dpop_step i X e w.1 x w'.1 ∧
  ((spends X e x ∧ carrier i ∧ w'.2 = i :: w.2) ∨ (¬ (spends X e x ∧ carrier i) ∧ w'.2 = w.2)).

Definition once (w : ghost) : Prop :=
  closes ≤ vk_time_ms w.1 ∨ w.2 = [] ∨
  ∃ i, w.2 = [i] ∧ is_Some (vk_get w.1 spent_marker) ∧ closes ≤ vk_pexpiretime w.1 spent_marker.

Definition evolves (w w' : ghost) : Prop :=
  vk_time_ms w.1 ≤ vk_time_ms w'.1 ∧ w.2 ⊆ w'.2 ∧ (once w → once w').

Notation ghost_guar := (fun X (_ : dpopE X) w (_ : X) w' => evolves w w').

#[local] Instance evolves_preorder : PreOrder evolves.
Proof.
  split; [intros x; unfold evolves; split_and!; [lia|done|done]|]. intros x y z (? & ? & ?) (? & ? & ?).
  unfold evolves. split_and!; [lia|by etrans|naive_solver].
Qed.

Lemma others_once k k' l : others k k' → once (k, l) → once (k', l).
Proof.
  intros Hk H. destruct (Hk (match spent_scope token header claims with Ok s => s | Err _ => "" end)
    claims.(dc_jti)) as [Ht Hm]. fold spent_marker in Hm.
  destruct (Z.le_gt_cases closes (vk_time_ms k')); [by left|].
  destruct H as [H|[H|(i & H & Hs & Hd)]]; simpl in *; [lia|by right; left|].
  destruct Hm as [??]; [done|lia|]. right; right. exists i. split_and!; [done..|simpl; lia].
Qed.

Lemma quiet_step i X (e : dpopE X) w x w' :
  ghost_step i X e w x w' → ¬ (spends X e x ∧ carrier i) → evolves w w'.
Proof.
  intros [(k1 & Ho & He) [(? & ? & _)|[_ Hl]]] Hq; [naive_solver|].
  apply effect_others in He. pose proof (others_trans _ _ _ Ho He) as Hk.
  destruct w as [k l], w' as [k' l']; simpl in *; subst l'. unfold evolves. split_and!; simpl; [|done|].
  - apply (Hk "" "").
  - by apply others_once.
Qed.

Lemma spend_step i scope jti w w' :
  ghost_step i _ (ConsumeReplay scope jti DPOP_REPLAY_TTL_SECONDS) w (Ok true) w' →
  marker scope jti = spent_marker → carrier i →
  closes ≤ vk_time_ms w.1 + DPOP_REPLAY_TTL_SECONDS * 1000 → evolves w w' ∧ i ∈ w'.2.
Proof.
  intros [(k1 & Ho & He) Hl] Hm Hc Ht. destruct w as [k l], w' as [k' l']; simpl in *.
  destruct Hl as [(_ & _ & ->)|[[] _]]; [|done]. split; [|by left].
  pose proof (effect_others _ (ConsumeReplay scope jti _) _ _ _ He) as Ho'.
  destruct (Ho "" "") as [T1 _], (Ho' "" "") as [T2 _].
  destruct He as [tr He]. apply consume_wrote in He as (Hn & Hs & Hd); [|done].
  rewrite Hm in *. unfold evolves. split_and!; simpl; [lia|set_solver|]. intros Honce.
  apply (others_once _ k1) in Honce; [|done].
  destruct Honce as [H|[H|(j & _ & H & _)]]; simpl in *.
  - left; simpl; lia.
  - right; right. exists i. subst l. split_and!; [done..|]. simpl. lia.
  - rewrite Hn in H. by destruct H.
Qed.
Notation WP i p Q := (wp (ghost_step i) evolves (fun X (_ : dpopE X) w (_ : X) w' => evolves w w') p Q).

(** Programs that never consume a marker. *)
Lemma issue_nonce_wp i l w : l ≤ vk_time_ms w.1 →
  WP i issue_authorization_server_dpop_nonce (fun _ w' => l ≤ vk_time_ms w'.1) w.
Proof.
  intros Hl. apply wp_call. intros w1 x w2 [T1 _] [T2 Hq]%quiet_step; [|by intros [[] _]].
  split; [by split|]. apply wp_call. intros w3 y w4 [T3 _] [T4 ?]%quiet_step; [|by intros [[] _]].
  split; [by split|]. case_match; apply wp_ret; intros w5 [T5 _]; lia.
Qed.

Lemma validate_nonce_wp i policy nonce l w : l ≤ vk_time_ms w.1 →
  WP i (validate_nonce policy nonce) (fun _ w' => l ≤ vk_time_ms w'.1) w.
Proof.
  intros Hl.
  assert (∀ w, l ≤ vk_time_ms w.1 →
    WP i (let*? nonce := issue_authorization_server_dpop_nonce in
          Ret (Err (E := DpopError) (T := unit) (UseNonce nonce))) (fun _ w' => l ≤ vk_time_ms w'.1) w) as Hissue.
  { intros v Hv. apply wp_bind; [apply _|]. eapply wp_mono; [by apply issue_nonce_wp|].
    intros r v' Hv'. destruct r; apply wp_ret; intros v'' [? _]; lia. }
  unfold validate_nonce. destruct nonce as [nonce|].
  - apply wp_call. intros w1 x w2 [T1 _] [T2 Hq]%quiet_step; [|by intros [[] _]].
    split; [by split|]. destruct x as [[|]|]; [|case_decide|]; try (apply wp_ret; intros w5 [T5 _]; lia).
    apply Hissue. lia.
  - case_decide; [apply wp_ret; intros w5 [T5 _]; lia|by apply Hissue].
Qed.

(** The proof names the access token of the request, if it has one. *)
Definition names_token (i : nat) : Prop :=
  ∀ a access_token, attempts !! i = Some a → a.(at_token) = Some access_token →
    claims.(dc_ath) = Some (base64url_encode (sha256 access_token)).

(** The result of an attempt that carries the proof: admitted means it spent it. *)
Definition admitted_spent (i : nat) (r : result (option string) DpopError) (w : ghost) : Prop :=
  carrier i → (∃ jkt, r = Ok (Some jkt)) → i ∈ w.2 ∧ names_token i.

Lemma carrier_carries i a : attempts !! i = Some a → carrier i → carries raw token a.
Proof. intros Ha (a' & Ha' & ?). by simplify_eq. Qed.

Lemma not_admitted_wp i r w : (∀ jkt, r ≠ Ok (Some jkt)) → WP i (Ret r) (admitted_spent i) w.
Proof. intros Hr. apply wp_ret. intros w' _ _ [jkt ->]. by destruct (Hr jkt). Qed.

Lemma validate_at_wp i policy r target now w :
  r.(dr_target_uris) = [target] →
  (carrier i → r.(dr_proof) = Some raw ∧ is_some r.(dr_access_token) = token) →
  (∀ a, attempts !! i = Some a → a.(at_token) = r.(dr_access_token)) →
  utc_seconds now → now * 1000 - ahead ≤ vk_time_ms w.1 →
  WP i (validate_authorization_server_dpop_at r policy now) (admitted_spent i) w.
Proof.
  intros Htgt Hc Htk Hnow Ht. unfold validate_authorization_server_dpop_at.
  destruct (verify_dpop_proof_at r now) as [[v|]|] eqn:Hv; try (by apply not_admitted_wp).
  apply wp_bind; [apply _|]. eapply wp_mono; [by apply validate_nonce_wp|].
  intros [[]|e] w1 T1; [|by apply not_admitted_wp].
  destruct (replay_scope r v) as [scope|] eqn:Hs; [|by apply not_admitted_wp].
  apply wp_call. intros w2 x w3 [T2 _] Hst.
  assert (carrier i → marker scope (vp_jti v) = spent_marker ∧ claims.(dc_iat) ≤ now + 30 ∧
    names_token i) as Hspent.
  { intros [Hr Htok]%Hc.
    destruct (accepted_spends r now v raw header claims message signature target scope)
      as (Hsp & Hj & ? & Hath); try done.
    unfold spent_marker. rewrite <-Htok, Hsp, <-Hj. split; [done|]. split; [done|].
    intros a access_token Ha E. apply Hath. by rewrite <- (Htk a Ha). }
  destruct x as [[|]|]; [|split; [|by apply not_admitted_wp]..];
    [|by apply quiet_step in Hst; [|intros [[] _]]..].
  pose proof Hst as [_ [(_ & Hi & _)|[Hi _]]].
  - destruct (Hspent Hi) as (Hm & Hiat & Hn). destruct (spend_step _ _ _ _ _ Hst Hm Hi) as [? Hin].
    { unfold closes, DPOP_REPLAY_TTL_SECONDS, DPOP_MAX_PROOF_AGE_SECONDS, DPOP_CLOCK_SKEW_SECONDS. lia. }
    split; [done|]. apply wp_ret. intros w4 (_ & Hl & _) _ _. split; [by apply Hl|done].
  - split; [by eapply quiet_step|]. apply wp_ret. intros w4 _ Hc' _. destruct Hi.
    split; [|done]. split; [done|]. by apply Hspent.
Qed.

Lemma attempt_wp i a w : attempts !! i = Some a → WP i (run_attempt a) (admitted_spent i) w.
Proof.
  intros Ha. unfold run_attempt, validate_dpop_proof.
  destruct (rf_proof (at_request a)) as [proof|e] eqn:Hp; [|by apply not_admitted_wp].
  case_match eqn:Hu; [|by apply not_admitted_wp].
  apply wp_bind; [apply _|]. eapply wp_mono.
  - unfold validate_authorization_server_dpop. apply wp_call. intros w1 now w2 [T1 _] Hst.
    pose proof Hst as [(k1 & Ho & Hnow & Ht & Hk) _].
    split; [by apply quiet_step in Hst; [|intros [[] _]]|].
    eapply validate_at_wp; [done| | |done|].
    + intros [Hr Htok]%(carrier_carries _ _ Ha). simpl. split; [congruence|done].
    + intros a' Ha'. by simplify_eq.
    + rewrite Hk. lia.
  - intros r w1 Hr.
    assert (∀ w', evolves w1 w' → admitted_spent i r w') as Hst.
    { intros w' (_ & Hl & _) Hc Hok. destruct (Hr Hc Hok) as [? ?]. split; [by apply Hl|done]. }
    destruct r as [|[]]; try (apply wp_ret; apply Hst).
    apply wp_call. intros w2 x w3 _ Hq%quiet_step; [|by intros [[] _]]. split; [done|].
    destruct x; by apply not_admitted_wp.
Qed.

#[local] Instance carrier_dec i : Decision (carrier i).
Proof.
  unfold carrier. destruct (attempts !! i) as [a|] eqn:Ha; [|right; naive_solver].
  destruct (rf_proof (at_request a)) as [[p|]|] eqn:Hp.
  - destruct (decide (p = raw ∧ is_some (at_token a) = token)) as [[-> ?]|Hn].
    + left. exists a. by split.
    + right. intros (a' & ? & [??]). simplify_eq. destruct Hn. split; congruence.
  - right. intros (a' & ? & [??]). simplify_eq. congruence.
  - right. intros (a' & ? & [??]). simplify_eq. congruence.
Defined.

Lemma spends_dec X (e : dpopE X) x : spends X e x ∨ ¬ spends X e x.
Proof.
  destruct e; simpl; try (right; by intros []). destruct x as [[|]|]; try (right; by intros [? _]).
  destruct (decide (marker jkt jti = spent_marker)); [left|right]; naive_solver.
Qed.

Lemma ghost_simulates i X (e : dpopE X) (w : ghost) k x k' :
  w.1 = k → dpop_step i X e k x k' → ∃ w' : ghost, w'.1 = k' ∧ ghost_step i X e w x w'.
Proof.
  intros <- Hs. assert ((spends X e x ∧ carrier i) ∨ ¬ (spends X e x ∧ carrier i)) as [[??]|Hn].
  { destruct (spends_dec X e x), (decide (carrier i)); naive_solver. }
  - exists (k', i :: w.2). split; [done|]. split; [done|by left].
  - exists (k', w.2). split; [done|]. split; [done|by right].
Qed.

Lemma attempts_once k c' i j ri rj :
  pool_steps dpop_step (run_attempt <$> attempts, k) c' →
  carrier i → carrier j → c'.1 !! i = Some (Ret (Ok (Some ri))) → c'.1 !! j = Some (Ret (Ok (Some rj))) →
  vk_time_ms c'.2 < closes → i = j ∧ names_token i.
Proof.
  intros Hs Hi Hj Ri Rj Ht.
  destruct (pool_simulation (fun (w : ghost) k => w.1 = k) ghost_step _ _ (k, []) _ _
    ghost_simulates eq_refl Hs) as (w' & Hw & Hg).
  assert (pool_ok ghost_step (fun _ => evolves) (fun _ X (_ : dpopE X) w (_ : X) w' => evolves w w')
    admitted_spent (run_attempt <$> attempts, (k, []))) as Hok.
  { intros n p Hn. simpl in Hn. apply list_lookup_fmap_Some in Hn as (a & -> & Ha). by apply attempt_wp. }
  destruct (pool_steps_ok _ _ _ (fun _ => evolves_preorder) (fun _ _ _ _ _ _ _ _ H => H) _ _ Hok Hg)
    as [Hok' Hr].
  assert (once w') as Honce.
  { clear -Hr. simpl in Hr. remember (k, []) as w0 eqn:E. assert (once w0) as H by (subst; by right; left).
    clear E. induction Hr as [|w1 w2 w3 (?&?&?&?&?&?&Hw) _ IH]; [done|]. apply IH, Hw, H. }
  destruct (Hok' i _ Ri w' (reflexivity _) Hi (ex_intro _ _ eq_refl)) as [Ii Hn].
  destruct (Hok' j _ Rj w' (reflexivity _) Hj (ex_intro _ _ eq_refl)) as [Ij _].
  split; [|done]. destruct Honce as [?|[Hl|(n & Hl & _)]]; [rewrite Hw in *; lia|rewrite Hl in *; set_solver..].
Qed.
End once.
End store.

(** ** Markers with a deadline *)
Section deadlines.
Context {K : Type} `{!Valkey K}.
Context (digest : string → string) (namespace : string).

(** What is presented once: a request object of a client, or its attestation proof. *)
Inductive presentation :=
| JarObject (client_id jti : string) (expires_at : Z)
| CibaObject (client_id jti : string) (expires_at : Z)
| AttestationProof (client_id jti : string) (window : ClientAttestationProofWindow).

Definition consume (tr : transport) (p : presentation) : K → result bool ErrorKind * K :=
  match p with
  | JarObject client_id jti expires_at => consume_jar namespace digest tr client_id jti expires_at
  | CibaObject client_id jti expires_at =>
      consume_ciba_request_object namespace digest tr client_id jti expires_at
  | AttestationProof client_id jti window =>
      consume_client_attestation_proof namespace digest tr client_id jti window
  end.

Definition presentation_key (p : presentation) : string :=
  state_key namespace
    match p with
    | JarObject client_id jti _ => jar_replay digest client_id jti
    | CibaObject client_id jti _ => ciba_request_object_replay digest client_id jti
    | AttestationProof client_id jti _ => client_attestation_replay digest client_id jti
    end.

Definition deadline (p : presentation) : Z :=
  match p with
  | JarObject _ _ expires_at | CibaObject _ _ expires_at => expires_at
  | AttestationProof _ _ window => window.(aw_expires_at)
  end.

(** A history of the server: presentations and their replies, the other clients
    acting in between without touching live markers. *)
Inductive history : list (presentation * result bool ErrorKind) → K → K → Prop :=
| history_nil k : history [] k k
| history_cons p tr r log k k1 k2 k3 :
    (∀ q, keeps (presentation_key q) k k1) → consume tr p k1 = (r, k2) → history log k2 k3 →
    history ((p, r) :: log) k k3.

(** The presentation is no longer accepted. *)
Definition used_up (p : presentation) (k : K) : Prop :=
  deadline p * 1000 ≤ vk_time_ms k ∨
  (is_Some (vk_get k (presentation_key p)) ∧
   deadline p * 1000 ≤ vk_pexpiretime k (presentation_key p)).

Context `{!ValkeyLaws K}.

Lemma set_exat_keeps key a v at_ k : keeps key k (set_exat_nx a v at_ k).2.
Proof.
  unfold set_exat_nx, vk_exists. destruct (vk_set_exat a v at_ k) as [k'|] eqn:Hk; [|apply keeps_refl].
  destruct (vk_get k a) eqn:Ha; simpl; [apply keeps_refl|].
  split; [by rewrite (vk_time_set_exat _ _ _ _ _ Hk)|]. intros [x Hx] _.
  destruct (decide (a = key)) as [|Hne]; [congruence|].
  rewrite (vk_get_set_exat_other _ _ _ _ _ _ Hne Hk), (vk_expiry_set_exat_other _ _ _ _ _ _ Hne Hk). split; [by eexists|done].
Qed.
Lemma set_exat_wrote key v at_ k k' : vk_time_ms k < at_ * 1000 → set_exat_nx key v at_ k = (Ok true, k') →
  vk_get k key = None ∧ is_Some (vk_get k' key) ∧ vk_pexpiretime k' key = at_ * 1000.
Proof.
  unfold set_exat_nx, vk_exists. intros Ht. destruct (vk_set_exat key v at_ k) as [k1|] eqn:Hk; [|done].
  destruct (vk_get k key) eqn:Hg; simpl; [done|]. intros [= <-].
  rewrite (vk_get_set_exat _ _ _ _ _ Ht Hk), (vk_expiry_set_exat _ _ _ _ _ Ht Hk). eauto.
Qed.

Lemma eval_replay_keeps key tr (s : script K string) k :
  keeps key k (s k).2 → keeps key k (eval_parse parse_replay tr s k).2.
Proof.
  intros H. unfold eval_parse, eval. destruct tr as [[? []]|]; simpl; [done|apply keeps_refl|].
  by destruct (s k).
Qed.

Lemma consume_keeps key tr p k : keeps key k (consume tr p k).2.
Proof.
  destruct p; simpl; apply eval_replay_keeps;
    unfold REQUEST_OBJECT_REPLAY_SCRIPT, CLIENT_ATTESTATION_PROOF_SCRIPT;
    (case_match; [apply keeps_refl|]);
    match goal with |- context [set_exat_nx ?a ?v ?t k] => pose proof (set_exat_keeps key a v t k) end;
    by destruct (set_exat_nx _ _ _ _) as [[[]|] ?].
Qed.

Lemma eval_replay_accepted tr (s : script K string) k k' :
  eval_parse parse_replay tr s k = (Ok true, k') → s k = (Ok "accepted", k').
Proof.
  unfold eval_parse, eval. destruct tr as [[? ?]|]; [done|].
  destruct (s k) as [[r|] k1]; simpl; [|done]. unfold parse_replay. repeat case_decide; naive_solver.
Qed.

(** An acceptance: before the deadline, with no marker, and the marker it leaves. *)
Lemma consume_accepted tr p k k' : Z.abs (deadline p) ≤ 2 ^ 53 → consume tr p k = (Ok true, k') →
  vk_time_ms k < deadline p * 1000 ∧ vk_get k (presentation_key p) = None ∧
  is_Some (vk_get k' (presentation_key p)) ∧
  vk_pexpiretime k' (presentation_key p) = deadline p * 1000.
Proof.
  intros He. destruct p; simpl in *; intros Hs%eval_replay_accepted; revert Hs;
    unfold REQUEST_OBJECT_REPLAY_SCRIPT, CLIENT_ATTESTATION_PROOF_SCRIPT;
    rewrite (tonumber_exact _ He); case_match eqn:Hb; try done; boolify;
    assert (vk_time_ms k < _ * 1000) by (by apply before_deadline);
    intros Hs; (split; [done|]); eapply set_exat_wrote; try done;
    by repeat case_match; simplify_eq.
Qed.

Lemma used_up_keeps p k k' : keeps (presentation_key p) k k' → used_up p k → used_up p k'.
Proof.
  intros [Ht H] [|[Hs Hd]]; [left; lia|].
  destruct (Z.le_gt_cases (deadline p * 1000) (vk_time_ms k')); [by left|].
  destruct H as [? ?]; [done|lia|]. right. split; [done|lia].
Qed.

Lemma used_up_refused p log k k' i : Z.abs (deadline p) ≤ 2 ^ 53 →
  history log k k' → used_up p k → log !! i = Some (p, Ok true) → False.
Proof.
  intros He Hh. revert i. induction Hh as [|q tr r log k k1 k2 k3 Ho Hc _ IH]; intros i Hu Hi; [done|].
  apply (used_up_keeps _ _ k1) in Hu; [|done]. destruct i as [|i]; simpl in Hi.
  - simplify_eq. apply consume_accepted in Hc as (? & Hn & _); [|done].
    destruct Hu as [|[[? ?] _]]; [lia|congruence].
  - apply (IH i); [|done]. eapply used_up_keeps; [|done].
    pose proof (consume_keeps (presentation_key p) tr q k1) as Hk. by rewrite Hc in Hk.
Qed.

Lemma accepted_before p log k k' i j : Z.abs (deadline p) ≤ 2 ^ 53 → history log k k' →
  log !! i = Some (p, Ok true) → log !! j = Some (p, Ok true) → (i < j)%nat → False.
Proof.
  intros He Hh. revert i j. induction Hh as [|q tr r log k k1 k2 k3 Ho Hc Hh IH]; intros i j Hi Hj Hlt; [done|].
  destruct j as [|j]; [lia|]. destruct i as [|i]; simpl in *; [|apply (IH i j); [done..|lia]].
  simplify_eq. apply consume_accepted in Hc as (_ & _ & Hs & Hd); [|done].
  eapply (used_up_refused p log); [done..| |done]. right. split; [done|lia].
Qed.
End deadlines.

(** ** Properties *)

(** C17: what the verification of a DPoP proof accepts, exactly.  At any instant
    of [chrono], the outcome is a verified proof if and only if the request has a
    non-blank proof of three parts whose header and claims decode, without
    critical extensions and of type [dpop+jwt], signed by the public Ed25519 or
    P-256 key it carries (a key for verification only, with no private member),
    whose thumbprint is the expected one if there is one, for this method, one of
    the targets and the access token if there is one, issued no more than 300
    seconds ago and no more than 30 seconds ahead, with a [jti] of 1 to 128 bytes
    that is not blank; and the verified proof has that thumbprint, [jti], nonce
    and key identifier.  The outcome is no proof if and only if there is none and
    none was expected. *)
Theorem dpop_verification_exact `{C : Crates} r now (Hnow : utc_seconds now) :
  (∀ v, verify_dpop_proof_at r now = Ok (Some v) ↔ accepted r now v) ∧
  (verify_dpop_proof_at r now = Ok None ↔ presented r = None ∧ r.(dr_expected_jkt) = None).
Proof.
  split; [|apply no_proof_verified].
  intros v. split; [by apply verified_accepted|by apply accepted_verified].
Qed.

(** C10: a DPoP proof is admitted at most once without an access token and at
    most once with one, and with one only if the proof's [ath] is that token's
    hash.  Any number of admissions run in any interleaving over the Valkey store,
    commands fail or lose their replies, and time and the server's other clients
    do anything that keeps the replay markers until their deadlines; the nodes'
    clocks are ahead of the server's by at most [ahead] milliseconds.  Until the
    proof's window has closed, which is 301 seconds after its [iat] on the server's
    clock less [ahead], two admitted requests that carry the proof are one request,
    or exactly one of them has an access token, which the proof names: the two are
    spent in different replay scopes.  A proof without [ath] is admitted at most
    once. *)
Theorem dpop_proof_admitted_once `{C : Crates} {K} `{!Valkey K, !ValkeyLaws K}
    namespace issuer mtls_endpoint_base_url ahead attempts (k : K) c'
    raw header claims message signature i j a b ri rj :
  pool_steps (dpop_step namespace ahead)
    (run_attempt issuer mtls_endpoint_base_url <$> attempts, k) c' →
  decode_proof raw = Ok (header, claims, message, signature) →
  attempts !! i = Some a → a.(at_request).(rf_proof) = Ok (Some raw) →
  attempts !! j = Some b → b.(at_request).(rf_proof) = Ok (Some raw) →
  c'.1 !! i = Some (Ret (Ok (Some ri))) → c'.1 !! j = Some (Ret (Ok (Some rj))) →
  vk_time_ms c'.2 + ahead < (claims.(dc_iat) + 301) * 1000 →
  i = j ∨
  ∃ access_token,
    claims.(dc_ath) = Some (base64url_encode (sha256 access_token)) ∧
    (a.(at_token) = Some access_token ∧ b.(at_token) = None ∨
     a.(at_token) = None ∧ b.(at_token) = Some access_token).
Proof.
  intros Hs Hd Ha Ca Hb Cb Hi Hj Ht.
  pose proof (attempts_once namespace issuer mtls_endpoint_base_url ahead raw header claims message signature
    Hd) as Hone. unfold closes in Hone.
  destruct (a.(at_token)) as [ta|] eqn:Ea, (b.(at_token)) as [tb|] eqn:Eb.
  - left. eapply (Hone true attempts); eauto; [exists a|exists b|lia]; by split; [|split; [|by rewrite ?Ea, ?Eb]].
  - right. exists ta. split; [|by left]. eapply (Hone true attempts k c' i i ri ri); eauto; [..|lia];
      exists a; split; [done|split; [done|by rewrite Ea]|done|split; [done|by rewrite Ea]].
  - right. exists tb. split; [|by right]. eapply (Hone true attempts k c' j j rj rj); eauto; [..|lia];
      exists b; split; [done|split; [done|by rewrite Eb]|done|split; [done|by rewrite Eb]].
  - left. eapply (Hone false attempts); eauto; [exists a|exists b|lia]; by split; [|split; [|by rewrite ?Ea, ?Eb]].
Qed.

(** C19: a request object or a client attestation proof is accepted once and for
    all.  In any history of presentations, with failed commands and lost replies,
    the other clients keeping live markers, two acceptances of the same
    presentation (client, [jti] and deadline) are one: the marker lives to the
    deadline, and from the deadline on the script refuses by the server's clock.
    The deadline is one that Lua's numbers hold exactly. *)
Theorem presentation_accepted_once {K} `{!Valkey K, !ValkeyLaws K} digest namespace log (k k' : K) p i j :
  history digest namespace log k k' → Z.abs (deadline p) ≤ 2 ^ 53 →
  log !! i = Some (p, Ok true) → log !! j = Some (p, Ok true) → i = j.
Proof.
  intros Hh He Hi Hj. destruct (Nat.lt_total i j) as [H|[->|H]]; [|done|]; exfalso;
    [apply (accepted_before digest namespace p log k k' i j)|apply (accepted_before digest namespace p log k k' j i)];
    done.
Qed.

(** ** An example *)

Definition example_url (text : string) : Url := {|
  url_scheme := "https"; url_host := Some (Domain text); url_host_str := Some text;
  url_username := ""; url_password := None; url_port := None; url_path := text; url_query := None;
  url_fragment := None;
|}.

Definition example_jwk : Value := JObject
  [("crv", JString "Ed25519"); ("kty", JString "OKP");
   ("x", JString "abcdefghijklmnopqrstuvwxyz012345")].

Definition example_json (text : string) : option Value :=
  if decide (text = "header") then
    Some (JObject [("alg", JString "EdDSA"); ("typ", JString "dpop+jwt"); ("jwk", example_jwk)])
  else if decide (text = "claims") then
    Some (JObject [("htm", JString "POST"); ("htu", JString "https://as.example/token");
                   ("iat", JNumber (PosInt 1000)); ("jti", JString "proof-1")])
  else None.

#[local] Instance example_crates : Crates := {|
  url_parse s := if starts_with s "https://" then Some (example_url s) else None;
  url_set_query _ u := u;
  url_set_fragment _ u := u;
  url_to_string := url_path;
  authority_parse := Some;
  base64url_encode s := s;
  base64url_decode := Some;
  json_parse := example_json;
  json_print _ := "jwk";
  sha256 s := s;
  blake3_text s := s;
  verify_sig _ _ _ s := bool_decide (s = "signature");
|}.

Definition example_request : DpopProofRequest := {|
  dr_proof := Some "header.claims.signature"; dr_method := "POST";
  dr_target_uris := ["https://as.example/token"]; dr_access_token := None; dr_expected_jkt := None;
|}.

Definition example_verified : VerifiedDpopProof := {|
  vp_jkt := "jwk"; vp_jti := "proof-1"; vp_nonce := None; vp_key_id := None |}.

Lemma example_seconds now : 0 ≤ now ≤ 1000000000 → utc_seconds now.
Proof.
  intros H. exists (now * NANOS). unfold timestamp, valid_time, MIN_UTC, MAX_UTC, NANOS.
  rewrite Z.div_mul by done. split; [lia|done].
Qed.

Lemma dpop_verification_exact_witness : accepted example_request 1000 example_verified.
Proof.
  apply (proj1 (dpop_verification_exact example_request 1000 (example_seconds 1000 ltac:(lia)))).
  vm_compute. reflexivity.
Defined.

(** Two requests with one proof, on a server whose clock is the nodes'. *)
Definition example_attempt : attempt := {|
  at_policy := Optional;
  at_request := {| rf_method := "POST"; rf_path := "/token"; rf_authority := Some "as.example";
                   rf_proof := Ok (Some "header.claims.signature"); rf_proof_present := true |};
  at_token := None; at_expected := None;
|}.

Definition example_handle (X : Type) (e : dpopE X) (k : mem_server) : option (X * mem_server) :=
  match e in dpopE X return option (X * mem_server) with
  | ConsumeReplay jkt jti ttl => Some (port_consume_replay "ns:" blake3_text None jkt jti ttl k)
  | IssueNonce nonce ttl => Some (port_issue_nonce "ns:" blake3_text None nonce ttl k)
  | ValidateNonce nonce => Some (port_validate_nonce "ns:" blake3_text None nonce k)
  | UtcNow =>
      let now := vk_time k in
      if in_range 0 1000000000 now then Some (now, k) else None
  | RandomBytes => Some ("random", k)
  | RecordRequired _ _ => Some (Ok tt, k)
  end.

Definition example_pool : option (list (prog dpopE (result (option string) DpopError)) * mem_server) :=
  pool_run example_handle [0; 1; 0; 1; 1]%nat
    (run_attempt "https://as.example" "https://mtls.example" <$> [example_attempt; example_attempt],
     {| ms_clock := 1000000; ms_keys := ∅; ms_sets := ∅ |}).

Lemma example_handle_step i X (e : dpopE X) (k : mem_server) x k' :
  example_handle X e k = Some (x, k') → dpop_step "ns:" 0 i X e k x k'.
Proof.
  intros H. exists k. split; [intros ? ?; apply keeps_refl|].
  destruct e; simpl in *; try (by exists None; simplify_eq); try by simplify_eq.
  case_match eqn:Hr; simplify_eq. unfold in_range in Hr. boolify. unfold vk_time in *.
  split; [by apply example_seconds|]. split; [|done].
  pose proof (Z.div_mod (vk_time_ms k') 1000 ltac:(done)).
  pose proof (Z.mod_pos_bound (vk_time_ms k') 1000 ltac:(done)). simpl in *. lia.
Qed.

Lemma example_pool_steps : ∃ k', example_pool = Some
    ([Ret (Ok (Some "jwk"));
      Ret (Err (ReplayDetected {| ra_jti_hash := "proof-1"; ra_key_id := None |}))], k') ∧
  vk_time_ms k' = 1000000.
Proof. eexists. split; vm_compute; reflexivity. Qed.

Lemma dpop_proof_admitted_once_witness :
  ∃ c', example_pool = Some c' ∧ c'.1 !! 0%nat = Some (Ret (Ok (Some "jwk"))) ∧
    ∀ j r, c'.1 !! j = Some (Ret (Ok (Some r))) →
      [example_attempt; example_attempt] !! j = Some example_attempt → 0%nat = j.
Proof.
  destruct example_pool_steps as (k' & Hp & Ht). eexists. split; [exact Hp|]. split; [done|].
  intros j r Hj Ha.
  destruct (decode_proof "header.claims.signature") as [[[[header claims] message] signature]|] eqn:Hd;
    [|discriminate Hd].
  assert (0%nat = j ∨ ∃ access_token,
    claims.(dc_ath) = Some (base64url_encode (sha256 access_token)) ∧
    (None = Some access_token ∧ None = (None : option string) ∨
     None = (None : option string) ∧ None = Some access_token)) as [E|(? & _ & [[E _]|[_ E]])];
    [|exact E|discriminate E|discriminate E].
  eapply (dpop_proof_admitted_once "ns:" "https://as.example" "https://mtls.example" 0
    [example_attempt; example_attempt] _ _ "header.claims.signature" header claims message signature
    0 j example_attempt example_attempt "jwk" r).
  - eapply pool_run_steps; [exact example_handle_step|exact Hp].
  - exact Hd.
  - done.
  - done.
  - exact Ha.
  - done.
  - done.
  - exact Hj.
  - cbn [snd]. rewrite Ht. vm_compute in Hd. injection Hd as <- <- <- <-. done.
Defined.

(** A request object presented twice: the second time it is refused. *)
Definition example_server : mem_server := {| ms_clock := 1000000; ms_keys := ∅; ms_sets := ∅ |}.

Definition example_object : presentation := JarObject "client" "object-1" 1300.

Definition example_after (k : mem_server) : result bool ErrorKind * mem_server :=
  consume (fun s => s) "ns:" None example_object k.

Lemma presentation_accepted_once_witness :
  ∃ k', history (fun s => s) "ns:" [(example_object, Ok true); (example_object, Ok false)]
          example_server k' ∧
    ∀ j, [(example_object, Ok true); (example_object, Ok false)] !! j =
           Some (example_object, Ok (E := ErrorKind) true) → 0%nat = j.
Proof.
  assert (history (fun s => s) "ns:" [(example_object, Ok true); (example_object, Ok false)]
    example_server (example_after (example_after example_server).2).2) as Hh.
  { eapply (history_cons _ _ _ None _ _ _ _ (example_after example_server).2);
      [intros; apply keeps_refl|vm_compute; reflexivity|].
    eapply (history_cons _ _ _ None); [intros; apply keeps_refl|vm_compute; reflexivity|constructor]. }
  eexists. split; [exact Hh|]. intros j Hj.
  by apply (presentation_accepted_once _ _ _ _ _ example_object 0 j Hh).
Defined.
