(* ===== verification/CibaGrant.v ===== *)
(** * Client-initiated backchannel authentication

    Models [crates/authorization-server-core/src/ciba.rs] and [ciba_ping.rs]: the
    state of a request, the decision and poll evaluations, the shape checks, and
    the service operations as programs over the state-store port, the clock and
    the identifier generator.  Times are Unix seconds ([i64]).  The retry loops
    are bounded by the code ([CIBA_TRANSITION_MAX_ATTEMPTS]). *)
From stdpp Require Import base list strings.
From S2P Require Import Prelude Chrono Effects Text UriPolicy.

Local Open Scope rust_scope.

(** ** Data *)

Definition CIBA_TRANSITION_MAX_ATTEMPTS : nat := 4.
Definition CIBA_EXPIRED_STATE_RETENTION_SECONDS : Z := 120.
Definition CIBA_SLOW_DOWN_INCREMENT_SECONDS : Z := 5.

Record CibaAuthenticationContext := {
  cc_auth_time : Z;
  cc_amr : list string;
  cc_oidc_sid : option string;
}.

Inductive CibaPingNotificationStatus := PingAwaitingDecision | PingPending | PingDelivered | PingFailed.

Inductive CibaStatus := CibaPending | CibaApproved | CibaDenied.

Record CibaPingNotification := {
  pn_auth_req_id : option string;
  pn_endpoint : string;
  pn_client_notification_token : option string;
  pn_status : CibaPingNotificationStatus;
  pn_attempts : Z;
  pn_next_attempt_at : option Z;
}.

Record CibaRequestState := {
  cs_client_id : string;
  cs_user_id : Uuid;
  cs_scopes : list string;
  cs_audiences : list string;
  cs_acr : option string;
  cs_authentication_context : option CibaAuthenticationContext;
  cs_binding_message : option string;
  cs_issued_at : Z;
  cs_status : CibaStatus;
  cs_interval_seconds : Z;
  cs_expires_at : Z;
  cs_retention_expires_at : Z;
  cs_last_poll_at : option Z;
  cs_ping_notification : option CibaPingNotification;
}.

#[export] Instance CibaAuthenticationContext_eq_dec : EqDecision CibaAuthenticationContext.
Proof. solve_decision. Defined.
#[export] Instance CibaPingNotificationStatus_eq_dec : EqDecision CibaPingNotificationStatus.
Proof. solve_decision. Defined.
#[export] Instance CibaStatus_eq_dec : EqDecision CibaStatus.
Proof. solve_decision. Defined.
#[export] Instance CibaPingNotification_eq_dec : EqDecision CibaPingNotification.
Proof. solve_decision. Defined.
#[export] Instance CibaRequestState_eq_dec : EqDecision CibaRequestState.
Proof. solve_decision. Defined.

Inductive CibaAtomicResult := CibaApplied | CibaConflict | CibaDeadlineElapsed.

Inductive CibaStatePortError := CibaUnavailable | CibaCorruptData | CibaUnexpected.

Record CibaStoredRequest (V : Type) := {
  sr_state : CibaRequestState;
  sr_version : V;
}.
Arguments sr_state {V} _.
Arguments sr_version {V} _.
Arguments Build_CibaStoredRequest {V} _ _.

Record PreparedCibaDecision (V : Type) := {
  pc_auth_req_id : string;
  pc_stored : CibaStoredRequest V;
}.
Arguments pc_auth_req_id {V} _.
Arguments pc_stored {V} _.
Arguments Build_PreparedCibaDecision {V} _ _.

Inductive CibaDecision :=
| CibaApprove (context : CibaAuthenticationContext)
| CibaDeny.

Inductive CibaDecisionEvaluation :=
| DecisionCommit (next : CibaRequestState)
| DecisionInvalidAuthenticationContext
| DecisionUserMismatch
| DecisionAlreadyHandled
| DecisionExpired.

Inductive CibaPollTransition :=
| PollAuthorizationPending (next : CibaRequestState)
| PollSlowDown (next : CibaRequestState)
| PollApproved
| PollDenied
| PollExpired.

Record CibaCommittedDecision := {
  cd_state : CibaRequestState;
  cd_decision : CibaDecision;
}.

Inductive CibaPollCommit :=
| CommittedAuthorizationPending
| CommittedSlowDown
| CommittedApproved (state : CibaRequestState)
| CommittedDenied
| CommittedExpired.

Inductive CibaCreateFailure :=
| CreateDeadlineElapsed
| CreateStorage (error : CibaStatePortError)
| CreateCollisionLimit.

Inductive CibaDecisionFailure :=
| FailedMissing
| FailedInvalidAuthenticationContext
| FailedUserMismatch
| FailedAlreadyHandled
| FailedExpired
| FailedStorage (error : CibaStatePortError)
| FailedContended.

Inductive CibaPollFailure :=
| PollFailedMissing
| PollFailedClientMismatch
| PollFailedStorage (error : CibaStatePortError)
| PollFailedContended.

(** ** Evaluations *)

Definition ciba_retention_deadline (expires_at : Z) : Z :=
  i64_saturating_add expires_at CIBA_EXPIRED_STATE_RETENTION_SECONDS.

(** [next.last_poll_at = Some(now)] and a new interval. *)
Definition polled (state : CibaRequestState) (now interval : Z) : CibaRequestState :=
  {| cs_client_id := state.(cs_client_id); cs_user_id := state.(cs_user_id);
     cs_scopes := state.(cs_scopes); cs_audiences := state.(cs_audiences); cs_acr := state.(cs_acr);
     cs_authentication_context := state.(cs_authentication_context);
     cs_binding_message := state.(cs_binding_message); cs_issued_at := state.(cs_issued_at);
     cs_status := state.(cs_status); cs_interval_seconds := interval;
     cs_expires_at := state.(cs_expires_at);
     cs_retention_expires_at := state.(cs_retention_expires_at); cs_last_poll_at := Some now;
     cs_ping_notification := state.(cs_ping_notification) |}.

Definition evaluate_ciba_poll (state : CibaRequestState) (now : Z) : CibaPollTransition :=
  if state.(cs_expires_at) <=? now then PollExpired
  else
    match state.(cs_status) with
    | CibaApproved => PollApproved
    | CibaDenied => PollDenied
    | CibaPending =>
        let too_early := is_some_and state.(cs_last_poll_at) (fun last_poll_at =>
          let interval := unwrap_or (i64_try_from_u64 state.(cs_interval_seconds)) I64_MAX in
          i64_saturating_sub now last_poll_at <? interval) in
        if too_early then
          PollSlowDown (polled state now
            (u64_saturating_add state.(cs_interval_seconds) CIBA_SLOW_DOWN_INCREMENT_SECONDS))
        else PollAuthorizationPending (polled state now state.(cs_interval_seconds))
    end.

Definition valid_authentication_context (context : CibaAuthenticationContext) : bool :=
  (0 <? context.(cc_auth_time))
  && negb (bool_decide (context.(cc_amr) = []))
  && forallb (fun method => negb (is_empty (trim method))) context.(cc_amr)
  && is_none_or context.(cc_oidc_sid) (fun sid => negb (is_empty (trim sid))).

(** The notification becomes due. *)
Definition notify (now : Z) (n : CibaPingNotification) : CibaPingNotification :=
  {| pn_auth_req_id := n.(pn_auth_req_id); pn_endpoint := n.(pn_endpoint);
     pn_client_notification_token := n.(pn_client_notification_token); pn_status := PingPending;
     pn_attempts := n.(pn_attempts); pn_next_attempt_at := Some now |}.

Definition decided (state : CibaRequestState) (status : CibaStatus)
    (context : option CibaAuthenticationContext) (now : Z) : CibaRequestState :=
  {| cs_client_id := state.(cs_client_id); cs_user_id := state.(cs_user_id);
     cs_scopes := state.(cs_scopes); cs_audiences := state.(cs_audiences); cs_acr := state.(cs_acr);
     cs_authentication_context := context;
     cs_binding_message := state.(cs_binding_message); cs_issued_at := state.(cs_issued_at);
     cs_status := status; cs_interval_seconds := state.(cs_interval_seconds);
     cs_expires_at := state.(cs_expires_at);
     cs_retention_expires_at := state.(cs_retention_expires_at);
     cs_last_poll_at := state.(cs_last_poll_at);
     cs_ping_notification := notify now <$> state.(cs_ping_notification) |}.

Definition evaluate_ciba_decision (state : CibaRequestState) (expected_user_id : option Uuid)
    (decision : CibaDecision) (now : Z) : CibaDecisionEvaluation :=
  if is_some_and expected_user_id (fun user_id => negb (user_id =? state.(cs_user_id)))
  then DecisionUserMismatch
  else if negb (bool_decide (state.(cs_status) = CibaPending)) then DecisionAlreadyHandled
  else if state.(cs_expires_at) <=? now then DecisionExpired
  else
    match decision with
    | CibaApprove context =>
        if negb (valid_authentication_context context) then DecisionInvalidAuthenticationContext
        else DecisionCommit (decided state CibaApproved (Some context) now)
    | CibaDeny => DecisionCommit (decided state CibaDenied None now)
    end.

Definition ping_target (state : CibaRequestState) : option (option string * string) :=
  (fun ping => (ping.(pn_auth_req_id), ping.(pn_endpoint))) <$> state.(cs_ping_notification).

Definition same_ciba_authorization (expected current : CibaRequestState) : bool :=
  bool_decide (expected.(cs_client_id) = current.(cs_client_id))
  && bool_decide (expected.(cs_user_id) = current.(cs_user_id))
  && bool_decide (expected.(cs_scopes) = current.(cs_scopes))
  && bool_decide (expected.(cs_audiences) = current.(cs_audiences))
  && bool_decide (expected.(cs_acr) = current.(cs_acr))
  && bool_decide (expected.(cs_binding_message) = current.(cs_binding_message))
  && bool_decide (expected.(cs_issued_at) = current.(cs_issued_at))
  && bool_decide (expected.(cs_expires_at) = current.(cs_expires_at))
  && bool_decide (expected.(cs_retention_expires_at) = current.(cs_retention_expires_at))
  && bool_decide (ping_target expected = ping_target current).

(** ** Shapes *)

Definition notification_malformed (n : CibaPingNotification) (require_persisted_auth_req_id : bool) : bool :=
  is_empty n.(pn_endpoint)
  || (require_persisted_auth_req_id && is_none_or n.(pn_auth_req_id) is_empty)
  || is_some_and n.(pn_client_notification_token) is_empty
  || ((bool_decide (n.(pn_status) = PingAwaitingDecision) || bool_decide (n.(pn_status) = PingPending))
      && is_none n.(pn_client_notification_token))
  || (bool_decide (n.(pn_status) = PingAwaitingDecision) && is_some n.(pn_next_attempt_at))
  || (bool_decide (n.(pn_status) = PingPending) && is_none n.(pn_next_attempt_at))
  || ((bool_decide (n.(pn_status) = PingDelivered) || bool_decide (n.(pn_status) = PingFailed))
      && (is_some n.(pn_client_notification_token) || is_some n.(pn_next_attempt_at))).

Definition validate_state_shape (state : CibaRequestState) (require_persisted_auth_req_id : bool)
    : result unit CibaStatePortError :=
  if (state.(cs_expires_at) <=? 0) || (state.(cs_retention_expires_at) <? state.(cs_expires_at))
  then Err CibaCorruptData
  else
    let authentication_context_is_current :=
      match state.(cs_status), state.(cs_authentication_context) with
      | CibaApproved, Some context => valid_authentication_context context
      | CibaPending, None | CibaDenied, None => true
      | CibaApproved, None | CibaPending, Some _ | CibaDenied, Some _ => false
      end in
    if negb authentication_context_is_current then Err CibaCorruptData
    else if is_some_and state.(cs_ping_notification) (fun n =>
              notification_malformed n require_persisted_auth_req_id)
    then Err CibaCorruptData
    else Ok tt.

Definition validate_stored_state (state : CibaRequestState) : result unit CibaStatePortError :=
  validate_state_shape state true.

Definition validate_new_state (state : CibaRequestState) : result unit CibaStatePortError :=
  let? _ := validate_state_shape state false in
  if is_some_and state.(cs_ping_notification) (fun n =>
       negb (bool_decide (n.(pn_status) = PingAwaitingDecision)) || is_some n.(pn_auth_req_id))
  then Err CibaCorruptData
  else Ok tt.

Definition validate_stored_request {V} (stored : CibaStoredRequest V)
    : result (CibaStoredRequest V) CibaStatePortError :=
  let? _ := validate_stored_state stored.(sr_state) in Ok stored.

(** ** Ports

    [CibaStateStorePort], the service's clock and identifier generator.  The
    operations without a deadline are the ones with [None]. *)
Inductive cibaE (V : Type) : Type → Type :=
| CibaLoad (auth_req_id : string)
    : cibaE V (result (option (CibaStoredRequest V)) CibaStatePortError)
| CibaCreate (auth_req_id : string) (state : CibaRequestState) (authorization_deadline : option Z)
    : cibaE V (result CibaAtomicResult CibaStatePortError)
| CibaReplace (auth_req_id : string) (version : V) (state : CibaRequestState)
    (authorization_deadline : option Z) : cibaE V (result CibaAtomicResult CibaStatePortError)
| CibaDelete (auth_req_id : string) (version : V) (authorization_deadline : option Z)
    : cibaE V (result CibaAtomicResult CibaStatePortError)
| CibaNow : cibaE V Z
| CibaGenerateId : cibaE V string.
Arguments CibaLoad {V}.
Arguments CibaCreate {V}.
Arguments CibaReplace {V}.
Arguments CibaDelete {V}.
Arguments CibaNow {V}.
Arguments CibaGenerateId {V}.

(** What the adapter stores for a new request. *)
Definition persisted (auth_req_id : string) (s : CibaRequestState) : CibaRequestState :=
  {| cs_client_id := s.(cs_client_id); cs_user_id := s.(cs_user_id); cs_scopes := s.(cs_scopes);
     cs_audiences := s.(cs_audiences); cs_acr := s.(cs_acr);
     cs_authentication_context := s.(cs_authentication_context);
     cs_binding_message := s.(cs_binding_message); cs_issued_at := s.(cs_issued_at);
     cs_status := s.(cs_status); cs_interval_seconds := s.(cs_interval_seconds);
     cs_expires_at := s.(cs_expires_at); cs_retention_expires_at := s.(cs_retention_expires_at);
     cs_last_poll_at := s.(cs_last_poll_at);
     cs_ping_notification := (fun n =>
       {| pn_auth_req_id := Some auth_req_id; pn_endpoint := n.(pn_endpoint);
          pn_client_notification_token := n.(pn_client_notification_token);
          pn_status := n.(pn_status); pn_attempts := n.(pn_attempts);
          pn_next_attempt_at := n.(pn_next_attempt_at) |}) <$> s.(cs_ping_notification) |}.

(** ** The service *)
Section service.
Context {V : Type}.
Notation P := (prog (cibaE V)).

(** [call(..).await.map_err(f)] *)
Definition mapped {A E F} (e : cibaE V (result A E)) (f : E → F) : P (result A F) :=
  let* r := call e in Ret (map_err f r).

Definition load (auth_req_id : string) : P (result (option (CibaStoredRequest V)) CibaStatePortError) :=
  let*? stored := call (CibaLoad auth_req_id) in
  Ret (match stored with
       | None => Ok None
       | Some stored => map_ok Some (validate_stored_request stored)
       end).

Fixpoint create_loop (attempts : nat) (state : CibaRequestState) (authorization_deadline : option Z)
    : P (result string CibaCreateFailure) :=
  match attempts with
  | O => Ret (Err CreateCollisionLimit)
  | S attempts =>
      let* auth_req_id := call CibaGenerateId in
      let* created := call (CibaCreate auth_req_id state authorization_deadline) in
      match created with
      | Ok CibaApplied => Ret (Ok auth_req_id)
      | Ok CibaConflict => create_loop attempts state authorization_deadline
      | Ok CibaDeadlineElapsed => Ret (Err CreateDeadlineElapsed)
      | Err error => Ret (Err (CreateStorage error))
      end
  end.

Definition create_unique_with_authorization_deadline (state : CibaRequestState)
    (authorization_deadline : option Z) : P (result string CibaCreateFailure) :=
  match validate_new_state state with
  | Err error => Ret (Err (CreateStorage error))
  | Ok _ => create_loop CIBA_TRANSITION_MAX_ATTEMPTS state authorization_deadline
  end.

Definition create_unique (state : CibaRequestState) : P (result string CibaCreateFailure) :=
  create_unique_with_authorization_deadline state None.

Definition prepare_decision (auth_req_id : string)
    : P (result (option (PreparedCibaDecision V)) CibaStatePortError) :=
  let*? stored := load auth_req_id in
  Ret (Ok ((fun stored => {| pc_auth_req_id := auth_req_id; pc_stored := stored |}) <$> stored)).

(** A loaded request, or the failure of a missing one. *)
Definition required {A E} (r : result (option A) CibaStatePortError) (storage : CibaStatePortError → E)
    (missing : E) : result A E :=
  let? found := map_err storage r in ok_or found missing.

(** The snapshot of an attempt: the prepared one first, then a fresh one of the
    same authorization. *)
Definition current_snapshot (auth_req_id : string) (stored : CibaStoredRequest V) (first : bool)
    : P (result (CibaStoredRequest V) CibaDecisionFailure) :=
  if first then Ret (Ok stored)
  else
    let* loaded := load auth_req_id in
    Ret (let? refreshed := required loaded FailedStorage FailedMissing in
         if negb (same_ciba_authorization stored.(sr_state) refreshed.(sr_state))
         then Err (FailedStorage CibaCorruptData)
         else Ok refreshed).

Definition decision_deadline (authorization_deadline : option Z) (expires_at : Z) : option Z :=
  Some (match authorization_deadline with
        | Some deadline => Z.min deadline expires_at
        | None => expires_at
        end).

Fixpoint commit_loop (attempts : nat) (first : bool) (auth_req_id : string)
    (stored : CibaStoredRequest V) (decision : CibaDecision) (expected_user_id : option Uuid)
    (authorization_deadline : option Z) : P (result CibaCommittedDecision CibaDecisionFailure) :=
  match attempts with
  | O => Ret (Err FailedContended)
  | S attempts =>
      let retry := commit_loop attempts false auth_req_id stored decision expected_user_id
        authorization_deadline in
      let*? current := current_snapshot auth_req_id stored first in
      let* now := call CibaNow in
      match evaluate_ciba_decision current.(sr_state) expected_user_id decision now with
      | DecisionInvalidAuthenticationContext => Ret (Err FailedInvalidAuthenticationContext)
      | DecisionUserMismatch => Ret (Err FailedUserMismatch)
      | DecisionAlreadyHandled => Ret (Err FailedAlreadyHandled)
      | DecisionExpired =>
          let* deleted := call (CibaDelete auth_req_id current.(sr_version) authorization_deadline) in
          match deleted with
          | Ok CibaApplied | Ok CibaDeadlineElapsed => Ret (Err FailedExpired)
          | Ok CibaConflict => retry
          | Err error => Ret (Err (FailedStorage error))
          end
      | DecisionCommit next =>
          let* replaced := call (CibaReplace auth_req_id current.(sr_version) next
            (decision_deadline authorization_deadline current.(sr_state).(cs_expires_at))) in
          match replaced with
          | Ok CibaApplied => Ret (Ok {| cd_state := next; cd_decision := decision |})
          | Ok CibaConflict => retry
          | Ok CibaDeadlineElapsed => Ret (Err FailedExpired)
          | Err error => Ret (Err (FailedStorage error))
          end
      end
  end.

Definition commit_prepared_decision (prepared : PreparedCibaDecision V) (decision : CibaDecision)
    (expected_user_id : option Uuid) (authorization_deadline : option Z)
    : P (result CibaCommittedDecision CibaDecisionFailure) :=
  commit_loop CIBA_TRANSITION_MAX_ATTEMPTS true prepared.(pc_auth_req_id) prepared.(pc_stored) decision
    expected_user_id authorization_deadline.

Definition decide_prepared (prepared : PreparedCibaDecision V) (decision : CibaDecision)
    (expected_user_id : option Uuid) : P (result CibaCommittedDecision CibaDecisionFailure) :=
  commit_prepared_decision prepared decision expected_user_id None.

Definition decide_with_authorization_deadline (auth_req_id : string) (decision : CibaDecision)
    (expected_user_id : option Uuid) (authorization_deadline : option Z)
    : P (result CibaCommittedDecision CibaDecisionFailure) :=
  let* prepared := prepare_decision auth_req_id in
  match required prepared FailedStorage FailedMissing with
  | Err failure => Ret (Err failure)
  | Ok prepared => commit_prepared_decision prepared decision expected_user_id authorization_deadline
  end.

Definition decide_request (auth_req_id : string) (decision : CibaDecision) (expected_user_id : option Uuid)
    : P (result CibaCommittedDecision CibaDecisionFailure) :=
  decide_with_authorization_deadline auth_req_id decision expected_user_id None.

(** A transition of a poll: its commit when applied, a retry on a conflict. *)
Definition poll_write (e : cibaE V (result CibaAtomicResult CibaStatePortError)) (commit : CibaPollCommit)
    (retry : P (result CibaPollCommit CibaPollFailure)) : P (result CibaPollCommit CibaPollFailure) :=
  let*? atomic := mapped e PollFailedStorage in
  match atomic with
  | CibaApplied => Ret (Ok commit)
  | CibaConflict => retry
  | CibaDeadlineElapsed => Ret (Ok CommittedExpired)
  end.

Fixpoint poll_loop (attempts : nat) (first : bool) (auth_req_id expected_client_id : string)
    (stored : CibaStoredRequest V) (authorization_deadline : option Z)
    : P (result CibaPollCommit CibaPollFailure) :=
  match attempts with
  | O => Ret (Err PollFailedContended)
  | S attempts =>
      let*? stored :=
        if first then Ret (Ok stored)
        else let* loaded := load auth_req_id in
             Ret (required loaded PollFailedStorage PollFailedMissing) in
      if negb (bool_decide (stored.(sr_state).(cs_client_id) = expected_client_id))
      then Ret (Err PollFailedClientMismatch)
      else
        let retry := poll_loop attempts false auth_req_id expected_client_id stored
          authorization_deadline in
        let* now := call CibaNow in
        match evaluate_ciba_poll stored.(sr_state) now with
        | PollAuthorizationPending next =>
            poll_write (CibaReplace auth_req_id stored.(sr_version) next authorization_deadline)
              CommittedAuthorizationPending retry
        | PollSlowDown next =>
            poll_write (CibaReplace auth_req_id stored.(sr_version) next authorization_deadline)
              CommittedSlowDown retry
        | PollApproved =>
            match authorization_deadline with
            | None => Ret (Ok (CommittedApproved stored.(sr_state)))
            | Some _ =>
                poll_write (CibaReplace auth_req_id stored.(sr_version) stored.(sr_state)
                  authorization_deadline) (CommittedApproved stored.(sr_state)) retry
            end
        | PollDenied =>
            poll_write (CibaDelete auth_req_id stored.(sr_version) authorization_deadline)
              CommittedDenied retry
        | PollExpired =>
            poll_write (CibaDelete auth_req_id stored.(sr_version) authorization_deadline)
              CommittedExpired retry
        end
  end.

Definition poll_with_authorization_deadline (auth_req_id expected_client_id : string)
    (stored : CibaStoredRequest V) (authorization_deadline : option Z)
    : P (result CibaPollCommit CibaPollFailure) :=
  match map_err PollFailedStorage (validate_stored_request stored) with
  | Err failure => Ret (Err failure)
  | Ok stored =>
      poll_loop CIBA_TRANSITION_MAX_ATTEMPTS true auth_req_id expected_client_id stored
        authorization_deadline
  end.

Definition poll (auth_req_id expected_client_id : string) (stored : CibaStoredRequest V)
    : P (result CibaPollCommit CibaPollFailure) :=
  poll_with_authorization_deadline auth_req_id expected_client_id stored None.
End service.

(** ** Ping notifications, [ciba_ping.rs] *)

Inductive CibaPingResponseAction := ResponseDelivered | ResponseTerminalFailure | ResponseRetry.

Definition MAX_CIBA_LOGOUT_URI_BYTES : Z := 2048.

Definition validate_ciba_notification_endpoint (parse : string → option Url) (value : string)
    : option Url :=
  if MAX_CIBA_LOGOUT_URI_BYTES <? len value then None
  else
    match parse value with
    | None => None
    | Some parsed =>
        if negb (bool_decide (parsed.(url_scheme) = "https"%string))
           || is_none parsed.(url_host_str)
           || negb (is_empty parsed.(url_username))
           || is_some parsed.(url_password)
           || is_some parsed.(url_fragment)
        then None else Some parsed
    end.

Definition classify_ciba_ping_status (status : Z) : CibaPingResponseAction :=
  if in_range 200 299 status then ResponseDelivered
  else if in_range 300 499 status then ResponseTerminalFailure
  else ResponseRetry.

Definition next_ciba_ping_retry_at (attempts now expires_at : Z) : option Z :=
  let after delay :=
    let next := i64_saturating_add now delay in
    if next <? expires_at then Some next else None in
  if attempts =? 1 then after 1
  else if attempts =? 2 then after 3
  else if attempts =? 3 then after 9
  else None.

Inductive CibaPingFinishOutcome :=
| FinishDelivered
| FinishRetryAt (at_ : Z)
| FinishFailed.

Inductive CibaPingFinishResult := FinishApplied | FinishMissing | FinishConflict.

Record CibaPingDelivery := {
  pd_auth_req_id_hash : string;
  pd_auth_req_id : string;
  pd_endpoint : string;
  pd_client_notification_token : string;
  pd_attempts : Z;
  pd_expires_at : Z;
}.

(** ** The delivery worker, [workers/ciba_ping.rs]

    The sender, the clock and the queue; errors carry no data. *)
Inductive pingE : Type → Type :=
| PingSend (delivery : CibaPingDelivery) : pingE (result Z unit)
| PingNow : pingE Z
| PingFinish (delivery : CibaPingDelivery) (outcome : CibaPingFinishOutcome)
    : pingE (result CibaPingFinishResult unit).

Definition retry_outcome (delivery : CibaPingDelivery) (now : Z) : CibaPingFinishOutcome :=
  match next_ciba_ping_retry_at delivery.(pd_attempts) now delivery.(pd_expires_at) with
  | Some next => FinishRetryAt next
  | None => FinishFailed
  end.

Definition process_delivery (delivery : CibaPingDelivery) : prog pingE (result unit unit) :=
  let* sent := call (PingSend delivery) in
  let* outcome :=
    match map_ok classify_ciba_ping_status sent with
    | Ok ResponseDelivered => Ret FinishDelivered
    | Ok ResponseTerminalFailure => Ret FinishFailed
    | Ok ResponseRetry | Err _ =>
        let* now := call PingNow in Ret (retry_outcome delivery now)
    end in
  let*? _ := call (PingFinish delivery outcome) in
  Ret (Ok tt).
