(* ===== verification/CibaGrantFacts.v ===== *)
(** * Backchannel authentications are approved by their user, once

    Requests, polls and decisions interleave over one store that honours the
    port's compare-and-set contract.  Entries may expire, any call may fail with
    or without its effect, and the worker that delivers ping notifications
    rewrites the notification of decided requests in the background.  The version
    of an entry is what the store compares; it determines the state ([dec]), and
    writing a well-formed state stores a version that decodes to it. *)
From stdpp Require Import base sets list strings gmap relations.
From S2P Require Import Prelude Chrono Effects Text CibaGrant.

Local Open Scope rust_scope.

(** ** States *)

Definition valid_uuid (u : Uuid) : Prop := 0 ≤ u < 2 ^ 128.

(** The widths of the source's types. *)
Definition widths (s : CibaRequestState) : Prop :=
  valid_uuid s.(cs_user_id) ∧ in_i64 s.(cs_issued_at) ∧ in_u64 s.(cs_interval_seconds) ∧
  in_i64 s.(cs_expires_at) ∧ in_i64 s.(cs_retention_expires_at) ∧
  (∀ t, s.(cs_last_poll_at) = Some t → in_i64 t) ∧
  (∀ c, s.(cs_authentication_context) = Some c → in_i64 c.(cc_auth_time)) ∧
  (∀ n, s.(cs_ping_notification) = Some n →
     in_u32 n.(pn_attempts) ∧ ∀ t, n.(pn_next_attempt_at) = Some t → in_i64 t).

(** A stored request: it passes the shape check, and while it is pending its
    notification awaits the decision. *)
Definition ciba_wf (s : CibaRequestState) : Prop :=
  validate_stored_state s = Ok tt ∧ widths s ∧
  (s.(cs_status) = CibaPending → ∀ n, s.(cs_ping_notification) = Some n →
     n.(pn_status) = PingAwaitingDecision).

(** The delivery worker: a pending notification is attempted again later, or
    ends.  Its queue holds the requests whose notification a decision made due. *)
Definition ping_step (n n' : CibaPingNotification) : Prop :=
  n'.(pn_auth_req_id) = n.(pn_auth_req_id) ∧ n'.(pn_endpoint) = n.(pn_endpoint) ∧
  n.(pn_status) = PingPending ∧ in_u32 n'.(pn_attempts) ∧
  ((n'.(pn_status) = PingPending ∧
    n'.(pn_client_notification_token) = n.(pn_client_notification_token) ∧
    ∃ t, n'.(pn_next_attempt_at) = Some t ∧ in_i64 t) ∨
   ((n'.(pn_status) = PingDelivered ∨ n'.(pn_status) = PingFailed) ∧
    n'.(pn_client_notification_token) = None ∧ n'.(pn_next_attempt_at) = None)).

Definition with_ping (s : CibaRequestState) (n : CibaPingNotification) : CibaRequestState :=
  {| cs_client_id := s.(cs_client_id); cs_user_id := s.(cs_user_id); cs_scopes := s.(cs_scopes);
     cs_audiences := s.(cs_audiences); cs_acr := s.(cs_acr);
     cs_authentication_context := s.(cs_authentication_context);
     cs_binding_message := s.(cs_binding_message); cs_issued_at := s.(cs_issued_at);
     cs_status := s.(cs_status); cs_interval_seconds := s.(cs_interval_seconds);
     cs_expires_at := s.(cs_expires_at); cs_retention_expires_at := s.(cs_retention_expires_at);
     cs_last_poll_at := s.(cs_last_poll_at); cs_ping_notification := Some n |}.

Definition ping_moves (s s' : CibaRequestState) : Prop :=
  ∃ n n', s.(cs_ping_notification) = Some n ∧ ping_step n n' ∧ s' = with_ping s n'.

(** ** Tasks *)

Inductive task :=
| TCreate (state : CibaRequestState) (deadline : option Z)
| TDecide (auth_req_id : string) (decision : CibaDecision) (user : option Uuid) (deadline : option Z)
| TPoll (auth_req_id client : string) (deadline : option Z).

Inductive task_result :=
| RCreate (r : result string CibaCreateFailure)
| RDecide (r : result CibaCommittedDecision CibaDecisionFailure)
| RPoll (r : result CibaPollCommit CibaPollFailure)
| RNotFound.

(** A poll starts from the request its caller loaded. *)
Definition task_prog {V} (t : task) : prog (cibaE V) task_result :=
  match t with
  | TCreate state deadline =>
      let* r := create_unique_with_authorization_deadline state deadline in Ret (RCreate r)
  | TDecide id decision user deadline =>
      let* r := decide_with_authorization_deadline id decision user deadline in Ret (RDecide r)
  | TPoll id client deadline =>
      let* loaded := load id in
      match loaded with
      | Ok (Some stored) =>
          let* r := poll_with_authorization_deadline id client stored deadline in Ret (RPoll r)
      | _ => Ret RNotFound
      end
  end.

Definition task_wf (t : task) : Prop :=
  match t with
  | TCreate state _ => widths state ∧ state.(cs_status) = CibaPending
  | TDecide _ (CibaApprove c) _ _ => in_i64 c.(cc_auth_time)
  | _ => True
  end.

Section world.
Context {V : Type} (hash : string → string).
Context (enc : CibaRequestState → V) (dec : V → option CibaRequestState).
Context (ts : list task).
Notation W := (gmap string V).

(** What happens besides the services' calls: entries vanish, notifications move. *)
Definition drifts (w w' : W) : Prop :=
  ∀ key, match w' !! key with
         | None => True
         | Some v' => ∃ v, w !! key = Some v ∧
             (v' = v ∨ ∃ s s', dec v = Some s ∧ dec v' = Some s' ∧ ping_moves s s')
         end.

(** A call: its outcome, or an error with or without its effect. *)
Definition outcome {A E} (w : W) (op : A → W → Prop) (x : result A E) (w' : W) : Prop :=
  ∃ w1, drifts w1 w' ∧
    ((∃ a, x = Ok a ∧ op a w1) ∨ (∃ e, x = Err e ∧ (w1 = w ∨ ∃ a, op a w1))).

Definition ciba_step (X : Type) (e : cibaE V X) (w : W) : X → W → Prop :=
  match e in cibaE _ X return X → W → Prop with
  | CibaLoad id => outcome w (fun a w' => w' = w ∧
      match a with
      | None => w !! hash id = None
      | Some s => w !! hash id = Some s.(sr_version) ∧ dec s.(sr_version) = Some s.(sr_state)
      end)
  | CibaCreate id st _ => outcome w (fun a w' =>
      match a with
      | CibaApplied => w !! hash id = None ∧ w' = <[hash id := enc (persisted id st)]> w
      | _ => drifts w w'
      end)
  | CibaReplace id v next _ => outcome w (fun a w' =>
      match a with
      | CibaApplied => w !! hash id = Some v ∧ w' = <[hash id := enc next]> w
      | _ => drifts w w'
      end)
  | CibaDelete id v _ => outcome w (fun a w' =>
      match a with
      | CibaApplied => w !! hash id = Some v ∧ w' = delete (hash id) w
      | _ => drifts w w'
      end)
  | CibaNow => fun now w' => in_i64 now ∧ drifts w w'
  | CibaGenerateId => fun id w' => id ≠ ""%string ∧ drifts w w'
  end.

(** ** Who may change what *)

(** The approval of a request: a decision task for it, by its user where one is
    expected, with the authentication the request now records. *)
Definition approved_by (key : string) (s : CibaRequestState) : Prop :=
  ∃ i id context user deadline,
    ts !! i = Some (TDecide id (CibaApprove context) user deadline) ∧ hash id = key ∧
    s.(cs_authentication_context) = Some context ∧ ∀ u, user = Some u → u = s.(cs_user_id).

Definition ciba_inv (w : W) : Prop :=
  ∀ key v s, w !! key = Some v → dec v = Some s →
    ciba_wf s ∧ (s.(cs_status) = CibaApproved → approved_by key s).

(** The transitions of a stored request by a task's call. *)
Definition moves (t : task) (key : string) (s s' : CibaRequestState) : Prop :=
  match t with
  | TCreate _ _ => False
  | TPoll id client _ => hash id = key ∧ client = s.(cs_client_id) ∧
      (s' = s ∨ s.(cs_status) = CibaPending ∧ ∃ now interval, now < s.(cs_expires_at) ∧
         s.(cs_interval_seconds) ≤ interval ∧ s' = polled s now interval)
  | TDecide id decision user _ => hash id = key ∧ s.(cs_status) = CibaPending ∧
      (∀ u, user = Some u → u = s.(cs_user_id)) ∧ ∃ now, now < s.(cs_expires_at) ∧
      match decision with
      | CibaApprove context => valid_authentication_context context = true ∧
          s' = decided s CibaApproved (Some context) now
      | CibaDeny => s' = decided s CibaDenied None now
      end
  end.

(** One call of a task, then the background. *)
Definition evolves (t : task) (w w' : W) : Prop :=
  ∃ w1, drifts w1 w' ∧ ∀ key,
    match w !! key, w1 !! key with
    | _, None => True
    | None, Some v' => ∃ id st d, t = TCreate st d ∧ hash id = key ∧ dec v' = Some (persisted id st)
    | Some v, Some v' =>
        v' = v ∨ ∃ s s', dec v = Some s ∧ dec v' = Some s' ∧ (ping_moves s s' ∨ moves t key s s')
    end.

Definition ciba_rely (w w' : W) : Prop := ciba_inv w → ciba_inv w'.

Definition ciba_guar (t : task) (X : Type) (e : cibaE V X) (w : W) (x : X) (w' : W) : Prop :=
  ciba_rely w w' ∧ evolves t w w'.

(** What a returned poll means. *)
Definition task_post (t : task) (r : task_result) (w : W) : Prop :=
  match t, r with
  | TPoll id client _, RPoll (Ok (CommittedApproved s)) =>
      s.(cs_client_id) = client ∧ s.(cs_status) = CibaApproved ∧ approved_by (hash id) s ∧
      ∃ c, s.(cs_authentication_context) = Some c ∧ valid_authentication_context c = true
  | _, _ => True
  end.
End world.

(** What the delivery worker does, in order. *)
Inductive ping_event :=
| Sent (delivery : CibaPingDelivery) (status : result Z unit)
| Clock (now : Z)
| Finished (delivery : CibaPingDelivery) (outcome : CibaPingFinishOutcome)
    (recorded : result CibaPingFinishResult unit).

Definition ping_logs (X : Type) (e : pingE X) (log : list ping_event) : X → list ping_event → Prop :=
  match e in pingE X return X → list ping_event → Prop with
  | PingSend d => fun status log' => log' = (log ++ [Sent d status])%list
  | PingNow => fun now log' => in_i64 now ∧ log' = (log ++ [Clock now])%list
  | PingFinish d outcome => fun recorded log' => log' = (log ++ [Finished d outcome recorded])%list
  end.

(** The schedule of retries: 1, 3 and 9 seconds after the attempts. *)
Definition scheduled (d : CibaPingDelivery) (now : Z) (outcome : CibaPingFinishOutcome) : Prop :=
  let next := now + 3 ^ (d.(pd_attempts) - 1) in
  (1 ≤ d.(pd_attempts) ≤ 3 ∧ next < d.(pd_expires_at) ∧ outcome = FinishRetryAt next) ∨
  (¬ (1 ≤ d.(pd_attempts) ≤ 3 ∧ next < d.(pd_expires_at)) ∧ outcome = FinishFailed).

(** The logs of one delivery. *)
Definition delivery_log (d : CibaPingDelivery) (sent : result Z unit) (outcome : CibaPingFinishOutcome)
    (recorded : result CibaPingFinishResult unit) (log : list ping_event) : Prop :=
  let at_once := log = [Sent d sent; Finished d outcome recorded] in
  let retried := ∃ now, scheduled d now outcome ∧
    log = [Sent d sent; Clock now; Finished d outcome recorded] in
  match sent with
  | Ok status =>
      (200 ≤ status ≤ 299 ∧ outcome = FinishDelivered ∧ at_once) ∨
      (300 ≤ status ≤ 499 ∧ outcome = FinishFailed ∧ at_once) ∨
      (¬ 200 ≤ status ≤ 499 ∧ retried)
  | Err _ => retried
  end.

(** ** Shapes are kept *)

Definition context_current (s : CibaRequestState) : Prop :=
  match s.(cs_status), s.(cs_authentication_context) with
  | CibaApproved, Some c => valid_authentication_context c = true
  | CibaPending, None | CibaDenied, None => True
  | _, _ => False
  end.

Lemma shape_Ok s b :
  validate_state_shape s b = Ok tt ↔
  0 < s.(cs_expires_at) ≤ s.(cs_retention_expires_at) ∧ context_current s ∧
  ∀ n, s.(cs_ping_notification) = Some n → notification_malformed n b = false.
Proof.
  unfold validate_state_shape, context_current.
  destruct (Z.leb_spec (cs_expires_at s) 0); simpl; [naive_solver lia|].
  destruct (Z.ltb_spec (cs_retention_expires_at s) (cs_expires_at s)); simpl; [naive_solver lia|].
  assert (Hp : (if is_some_and (cs_ping_notification s) (fun n => notification_malformed n b)
    then Err CibaCorruptData else Ok tt) = Ok tt ↔
    ∀ n, s.(cs_ping_notification) = Some n → notification_malformed n b = false).
  { destruct (cs_ping_notification s) as [n|]; simpl; [|naive_solver].
    destruct (notification_malformed n b) eqn:Hn; [|naive_solver].
    split; [done|]. intros Hx. specialize (Hx n eq_refl). congruence. }
  destruct (cs_status s), (cs_authentication_context s) as [c|]; simpl; try rewrite Hp; try naive_solver lia.
  destruct (valid_authentication_context c); simpl; [rewrite Hp|]; naive_solver lia.
Qed.

Lemma new_Ok s :
  validate_new_state s = Ok tt →
  validate_state_shape s false = Ok tt ∧ ∀ n, s.(cs_ping_notification) = Some n →
    n.(pn_status) = PingAwaitingDecision.
Proof.
  unfold validate_new_state. destruct (validate_state_shape s false) as [[]|]; [|done].
  destruct (is_some_and _ _) eqn:Hn; [done|]. intros _. split; [done|]. intros n Hs.
  rewrite Hs in Hn. simpl in Hn. boolify. done.
Qed.

Lemma persisted_wf id s :
  id ≠ ""%string → validate_new_state s = Ok tt → widths s → s.(cs_status) = CibaPending →
  ciba_wf (persisted id s).
Proof.
  intros Hid [(Ht & Hc & Hn)%shape_Ok Ha]%new_Ok (? & ? & ? & ? & ? & ? & ? & Hw) Hst. split_and!.
  - apply shape_Ok. split_and!; try done; [by apply Ht..|]. intros n' Hn'. simpl in Hn'.
    destruct (cs_ping_notification s) as [n|]; simplify_eq/=. specialize (Hn n eq_refl).
    unfold notification_malformed in *. simpl in *. rewrite (proj2 (is_empty_spec id) Hid). simpl.
    by destruct (is_empty (pn_endpoint n)).
  - split_and!; try done. intros n' Hn'. simpl in Hn'. destruct (cs_ping_notification s) as [n|]; simplify_eq/=.
    by apply Hw.
  - intros _ n' Hn'. simpl in Hn'. destruct (cs_ping_notification s) as [n|]; simplify_eq/=. by apply Ha.
Qed.

Lemma polled_wf s now interval :
  ciba_wf s → in_i64 now → in_u64 interval → ciba_wf (polled s now interval).
Proof.
  intros (Hs & (? & ? & ? & ? & ? & ? & ? & ?) & Hp) Hnow Hi.
  split; [exact Hs|split; [|exact Hp]]. split_and!; try done. naive_solver.
Qed.

(** A decided notification keeps its token, which an awaiting one has. *)
Lemma notify_shape n now :
  n.(pn_status) = PingAwaitingDecision → notification_malformed n true = false →
  notification_malformed (notify now n) true = false.
Proof.
  unfold notification_malformed. intros ->. simpl.
  destruct (is_empty (pn_endpoint n)), (is_none_or (pn_auth_req_id n) is_empty),
    (pn_client_notification_token n) as [t|]; simpl; try done. by destruct (is_empty t).
Qed.

Lemma decided_wf s status context now :
  ciba_wf s → in_i64 now → s.(cs_status) = CibaPending → status ≠ CibaPending →
  context_current (decided s status context now) →
  (∀ c, context = Some c → in_i64 c.(cc_auth_time)) → ciba_wf (decided s status context now).
Proof.
  intros ((Ht & Hc & Hn)%shape_Ok & (? & ? & ? & ? & ? & ? & ? & Hw) & Hp) Hnow Hst Hne Hcur Hctx.
  split_and!.
  - apply shape_Ok. split_and!; try done; [by apply Ht..|]. intros n' Hn'. simpl in Hn'.
    destruct (cs_ping_notification s) as [n|] eqn:Hs; simplify_eq/=.
    apply notify_shape; [by apply (Hp Hst)|by apply Hn].
  - split_and!; try done. intros n' Hn'. simpl in Hn'.
    destruct (cs_ping_notification s) as [n|]; simplify_eq/=. split; [by apply Hw|naive_solver].
  - done.
Qed.

Lemma ping_shape n n' :
  ping_step n n' → notification_malformed n true = false → notification_malformed n' true = false.
Proof.
  intros (Hid & He & Hs & _ & Hn'). unfold notification_malformed. rewrite Hid, He, Hs.
  destruct (is_empty (pn_endpoint n)), (is_none_or (pn_auth_req_id n) is_empty); simpl; try done.
  destruct Hn' as [(-> & -> & t & -> & _)|(Hst & -> & ->)].
  - destruct (pn_client_notification_token n) as [t'|]; simpl; [|done]. by destruct (is_empty t').
  - by destruct Hst as [-> | ->].
Qed.

Lemma ping_moves_wf s s' : ping_moves s s' → ciba_wf s → ciba_wf s'.
Proof.
  intros (n & n' & Hs & Hstep & ->) ((Ht & Hc & Hn)%shape_Ok & (? & ? & ? & ? & ? & ? & ? & Hw) & Hp).
  split_and!.
  - apply shape_Ok. split_and!; try done; [by apply Ht..|]. intros m [= <-].
    eapply ping_shape; [done|by apply Hn].
  - split_and!; try done. intros m [= <-]. destruct Hstep as (_ & _ & _ & ? & Hm). split; [done|].
    naive_solver.
  - intros Hpend m [= <-]. destruct Hstep as (_ & _ & Hst & _). rewrite (Hp Hpend n Hs) in Hst. done.
Qed.

Lemma ping_moves_trans s s' s'' : ping_moves s s' → ping_moves s' s'' → ping_moves s s''.
Proof.
  intros (n & n' & Hs & (Hi & He & Hst & _ & Hn') & ->) (m & m' & [= <-] & (Hi' & He' & Hst' & Hat & Hm') & ->).
  exists n, m'. split_and!; [done| |done]. split_and!; try congruence; try done.
  destruct Hn' as [(_ & Htok & _)|([Hx|Hx] & _)]; [|congruence..].
  destruct Hm' as [(? & ? & ?)|?]; [left|by right]. split_and!; [done|congruence|done].
Qed.

(** ** The store *)

Section facts.
Context {V : Type} (hash : string → string).
Context (enc : CibaRequestState → V) (dec : V → option CibaRequestState).
Context (Henc : ∀ s, ciba_wf s → dec (enc s) = Some s).
Context (ts : list task).
Notation W := (gmap string V).
Notation step := (ciba_step hash enc dec).
Notation inv := (ciba_inv hash dec ts).
Notation rely := (ciba_rely hash dec ts).
Notation wp_ t := (wp step rely (ciba_guar hash dec ts t)).
Notation drift := (drifts (V := V) dec).

#[export] Instance ciba_rely_preorder : PreOrder (ciba_rely (V := V) hash dec ts).
Proof. split; [by intros w H|]. intros a b c Hab Hbc H. by apply Hbc, Hab. Qed.

Lemma drifts_refl w : drift w w.
Proof. intros key. destruct (w !! key); eauto. Qed.

Lemma drifts_trans w1 w2 w3 : drift w1 w2 → drift w2 w3 → drift w1 w3.
Proof.
  intros H12 H23 key. specialize (H12 key). specialize (H23 key).
  destruct (w3 !! key) as [v3|]; [|done]. destruct H23 as (v2 & Hv2 & H23). rewrite Hv2 in H12.
  destruct H12 as (v1 & Hv1 & H12). exists v1. split; [done|].
  destruct H12 as [->|(s1 & s2 & D1 & D2 & M1)]; [done|].
  destruct H23 as [->|(s2' & s3 & D2' & D3 & M2)]; [by right; eauto 6|].
  simplify_eq. right. exists s1, s3. eauto using ping_moves_trans.
Qed.

Lemma approved_ping key s s' :
  ping_moves s s' → approved_by hash ts key s → approved_by hash ts key s'.
Proof. by intros (n & n' & _ & _ & ->). Qed.

Lemma drifts_inv w w' : drift w w' → inv w → inv w'.
Proof.
  intros Hd Hi key v' s' Hv' Hs'. specialize (Hd key). rewrite Hv' in Hd.
  destruct Hd as (v & Hv & [->|(s & s2 & D1 & D2 & M)]); [by eapply (Hi key)|]. simplify_eq.
  destruct (Hi key v s Hv D1) as [Hwf Ha]. split; [by eapply ping_moves_wf|].
  intros Hst. eapply approved_ping; [done|]. apply Ha. by destruct M as (? & ? & _ & _ & ->).
Qed.

(** A write and what drifts after it, for a task. *)
Definition changes (t : task) (w w1 : W) : Prop :=
  ∀ key, match w !! key, w1 !! key with
    | _, None => True
    | None, Some v' => ∃ id st d, t = TCreate st d ∧ hash id = key ∧ dec v' = Some (persisted id st)
    | Some v, Some v' =>
        v' = v ∨ ∃ s s', dec v = Some s ∧ dec v' = Some s' ∧ (ping_moves s s' ∨ moves hash t key s s')
    end.

Lemma changes_drifts t w w1 : drift w w1 → changes t w w1.
Proof.
  intros Hd key. specialize (Hd key). destruct (w1 !! key) as [v1|]; [|by destruct (w !! key)].
  destruct Hd as (v & -> & [->|(s & s' & ? & ? & ?)]); [by left|right; eauto 6].
Qed.

Lemma changes_guar t X (e : cibaE V X) w x w1 w' :
  changes t w w1 → (inv w → inv w1) → drift w1 w' → ciba_guar hash dec ts t X e w x w'.
Proof. intros Hc Hi Hd. split; [intros H; by eapply drifts_inv, Hi|]. by exists w1. Qed.

Lemma drifts_guar t X (e : cibaE V X) w x w' : drift w w' → ciba_guar hash dec ts t X e w x w'.
Proof.
  intros Hd. eapply (changes_guar t X e w x w); [apply changes_drifts, drifts_refl|done|done].
Qed.

Lemma ciba_outcome_guar {A E} t X (e : cibaE V X) w y (op : A → W → Prop) (x : result A E) w' :
  (∀ a w1, op a w1 → changes t w w1 ∧ (inv w → inv w1)) → outcome dec w op x w' →
  ciba_guar hash dec ts t X e w y w'.
Proof.
  intros Hop (w1 & Hd & Ho).
  assert (Hc : changes t w w1 ∧ (inv w → inv w1)).
  { destruct Ho as [(a & _ & Ho)|(err & _ & [->|(a & Ho)])]; eauto using changes_drifts, drifts_refl. }
  destruct Hc. by eapply changes_guar.
Qed.

Lemma insert_inv w key next :
  ciba_wf next → (next.(cs_status) = CibaApproved → approved_by hash ts key next) →
  inv w → inv (<[key := enc next]> w).
Proof.
  intros Hwf Ha Hi key' v s. destruct (decide (key = key')) as [<-|Hne].
  - rewrite lookup_insert_eq. intros [= <-]. rewrite Henc by done. by intros [= <-].
  - rewrite lookup_insert_ne by done. apply Hi.
Qed.

Lemma delete_changes t w key : changes t w (delete key w) ∧ (inv w → inv (delete key w)).
Proof.
  split.
  - intros key'. destruct (decide (key = key')) as [<-|].
    + rewrite lookup_delete_eq. by destruct (w !! key).
    + rewrite lookup_delete_ne by done. destruct (w !! key'); auto.
  - intros Hi key' v s [_ Hv]%lookup_delete_Some. by apply Hi.
Qed.

Lemma ciba_quiet_guar t X (e : cibaE V X) w x w' :
  match e with CibaCreate _ _ _ | CibaReplace _ _ _ _ => False | _ => True end →
  step X e w x w' → ciba_guar hash dec ts t X e w x w'.
Proof.
  destruct e; simpl; try done; intros _.
  - apply ciba_outcome_guar. intros a w1 [-> _]. split; [apply changes_drifts, drifts_refl|done].
  - apply ciba_outcome_guar. intros [] w1; [intros [_ ->]; apply delete_changes|..];
      intros Hd; split; eauto using changes_drifts, drifts_inv.
  - intros [_ ?]. by apply drifts_guar.
  - intros [_ ?]. by apply drifts_guar.
Qed.

(** A snapshot the store held. *)
Definition ok_stored (id : string) (s : CibaStoredRequest V) : Prop :=
  dec s.(sr_version) = Some s.(sr_state) ∧ ciba_wf s.(sr_state) ∧
  (s.(sr_state).(cs_status) = CibaApproved → approved_by hash ts (hash id) s.(sr_state)).

Lemma replace_guar t id s next d w x w' :
  ok_stored id s → ciba_wf next →
  (next.(cs_status) = CibaApproved → approved_by hash ts (hash id) next) →
  moves hash t (hash id) s.(sr_state) next →
  step _ (CibaReplace id s.(sr_version) next d) w x w' →
  ciba_guar hash dec ts t _ (CibaReplace id s.(sr_version) next d) w x w'.
Proof.
  intros (Hd & _ & _) Hwf Ha Hm. apply ciba_outcome_guar.
  intros [] w1; [|intros ?; split; eauto using changes_drifts, drifts_inv..].
  intros [Hv ->]. split; [|by apply insert_inv]. intros key.
  destruct (decide (hash id = key)) as [<-|Hne].
  - rewrite Hv, lookup_insert_eq. right. exists s.(sr_state), next. rewrite Henc by done. auto.
  - rewrite lookup_insert_ne by done. destruct (w !! key); auto.
Qed.

Lemma ciba_create_guar st d id dl w x w' :
  ciba_wf (persisted id st) → st.(cs_status) = CibaPending →
  step _ (CibaCreate id st dl) w x w' →
  ciba_guar hash dec ts (TCreate st d) _ (CibaCreate id st dl) w x w'.
Proof.
  intros Hwf Hp. apply ciba_outcome_guar.
  intros [] w1; [|intros ?; split; eauto using changes_drifts, drifts_inv..].
  intros [Hv ->]. split; [|apply insert_inv; [done|simpl; congruence]]. intros key.
  destruct (decide (hash id = key)) as [<-|Hne].
  - rewrite Hv, lookup_insert_eq. exists id, st, d. by rewrite Henc.
  - rewrite lookup_insert_ne by done. destruct (w !! key); auto.
Qed.

(** ** The services *)

Lemma ciba_wp_quiet {A X} t (e : cibaE V X) (f : X → prog (cibaE V) A) Q w :
  match e with CibaCreate _ _ _ | CibaReplace _ _ _ _ => False | _ => True end →
  (∀ w1 x w2, rely w w1 → step X e w1 x w2 → rely w1 w2 → wp_ t (f x) Q w2) →
  wp_ t (bind (call e) f) Q w.
Proof.
  intros Hq H. apply wp_call. intros w1 x w2 Hr Hs.
  pose proof (ciba_quiet_guar t _ _ _ _ _ Hq Hs) as Hg. split; [done|]. eapply H; [done..|apply Hg].
Qed.

Lemma ciba_wp_inv {A} t (p : prog (cibaE V) A) Q w :
  inv w → wp_ t p Q w → wp_ t p (fun a w' => Q a w' ∧ inv w') w.
Proof. intros Hi. apply wp_invariant; [by intros v v'|by intros X e v x v' [? _]|done]. Qed.

Definition ok_loaded (id : string) (r : result (option (CibaStoredRequest V)) CibaStatePortError) : Prop :=
  match r with Ok (Some s) => ok_stored id s | _ => True end.

Lemma wp_load t id w : inv w → wp_ t (load id) (fun r _ => ok_loaded id r) w.
Proof.
  intros Hi. apply ciba_wp_quiet; [done|]. intros w1 x w2 Hr (w3 & _ & Ho) _.
  destruct x as [[s|]|e]; [|by apply wp_ret..]. destruct Ho as [(a & [= <-] & _ & Hv & Hd)|(e & ? & _)]; [|done].
  apply wp_ret. intros _ _. unfold validate_stored_request.
  destruct (validate_stored_state _) as [[]|]; simpl; [|done]. destruct (Hr Hi _ _ _ Hv Hd). done.
Qed.

Lemma decision_commit s user decision now next :
  evaluate_ciba_decision s user decision now = DecisionCommit next →
  s.(cs_status) = CibaPending ∧ (∀ u, user = Some u → u = s.(cs_user_id)) ∧ now < s.(cs_expires_at) ∧
  match decision with
  | CibaApprove context => valid_authentication_context context = true ∧
      next = decided s CibaApproved (Some context) now
  | CibaDeny => next = decided s CibaDenied None now
  end.
Proof.
  unfold evaluate_ciba_decision. destruct (is_some_and user _) eqn:Hu; [done|].
  destruct (bool_decide _) eqn:Hs; simpl; [|done]. destruct (_ <=? now) eqn:Ht; [done|]. boolify.
  assert (Hus : ∀ u, user = Some u → u = s.(cs_user_id)).
  { intros u ->. simpl in Hu. by boolify. }
  destruct decision as [c|]; [|by intros [= <-]].
  destruct (valid_authentication_context c) eqn:Hc; simpl; [|done]. by intros [= <-].
Qed.

Lemma wp_snapshot t id stored first w :
  inv w → ok_stored id stored →
  wp_ t (current_snapshot id stored first)
    (fun r w' => match r with Ok s => ok_stored id s | Err _ => True end ∧ inv w') w.
Proof.
  intros Hi Hok. apply ciba_wp_inv; [done|]. unfold current_snapshot. destruct first; [by apply wp_ret|].
  apply wp_bind; [apply _|]. eapply wp_mono; [by apply wp_load|]. intros [[s|]|e] w' Hs; apply wp_ret; try done.
  intros _ _. simpl. by destruct (negb _).
Qed.

Lemma wp_commit n i first id stored decision user dl w :
  ts !! i = Some (TDecide id decision user dl) →
  (∀ c, decision = CibaApprove c → in_i64 c.(cc_auth_time)) →
  inv w → ok_stored id stored →
  wp_ (TDecide id decision user dl) (commit_loop n first id stored decision user dl)
    (fun _ _ => True) w.
Proof.
  intros Hts Hctx. revert first w. induction n as [|n IH]; intros first w Hi Hok; [by apply wp_ret|].
  apply wp_bind; [apply _|]. eapply wp_mono; [by apply wp_snapshot|].
  intros [s|e] w1 [Hs Hi1]; [|by apply wp_ret]. apply ciba_wp_quiet; [done|]. intros w2 now w3 Hr2 [Hnow _] Hr3.
  destruct (evaluate_ciba_decision _ user decision now) as [next| | | |] eqn:He; try (by apply wp_ret).
  - apply decision_commit in He as (Hp & Hu & Hexp & Hn). apply wp_call. intros w4 x w5 Hr4 Hs5.
    assert (Hg : ciba_guar hash dec ts (TDecide id decision user dl) _ (CibaReplace id s.(sr_version) next
      (decision_deadline dl s.(sr_state).(cs_expires_at))) w4 x w5).
    { destruct Hs as (Hd & Hwf & Ha). apply replace_guar; [done| | | |done].
      - destruct decision as [c|]; [destruct Hn as [Hv ->]|subst next]; apply decided_wf; try done; naive_solver.
      - destruct decision as [c|]; [destruct Hn as [Hv ->]|by subst next]. intros _.
        exists i, id, c, user, dl. done.
      - split_and!; try done. exists now. by destruct decision. }
    split; [done|]. destruct x as [[]|]; try (by apply wp_ret). apply IH; [|done].
    apply Hg, Hr4, Hr3, Hr2, Hi1.
  - apply ciba_wp_quiet; [done|]. intros w4 x w5 Hr4 _ Hr5. destruct x as [[]|]; try (by apply wp_ret).
    apply IH; [|done]. by apply Hr5, Hr4, Hr3, Hr2.
Qed.

Lemma poll_next s now next :
  ciba_wf s → in_i64 now →
  evaluate_ciba_poll s now = PollAuthorizationPending next ∨ evaluate_ciba_poll s now = PollSlowDown next →
  s.(cs_status) = CibaPending ∧ now < s.(cs_expires_at) ∧
  ∃ interval, s.(cs_interval_seconds) ≤ interval ∧ next = polled s now interval ∧ ciba_wf next.
Proof.
  intros Hwf Hnow. unfold evaluate_ciba_poll. destruct (_ <=? now) eqn:Ht; [naive_solver|]. boolify.
  assert (Hi : in_u64 s.(cs_interval_seconds)) by apply Hwf.
  destruct (cs_status s) eqn:Hst; [|naive_solver..].
  destruct (is_some_and _ _); intros [[= <-]|[= <-]]; (split_and!; [done..|]); eexists;
    (split_and!; [|done|by apply polled_wf; auto with rust]);
    unfold u64_saturating_add, clamp, in_u64, U64_MAX, CIBA_SLOW_DOWN_INCREMENT_SECONDS in *; lia.
Qed.

Lemma poll_ends s now :
  (evaluate_ciba_poll s now = PollApproved → s.(cs_status) = CibaApproved) ∧
  (evaluate_ciba_poll s now = PollDenied → s.(cs_status) = CibaDenied).
Proof.
  unfold evaluate_ciba_poll. destruct (_ <=? now); [done|]. destruct (cs_status s); try done.
  by destruct (is_some_and _ _).
Qed.

Lemma wp_poll_write t e commit retry Q w :
  (∀ w1 x w2, rely w w1 → step _ e w1 x w2 → ciba_guar hash dec ts t _ e w1 x w2) →
  (∀ w', rely w w' → wp_ t retry Q w') → (∀ w', Q (Ok commit) w') →
  (∀ w', Q (Ok CommittedExpired) w') → (∀ err w', Q (Err err) w') →
  wp_ t (poll_write e commit retry) Q w.
Proof.
  intros Hg Hre H1 H2 H3. apply wp_bind; [apply _|]. apply wp_call. intros w1 x w2 Hr Hs.
  specialize (Hg w1 x w2 Hr Hs). split; [done|]. apply wp_ret. intros w3 Hr3.
  destruct x as [[]|]; cbn [map_err]; try (by apply wp_ret). apply Hre. etrans; [done|].
  etrans; [apply Hg|done].
Qed.

Lemma ciba_wp_poll n first id client stored dl w :
  inv w → ok_stored id stored →
  wp_ (TPoll id client dl) (poll_loop n first id client stored dl)
    (fun r w' => task_post hash ts (TPoll id client dl) (RPoll r) w') w.
Proof.
  revert first stored w. induction n as [|n IH]; intros first stored w Hi Hok; [by apply wp_ret|].
  apply wp_bind; [apply _|].
  eapply (wp_mono _ _ _ (fun r w' => match r with Ok s => ok_stored id s | Err _ => True end ∧ inv w')).
  { apply ciba_wp_inv; [done|]. destruct first; [by apply wp_ret|]. apply wp_bind; [apply _|].
    eapply wp_mono; [by apply wp_load|]. by intros [[s|]|] w' Hs; apply wp_ret. }
  intros [s|e] w1 [Hs Hi1]; [|by apply wp_ret].
  destruct (bool_decide _) eqn:Hc; boolify; cbn [negb]; [|by apply wp_ret].
  apply ciba_wp_quiet; [done|]. intros w2 now w3 Hr2 [Hnow _] Hr3.
  assert (Hre : ∀ w', rely w3 w' → wp_ (TPoll id client dl) (poll_loop n false id client s dl)
    (fun r w' => task_post hash ts (TPoll id client dl) (RPoll r) w') w').
  { intros w' Hr. apply IH; [|done]. by apply Hr, Hr3, Hr2. }
  pose proof Hs as (Hd & Hwf & Ha).
  assert (Hw : ∀ next d w4 x w5, evaluate_ciba_poll s.(sr_state) now = PollAuthorizationPending next ∨
      evaluate_ciba_poll s.(sr_state) now = PollSlowDown next →
    step _ (CibaReplace id s.(sr_version) next d) w4 x w5 →
    ciba_guar hash dec ts (TPoll id client dl) _ (CibaReplace id s.(sr_version) next d) w4 x w5).
  { intros next d w4 x w5 Hn. destruct (poll_next _ _ _ Hwf Hnow Hn) as (Hp & Hexp & int & Hint & -> & Hwf').
    apply replace_guar; [done..| |].
    - simpl. by rewrite Hp.
    - split_and!; [done..|]. right. split; [done|]. eauto. }
  destruct (evaluate_ciba_poll s.(sr_state) now) as [next|next| | |] eqn:He.
  - apply wp_poll_write; try done. eauto.
  - apply wp_poll_write; try done. eauto.
  - apply poll_ends in He.
    assert (Hpost : ∀ w' : W, task_post hash ts (TPoll id client dl)
      (RPoll (Ok (CommittedApproved s.(sr_state)))) w').
    { intros w'. split_and!; [done..|by apply Ha|].
      destruct Hwf as [(_ & Hcur & _)%shape_Ok _]. unfold context_current in Hcur. rewrite He in Hcur.
      destruct (cs_authentication_context _); [eauto|done]. }
    destruct dl as [d|]; [|by apply wp_ret]. apply wp_poll_write; try done.
    intros w4 x w5 _. apply replace_guar; try done. split_and!; auto.
  - apply wp_poll_write; try done. intros w4 x w5 _. by apply ciba_quiet_guar.
  - apply wp_poll_write; try done. intros w4 x w5 _. by apply ciba_quiet_guar.
Qed.

Lemma ciba_wp_create n st d w :
  validate_new_state st = Ok tt → widths st → st.(cs_status) = CibaPending →
  wp_ (TCreate st d) (create_loop n st d) (fun _ _ => True) w.
Proof.
  intros Hv Hw Hp. revert w. induction n as [|n IH]; intros w; [by apply wp_ret|].
  apply ciba_wp_quiet; [done|]. intros w1 id w2 _ [Hid _] _. apply wp_call. intros w3 x w4 _ Hs.
  split; [apply ciba_create_guar; [by apply persisted_wf|done..]|].
  destruct x as [[]|]; first [apply IH|by apply wp_ret].
Qed.

Lemma ciba_wp_task i t w :
  ts !! i = Some t → task_wf t → inv w → wp_ t (task_prog t) (task_post hash ts t) w.
Proof.
  intros Ht Hwf Hi. destruct t as [st d|id decision user dl|id client dl]; apply wp_bind; try apply _.
  - unfold create_unique_with_authorization_deadline.
    destruct (validate_new_state st) as [[]|] eqn:Hv; [|by apply wp_ret; intros; apply wp_ret].
    destruct Hwf. eapply wp_mono; [by apply ciba_wp_create|]. intros. by apply wp_ret.
  - eapply (wp_mono _ _ _ (fun _ _ => True)); [|by intros; apply wp_ret].
    apply wp_bind; [apply _|]. apply wp_bind; [apply _|].
    eapply wp_mono; [apply ciba_wp_inv; [done|by apply wp_load]|].
    intros [[s|]|] w' [Hs Hi']; apply wp_ret; intros w2 Hr2; [|by apply wp_ret..].
    eapply wp_commit; [done| |by apply Hr2|done]. intros c ->. done.
  - eapply wp_mono; [apply ciba_wp_inv; [done|by apply wp_load]|].
    intros [[s|]|] w' [Hs Hi']; [|by apply wp_ret..].
    apply wp_bind; [apply _|]. unfold poll_with_authorization_deadline, validate_stored_request.
    destruct (validate_stored_state _) as [[]|]; cbn [map_err]; [|by apply wp_ret; intros; apply wp_ret].
    eapply wp_mono; [by apply ciba_wp_poll|]. intros r w2 Hp. by apply wp_ret.
Qed.

(** The guarantee of the [i]-th task. *)
Definition task_guar (i : nat) (X : Type) (e : cibaE V X) (w : W) (x : X) (w' : W) : Prop :=
  ∃ t, ts !! i = Some t ∧ ciba_guar hash dec ts t X e w x w'.

Definition pool_good (c : list (prog (cibaE V) task_result) * W) : Prop :=
  pool_ok (fun _ => step) (fun _ => rely) task_guar
    (fun i r w' => ∀ t, ts !! i = Some t → task_post hash ts t r w') c.

Lemma tasks_good w : Forall task_wf ts → inv w → pool_good (task_prog <$> ts, w).
Proof.
  intros Hts Hi i p Hp. apply list_lookup_fmap_Some in Hp as (t & -> & Ht).
  eapply wp_guar_mono; [intros X e v x v' Hg; by exists t|].
  eapply wp_mono; [by eapply ciba_wp_task, Hi; [|by eapply Forall_lookup_1]|].
  intros r w' Hpost t' Ht'. by simplify_eq.
Qed.

Lemma ciba_pool_inv w c :
  Forall task_wf ts → inv w → pool_steps (fun _ => step) (task_prog <$> ts, w) c →
  pool_good c ∧ inv c.2.
Proof.
  intros Hts Hi Hs.
  destruct (pool_steps_ok _ _ _ (fun _ => _)
    (fun _ _ _ _ _ _ _ _ '(ex_intro _ t (conj _ Hg)) => proj1 Hg) _ _ (tasks_good w Hts Hi) Hs)
    as [Hok Hg].
  split; [done|]. clear -Hg Hi. simpl in Hg. revert Hi.
  induction Hg as [|a b c' (i & X & e & x & t & _ & Hab & _) _ IH]; auto.
Qed.
End facts.

(** ** A reference store

    Every call succeeds, nothing happens in the background, the clock stands still. *)
Module example.

Definition handle (X : Type) (e : cibaE CibaRequestState X) (w : gmap string CibaRequestState)
    : option (X * gmap string CibaRequestState) :=
  match e in cibaE _ X return option (X * gmap string CibaRequestState) with
  | CibaLoad id => Some (Ok ((fun s => {| sr_state := s; sr_version := s |}) <$> w !! id), w)
  | CibaCreate id st _ =>
      Some (match w !! id with
            | None => (Ok CibaApplied, <[id := persisted id st]> w)
            | Some _ => (Ok CibaConflict, w)
            end)
  | CibaReplace id v next _ =>
      Some (if decide (w !! id = Some v) then (Ok CibaApplied, <[id := next]> w) else (Ok CibaConflict, w))
  | CibaDelete id v _ =>
      Some (if decide (w !! id = Some v) then (Ok CibaApplied, delete id w) else (Ok CibaConflict, w))
  | CibaNow => Some (1000, w)
  | CibaGenerateId => Some ("request"%string, w)
  end.

Definition context : CibaAuthenticationContext :=
  {| cc_auth_time := 990; cc_amr := ["pwd"%string]; cc_oidc_sid := None |}.

Definition new_request : CibaRequestState :=
  {| cs_client_id := "rp"; cs_user_id := 42; cs_scopes := ["openid"%string];
     cs_audiences := ["https://api.example"%string]; cs_acr := None;
     cs_authentication_context := None; cs_binding_message := None; cs_issued_at := 900;
     cs_status := CibaPending; cs_interval_seconds := 5; cs_expires_at := 1200;
     cs_retention_expires_at := 1320; cs_last_poll_at := None;
     cs_ping_notification := Some {| pn_auth_req_id := None; pn_endpoint := "https://rp.example/ping";
       pn_client_notification_token := Some "token"%string; pn_status := PingAwaitingDecision;
       pn_attempts := 0; pn_next_attempt_at := None |} |}.

Definition approved : CibaRequestState :=
  decided (persisted "request" new_request) CibaApproved (Some context) 1000.

(** A client asks, the user approves, the client polls. *)
Definition tasks : list task :=
  [TCreate new_request None; TDecide "request" (CibaApprove context) (Some 42) None; TPoll "request" "rp" None].

Definition schedule : list nat := (repeat 0 2 ++ repeat 1 3 ++ repeat 2 2)%nat.

Definition flow (l : list nat) := pool_run handle l (task_prog <$> tasks, ∅).

(** A second attempt, answered by a server error. *)
Definition delivery : CibaPingDelivery :=
  {| pd_auth_req_id_hash := "request"; pd_auth_req_id := "request";
     pd_endpoint := "https://rp.example/ping"; pd_client_notification_token := "token";
     pd_attempts := 2; pd_expires_at := 1200 |}.

Definition log : list ping_event :=
  [Sent delivery (Ok 503); Clock 1000; Finished delivery (FinishRetryAt 1003) (Ok FinishApplied)].

Lemma done_outcome {A E} (w w' : gmap string CibaRequestState)
    (op : A → gmap string CibaRequestState → Prop) (a : A) :
  op a w' → outcome Some w op (Ok a : result A E) w'.
Proof. intros. exists w'. split; [apply drifts_refl|]. left. eauto. Qed.

Lemma ciba_handle_step X (e : cibaE CibaRequestState X) w x w' :
  handle X e w = Some (x, w') → ciba_step id id Some X e w x w'.
Proof.
  destruct e; simpl; intros Hh; repeat case_decide; repeat case_match; simplify_eq;
    try (apply done_outcome; try split; try apply drifts_refl; done).
  - apply done_outcome. split; [done|]. by destruct (w' !! auth_req_id).
  - split; [|apply drifts_refl]. unfold in_i64, I64_MIN, I64_MAX. lia.
  - split; [done|apply drifts_refl].
Qed.

Lemma tasks_wf : Forall task_wf tasks.
Proof.
  repeat constructor; simpl; unfold in_i64, in_u64, in_u32, I64_MIN, I64_MAX, U64_MAX, U32_MAX;
    intros; simplify_eq/=; split_and?; intros; simplify_eq/=; lia.
Qed.

Lemma ciba_start_inv : ciba_inv id Some tasks ∅.
Proof. intros key v s Hv. by rewrite lookup_empty in Hv. Qed.

End example.



(** C14: a token through the backchannel needs the approval of the user the
    request is for.  Whatever the interleaving, the expiries, the failures and
    the delivery worker: when a poll returns an approved request, it is the
    polling client's, and some decision task approved that very request, as its
    user where one was expected, with the valid authentication the poll returns.
    Every stored request that decodes passes the shape check at every moment. *)
Theorem ciba_approved_poll {V} (hash : string → string) (enc : CibaRequestState → V)
    (dec : V → option CibaRequestState) (ts : list task) (w : gmap string V) c :
  (∀ s, ciba_wf s → dec (enc s) = Some s) → Forall task_wf ts → ciba_inv hash dec ts w →
  pool_steps (fun _ => ciba_step hash enc dec) (task_prog <$> ts, w) c →
  ciba_inv hash dec ts c.2 ∧
  ∀ i id client deadline s,
    ts !! i = Some (TPoll id client deadline) →
    c.1 !! i = Some (Ret (RPoll (Ok (CommittedApproved s)))) →
    s.(cs_client_id) = client ∧ s.(cs_status) = CibaApproved ∧ approved_by hash ts (hash id) s ∧
    ∃ context, s.(cs_authentication_context) = Some context ∧
      valid_authentication_context context = true.
Proof.
  intros Henc Hts Hi Hs. destruct (ciba_pool_inv _ _ _ Henc _ _ _ Hts Hi Hs) as [Hok Hinv].
  split; [done|]. intros i id client dl s Ht Hret. apply (Hok i _ Hret _ (PreOrder_Reflexive _) _ Ht).
Qed.

Lemma ciba_approved_poll_witness :
  ∃ c, example.flow example.schedule = Some c ∧ ciba_inv id Some example.tasks c.2 ∧
    approved_by id example.tasks "request" example.approved.
Proof.
  assert (Hret : match example.flow example.schedule with
    | Some (ts, _) => match ts !! 2%nat with
                      | Some (Ret r) => r = RPoll (Ok (CommittedApproved example.approved))
                      | _ => False end
    | None => False end) by (vm_compute; reflexivity).
  destruct (example.flow example.schedule) as [[ts w]|] eqn:Hrun; [|destruct Hret].
  destruct (ts !! 2%nat) as [[r|]|] eqn:Hts; [subst r|destruct Hret..].
  exists (ts, w). split; [reflexivity|].
  destruct (ciba_approved_poll id id Some example.tasks ∅ (ts, w) (fun s _ => eq_refl)
    example.tasks_wf example.ciba_start_inv) as [Hinv Hpoll].
  - eapply pool_run_steps; [|exact Hrun]. intros _. exact example.ciba_handle_step.
  - split; [exact Hinv|].
    exact (proj1 (proj2 (proj2 (Hpoll 2%nat "request"%string "rp"%string None _ eq_refl Hts)))).
Defined.

Lemma wait_short now last interval :
  in_i64 now → in_i64 last → in_u64 interval →
  (i64_saturating_sub now last <? unwrap_or (i64_try_from_u64 interval) I64_MAX)
  = (now - last <? Z.min interval I64_MAX).
Proof.
  intros Hn Hl Hi. apply eq_iff_eq_true. rewrite !Z.ltb_lt. unfold i64_try_from_u64.
  destruct (Z.leb_spec interval I64_MAX); simpl;
    unfold i64_saturating_sub, clamp, in_i64, in_u64, I64_MIN, I64_MAX in *; lia.
Qed.

(** The pacing of polls.  A live pending request records every poll; it is
    slowed down, by five more seconds up to the width of the interval, exactly
    when the last poll is less than the interval ago (an interval beyond the
    signed width counts as that width).  An expired or decided request answers so
    whatever the pace. *)
Theorem ciba_poll_pacing (s : CibaRequestState) (now : Z) :
  widths s → in_i64 now →
  evaluate_ciba_poll s now =
    if s.(cs_expires_at) <=? now then PollExpired
    else match s.(cs_status) with
         | CibaApproved => PollApproved
         | CibaDenied => PollDenied
         | CibaPending =>
             if match s.(cs_last_poll_at) with
                | Some last => now - last <? Z.min s.(cs_interval_seconds) I64_MAX
                | None => false
                end
             then PollSlowDown (polled s now (Z.min (s.(cs_interval_seconds) + 5) U64_MAX))
             else PollAuthorizationPending (polled s now s.(cs_interval_seconds))
         end.
Proof.
  intros (_ & _ & Hint & _ & _ & Hlast & _) Hnow. unfold evaluate_ciba_poll.
  destruct (_ <=? now); [done|]. destruct (cs_status s); try done.
  assert (Hadd : u64_saturating_add (cs_interval_seconds s) CIBA_SLOW_DOWN_INCREMENT_SECONDS
    = Z.min (cs_interval_seconds s + 5) U64_MAX).
  { unfold u64_saturating_add, clamp, CIBA_SLOW_DOWN_INCREMENT_SECONDS, in_u64, U64_MAX in *. lia. }
  rewrite Hadd. destruct (cs_last_poll_at s) as [last|]; simpl; [|done].
  by rewrite (wait_short _ _ _ Hnow (Hlast _ eq_refl) Hint).
Qed.

Lemma ciba_poll_pacing_witness :
  evaluate_ciba_poll (polled example.new_request 1000 5) 1003
    = PollSlowDown (polled (polled example.new_request 1000 5) 1003 10).
Proof.
  rewrite (ciba_poll_pacing (polled example.new_request 1000 5) 1003).
  - reflexivity.
  - unfold widths, valid_uuid, in_i64, in_u64, in_u32, I64_MIN, I64_MAX, U64_MAX, U32_MAX; simpl.
    repeat split; intros; simplify_eq/=; try lia.
  - unfold in_i64, I64_MIN, I64_MAX. lia.
Defined.

(** Before a deadline of its width, a saturating sum is the sum. *)
Lemma saturating_before now delay deadline :
  in_i64 now → in_i64 deadline → 0 ≤ delay →
  (if i64_saturating_add now delay <? deadline then Some (i64_saturating_add now delay) else None)
  = if now + delay <? deadline then Some (now + delay) else None.
Proof.
  unfold i64_saturating_add, clamp, in_i64, I64_MIN, I64_MAX. intros Hn Hd H0.
  repeat case_match; rewrite ?Z.ltb_lt, ?Z.ltb_ge in *; try (f_equal; lia); lia.
Qed.

Lemma retry_scheduled d now :
  in_i64 d.(pd_expires_at) → in_i64 now → scheduled d now (retry_outcome d now).
Proof.
  intros He Hn. unfold scheduled, retry_outcome, next_ciba_ping_retry_at.
  rewrite !saturating_before by (done || lia).
  destruct (Z.eqb_spec (pd_attempts d) 1) as [->|];
    [|destruct (Z.eqb_spec (pd_attempts d) 2) as [->|];
    [|destruct (Z.eqb_spec (pd_attempts d) 3) as [->|]; [|right; split; [lia|done]]]].
  all: cbn -[Z.add Z.ltb Z.le Z.lt];
    match goal with |- context [?t <? ?e] => destruct (Z.ltb_spec t e) end;
    [left; split; [lia|split; [lia|done]]|right; split; [lia|done]].
Qed.

Lemma wp_retry d log :
  in_i64 d.(pd_expires_at) →
  wp ping_logs eq no_guar
    (let* outcome := let* now := call PingNow in Ret (retry_outcome d now) in
     let*? _ := call (PingFinish d outcome) in Ret (Ok tt))
    (fun r log' => ∃ outcome recorded now, r = map_ok (fun _ => tt) recorded ∧
       scheduled d now outcome ∧ log' = (log ++ [Clock now; Finished d outcome recorded])%list) log.
Proof.
  intros Hd ? <- now ? [Hn ->]. split; [done|]. intros ? <- recorded ? ->. split; [done|].
  destruct recorded as [a|err]; intros ? <-; exists (retry_outcome d now);
    [exists (Ok a), now|exists (Err err), now];
    (split; [done|split; [by apply retry_scheduled|by rewrite <-app_assoc]]).
Qed.

Lemma wp_recorded d outcome log :
  wp ping_logs eq no_guar (let*? _ := call (PingFinish d outcome) in Ret (Ok tt))
    (fun r log' => ∃ recorded, r = map_ok (fun _ => tt) recorded ∧
       log' = (log ++ [Finished d outcome recorded])%list) log.
Proof.
  intros ? <- recorded ? ->. split; [done|].
  destruct recorded as [a|err]; intros ? <-; [by exists (Ok a)|by exists (Err err)].
Qed.

Lemma wp_process_delivery d :
  in_i64 d.(pd_expires_at) →
  wp ping_logs eq no_guar (process_delivery d) (fun r log =>
    ∃ sent outcome recorded, delivery_log d sent outcome recorded log ∧
      r = map_ok (fun _ => tt) recorded) [].
Proof.
  intros Hd ? <- sent ? ->. split; [done|]. destruct sent as [status|err].
  2: { eapply wp_mono; [by apply (wp_retry d)|]. intros r log (o & rec & now & -> & Hs & ->).
       exists (Err err), o, rec. split; [by exists now|done]. }
  cbn [bind map_ok]. unfold classify_ciba_ping_status, in_range.
  destruct ((200 <=? status) && (status <=? 299)) eqn:H2;
    [|destruct ((300 <=? status) && (status <=? 499)) eqn:H3].
  - eapply wp_mono; [apply (wp_recorded d FinishDelivered)|]. intros r log (rec & -> & ->).
    exists (Ok status), FinishDelivered, rec. split; [left; split; [lia|done]|done].
  - eapply wp_mono; [apply (wp_recorded d FinishFailed)|]. intros r log (rec & -> & ->).
    exists (Ok status), FinishFailed, rec. split; [right; left; split; [lia|done]|done].
  - eapply wp_mono; [by apply (wp_retry d)|]. intros r log (o & rec & now & -> & Hs & ->).
    exists (Ok status), o, rec. split; [right; right; split; [lia|by exists now]|done].
Qed.

(** C40: the delivery of a ping notification.  A claimed notification is sent
    once and its outcome recorded once: delivered exactly on a success status,
    failed at once on a redirect or client error; otherwise it is due again 1, 3
    and 9 seconds after its first, second and third attempt while the request is
    live then, and failed when it is not or the attempts count further.  An error
    is one of recording the outcome. *)
Theorem ciba_ping_delivery (d : CibaPingDelivery) r log :
  in_i64 d.(pd_expires_at) → sched ping_logs eq (process_delivery d) [] r log →
  ∃ sent outcome recorded, delivery_log d sent outcome recorded log ∧
    r = map_ok (fun _ => tt) recorded.
Proof. intros Hd Hs. exact (wp_sched _ _ _ _ _ _ _ (wp_process_delivery d Hd) Hs). Qed.

Lemma ciba_ping_delivery_witness :
  ∃ sent outcome recorded, delivery_log example.delivery sent outcome recorded example.log ∧
    (Ok tt : result unit unit) = map_ok (fun _ => tt) recorded.
Proof.
  apply (ciba_ping_delivery example.delivery (Ok tt) example.log).
  - unfold in_i64, I64_MIN, I64_MAX. simpl. lia.
  - eapply (sched_vis _ _ (PingSend example.delivery) _ _ _ (Ok 503)); [reflexivity|reflexivity|].
    eapply (sched_vis _ _ PingNow _ _ _ 1000); [reflexivity|split; [|reflexivity]|].
    { unfold in_i64, I64_MIN, I64_MAX. lia. }
    eapply (sched_vis _ _ (PingFinish example.delivery (FinishRetryAt 1003)) _ _ _ (Ok FinishApplied));
      [reflexivity|reflexivity|]. apply sched_ret. reflexivity.
Defined.
