(* ===== verification/ValkeyCiba.v ===== *)
(** * The backchannel-authentication store on Valkey

    [crates/state-store-valkey/src/ciba.rs]: the scripts behind the port of
    [CibaGrant] and the adapter that runs them.  An entry is the text of a
    request under its key, with the request's retention deadline as its expiry; a
    sorted set holds the notifications that are due.  The digest (blake3, in
    hexadecimal) and serde_json are parameters.  The two scripts of the delivery
    worker, which rewrite the text of a request with Lua's JSON library, are not
    modelled. *)
From stdpp Require Import base list strings.
From S2P Require Import Prelude Text CibaGrant Valkey ValkeyDevice.

Local Open Scope string_scope.
Local Open Scope rust_scope.
Local Open Scope Z_scope.

(** ** Data and keys *)

Record CibaStateVersion := {
  cv_comparison_token : string;
  cv_retention_expires_at : Z;
}.

Definition ciba_from_hash (auth_req_id_hash : string) : string := "oauth:ciba:" +:+ auth_req_id_hash.

Definition ciba_ping_queue : string := "oauth:ciba:ping:due".

(** ** The scripts *)
Section scripts.
Context {K : Type} `{!Valkey K}.

(** [EXPIREAT], which refuses a deadline beyond the width of milliseconds. *)
Definition then_expireat {R} (key : string) (deadline : Z) (next : script K R) : script K R := fun k =>
  if in_range I64_MIN I64_MAX (deadline * 1000) then next (vk_pexpireat key (deadline * 1000) k)
  else (Err FredOther, k).

Definition elapsed (now : Z) (authorization_deadline : option Z) : bool :=
  is_some_and authorization_deadline (fun deadline => tonumber deadline <=? now).

Definition SNAPSHOT_SCRIPT (key : string) : script K (option (string * Z)) := fun k =>
  match vk_get k key with
  | None => (Ok None, k)
  | Some value => (Ok (Some (value, vk_expiretime k key)), k)
  end.

Definition SET_NX_DEADLINE_SCRIPT (key raw : string) (argv2 : Z) (argv3 : option Z) : script K string := fun k =>
  let now := tonumber (vk_time k) in
  if elapsed now argv3 then (Ok "deadline_elapsed", k)
  else
    let deadline := tonumber argv2 in
    if deadline <=? now then (Ok "deadline_elapsed", k)
    else if vk_exists k key then (Ok "conflict", k)
    else
      then_expireat key deadline (fun k =>
        if negb (vk_exists k key) then (Ok "deadline_elapsed", k) else (Ok "applied", k))
        (vk_set key raw k).

(** The entry of an elapsed request, deleted with its notification. *)
Definition drop_elapsed (key queue expected member : string) : script K string := fun k =>
  if bool_decide (vk_get k key = Some expected)
  then (Ok "deadline_elapsed", vk_zrem queue member (vk_del key k))
  else (Ok "deadline_elapsed", k).

Definition COMPARE_SET_DEADLINE_SCRIPT (key queue expected raw : string) (argv3 : Z) (member : string)
    (argv5 argv6 : option Z) : script K string := fun k =>
  let deadline := tonumber argv3 in
  let now := tonumber (vk_time k) in
  if elapsed now argv6 then (Ok "deadline_elapsed", k)
  else if deadline <=? now then drop_elapsed key queue expected member k
  else if negb (bool_decide (vk_get k key = Some expected)) then (Ok "conflict", k)
  else
    then_expireat key deadline (fun k =>
      if negb (vk_exists k key) then (Ok "deadline_elapsed", k)
      else match argv5 with
           | None => (Ok "applied", vk_zrem queue member k)
           | Some due_at => (Ok "applied", vk_zadd queue (tonumber due_at) member k)
           end)
      (vk_set key raw k).

Definition COMPARE_DELETE_DEADLINE_SCRIPT (key queue expected : string) (argv2 : Z) (member : string)
    (argv4 : option Z) : script K string := fun k =>
  let deadline := tonumber argv2 in
  let now := tonumber (vk_time k) in
  if elapsed now argv4 then (Ok "deadline_elapsed", k)
  else if deadline <=? now then drop_elapsed key queue expected member k
  else if negb (bool_decide (vk_get k key = Some expected)) then (Ok "conflict", k)
  else (Ok "applied", vk_zrem queue member (vk_del key k)).
End scripts.

(** ** Replies and errors *)

Definition parse_atomic (reply : string) : result CibaAtomicResult ErrorKind :=
  if decide (reply = "applied") then Ok CibaApplied
  else if decide (reply = "conflict") then Ok CibaConflict
  else if decide (reply = "deadline_elapsed") then Ok CibaDeadlineElapsed
  else Err UnexpectedResult.

Definition ciba_port_error (kind : ErrorKind) : CibaStatePortError :=
  match kind with
  | Timeout | KindUnavailable => CibaUnavailable
  | Protocol | KindCorruptData => CibaCorruptData
  | UnexpectedResult => CibaUnexpected
  end.

(** ** The adapter *)

(** When the notification of a request is due. *)
Definition due_at (s : CibaRequestState) : option Z :=
  notification ← s.(cs_ping_notification);
  if bool_decide (notification.(pn_status) = PingPending) then notification.(pn_next_attempt_at) else None.

Section store.
Context {K : Type} `{!Valkey K}.
Context (digest : string → string) (to_string : CibaRequestState → option string).
Context (from_str : string → option CibaRequestState).
Context (namespace : string).

Definition create_with_authorization_deadline (tr : transport) (auth_req_id : string)
    (state : CibaRequestState) (authorization_deadline : option Z) (k : K)
    : result CibaAtomicResult ErrorKind * K :=
  let state := persisted auth_req_id state in
  match to_string state with
  | None => (Err Protocol, k)
  | Some raw =>
      eval_parse parse_atomic tr
        (SET_NX_DEADLINE_SCRIPT (state_key namespace (ciba_from_hash (digest auth_req_id))) raw
           state.(cs_retention_expires_at) authorization_deadline) k
  end.

Definition load_request (tr : transport) (auth_req_id : string) (k : K)
    : result (option (CibaStoredRequest CibaStateVersion)) ErrorKind * K :=
  let '(snapshot, k') :=
    eval tr (SNAPSHOT_SCRIPT (state_key namespace (ciba_from_hash (digest auth_req_id)))) k in
  (let? snapshot := snapshot in
   match snapshot with
   | None => Ok None
   | Some (raw, deadline) =>
       let? value := ok_or (from_str raw) Protocol in
       if negb (value.(cs_retention_expires_at) =? deadline) then Err Protocol
       else Ok (Some {| sr_state := value;
                        sr_version := {| cv_comparison_token := raw; cv_retention_expires_at := deadline |} |})
   end, k').

Definition replace_with_authorization_deadline (tr : transport) (auth_req_id : string)
    (expected : CibaStateVersion) (replacement : CibaRequestState) (authorization_deadline : option Z)
    (k : K) : result CibaAtomicResult ErrorKind * K :=
  if negb (replacement.(cs_retention_expires_at) =? expected.(cv_retention_expires_at))
  then (Err Protocol, k)
  else match to_string replacement with
  | None => (Err Protocol, k)
  | Some raw =>
      let auth_req_id_hash := digest auth_req_id in
      eval_parse parse_atomic tr
        (COMPARE_SET_DEADLINE_SCRIPT (state_key namespace (ciba_from_hash auth_req_id_hash))
           (state_key namespace ciba_ping_queue) expected.(cv_comparison_token) raw
           expected.(cv_retention_expires_at) auth_req_id_hash (due_at replacement)
           authorization_deadline) k
  end.

Definition delete_with_authorization_deadline (tr : transport) (auth_req_id : string)
    (expected : CibaStateVersion) (authorization_deadline : option Z) (k : K)
    : result CibaAtomicResult ErrorKind * K :=
  let auth_req_id_hash := digest auth_req_id in
  eval_parse parse_atomic tr
    (COMPARE_DELETE_DEADLINE_SCRIPT (state_key namespace (ciba_from_hash auth_req_id_hash))
       (state_key namespace ciba_ping_queue) expected.(cv_comparison_token)
       expected.(cv_retention_expires_at) auth_req_id_hash authorization_deadline) k.

(** [CibaStateStorePort for CibaStore]; the clock and the generator are not the store's. *)
Definition ciba_handle (tr : transport) (X : Type) (e : cibaE CibaStateVersion X) (k : K)
    : option (X * K) :=
  let ported {R} (r : result R ErrorKind * K) := Some (map_err ciba_port_error r.1, r.2) in
  match e in cibaE _ X return option (X * K) with
  | CibaLoad id => ported (load_request tr id k)
  | CibaCreate id state deadline => ported (create_with_authorization_deadline tr id state deadline k)
  | CibaReplace id version state deadline =>
      ported (replace_with_authorization_deadline tr id version state deadline k)
  | CibaDelete id version deadline => ported (delete_with_authorization_deadline tr id version deadline k)
  | CibaNow | CibaGenerateId => None
  end.
End store.
