(* ===== verification/ValkeyCibaFacts.v ===== *)
(** * The Valkey store of backchannel requests implements its port

    [ciba_refines] relates a server to the store of [CibaGrantFacts]: an entry is
    a version, its text with its deadline.  Every call of the adapter with a
    version the store has issued is a step of that store, and the services only
    use such versions, so their guarantees hold over Valkey. *)
From stdpp Require Import base list strings gmap relations.
From S2P Require Import Prelude Chrono Effects Text ExampleCodec Valkey ValkeyDevice.
From S2P Require Import CibaGrant CibaGrantFacts ValkeyCiba.

Local Open Scope string_scope.
Local Open Scope rust_scope.
Local Open Scope Z_scope.

Section facts.
Context {K : Type} `{!Valkey K}.
Context (digest : string → string) (to_string : CibaRequestState → option string).
Context (from_str : string → option CibaRequestState).
Context (namespace : string).
Notation V := CibaStateVersion.
Notation W := (gmap string V).

Definition ciba_key (h : string) : string := state_key namespace (ciba_from_hash h).

Definition ciba_encode (s : CibaRequestState) : V :=
  {| cv_comparison_token := unwrap_or (to_string s) "";
     cv_retention_expires_at := s.(cs_retention_expires_at) |}.

Definition ciba_decode (v : V) : option CibaRequestState :=
  s ← from_str v.(cv_comparison_token);
  if s.(cs_retention_expires_at) =? v.(cv_retention_expires_at) then Some s else None.

(** The entry under a hash; the queue is no entry. *)
Definition entry (k : K) (h : string) : option V :=
  if decide (h = "ping:due") then None
  else (fun raw => {| cv_comparison_token := raw;
                      cv_retention_expires_at := vk_expiretime k (ciba_key h) |}) <$>
         vk_get k (ciba_key h).

(** A text that decodes is kept to the deadline it says, which Lua's numbers hold. *)
Definition coherent (v : V) : Prop :=
  ∀ s, from_str v.(cv_comparison_token) = Some s →
    s.(cs_retention_expires_at) = v.(cv_retention_expires_at) ∧
    Z.abs s.(cs_retention_expires_at) ≤ 2 ^ 53.

Definition ciba_refines (w : W) (k : K) : Prop :=
  (∀ h, w !! h = entry k h) ∧ ∀ h v, w !! h = Some v → coherent v.

(** Time and the other clients of the server: entries go, and the delivery worker
    moves notifications. *)
Definition background (k k' : K) : Prop :=
  ∀ h, match entry k' h with
       | None => True
       | Some v' => ∃ v, entry k h = Some v ∧
           (v' = v ∨ ∃ s s', ciba_decode v = Some s ∧ ciba_decode v' = Some s' ∧ ping_moves s s')
       end.

(** The services over Valkey. *)
Definition valkey_ciba_step (X : Type) (e : cibaE V X) (k : K) : X → K → Prop :=
  match e in cibaE _ X return X → K → Prop with
  | CibaNow => fun now k' => in_i64 now ∧ background k k'
  | CibaGenerateId => fun id k' => id ≠ "" ∧ background k k'
  | e => fun x k' => ∃ tr k1,
      ciba_handle digest to_string from_str namespace tr _ e k = Some (x, k1) ∧ background k1 k'
  end.

(** What the services do with versions and deadlines. *)
Definition call_rules (X : Type) (e : cibaE V X) : Prop :=
  match e with
  | CibaCreate _ state _ => Z.abs state.(cs_retention_expires_at) ≤ 2 ^ 53
  | CibaReplace _ version _ _ | CibaDelete _ version _ => is_Some (ciba_decode version)
  | _ => True
  end.

Definition reply_rules (X : Type) (e : cibaE V X) : X → Prop :=
  match e in cibaE _ X return X → Prop with
  | CibaLoad _ => fun x => ∀ stored, x = Ok (Some stored) → is_Some (ciba_decode stored.(sr_version))
  | _ => fun _ => True
  end.

(** What a script does to the store: its reply with the effect the port promises,
    or an error. *)
Definition ciba_script_ok {Q A} (w : W) (op : A → W → Prop) (parse : Q → result A ErrorKind)
    (rk : result Q FredErrorKind * K) : Prop :=
  ∃ w1, ciba_refines w1 rk.2 ∧
    match rk.1 with
    | Ok r => match parse r with Ok a => op a w1 | Err _ => w1 = w end
    | Err _ => w1 = w ∨ ∃ a, op a w1
    end.

Context `{!ValkeyLaws K}.
(** serde_json: what is written reads back, where it reads back at all. *)
Context (codec : ∀ s s' raw, to_string s = Some raw → from_str raw = Some s' → s' = s).
(** blake3's hexadecimal digits. *)
Context (digest_hex : ∀ id, digest id ≠ "ping:due").

Notation drift := (drifts ciba_decode).
Notation step := (ciba_step digest ciba_encode ciba_decode).

Lemma ciba_key_inj h h' : ciba_key h = ciba_key h' → h = h'.
Proof. by intros H%(inj (String.append _))%(inj (String.append _)). Qed.

Lemma queue_key h : h ≠ "ping:due" → state_key namespace ciba_ping_queue ≠ ciba_key h.
Proof. intros Hh H. apply Hh. symmetry. by apply ciba_key_inj. Qed.

(** The store after a change of one entry, the queue left aside. *)
Lemma refines_entry (w : W) k k' h o :
  ciba_refines w k → h ≠ "ping:due" →
  (∀ h', h' ≠ "ping:due" → h' ≠ h → vk_get k' (ciba_key h') = vk_get k (ciba_key h') ∧
     vk_pexpiretime k' (ciba_key h') = vk_pexpiretime k (ciba_key h')) →
  entry k' h = o → (∀ v, o = Some v → coherent v) →
  ciba_refines (partial_alter (fun _ => o) h w) k'.
Proof.
  intros [Hw Hc] Hq Hk Ho Hco. split.
  - intros h'. destruct (decide (h' = h)) as [->|Hne]; [by rewrite lookup_partial_alter_eq|].
    rewrite lookup_partial_alter_ne, Hw by done. unfold entry. case_decide as Hd; [done|].
    unfold vk_expiretime. by destruct (Hk h' Hd Hne) as [-> ->].
  - intros h' v. destruct (decide (h' = h)) as [->|Hne].
    + rewrite lookup_partial_alter_eq. apply Hco.
    + rewrite lookup_partial_alter_ne by done. apply Hc.
Qed.
Lemma refines_background (w : W) k k' :
  ciba_refines w k → background k k' → ∃ w', ciba_refines w' k' ∧ drift w w'.
Proof.
  intros [Hw Hc] Hb. exists (map_imap (fun h _ => entry k' h) w).
  assert (∀ h, map_imap (fun h _ => entry k' h) w !! h = entry k' h) as Hl.
  { intros h. rewrite map_lookup_imap, Hw. specialize (Hb h).
    destruct (entry k' h) as [v'|]; [destruct Hb as (v & -> & _); done|by destruct (entry k h)]. }
  split; [split; [exact Hl|]|].
  - intros h v'. rewrite Hl. intros He. specialize (Hb h). rewrite He in Hb.
    destruct Hb as (v & Hv & [->|(s & s' & Hs & Hs' & n & n' & _ & _ & ->)]);
      [apply (Hc h); by rewrite Hw|].
    intros s'' Hf. unfold ciba_decode in Hs, Hs'. rewrite Hf in Hs'. simpl in Hs'.
    case_match eqn:Hr; simplify_eq. boolify. split; [done|]. simpl.
    destruct (from_str (cv_comparison_token v)) as [s0|] eqn:Hf0; simpl in Hs; [|done].
    case_match; simplify_eq. apply (Hc h v); [by rewrite Hw|done].
  - intros h. rewrite Hl. specialize (Hb h). destruct (entry k' h) as [v'|]; [|done].
    destruct Hb as (v & Hv & Hm). exists v. by rewrite Hw.
Qed.

(** Writing an entry with a deadline in the future. *)
Lemma write_entry k h raw d :
  h ≠ "ping:due" → vk_time_ms k < d * 1000 →
  let k' := vk_pexpireat (ciba_key h) (d * 1000) (vk_set (ciba_key h) raw k) in
  entry k' h = Some {| cv_comparison_token := raw; cv_retention_expires_at := d |} ∧
  ∀ h', h' ≠ "ping:due" → h' ≠ h → vk_get k' (ciba_key h') = vk_get k (ciba_key h') ∧
     vk_pexpiretime k' (ciba_key h') = vk_pexpiretime k (ciba_key h').
Proof.
  intros Hq Ht. pose proof (vk_time_nonneg k). simpl. split.
  - unfold entry. rewrite decide_False by done.
    rewrite vk_get_pexpireat, vk_get_set, decide_True by (rewrite ?vk_time_set; done). simpl.
    unfold vk_expiretime. rewrite vk_expiry_pexpireat.
    + rewrite (proj2 (Z.ltb_ge _ _)) by lia. do 2 f_equal.
      rewrite Z.div_add_l by done. rewrite Z.div_small by done. lia.
    + by rewrite vk_time_set.
    + rewrite vk_get_set, decide_True by done. by eexists.
  - intros h' _ Hne. assert (ciba_key h ≠ ciba_key h') as Hk by (intros E; by apply ciba_key_inj in E).
    rewrite vk_get_pexpireat, vk_get_set, decide_False by (rewrite ?vk_time_set; done).
    rewrite vk_expiry_pexpireat_other, vk_expiry_set_other by done. done.
Qed.

Lemma same_entry k k' h : (vk_get k' (ciba_key h) = vk_get k (ciba_key h) ∧
  vk_pexpiretime k' (ciba_key h) = vk_pexpiretime k (ciba_key h)) → entry k' h = entry k h.
Proof. intros [Hg He]. unfold entry, vk_expiretime. by rewrite Hg, He. Qed.

Definition entries_kept (k k' : K) : Prop := ∀ h, h ≠ "ping:due" →
  vk_get k' (ciba_key h) = vk_get k (ciba_key h) ∧
  vk_pexpiretime k' (ciba_key h) = vk_pexpiretime k (ciba_key h).

Lemma zrem_kept k member : entries_kept k (vk_zrem (state_key namespace ciba_ping_queue) member k).
Proof. intros h Hh. rewrite vk_get_zrem, vk_expiry_zrem by (by apply queue_key). done. Qed.

Lemma zadd_kept k score member :
  entries_kept k (vk_zadd (state_key namespace ciba_ping_queue) score member k).
Proof. intros h Hh. rewrite vk_get_zadd, vk_expiry_zadd by (by apply queue_key). done. Qed.

Lemma refines_kept w k k' : ciba_refines w k → entries_kept k k' → ciba_refines w k'.
Proof.
  intros [Hw Hc] Hk. split; [|done]. intros h. rewrite Hw.
  destruct (decide (h = "ping:due")) as [->|Hh]; [done|]. symmetry. by apply same_entry, Hk.
Qed.

Lemma write_refines w k h raw s d : ciba_refines w k → h ≠ "ping:due" → vk_time_ms k < d * 1000 →
  to_string s = Some raw → s.(cs_retention_expires_at) = d → Z.abs d ≤ 2 ^ 53 →
  ciba_refines (<[h := ciba_encode s]> w)
    (vk_pexpireat (ciba_key h) (d * 1000) (vk_set (ciba_key h) raw k)).
Proof.
  intros Hw Hh Ht Hs Hd Hb. destruct (write_entry k h raw d Hh Ht) as [He Hk].
  assert (ciba_encode s = {| cv_comparison_token := raw; cv_retention_expires_at := d |}) as Henc.
  { unfold ciba_encode. by rewrite Hs, Hd. }
  rewrite Henc. eapply (refines_entry _ _ _ _ (Some _)); try done.
  intros v [= <-] s' Hf. simpl in Hf. rewrite (codec _ _ _ Hs Hf), Hd. done.
Qed.

Lemma delete_refines w k h member : ciba_refines w k → h ≠ "ping:due" →
  ciba_refines (delete h w)
    (vk_zrem (state_key namespace ciba_ping_queue) member (vk_del (ciba_key h) k)).
Proof.
  intros Hw Hh. eapply refines_kept; [|apply zrem_kept].
  eapply (refines_entry _ _ _ _ None); try done.
  - intros h' _ Hne. assert (ciba_key h ≠ ciba_key h') as Hk by (intros E; by apply ciba_key_inj in E).
    rewrite vk_get_del, decide_False, vk_expiry_del_other by done. done.
  - unfold entry. rewrite decide_False, vk_get_del, decide_True by done. done.
Qed.
Lemma script_kept {Q A} w (op : A → W → Prop) (parse : Q → result A ErrorKind) k r :
  ciba_refines w k → match parse r with Ok a => op a w | Err _ => True end →
  ciba_script_ok w op parse (Ok r, k).
Proof. intros Hw Hr. exists w. split; [done|]. simpl. by destruct (parse r). Qed.

Lemma exact_expiry d : Z.abs d ≤ 2 ^ 53 → in_range I64_MIN I64_MAX (d * 1000) = true.
Proof. intros H. unfold in_range, I64_MIN, I64_MAX. apply andb_true_iff. rewrite !Z.leb_le. lia. Qed.

(** The version of an entry with a given text is the one that decodes. *)
Lemma issued_version w k h v s : ciba_refines w k → h ≠ "ping:due" → ciba_decode v = Some s →
  vk_get k (ciba_key h) = Some v.(cv_comparison_token) →
  w !! h = Some v ∧ Z.abs v.(cv_retention_expires_at) ≤ 2 ^ 53.
Proof.
  intros [Hw Hc] Hh Hd Hg. specialize (Hw h). unfold entry in Hw. rewrite decide_False, Hg in Hw by done.
  simpl in Hw. unfold ciba_decode in Hd.
  destruct (from_str (cv_comparison_token v)) as [s'|] eqn:Hf; simpl in Hd; [|done].
  case_match eqn:Hr; simplify_eq. boolify.
  destruct (Hc _ _ Hw s Hf) as [He Hb]. simpl in He. rewrite Hw, <-He, Hr.
  split; [by destruct v|by rewrite <-Hr].
Qed.

Lemma set_nx_ok w k h st raw ret dl : ciba_refines w k → h ≠ "ping:due" → to_string st = Some raw →
  st.(cs_retention_expires_at) = ret → Z.abs ret ≤ 2 ^ 53 →
  ciba_script_ok w (fun a w' =>
      match a with
      | CibaApplied => w !! h = None ∧ w' = <[h := ciba_encode st]> w
      | _ => drift w w'
      end) parse_atomic (SET_NX_DEADLINE_SCRIPT (ciba_key h) raw ret dl k).
Proof.
  intros Hw Hh Hraw Hret Hb. unfold SET_NX_DEADLINE_SCRIPT, then_expireat.
  destruct (elapsed _ _); [apply script_kept; [done|apply drifts_refl]|].
  rewrite (tonumber_exact _ Hb), (exact_expiry _ Hb).
  destruct (Z.leb_spec ret (tonumber (vk_time k))) as [|Hlt];
    [apply script_kept; [done|apply drifts_refl]|].
  apply before_deadline in Hlt; [|done]. unfold vk_exists.
  destruct (vk_get k (ciba_key h)) as [raw'|] eqn:Hg; simpl;
    [apply script_kept; [done|apply drifts_refl]|].
  rewrite vk_get_pexpireat, vk_get_set, decide_True by (rewrite ?vk_time_set; done). simpl.
  exists (<[h := ciba_encode st]> w). split; [by apply write_refines|]. simpl. split; [|done].
  rewrite (proj1 Hw). unfold entry. rewrite decide_False, Hg by done. done.
Qed.

Lemma drop_elapsed_ok w k h v s (op : CibaAtomicResult → W → Prop) : ciba_refines w k → h ≠ "ping:due" →
  ciba_decode v = Some s → (∀ w', drift w w' → op CibaDeadlineElapsed w') →
  ciba_script_ok w op parse_atomic
    (drop_elapsed (ciba_key h) (state_key namespace ciba_ping_queue) v.(cv_comparison_token) h k).
Proof.
  intros Hw Hh Hv Hop. unfold drop_elapsed. destruct (bool_decide _) eqn:Hg.
  - exists (delete h w). split; [by apply delete_refines|]. simpl. apply Hop. intros h'.
    destruct (decide (h = h')) as [->|Hne]; [by rewrite lookup_delete_eq|].
    rewrite lookup_delete_ne by done. destruct (w !! h') as [v'|]; [|done]. eauto.
  - apply script_kept; [done|]. simpl. apply Hop, drifts_refl.
Qed.

Lemma ciba_compare_set_ok w k h v s next raw dl : ciba_refines w k → h ≠ "ping:due" →
  ciba_decode v = Some s → to_string next = Some raw →
  next.(cs_retention_expires_at) = v.(cv_retention_expires_at) →
  ciba_script_ok w (fun a w' =>
      match a with
      | CibaApplied => w !! h = Some v ∧ w' = <[h := ciba_encode next]> w
      | _ => drift w w'
      end) parse_atomic
    (COMPARE_SET_DEADLINE_SCRIPT (ciba_key h) (state_key namespace ciba_ping_queue)
       v.(cv_comparison_token) raw v.(cv_retention_expires_at) h (due_at next) dl k).
Proof.
  intros Hw Hh Hv Hraw Hret. unfold COMPARE_SET_DEADLINE_SCRIPT, then_expireat.
  destruct (elapsed _ _); [apply script_kept; [done|apply drifts_refl]|].
  destruct (Z.leb_spec (tonumber (cv_retention_expires_at v)) (tonumber (vk_time k))) as [|Hlt];
    [by eapply drop_elapsed_ok|].
  destruct (bool_decide _) eqn:Hg; simpl; [boolify|apply script_kept; [done|apply drifts_refl]].
  destruct (issued_version _ _ _ _ _ Hw Hh Hv Hg) as [Hwh Hb].
  rewrite (tonumber_exact _ Hb) in Hlt |- *. rewrite (exact_expiry _ Hb).
  apply before_deadline in Hlt; [|done]. unfold vk_exists.
  rewrite vk_get_pexpireat, vk_get_set, decide_True by (rewrite ?vk_time_set; done). simpl.
  pose proof (write_refines w k h raw next _ Hw Hh Hlt Hraw Hret Hb) as Hw'.
  exists (<[h := ciba_encode next]> w).
  destruct (due_at next); (split; [eapply refines_kept; [exact Hw'|]|by simpl]);
    [apply zadd_kept|apply zrem_kept].
Qed.

Lemma ciba_compare_delete_ok w k h v s dl : ciba_refines w k → h ≠ "ping:due" → ciba_decode v = Some s →
  ciba_script_ok w (fun a w' =>
      match a with
      | CibaApplied => w !! h = Some v ∧ w' = delete h w
      | _ => drift w w'
      end) parse_atomic
    (COMPARE_DELETE_DEADLINE_SCRIPT (ciba_key h) (state_key namespace ciba_ping_queue)
       v.(cv_comparison_token) v.(cv_retention_expires_at) h dl k).
Proof.
  intros Hw Hh Hv. unfold COMPARE_DELETE_DEADLINE_SCRIPT.
  destruct (elapsed _ _); [apply script_kept; [done|apply drifts_refl]|].
  destruct (Z.leb _ _); [by eapply drop_elapsed_ok|].
  destruct (bool_decide _) eqn:Hg; simpl; [boolify|apply script_kept; [done|apply drifts_refl]].
  destruct (issued_version _ _ _ _ _ Hw Hh Hv Hg) as [Hwh _].
  exists (delete h w). split; [by apply delete_refines|done].
Qed.

Lemma eval_parse_Ok {Q A} (parse : Q → result A ErrorKind) tr (s : script K Q) k a :
  (eval_parse parse tr s k).1 = Ok a → ∃ r, parse r = Ok a.
Proof.
  unfold eval_parse, eval. destruct tr as [[? ?]|]; simpl; [done|].
  destruct (s k) as [[r|] ?]; simpl; [eauto|done].
Qed.

(** A call of the adapter: its script, the connection and the background. *)
Lemma ciba_eval_outcome {Q A} w (op : A → W → Prop) (parse : Q → result A ErrorKind) tr
    (s : script K Q) k k' :
  ciba_refines w k → ciba_script_ok w op parse (s k) → background (eval_parse parse tr s k).2 k' →
  ∃ w', ciba_refines w' k' ∧
    outcome ciba_decode w op (map_err ciba_port_error (eval_parse parse tr s k).1) w'.
Proof.
  intros Hw (w1 & H1 & Hr) Hb.
  assert (∃ w0, ciba_refines w0 (eval_parse parse tr s k).2 ∧
    ((∃ a, map_err ciba_port_error (eval_parse parse tr s k).1 = Ok a ∧ op a w0) ∨
     (∃ e, map_err ciba_port_error (eval_parse parse tr s k).1 = Err e ∧ (w0 = w ∨ ∃ a, op a w0))))
    as (w0 & H0 & Ho).
  { unfold eval_parse, eval. destruct tr as [[e []]|].
    - exists w1. split; [done|]. right. eexists. split; [done|].
      destruct (s k).1 as [r|]; [|done]. destruct (parse r); eauto.
    - exists w. split; [done|]. right. eauto.
    - exists w1. destruct (s k) as [[r|e] k1]; simpl in *; (split; [done|]).
      + destruct (parse r); [left|right]; eauto.
      + right; eauto. }
  destruct (refines_background _ _ _ H0 Hb) as (w' & Hw' & Hd). exists w'. split; [done|].
  exists w0. by split.
Qed.

Lemma refused_outcome {A} w (op : A → W → Prop) k k' e :
  ciba_refines w k → background k k' →
  ∃ w', ciba_refines w' k' ∧ outcome ciba_decode w op (Err e : result A CibaStatePortError) w'.
Proof.
  intros Hw Hb. destruct (refines_background _ _ _ Hw Hb) as (w' & Hw' & Hd).
  exists w'. split; [done|]. exists w. split; [done|]. right. eauto.
Qed.
Definition parse_snapshot (snapshot : option (string * Z))
    : result (option (CibaStoredRequest V)) ErrorKind :=
  match snapshot with
  | None => Ok None
  | Some (raw, deadline) =>
      let? value := ok_or (from_str raw) Protocol in
      if negb (value.(cs_retention_expires_at) =? deadline) then Err Protocol
      else Ok (Some {| sr_state := value;
                       sr_version := {| cv_comparison_token := raw; cv_retention_expires_at := deadline |} |})
  end.

Lemma parse_snapshot_decodes snapshot stored : parse_snapshot snapshot = Ok (Some stored) →
  snapshot = Some (stored.(sr_version).(cv_comparison_token), stored.(sr_version).(cv_retention_expires_at)) ∧
  ciba_decode stored.(sr_version) = Some stored.(sr_state).
Proof.
  destruct snapshot as [[raw d]|]; simpl; [|done].
  destruct (from_str raw) as [s|] eqn:Hf; simpl; [|done]. case_match eqn:Hr; [done|]. intros [= <-].
  boolify. split; [done|]. unfold ciba_decode; simpl. rewrite Hf; simpl. by rewrite (proj2 (Z.eqb_eq _ _)).
Qed.

Lemma snapshot_ok w k h : ciba_refines w k → h ≠ "ping:due" →
  ciba_script_ok w (fun a w' => w' = w ∧
      match a with
      | None => w !! h = None
      | Some s => w !! h = Some s.(sr_version) ∧ ciba_decode s.(sr_version) = Some s.(sr_state)
      end) parse_snapshot (SNAPSHOT_SCRIPT (ciba_key h) k).
Proof.
  intros Hw Hh. unfold SNAPSHOT_SCRIPT. pose proof (proj1 Hw h) as He. unfold entry in He.
  rewrite decide_False in He by done.
  destruct (vk_get k (ciba_key h)) as [raw|] eqn:Hg; simpl in He.
  - apply script_kept; [done|].
    destruct (parse_snapshot _) as [[stored|]|] eqn:Hp; [| |done].
    + apply parse_snapshot_decodes in Hp as [Hs Hd]. split; [done|]. split; [|done].
      rewrite He. injection Hs as -> ->. by destruct (sr_version stored).
    + simpl in Hp. destruct (from_str raw); simpl in Hp; [|done]. by case_match.
  - by apply script_kept.
Qed.

(** Every call of the adapter that keeps to the rules is a step of the store. *)
Lemma valkey_ciba_simulated X (e : cibaE V X) w k x k' :
  ciba_refines w k → call_rules X e → valkey_ciba_step X e k x k' →
  reply_rules X e x ∧ ∃ w', ciba_refines w' k' ∧ step X e w x w'.
Proof.
  intros Hw Hrule. destruct e; simpl.
  - intros (tr & k1 & [= <- <-] & Hb).
    change (load_request digest from_str namespace tr auth_req_id k) with
      (eval_parse parse_snapshot tr (SNAPSHOT_SCRIPT (ciba_key (digest auth_req_id))) k) in *.
    split; [|by eapply ciba_eval_outcome; [done|apply snapshot_ok|]].
    intros stored [snapshot [_ ->]%parse_snapshot_decodes]%map_err_Ok%eval_parse_Ok. by eexists.
  - intros (tr & k1 & [= <- <-] & Hb). split; [done|]. revert Hb.
    unfold create_with_authorization_deadline.
    destruct (to_string (persisted auth_req_id state)) as [raw|] eqn:Hr; simpl; intros Hb;
      [|by eapply refused_outcome].
    eapply ciba_eval_outcome; [done| |done]. by apply set_nx_ok.
  - intros (tr & k1 & [= <- <-] & Hb). split; [done|]. revert Hb. destruct Hrule as [s Hv].
    unfold replace_with_authorization_deadline.
    destruct (Z.eqb_spec (cs_retention_expires_at state) (cv_retention_expires_at version)); simpl;
      intros Hb; [|by eapply refused_outcome].
    destruct (to_string state) as [raw|] eqn:Hr; simpl in *; [|by eapply refused_outcome].
    eapply ciba_eval_outcome; [done| |done]. by eapply ciba_compare_set_ok.
  - intros (tr & k1 & [= <- <-] & Hb). split; [done|]. destruct Hrule as [s Hv].
    eapply ciba_eval_outcome; [done| |done]. by eapply ciba_compare_delete_ok.
  - intros [? Hb]. split; [done|]. destruct (refines_background _ _ _ Hw Hb) as (w' & ? & ?). eauto.
  - intros [? Hb]. split; [done|]. destruct (refines_background _ _ _ Hw Hb) as (w' & ? & ?). eauto.
Qed.
(** ** The services keep to the rules *)

Notation keeps_rules := (obeys call_rules reply_rules).
Definition issued (stored : CibaStoredRequest V) : Prop := is_Some (ciba_decode stored.(sr_version)).

Lemma load_obeys id :
  keeps_rules (fun r => ∀ stored, r = Ok (Some stored) → issued stored) (load id).
Proof.
  split; [done|]. intros x Hx. simpl. destruct x as [[stored|]|]; simpl; try done.
  intros stored'. unfold validate_stored_request. destruct (validate_stored_state _); simpl; [|done].
  intros [= <-]. by apply Hx.
Qed.

Lemma create_obeys n state dl : Z.abs state.(cs_retention_expires_at) ≤ 2 ^ 53 →
  keeps_rules (fun _ => True) (create_loop n state dl).
Proof.
  intros Hb. induction n as [|n IH]; [done|]. split; [done|]. intros id _. split; [done|].
  intros x _. by destruct x as [[]|].
Qed.

Lemma commit_obeys n first id stored decision user dl : issued stored →
  keeps_rules (fun _ => True) (commit_loop n first id stored decision user dl).
Proof.
  intros Hi. revert first. induction n as [|n IH]; intros first; [done|].
  cbn [commit_loop].
  apply obeys_bind.
  apply (obeys_mono _ _ (fun r => ∀ current, r = Ok current → issued current)).
  - unfold current_snapshot. destruct first; [by intros ? [= <-]|].
    apply obeys_bind. eapply obeys_mono; [apply load_obeys|]. intros r Hr current.
    destruct r as [[refreshed|]|]; simpl; try done. case_match; [done|]. intros [= <-]. by apply Hr.
  - intros [current|] Hc; [|done]. specialize (Hc _ eq_refl). split; [done|]. intros now _. simpl.
    destruct (evaluate_ciba_decision _ _ _ _); try done; (split; [done|]);
      intros x _; by destruct x as [[]|]; simpl.
Qed.

Lemma poll_write_obeys (e : cibaE V (result CibaAtomicResult CibaStatePortError)) commit retry :
  call_rules _ e → keeps_rules (fun _ => True) retry →
  keeps_rules (fun _ => True) (poll_write e commit retry).
Proof. intros He Hr. split; [done|]. intros x _. by destruct x as [[]|]. Qed.

Lemma poll_obeys n first id client stored dl : issued stored →
  keeps_rules (fun _ => True) (poll_loop n first id client stored dl).
Proof.
  revert first stored. induction n as [|n IH]; intros first stored Hi; [done|].
  cbn [poll_loop]. apply obeys_bind.
  apply (obeys_mono _ _ (fun r => ∀ current, r = Ok current → issued current)).
  - destruct first; [by intros ? [= <-]|].
    apply obeys_bind. eapply obeys_mono; [apply load_obeys|]. intros r Hr current.
    destruct r as [[refreshed|]|]; simpl; try done. intros [= <-]. by apply Hr.
  - intros [current|] Hc; [|done]. specialize (Hc _ eq_refl). case_match; [done|].
    split; [done|]. intros now _. cbn [bind call].
    destruct (evaluate_ciba_poll _ _); try (apply poll_write_obeys; [done|by apply IH]).
    destruct dl; [|done]. apply poll_write_obeys; [done|by apply IH].
Qed.

(** A new request's retention deadline is one Lua's numbers hold. *)
Definition retained (t : task) : Prop :=
  match t with
  | TCreate state _ => Z.abs state.(cs_retention_expires_at) ≤ 2 ^ 53
  | _ => True
  end.

Lemma task_obeys t : retained t → keeps_rules (fun _ => True) (task_prog t).
Proof.
  destruct t as [state dl|id decision user dl|id client dl]; intros Ht; cbn [task_prog]; apply obeys_bind.
  - unfold create_unique_with_authorization_deadline.
    destruct (validate_new_state state); [|done].
    eapply obeys_mono; [by apply create_obeys|done].
  - unfold decide_with_authorization_deadline, prepare_decision. apply obeys_bind, obeys_bind.
    eapply obeys_mono; [apply load_obeys|]. intros r Hr. destruct r as [[stored|]|]; [|done|done].
    refine (obeys_mono _ _ _ _ _ (commit_obeys CIBA_TRANSITION_MAX_ATTEMPTS true id stored decision user dl _) _);
      [by apply Hr|done].
  - eapply obeys_mono; [apply load_obeys|]. intros r Hr. destruct r as [[stored|]|]; [|done|done].
    apply obeys_bind. unfold poll_with_authorization_deadline.
    unfold validate_stored_request. destruct (validate_stored_state _); cbn [map_err]; [|done].
    eapply obeys_mono; [by apply poll_obeys, Hr|done].
Qed.

(** Interleavings over Valkey are interleavings over the store. *)
Lemma valkey_ciba_pool ts w k c' : Forall retained ts → ciba_refines w k →
  pool_steps (fun _ => valkey_ciba_step) (task_prog <$> ts, k) c' →
  ∃ w', ciba_refines w' c'.2 ∧ pool_steps (fun _ => step) (task_prog <$> ts, w) (c'.1, w').
Proof.
  intros Hts Hw Hs. eapply (pool_simulation_obeys ciba_refines call_rules reply_rules); [| |done|done].
  - intros ? ? ? ? ? ? ?. apply valkey_ciba_simulated.
  - apply Forall_fmap. eapply Forall_impl; [done|]. apply task_obeys.
Qed.
End facts.

(** ** Properties *)

(** C23: the Valkey store of backchannel requests implements its port, so the
    guarantees of the services hold over Valkey.  Requests, decisions and polls run
    in any interleaving over a server, commands fail or lose their replies, entries
    expire and the delivery worker moves notifications.  Every such run is a run
    over the abstract compare-and-set store, whose state is the server's; each
    stored request that decodes passes the shape check; and a poll that returns an
    approved request rests on the approval of that request by its user, with the
    authentication it returns.  New requests have a retention deadline that Lua's
    numbers hold. *)
Theorem valkey_ciba_flow {K} `{!Valkey K, !ValkeyLaws K} digest to_string from_str namespace
    (ts : list task) w (k : K) c' :
  (∀ s s' raw, to_string s = Some raw → from_str raw = Some s' → s' = s) →
  (∀ s, ciba_wf s → ∃ raw, to_string s = Some raw ∧ from_str raw = Some s) →
  (∀ id, digest id ≠ "ping:due") →
  Forall task_wf ts → Forall retained ts →
  ciba_refines from_str namespace w k → ciba_inv digest (ciba_decode from_str) ts w →
  pool_steps (fun _ => valkey_ciba_step digest to_string from_str namespace) (task_prog <$> ts, k) c' →
  (∃ w', ciba_refines from_str namespace w' c'.2 ∧ ciba_inv digest (ciba_decode from_str) ts w' ∧
     pool_steps (fun _ => ciba_step digest (ciba_encode to_string) (ciba_decode from_str))
       (task_prog <$> ts, w) (c'.1, w')) ∧
  ∀ i id client deadline s,
    ts !! i = Some (TPoll id client deadline) →
    c'.1 !! i = Some (Ret (RPoll (Ok (CommittedApproved s)))) →
    s.(cs_client_id) = client ∧ s.(cs_status) = CibaApproved ∧ approved_by digest ts (digest id) s ∧
    ∃ context, s.(cs_authentication_context) = Some context ∧
      valid_authentication_context context = true.
Proof.
  intros Hc Hrt Hd Hts Hret Hw Hi Hs.
  assert (∀ s, ciba_wf s → ciba_decode from_str (ciba_encode to_string s) = Some s) as Henc.
  { intros s (raw & Hr & Hf)%Hrt. unfold ciba_decode, ciba_encode. rewrite Hr. simpl. rewrite Hf. simpl.
    by rewrite Z.eqb_refl. }
  destruct (valkey_ciba_pool digest to_string from_str namespace Hc Hd ts w k c' Hret Hw Hs)
    as (w' & Hw' & Hp).
  destruct (ciba_pool_inv _ _ _ Henc _ _ _ Hts Hi Hp) as [Hok Hinv].
  split; [by exists w'|]. intros i id client dl s Ht Hr.
  apply (Hok i _ Hr _ (PreOrder_Reflexive _) _ Ht).
Qed.

(** ** An example *)
Module valkey_example.

#[export] Instance context_countable : Countable CibaAuthenticationContext.
Proof.
  refine (inj_countable' (fun c => (c.(cc_auth_time), c.(cc_amr), c.(cc_oidc_sid)))
    (fun '(t, amr, sid) => {| cc_auth_time := t; cc_amr := amr; cc_oidc_sid := sid |}) _).
  by intros [].
Defined.

#[export] Instance ping_status_countable : Countable CibaPingNotificationStatus.
Proof.
  refine (inj_countable' (fun s => match s with PingAwaitingDecision => 0 | PingPending => 1
    | PingDelivered => 2 | PingFailed => 3 end)%nat
    (fun n => match n with O => PingAwaitingDecision | 1 => PingPending | 2 => PingDelivered
    | _ => PingFailed end)%nat _).
  by intros [].
Defined.

#[export] Instance status_countable : Countable CibaStatus.
Proof.
  refine (inj_countable' (fun s => match s with CibaPending => 0 | CibaApproved => 1 | CibaDenied => 2 end)%nat
    (fun n => match n with O => CibaPending | 1 => CibaApproved | _ => CibaDenied end)%nat _).
  by intros [].
Defined.

#[export] Instance notification_countable : Countable CibaPingNotification.
Proof.
  refine (inj_countable' (fun n => (n.(pn_auth_req_id), n.(pn_endpoint), n.(pn_client_notification_token),
      n.(pn_status), n.(pn_attempts), n.(pn_next_attempt_at)))
    (fun '(id, endpoint, token, status, attempts, next) =>
      {| pn_auth_req_id := id; pn_endpoint := endpoint; pn_client_notification_token := token;
         pn_status := status; pn_attempts := attempts; pn_next_attempt_at := next |}) _).
  by intros [].
Defined.

#[export] Instance request_countable : Countable CibaRequestState.
Proof.
  refine (inj_countable' (fun s => ((s.(cs_client_id), s.(cs_user_id), s.(cs_scopes), s.(cs_audiences),
      s.(cs_acr), s.(cs_authentication_context), s.(cs_binding_message)),
      (s.(cs_issued_at), s.(cs_status), s.(cs_interval_seconds), s.(cs_expires_at),
       s.(cs_retention_expires_at), s.(cs_last_poll_at), s.(cs_ping_notification))))
    (fun '((client, user, scopes, audiences, acr, context, message),
           (issued, status, interval, expires, retention, last, ping)) =>
      {| cs_client_id := client; cs_user_id := user; cs_scopes := scopes; cs_audiences := audiences;
         cs_acr := acr; cs_authentication_context := context; cs_binding_message := message;
         cs_issued_at := issued; cs_status := status; cs_interval_seconds := interval;
         cs_expires_at := expires; cs_retention_expires_at := retention; cs_last_poll_at := last;
         cs_ping_notification := ping |}) _).
  by intros [].
Defined.

Definition to_string (s : CibaRequestState) : option string := Some (pos_text (encode s)).
Definition from_str (text : string) : option CibaRequestState := decode (text_pos text).
Definition digest (id : string) : string := "hash of " +:+ id.

Lemma request_from_to s : from_str (pos_text (encode s)) = Some s.
Proof. unfold from_str. rewrite text_pos_text. apply decode_encode. Qed.

(** The clock is the server's, identifiers are fixed. *)
Definition handle (X : Type) (e : cibaE CibaStateVersion X) (k : mem_server) : option (X * mem_server) :=
  match e in cibaE _ X return option (X * mem_server) → option (X * mem_server) with
  | CibaNow => fun _ => Some (1000, k)
  | CibaGenerateId => fun _ => Some ("request", k)
  | _ => fun r => r
  end (ciba_handle digest to_string from_str "nazo:" None X e k).

Definition start : mem_server := {| ms_clock := 1000000; ms_keys := ∅; ms_sets := ∅ |}.

Definition flow := pool_run handle example.schedule (task_prog <$> example.tasks, start).

Lemma background_refl (k : mem_server) : background from_str "nazo:" k k.
Proof. intros h. destruct (entry "nazo:" k h); eauto. Qed.

Lemma valkey_handle_step X (e : cibaE CibaStateVersion X) k x k' :
  handle X e k = Some (x, k') → valkey_ciba_step digest to_string from_str "nazo:" X e k x k'.
Proof.
  unfold handle. destruct e; cbn [valkey_ciba_step]; intros H;
    try (by exists None, k'; split; [exact H|apply background_refl]); simplify_eq.
  - split; [unfold in_i64, I64_MIN, I64_MAX; lia|apply background_refl].
  - split; [done|apply background_refl].
Qed.

Lemma empty_refines : ciba_refines from_str "nazo:" ∅ start.
Proof.
  split; [|intros h v Hv; by rewrite lookup_empty in Hv]. intros h. rewrite lookup_empty.
  unfold entry. case_decide; [done|]. simpl. unfold ms_lookup. simpl. by rewrite lookup_empty.
Qed.

Lemma empty_inv : ciba_inv digest (ciba_decode from_str) example.tasks ∅.
Proof. intros key v s Hv. by rewrite lookup_empty in Hv. Qed.

Lemma tasks_retained : Forall retained example.tasks.
Proof. repeat constructor; simpl; lia. Qed.

Lemma flow_polls : ∃ ts k, flow = Some (ts, k) ∧
  ts !! 2%nat = Some (Ret (RPoll (Ok (CommittedApproved example.approved)))).
Proof.
  assert (match flow with
    | Some (ts, _) => match ts !! 2%nat with
                      | Some (Ret r) => r = RPoll (Ok (CommittedApproved example.approved))
                      | _ => False end
    | None => False end) as H by (vm_compute; reflexivity).
  destruct flow as [[ts k]|]; [|done]. exists ts, k. split; [done|].
  destruct (ts !! 2%nat) as [[r|]|]; [by subst|done..].
Qed.

End valkey_example.

Lemma valkey_ciba_flow_witness :
  ∃ c, valkey_example.flow = Some c ∧
    approved_by valkey_example.digest example.tasks (valkey_example.digest "request") example.approved.
Proof.
  destruct valkey_example.flow_polls as (ts & k & Hrun & Hts). exists (ts, k). split; [exact Hrun|].
  destruct (valkey_ciba_flow valkey_example.digest valkey_example.to_string valkey_example.from_str "nazo:"
    example.tasks ∅ valkey_example.start (ts, k)) as [_ Hpoll].
  - intros s s' raw [= <-] Hf. rewrite valkey_example.request_from_to in Hf. by injection Hf.
  - intros s _. eexists. split; [reflexivity|]. apply valkey_example.request_from_to.
  - intros id H. discriminate H.
  - exact example.tasks_wf.
  - exact valkey_example.tasks_retained.
  - exact valkey_example.empty_refines.
  - exact valkey_example.empty_inv.
  - eapply pool_run_steps; [|exact Hrun]. intros _. exact valkey_example.valkey_handle_step.
  - exact (proj1 (proj2 (proj2 (Hpoll 2%nat "request" "rp" None _ eq_refl Hts)))).
Defined.
