(* ===== verification/AuthorizationFlow.v ===== *)
(** * Authorization decisions and codes

    [transaction.rs] and the decision part of [authorization_service.rs] of
    [crates/authorization-server-core/src], and the two callers of the commit in
    [crates/authorization-server/src]: the user's decision
    ([domain/authorization_decision.rs]) and [prompt=none]
    ([authorization/request/prompt_none.rs]).  A decision is committed by the
    repository port and only then its code is stored; both ports, the sessions,
    the audit, the clock and the generators are effects ([decE]).  How a
    response is written ([response_location]) is an effect of its own. *)
From stdpp Require Import base list strings gmap.
From S2P Require Import Prelude Chrono Effects Text Json AuthorizationDetails AuthorizationPolicy.

Local Open Scope string_scope.
Local Open Scope rust_scope.
Open Scope Z_scope.

(** ** [transaction.rs] *)

(** [S256Pkce] is its optional challenge. *)
Record ConsentPayload := {
  co_request_id : string;
  co_user_id : Uuid;
  co_client_id : string;
  co_client_name : string;
  co_redirect_uri : string;
  co_redirect_uri_was_supplied : bool;
  co_scopes : list string;
  co_resource_indicators : list string;
  co_authorization_details : Value;
  co_state : option string;
  co_response_mode : option string;
  co_nonce : option string;
  co_auth_time : Z;
  co_amr : list string;
  co_oidc_sid : option string;
  co_acr : option string;
  co_userinfo_claim_requests : list OidcClaimRequest;
  co_id_token_claim_requests : list OidcClaimRequest;
  co_pkce : option string;
  co_dpop_jkt : option string;
  co_mtls_x5t_s256 : option string;
  co_pushed_request_uri : option string;
  co_pushed_request_digest : option string;
  co_signed_authorization_response_required : option bool;
  co_session_management_allowed : option bool;
  co_authorization_code_ttl_seconds : option Z;
  co_expires_at : DateTime;
}.

Record PushedAuthorizationRequest := {
  pu_client_id : string;
  pu_params : gmap string string;
  pu_dpop_jkt : option string;
  pu_mtls_x5t_s256 : option string;
  pu_issued_at : DateTime;
  pu_expires_at : DateTime;
}.

Definition AUTHORIZATION_CODE_REDEMPTION_VERSION : Z := 2.

Record CodePayload := {
  cd_redemption_contract_version : Z;
  cd_code_id : string;
  cd_user_id : Uuid;
  cd_client_id : string;
  cd_redirect_uri : string;
  cd_redirect_uri_was_supplied : bool;
  cd_scopes : list string;
  cd_resource_indicators : list string;
  cd_authorization_details : Value;
  cd_nonce : option string;
  cd_auth_time : Z;
  cd_amr : list string;
  cd_oidc_sid : option string;
  cd_acr : option string;
  cd_userinfo_claim_requests : list OidcClaimRequest;
  cd_id_token_claim_requests : list OidcClaimRequest;
  cd_pkce : option string;
  cd_dpop_jkt : option string;
  cd_mtls_x5t_s256 : option string;
  cd_expires_at : DateTime;
}.

#[export] Instance OidcClaimRequest_eq_dec : EqDecision OidcClaimRequest.
Proof. solve_decision. Defined.

#[export] Instance CodePayload_eq_dec : EqDecision CodePayload.
Proof. solve_decision. Defined.

Inductive AuthorizationCodeState :=
| CodePending (payload : CodePayload)
| CodeConsuming (payload : CodePayload) (consuming_at : DateTime)
| CodeConsumed
| CodeFailed (failed_at : DateTime) (error : string).

(** ** [authorization_service.rs] *)

Inductive AuthorizationPortError :=
| AuthorizationUnavailable | AuthorizationConflict | AuthorizationCorruptData
| AuthorizationUnexpected.

Record StoredAuthorizationGrant := {
  sg_scopes : Value;
  sg_resource_indicators : Value;
  sg_authorization_details : Value;
}.

Inductive AuthorizationDecisionKind := Approve | Deny | PromptNone.

#[export] Instance AuthorizationDecisionKind_eq_dec : EqDecision AuthorizationDecisionKind.
Proof. solve_decision. Defined.

Definition decision_as_str (d : AuthorizationDecisionKind) : string :=
  match d with Approve => "approve" | Deny => "deny" | PromptNone => "prompt_none" end.

Record AuthorizationDecisionCommit := {
  dc_tenant_id : Uuid;
  dc_user_id : Uuid;
  dc_client_id : string;
  dc_request_id : string;
  dc_pushed_request_uri : option string;
  dc_valid_until : DateTime;
  dc_retain_until : DateTime;
  dc_decision : AuthorizationDecisionKind;
  dc_event_id : Uuid;
  dc_occurred_at : DateTime;
  dc_audit_fields : Value;
  dc_scopes : list string;
  dc_resource_indicators : list string;
  dc_authorization_details : Value;
}.

Inductive AuthorizationDecisionCommitResult :=
| DecisionCommitted | DecisionConflict | DecisionExpired | DecisionClientUnavailable
| DecisionGrantUnavailable.

#[export] Instance AuthorizationDecisionCommitResult_eq_dec :
  EqDecision AuthorizationDecisionCommitResult.
Proof. solve_decision. Defined.

Record PreparedAuthorizationCode := {
  pc_tenant_id : Uuid;
  pc_hash : string;
  pc_payload : CodePayload;
  pc_ttl_seconds : Z;
}.

Record AuthorizationStateSnapshot (T : Type) := {
  sn_payload : T;
  sn_version : string;
}.
Arguments sn_payload {T} _.
Arguments sn_version {T} _.

Inductive DecisionMaterialDiscardOutcome :=
| Discarded | ConsentMissingOrChanged | ParMissingOrChanged.

Inductive DecisionMaterialDiscardError (E : Type) :=
| ConsentOrUnknown (e : E)
| PushedRequest (e : E).
Arguments ConsentOrUnknown {E} e.
Arguments PushedRequest {E} e.

Record ConsentAdmissionPreview := {
  pv_consent : ConsentPayload;
  pv_consent_version : string;
  pv_pushed_request_version : option string;
  pv_valid_until : DateTime;
  pv_retain_until : DateTime;
}.

Inductive AuthorizationDecisionAdmissionError :=
| ConsentMissing
| ConsentMalformed
| ConsentReadFailed (e : AuthorizationPortError)
| ConsentUserMismatch
| PushedRequestMissing (consent : ConsentPayload)
| PushedRequestMalformed (consent : ConsentPayload)
| PushedRequestReadFailed (consent : ConsentPayload) (source : AuthorizationPortError).

Record AuthorizationApprovalInput := {
  ap_consent : ConsentPayload;
  ap_code_hash : string;
  ap_code_id : string;
  ap_issued_at : DateTime;
  ap_code_ttl_seconds : Z;
  ap_tenant_id : Uuid;
}.

(** [Duration::seconds] and [DateTime + Duration] panic beyond their range: [None]. *)
Definition prepare_authorization_code (input : AuthorizationApprovalInput)
    : option PreparedAuthorizationCode :=
  let consent := input.(ap_consent) in
  ttl ← duration_seconds (unwrap_or (i64_try_from_u64 input.(ap_code_ttl_seconds)) I64_MAX);
  expires_at ← checked_add_signed input.(ap_issued_at) ttl;
  Some {| pc_tenant_id := input.(ap_tenant_id);
          pc_hash := input.(ap_code_hash);
          pc_payload :=
            {| cd_redemption_contract_version := AUTHORIZATION_CODE_REDEMPTION_VERSION;
               cd_code_id := input.(ap_code_id);
               cd_user_id := consent.(co_user_id);
               cd_client_id := consent.(co_client_id);
               cd_redirect_uri := consent.(co_redirect_uri);
               cd_redirect_uri_was_supplied := consent.(co_redirect_uri_was_supplied);
               cd_scopes := consent.(co_scopes);
               cd_resource_indicators := consent.(co_resource_indicators);
               cd_authorization_details := consent.(co_authorization_details);
               cd_nonce := consent.(co_nonce);
               cd_auth_time := consent.(co_auth_time);
               cd_amr := consent.(co_amr);
               cd_oidc_sid := consent.(co_oidc_sid);
               cd_acr := consent.(co_acr);
               cd_userinfo_claim_requests := consent.(co_userinfo_claim_requests);
               cd_id_token_claim_requests := consent.(co_id_token_claim_requests);
               cd_pkce := consent.(co_pkce);
               cd_dpop_jkt := consent.(co_dpop_jkt);
               cd_mtls_x5t_s256 := consent.(co_mtls_x5t_s256);
               cd_expires_at := expires_at |};
          pc_ttl_seconds := input.(ap_code_ttl_seconds) |}.

(** Other crates: BLAKE3 in hexadecimal, [serde_json]'s texts of a value, of a
    code's payload and of a time, a [Uuid]'s text, and whether a text is a URL. *)
Class AuthorizationCrates := {
  blake3_hex : string → string;
  value_to_string : Value → string;
  code_payload_to_string : CodePayload → option string;
  datetime_to_value : DateTime → Value;
  uuid_to_text : Uuid → string;
  url_parse_ok : string → bool;
}.

Section coverage.
Context {AC : AuthorizationCrates}.

(** [canonical_authorization_details]; writing a [Value] does not fail. *)
Definition canonical_authorization_details (value : Value)
    : result string AuthorizationDetailsErrorType :=
  let? _ := validate_authorization_details url_parse_ok value in Ok (value_to_string value).

(** The strings of an array. *)
Definition strings (value : Value) : list string := omap as_str (default [] (as_array value)).

Definition stored_grant_covers_requested_authorization (stored : StoredAuthorizationGrant)
    (scopes resources : list string) (details : Value) : bool :=
  let stored_scopes := strings stored.(sg_scopes) in
  let stored_resources := strings stored.(sg_resource_indicators) in
  if negb (forallb (fun value => bool_decide (value ∈ stored_scopes)) scopes)
     || negb (forallb (fun value => bool_decide (value ∈ stored_resources)) resources)
  then false
  else authorization_details_empty details
       || (negb (high_risk_authorization_details details)
           && bool_decide
                (ok (canonical_authorization_details stored.(sg_authorization_details))
                 = ok (canonical_authorization_details details))).

Definition pushed_authorization_request_digest (request : PushedAuthorizationRequest) : string :=
  let text := fun o => match o with Some s => JString s | None => JNull end in
  blake3_hex (value_to_string (JObject
    [("client_id", JString request.(pu_client_id));
     ("params", JObject (map_fold (fun name value m => map_insert name (JString value) m) []
                  request.(pu_params)));
     ("dpop_jkt", text request.(pu_dpop_jkt));
     ("mtls_x5t_s256", text request.(pu_mtls_x5t_s256));
     ("issued_at", datetime_to_value request.(pu_issued_at));
     ("expires_at", datetime_to_value request.(pu_expires_at))])).

Definition code_payload_digest (payload : CodePayload) : option string :=
  blake3_hex <$> code_payload_to_string payload.
End coverage.

(** ** The ports *)

Record CurrentSession := {
  ss_user_id : Uuid;
  ss_oidc_sid : string;
}.

Inductive SessionResolution :=
| SessionPresent (session : CurrentSession)
| SessionMissing
| SessionInvalidated.

Record AuthorizationDecisionCommand := {
  cm_request_id : string;
  cm_decision : UserAuthorizationDecision;
  cm_session_id : string;
  cm_source_ip : string;
}.

Inductive AuthorizationDecisionResponse :=
| DecisionRedirect (location : string)
| DecisionFormPost (action : string) (parameters : list (string * string))
    (session_state : option string) (csp_nonce : string).

(** The last constructor is a panic of the task. *)
Inductive AuthorizationDecisionError :=
| LoginRequired | SessionLookupUnavailable | ConsentInvalid | ConsentReadUnavailable
| DecisionUserMismatch | AuditUnavailable | ApprovalUnavailable | UnsupportedResponseMode
| ResponseProtectionUnavailable | ResponseSigningUnavailable
| DecisionPanicked.

(** The arguments of [authorization_response_redirect_with_context]. *)
Record AuthorizationResponseRedirect := {
  rd_redirect_uri : string;
  rd_response_mode : option string;
  rd_code : option string;
  rd_error : option string;
  rd_state : option string;
  rd_oidc_sid : option string;
}.

(** An error response: its status and error code. *)
Inductive OAuthEndpointError :=
| EndpointError (status : Z) (error : string)
| EndpointPanicked.

Inductive decE : Type → Type :=
| CommitDecision (input : AuthorizationDecisionCommit)
    : decE (result AuthorizationDecisionCommitResult AuthorizationPortError)
| FindGrant (user_id client_id : Uuid)
    : decE (result (option StoredAuthorizationGrant) AuthorizationPortError)
| LoadConsent (request_id : string)
    : decE (result (option (AuthorizationStateSnapshot ConsentPayload)) AuthorizationPortError)
| LoadPar (request_uri : string)
    : decE (result (option (AuthorizationStateSnapshot PushedAuthorizationRequest))
              AuthorizationPortError)
| DiscardDecisionMaterial (request_id expected_consent : string) (pushed_request : option (string * string))
    : decE (result DecisionMaterialDiscardOutcome (DecisionMaterialDiscardError AuthorizationPortError))
| CompareAndDeletePar (request_uri expected : string) : decE (result bool AuthorizationPortError)
| StoreAuthorizationCode (code_hash : string) (state : AuthorizationCodeState) (ttl_seconds : Z)
    : decE (result unit AuthorizationPortError)
| SessionCurrent (session_id : string) (now : Z) : decE (result SessionResolution unit)
| SessionBindClient (session_id client_id : string) : decE (result bool unit)
| EnsureTransactionalReady : decE (result unit unit)
| UtcNow : decE DateTime
| UuidNowV7 : decE Uuid
| RandomUrlsafeToken : decE string
| ResponseLocation (payload : ConsentPayload) (code error oidc_sid : option string)
    : decE (result AuthorizationDecisionResponse AuthorizationDecisionError)
| ResponseRedirect (redirect : AuthorizationResponseRedirect)
    : decE (result string OAuthEndpointError).

(** ** The service *)

Section service.
Context {AC : AuthorizationCrates}.

Definition insert_field (key : string) (value : Value) (fields : Value) : option Value :=
  match fields with JObject members => Some (JObject (map_insert key value members)) | _ => None end.

(** The code must be the decision's; its identity, hash and digest become facts
    of the decision, which is retained as long as the code. *)
Definition bind_code (input : AuthorizationDecisionCommit) (code : PreparedAuthorizationCode)
    : result AuthorizationDecisionCommit AuthorizationPortError :=
  let payload := code.(pc_payload) in
  if negb (bool_decide (input.(dc_tenant_id) = code.(pc_tenant_id)))
     || negb (bool_decide (input.(dc_user_id) = payload.(cd_user_id)))
     || negb (bool_decide (input.(dc_client_id) = payload.(cd_client_id)))
     || negb (bool_decide (input.(dc_scopes) = payload.(cd_scopes)))
     || negb (bool_decide (input.(dc_resource_indicators) = payload.(cd_resource_indicators)))
     || negb (bool_decide (input.(dc_authorization_details) = payload.(cd_authorization_details)))
  then Err AuthorizationCorruptData
  else
    let? digest := ok_or (code_payload_digest payload) AuthorizationCorruptData in
    let? fields := ok_or
      (fields ← insert_field "code_id" (JString payload.(cd_code_id)) input.(dc_audit_fields);
       fields ← insert_field "code_hash" (JString code.(pc_hash)) fields;
       insert_field "code_payload_digest" (JString digest) fields) AuthorizationCorruptData in
    Ok {| dc_tenant_id := input.(dc_tenant_id);
          dc_user_id := input.(dc_user_id);
          dc_client_id := input.(dc_client_id);
          dc_request_id := input.(dc_request_id);
          dc_pushed_request_uri := input.(dc_pushed_request_uri);
          dc_valid_until := input.(dc_valid_until);
          dc_retain_until := Z.max input.(dc_retain_until) payload.(cd_expires_at);
          dc_decision := input.(dc_decision);
          dc_event_id := input.(dc_event_id);
          dc_occurred_at := input.(dc_occurred_at);
          dc_audit_fields := fields;
          dc_scopes := input.(dc_scopes);
          dc_resource_indicators := input.(dc_resource_indicators);
          dc_authorization_details := input.(dc_authorization_details) |}.

Definition commit_decision (input : AuthorizationDecisionCommit)
    (code : option PreparedAuthorizationCode)
    : prog decE (result AuthorizationDecisionCommitResult AuthorizationPortError) :=
  if negb (Bool.eqb (bool_decide (input.(dc_decision) = Deny)) (is_none code))
  then Ret (Err AuthorizationCorruptData)
  else match match code with Some code => bind_code input code | None => Ok input end with
  | Err e => Ret (Err e)
  | Ok input =>
      let*? outcome := call (CommitDecision input) in
      match code with
      | Some code =>
          if bool_decide (outcome = DecisionCommitted)
          then let*? _ := call (StoreAuthorizationCode code.(pc_hash) (CodePending code.(pc_payload))
                 code.(pc_ttl_seconds)) in
               Ret (Ok outcome)
          else Ret (Ok outcome)
      | None => Ret (Ok outcome)
      end
  end.

Definition grant_covers (user_id client_id : Uuid) (scopes resources : list string) (details : Value)
    : prog decE (result bool AuthorizationPortError) :=
  let*? grant := call (FindGrant user_id client_id) in
  Ret (Ok (is_some_and grant (fun stored =>
    stored_grant_covers_requested_authorization stored scopes resources details))).

(** The pushed request a consent was made for, still as it was. *)
Definition preview_pushed_request (consent : ConsentPayload) (request_uri : string)
    : prog decE (result (AuthorizationStateSnapshot PushedAuthorizationRequest)
                   AuthorizationDecisionAdmissionError) :=
  let* loaded := call (LoadPar request_uri) in
  match loaded with
  | Ok None => Ret (Err (PushedRequestMissing consent))
  | Err AuthorizationCorruptData => Ret (Err (PushedRequestMalformed consent))
  | Err source => Ret (Err (PushedRequestReadFailed consent source))
  | Ok (Some pushed) =>
      if is_some_and consent.(co_pushed_request_digest) (fun expected =>
           negb (bool_decide (expected = pushed_authorization_request_digest pushed.(sn_payload))))
      then Ret (Err (PushedRequestMissing consent))
      else Ret (Ok pushed)
  end.

Definition preview_user_decision (request_id : string) (user_id : Uuid)
    : prog decE (result ConsentAdmissionPreview AuthorizationDecisionAdmissionError) :=
  let* loaded := call (LoadConsent request_id) in
  match loaded with
  | Ok None => Ret (Err ConsentMissing)
  | Err AuthorizationCorruptData => Ret (Err ConsentMalformed)
  | Err e => Ret (Err (ConsentReadFailed e))
  | Ok (Some snapshot) =>
      let consent := snapshot.(sn_payload) in
      if negb (bool_decide (consent.(co_user_id) = user_id)) then Ret (Err ConsentUserMismatch)
      else match consent.(co_pushed_request_uri) with
      | None =>
          Ret (Ok {| pv_consent := consent; pv_consent_version := snapshot.(sn_version);
                     pv_pushed_request_version := None;
                     pv_valid_until := consent.(co_expires_at);
                     pv_retain_until := consent.(co_expires_at) |})
      | Some request_uri =>
          let*? pushed := preview_pushed_request consent request_uri in
          let expires_at := pushed.(sn_payload).(pu_expires_at) in
          Ret (Ok {| pv_consent := consent; pv_consent_version := snapshot.(sn_version);
                     pv_pushed_request_version := Some pushed.(sn_version);
                     pv_valid_until := Z.min consent.(co_expires_at) expires_at;
                     pv_retain_until := Z.max consent.(co_expires_at) expires_at |})
      end
  end.

(** The outer [None] is the panic for a pushed version without its uri. *)
Definition discard_decision_material (request_id : string) (preview : ConsentAdmissionPreview)
    : prog decE (option (result unit AuthorizationDecisionAdmissionError)) :=
  let consent := preview.(pv_consent) in
  match match preview.(pv_pushed_request_version) with
        | None => Some None
        | Some version => (fun uri => Some (uri, version)) <$> consent.(co_pushed_request_uri)
        end with
  | None => Ret None
  | Some pushed_request =>
      let* outcome := call (DiscardDecisionMaterial request_id preview.(pv_consent_version)
                              pushed_request) in
      Ret (Some (match outcome with
      | Ok Discarded => Ok tt
      | Ok ConsentMissingOrChanged => Err ConsentMissing
      | Ok ParMissingOrChanged => Err (PushedRequestMissing consent)
      | Err (ConsentOrUnknown e) => Err (ConsentReadFailed e)
      | Err (PushedRequest source) => Err (PushedRequestReadFailed consent source)
      end))
  end.

Inductive PushedAuthorizationRequestConsumeError :=
| ConsumeMissing
| ConsumeDependency (e : AuthorizationPortError).

Definition discard_pushed_authorization_request (request_uri expected_version : string)
    : prog decE (result unit PushedAuthorizationRequestConsumeError) :=
  let* deleted := call (CompareAndDeletePar request_uri expected_version) in
  Ret (match deleted with
       | Ok true => Ok tt
       | Ok false => Err ConsumeMissing
       | Err e => Err (ConsumeDependency e)
       end).
End service.

(** ** The user's decision and [prompt=none] *)

Section decisions.
Context {AC : AuthorizationCrates}.
Context (tenant_id : Uuid) (auth_code_ttl_seconds : Z).

Definition json_object (members : list (string * Value)) : Value :=
  JObject (foldl (fun m p => map_insert p.1 p.2 m) [] members).

Definition intent_fields (source_ip : string) (pushed_request_digest : option string) : Value :=
  json_object (("source_ip_hash", JString (blake3_hex source_ip))
    :: match pushed_request_digest with
       | Some digest => [("pushed_request_digest", JString digest)]
       | None => []
       end).

(** The decision on a consent, with its times. *)
Definition decision_input (payload : ConsentPayload) (request_id : string)
    (decision : AuthorizationDecisionKind) (valid_until retain_until now : DateTime)
    (event_id : Uuid) (source_ip : string) : AuthorizationDecisionCommit :=
  {| dc_tenant_id := tenant_id;
     dc_user_id := payload.(co_user_id);
     dc_client_id := payload.(co_client_id);
     dc_request_id := request_id;
     dc_pushed_request_uri := payload.(co_pushed_request_uri);
     dc_valid_until := valid_until;
     dc_retain_until := retain_until;
     dc_decision := decision;
     dc_event_id := event_id;
     dc_occurred_at := now;
     dc_audit_fields := intent_fields source_ip payload.(co_pushed_request_digest);
     dc_scopes := payload.(co_scopes);
     dc_resource_indicators := payload.(co_resource_indicators);
     dc_authorization_details := payload.(co_authorization_details) |}.

Definition approval_input (payload : ConsentPayload) (code : string) (event_id : Uuid)
    (now : DateTime) (ttl_seconds : Z) : AuthorizationApprovalInput :=
  {| ap_consent := payload;
     ap_code_hash := blake3_hex code;
     ap_code_id := uuid_to_text event_id;
     ap_issued_at := now;
     ap_code_ttl_seconds := ttl_seconds;
     ap_tenant_id := tenant_id |}.

Definition requests_openid (scopes : list string) : bool :=
  existsb (fun scope => bool_decide (scope = "openid")) scopes.

(** What follows an admitted preview: the commit, the clean-up, the response. *)
Definition decide_previewed (command : AuthorizationDecisionCommand) (preview : ConsentAdmissionPreview)
    : prog decE (result AuthorizationDecisionResponse AuthorizationDecisionError) :=
  let payload := preview.(pv_consent) in
  let* now := call UtcNow in
  let* event_id := call UuidNowV7 in
  let* code := match command.(cm_decision) with
    | UserApprove => let* code := call RandomUrlsafeToken in Ret (Some code)
    | UserDeny => Ret None
    end in
  let ttl_seconds := unwrap_or payload.(co_authorization_code_ttl_seconds) auth_code_ttl_seconds in
  match match code with
        | None => Some None
        | Some code =>
            Some <$> prepare_authorization_code (approval_input payload code event_id now ttl_seconds)
        end with
  | None => Ret (Err DecisionPanicked)
  | Some prepared =>
      let kind := match command.(cm_decision) with UserApprove => Approve | UserDeny => Deny end in
      let* committed := commit_decision
        (decision_input payload command.(cm_request_id) kind preview.(pv_valid_until)
           preview.(pv_retain_until) now event_id command.(cm_source_ip)) prepared in
      match committed with
      | Err _ => Ret (Err ApprovalUnavailable)
      | Ok DecisionConflict | Ok DecisionExpired => Ret (Err ConsentInvalid)
      | Ok DecisionClientUnavailable | Ok DecisionGrantUnavailable => Ret (Err ApprovalUnavailable)
      | Ok DecisionCommitted =>
          let* discarded := discard_decision_material command.(cm_request_id) preview in
          match discarded, code with
          | None, _ => Ret (Err DecisionPanicked)
          | Some _, None => call (ResponseLocation payload None (Some "access_denied") None)
          | Some _, Some code =>
              let* bound := if requests_openid payload.(co_scopes)
                then call (SessionBindClient command.(cm_session_id) payload.(co_client_id))
                else Ret (Ok true) in
              match bound with
              | Err _ => Ret (Err SessionLookupUnavailable)
              | Ok false => Ret (Err LoginRequired)
              | Ok true => call (ResponseLocation payload (Some code) None payload.(co_oidc_sid))
              end
          end
      end
  end.

Definition decide_inner (command : AuthorizationDecisionCommand)
    : prog decE (result AuthorizationDecisionResponse AuthorizationDecisionError) :=
  let* now := call UtcNow in
  let* current := call (SessionCurrent command.(cm_session_id) (timestamp now)) in
  match current with
  | Err _ => Ret (Err SessionLookupUnavailable)
  | Ok SessionMissing | Ok SessionInvalidated => Ret (Err LoginRequired)
  | Ok (SessionPresent session) =>
      let* ready := call EnsureTransactionalReady in
      match ready with
      | Err _ => Ret (Err AuditUnavailable)
      | Ok _ =>
          let* previewed := preview_user_decision command.(cm_request_id) session.(ss_user_id) in
          match previewed with
          | Err ConsentMissing | Err ConsentMalformed => Ret (Err ConsentInvalid)
          | Err (ConsentReadFailed _) => Ret (Err ConsentReadUnavailable)
          | Err ConsentUserMismatch => Ret (Err DecisionUserMismatch)
          | Err (PushedRequestMissing consent) =>
              call (ResponseLocation consent None (Some "invalid_request_uri") None)
          | Err (PushedRequestMalformed consent) | Err (PushedRequestReadFailed consent _) =>
              call (ResponseLocation consent None (Some "server_error") None)
          | Ok preview =>
              let consent := preview.(pv_consent) in
              if requests_openid consent.(co_scopes)
                 && negb (bool_decide (consent.(co_oidc_sid) = Some session.(ss_oidc_sid)))
              then Ret (Err ConsentInvalid)
              else decide_previewed command preview
          end
      end
  end.

(** The response of a silent request: no code, with an error, or its code. *)
Definition silent_response (payload : ConsentPayload) (code error oidc_sid : option string)
    : prog decE (result string OAuthEndpointError) :=
  call (ResponseRedirect
    {| rd_redirect_uri := payload.(co_redirect_uri);
       rd_response_mode := payload.(co_response_mode);
       rd_code := code; rd_error := error;
       rd_state := payload.(co_state);
       rd_oidc_sid := oidc_sid |}).

(** The validity and the retention of a silent decision; [None]: a pushed request
    without its deadline. *)
Definition silent_deadlines (payload : ConsentPayload) (pushed_request_expires_at : option DateTime)
    : option (DateTime * DateTime) :=
  let expires_at := payload.(co_expires_at) in
  let retain_until := match pushed_request_expires_at with
    | Some pushed => Z.max expires_at pushed
    | None => expires_at
    end in
  match payload.(co_pushed_request_uri), pushed_request_expires_at with
  | Some _, Some pushed => Some (Z.min expires_at pushed, retain_until)
  | None, _ => Some (expires_at, retain_until)
  | Some _, None => None
  end.

(** After the commit: the pushed request is discarded, the session bound, and the
    code returned. *)
Definition finish_silent (payload : ConsentPayload) (session_id pushed_request_version : option string)
    (code : string) : prog decE (result string OAuthEndpointError) :=
  let* _ := match payload.(co_pushed_request_uri), pushed_request_version with
    | Some uri, Some version =>
        let* _ := discard_pushed_authorization_request uri version in Ret tt
    | _, _ => Ret tt
    end in
  if requests_openid payload.(co_scopes) then
    let* bound := match session_id with
      | Some session_id => call (SessionBindClient session_id payload.(co_client_id))
      | None => Ret (Ok false)
      end in
    match bound with
    | Err _ => Ret (Err (EndpointError 503 "server_error"))
    | Ok false => silent_response payload None (Some "login_required") None
    | Ok true => silent_response payload (Some code) None payload.(co_oidc_sid)
    end
  else silent_response payload (Some code) None payload.(co_oidc_sid).

(** [issue_authorization_code_without_interaction_with_context] *)
Definition issue_authorization_code_without_interaction (source_ip : string)
    (session_id : option string) (payload : ConsentPayload)
    (pushed_request_expires_at : option DateTime) (pushed_request_version : option string)
    : prog decE (result string OAuthEndpointError) :=
  match payload.(co_authorization_code_ttl_seconds) with
  | None => Ret (Err EndpointPanicked)
  | Some ttl_seconds =>
      let* ready := call EnsureTransactionalReady in
      match ready, silent_deadlines payload pushed_request_expires_at with
      | Err _, _ => Ret (Err (EndpointError 503 "server_error"))
      | Ok _, None => Ret (Err (EndpointError 503 "server_error"))
      | Ok _, Some (valid_until, retain_until) =>
          let* now := call UtcNow in
          let* event_id := call UuidNowV7 in
          let* code := call RandomUrlsafeToken in
          match prepare_authorization_code (approval_input payload code event_id now ttl_seconds) with
          | None => Ret (Err EndpointPanicked)
          | Some prepared =>
              let* committed := commit_decision
                (decision_input payload payload.(co_request_id) PromptNone valid_until retain_until
                   now event_id source_ip) (Some prepared) in
              match committed with
              | Err _ => Ret (Err (EndpointError 503 "server_error"))
              | Ok DecisionConflict | Ok DecisionExpired =>
                  silent_response payload None
                    (Some (if is_some payload.(co_pushed_request_uri)
                           then "invalid_request_uri" else "invalid_request")) None
              | Ok DecisionGrantUnavailable =>
                  silent_response payload None (Some "consent_required") None
              | Ok DecisionClientUnavailable =>
                  silent_response payload None (Some "server_error") None
              | Ok DecisionCommitted =>
                  finish_silent payload session_id pushed_request_version code
              end
          end
      end
  end.
End decisions.
