(* ===== verification/PostgresDecisions.v ===== *)
(** * Authorization decisions in PostgreSQL

    [crates/persistence-postgres/src/repositories/authorization_flow.rs], the
    grants of [grants.rs], and the SQL functions of the baseline migration they
    call: [nazo_commit_authorization_decision], which consumes the identities of
    a request, records the decision in the audit ledger and applies the grant in
    one statement, [nazo_cleanup_authorization_decisions], and what
    [nazo_ack_security_audit_batch] does to the ledger.

    A decision's row is its fence: unique per tenant and request, and per tenant
    and pushed request.  Clock readings are arguments. *)
From Stdlib Require Import Ascii.
From stdpp Require Import base list strings gmap.
From S2P Require Import Prelude Chrono Postgres Text Json AuthorizationFlow.

Local Open Scope rust_scope.
Local Open Scope string_scope.
Local Open Scope list_scope.
Local Open Scope Z_scope.
Local Open Scope tx_scope.

(** ** Rows *)

(** The columns of [oauth_clients] that decisions read; [client_id] is unique in
    its tenant. *)
Record DecisionClientRow := {
  dl_id : Uuid;
  dl_is_active : bool;
}.

Record GrantRow := {
  gr_first_authorized_at : DateTime;
  gr_last_authorized_at : DateTime;
  gr_last_scopes : Value;
  gr_last_resource_indicators : Value;
  gr_last_authorization_details : Value;
  gr_authorization_count : Z;
}.

(** The authorization columns of [security_audit_events], set together for a
    decision and for no other event. *)
Record DecisionFence := {
  fe_tenant_id : Uuid;
  fe_request_id : string;
  fe_par_uri : option string;
  fe_decision : string;
  fe_valid_until : DateTime;
  fe_retain_until : DateTime;
}.

(** A row of [security_audit_events], without its key. *)
Record EventRow := {
  ev_event_type : string;
  ev_event_category : string;
  ev_payload : Value;
  ev_occurred_at : DateTime;
  ev_authorization : option DecisionFence;
  ev_exported_at : option DateTime;
}.

Record DecisionTables := {
  dt_clients : gmap (Uuid * string) DecisionClientRow;
  dt_users : gmap (Uuid * Uuid) bool;
  dt_grants : gmap (Uuid * Uuid * Uuid) GrantRow;
  dt_events : gmap Uuid EventRow;
  dt_receipts : gmap (Uuid * string) DateTime;
}.

Definition set_grants (grants : gmap (Uuid * Uuid * Uuid) GrantRow) (t : DecisionTables) :=
  {| dt_clients := t.(dt_clients); dt_users := t.(dt_users); dt_grants := grants;
     dt_events := t.(dt_events); dt_receipts := t.(dt_receipts) |}.
Definition set_events (events : gmap Uuid EventRow) (t : DecisionTables) :=
  {| dt_clients := t.(dt_clients); dt_users := t.(dt_users); dt_grants := t.(dt_grants);
     dt_events := events; dt_receipts := t.(dt_receipts) |}.
Definition set_receipts (receipts : gmap (Uuid * string) DateTime) (t : DecisionTables) :=
  {| dt_clients := t.(dt_clients); dt_users := t.(dt_users); dt_grants := t.(dt_grants);
     dt_events := t.(dt_events); dt_receipts := receipts |}.

(** The server: its other constraints, a time as a [timestamptz] column keeps it
    and as JSON, an identifier as JSON, the text [->>] gives for a value that is no
    string, and the size of a [jsonb] text. *)
Class DecisionServer := {
  decision_constraints : DecisionTables → option DieselError;
  timestamptz : DateTime → DateTime;
  jsonb_timestamptz : DateTime → Value;
  jsonb_uuid : Uuid → Value;
  jsonb_text : Value → string;
  jsonb_octets : Value → Z;
}.

#[export] Instance decision_server `{!DecisionServer} : Server DecisionTables := decision_constraints.

(** ** [nazo_commit_authorization_decision] *)

Definition DECISION_COMMITTED : string := "authorization_decision_committed".

(** [^[0-9a-f]{64}$] *)
Definition is_hex64 (value : string) : bool :=
  (len value =? 64)
  && forallb (fun c => is_ascii_digit c || in_range 97 102 (byte c)) (bytes value).

Definition DIGEST_KEYS : list string :=
  ["request_id_hash"; "source_ip_hash"; "resource_digest"; "authorization_details_digest";
   "pushed_request_digest"; "pushed_request_uri_hash"].

Section commit.
Context {AC : AuthorizationCrates} {DS : DecisionServer}.

(** [COALESCE(fields ->> key, '')] *)
Definition field_text (fields : Value) (key : string) : string :=
  match value_get fields key with
  | None | Some JNull => ""
  | Some (JString s) => s
  | Some v => jsonb_text v
  end.

Definition field_is_string (fields : Value) (key : string) : bool :=
  is_some (value_get fields key ≫= as_str).

Definition invalid_decision (input : AuthorizationDecisionCommit) : bool :=
  is_nil input.(dc_tenant_id) || is_nil input.(dc_user_id) || is_nil input.(dc_event_id)
  || negb (in_range 1 512 (len input.(dc_client_id)))
  || negb (in_range 1 512 (len input.(dc_request_id)))
  || is_some_and input.(dc_pushed_request_uri) (fun uri => negb (in_range 1 1024 (len uri)))
  || (timestamptz input.(dc_retain_until) <? timestamptz input.(dc_valid_until))
  || (timestamptz input.(dc_retain_until) <? timestamptz input.(dc_occurred_at))
  || is_none (as_object input.(dc_audit_fields))
  || is_none (as_array input.(dc_authorization_details)).

Definition code_binding_invalid (fields : Value) : bool :=
  negb (field_is_string fields "code_id") || is_empty (field_text fields "code_id")
  || negb (field_is_string fields "code_hash") || negb (is_hex64 (field_text fields "code_hash"))
  || negb (field_is_string fields "code_payload_digest")
  || negb (is_hex64 (field_text fields "code_payload_digest")).

Definition digest_invalid (fields : Value) (key : string) : bool :=
  is_some (value_get fields key)
  && (negb (field_is_string fields key) || negb (is_hex64 (field_text fields key))).

(** The checks before the tables are read. *)
Definition check_decision (input : AuthorizationDecisionCommit) : result unit DieselError :=
  let fields := input.(dc_audit_fields) in
  if invalid_decision input then Err (DatabaseError "invalid authorization decision")
  else if negb (bool_decide (input.(dc_decision) = Deny)) && code_binding_invalid fields
  then Err (DatabaseError "authorization code binding is missing or invalid")
  else if bool_decide (input.(dc_decision) = Deny)
          && existsb (fun key => is_some (value_get fields key))
               ["code_id"; "code_hash"; "code_payload_digest"]
  then Err (DatabaseError "denial cannot bind an authorization code")
  else if negb (is_hex64 (field_text fields "request_id_hash"))
  then Err (DatabaseError "authorization request digest is missing or invalid")
  else if existsb (digest_invalid fields) DIGEST_KEYS
  then Err (DatabaseError "authorization audit digest is invalid")
  else Ok tt.

(** [jsonb_strip_nulls(jsonb_build_object(...))]; every other member is a scalar. *)
Definition decision_payload (input : AuthorizationDecisionCommit) : Value :=
  let fields := input.(dc_audit_fields) in
  let member key := (key, unwrap_or (value_get fields key) JNull) in
  canonical (JObject (filter (fun p => p.2 ≠ JNull)
    [("schema_version", JString "nazo.audit.v1"); ("event_category", JString "authorization");
     ("tenant_id", jsonb_uuid input.(dc_tenant_id)); ("user_id", jsonb_uuid input.(dc_user_id));
     ("client_id", JString input.(dc_client_id));
     ("decision", JString (decision_as_str input.(dc_decision)));
     ("valid_until", jsonb_timestamptz (timestamptz input.(dc_valid_until)));
     ("retain_until", jsonb_timestamptz (timestamptz input.(dc_retain_until)));
     ("scope", match input.(dc_scopes) with
               | [] => JNull
               | scopes => JString (String.concat " " scopes)
               end);
     member "request_id_hash"; member "source_ip_hash"; member "resource_digest";
     member "authorization_details_digest"; member "pushed_request_digest";
     member "pushed_request_uri_hash"; member "code_id"; member "code_hash";
     member "code_payload_digest"])).

Definition decision_fence (input : AuthorizationDecisionCommit) : DecisionFence :=
  {| fe_tenant_id := input.(dc_tenant_id);
     fe_request_id := input.(dc_request_id);
     fe_par_uri := input.(dc_pushed_request_uri);
     fe_decision := decision_as_str input.(dc_decision);
     fe_valid_until := timestamptz input.(dc_valid_until);
     fe_retain_until := timestamptz input.(dc_retain_until) |}.

Definition decision_event (input : AuthorizationDecisionCommit) : EventRow :=
  {| ev_event_type := DECISION_COMMITTED;
     ev_event_category := "authorization";
     ev_payload := decision_payload input;
     ev_occurred_at := timestamptz input.(dc_occurred_at);
     ev_authorization := Some (decision_fence input);
     ev_exported_at := None |}.

(** The two unique indexes of decisions: the request, and the pushed request. *)
Definition same_fence (a b : DecisionFence) : bool :=
  bool_decide (a.(fe_tenant_id) = b.(fe_tenant_id))
  && (bool_decide (a.(fe_request_id) = b.(fe_request_id))
      || (is_some a.(fe_par_uri) && bool_decide (a.(fe_par_uri) = b.(fe_par_uri)))).

Definition fence_taken (events : gmap Uuid EventRow) (fence : DecisionFence) : bool :=
  existsb (fun event => is_some_and event.(ev_authorization) (same_fence fence))
    (snd <$> map_to_list events).

(** [INSERT ... ON CONFLICT DO NOTHING]: the events with the new one, or none. *)
Definition insert_decision (input : AuthorizationDecisionCommit) (events : gmap Uuid EventRow)
    : option (gmap Uuid EventRow) :=
  if is_some (events !! input.(dc_event_id)) || fence_taken events (decision_fence input)
  then None
  else Some (<[input.(dc_event_id) := decision_event input]> events).

(** The upsert of a grant; [counted] authorizations are added to an existing one. *)
Definition upsert_grant (key : Uuid * Uuid * Uuid) (at_ : DateTime) (scopes resources details : Value)
    (counted : Z) (grants : gmap (Uuid * Uuid * Uuid) GrantRow)
    : gmap (Uuid * Uuid * Uuid) GrantRow :=
  <[key := {| gr_first_authorized_at := match grants !! key with
                | Some row => row.(gr_first_authorized_at)
                | None => at_
                end;
              gr_last_authorized_at := at_;
              gr_last_scopes := scopes;
              gr_last_resource_indicators := resources;
              gr_last_authorization_details := details;
              gr_authorization_count := match grants !! key with
                | Some row => row.(gr_authorization_count) + counted
                | None => 1
                end |}]> grants.

Definition json_strings (l : list string) : Value := JArray (JString <$> l).

(** The two readings of [clock_timestamp()]. *)
Record DecisionClocks := {
  dk_admitted : DateTime;
  dk_final : DateTime;
}.

Definition active_client (t : DecisionTables) (tenant_id : Uuid) (client_id : string) : option Uuid :=
  client ← t.(dt_clients) !! (tenant_id, client_id);
  if client.(dl_is_active) then Some client.(dl_id) else None.

Definition active_user (t : DecisionTables) (tenant_id user_id : Uuid) : bool :=
  unwrap_or (t.(dt_users) !! (tenant_id, user_id)) false.

Definition apply_grant (input : AuthorizationDecisionCommit) (client : Uuid)
    (grants : gmap (Uuid * Uuid * Uuid) GrantRow) : gmap (Uuid * Uuid * Uuid) GrantRow :=
  if bool_decide (input.(dc_decision) = Approve)
  then upsert_grant (input.(dc_tenant_id), input.(dc_user_id), client)
         (timestamptz input.(dc_occurred_at)) (json_strings input.(dc_scopes))
         (json_strings input.(dc_resource_indicators)) input.(dc_authorization_details) 1 grants
  else grants.

Definition nazo_commit_authorization_decision (clocks : DecisionClocks)
    (input : AuthorizationDecisionCommit) (t : DecisionTables)
    : result (string * DecisionTables) DieselError :=
  let? _ := check_decision input in
  if 65536 <? jsonb_octets (decision_payload input)
  then Err (DatabaseError "authorization decision payload is too large")
  else match active_client t input.(dc_tenant_id) input.(dc_client_id) with
  | None => Ok ("client_unavailable", t)
  | Some client =>
      if negb (active_user t input.(dc_tenant_id) input.(dc_user_id))
      then Ok ("client_unavailable", t)
      else if timestamptz input.(dc_valid_until) <=? clocks.(dk_admitted) then Ok ("expired", t)
      else match insert_decision input t.(dt_events) with
      | None => Ok ("conflict", t)
      | Some events =>
          if timestamptz input.(dc_valid_until) <=? clocks.(dk_final) then Ok ("expired", t)
          else Ok ("committed", set_grants (apply_grant input client t.(dt_grants)) (set_events events t))
      end
  end.
End commit.

(** ** The repository *)

Section repository.
Context {AC : AuthorizationCrates} {DS : DecisionServer}.

Definition validate_decision_input (input : AuthorizationDecisionCommit) (tenant_id : Uuid)
    : result unit AuthorizationPortError :=
  if negb (input.(dc_tenant_id) =? tenant_id)
     || is_nil input.(dc_tenant_id) || is_nil input.(dc_user_id) || is_nil input.(dc_event_id)
     || is_empty input.(dc_request_id) || (512 <? len input.(dc_request_id))
     || is_empty input.(dc_client_id) || (512 <? len input.(dc_client_id))
     || is_some_and input.(dc_pushed_request_uri) (fun uri => is_empty uri || (1024 <? len uri))
     || (input.(dc_retain_until) <? input.(dc_valid_until))
     || (input.(dc_retain_until) <? input.(dc_occurred_at))
     || is_none (as_object input.(dc_audit_fields))
     || is_none (as_array input.(dc_authorization_details))
  then Err AuthorizationCorruptData
  else Ok tt.

(** [Map::remove] *)
Definition map_remove (key : string) (members : list (string * Value)) : list (string * Value) :=
  filter (fun p => p.1 ≠ key) members.

Definition UNIT_SEPARATOR : string := String (ascii_of_nat 31) "".

(** The members the audit facts get from the decision itself. *)
Definition bound_digests (input : AuthorizationDecisionCommit) : list (string * option string) :=
  [("resource_digest",
    match input.(dc_resource_indicators) with
    | [] => None
    | resources => Some (blake3_hex (String.concat UNIT_SEPARATOR resources))
    end);
   ("authorization_details_digest",
    match as_array input.(dc_authorization_details) with
    | None | Some [] => None
    | Some _ => Some (blake3_hex (value_to_string input.(dc_authorization_details)))
    end);
   ("pushed_request_uri_hash", blake3_hex <$> input.(dc_pushed_request_uri))].

Definition with_audit_fields (fields : Value) (input : AuthorizationDecisionCommit)
    : AuthorizationDecisionCommit :=
  {| dc_tenant_id := input.(dc_tenant_id);
     dc_user_id := input.(dc_user_id);
     dc_client_id := input.(dc_client_id);
     dc_request_id := input.(dc_request_id);
     dc_pushed_request_uri := input.(dc_pushed_request_uri);
     dc_valid_until := input.(dc_valid_until);
     dc_retain_until := input.(dc_retain_until);
     dc_decision := input.(dc_decision);
     dc_event_id := input.(dc_event_id);
     dc_occurred_at := input.(dc_occurred_at);
     dc_audit_fields := fields;
     dc_scopes := input.(dc_scopes);
     dc_resource_indicators := input.(dc_resource_indicators);
     dc_authorization_details := input.(dc_authorization_details) |}.

Definition bind_decision_audit_digests (input : AuthorizationDecisionCommit)
    : AuthorizationDecisionCommit :=
  let members := default [] (as_object input.(dc_audit_fields)) in
  let members := map_insert "request_id_hash" (JString (blake3_hex input.(dc_request_id))) members in
  with_audit_fields (JObject (foldl (fun members '(key, digest) =>
    match digest with
    | Some digest => map_insert key (JString digest) members
    | None => map_remove key members
    end) members (bound_digests input))) input.

Definition decision_outcome (outcome : string) : result AuthorizationDecisionCommitResult DieselError :=
  if decide (outcome = "committed") then Ok DecisionCommitted
  else if decide (outcome = "conflict") then Ok DecisionConflict
  else if decide (outcome = "expired") then Ok DecisionExpired
  else if decide (outcome = "client_unavailable") then Ok DecisionClientUnavailable
  else Err (DeserializationError "unknown authorization decision outcome").

Definition execute_decision (clocks : DecisionClocks) (input : AuthorizationDecisionCommit)
    : txn DecisionTables DieselError AuthorizationDecisionCommitResult :=
  let! outcome := execute (nazo_commit_authorization_decision clocks input) in
  tx_lift (decision_outcome outcome).

Definition stored_grant (row : GrantRow) : StoredAuthorizationGrant :=
  {| sg_scopes := row.(gr_last_scopes);
     sg_resource_indicators := row.(gr_last_resource_indicators);
     sg_authorization_details := row.(gr_last_authorization_details) |}.

(** A silent decision rests on the principals and the grant it has locked. *)
Definition prompt_none_body (clocks : DecisionClocks) (input : AuthorizationDecisionCommit)
    : txn DecisionTables DieselError AuthorizationDecisionCommitResult :=
  let! _ := query (fun _ => tt) in
  let! client := query (fun t => active_client t input.(dc_tenant_id) input.(dc_client_id)) in
  match client with
  | None => tx_ret DecisionClientUnavailable
  | Some client =>
      let! actor := query (fun t => active_user t input.(dc_tenant_id) input.(dc_user_id)) in
      if negb actor then tx_ret DecisionClientUnavailable
      else
        let! grant := query (fun t => t.(dt_grants) !! (input.(dc_tenant_id), input.(dc_user_id), client)) in
        if negb (is_some_and grant (fun row =>
             stored_grant_covers_requested_authorization (stored_grant row) input.(dc_scopes)
               input.(dc_resource_indicators) input.(dc_authorization_details)))
        then tx_ret DecisionGrantUnavailable
        else execute_decision clocks input
  end.

Definition decision_body (clocks : DecisionClocks) (input : AuthorizationDecisionCommit)
    : txn DecisionTables DieselError AuthorizationDecisionCommitResult :=
  if bool_decide (input.(dc_decision) = PromptNone)
  then prompt_none_body clocks input else execute_decision clocks input.

(** [AuthorizationRepositoryPort::commit_decision].  The statement of another
    decision is a transaction of its own.  [lost] is the task ending without a
    result: the statement took effect all the same or not. *)
Definition commit_decision_repository (tenant_id : Uuid) (connection : Connection)
    (lost : option bool) (clocks : DecisionClocks) (input : AuthorizationDecisionCommit)
    (t : DecisionTables)
    : result AuthorizationDecisionCommitResult AuthorizationPortError * DecisionTables :=
  match validate_decision_input input tenant_id with
  | Err e => (Err e, t)
  | Ok _ =>
      let input := bind_decision_audit_digests input in
      if negb connection.(cn_available) then (Err AuthorizationUnavailable, t)
      else
        let '(r, t') := transaction id connection (decision_body clocks input) t in
        match lost with
        | None => (map_err (fun _ => AuthorizationUnexpected) r, t')
        | Some committed => (Err AuthorizationUnavailable, if committed then t' else t)
        end
  end.

(** [grant] *)
Definition grant (connection : Connection) (tenant_id user_id client_id : Uuid) (t : DecisionTables)
    : result (option StoredAuthorizationGrant) AuthorizationPortError :=
  if negb connection.(cn_available) then Err AuthorizationUnavailable
  else map_err (fun _ => AuthorizationUnexpected) (map_ok (fun r => stored_grant <$> r.1)
    (query (fun t => t.(dt_grants) !! (tenant_id, user_id, client_id)) connection.(cn_faults) t)).

(** ** The other writers of the ledger *)

(** [nazo_persist_security_audit_event]: an event that is no decision. *)
Definition persist_event (event_id : Uuid) (event : EventRow) (t : DecisionTables)
    : result (bool * DecisionTables) DieselError :=
  if bool_decide (event.(ev_event_type) = DECISION_COMMITTED)
  then Err (DatabaseError "authorization decision requires its atomic commit API")
  else if is_nil event_id then Err (DatabaseError "invalid security audit event")
  else match t.(dt_events) !! event_id with
  | None =>
      Ok (true, set_events (<[event_id :=
        {| ev_event_type := event.(ev_event_type); ev_event_category := event.(ev_event_category);
           ev_payload := event.(ev_payload); ev_occurred_at := event.(ev_occurred_at);
           ev_authorization := None; ev_exported_at := None |}]> t.(dt_events)) t)
  | Some stored =>
      if bool_decide (stored.(ev_event_type) = event.(ev_event_type))
         && bool_decide (stored.(ev_event_category) = event.(ev_event_category))
         && bool_decide (stored.(ev_payload) = event.(ev_payload))
         && bool_decide (stored.(ev_occurred_at) = event.(ev_occurred_at))
      then Ok (false, t)
      else Err (DatabaseError "security audit event id collision")
  end.

Definition is_decision (event : EventRow) : bool := bool_decide (event.(ev_event_type) = DECISION_COMMITTED).

(** [nazo_ack_security_audit_batch] on the delivered events [ids]: a decision is
    marked and its payload released, another event is deleted. *)
Definition acknowledge (exported_at : DateTime) (ids : list Uuid) (t : DecisionTables) : DecisionTables :=
  set_events (map_imap (fun id event =>
    if negb (bool_decide (id ∈ ids)) then Some event
    else if negb (is_decision event) then None
    else match event.(ev_exported_at) with
    | Some _ => Some event
    | None =>
        Some {| ev_event_type := event.(ev_event_type); ev_event_category := event.(ev_event_category);
                ev_payload := JObject []; ev_occurred_at := event.(ev_occurred_at);
                ev_authorization := event.(ev_authorization); ev_exported_at := Some exported_at |}
    end) t.(dt_events)) t.

(** [nazo_cleanup_authorization_decisions] for the rows of [chosen] that are due,
    of which the server takes 256 at most. *)
Definition reclaimable (started : DateTime) (event : EventRow) : bool :=
  is_decision event && is_some event.(ev_exported_at)
  && is_some_and event.(ev_authorization) (fun fence => fence.(fe_retain_until) <=? started).

Definition DECISION_CLEANUP_LIMIT : nat := 256.

Definition cleanup_authorization_decisions (started : DateTime) (chosen : list Uuid) (t : DecisionTables)
    : DecisionTables :=
  let due := take DECISION_CLEANUP_LIMIT (filter (fun id =>
    is_some_and (t.(dt_events) !! id) (reclaimable started) = true) chosen) in
  set_events (foldr delete t.(dt_events) due) t.
End repository.
