(* ===== verification/PostgresDecisionsFacts.v ===== *)
(** * A request is decided once

    Histories of the ledger of [PostgresDecisions]: decisions, other events, the
    exporter's acknowledgements and the clean-up, in any order, each decision
    failing or losing its reply as it may.  While a decision is retained its row
    fences the request and the pushed request; it is reclaimed only when no
    decision on the same request could still be valid. *)
From stdpp Require Import base list strings gmap.
From S2P Require Import Prelude Chrono Postgres Text Json AuthorizationDetails AuthorizationFlow.
From S2P Require Import PostgresDecisions.

Local Open Scope rust_scope.
Local Open Scope string_scope.
Local Open Scope list_scope.
Local Open Scope Z_scope.

(** ** Histories *)

Inductive DecisionOperation :=
| OpDecide (tenant_id : Uuid) (connection : Connection) (lost : option bool)
    (clocks : DecisionClocks) (input : AuthorizationDecisionCommit)
| OpPersist (event_id : Uuid) (event : EventRow)
| OpAcknowledge (exported_at : DateTime) (ids : list Uuid)
| OpCleanup (started : DateTime) (chosen : list Uuid)
| OpOther (clients : gmap (Uuid * string) DecisionClientRow) (users : gmap (Uuid * Uuid) bool)
    (grants : gmap (Uuid * Uuid * Uuid) GrantRow) (receipts : gmap (Uuid * string) DateTime).

Section histories.
Context {AC : AuthorizationCrates} {DS : DecisionServer}.

(** What an operation leaves; the transactions of [OpOther] do not write the ledger. *)
Definition perform_decision (op : DecisionOperation) (t : DecisionTables) : DecisionTables :=
  match op with
  | OpDecide tenant_id connection lost clocks input =>
      (commit_decision_repository tenant_id connection lost clocks input t).2
  | OpPersist event_id event =>
      match persist_event event_id event t with Ok (_, t') => t' | Err _ => t end
  | OpAcknowledge exported_at ids => acknowledge exported_at ids t
  | OpCleanup started chosen => cleanup_authorization_decisions started chosen t
  | OpOther clients users grants receipts =>
      {| dt_clients := clients; dt_users := users; dt_grants := grants;
         dt_events := t.(dt_events); dt_receipts := receipts |}
  end.

(** A decision reads the clock last after its row is in place, so after the
    operations that made place for it. *)
Definition timed_decision (lo hi : DateTime) (op : DecisionOperation) : Prop :=
  lo ≤ hi ∧
  match op with
  | OpDecide _ _ _ clocks _ => lo ≤ clocks.(dk_final) ≤ hi
  | OpCleanup started _ => started ≤ hi
  | _ => True
  end.

(** The decision that an operation records, whatever its caller learns of it. *)
Definition recorded (op : DecisionOperation) (t t' : DecisionTables) : list AuthorizationDecisionCommit :=
  match op with
  | OpDecide _ _ _ _ input =>
      if is_none (t.(dt_events) !! input.(dc_event_id))
         && is_some (t'.(dt_events) !! input.(dc_event_id))
      then [input] else []
  | _ => []
  end.

Inductive decision_history (t0 : DecisionTables) (now0 : DateTime)
    : list AuthorizationDecisionCommit → DateTime → DecisionTables → Prop :=
| decision_history_nil : decision_history t0 now0 [] now0 t0
| decision_history_snoc log now t op now' :
    decision_history t0 now0 log now t → timed_decision now now' op →
    decision_history t0 now0 (log ++ recorded op t (perform_decision op t)) now'
      (perform_decision op t).

(** Two decisions on the same request, or on the same pushed request. *)
Definition same_request (a b : AuthorizationDecisionCommit) : Prop :=
  a.(dc_tenant_id) = b.(dc_tenant_id) ∧
  (a.(dc_request_id) = b.(dc_request_id) ∨
   is_Some a.(dc_pushed_request_uri) ∧ a.(dc_pushed_request_uri) = b.(dc_pushed_request_uri)).

(** ** What a commit does *)

(** The causes of the results, and what a committed decision leaves. *)
Definition committed_decision (clocks : DecisionClocks) (input : AuthorizationDecisionCommit)
    (client : Uuid) (t t' : DecisionTables) : Prop :=
  active_client t input.(dc_tenant_id) input.(dc_client_id) = Some client ∧
  active_user t input.(dc_tenant_id) input.(dc_user_id) = true ∧
  clocks.(dk_final) < timestamptz input.(dc_valid_until) ∧
  t.(dt_events) !! input.(dc_event_id) = None ∧
  fence_taken t.(dt_events) (decision_fence input) = false ∧
  t' = set_grants (apply_grant input client t.(dt_grants))
         (set_events (<[input.(dc_event_id) := decision_event input]> t.(dt_events)) t).

Lemma nazo_commit_cases clocks input t s t' :
  nazo_commit_authorization_decision clocks input t = Ok (s, t') →
  t' = t ∧ (s = "client_unavailable" ∨ s = "expired" ∨ s = "conflict") ∨
  s = "committed" ∧ ∃ client, committed_decision clocks input client t t'.
Proof.
  unfold nazo_commit_authorization_decision. destruct (check_decision input); [|done]. simpl.
  destruct (65536 <? _); [done|].
  destruct (active_client _ _ _) as [client|] eqn:Hc; [|intros [= <- <-]; auto].
  destruct (active_user _ _ _) eqn:Hu; simpl; [|intros [= <- <-]; auto].
  destruct (_ <=? dk_admitted clocks); [intros [= <- <-]; auto|].
  destruct (insert_decision _ _) as [events|] eqn:Hi; [|intros [= <- <-]; auto].
  destruct (_ <=? dk_final clocks) eqn:Hf; intros [= <- <-]; [auto|]. right. split; [done|].
  exists client. unfold insert_decision in Hi.
  destruct (dt_events t !! dc_event_id input) eqn:He; simpl in Hi; [done|].
  destruct (fence_taken _ _) eqn:Ht; simplify_eq. unfold committed_decision. boolify. auto 10.
Qed.

Lemma execute_decision_cases clocks input f t r f' t' :
  execute_decision clocks input f t = Ok (r, (f', t')) →
  t' = t ∧ r ≠ DecisionCommitted ∧ r ≠ DecisionGrantUnavailable ∨
  r = DecisionCommitted ∧ ∃ client, committed_decision clocks input client t t'.
Proof.
  unfold execute_decision. intros H. tx_inv.
  match goal with H : nazo_commit_authorization_decision _ _ _ = _ |- _ =>
    apply nazo_commit_cases in H as [[-> [-> |[-> | ->]]]|[-> ?]] end; unfold decision_outcome in *;
    simplify_eq/=; auto.
Qed.

(** The decision that the repository hands to the server. *)
Definition bound_input (input : AuthorizationDecisionCommit) : AuthorizationDecisionCommit :=
  bind_decision_audit_digests input.

Definition silently_covered (input : AuthorizationDecisionCommit) (client : Uuid) (t : DecisionTables)
    : Prop :=
  ∃ row, t.(dt_grants) !! (input.(dc_tenant_id), input.(dc_user_id), client) = Some row ∧
    stored_grant_covers_requested_authorization (stored_grant row) input.(dc_scopes)
      input.(dc_resource_indicators) input.(dc_authorization_details) = true.

Lemma prompt_none_cases clocks input f t r f' t' :
  prompt_none_body clocks input f t = Ok (r, (f', t')) →
  t' = t ∧ r ≠ DecisionCommitted ∨
  r = DecisionCommitted ∧ ∃ client, committed_decision clocks input client t t' ∧
    silently_covered input client t.
Proof.
  unfold prompt_none_body. intros H. tx_inv.
  destruct (active_client t _ _) as [client|] eqn:Hc; [|tx_inv; auto]. tx_inv.
  destruct (active_user t _ _) eqn:Hu; simpl in *; [|tx_inv; auto]. tx_inv.
  destruct (dt_grants t !! _) as [row|] eqn:Hg; simpl in *; [|tx_inv; auto].
  destruct (stored_grant_covers_requested_authorization _ _ _ _) eqn:Hcov; simpl in *; [|tx_inv; auto].
  match goal with H : execute_decision _ _ _ _ = _ |- _ =>
    apply execute_decision_cases in H as [(-> & ? & _)|(-> & client' & Hcd)] end; [auto|].
  right. split; [done|]. exists client'. split; [done|]. exists row. split; [|done].
  destruct Hcd as (Hc' & _). congruence.
Qed.

Lemma decision_body_cases clocks input f t r f' t' :
  decision_body clocks input f t = Ok (r, (f', t')) →
  t' = t ∧ r ≠ DecisionCommitted ∨
  r = DecisionCommitted ∧ ∃ client, committed_decision clocks input client t t' ∧
    (input.(dc_decision) = PromptNone → silently_covered input client t).
Proof.
  unfold decision_body. intros H. case_bool_decide.
  - apply prompt_none_cases in H as [?|(-> & client & ? & ?)]; eauto 6.
  - apply execute_decision_cases in H as [(-> & ? & _)|(-> & client & ?)]; [auto|].
    right. split; [done|]. exists client. by split.
Qed.

(** Every call: the tables are left, or the decision is recorded; the caller
    learns which, unless the reply is lost. *)
Lemma commit_repository_cases tenant_id c lost clocks input t r t' :
  commit_decision_repository tenant_id c lost clocks input t = (r, t') →
  t' = t ∧ r ≠ Ok DecisionCommitted ∨
  (r = Ok DecisionCommitted ∨ (is_Some c.(cn_commit) ∨ is_Some lost) ∧ ∃ e, r = Err e) ∧
  validate_decision_input input tenant_id = Ok tt ∧
  ∃ client, committed_decision clocks (bound_input input) client t t' ∧
    (input.(dc_decision) = PromptNone → silently_covered input client t).
Proof.
  unfold commit_decision_repository.
  destruct (validate_decision_input input tenant_id) as [[]|] eqn:Hv; [|intros [= <- <-]; auto].
  destruct (cn_available c); simpl; [|intros [= <- <-]; auto].
  destruct (transaction _ _ _ _) as [r1 t1] eqn:Htx. intros H.
  assert (t1 = t ∧ r1 ≠ Ok DecisionCommitted ∨
    (r1 = Ok DecisionCommitted ∨ is_Some (cn_commit c) ∧ ∃ e, r1 = Err e) ∧
    ∃ client, committed_decision clocks (bound_input input) client t t1 ∧
      (input.(dc_decision) = PromptNone → silently_covered input client t)) as Hc.
  { unfold transaction in Htx.
    destruct (decision_body _ _ (cn_faults c) t) as [[a [f' t2]]|e] eqn:Hbody;
      [|simplify_eq; by left].
    apply decision_body_cases in Hbody as Hb. destruct Hb as [[-> ?]|[-> Hb]], (cn_commit c) as [[e [|]]|]; simplify_eq; eauto 7;
      left; split; congruence. }
  destruct lost as [[|]|]; simplify_eq.
  - destruct Hc as [[-> _]|[_ Hc]]; [by left|]. right. split; [|by split]. right. eauto.
  - by left.
  - destruct Hc as [[-> Hr]|[Hr Hc]]; [left; split; [done|]; by destruct r1; simplify_eq/=; congruence|].
    right. split; [|by split]. destruct Hr as [-> |[? [e ->]]]; simpl; eauto.
Qed.

(** ** Fences *)

Lemma fence_taken_false events f id event g :
  fence_taken events f = false → events !! id = Some event → event.(ev_authorization) = Some g →
  same_fence f g = false.
Proof.
  unfold fence_taken. intros Hf He Hg. destruct (same_fence f g) eqn:Hs; [|done].
  rewrite <-Hf. symmetry. apply existsb_exists. exists event. rewrite Hg. split; [|done].
  apply list_elem_of_In, list_elem_of_fmap. exists (id, event). by rewrite elem_of_map_to_list.
Qed.

(** The decision's row is in place, or its retention is over. *)
Definition fenced (now : DateTime) (t : DecisionTables) (a : AuthorizationDecisionCommit) : Prop :=
  (∃ id event, t.(dt_events) !! id = Some event ∧ is_decision event = true ∧
     event.(ev_authorization) = Some (decision_fence a)) ∨
  timestamptz a.(dc_retain_until) ≤ now.

Lemma fenced_mono now now' t t' a :
  now ≤ now' → (∀ id event, t.(dt_events) !! id = Some event → is_decision event = true →
    ∃ event', t'.(dt_events) !! id = Some event' ∧ is_decision event' = true ∧
      event'.(ev_authorization) = event.(ev_authorization)) →
  fenced now t a → fenced now' t' a.
Proof.
  intros Hn Ht [(id & event & He & Hd & Hf)|?]; [|right; lia].
  destruct (Ht id event He Hd) as (event' & ? & ? & ?). left. exists id, event'. by rewrite <-Hf.
Qed.

Lemma acknowledge_fenced exported_at ids t id event :
  t.(dt_events) !! id = Some event → is_decision event = true →
  ∃ event', (acknowledge exported_at ids t).(dt_events) !! id = Some event' ∧
    is_decision event' = true ∧ event'.(ev_authorization) = event.(ev_authorization).
Proof.
  intros He Hd. simpl. rewrite map_lookup_imap, He. simpl.
  destruct (bool_decide (id ∈ ids)); simpl; [|eauto].
  rewrite Hd. simpl. destruct (ev_exported_at event); eauto.
Qed.

Lemma foldr_delete_lookup {A} (m : gmap Uuid A) ids id :
  foldr delete m ids !! id = if bool_decide (id ∈ ids) then None else m !! id.
Proof.
  induction ids as [|i ids IH]; simpl; [done|].
  destruct (decide (i = id)) as [->|Hne].
  - rewrite lookup_delete_eq. rewrite bool_decide_true; [done|set_solver].
  - rewrite lookup_delete_ne, IH by done. repeat case_bool_decide; set_solver.
Qed.

Lemma cleanup_fenced started chosen now t a :
  started ≤ now → fenced now t a → fenced now (cleanup_authorization_decisions started chosen t) a.
Proof.
  intros Hs [(id & event & He & Hd & Hf)|?]; [|by right].
  unfold cleanup_authorization_decisions. set (due := take _ _).
  destruct (decide (id ∈ due)) as [Hin|Hin].
  - right. assert (is_some_and (t.(dt_events) !! id) (reclaimable started) = true) as Hr.
    { subst due. apply elem_of_take in Hin as (i & Hi & _).
      apply list_elem_of_lookup_2, list_elem_of_filter in Hi. tauto. }
    rewrite He in Hr. simpl in Hr. unfold reclaimable in Hr. rewrite Hf in Hr. simpl in Hr. boolify. lia.
  - left. exists id, event. simpl. rewrite foldr_delete_lookup, bool_decide_false by done. done.
Qed.

Lemma insert_fenced now now' t t' id event a :
  now ≤ now' → t.(dt_events) !! id = None → t'.(dt_events) = <[id := event]> t.(dt_events) →
  fenced now t a → fenced now' t' a.
Proof.
  intros Hn Hnone Ht'. apply fenced_mono; [done|]. intros id' event' He Hd. rewrite Ht'.
  exists event'. rewrite lookup_insert_ne by congruence. done.
Qed.

(** ** The invariant of a history *)

Lemma recorded_fenced now op t a :
  a ∈ recorded op t (perform_decision op t) → fenced now (perform_decision op t) a.
Proof.
  destruct op as [tenant c lost clocks input| | | |]; simpl; [|set_solver..].
  destruct (commit_decision_repository _ _ _ _ _ _) as [r t'] eqn:Hc. simpl.
  apply commit_repository_cases in Hc as [[-> _]|(_ & _ & client & Hcd & _)].
  - case_match; [|set_solver]. destruct (_ !! _); done.
  - destruct Hcd as (_ & _ & _ & _ & _ & ->). intros Ha. assert (a = input) as -> by (case_match; set_solver).
    left. exists (dc_event_id input), (decision_event (bound_input input)). simpl.
    by rewrite lookup_insert_eq.
Qed.

Lemma bound_fence input : decision_fence (bound_input input) = decision_fence input.
Proof. done. Qed.

(** Earlier decisions stay fenced, and a new one is outside their validity. *)
Lemma perform_fenced now now' op t a :
  timed_decision now now' op → fenced now t a →
  fenced now' (perform_decision op t) a ∧
  ∀ b, b ∈ recorded op t (perform_decision op t) → same_request a b →
    timestamptz a.(dc_retain_until) < timestamptz b.(dc_valid_until).
Proof.
  intros [Hn Ht] Ha. destruct op as [tenant c lost clocks input|id event| | |]; simpl in *.
  - destruct (commit_decision_repository _ _ _ _ _ _) as [r t'] eqn:Hc. simpl.
    apply commit_repository_cases in Hc as [[-> _]|(_ & _ & client & Hcd & _)].
    + split; [by apply (fenced_mono now _ t); eauto|]. intros b. case_match eqn:Hr; [|set_solver].
      destruct (_ !! _); done.
    + destruct Hcd as (_ & _ & Hf & He & Hfence & ->). split; [by eapply insert_fenced|].
      intros b Hb Hsame. assert (b = input) as -> by (case_match; set_solver).
      destruct Ha as [(id & event & Hev & _ & Hauth)|?].
      * eapply fence_taken_false in Hev; [|exact Hfence|exact Hauth].
        rewrite bound_fence in Hev. unfold same_fence in Hev. simpl in Hev.
        destruct Hsame as [Hten Hsame]. rewrite Hten, bool_decide_true in Hev by done. simpl in Hev.
        apply orb_false_iff in Hev as [Hev1%bool_decide_eq_false_1 Hev2].
        destruct Hsame as [|[[uri Huri] Heq]]; [congruence|].
        rewrite <-Heq, Huri in Hev2. simpl in Hev2. by rewrite bool_decide_true in Hev2.
      * simpl in Hf. lia.
  - split; [|set_solver]. unfold persist_event.
    assert (fenced now' t a) by (apply (fenced_mono now _ t); eauto).
    repeat case_match; simplify_eq; try done.
    eapply insert_fenced; [reflexivity|eassumption|reflexivity|done].
  - split; [|set_solver]. eapply fenced_mono; [done|apply acknowledge_fenced|done].
  - split; [|set_solver]. apply cleanup_fenced; [done|]. by apply (fenced_mono now _ t); eauto.
  - split; [|set_solver]. apply (fenced_mono now _ t); simpl; eauto.
Qed.

(** Every recorded decision is fenced, and each is outside the retention of the
    earlier ones on its request. *)
Lemma history_fenced t0 now0 log now t :
  decision_history t0 now0 log now t →
  (∀ a, a ∈ log → fenced now t a) ∧
  ∀ i j a b, log !! i = Some a → log !! j = Some b → (i < j)%nat → same_request a b →
    timestamptz a.(dc_retain_until) < timestamptz b.(dc_valid_until).
Proof.
  induction 1 as [|log now t op now' _ [IH1 IH2] Ht]; [split; set_solver|]. split.
  - intros a [Ha|Ha]%elem_of_app; [by eapply perform_fenced; eauto|].
    by eapply recorded_fenced.
  - intros i j a b Ha Hb Hij Hs.
    destruct (decide (j < length log)%nat) as [Hj|Hj].
    + rewrite lookup_app_l in Ha, Hb by lia. eauto.
    + rewrite lookup_app_r in Hb by lia. apply list_elem_of_lookup_2 in Hb as Hin.
      assert (i < length log)%nat as Hi.
      { assert (length (recorded op t (perform_decision op t)) ≤ 1)%nat
          by (destruct op; simpl; repeat case_match; simpl; lia).
        apply lookup_lt_Some in Hb. lia. }
      rewrite lookup_app_l in Ha by done. eapply perform_fenced; eauto using list_elem_of_lookup_2.
Qed.

(** A request, and a pushed request, is decided at most once.  In any history of
    the ledger - decisions that commit, fail or lose their reply, other events,
    exports, clean-ups - two recorded decisions on the same request (or on the same
    pushed request) are apart: the second was valid only after the retention of
    the first.  Decisions valid at a common time exclude each other, whatever
    the callers learnt. *)
Theorem decision_recorded_once
    (timestamptz_mono : ∀ a b, a ≤ b → timestamptz a ≤ timestamptz b)
    t0 now0 log now t i j a b :
  decision_history t0 now0 log now t →
  log !! i = Some a → log !! j = Some b → (i < j)%nat → same_request a b →
  a.(dc_retain_until) < b.(dc_valid_until).
Proof.
  intros Hh Ha Hb Hij Hs. apply Z.lt_nge. intros Hle%timestamptz_mono.
  destruct (history_fenced _ _ _ _ _ Hh) as [_ Hf]. specialize (Hf i j a b Ha Hb Hij Hs). lia.
Qed.

(** C9: what a commit of a decision does, on every branch.  It leaves the tables and
    does not answer [Committed]; or - answering so, unless the reply was lost - the
    client and the user are active, the clock read last is before the decision's
    deadline, no decision on its request or pushed request was on record, and
    exactly the decision's event is added.  An approval writes the grant with what
    was approved and counts it; a silent decision rests on a stored grant that
    covers it and, like a denial, leaves the grants alone. *)
Theorem decision_commit_effects tenant_id c lost clocks input t :
  let '(r, t') := commit_decision_repository tenant_id c lost clocks input t in
  t' = t ∧ r ≠ Ok DecisionCommitted ∨
  (r = Ok DecisionCommitted ∨ (is_Some c.(cn_commit) ∨ is_Some lost) ∧ ∃ e, r = Err e) ∧
  validate_decision_input input tenant_id = Ok tt ∧
  ∃ client event,
    active_client t input.(dc_tenant_id) input.(dc_client_id) = Some client ∧
    active_user t input.(dc_tenant_id) input.(dc_user_id) = true ∧
    clocks.(dk_final) < timestamptz input.(dc_valid_until) ∧
    t.(dt_events) !! input.(dc_event_id) = None ∧
    (∀ id stored fence, t.(dt_events) !! id = Some stored → stored.(ev_authorization) = Some fence →
       fence.(fe_tenant_id) = input.(dc_tenant_id) →
       fence.(fe_request_id) ≠ input.(dc_request_id) ∧
       ∀ uri, input.(dc_pushed_request_uri) = Some uri → fence.(fe_par_uri) ≠ Some uri) ∧
    event.(ev_event_type) = DECISION_COMMITTED ∧
    event.(ev_authorization) = Some (decision_fence input) ∧ event.(ev_exported_at) = None ∧
    (input.(dc_decision) = PromptNone → silently_covered input client t) ∧
    t' = {| dt_clients := t.(dt_clients); dt_users := t.(dt_users);
            dt_grants := if decide (input.(dc_decision) = Approve)
              then upsert_grant (input.(dc_tenant_id), input.(dc_user_id), client)
                     (timestamptz input.(dc_occurred_at)) (json_strings input.(dc_scopes))
                     (json_strings input.(dc_resource_indicators)) input.(dc_authorization_details) 1
                     t.(dt_grants)
              else t.(dt_grants);
            dt_events := <[input.(dc_event_id) := event]> t.(dt_events);
            dt_receipts := t.(dt_receipts) |}.
Proof.
  destruct (commit_decision_repository _ _ _ _ _ _) as [r t'] eqn:Hc.
  apply commit_repository_cases in Hc as [?|(Hr & Hv & client & (Hcl & Hu & Hf & He & Hfence & ->) & Hs)];
    [by left|right]. split; [done|]. split; [done|].
  exists client, (decision_event (bound_input input)). split_and!; try done.
  - intros id stored fence Hid Hauth Hten.
    pose proof (fence_taken_false _ _ _ _ _ Hfence Hid Hauth) as Hsf. unfold same_fence in Hsf. simpl in Hsf.
    rewrite Hten, bool_decide_true in Hsf by done. simpl in Hsf.
    apply orb_false_iff in Hsf as [H1%bool_decide_eq_false_1 H2]. split; [congruence|].
    intros uri Huri Hpar. rewrite Huri, Hpar in H2. simpl in H2. by rewrite bool_decide_true in H2.
  - unfold set_grants, set_events, apply_grant. simpl. f_equal. case_bool_decide; by case_decide.
Qed.
End histories.
