(* ===== verification/PostgresGrants.v ===== *)
(** * Grants and device approvals

    [crates/persistence-postgres/src/repositories/grants.rs]: the grant of a device
    approval, which a receipt keeps from being counted twice, and the clean-up of the
    receipts ([security_state.rs]).  The statements of an approval run at READ
    COMMITTED: what other transactions commit between its check of the deadline and
    its insertion of the receipt ([between]) is seen by the insertion. *)
From stdpp Require Import base list strings gmap.
From S2P Require Import Prelude Chrono Postgres Text Json DeviceGrant AuthorizationFlow PostgresDecisions.

Local Open Scope rust_scope.
Local Open Scope string_scope.
Local Open Scope list_scope.
Local Open Scope Z_scope.
Local Open Scope tx_scope.

(** ** The repository *)
Section repository.
Context {DS : DecisionServer}.

(** The [Display] of a statement's error. *)
Context (diesel_error_text : DieselError → string).

Definition grant_error (error : DieselError) : RepositoryError := Unexpected (diesel_error_text error).

Definition ensure_on_connection (now : DateTime) (tenant_id user_id client_id : Uuid)
    (scopes resource_indicators : list string) (authorization_details : Value)
    (new_authorization : bool) : txn DecisionTables DieselError unit :=
  update (fun t => set_grants (upsert_grant (tenant_id, user_id, client_id) (timestamptz now)
    (json_strings scopes) (json_strings resource_indicators) authorization_details
    (if new_authorization then 1 else 0) t.(dt_grants)) t).

(** [ensure] *)
Definition ensure (connection : Connection) (now : DateTime) (tenant_id user_id client_id : Uuid)
    (scopes resource_indicators : list string) (authorization_details : Value) (t : DecisionTables)
    : result unit RepositoryError * DecisionTables :=
  if negb connection.(cn_available) then (Err Unavailable, t)
  else match ensure_on_connection now tenant_id user_id client_id scopes resource_indicators
               authorization_details false connection.(cn_faults) t with
       | Ok (_, (_, t')) => (Ok tt, t')
       | Err e => (Err (grant_error e), t)
       end.

(** The client by its row. *)
Definition active_client_row (t : DecisionTables) (tenant_id client_id : Uuid) : bool :=
  existsb (fun '((tenant, _), row) => (tenant =? tenant_id) && (row.(dl_id) =? client_id) && row.(dl_is_active))
    (map_to_list t.(dt_clients)).

(** What an approval checks, the deadline last, against the clock. *)
Definition admit_device_approval (clock : DateTime) (write : DeviceGrantWrite)
    : txn DecisionTables DieselError unit :=
  let! client := query (fun t => active_client_row t write.(dw_tenant_id) write.(dw_client_id)) in
  if negb client then tx_err DieselNotFound
  else
    let! user := query (fun t => active_user t write.(dw_tenant_id) write.(dw_user_id)) in
    if negb user then tx_err DieselNotFound
    else
      let! _ := advisory_lock in
      let! valid := query (fun _ => clock <? timestamptz write.(dw_expires_at)) in
      if negb valid then tx_err RollbackTransaction else tx_ret tt.

(** [INSERT ... ON CONFLICT DO NOTHING]: whether the receipt is new. *)
Definition insert_receipt (write : DeviceGrantWrite) (t : DecisionTables) : bool * DecisionTables :=
  let key := (write.(dw_tenant_id), write.(dw_device_code_hash)) in
  match t.(dt_receipts) !! key with
  | Some _ => (false, t)
  | None => (true, set_receipts (<[key := timestamptz write.(dw_expires_at)]> t.(dt_receipts)) t)
  end.

Definition write_device_approval (now : DateTime) (write : DeviceGrantWrite)
    : txn DecisionTables DieselError unit :=
  let! inserted := execute (fun t => Ok (insert_receipt write t)) in
  if negb inserted then tx_ret tt
  else ensure_on_connection now write.(dw_tenant_id) write.(dw_user_id) write.(dw_client_id)
         write.(dw_scopes) write.(dw_resource_indicators) write.(dw_authorization_details) true.

Definition commit_device_approval (connection : Connection) (clock now : DateTime)
    (between : DecisionTables → DecisionTables) (write : DeviceGrantWrite) (t : DecisionTables)
    : result unit RepositoryError * DecisionTables :=
  let ported (r : result unit DieselError) := map_err (fun e =>
    match e with RollbackTransaction => Conflict | e => grant_error e end) r in
  if negb connection.(cn_available) then (Err Unavailable, between t)
  else match admit_device_approval clock write connection.(cn_faults) t with
  | Err e => (ported (Err e), between t)
  | Ok (_, (faults, _)) =>
      let '(r, t') := transaction id
        {| cn_available := true; cn_faults := faults; cn_commit := connection.(cn_commit) |}
        (write_device_approval now write) (between t) in
      (ported r, t')
  end.

Definition map_device_repository_error (error : RepositoryError) : DeviceGrantPortError :=
  match error with
  | Unavailable => GrantUnavailable
  | Conflict | AlreadyProcessed => GrantConflict
  | Consistency _ => GrantCorruptData
  | NotFound | Unexpected _ => GrantUnexpected
  end.

(** [DeviceGrantRepositoryPort::upsert_grant] *)
Definition upsert_device_grant (tenant_id : Uuid) (connection : Connection) (clock now : DateTime)
    (between : DecisionTables → DecisionTables) (write : DeviceGrantWrite) (t : DecisionTables)
    : result unit DeviceGrantPortError * DecisionTables :=
  if negb (write.(dw_tenant_id) =? tenant_id) then (Err GrantCorruptData, between t)
  else
    let '(r, t') := commit_device_approval connection clock now between write t in
    (map_err map_device_repository_error r, t').
End repository.

(** ** The clean-up of receipts ([generic_cleanup]) *)

Definition RECEIPT_CLEANUP_LIMIT : nat := 256.

(** [chosen]: the order and the rows that are not locked. *)
Definition cleanup_receipts (started : DateTime) (chosen : list (Uuid * string)) (t : DecisionTables)
    : DecisionTables :=
  let due := take RECEIPT_CLEANUP_LIMIT (filter (fun key =>
    is_some_and (t.(dt_receipts) !! key) (fun expires_at => expires_at <=? started) = true) chosen) in
  set_receipts (foldr delete t.(dt_receipts) due) t.
