(* ===== verification/PostgresGrantsFacts.v ===== *)
(** * How often a device approval is counted

    Histories of approvals and of the clean-up of their receipts.  An approval that
    inserts its receipt before the deadline is counted once.  The code checks the
    deadline before the insertion only, and a clean-up in between lets a repeated
    approval be counted again. *)
From stdpp Require Import base list strings gmap.
From S2P Require Import Prelude Chrono Postgres Text Json DeviceGrant AuthorizationFlow PostgresDecisions.
From S2P Require Import PostgresGrants.

Local Open Scope rust_scope.
Local Open Scope string_scope.
Local Open Scope list_scope.
Local Open Scope Z_scope.

(** What other transactions do: the clean-up, and writes of other tables. *)
Inductive ReceiptOperation :=
| CleanReceipts (started : DateTime) (chosen : list (Uuid * string))
| OtherTables (clients : gmap (Uuid * string) DecisionClientRow) (users : gmap (Uuid * Uuid) bool)
    (grants : gmap (Uuid * Uuid * Uuid) GrantRow) (events : gmap Uuid EventRow).

Definition perform_receipt (op : ReceiptOperation) (t : DecisionTables) : DecisionTables :=
  match op with
  | CleanReceipts started chosen => cleanup_receipts started chosen t
  | OtherTables clients users grants events =>
      {| dt_clients := clients; dt_users := users; dt_grants := grants; dt_events := events;
         dt_receipts := t.(dt_receipts) |}
  end.

Definition perform_receipts (ops : list ReceiptOperation) (t : DecisionTables) : DecisionTables :=
  foldl (fun t op => perform_receipt op t) t ops.

Definition started_by (now : DateTime) (op : ReceiptOperation) : Prop :=
  match op with CleanReceipts started _ => started ≤ now | _ => True end.

Definition receipt_key (write : DeviceGrantWrite) : Uuid * string :=
  (write.(dw_tenant_id), write.(dw_device_code_hash)).

Section histories.
Context {DS : DecisionServer} (diesel_error_text : DieselError → string).

(** The approval that a call counts. *)
Definition counted (write : DeviceGrantWrite) (t t' : DecisionTables) : list DeviceGrantWrite :=
  if is_none (t.(dt_receipts) !! receipt_key write) && is_some (t'.(dt_receipts) !! receipt_key write)
  then [write] else [].

(** An approval checks the deadline at [clock]; [ops] commit; its receipt is
    inserted at [at_], where [timely] holds. *)
Inductive approval_history (timely : DeviceGrantWrite → DateTime → Prop) (t0 : DecisionTables) (now0 : DateTime)
    : list DeviceGrantWrite → DateTime → DecisionTables → Prop :=
| approval_history_nil : approval_history timely t0 now0 [] now0 t0
| approval_history_background log now t op now' :
    approval_history timely t0 now0 log now t → now ≤ now' → started_by now' op →
    approval_history timely t0 now0 log now' (perform_receipt op t)
| approval_history_approve log now t connection clock ops at_ write r t' :
    approval_history timely t0 now0 log now t → now ≤ clock → clock ≤ at_ →
    Forall (started_by at_) ops → timely write at_ →
    commit_device_approval diesel_error_text connection clock at_ (perform_receipts ops) write t = (r, t') →
    approval_history timely t0 now0 (log ++ counted write (perform_receipts ops t) t') at_ t'.

(** A counted approval keeps its receipt until its deadline. *)
Definition fenced_approval (now : DateTime) (t : DecisionTables) (a : DeviceGrantWrite) : Prop :=
  t.(dt_receipts) !! receipt_key a = Some (timestamptz a.(dw_expires_at)) ∨
  timestamptz a.(dw_expires_at) ≤ now.

Lemma delete_receipts (receipts : gmap (Uuid * string) DateTime) keys key :
  foldr delete receipts keys !! key = if decide (key ∈ keys) then None else receipts !! key.
Proof.
  induction keys as [|k keys IH]; simpl; [done|].
  destruct (decide (k = key)) as [->|Hne].
  - rewrite lookup_delete_eq, decide_True; [done|apply list_elem_of_here].
  - rewrite lookup_delete_ne, IH by done. by repeat case_decide; set_solver.
Qed.

Lemma perform_receipt_fenced now op t a :
  started_by now op → fenced_approval now t a → fenced_approval now (perform_receipt op t) a.
Proof.
  intros Hs [Ha|?]; [|by right]. destruct op as [started chosen|]; [|by left]. simpl in Hs.
  unfold fenced_approval, perform_receipt, cleanup_receipts. simpl. rewrite delete_receipts.
  case_decide as Hin; [|by left]. right.
  apply elem_of_take in Hin as (i & Hin & _).
  apply list_elem_of_lookup_2, list_elem_of_filter in Hin as [Hdue _]. rewrite Ha in Hdue. simpl in Hdue.
  boolify. lia.
Qed.

Lemma perform_receipts_fenced now ops t a :
  Forall (started_by now) ops → fenced_approval now t a → fenced_approval now (perform_receipts ops t) a.
Proof.
  unfold perform_receipts. revert t. induction ops as [|op ops IH]; intros t; [done|].
  intros [Hop Hops]%Forall_cons Ha. simpl. apply IH; [done|]. by apply perform_receipt_fenced.
Qed.

(** What a call leaves of the receipts. *)
Lemma commit_device_approval_receipts c clock at_ between write t r t' :
  commit_device_approval diesel_error_text c clock at_ between write t = (r, t') →
  t'.(dt_receipts) = (between t).(dt_receipts) ∨
  (between t).(dt_receipts) !! receipt_key write = None ∧
  t'.(dt_receipts) = <[receipt_key write := timestamptz write.(dw_expires_at)]> (between t).(dt_receipts).
Proof.
  unfold commit_device_approval. destruct (negb _); [intros [= <- <-]; auto|].
  destruct (admit_device_approval _ _ _ _) as [[[] [faults t1]]|]; [|intros [= <- <-]; auto].
  unfold transaction. cbn [cn_faults cn_commit].
  destruct (write_device_approval _ _ _ _) as [[[] [f2 t2]]|] eqn:Hw; [|intros [= <- <-]; auto].
  assert (t2.(dt_receipts) = (between t).(dt_receipts) ∨
    (between t).(dt_receipts) !! receipt_key write = None ∧
    t2.(dt_receipts) = <[receipt_key write := timestamptz write.(dw_expires_at)]> (between t).(dt_receipts)) as H2.
  { unfold write_device_approval in Hw. tx_inv. unfold insert_receipt in *. fold (receipt_key write) in *.
    destruct (dt_receipts (between t) !! receipt_key write) eqn:Hk; simplify_eq/=; tx_inv; [by left|].
    right. split; [done|]. unfold ensure_on_connection, update in *. tx_inv. simplify_eq/=. done. }
  destruct (cn_commit c) as [[e []]|]; intros [= <- <-]; auto.
Qed.

Lemma approval_history_fenced timely t0 now0 log now t :
  approval_history timely t0 now0 log now t →
  (∀ a, a ∈ log → fenced_approval now t a) ∧
  ∀ i j a b, log !! i = Some a → log !! j = Some b → (i < j)%nat → receipt_key a = receipt_key b →
    ∃ at_, timely b at_ ∧ timestamptz a.(dw_expires_at) ≤ at_.
Proof.
  induction 1 as [|log now t op now' _ [IH1 IH2] Hle Hs|log now t c clock ops at_ write r t' _ [IH1 IH2] H1 H2 Hops Ht Hc];
    [split; set_solver|..].
  - split; [|done]. intros a Ha. apply perform_receipt_fenced; [done|].
    destruct (IH1 a Ha); [by left|right; lia].
  - assert (∀ a, a ∈ log → fenced_approval at_ t a) as Hold.
    { intros a Ha. destruct (IH1 a Ha); [by left|right; lia]. }
    assert (∀ a, a ∈ log → fenced_approval at_ (perform_receipts ops t) a) as Hmid.
    { intros a Ha. apply perform_receipts_fenced; auto. }
    apply commit_device_approval_receipts in Hc. split.
    + intros a [Ha|Ha]%elem_of_app.
      * destruct Hc as [Hc|[Hn Hc]]; unfold fenced_approval; rewrite Hc; [by apply Hmid|].
        destruct (Hmid a Ha) as [Hk|]; [left|by right]. rewrite lookup_insert_ne; [done|]. congruence.
      * unfold counted in Ha. case_match eqn:Hcnt; [|set_solver]. apply list_elem_of_singleton in Ha as ->.
        apply andb_prop in Hcnt as [Hn Hk].
        destruct Hc as [Hc|[_ Hc]]; [rewrite Hc in Hk; by destruct (_ !! _)|].
        left. rewrite Hc. apply lookup_insert_eq.
    + intros i j a b Ha Hb Hij Hk. destruct (decide (j < length log)%nat) as [Hj|Hj].
      { rewrite lookup_app_l in Ha, Hb by lia. eauto. }
      rewrite lookup_app_r in Hb by lia. unfold counted in Hb.
      case_match eqn:Hcnt; [|by rewrite lookup_nil in Hb].
      apply list_lookup_singleton_Some in Hb as [Hi0 <-].
      assert (i < length log)%nat by lia. rewrite lookup_app_l in Ha by done.
      exists at_. split; [done|]. apply andb_prop in Hcnt as [Hn _].
      destruct (Hmid a) as [Hr|]; [by eapply list_elem_of_lookup_2| |done].
      rewrite Hk in Hr. by rewrite Hr in Hn.
Qed.
End histories.

(** ** Example: a device that is approved twice *)
Module approval_example.
#[export] Instance server : DecisionServer := {
  decision_constraints _ := None;
  timestamptz t := t;
  jsonb_timestamptz _ := JNull;
  jsonb_uuid _ := JNull;
  jsonb_text _ := "";
  jsonb_octets _ := 0;
}.

Definition error_text (_ : DieselError) : string := "error".

Definition reliable : Connection := {| cn_available := true; cn_faults := []; cn_commit := None |}.

Definition start : DecisionTables :=
  {| dt_clients := {[(1, "client-1") := {| dl_id := 3; dl_is_active := true |}]};
     dt_users := {[(1, 2) := true]}; dt_grants := ∅; dt_events := ∅; dt_receipts := ∅ |}.

Definition write : DeviceGrantWrite :=
  {| dw_device_code_hash := "hash"; dw_expires_at := 10; dw_tenant_id := 1; dw_user_id := 2;
     dw_client_id := 3; dw_scopes := ["profile"]; dw_resource_indicators := [];
     dw_authorization_details := JArray [] |}.

(** The first approval, its repetition in time, and its repetition over the deadline. *)
Definition first := commit_device_approval error_text reliable 1 1 (perform_receipts []) write start.

Definition repeated := commit_device_approval error_text reliable 9 9 (perform_receipts []) write first.2.

Definition reopened :=
  commit_device_approval error_text reliable 9 11 (perform_receipts [CleanReceipts 10 [(1, "hash")]]) write first.2.

Definition count (t : DecisionTables) : option Z := gr_authorization_count <$> t.(dt_grants) !! (1, 2, 3).
End approval_example.

(** C29: an approval of a device is counted once while its receipt is inserted before
    the deadline.  However often an approval is repeated, fails or loses its reply,
    and however receipts are reclaimed: no two counted approvals are for the same
    device code with the same deadline, as the approvals of one device are. *)
Theorem device_approval_counted_once `{DS : DecisionServer} diesel_error_text t0 now0 log now t i j a b :
  approval_history diesel_error_text (fun write at_ => at_ < timestamptz write.(dw_expires_at)) t0 now0 log now t →
  log !! i = Some a → log !! j = Some b → receipt_key a = receipt_key b →
  a.(dw_expires_at) = b.(dw_expires_at) → i = j.
Proof.
  intros Hh. destruct (approval_history_fenced _ _ _ _ _ _ _ Hh) as [_ Hf].
  intros Ha Hb Hk He. destruct (Nat.lt_trichotomy i j) as [Hij|[?|Hij]]; [exfalso|done|exfalso].
  - destruct (Hf i j a b) as (at_ & ? & ?); [done..|]. rewrite He in *. lia.
  - destruct (Hf j i b a) as (at_ & ? & ?); [done..|]. rewrite He in *. lia.
Qed.

Import approval_example.

Lemma device_approval_counted_once_witness :
  count repeated.2 = Some 1 ∧
  ∃ log, approval_history error_text (fun write at_ => at_ < timestamptz write.(dw_expires_at)) start 0 log 9 repeated.2 ∧
    length log = 1%nat ∧
    ∀ i j a b, log !! i = Some a → log !! j = Some b → receipt_key a = receipt_key b →
      a.(dw_expires_at) = b.(dw_expires_at) → i = j.
Proof.
  split; [vm_compute; reflexivity|].
  assert (approval_history error_text (fun write at_ => at_ < timestamptz write.(dw_expires_at)) start 0
    (([] ++ counted write start first.2) ++ counted write first.2 repeated.2) 9 repeated.2) as Hh.
  { eapply (approval_history_approve error_text _ start 0 _ 1 first.2 reliable 9 [] 9 write repeated.1);
      [|lia|lia|constructor|simpl; lia|vm_compute; reflexivity].
    eapply (approval_history_approve error_text _ start 0 _ 0 start reliable 1 [] 1 write first.1);
      [constructor|lia|lia|constructor|simpl; lia|vm_compute; reflexivity]. }
  eexists. split; [exact Hh|]. split; [vm_compute; reflexivity|]. intros i j a b.
  exact (device_approval_counted_once error_text start 0 _ 9 repeated.2 i j a b Hh).
Defined.

(** C30: The deadline is checked before the receipt is inserted, not after: a clean-up in
    between reopens an approval that was already counted, and it is counted twice. *)
Theorem device_approval_counted_twice :
  count reopened.2 = Some 2 ∧ first.1 = Ok tt ∧ reopened.1 = Ok tt ∧
  approval_history error_text (fun _ _ => True) start 0 [write; write] 11 reopened.2.
Proof.
  split; [vm_compute; reflexivity|]. split; [vm_compute; reflexivity|]. split; [vm_compute; reflexivity|].
  change [write; write] with ((([] ++ counted write start first.2) ++
    counted write (perform_receipts [CleanReceipts 10 [(1, "hash")]] first.2) reopened.2)).
  eapply (approval_history_approve error_text _ start 0 _ 1 first.2 reliable 9 _ 11 write reopened.1);
    [|lia|lia|by repeat constructor|done|vm_compute; reflexivity].
  eapply (approval_history_approve error_text _ start 0 _ 0 start reliable 1 [] 1 write first.1);
    [constructor|lia|lia|constructor|done|vm_compute; reflexivity].
Qed.
