(* ===== verification/TokenModel.v ===== *)
(** * Token data and policies

    Models the data of [crates/authorization-server-core/src/token.rs] and
    [token_service.rs]: refresh tokens with their immutable contract, the
    commit boundary of a token issuance with its results, the evidence stored
    with a redeemed authorization code, and the policies on them. *)
From stdpp Require Import base list strings.
From S2P Require Import Prelude Chrono Text Json AuthorizationPolicy.

Local Open Scope rust_scope.
Local Open Scope string_scope.
Local Open Scope list_scope.
Local Open Scope Z_scope.

(** ** [token.rs] *)

(** [!value.trim().is_empty()] *)
Definition nonblank (value : string) : bool := negb (is_empty (trim value)).

Record RefreshTokenAuthenticationContext := {
  ac_version : Z;
  ac_issuer : string;
  ac_audience : string;
  ac_auth_time : Z;
  ac_amr : list string;
  ac_oidc_sid : option string;
  ac_acr : option string;
  ac_userinfo_claim_requests : list OidcClaimRequest;
  ac_id_token_claim_requests : list OidcClaimRequest;
}.

Definition CURRENT_VERSION : Z := 2.

Definition is_supported_version (c : RefreshTokenAuthenticationContext) : bool :=
  (c.(ac_version) =? 1) || (c.(ac_version) =? CURRENT_VERSION).

Definition is_well_formed (c : RefreshTokenAuthenticationContext) : bool :=
  is_supported_version c
  && nonblank c.(ac_issuer)
  && nonblank c.(ac_audience)
  && (0 <? c.(ac_auth_time))
  && negb (bool_decide (c.(ac_amr) = []))
  && forallb nonblank c.(ac_amr)
  && is_none_or c.(ac_oidc_sid) nonblank
  && is_none_or c.(ac_acr) nonblank.

Record RefreshContract := {
  ct_subject : string;
  ct_scopes : list string;
  ct_audiences : list string;
  ct_authorization_details : Value;
  ct_authentication_context : RefreshTokenAuthenticationContext;
}.

Definition MAX_ACTIVE_REFRESH_FAMILIES_PER_SCOPE : Z := 10.
Definition MAX_SPENT_PROOFS_PER_REFRESH_FAMILY : Z := 64.

Definition refresh_spent_proof_limit (client_type : string) (dpop_jkt mtls_x5t_s256 : option string)
    : option Z :=
  if bool_decide (client_type = "confidential") || is_some dpop_jkt || is_some mtls_x5t_s256
  then Some MAX_SPENT_PROOFS_PER_REFRESH_FAMILY
  else None.

(** BLAKE3 digests, [[u8; 32]], are their bytes. *)
Record RefreshToken := {
  rt_id_token_sid : option string;
  rt_id : Uuid;
  rt_token_blake3 : string;
  rt_tenant_id : Uuid;
  rt_token_family_id : Uuid;
  rt_client_id : Uuid;
  rt_user_id : option Uuid;
  rt_contract_key : string;
  rt_contract : RefreshContract;
  rt_audience : list string;
  rt_issued_at : DateTime;
  rt_expires_at : DateTime;
  rt_revoked_at : option DateTime;
  rt_dpop_jkt : option string;
  rt_mtls_x5t_s256 : option string;
  rt_client_attestation_jkt : option string;
}.

Record RefreshTokenAuthority := {
  au_tenant_id : Uuid;
  au_client_id : Uuid;
  au_user_id : option Uuid;
  au_family_id : Uuid;
  au_member_id : Uuid;
  au_token_blake3 : string;
  au_contract_key : string;
  au_contract : RefreshContract;
  au_current_audiences : list string;
  au_id_token_sid : option string;
  au_dpop_jkt : option string;
  au_mtls_x5t_s256 : option string;
  au_client_attestation_jkt : option string;
}.

Definition authority (t : RefreshToken) : RefreshTokenAuthority :=
  {| au_tenant_id := t.(rt_tenant_id);
     au_client_id := t.(rt_client_id);
     au_user_id := t.(rt_user_id);
     au_family_id := t.(rt_token_family_id);
     au_member_id := t.(rt_id);
     au_token_blake3 := t.(rt_token_blake3);
     au_contract_key := t.(rt_contract_key);
     au_contract := t.(rt_contract);
     au_current_audiences := t.(rt_audience);
     au_id_token_sid := t.(rt_id_token_sid);
     au_dpop_jkt := t.(rt_dpop_jkt);
     au_mtls_x5t_s256 := t.(rt_mtls_x5t_s256);
     au_client_attestation_jkt := t.(rt_client_attestation_jkt) |}.

Record LostResponseRetry := {
  lr_original_id : Uuid;
  lr_original_blake3 : string;
  lr_retry_started_at : DateTime;
}.

Record NewRefreshToken := {
  nt_raw_token : string;
  nt_member_id : Uuid;
  nt_tenant_id : Uuid;
  nt_family_id : Uuid;
  nt_rotated_from_id : option Uuid;
  nt_lost_response_retry : option LostResponseRetry;
  nt_client_id : Uuid;
  nt_user_id : option Uuid;
  nt_audiences : list string;
  nt_issued_at : DateTime;
  nt_expires_at : DateTime;
  nt_id_token_sid : option string;
  nt_dpop_jkt : option string;
  nt_mtls_x5t_s256 : option string;
  nt_client_attestation_jkt : option string;
}.

Inductive RefreshTokenCommit :=
| IssueNew (token : NewRefreshToken) (contract : RefreshContract)
| UseExisting (authority : RefreshTokenAuthority) (rotation : option NewRefreshToken).

Definition commit_token (r : RefreshTokenCommit) : option NewRefreshToken :=
  match r with IssueNew token _ => Some token | UseExisting _ rotation => rotation end.

Definition commit_contract (r : RefreshTokenCommit) : RefreshContract :=
  match r with IssueNew _ contract => contract | UseExisting au _ => au.(au_contract) end.

Definition commit_family_id (r : RefreshTokenCommit) : Uuid :=
  match r with IssueNew token _ => token.(nt_family_id) | UseExisting au _ => au.(au_family_id) end.

Inductive RefreshTokenPersistResult := Inserted | InvalidSource | PersistRotationConflict.

#[export] Instance OidcClaimRequest_eq_dec : EqDecision OidcClaimRequest.
Proof. solve_decision. Defined.
#[export] Instance RefreshTokenAuthenticationContext_eq_dec :
  EqDecision RefreshTokenAuthenticationContext.
Proof. solve_decision. Defined.
#[export] Instance RefreshContract_eq_dec : EqDecision RefreshContract.
Proof. solve_decision. Defined.

(** ** [token_service.rs] *)

Inductive TokenPortError :=
| TokenUnavailable | TokenConflict | TokenCorruptData | InvalidSenderConstraint | TokenUnexpected.

Inductive AuthorizationCodeClientAuthentication := PublicClient | AuthenticatedClient.

#[export] Instance AuthorizationCodeClientAuthentication_eq_dec :
  EqDecision AuthorizationCodeClientAuthentication.
Proof. solve_decision. Defined.

Record AuthorizationCodeHolderEvidence := {
  he_version : Z;
  he_authenticated_client : bool;
  he_pkce_s256 : option string;
  he_dpop_jkt : option string;
  he_mtls_x5t_s256 : option string;
  he_client_attestation_jkt : option string;
}.

Definition from_verified_requirements
    (client_authentication : AuthorizationCodeClientAuthentication)
    (pkce_s256 dpop_jkt mtls_x5t_s256 client_attestation_jkt : option string)
    : option AuthorizationCodeHolderEvidence :=
  let proofs := [pkce_s256; dpop_jkt; mtls_x5t_s256; client_attestation_jkt] in
  if existsb (fun proof => is_some_and proof is_empty) proofs
     || (bool_decide (client_authentication = PublicClient) && forallb is_none proofs)
     || (is_some dpop_jkt && is_some mtls_x5t_s256)
  then None
  else Some {| he_version := 1;
               he_authenticated_client := bool_decide (client_authentication = AuthenticatedClient);
               he_pkce_s256 := pkce_s256;
               he_dpop_jkt := dpop_jkt;
               he_mtls_x5t_s256 := mtls_x5t_s256;
               he_client_attestation_jkt := client_attestation_jkt |}.

(** [Serialize], the [None] fields skipped; the members in key order. *)
Definition holder_members (h : AuthorizationCodeHolderEvidence) : list (string * Value) :=
  let text key (o : option string) := match o with Some s => [(key, JString s)] | None => [] end in
  [("authenticated_client", JBool h.(he_authenticated_client))]
  ++ text "client_attestation_jkt" h.(he_client_attestation_jkt)
  ++ text "dpop_jkt" h.(he_dpop_jkt)
  ++ text "mtls_x5t_s256" h.(he_mtls_x5t_s256)
  ++ text "pkce_s256" h.(he_pkce_s256)
  ++ [("version", json_u64 h.(he_version))].

Definition holder_to_value (h : AuthorizationCodeHolderEvidence) : Value := JObject (holder_members h).

(** A required [u8] or [bool] and an optional text of a struct. *)
Definition u8_field (members : list (string * Value)) (key : string) : option Z :=
  match object_get members key with
  | Some (JNumber (PosInt n)) => if n <=? 255 then Some n else None
  | _ => None
  end.

Definition bool_field (members : list (string * Value)) (key : string) : option bool :=
  match object_get members key with Some (JBool b) => Some b | _ => None end.

Definition text_field (members : list (string * Value)) (key : string) : option (option string) :=
  match object_get members key with
  | None | Some JNull => Some None
  | Some (JString s) => Some (Some s)
  | Some _ => None
  end.

Definition HOLDER_FIELDS : list string :=
  ["version"; "authenticated_client"; "pkce_s256"; "dpop_jkt"; "mtls_x5t_s256";
   "client_attestation_jkt"].

(** [serde_json::from_value::<StoredAuthorizationCodeHolderEvidence>], unknown
    members denied.  A derived struct is also read from an array of its fields. *)
Definition stored_holder (value : Value) : option AuthorizationCodeHolderEvidence :=
  let of_members members :=
    version ← u8_field members "version";
    authenticated_client ← bool_field members "authenticated_client";
    pkce_s256 ← text_field members "pkce_s256";
    dpop_jkt ← text_field members "dpop_jkt";
    mtls_x5t_s256 ← text_field members "mtls_x5t_s256";
    client_attestation_jkt ← text_field members "client_attestation_jkt";
    Some {| he_version := version;
            he_authenticated_client := authenticated_client;
            he_pkce_s256 := pkce_s256;
            he_dpop_jkt := dpop_jkt;
            he_mtls_x5t_s256 := mtls_x5t_s256;
            he_client_attestation_jkt := client_attestation_jkt |} in
  match value with
  | JObject members =>
      if forallb (fun p => bool_decide (p.1 ∈ HOLDER_FIELDS)) members then of_members members
      else None
  | JArray items =>
      if (length items =? length HOLDER_FIELDS)%nat then of_members (zip HOLDER_FIELDS items)
      else None
  | _ => None
  end.

Definition from_persisted (value : Value) : option AuthorizationCodeHolderEvidence :=
  stored ← stored_holder value;
  if negb (stored.(he_version) =? 1) then None
  else from_verified_requirements
    (if stored.(he_authenticated_client) then AuthenticatedClient else PublicClient)
    stored.(he_pkce_s256) stored.(he_dpop_jkt) stored.(he_mtls_x5t_s256)
    stored.(he_client_attestation_jkt).

Record SingleUseRedemption := {
  sr_authorization_code_holder : option AuthorizationCodeHolderEvidence;
  sr_access_token_jti : string;
  sr_access_token_expires_at : DateTime;
  sr_refresh_token_family_id : option Uuid;
}.

Inductive TokenIssuanceMode :=
| Fresh
| SingleUse (grant_key : string) (grant_expires_at : DateTime)
| AuthorizationCode (code_identity : string) (grant_expires_at : DateTime)
    (holder : AuthorizationCodeHolderEvidence).

Record TokenIssuedAuditFields := {
  af_client_id : string;
  af_subject_hash : string;
  af_scope : string;
  af_audience : list string;
}.

Record TokenPrincipalState := {
  ps_client_epoch : Z;
  ps_user_epoch : option Z;
  ps_subject_bound : bool;
}.

Record NativeSsoSourceFence := {
  ns_tenant_id : Uuid;
  ns_user_id : Uuid;
  ns_source_client_id : string;
  ns_family_id : Uuid;
  ns_device_secret_expires_at : DateTime;
}.

Record CommitTokenIssuance := {
  ci_authorization_id : option Uuid;
  ci_principal_state : TokenPrincipalState;
  ci_subject : string;
  ci_issuance_id : Uuid;
  ci_tenant_id : Uuid;
  ci_client_id : Uuid;
  ci_user_id : option Uuid;
  ci_mode : TokenIssuanceMode;
  ci_access_token_jti : string;
  ci_access_token_expires_at : Z;
  ci_refresh_token : option RefreshTokenCommit;
  ci_native_sso_source : option NativeSsoSourceFence;
  ci_audit_fields : TokenIssuedAuditFields;
}.

Inductive CommitTokenIssuanceResult :=
| Committed | AlreadyUsed | GrantExpired | ClientInactive | SubjectInactive
| RefreshGrantUnavailable | RotationConflict.

#[export] Instance CommitTokenIssuanceResult_eq_dec : EqDecision CommitTokenIssuanceResult.
Proof. solve_decision. Defined.
#[export] Instance TokenPortError_eq_dec : EqDecision TokenPortError.
Proof. solve_decision. Defined.

Record AccessTokenRevocation := {
  ar_jti : string;
  ar_expires_at : DateTime;
}.

(** The single-use grant of an issuance: its key and deadline. *)
Definition mode_grant (mode : TokenIssuanceMode) : option (string * DateTime) :=
  match mode with
  | Fresh => None
  | SingleUse grant_key grant_expires_at => Some (grant_key, grant_expires_at)
  | AuthorizationCode code_identity grant_expires_at _ => Some (code_identity, grant_expires_at)
  end.

Definition is_fresh (mode : TokenIssuanceMode) : bool :=
  match mode with Fresh => true | _ => false end.

(** *** Signing algorithms *)

Definition FAPI2_JWT_SIGNING_ALGS : list string := ["EdDSA"; "ES256"; "PS256"].

Definition jwt_response_signing_algorithm (configured : option string)
    (require_fapi2 : bool) : result (option string) string :=
  if negb require_fapi2 then Ok configured
  else match configured with
  | Some algorithm =>
      if negb (bool_decide (algorithm ∈ FAPI2_JWT_SIGNING_ALGS))
      then Err "JWT signing algorithm is incompatible with FAPI 2.0"
      else Ok (Some algorithm)
  | None => Ok (Some "PS256")
  end.

Definition id_token_signing_algorithm (configured : option string)
    (require_fapi2 : bool) : result string string :=
  map_ok (fun algorithm => unwrap_or algorithm "RS256")
    (jwt_response_signing_algorithm configured require_fapi2).
