(* ===== verification/CodeRedemption.v ===== *)
(** * Redeeming an authorization code

    [crates/authorization-server/src/token/authorization_code.rs] with the sender
    constraints of [token/mod.rs] and [token_endpoint.rs]: how the token endpoint
    exchanges a code.  The state store, the durable receipts, the proofs of the
    request, the clock and the issuance ([issue_token_response]) are effects
    ([redE]); an error response is its status and error code. *)
From stdpp Require Import base list strings gmap.
From S2P Require Import Prelude Chrono Effects Text Json UriPolicy AuthorizationPolicy Dpop.
From S2P Require Import AuthorizationFlow TokenModel.

Local Open Scope string_scope.
Local Open Scope rust_scope.
Open Scope Z_scope.

(** ** Data *)

Inductive AuthorizationCodeBeginResult :=
| BeginConsuming (payload : CodePayload)
| BeginBusy
| BeginConsumed (state : AuthorizationCodeState)
| BeginFailed
| BeginMissing
| BeginMalformed.

Inductive AuthorizationCodeTransitionResult :=
| TransitionApplied | TransitionMissing | TransitionMalformed | TransitionPending
| TransitionConsuming | TransitionConsumed | TransitionFailed.

(** The columns of a client that the exchange reads. *)
Record OAuthClient := {
  oc_id : Uuid;
  oc_tenant_id : Uuid;
  oc_client_id : string;
  oc_client_type : string;
  oc_token_endpoint_auth_method : string;
  oc_require_dpop_bound_tokens : bool;
  oc_require_mtls_bound_tokens : bool;
  oc_allowed_audiences : list string;
  oc_subject_type : string;
  oc_sector_identifier_host : option string;
}.

(** The parameters of a token request that the exchange reads. *)
Record TokenForm := {
  tf_code : option string;
  tf_redirect_uri : option string;
  tf_code_verifier : option string;
  tf_scope : option string;
  tf_audiences : list string;
}.

Record TokenIssuanceConfig := {
  tc_issuer : string;
  tc_default_audience : string;
  tc_openid4vci_enabled : bool;
  tc_openid4vci_credential_scopes : list string;
  tc_pairwise_subject_secret : option string;
  tc_auth_code_ttl_seconds : Z;
}.

(** What a request carries beside its form: the thumbprint of its certificate,
    the key of its client attestation, and whether its modules permit native SSO. *)
Record RedemptionFacts := {
  rf_certificate_thumbprint : option string;
  rf_client_attestation_jkt : option string;
  rf_permits_native_sso : bool;
}.

Record NativeSsoTokenBinding := {
  nb_device_secret : string;
  nb_ds_hash : string;
  nb_sid : string;
}.

(** [TokenIssue], without the fields that a code leaves empty. *)
Record TokenIssue := {
  ti_user_id : option Uuid;
  ti_subject : string;
  ti_scopes : list string;
  ti_authorization_details : Value;
  ti_audiences : list string;
  ti_nonce : option string;
  ti_auth_time : option Z;
  ti_amr : list string;
  ti_oidc_sid : option string;
  ti_acr : option string;
  ti_userinfo_claim_requests : list OidcClaimRequest;
  ti_id_token_claim_requests : list OidcClaimRequest;
  ti_include_refresh : bool;
  ti_dpop_jkt : option string;
  ti_refresh_token_dpop_jkt : option string;
  ti_mtls_x5t_s256 : option string;
  ti_refresh_token_mtls_x5t_s256 : option string;
  ti_refresh_token_client_attestation_jkt : option string;
  ti_refresh_grant_audiences : option (list string);
  ti_authorization_code_hash : option string;
  ti_native_sso : option NativeSsoTokenBinding;
}.

Inductive TokenEndpointError :=
| TokenError (status : Z) (error : string)
| TokenDpopError (error : DpopError).

Inductive TokenManagementClientAuthError :=
| InvalidClient | PublicClientCredentialsForbidden | StoreUnavailable.

(** Other crates: SHA-256 in base64url, the pairwise subject (HMAC), the host of a URL. *)
Class RedemptionCrates := {
  sha256_base64url : string → string;
  hmac_subject : string → string → string → Uuid → string;
  url_host_str : string → option string;
}.

Inductive redE : Type → Type :=
| LoadCode (code_hash : string) : redE (result (option AuthorizationCodeState) TokenPortError)
| BeginCode (code_hash : string) (consuming_at : DateTime)
    : redE (result AuthorizationCodeBeginResult TokenPortError)
| MarkCode (code_hash : string) (replacement : AuthorizationCodeState) (ttl_seconds : Z)
    : redE (result AuthorizationCodeTransitionResult TokenPortError)
| ReadRedemption (tenant_id client_id : Uuid) (grant_key : string)
    : redE (result (option SingleUseRedemption) TokenPortError)
| RevokeIssuedTokens (tenant_id client_id : Uuid) (access_token_jti : string)
    (access_token_expires_at : option DateTime) (refresh_token_family_id : option Uuid)
    : redE (result unit TokenPortError)
| ValidateDpop (expected_dpop_jkt : option string) : redE (result (option string) DpopError)
| ConsumeClientAssertion : redE (result unit TokenManagementClientAuthError)
| RedeemNow : redE DateTime
| RedeemRandomToken : redE string
| IssueTokenResponse (mode : TokenIssuanceMode) (issue : TokenIssue)
    : redE (result string TokenEndpointError).

(** ** Checks *)

Section checks.
Context {AC : AuthorizationCrates} {RC : RedemptionCrates}.

Definition redirect_uri_matches_authorization_request (payload : CodePayload)
    (token_redirect_uri : option string) : bool :=
  match payload.(cd_redirect_uri_was_supplied), token_redirect_uri with
  | true, Some value => bool_decide (value = payload.(cd_redirect_uri))
  | true, None => false
  | false, Some value => bool_decide (value = payload.(cd_redirect_uri))
  | false, None => true
  end.

Definition authorization_code_requires_pkce (client : OAuthClient) (payload : CodePayload) : bool :=
  negb (bool_decide (client.(oc_client_type) = "confidential"))
  || client.(oc_require_dpop_bound_tokens)
  || client.(oc_require_mtls_bound_tokens)
  || is_some payload.(cd_dpop_jkt)
  || is_some payload.(cd_mtls_x5t_s256)
  || negb (existsb (fun scope => bool_decide (scope = "openid")) payload.(cd_scopes)).

Definition pkce_s256 (verifier : string) : string := sha256_base64url verifier.

Definition authorization_code_dpop_error_response (error : DpopError) : TokenEndpointError :=
  match error with
  | UseNonce _ | StateStoreUnavailable => TokenDpopError error
  | _ => TokenError 400 "invalid_grant"
  end.

Definition authorization_code_client_mismatch_response : TokenEndpointError :=
  TokenError 400 "invalid_grant".

Definition authorization_code_identity (code_hash : string) : string :=
  "authorization_code:v2:" +:+ code_hash.

Definition legacy_authorization_code_redemption_key (code_hash : string) (form : TokenForm)
    (dpop_jkt mtls_x5t_s256 client_attestation_jkt : option string) : string :=
  let text o := match o with Some s => JString s | None => JNull end in
  "authorization_code:" +:+ blake3_hex (value_to_string (json_object
    [("code_hash", JString code_hash);
     ("code_verifier", text (blake3_hex <$> form.(tf_code_verifier)));
     ("redirect_uri", text (blake3_hex <$> form.(tf_redirect_uri)));
     ("scope", text (blake3_hex <$> form.(tf_scope)));
     ("audiences", JArray (JString <$> form.(tf_audiences)));
     ("dpop_jkt", text dpop_jkt);
     ("mtls_x5t_s256", text mtls_x5t_s256);
     ("client_attestation_jkt", text client_attestation_jkt)])).

(** [FreshCodeHolderFacts] *)
Record HolderFacts := {
  hf_client_authentication : AuthorizationCodeClientAuthentication;
  hf_pkce_s256 : option string;
  hf_dpop_jkt : option string;
  hf_certificate_thumbprint : option string;
  hf_client_attestation_jkt : option string;
}.

Definition holder_requirements (facts : HolderFacts) (mtls_binding : option string)
    : option AuthorizationCodeHolderEvidence :=
  from_verified_requirements facts.(hf_client_authentication) facts.(hf_pkce_s256)
    facts.(hf_dpop_jkt) mtls_binding facts.(hf_client_attestation_jkt).

Definition proof_matches (expected candidate : option string) : bool :=
  is_none_or expected (fun expected => bool_decide (candidate = Some expected)).

Definition holder_matches_original (expected : AuthorizationCodeHolderEvidence)
    (authenticated_client : bool)
    (pkce_s256 dpop_jkt mtls_x5t_s256 client_attestation_jkt : option string) : bool :=
  (negb expected.(he_authenticated_client) || authenticated_client)
  && proof_matches expected.(he_pkce_s256) pkce_s256
  && proof_matches expected.(he_dpop_jkt) dpop_jkt
  && proof_matches expected.(he_mtls_x5t_s256) mtls_x5t_s256
  && proof_matches expected.(he_client_attestation_jkt) client_attestation_jkt.

Definition holder_matches (facts : HolderFacts) (expected : AuthorizationCodeHolderEvidence) : bool :=
  holder_matches_original expected
    (bool_decide (facts.(hf_client_authentication) = AuthenticatedClient))
    facts.(hf_pkce_s256) facts.(hf_dpop_jkt) facts.(hf_certificate_thumbprint)
    facts.(hf_client_attestation_jkt).

Definition openid4vci_audience (config : TokenIssuanceConfig) (scopes : list string)
    (authorization_details : Value) : option string :=
  let requested_by_scope := existsb (fun scope =>
    existsb (fun configured => bool_decide (configured = scope))
      config.(tc_openid4vci_credential_scopes)) scopes in
  let requested_by_authorization_details := existsb (fun detail =>
    bool_decide (value_get detail "type" ≫= as_str = Some "openid_credential"))
      (default [] (as_array authorization_details)) in
  if config.(tc_openid4vci_enabled) && (requested_by_scope || requested_by_authorization_details)
  then Some config.(tc_issuer) else None.

Definition authorization_code_audiences_with_default (default_audience : string)
    (openid4vci_audience : option string) (payload : CodePayload) (form : TokenForm)
    : result (list string) unit :=
  if bool_decide (payload.(cd_resource_indicators) = [])
  then Ok (if bool_decide (form.(tf_audiences) = [])
           then [unwrap_or openid4vci_audience default_audience]
           else form.(tf_audiences))
  else if bool_decide (form.(tf_audiences) = []) then Ok payload.(cd_resource_indicators)
  else if is_subset form.(tf_audiences) payload.(cd_resource_indicators)
  then Ok form.(tf_audiences) else Err tt.

Definition audiences_allowed (client : OAuthClient) (audiences : list string) : bool :=
  negb (bool_decide (audiences = [])) && is_subset audiences client.(oc_allowed_audiences).

Definition native_sso_requested (scopes : list string) : bool :=
  existsb (fun scope => bool_decide (scope = "device_sso")) scopes.

Definition refresh_token_dpop_binding (client : OAuthClient) (payload : CodePayload)
    (dpop_jkt : option string) : option string :=
  if bool_decide (client.(oc_client_type) = "public") || is_some payload.(cd_dpop_jkt)
  then dpop_jkt else None.

Inductive LogoutPolicyError := PairwiseSecretMissing | UnsupportedSubjectType.

Definition oidc_subject_for_client (issuer : string) (pairwise_subject_secret : option string)
    (user_id : Uuid) (subject_type : string) (sector_identifier_host : option string)
    (redirect_uri : string) : result string LogoutPolicyError :=
  if bool_decide (subject_type = "public") then Ok (uuid_to_text user_id)
  else if bool_decide (subject_type = "pairwise") then
    match pairwise_subject_secret with
    | Some secret =>
        if len secret <? 32 then Err PairwiseSecretMissing
        else
          let host := match sector_identifier_host with
            | Some host => if is_empty host then unwrap_or (url_host_str redirect_uri) "" else host
            | None => unwrap_or (url_host_str redirect_uri) ""
            end in
          Ok (hmac_subject secret issuer host user_id)
    | None => Err PairwiseSecretMissing
    end
  else Err UnsupportedSubjectType.

Definition authorization_code_subject (config : TokenIssuanceConfig) (payload : CodePayload)
    (client : OAuthClient) : result string LogoutPolicyError :=
  oidc_subject_for_client config.(tc_issuer) config.(tc_pairwise_subject_secret)
    payload.(cd_user_id) client.(oc_subject_type) client.(oc_sector_identifier_host)
    payload.(cd_redirect_uri).
End checks.

(** ** Sender constraints *)

Inductive SenderConstraintPolicy := BearerAllowed | DpopRequired | MtlsRequired | DpopOrMtls.

Definition sender_constraint_policy (require_dpop_bound_tokens require_mtls_bound_tokens : bool)
    : SenderConstraintPolicy :=
  match require_dpop_bound_tokens, require_mtls_bound_tokens with
  | false, false => BearerAllowed
  | true, false => DpopRequired
  | false, true => MtlsRequired
  | true, true => DpopOrMtls
  end.

Inductive AppliedSenderConstraint :=
| AppliedBearer
| AppliedDpop (thumbprint : string)
| AppliedMutualTls (thumbprint : string).

Definition apply_sender_constraint (policy : SenderConstraintPolicy)
    (dpop_jkt mtls_x5t_s256 : option string) : option AppliedSenderConstraint :=
  constraint ← match dpop_jkt, mtls_x5t_s256 with
    | Some _, Some _ => None
    | Some thumbprint, None => Some (AppliedDpop thumbprint)
    | None, Some thumbprint => Some (AppliedMutualTls thumbprint)
    | None, None => Some AppliedBearer
    end;
  match policy, constraint with
  | BearerAllowed, _
  | DpopRequired, AppliedDpop _
  | MtlsRequired, AppliedMutualTls _
  | DpopOrMtls, (AppliedDpop _ | AppliedMutualTls _) => Some constraint
  | _, _ => None
  end.

Inductive SenderConstraintValidationError :=
| SenderDpop (error : DpopError)
| MissingMtls
| MultipleConstraints.

Definition validate_token_sender_constraints (facts : RedemptionFacts) (client : OAuthClient)
    (expected_dpop_jkt expected_mtls_x5t_s256 : option string)
    : prog redE (result (option string * option string) SenderConstraintValidationError) :=
  let* validated := call (ValidateDpop expected_dpop_jkt) in
  Ret (let? dpop_jkt := map_err SenderDpop validated in
       let request_mtls_x5t_s256 :=
         if is_some expected_mtls_x5t_s256 || client.(oc_require_mtls_bound_tokens)
         then facts.(rf_certificate_thumbprint) else None in
       let? mtls_x5t_s256 := match expected_mtls_x5t_s256, request_mtls_x5t_s256 with
         | Some expected, Some actual =>
             if bool_decide (expected = actual) then Ok (Some actual) else Err MissingMtls
         | Some _, None => Err MissingMtls
         | None, actual => Ok actual
         end in
       match apply_sender_constraint
               (sender_constraint_policy client.(oc_require_dpop_bound_tokens)
                  client.(oc_require_mtls_bound_tokens)) dpop_jkt mtls_x5t_s256 with
       | Some _ => Ok (dpop_jkt, mtls_x5t_s256)
       | None =>
           if is_some dpop_jkt && is_some mtls_x5t_s256 then Err MultipleConstraints
           else if client.(oc_require_dpop_bound_tokens) && negb client.(oc_require_mtls_bound_tokens)
           then Err (SenderDpop MissingProof)
           else Err MissingMtls
       end).

(** ** The exchange *)

Section exchange.
Context {AC : AuthorizationCrates} {RC : RedemptionCrates}.
Context (config : TokenIssuanceConfig) (client : OAuthClient) (form : TokenForm)
  (facts : RedemptionFacts).

Definition load_pending_authorization_code_payload (code_hash : string)
    : prog redE (result (option CodePayload) TokenEndpointError) :=
  let* stored := call (LoadCode code_hash) in
  Ret (match stored with
       | Err _ => Err (TokenError 503 "server_error")
       | Ok (Some (CodePending payload)) => Ok (Some payload)
       | Ok _ => Ok None
       end).

(** [payload.expires_at <= Utc::now()], of the payload if there is one. *)
Definition expired (payload : option CodePayload) : prog redE bool :=
  match payload with
  | None => Ret false
  | Some payload => let* now := call RedeemNow in Ret (payload.(cd_expires_at) <=? now)
  end.

Definition check_pkce (payload : CodePayload) : result unit TokenEndpointError :=
  match payload.(cd_pkce) with
  | Some code_challenge =>
      match form.(tf_code_verifier) with
      | None => Err (TokenError 400 "invalid_grant")
      | Some verifier =>
          if negb (is_valid_pkce_value verifier) || negb (bool_decide (pkce_s256 verifier = code_challenge))
          then Err (TokenError 400 "invalid_grant") else Ok tt
      end
  | None =>
      if negb (authorization_code_requires_pkce client payload)
      then if is_some form.(tf_code_verifier) then Err (TokenError 400 "invalid_grant") else Ok tt
      else Err (TokenError 503 "server_error")
  end.

Definition check_native_sso (payload : CodePayload) : result unit TokenEndpointError :=
  if native_sso_requested payload.(cd_scopes)
  then if negb facts.(rf_permits_native_sso) then Err (TokenError 400 "invalid_scope")
       else if negb (existsb (fun scope => bool_decide (scope = "openid")) payload.(cd_scopes))
       then Err (TokenError 400 "invalid_scope")
       else Ok tt
  else Ok tt.

Definition validate_pending_authorization_code_request (payload : CodePayload)
    : prog redE (result (list string) TokenEndpointError) :=
  if negb (payload.(cd_redemption_contract_version) =? AUTHORIZATION_CODE_REDEMPTION_VERSION)
  then Ret (Err (TokenError 400 "invalid_grant"))
  else
    let* late := expired (Some payload) in
    Ret (if late : bool then Err (TokenError 400 "invalid_grant")
         else if negb (redirect_uri_matches_authorization_request payload form.(tf_redirect_uri))
         then Err authorization_code_client_mismatch_response
         else
           let? _ := check_pkce payload in
           let? audiences := map_err (fun _ => TokenError 400 "invalid_target")
             (authorization_code_audiences_with_default config.(tc_default_audience)
                (openid4vci_audience config payload.(cd_scopes) payload.(cd_authorization_details))
                payload form) in
           if negb (audiences_allowed client audiences) then Err (TokenError 400 "invalid_target")
           else let? _ := check_native_sso payload in Ok audiences).

(** The receipt of an earlier exchange that this request may revoke. *)
Definition committed_single_use_redemption (code_identity legacy_key : string)
    (candidate : HolderFacts) (issuance_holder : option AuthorizationCodeHolderEvidence)
    : prog redE (result (option SingleUseRedemption) TokenEndpointError) :=
  let* receipt := call (ReadRedemption client.(oc_tenant_id) client.(oc_id) code_identity) in
  match receipt with
  | Err _ => Ret (Err (TokenError 503 "server_error"))
  | Ok (Some receipt) =>
      Ret (Ok (if is_some_and receipt.(sr_authorization_code_holder) (holder_matches candidate)
               then Some receipt else None))
  | Ok None =>
      if is_none issuance_holder then Ret (Ok None)
      else
        let* receipt := call (ReadRedemption client.(oc_tenant_id) client.(oc_id) legacy_key) in
        Ret (match receipt with
             | Err _ => Err (TokenError 503 "server_error")
             | Ok (Some receipt) =>
                 Ok (if is_none receipt.(sr_authorization_code_holder) then Some receipt else None)
             | Ok None => Ok None
             end)
  end.

Definition revoke_replayed_redemption (redemption : SingleUseRedemption)
    : prog redE (result unit TokenEndpointError) :=
  let* revoked := call (RevokeIssuedTokens client.(oc_tenant_id) client.(oc_id)
    redemption.(sr_access_token_jti) (Some redemption.(sr_access_token_expires_at))
    redemption.(sr_refresh_token_family_id)) in
  Ret (map_err (fun _ => TokenError 503 "server_error") revoked).

(** Revokes what an earlier exchange issued, if this request may; whether it did. *)
Definition revoke_replay (code_identity legacy_key : string) (candidate : HolderFacts)
    (issuance_holder : option AuthorizationCodeHolderEvidence)
    : prog redE (result bool TokenEndpointError) :=
  let*? redemption := committed_single_use_redemption code_identity legacy_key candidate issuance_holder in
  match redemption with
  | None => Ret (Ok false)
  | Some redemption => let*? _ := revoke_replayed_redemption redemption in Ret (Ok true)
  end.

(** The response of a replay: the failed look-up or revocation, or the refusal. *)
Definition refuse_replay (code_identity legacy_key : string) (candidate : HolderFacts)
    (issuance_holder : option AuthorizationCodeHolderEvidence) : prog redE TokenEndpointError :=
  let* revoked := revoke_replay code_identity legacy_key candidate issuance_holder in
  Ret (match revoked with Err e => e | Ok _ => TokenError 400 "invalid_grant" end).

(** The failure of the mark is only logged. *)
Definition mark_failed_authorization_code (code_hash error_code : string) : prog redE unit :=
  let* now := call RedeemNow in
  let* _ := call (MarkCode code_hash (CodeFailed now error_code)
    (Z.max config.(tc_auth_code_ttl_seconds) 1)) in
  Ret tt.

Definition new_native_sso_token_binding (oidc_sid : option string)
    : prog redE (option NativeSsoTokenBinding) :=
  match oidc_sid with
  | None => Ret None
  | Some sid =>
      let* first := call RedeemRandomToken in
      let* second := call RedeemRandomToken in
      let device_secret := first +:+ "." +:+ second in
      Ret (Some {| nb_device_secret := device_secret; nb_ds_hash := sha256_base64url device_secret;
                   nb_sid := sid |})
  end.

Definition token_issue_from_authorization_code (payload : CodePayload) (subject : string)
    (audiences : list string) (dpop_jkt mtls_x5t_s256 : option string) (code_hash : string)
    : prog redE TokenIssue :=
  let* native_sso := if native_sso_requested payload.(cd_scopes)
    then new_native_sso_token_binding payload.(cd_oidc_sid) else Ret None in
  Ret {| ti_user_id := Some payload.(cd_user_id);
         ti_subject := subject;
         ti_scopes := payload.(cd_scopes);
         ti_authorization_details := payload.(cd_authorization_details);
         ti_audiences := audiences;
         ti_nonce := payload.(cd_nonce);
         ti_auth_time := Some payload.(cd_auth_time);
         ti_amr := payload.(cd_amr);
         ti_oidc_sid := payload.(cd_oidc_sid);
         ti_acr := payload.(cd_acr);
         ti_userinfo_claim_requests := payload.(cd_userinfo_claim_requests);
         ti_id_token_claim_requests := payload.(cd_id_token_claim_requests);
         ti_include_refresh := true;
         ti_dpop_jkt := dpop_jkt;
         ti_refresh_token_dpop_jkt := refresh_token_dpop_binding client payload dpop_jkt;
         ti_mtls_x5t_s256 := mtls_x5t_s256;
         ti_refresh_token_mtls_x5t_s256 := mtls_x5t_s256;
         ti_refresh_token_client_attestation_jkt := facts.(rf_client_attestation_jkt);
         ti_refresh_grant_audiences := if bool_decide (payload.(cd_resource_indicators) = [])
           then None else Some payload.(cd_resource_indicators);
         ti_authorization_code_hash := Some code_hash;
         ti_native_sso := native_sso |}.

Definition holder_facts (expected_payload : option CodePayload) (dpop_jkt : option string) : HolderFacts :=
  {| hf_client_authentication :=
       if bool_decide (client.(oc_client_type) = "confidential")
          && negb (bool_decide (client.(oc_token_endpoint_auth_method) = "none"))
       then AuthenticatedClient else PublicClient;
     hf_pkce_s256 := match expected_payload with
       | Some payload => payload.(cd_pkce)
       | None =>
           verifier ← form.(tf_code_verifier);
           if is_valid_pkce_value verifier then Some (pkce_s256 verifier) else None
       end;
     hf_dpop_jkt := dpop_jkt;
     hf_certificate_thumbprint := facts.(rf_certificate_thumbprint);
     hf_client_attestation_jkt := facts.(rf_client_attestation_jkt) |}.

(** A code that this request has begun to consume. *)
Definition redeem_consuming (code_hash code_identity legacy_key : string) (candidate : HolderFacts)
    (issuance_holder : option AuthorizationCodeHolderEvidence)
    (pending_audiences : option (list string)) (dpop_jkt mtls_x5t_s256 : option string)
    (payload : CodePayload) : prog redE (result string TokenEndpointError) :=
  let* late := expired (Some payload) in
  if late : bool then
    let* revoked := revoke_replay code_identity legacy_key candidate issuance_holder in
    match revoked with
    | Err e => Ret (Err e)
    | Ok _ =>
        let* _ := mark_failed_authorization_code code_hash "authorization_code_expired" in
        Ret (Err (TokenError 400 "invalid_grant"))
    end
  else match pending_audiences with
  | None =>
      let* _ := mark_failed_authorization_code code_hash "authorization_code_state_changed" in
      Ret (Err (TokenError 503 "server_error"))
  | Some audiences =>
      match authorization_code_subject config payload client with
      | Err _ =>
          let* _ := mark_failed_authorization_code code_hash "subject_policy_invalid" in
          Ret (Err (TokenError 503 "server_error"))
      | Ok subject =>
          match issuance_holder with
          | None => Ret (Err authorization_code_client_mismatch_response)
          | Some holder =>
              let* issue := token_issue_from_authorization_code payload subject audiences dpop_jkt
                mtls_x5t_s256 code_hash in
              call (IssueTokenResponse
                (AuthorizationCode code_identity payload.(cd_expires_at) holder) issue)
          end
      end
  end.

(** The atomic consumption and what its result means. *)
Definition redeem_begin (code_hash code_identity legacy_key : string) (candidate : HolderFacts)
    (issuance_holder : option AuthorizationCodeHolderEvidence)
    (pending_audiences : option (list string)) (dpop_jkt mtls_x5t_s256 : option string)
    : prog redE (result string TokenEndpointError) :=
  let* now := call RedeemNow in
  let* begun := call (BeginCode code_hash now) in
  match begun with
  | Ok (BeginConsuming payload) =>
      redeem_consuming code_hash code_identity legacy_key candidate issuance_holder
        pending_audiences dpop_jkt mtls_x5t_s256 payload
  | Ok (BeginConsumed CodeConsumed) | Ok BeginBusy | Ok BeginFailed | Ok BeginMissing =>
      let* refusal := refuse_replay code_identity legacy_key candidate issuance_holder in
      Ret (Err refusal)
  | Ok (BeginConsumed _) | Ok BeginMalformed | Err _ => Ret (Err (TokenError 503 "server_error"))
  end.

(** After the request's parameters: its proofs, then the code. *)
Definition redeem_validated (code_hash : string) (expired_pending : bool)
    (expected_payload : option CodePayload) (pending_audiences : option (list string))
    : prog redE (result string TokenEndpointError) :=
  let* sender := validate_token_sender_constraints facts client
    (expected_payload ≫= cd_dpop_jkt) (expected_payload ≫= cd_mtls_x5t_s256) in
  match sender with
  | Err (SenderDpop error) => Ret (Err (authorization_code_dpop_error_response error))
  | Err MissingMtls | Err MultipleConstraints => Ret (Err (TokenError 400 "invalid_request"))
  | Ok (dpop_jkt, mtls_x5t_s256) =>
      let code_identity := authorization_code_identity code_hash in
      let candidate := holder_facts expected_payload dpop_jkt in
      let issuance_holder := holder_requirements candidate mtls_x5t_s256 in
      let legacy_key := legacy_authorization_code_redemption_key code_hash form dpop_jkt
        mtls_x5t_s256 facts.(rf_client_attestation_jkt) in
      if is_some expected_payload && is_none issuance_holder
      then Ret (Err authorization_code_client_mismatch_response)
      else
        let* asserted := call ConsumeClientAssertion in
        match asserted with
        | Err StoreUnavailable => Ret (Err (TokenError 503 "server_error"))
        | Err _ => Ret (Err (TokenError 401 "invalid_client"))
        | Ok _ =>
            let* late := if expired_pending then Ret true else expired expected_payload in
            if late : bool then
              let* refusal := refuse_replay code_identity legacy_key candidate issuance_holder in
              Ret (Err refusal)
            else redeem_begin code_hash code_identity legacy_key candidate issuance_holder
                   pending_audiences dpop_jkt mtls_x5t_s256
        end
  end.

(** [token_authorization_code_with_service] *)
Definition token_authorization_code : prog redE (result string TokenEndpointError) :=
  match form.(tf_code) with
  | None => Ret (Err (TokenError 400 "invalid_request"))
  | Some code =>
      let code_hash := blake3_hex code in
      let*? stored_payload := load_pending_authorization_code_payload code_hash in
      if is_some_and stored_payload (fun payload =>
           negb (bool_decide (payload.(cd_client_id) = client.(oc_client_id))))
      then Ret (Err authorization_code_client_mismatch_response)
      else
        let* expired_pending := expired stored_payload in
        let expected_payload := if expired_pending : bool then None else stored_payload in
        match expected_payload with
        | None => redeem_validated code_hash expired_pending None None
        | Some payload =>
            let*? audiences := validate_pending_authorization_code_request payload in
            redeem_validated code_hash expired_pending (Some payload) (Some audiences)
        end
  end.
End exchange.
