(* ===== verification/CodeRedemptionFacts.v ===== *)
(** * What an exchange does, and on what evidence

    The traces of [token_authorization_code], whatever its ports answer: tokens are
    issued only for the code the request began to consume, before its expiry and
    after the client's assertion was accepted; tokens of an earlier exchange are
    revoked only on a receipt that the request's own evidence matches. *)
From stdpp Require Import base list strings sets gmap.
From S2P Require Import Prelude Chrono Effects Text Json UriPolicy AuthorizationPolicy AuthorizationPolicyFacts Dpop.
From S2P Require Import AuthorizationFlow TokenModel CodeRedemption.

Local Open Scope rust_scope.
Local Open Scope string_scope.
Local Open Scope list_scope.
Local Open Scope Z_scope.

(** ** What an exchange must meet *)

Section policy.
Context {AC : AuthorizationCrates} {RC : RedemptionCrates}.
Context (config : TokenIssuanceConfig) (client : OAuthClient) (form : TokenForm) (facts : RedemptionFacts).

(** The redirect URI is repeated where the authorization request had one. *)
Definition redirect_agrees (payload : CodePayload) : Prop :=
  (payload.(cd_redirect_uri_was_supplied) = true → is_Some form.(tf_redirect_uri)) ∧
  ∀ uri, form.(tf_redirect_uri) = Some uri → uri = payload.(cd_redirect_uri).

Definition proves_challenge (challenge : string) : Prop :=
  ∃ verifier, form.(tf_code_verifier) = Some verifier ∧ is_valid_pkce_value verifier = true ∧
    sha256_base64url verifier = challenge.

(** A code without a challenge is for a confidential client, unconstrained, of an
    OpenID Connect request. *)
Definition pkce_proven (payload : CodePayload) : Prop :=
  match payload.(cd_pkce) with
  | Some challenge => proves_challenge challenge
  | None =>
      form.(tf_code_verifier) = None ∧ client.(oc_client_type) = "confidential" ∧
      client.(oc_require_dpop_bound_tokens) = false ∧ client.(oc_require_mtls_bound_tokens) = false ∧
      payload.(cd_dpop_jkt) = None ∧ payload.(cd_mtls_x5t_s256) = None ∧ "openid" ∈ payload.(cd_scopes)
  end.

(** Audiences the client may have and the authorization request asked for. *)
Definition audiences_granted (payload : CodePayload) (audiences : list string) : Prop :=
  audiences ≠ [] ∧ audiences ⊆ client.(oc_allowed_audiences) ∧
  (form.(tf_audiences) ≠ [] → audiences = form.(tf_audiences)) ∧
  (payload.(cd_resource_indicators) ≠ [] → audiences ⊆ payload.(cd_resource_indicators)) ∧
  (form.(tf_audiences) = [] → payload.(cd_resource_indicators) ≠ [] →
     audiences = payload.(cd_resource_indicators)) ∧
  (form.(tf_audiences) = [] → payload.(cd_resource_indicators) = [] →
     audiences = [config.(tc_default_audience)] ∨
     config.(tc_openid4vci_enabled) = true ∧ audiences = [config.(tc_issuer)]).

Definition native_sso_permitted (payload : CodePayload) : Prop :=
  "device_sso" ∈ payload.(cd_scopes) →
  facts.(rf_permits_native_sso) = true ∧ "openid" ∈ payload.(cd_scopes).

(** The sender constraint of the tokens: at most one, and one that the client has to have. *)
Definition sender_permitted (dpop_jkt mtls : option string) : Prop :=
  (dpop_jkt = None ∨ mtls = None) ∧
  (client.(oc_require_dpop_bound_tokens) = true → is_Some dpop_jkt ∨
     client.(oc_require_mtls_bound_tokens) = true ∧ is_Some mtls) ∧
  (client.(oc_require_mtls_bound_tokens) = true → is_Some mtls ∨
     client.(oc_require_dpop_bound_tokens) = true ∧ is_Some dpop_jkt).

Definition pending_accepted (payload : CodePayload) (audiences : list string) : Prop :=
  payload.(cd_redemption_contract_version) = AUTHORIZATION_CODE_REDEMPTION_VERSION ∧
  redirect_agrees payload ∧ pkce_proven payload ∧ audiences_granted payload audiences ∧
  native_sso_permitted payload.

(** The request holds what the holder of the code held. *)
Definition proves_holder (dpop_jkt : option string) (holder : AuthorizationCodeHolderEvidence) : Prop :=
  (holder.(he_authenticated_client) = true →
     client.(oc_client_type) = "confidential" ∧ client.(oc_token_endpoint_auth_method) ≠ "none") ∧
  (∀ challenge, holder.(he_pkce_s256) = Some challenge → proves_challenge challenge) ∧
  (∀ key, holder.(he_dpop_jkt) = Some key → dpop_jkt = Some key) ∧
  (∀ key, holder.(he_mtls_x5t_s256) = Some key → facts.(rf_certificate_thumbprint) = Some key) ∧
  (∀ key, holder.(he_client_attestation_jkt) = Some key → facts.(rf_client_attestation_jkt) = Some key).

Lemma existsb_text (text : string) l :
  existsb (fun x => bool_decide (x = text)) l = true ↔ text ∈ l.
Proof.
  rewrite existsb_exists. split.
  - intros (x & Hx%list_elem_of_In & ->%bool_decide_eq_true). done.
  - intros Hx%list_elem_of_In. exists text. by rewrite bool_decide_true.
Qed.

Lemma redirect_uri_agrees payload :
  redirect_uri_matches_authorization_request payload form.(tf_redirect_uri) = true → redirect_agrees payload.
Proof.
  unfold redirect_uri_matches_authorization_request, redirect_agrees.
  destruct (cd_redirect_uri_was_supplied payload), (tf_redirect_uri form) as [uri|]; intros H; boolify; naive_solver.
Qed.

Lemma check_pkce_proves payload : check_pkce client form payload = Ok tt → pkce_proven payload.
Proof.
  unfold check_pkce, pkce_proven, pkce_s256. destruct (cd_pkce payload) as [challenge|].
  - destruct (tf_code_verifier form) as [verifier|] eqn:Hv; [|done].
    destruct (_ || _) eqn:Hc; [done|]. intros _. boolify. by exists verifier.
  - destruct (negb (authorization_code_requires_pkce client payload)) eqn:Hr; [|done].
    destruct (tf_code_verifier form); [done|]. intros _. apply negb_true_iff in Hr.
    unfold authorization_code_requires_pkce in Hr. boolify.
    match goal with H : existsb _ _ = true |- _ => apply existsb_text in H end.
    destruct (cd_dpop_jkt payload), (cd_mtls_x5t_s256 payload); done.
Qed.

Lemma audiences_grant payload audiences :
  authorization_code_audiences_with_default config.(tc_default_audience)
    (openid4vci_audience config payload.(cd_scopes) payload.(cd_authorization_details)) payload form
    = Ok audiences →
  audiences_allowed client audiences = true → audiences_granted payload audiences.
Proof.
  unfold authorization_code_audiences_with_default, audiences_allowed, audiences_granted.
  intros Ha Hal. boolify. apply is_subset_spec in H0. split; [done|]. split; [done|].
  destruct (bool_decide (cd_resource_indicators payload = [])) eqn:Hr,
    (bool_decide (tf_audiences form = [])) eqn:Hf; boolify; simplify_eq; try (by split_and!).
  - split_and!; try done. intros _ _. unfold openid4vci_audience.
    destruct (tc_openid4vci_enabled config); simpl; [|by left].
    destruct (_ || _); simpl; [by right|by left].
  - destruct (is_subset _ _) eqn:Hs; [|done]. apply is_subset_spec in Hs. simplify_eq. by split_and!.
Qed.

Lemma check_native_sso_permits payload : check_native_sso facts payload = Ok tt → native_sso_permitted payload.
Proof.
  unfold check_native_sso, native_sso_requested. intros H Hd%existsb_text. rewrite Hd in H.
  destruct (rf_permits_native_sso facts); [|done]. simpl in H.
  destruct (existsb _ _) eqn:Ho; [|done]. split; [done|]. by apply existsb_text.
Qed.

Lemma sender_constraint_permits dpop_jkt mtls :
  is_Some (apply_sender_constraint (sender_constraint_policy client.(oc_require_dpop_bound_tokens)
    client.(oc_require_mtls_bound_tokens)) dpop_jkt mtls) → sender_permitted dpop_jkt mtls.
Proof.
  unfold sender_permitted. intros [constraint H].
  destruct (oc_require_dpop_bound_tokens client), (oc_require_mtls_bound_tokens client), dpop_jkt, mtls;
    simpl in H; try done; split_and!; intros; try done; eauto.
Qed.

Lemma validate_pending_accepts (calls : ∀ X, redE X → Prop) (says : ∀ X, redE X → X → Prop) payload :
  calls _ RedeemNow →
  obeys calls says (fun r => ∀ audiences, r = Ok audiences → pending_accepted payload audiences)
    (validate_pending_authorization_code_request config client form facts payload).
Proof.
  intros Hnow. unfold validate_pending_authorization_code_request. case_match eqn:Hv; [done|]. split; [done|].
  intros now _. simpl. case_match; [done|]. case_match eqn:Hr; [done|].
  destruct (check_pkce client form payload) as [[]|] eqn:Hp; simpl; [|done].
  destruct (authorization_code_audiences_with_default _ _ _ _) as [aud|] eqn:Ha; simpl; [|done].
  case_match eqn:Hal; [done|]. destruct (check_native_sso facts payload) as [[]|] eqn:Hn; simpl; [|done].
  intros audiences [= <-]. boolify. split; [done|]. split; [by apply redirect_uri_agrees|].
  split; [by apply check_pkce_proves|]. split; [by apply audiences_grant|]. by apply check_native_sso_permits.
Qed.

Lemma holder_matches_proves expected dpop_jkt holder :
  (∀ payload, expected = Some payload → pkce_proven payload) →
  holder_matches (holder_facts client form facts expected dpop_jkt) holder = true →
  proves_holder dpop_jkt holder.
Proof.
  intros Hpkce. unfold holder_matches, holder_matches_original, proof_matches, proves_holder. simpl. intros H.
  boolify. split_and!.
  - intros Ha. rewrite Ha in H. simpl in H. destruct (_ && _) eqn:Hc in H; [|done]. by boolify.
  - intros challenge Hc. rewrite Hc in H3. simpl in H3. boolify. destruct expected as [payload|].
    + specialize (Hpkce _ eq_refl). unfold pkce_proven in Hpkce. by rewrite H3 in Hpkce.
    + apply bind_Some in H3 as (verifier & Hv & Hs). case_match eqn:Hok; [|done]. simplify_eq. by exists verifier.
  - intros key Hk. rewrite Hk in H2. simpl in H2. by boolify.
  - intros key Hk. rewrite Hk in H1. simpl in H1. by boolify.
  - intros key Hk. rewrite Hk in H0. simpl in H0. by boolify.
Qed.
End policy.

(** ** Evidence *)

Section evidence.
Context {AC : AuthorizationCrates} {RC : RedemptionCrates}.
Context (client : OAuthClient) (form : TokenForm) (facts : RedemptionFacts).
Notation trace := (list (event redE)).

Definition asserted (before : trace) : Prop := Event ConsumeClientAssertion (Ok tt) ∈ before.

(** The request began to consume the code, and then read a clock before its expiry. *)
Definition issue_evidence (before : trace) (mode : TokenIssuanceMode) (issue : TokenIssue) : Prop :=
  ∃ code payload holder earlier later began now,
    form.(tf_code) = Some code ∧
    mode = AuthorizationCode (authorization_code_identity (blake3_hex code)) payload.(cd_expires_at) holder ∧
    issue.(ti_authorization_code_hash) = Some (blake3_hex code) ∧
    asserted before ∧
    before = earlier ++ Event (BeginCode (blake3_hex code) began) (Ok (BeginConsuming payload)) :: later ∧
    Event RedeemNow now ∈ later ∧ now < payload.(cd_expires_at).

(** The receipt of the code, with the holder's evidence; or one of the time before
    receipts had it, found under a key made of the request itself. *)
Definition receipt_evidence (before : trace) (code : string) (redemption : SingleUseRedemption) : Prop :=
  ∃ expected dpop_jkt mtls,
    let read key := Event (ReadRedemption client.(oc_tenant_id) client.(oc_id) key) in
    let identity := authorization_code_identity (blake3_hex code) in
    Event (ValidateDpop (expected ≫= cd_dpop_jkt)) (Ok dpop_jkt) ∈ before ∧
    (read identity (Ok (Some redemption)) ∈ before ∧
     (∃ holder, redemption.(sr_authorization_code_holder) = Some holder ∧
        proves_holder client form facts dpop_jkt holder) ∨
     read identity (Ok None) ∈ before ∧
     read (legacy_authorization_code_redemption_key (blake3_hex code) form dpop_jkt mtls
             facts.(rf_client_attestation_jkt)) (Ok (Some redemption)) ∈ before ∧
     redemption.(sr_authorization_code_holder) = None).

Definition revocation_evidence (before : trace) (tenant_id client_id : Uuid) (jti : string)
    (expires_at : option DateTime) (family : option Uuid) : Prop :=
  ∃ code redemption,
    form.(tf_code) = Some code ∧ tenant_id = client.(oc_tenant_id) ∧ client_id = client.(oc_id) ∧
    jti = redemption.(sr_access_token_jti) ∧
    expires_at = Some redemption.(sr_access_token_expires_at) ∧
    family = redemption.(sr_refresh_token_family_id) ∧
    asserted before ∧ receipt_evidence before code redemption.

Definition exchange_evidence (before : trace) (ev : event redE) : Prop :=
  match ev with
  | Event (IssueTokenResponse mode issue) _ => issue_evidence before mode issue
  | Event (RevokeIssuedTokens tenant_id client_id jti expires_at family) _ =>
      revocation_evidence before tenant_id client_id jti expires_at family
  | _ => True
  end.
End evidence.

Section traces.
Context {AC : AuthorizationCrates} {RC : RedemptionCrates}.
Context (config : TokenIssuanceConfig) (client : OAuthClient) (form : TokenForm) (facts : RedemptionFacts).
Notation trace := (list (event redE)).
Notation evidence := (exchange_evidence client form facts).
Notation wpt := (wp (traced (E := redE)) eq (justifies evidence)).

(** A program without issuances and revocations extends the trace. *)
Definition plain X (e : redE X) : Prop :=
  match e with IssueTokenResponse _ _ | RevokeIssuedTokens _ _ _ _ _ => False | _ => True end.

Lemma plain_evidence X (e : redE X) w x : plain X e → evidence w (Event e x).
Proof. by destruct e. Qed.

Lemma wpt_plain_post {A} (p : prog redE A) (Q : A → Prop) w :
  obeys plain (fun _ _ _ => True) Q p → wpt p (fun a w' => Q a ∧ ∃ more, w' = w ++ more) w.
Proof.
  revert w. induction p as [a|X e k IH]; intros w Hp.
  { apply wpt_ret. split; [done|]. exists []. by rewrite app_nil_r. }
  destruct Hp as [He Hk]. apply (wpt_call _ e k). intros x. split; [by apply plain_evidence|].
  eapply wp_mono; [by apply IH, Hk|]. intros a w' [Ha [more ->]]. rewrite <-app_assoc. eauto.
Qed.

Lemma wpt_plain {A} (p : prog redE A) w :
  obeys plain (fun _ _ _ => True) (fun _ => True) p → wpt p (fun _ w' => ∃ more, w' = w ++ more) w.
Proof.
  intros Hp. eapply wp_mono; [by apply wpt_plain_post|]. by intros a w' [_ H].
Qed.

(** What a request has shown when it comes to the code. *)
Definition shown (w : trace) (expected : option CodePayload) (dpop_jkt : option string) : Prop :=
  asserted w ∧ Event (ValidateDpop (expected ≫= cd_dpop_jkt)) (Ok dpop_jkt) ∈ w ∧
  ∀ payload, expected = Some payload → pkce_proven client form payload.

Lemma shown_app w more expected dpop_jkt : shown w expected dpop_jkt → shown (w ++ more) expected dpop_jkt.
Proof. intros (? & ? & ?). split_and!; [..|done]; unfold asserted in *; set_solver. Qed.

Section code.
Context (code : string) (Hcode : form.(tf_code) = Some code).
Context (expected : option CodePayload) (dpop_jkt mtls : option string).
Notation identity := (authorization_code_identity (blake3_hex code)).
Notation legacy := (legacy_authorization_code_redemption_key (blake3_hex code) form dpop_jkt mtls
  facts.(rf_client_attestation_jkt)).
Notation candidate := (holder_facts client form facts expected dpop_jkt).

Lemma wpt_revoke_replay holder w :
  shown w expected dpop_jkt →
  wpt (revoke_replay client identity legacy candidate holder) (fun _ w' => ∃ more, w' = w ++ more) w.
Proof.
  intros (Hass & Hdpop & Hpkce). unfold revoke_replay. apply wp_bind; [apply _|].
  eapply (wp_mono _ _ _ (fun r w' => (∃ more, w' = w ++ more) ∧ ∀ redemption, r = Ok (Some redemption) →
    receipt_evidence client form facts w' code redemption)).
  { unfold committed_single_use_redemption. apply wpt_call. intros receipt. split; [done|].
    destruct receipt as [[receipt|]|e]; [| |apply wpt_ret; split; [by eauto|done]].
    - apply wpt_ret. split; [by eauto|]. intros redemption [= Hr]. case_match eqn:Hm; [|done]. simplify_eq.
      exists expected, dpop_jkt, mtls. split; [set_solver|]. left. split; [set_solver|].
      destruct (sr_authorization_code_holder redemption) as [h|]; [|done].
      eauto using holder_matches_proves.
    - destruct (is_none holder); [apply wpt_ret; split; [by eauto|done]|].
      apply wpt_call. intros receipt. split; [done|]. rewrite <-app_assoc. apply wpt_ret. split; [by eauto|].
      intros redemption Hr. destruct receipt as [[receipt|]|]; simplify_eq/=. case_match eqn:Hn; simplify_eq.
      exists expected, dpop_jkt, mtls. split; [set_solver|]. right. split_and!; [set_solver..|].
      by destruct (sr_authorization_code_holder redemption). }
  intros [[redemption|]|e] w' [[more ->] Hev]; try (apply wpt_ret; by eauto).
  unfold revoke_replayed_redemption. apply wp_bind; [apply _|]. apply wpt_call. intros x. split.
  - exists code, redemption. split_and!; try done; [|by apply Hev]. unfold asserted in *. set_solver.
  - apply wpt_ret. rewrite <-app_assoc. destruct x; apply wpt_ret; eauto.
Qed.

Lemma wpt_refuse_replay holder w :
  shown w expected dpop_jkt →
  wpt (refuse_replay client identity legacy candidate holder) (fun _ w' => ∃ more, w' = w ++ more) w.
Proof.
  intros Hs. apply wp_bind; [apply _|]. eapply wp_mono; [by apply wpt_revoke_replay|].
  intros r w' H. by apply wpt_ret.
Qed.

Lemma wpt_mark_failed h error w :
  wpt (mark_failed_authorization_code config h error) (fun _ _ => True) w.
Proof. eapply wp_mono; [by apply wpt_plain|done]. Qed.

Lemma wpt_redeem_consuming holder pending payload earlier began w :
  w = earlier ++ [Event (BeginCode (blake3_hex code) began) (Ok (BeginConsuming payload))] →
  shown w expected dpop_jkt →
  wpt (redeem_consuming config client facts (blake3_hex code) identity legacy candidate holder pending
         dpop_jkt mtls payload) (fun _ _ => True) w.
Proof.
  intros Hw Hs. unfold redeem_consuming, expired. apply wp_bind; [apply _|]. apply wpt_call.
  intros now. split; [done|]. apply wpt_ret. destruct (_ <=? now) eqn:Hlate.
  { apply wp_bind; [apply _|]. eapply wp_mono; [by apply wpt_revoke_replay, shown_app|].
    intros [r|e] w' _; [|by apply wpt_ret]. apply wp_bind; [apply _|].
    eapply wp_mono; [apply wpt_mark_failed|]. by intros; apply wpt_ret. }
  destruct pending as [audiences|]; [|apply wp_bind; [apply _|];
    eapply wp_mono; [apply wpt_mark_failed|]; by intros; apply wpt_ret].
  destruct (authorization_code_subject _ _ _) as [subject|]; [|apply wp_bind; [apply _|];
    eapply wp_mono; [apply wpt_mark_failed|]; by intros; apply wpt_ret].
  destruct holder as [holder|]; [|by apply wpt_ret]. apply wp_bind; [apply _|].
  eapply (wp_mono _ _ _ (fun issue w' => (∃ more, w' = (w ++ [Event RedeemNow now]) ++ more) ∧
    ti_authorization_code_hash issue = Some (blake3_hex code))).
  { apply wp_bind; [apply _|]. eapply wp_mono; [apply wpt_plain|].
    - destruct (native_sso_requested _); [|done]. by destruct (cd_oidc_sid payload).
    - intros native w' Hm. by apply wpt_ret. }
  intros issue w' [[more ->] Hh]. apply (wpt_call _ (IssueTokenResponse _ _) Ret). intros x. split; [|by apply wpt_ret].
  boolify. exists code, payload, holder, earlier, (Event RedeemNow now :: more), began, now.
  split_and!; try done; [|by subst w; rewrite <-!app_assoc|set_solver].
  destruct Hs. unfold asserted in *. set_solver.
Qed.

Lemma wpt_redeem_begin holder pending w :
  shown w expected dpop_jkt →
  wpt (redeem_begin config client facts (blake3_hex code) identity legacy candidate holder pending
         dpop_jkt mtls) (fun _ _ => True) w.
Proof.
  intros Hs. unfold redeem_begin. apply wpt_call. intros now. split; [done|].
  apply wpt_call. intros begun. split; [done|].
  assert (shown ((w ++ [Event RedeemNow now]) ++ [Event (BeginCode (blake3_hex code) now) begun]) expected dpop_jkt)
    as Hs' by by apply shown_app, shown_app.
  destruct begun as [[payload| |[]| | |]|e]; try (by apply wpt_ret);
    try (apply wp_bind; [apply _|]; eapply wp_mono; [by apply wpt_refuse_replay|]; by intros; apply wpt_ret).
  by eapply wpt_redeem_consuming.
Qed.
End code.

Lemma wpt_redeem_validated code expired_pending expected pending w :
  form.(tf_code) = Some code → (∀ payload, expected = Some payload → pkce_proven client form payload) →
  wpt (redeem_validated config client form facts (blake3_hex code) expired_pending expected pending)
    (fun _ _ => True) w.
Proof.
  intros Hcode Hpkce. unfold redeem_validated, validate_token_sender_constraints. apply wp_bind; [apply _|].
  apply wpt_call. intros validated. split; [done|]. apply wpt_ret.
  destruct (let? _ := map_err SenderDpop validated in _) as [[dpop_jkt mtls]|e] eqn:Hv;
    [|by destruct e; apply wpt_ret].
  assert (validated = Ok dpop_jkt) as ->.
  { destruct validated as [jkt|]; [|done]. simpl in Hv. repeat (case_match; simpl in Hv; simplify_eq); done. }
  clear Hv. cbv zeta. destruct (is_some expected && _); [by apply wpt_ret|]. apply wpt_call. intros x. split; [done|].
  destruct x as [[]|[]]; [|by apply wpt_ret..]. apply wp_bind; [apply _|].
  eapply wp_mono; [apply wpt_plain; destruct expired_pending; [done|]; by destruct expected|].
  intros late w' [more ->].
  assert (shown (((w ++ [Event (ValidateDpop (expected ≫= cd_dpop_jkt)) (Ok dpop_jkt)]) ++
    [Event ConsumeClientAssertion (Ok ())]) ++ more) expected dpop_jkt) as Hs.
  { split_and!; [..|done]; unfold asserted; set_solver. }
  destruct late; [|by apply wpt_redeem_begin].
  apply wp_bind; [apply _|]. eapply wp_mono; [by apply wpt_refuse_replay|]. by intros; apply wpt_ret.
Qed.

Lemma wpt_exchange : wpt (token_authorization_code config client form facts) (fun _ _ => True) [].
Proof.
  unfold token_authorization_code. destruct (tf_code form) as [code|] eqn:Hcode; [|by apply wpt_ret].
  cbv zeta. apply wp_bind; [apply _|]. unfold load_pending_authorization_code_payload.
  eapply wp_mono; [by apply wpt_plain|]. intros stored w _. destruct stored as [stored|]; [|by apply wpt_ret].
  case_match; [by apply wpt_ret|]. apply wp_bind; [apply _|].
  eapply wp_mono; [by apply wpt_plain; destruct stored|]. intros late w' _.
  destruct (if late then None else stored) as [payload|]; [|by apply wpt_redeem_validated].
  apply wp_bind; [apply _|]. eapply wp_mono; [by apply wpt_plain_post, validate_pending_accepts|].
  intros r w2 [Hr _]. destruct r as [audiences|]; [|by apply wpt_ret].
  destruct (Hr _ eq_refl) as (_ & _ & Hpkce & _). apply wpt_redeem_validated; [done|]. by intros ? [= <-].
Qed.
End traces.
