(* ===== verification/AuthorizationWorld.v ===== *)
(** * The shared state of authorization decisions and codes

    What the programs of [AuthorizationFlow] and [CodeRedemption] run against: the
    decision ledger of [PostgresDecisions], the prepared consents and pushed
    requests, and the codes with their states.  Every call may fail, or take effect
    and lose its reply; keys expire, requests are prepared and the ledger is
    exported and reclaimed between any two calls.  The history of the system
    (the recorded decisions, the drawn, stored and begun codes, the issuances)
    is kept beside the state, and [world_inv] ties the two. *)
From stdpp Require Import base list strings gmap relations.
From S2P Require Import Prelude Chrono Postgres Effects Text Json UriPolicy AuthorizationPolicy.
From S2P Require Import AuthorizationFlow PostgresDecisions PostgresDecisionsFacts TokenModel CodeRedemption CodeRedemptionFacts.

Local Open Scope rust_scope.
Local Open Scope string_scope.
Local Open Scope list_scope.
Local Open Scope Z_scope.

(** ** Codes *)

(** What beginning and marking a code do to its state, and what they answer. *)
Definition begin_code (state : option AuthorizationCodeState) (consuming_at : DateTime)
    : AuthorizationCodeBeginResult * option AuthorizationCodeState :=
  match state with
  | None => (BeginMissing, None)
  | Some (CodePending payload) => (BeginConsuming payload, Some (CodeConsuming payload consuming_at))
  | Some (CodeConsuming _ _) => (BeginBusy, state)
  | Some CodeConsumed => (BeginConsumed CodeConsumed, state)
  | Some (CodeFailed _ _) => (BeginFailed, state)
  end.

Definition mark_code (state : option AuthorizationCodeState) (replacement : AuthorizationCodeState)
    : AuthorizationCodeTransitionResult * option AuthorizationCodeState :=
  match state with
  | None => (TransitionMissing, None)
  | Some (CodePending _) => (TransitionPending, state)
  | Some (CodeConsuming _ _) => (TransitionApplied, Some replacement)
  | Some CodeConsumed => (TransitionConsumed, state)
  | Some (CodeFailed _ _) => (TransitionFailed, state)
  end.

Definition set_code (code_hash : string) (state : option AuthorizationCodeState)
    (codes : gmap string AuthorizationCodeState) : gmap string AuthorizationCodeState :=
  partial_alter (fun _ => state) code_hash codes.

(** ** The world *)

(** An issuance: the task that asked for it, and what for. *)
Record Issuance := {
  is_task : nat;
  is_mode : TokenIssuanceMode;
  is_issue : TokenIssue;
}.

Definition is_code (x : Issuance) : option string := x.(is_issue).(ti_authorization_code_hash).

(** [aw_log]: the decisions the ledger recorded; [aw_consents], [aw_pushed]: every
    request prepared under its identifier, which are fresh; [aw_codes]: the codes
    the store holds; [aw_drawn]: the hashes of the codes drawn, with the task that
    drew them; [aw_published]: the payloads stored; [aw_begun]: the codes whose
    consumption a task was granted; [aw_issued]: the issuances. *)
Record AuthorizationWorld := {
  aw_tables : DecisionTables;
  aw_now : DateTime;
  aw_log : list AuthorizationDecisionCommit;
  aw_consents : gmap string ConsentPayload;
  aw_pushed : gmap string PushedAuthorizationRequest;
  aw_codes : gmap string AuthorizationCodeState;
  aw_drawn : gmap string nat;
  aw_published : gmap string CodePayload;
  aw_begun : gmap string nat;
  aw_issued : list Issuance;
}.

Definition put_ledger tables now log (w : AuthorizationWorld) : AuthorizationWorld :=
  {| aw_tables := tables; aw_now := now; aw_log := log;
     aw_consents := w.(aw_consents); aw_pushed := w.(aw_pushed); aw_codes := w.(aw_codes);
     aw_drawn := w.(aw_drawn); aw_published := w.(aw_published); aw_begun := w.(aw_begun);
     aw_issued := w.(aw_issued) |}.

Definition put_prepared consents pushed (w : AuthorizationWorld) : AuthorizationWorld :=
  {| aw_tables := w.(aw_tables); aw_now := w.(aw_now); aw_log := w.(aw_log);
     aw_consents := consents; aw_pushed := pushed; aw_codes := w.(aw_codes);
     aw_drawn := w.(aw_drawn); aw_published := w.(aw_published); aw_begun := w.(aw_begun);
     aw_issued := w.(aw_issued) |}.

Definition put_codes codes drawn published begun issued (w : AuthorizationWorld) : AuthorizationWorld :=
  {| aw_tables := w.(aw_tables); aw_now := w.(aw_now); aw_log := w.(aw_log);
     aw_consents := w.(aw_consents); aw_pushed := w.(aw_pushed); aw_codes := codes;
     aw_drawn := drawn; aw_published := published; aw_begun := begun; aw_issued := issued |}.

Definition with_codes codes (w : AuthorizationWorld) : AuthorizationWorld :=
  put_codes codes w.(aw_drawn) w.(aw_published) w.(aw_begun) w.(aw_issued) w.

Definition draw_code (task : nat) (code_hash : string) (w : AuthorizationWorld) : AuthorizationWorld :=
  put_codes w.(aw_codes) (<[code_hash := task]> w.(aw_drawn)) w.(aw_published) w.(aw_begun)
    w.(aw_issued) w.

Definition store_code (code_hash : string) (state : AuthorizationCodeState) (w : AuthorizationWorld)
    : AuthorizationWorld :=
  put_codes (<[code_hash := state]> w.(aw_codes)) w.(aw_drawn)
    match state with
    | CodePending payload => <[code_hash := payload]> w.(aw_published)
    | _ => w.(aw_published)
    end w.(aw_begun) w.(aw_issued) w.

(** What the task of a granted consumption learns is also recorded. *)
Definition grant_begin (task : nat) (code_hash : string) (begun : AuthorizationCodeBeginResult)
    (w : AuthorizationWorld) : AuthorizationWorld :=
  put_codes w.(aw_codes) w.(aw_drawn) w.(aw_published)
    match begun with
    | BeginConsuming _ => <[code_hash := task]> w.(aw_begun)
    | _ => w.(aw_begun)
    end w.(aw_issued) w.

Definition issue_code (x : Issuance) (codes : gmap string AuthorizationCodeState)
    (w : AuthorizationWorld) : AuthorizationWorld :=
  put_codes codes w.(aw_drawn) w.(aw_published) w.(aw_begun) (w.(aw_issued) ++ [x]) w.

(** ** Steps *)

Section steps.
Context {AC : AuthorizationCrates} {DS : DecisionServer}.

(** What happens between two calls. *)
Inductive background (w : AuthorizationWorld) : AuthorizationWorld → Prop :=
| background_ledger op now :
    (∀ tenant connection lost clocks input, op ≠ OpDecide tenant connection lost clocks input) →
    timed_decision w.(aw_now) now op →
    background w (put_ledger (perform_decision op w.(aw_tables)) now w.(aw_log) w)
| background_expiry codes :
    codes ⊆ w.(aw_codes) → background w (with_codes codes w)
| background_consent request_id consent :
    w.(aw_consents) !! request_id = None →
    background w (put_prepared (<[request_id := consent]> w.(aw_consents)) w.(aw_pushed) w)
| background_push request_uri request :
    w.(aw_pushed) !! request_uri = None →
    background w (put_prepared w.(aw_consents) (<[request_uri := request]> w.(aw_pushed)) w).

(** The repository's commit at some time, with some faults. *)
Definition commit_effect (input : AuthorizationDecisionCommit) (w : AuthorizationWorld)
    (x : result AuthorizationDecisionCommitResult AuthorizationPortError) (w' : AuthorizationWorld) : Prop :=
  ∃ tenant connection lost clocks now,
    let op := OpDecide tenant connection lost clocks input in
    timed_decision w.(aw_now) now op ∧
    (commit_decision_repository tenant connection lost clocks input w.(aw_tables)).1 = x ∧
    w' = put_ledger (perform_decision op w.(aw_tables)) now
           (w.(aw_log) ++ recorded op w.(aw_tables) (perform_decision op w.(aw_tables))) w.

(** The effects of a decision.  A loaded request is the one prepared under its
    identifier; a drawn code has a hash that none had before. *)
Definition dec_effect (task : nat) X (e : decE X)
    : AuthorizationWorld → X → AuthorizationWorld → Prop :=
  match e with
  | CommitDecision input => commit_effect input
  | LoadConsent request_id => fun w x w' => w' = w ∧
      ∀ snapshot, x = Ok (Some snapshot) →
        w.(aw_consents) !! request_id = Some snapshot.(sn_payload)
  | LoadPar request_uri => fun w x w' => w' = w ∧
      ∀ snapshot, x = Ok (Some snapshot) →
        w.(aw_pushed) !! request_uri = Some snapshot.(sn_payload)
  | StoreAuthorizationCode code_hash state _ => fun w x w' =>
      w' = store_code code_hash state w ∨ w' = w ∧ x ≠ Ok tt
  | RandomUrlsafeToken => fun w x w' =>
      w.(aw_drawn) !! blake3_hex x = None ∧ w' = draw_code task (blake3_hex x) w
  | _ => fun w _ w' => w' = w
  end.

(** The effects of an exchange.  The store rounds the time a code was begun;
    issuing leaves every other code alone. *)
Definition red_effect (task : nat) X (e : redE X)
    : AuthorizationWorld → X → AuthorizationWorld → Prop :=
  match e with
  | LoadCode code_hash => fun w x w' => w' = w ∧
      ∀ state, x = Ok state → state = w.(aw_codes) !! code_hash
  | BeginCode code_hash _ => fun w x w' => ∃ consuming_at,
      let '(reply, state) := begin_code (w.(aw_codes) !! code_hash) consuming_at in
      let w1 := with_codes (set_code code_hash state w.(aw_codes)) w in
      x = Ok reply ∧ w' = grant_begin task code_hash reply w1 ∨
      (∃ e, x = Err e) ∧ (w' = w ∨ w' = w1)
  | MarkCode code_hash replacement _ => fun w x w' =>
      let '(reply, state) := mark_code (w.(aw_codes) !! code_hash) replacement in
      let w1 := with_codes (set_code code_hash state w.(aw_codes)) w in
      x = Ok reply ∧ w' = w1 ∨ (∃ e, x = Err e) ∧ (w' = w ∨ w' = w1)
  | ValidateDpop expected => fun w x w' => w' = w ∧
      ∀ jkt key, x = Ok jkt → expected = Some key → jkt = Some key
  | IssueTokenResponse mode issue => fun w _ w' => ∃ codes,
      w' = issue_code {| is_task := task; is_mode := mode; is_issue := issue |} codes w ∧
      ∀ code_hash, codes !! code_hash = w.(aw_codes) !! code_hash ∨
        issue.(ti_authorization_code_hash) = Some code_hash ∧
        ∀ payload, codes !! code_hash ≠ Some (CodePending payload) ∧
          ∀ at_, codes !! code_hash ≠ Some (CodeConsuming payload at_)
  | _ => fun w _ w' => w' = w
  end.

Definition after_background {E : Type → Type} (effect : ∀ X, E X → AuthorizationWorld → X → AuthorizationWorld → Prop)
    X (e : E X) (w : AuthorizationWorld) (x : X) (w' : AuthorizationWorld) : Prop :=
  ∃ w1, rtc background w w1 ∧ effect X e w1 x w'.

Definition dec_step (task : nat) := after_background (dec_effect task).
Definition red_step (task : nat) := after_background (red_effect task).

Definition world_step (task : nat) X (e : sumE decE redE X)
    : AuthorizationWorld → X → AuthorizationWorld → Prop :=
  match e with Left e => dec_step task X e | Right e => red_step task X e end.
End steps.

(** ** Tasks *)

Inductive AuthorizationTask :=
| TaskDecide (tenant_id : Uuid) (auth_code_ttl_seconds : Z) (command : AuthorizationDecisionCommand)
| TaskSilent (tenant_id : Uuid) (source_ip : string) (session_id : option string)
    (payload : ConsentPayload) (pushed_request_expires_at : option DateTime)
    (pushed_request_version : option string)
| TaskRedeem (config : TokenIssuanceConfig) (client : OAuthClient) (form : TokenForm)
    (facts : RedemptionFacts).

Inductive TaskResult :=
| Decided (r : result AuthorizationDecisionResponse AuthorizationDecisionError)
| DecidedSilently (r : result string OAuthEndpointError)
| Redeemed (r : result string TokenEndpointError).

Section tasks.
Context {AC : AuthorizationCrates} {RC : RedemptionCrates}.

Definition task_prog (t : AuthorizationTask) : prog (sumE decE redE) TaskResult :=
  match t with
  | TaskDecide tenant_id ttl command =>
      translate (fun _ => Left) (let* r := decide_inner tenant_id ttl command in Ret (Decided r))
  | TaskSilent tenant_id source_ip session_id payload expires_at version =>
      translate (fun _ => Left)
        (let* r := issue_authorization_code_without_interaction tenant_id source_ip session_id payload
           expires_at version in Ret (DecidedSilently r))
  | TaskRedeem config client form facts =>
      translate (fun _ => Right)
        (let* r := token_authorization_code config client form facts in Ret (Redeemed r))
  end.

(** ** What holds of the world *)

(** The code [code_hash] with [payload] is the one [d] was recorded with. *)
Definition code_of (d : AuthorizationDecisionCommit) (code_hash : string) (payload : CodePayload) : Prop :=
  d.(dc_decision) ≠ Deny ∧
  value_get d.(dc_audit_fields) "code_hash" = Some (JString code_hash) ∧
  value_get d.(dc_audit_fields) "code_payload_digest" = JString <$> code_payload_digest payload ∧
  payload.(cd_expires_at) ≤ d.(dc_retain_until) ∧
  payload.(cd_user_id) = d.(dc_user_id) ∧
  payload.(cd_client_id) = d.(dc_client_id) ∧
  payload.(cd_scopes) = d.(dc_scopes) ∧
  payload.(cd_resource_indicators) = d.(dc_resource_indicators) ∧
  payload.(cd_authorization_details) = d.(dc_authorization_details).

(** A decision's times, against the request it decides. *)
Definition within (d : AuthorizationDecisionCommit) (deadline : DateTime) : Prop :=
  d.(dc_valid_until) ≤ deadline ≤ d.(dc_retain_until).

Definition fits (w : AuthorizationWorld) (d : AuthorizationDecisionCommit) : Prop :=
  (∃ consent, w.(aw_consents) !! d.(dc_request_id) = Some consent ∧ within d consent.(co_expires_at)) ∧
  ∀ uri, d.(dc_pushed_request_uri) = Some uri →
    ∃ request, w.(aw_pushed) !! uri = Some request ∧ within d request.(pu_expires_at).

(** A silent request is prepared as any other. *)
Definition task_ready (w : AuthorizationWorld) (t : AuthorizationTask) : Prop :=
  match t with
  | TaskSilent _ _ _ payload expires_at _ =>
      w.(aw_consents) !! payload.(co_request_id) = Some payload ∧
      ∀ uri, payload.(co_pushed_request_uri) = Some uri →
        ∃ request, w.(aw_pushed) !! uri = Some request ∧ expires_at = Some request.(pu_expires_at)
  | _ => True
  end.

(** The request's redirect URI, verifier, audiences and proofs are the code's. *)
Definition accepted (config : TokenIssuanceConfig) (client : OAuthClient) (form : TokenForm)
    (facts : RedemptionFacts) (payload : CodePayload) (issue : TokenIssue) : Prop :=
  payload.(cd_client_id) = client.(oc_client_id) ∧
  pending_accepted config client form facts payload issue.(ti_audiences) ∧
  authorization_code_subject config payload client = Ok issue.(ti_subject) ∧
  issue.(ti_user_id) = Some payload.(cd_user_id) ∧
  issue.(ti_scopes) = payload.(cd_scopes) ∧
  issue.(ti_authorization_details) = payload.(cd_authorization_details) ∧
  (∀ key, payload.(cd_dpop_jkt) = Some key → issue.(ti_dpop_jkt) = Some key) ∧
  (∀ key, payload.(cd_mtls_x5t_s256) = Some key →
     issue.(ti_mtls_x5t_s256) = Some key ∧ facts.(rf_certificate_thumbprint) = Some key) ∧
  sender_permitted client issue.(ti_dpop_jkt) issue.(ti_mtls_x5t_s256).

(** An issuance for the code [code_hash] with [payload], by the task [t]. *)
Definition redeems (t : AuthorizationTask) (code_hash : string) (payload : CodePayload)
    (x : Issuance) : Prop :=
  ∃ config client form facts code holder,
    t = TaskRedeem config client form facts ∧ form.(tf_code) = Some code ∧
    code_hash = blake3_hex code ∧
    x.(is_mode) = AuthorizationCode (authorization_code_identity code_hash) payload.(cd_expires_at) holder ∧
    holder_requirements (holder_facts client form facts (Some payload) x.(is_issue).(ti_dpop_jkt))
      x.(is_issue).(ti_mtls_x5t_s256) = Some holder ∧
    accepted config client form facts payload x.(is_issue).

Definition issued_soundly (ts : list AuthorizationTask) (w : AuthorizationWorld) (x : Issuance) : Prop :=
  ∃ code_hash payload t,
    is_code x = Some code_hash ∧ w.(aw_published) !! code_hash = Some payload ∧
    w.(aw_begun) !! code_hash = Some x.(is_task) ∧ ts !! x.(is_task) = Some t ∧
    redeems t code_hash payload x.
End tasks.

Section invariant.
Context {AC : AuthorizationCrates} {RC : RedemptionCrates} {DS : DecisionServer}.
Context (ts : list AuthorizationTask) (t0 : DecisionTables) (now0 : DateTime).

Record world_inv (w : AuthorizationWorld) : Prop := {
  inv_history : decision_history t0 now0 w.(aw_log) w.(aw_now) w.(aw_tables);
  inv_fits : ∀ d, d ∈ w.(aw_log) → fits w d;
  inv_published : ∀ h payload, w.(aw_published) !! h = Some payload →
    (∃ d, d ∈ w.(aw_log) ∧ code_of d h payload) ∧ is_Some (w.(aw_drawn) !! h);
  inv_pending : ∀ h payload, w.(aw_codes) !! h = Some (CodePending payload) →
    w.(aw_published) !! h = Some payload ∧ w.(aw_begun) !! h = None;
  inv_begun : ∀ h task, w.(aw_begun) !! h = Some task → is_Some (w.(aw_published) !! h);
  inv_issued : ∀ x, x ∈ w.(aw_issued) → issued_soundly ts w x;
  inv_once : NoDup (is_code <$> w.(aw_issued));
}.

(** What only grows. *)
Record grows (w w' : AuthorizationWorld) : Prop := {
  grows_consents : w.(aw_consents) ⊆ w'.(aw_consents);
  grows_pushed : w.(aw_pushed) ⊆ w'.(aw_pushed);
  grows_log : w.(aw_log) ⊆ w'.(aw_log);
  grows_drawn : w.(aw_drawn) ⊆ w'.(aw_drawn);
  grows_published : w.(aw_published) ⊆ w'.(aw_published);
  grows_begun : w.(aw_begun) ⊆ w'.(aw_begun);
}.

(** What is left to a task: to store the codes it drew and to issue for the codes
    it began. *)
Definition spares (task : nat) (w w' : AuthorizationWorld) : Prop :=
  (∀ h, w.(aw_drawn) !! h = Some task → w'.(aw_published) !! h = w.(aw_published) !! h) ∧
  (∀ h x, w.(aw_begun) !! h = Some task → x ∈ w'.(aw_issued) → is_code x = Some h →
     x ∈ w.(aw_issued)).

(** A step and what it leaves to the tasks of [own]. *)
Definition evolves (own : nat → Prop) (w w' : AuthorizationWorld) : Prop :=
  world_inv w' ∧ grows w w' ∧ ∀ task, own task → spares task w w'.

Definition world_rely (task : nat) (w w' : AuthorizationWorld) : Prop :=
  world_inv w → evolves (eq task) w w'.

Definition world_guar (task : nat) {E : Type → Type} X (e : E X) (w : AuthorizationWorld) (x : X)
    (w' : AuthorizationWorld) : Prop :=
  world_inv w → evolves (fun other => other ≠ task) w w'.
End invariant.
