(* ===== verification/AuthorizationFlowFacts.v ===== *)
(** * From a decision to its tokens

    Any number of decisions, silent decisions and exchanges of codes run
    concurrently over the state of [AuthorizationWorld].  Each effect keeps the
    invariant and leaves to the other tasks what is theirs; the programs are
    verified against that ([wp]), and the properties hold of every interleaving. *)
From stdpp Require Import base list strings gmap relations.
From S2P Require Import Prelude Chrono Postgres Effects Text Json UriPolicy AuthorizationPolicy.
From S2P Require Import AuthorizationFlow PostgresDecisions PostgresDecisionsFacts TokenModel CodeRedemption CodeRedemptionFacts.
From S2P Require Import AuthorizationWorld.

Local Open Scope rust_scope.
Local Open Scope string_scope.
Local Open Scope list_scope.
Local Open Scope Z_scope.

Section facts.
Context {AC : AuthorizationCrates} {RC : RedemptionCrates} {DS : DecisionServer}.
Context (ts : list AuthorizationTask) (t0 : DecisionTables) (now0 : DateTime).
Notation inv := (world_inv ts t0 now0).
Notation evolve := (evolves ts t0 now0).
Notation rely := (world_rely ts t0 now0).
Notation guar := (world_guar ts t0 now0).
Notation anyone := (fun _ : nat => True).

(** ** Evolving *)

#[local] Instance grows_preorder : PreOrder grows.
Proof.
  split; [by split|]. intros w1 w2 w3 [] []. split; by etrans.
Qed.

Lemma spares_trans task w1 w2 w3 :
  grows w1 w2 → spares task w1 w2 → spares task w2 w3 → spares task w1 w3.
Proof.
  intros Hg [H1 H1'] [H2 H2']. split.
  - intros h Hh. rewrite H2; [by apply H1|]. eapply lookup_weaken; [done|apply Hg].
  - intros h x Hh Hx Hc. eapply H1'; [done| |done]. eapply H2'; [|done..].
    eapply lookup_weaken; [done|apply Hg].
Qed.

Lemma evolves_refl own w : inv w → evolve own w w.
Proof. intros H. split; [done|]. split; [reflexivity|]. by intros; split. Qed.

Lemma evolves_trans own w1 w2 w3 : evolve own w1 w2 → evolve own w2 w3 → evolve own w1 w3.
Proof.
  intros (_ & Hg1 & Hs1) (Hi & Hg2 & Hs2). split; [done|]. split; [by etrans|].
  intros task Ht. eapply spares_trans; eauto.
Qed.

Lemma evolves_weaken (own own' : nat → Prop) w w' :
  (∀ task, own' task → own task) → evolve own w w' → evolve own' w w'.
Proof. intros H (? & ? & Hs). split; [done|]. split; auto. Qed.

#[export] Instance world_rely_preorder task : PreOrder (rely task).
Proof.
  split; [intros w Hi; by apply evolves_refl|].
  intros w1 w2 w3 H1 H2 Hi. destruct (H1 Hi) as [Hi2 ?]. eapply evolves_trans; [by apply H1|by apply H2].
Qed.

Lemma fits_grows w w' d : grows w w' → fits w d → fits w' d.
Proof.
  intros Hg [(c & Hc & ?) Hp]. split.
  - exists c. split; [|done]. eapply lookup_weaken; [done|apply Hg].
  - intros uri Huri. destruct (Hp uri Huri) as (r & Hr & ?). exists r. split; [|done].
    eapply lookup_weaken; [done|apply Hg].
Qed.

Lemma issued_soundly_grows w w' x : grows w w' → issued_soundly ts w x → issued_soundly ts w' x.
Proof.
  intros Hg (h & p & t & ? & ? & ? & ? & ?). exists h, p, t.
  split_and!; try done; (eapply lookup_weaken; [done|apply Hg]).
Qed.

(** A step that issues nothing keeps the invariant, its new facts given. *)
Lemma inv_step w w' :
  inv w → grows w w' → w'.(aw_issued) = w.(aw_issued) →
  decision_history t0 now0 w'.(aw_log) w'.(aw_now) w'.(aw_tables) →
  (∀ d, d ∈ w'.(aw_log) → d ∈ w.(aw_log) ∨ fits w d) →
  (∀ h p, w'.(aw_published) !! h = Some p → w.(aw_published) !! h = Some p ∨
     (∃ d, d ∈ w.(aw_log) ∧ code_of d h p) ∧ is_Some (w.(aw_drawn) !! h)) →
  (∀ h p, w'.(aw_codes) !! h = Some (CodePending p) →
     w.(aw_codes) !! h = Some (CodePending p) ∧ w'.(aw_begun) !! h = w.(aw_begun) !! h ∨
     w'.(aw_published) !! h = Some p ∧ w'.(aw_begun) !! h = None) →
  (∀ h, is_Some (w'.(aw_begun) !! h) →
     is_Some (w.(aw_begun) !! h) ∨ is_Some (w.(aw_published) !! h)) →
  inv w'.
Proof.
  intros Hi Hg Hx Hh Hf Hp Hc Hb. split.
  - done.
  - intros d Hd. eapply fits_grows; [done|]. destruct (Hf d Hd); [by eapply inv_fits|done].
  - intros h p Hhp.
    assert ((∃ d, d ∈ w.(aw_log) ∧ code_of d h p) ∧ is_Some (w.(aw_drawn) !! h))
      as [(d & ? & ?) [i ?]] by (destruct (Hp h p Hhp); [by eapply inv_published|done]).
    split; [|exists i; eapply lookup_weaken; [done|apply Hg]].
    exists d. split; [by apply Hg|done].
  - intros h p Hhp. destruct (Hc h p Hhp) as [[Hold ->]|]; [|done].
    destruct (inv_pending _ _ _ _ Hi h p Hold). split; [|done]. eapply lookup_weaken; [done|apply Hg].
  - intros h task Hh'. destruct (Hb h (mk_is_Some _ _ Hh')) as [[i Hi']|[p Hp']].
    + destruct (inv_begun _ _ _ _ Hi h i Hi') as [p ?]. exists p. eapply lookup_weaken; [done|apply Hg].
    + exists p. eapply lookup_weaken; [done|apply Hg].
  - intros x. rewrite Hx. intros Hin. eapply issued_soundly_grows; [done|]. by eapply inv_issued.
  - rewrite Hx. by eapply inv_once.
Qed.

(** ... and what it publishes is another task's to publish. *)
Lemma evolves_step own w w' :
  inv w' → grows w w' → w'.(aw_issued) = w.(aw_issued) →
  (∀ h i, w.(aw_drawn) !! h = Some i → own i → w'.(aw_published) !! h = w.(aw_published) !! h) →
  evolve own w w'.
Proof.
  intros Hi Hg Hx Hp. split; [done|]. split; [done|]. intros task Ht. split; [by eauto|]. by rewrite Hx.
Qed.

(** ** Effects *)

(** Codes that expire or change state without becoming pending. *)
Lemma codes_evolve w codes :
  inv w → (∀ h p, codes !! h = Some (CodePending p) → w.(aw_codes) !! h = Some (CodePending p)) →
  evolve anyone w (with_codes codes w).
Proof.
  intros Hi Hc. assert (grows w (with_codes codes w)) by (split; done).
  apply evolves_step; [|done..]. eapply inv_step; try done; simpl; eauto using inv_history.
Qed.

Lemma set_code_pending w h p q state :
  (state = Some (CodePending p) → w.(aw_codes) !! h = Some (CodePending p)) →
  set_code h state w.(aw_codes) !! q = Some (CodePending p) →
  w.(aw_codes) !! q = Some (CodePending p).
Proof.
  intros H. unfold set_code. destruct (decide (h = q)) as [<-|Hne].
  - by rewrite lookup_partial_alter_eq.
  - by rewrite lookup_partial_alter_ne.
Qed.

Lemma background_evolve w w' : inv w → background w w' → evolve anyone w w'.
Proof.
  intros Hi Hb. destruct Hb as [op now Hop Ht|codes Hsub|id c Hf|uri r Hf].
  - assert (recorded op (aw_tables w) (perform_decision op (aw_tables w)) = []) as Hr
      by (destruct op; [by edestruct Hop|done..]).
    apply evolves_step; [|by split|done..]. eapply inv_step; try done; simpl; eauto.
    rewrite <-(app_nil_r (aw_log w)), <-Hr. eapply decision_history_snoc; [apply Hi|done].
  - apply codes_evolve; [done|]. intros q p Hq. by eapply lookup_weaken.
  - assert (grows w (put_prepared (<[id := c]> (aw_consents w)) (aw_pushed w) w))
      by (split; try done; by apply insert_subseteq).
    apply evolves_step; [|done..]. eapply inv_step; try done; simpl; eauto using inv_history.
  - assert (grows w (put_prepared (aw_consents w) (<[uri := r]> (aw_pushed w)) w))
      by (split; try done; by apply insert_subseteq).
    apply evolves_step; [|done..]. eapply inv_step; try done; simpl; eauto using inv_history.
Qed.

Lemma backgrounds_evolve w w' : inv w → rtc background w w' → evolve anyone w w'.
Proof.
  intros Hi Hb. induction Hb as [w|w1 w2 w3 H1 _ IH]; [by apply evolves_refl|].
  pose proof (background_evolve _ _ Hi H1) as H12. eapply evolves_trans; [done|]. apply IH, H12.
Qed.

Lemma commit_evolve input w x w' :
  inv w → fits w input → commit_effect input w x w' →
  evolve anyone w w' ∧ (x = Ok DecisionCommitted → input ∈ w'.(aw_log)).
Proof.
  intros Hi Hf (tenant & c & lost & clocks & now & Ht & Hx & ->). split.
  - apply evolves_step; [|split; try done; set_solver|done..].
    eapply inv_step; [done|split; try done; set_solver|done| | |simpl; by auto..].
    + eapply (decision_history_snoc _ _ _ _ _ (OpDecide tenant c lost clocks input)); [apply Hi|done].
    + intros d [?|Hd]%elem_of_app; [by left|]. right. simpl in Hd. case_match; set_solver.
  - intros ->. simpl. destruct (commit_decision_repository _ _ _ _ _ _) as [r t'] eqn:Hc. simpl in *.
    apply commit_repository_cases in Hc as [[_ ?]|(_ & _ & client & (_ & _ & _ & He & _ & ->) & _)]; [done|].
    simpl in *. rewrite He, lookup_insert_eq. simpl. set_solver.
Qed.

Lemma draw_evolve task h w :
  inv w → w.(aw_drawn) !! h = None →
  evolve anyone w (draw_code task h w) ∧ w.(aw_published) !! h = None.
Proof.
  intros Hi Hf. assert (grows w (draw_code task h w)) by (split; try done; by apply insert_subseteq).
  split.
  - apply evolves_step; [|done..]. eapply inv_step; try done; simpl; eauto using inv_history.
  - apply eq_None_not_Some. intros [p Hp]. destruct (inv_published _ _ _ _ Hi h p Hp) as [_ [i ?]].
    congruence.
Qed.

(** The task that drew a code stores it once, after its decision is recorded. *)
Lemma store_evolve task h p d w :
  inv w → w.(aw_drawn) !! h = Some task → w.(aw_published) !! h = None →
  d ∈ w.(aw_log) → code_of d h p →
  evolve (fun other => other ≠ task) w (store_code h (CodePending p) w).
Proof.
  intros Hi Hd Hp Hlog Hof.
  assert (grows w (store_code h (CodePending p) w)) by (split; try done; by apply insert_subseteq).
  apply evolves_step; [|done..|].
  - eapply inv_step; try done; [by apply Hi|by auto|..|by auto]; simpl.
    + intros q r. rewrite lookup_insert_Some. intros [[<- <-]|[_ ?]]; [right|by left]. eauto.
    + intros q r. rewrite lookup_insert_Some. intros [[<- [= <-]]|[_ ?]]; [right|by left].
      rewrite lookup_insert_eq. split; [done|]. apply eq_None_not_Some. intros [i Hb].
      destruct (inv_begun _ _ _ _ Hi h i Hb). congruence.
  - intros q i Hq Hi'. simpl. apply lookup_insert_ne. congruence.
Qed.

(** A granted consumption is of a pending code that none has begun. *)
Definition may_issue (task : nat) (h : string) (payload : CodePayload) (w : AuthorizationWorld) : Prop :=
  w.(aw_published) !! h = Some payload ∧ w.(aw_begun) !! h = Some task ∧
  ∀ x, x ∈ w.(aw_issued) → is_code x ≠ Some h.

Lemma may_issue_evolves task h p w w' : evolve (eq task) w w' → may_issue task h p w → may_issue task h p w'.
Proof.
  intros (_ & Hg & Hs) (Hp & Hb & Hx). split_and!.
  - eapply lookup_weaken; [done|apply Hg].
  - eapply lookup_weaken; [done|apply Hg].
  - intros x Hin Hc. eapply Hx; [|done]. by eapply Hs.
Qed.

Lemma begin_evolve task h now w x w' :
  inv w → red_effect task _ (BeginCode h now) w x w' →
  evolve anyone w w' ∧ ∀ p, x = Ok (BeginConsuming p) → may_issue task h p w'.
Proof.
  intros Hi [at_ Hs]. revert Hs. destruct (begin_code _ _) as [reply state] eqn:Hb.
  assert (∀ p, state ≠ Some (CodePending p) ∨ state = w.(aw_codes) !! h) as Hst.
  { intros p. unfold begin_code in Hb. repeat case_match; simplify_eq; eauto. }
  assert (evolve anyone w (with_codes (set_code h state (aw_codes w)) w)) as He.
  { apply codes_evolve; [done|]. intros q p. apply set_code_pending. intros ->.
    destruct (Hst p); congruence. }
  intros [[-> ->]|[[e ->] [-> | ->]]]; [|by split; [apply evolves_refl|]|done].
  destruct reply as [p|s| | | |]; [|by split; [|done]..].
  assert (w.(aw_codes) !! h = Some (CodePending p)) as Hpend.
  { unfold begin_code in Hb. by repeat case_match; simplify_eq. }
  destruct (inv_pending _ _ _ _ Hi h p Hpend) as [Hp Hnb].
  assert (state = Some (CodeConsuming p at_)) as -> by (rewrite Hpend in Hb; by simplify_eq/=).
  assert (grows w (grant_begin task h (BeginConsuming p)
    (with_codes (set_code h (Some (CodeConsuming p at_)) (aw_codes w)) w))) as Hg
    by (split; try done; by apply insert_subseteq).
  split.
  - apply evolves_step; [|done..]. eapply inv_step; try done; [by apply Hi|by auto..| |]; simpl.
    + intros q r Hq. left. destruct (decide (h = q)) as [<-|Hne].
      { unfold set_code in Hq. by rewrite lookup_partial_alter_eq in Hq. }
      rewrite lookup_insert_ne by done. split; [|done]. by rewrite <-Hq; unfold set_code; rewrite lookup_partial_alter_ne.
    + intros q. destruct (decide (h = q)) as [<-|Hne]; [by eauto|]. rewrite lookup_insert_ne; auto.
  - intros p' [= <-]. split_and!; simpl; [done|by rewrite lookup_insert_eq|].
    intros y Hy Hc. destruct (inv_issued _ _ _ _ Hi y Hy) as (h' & _ & _ & Hc' & _ & Hbeg & _). congruence.
Qed.

Lemma mark_evolve task h at_ error ttl w x w' :
  inv w → red_effect task _ (MarkCode h (CodeFailed at_ error) ttl) w x w' → evolve anyone w w'.
Proof.
  intros Hi. simpl. destruct (mark_code _ _) as [reply state] eqn:Hb.
  assert (evolve anyone w (with_codes (set_code h state (aw_codes w)) w)) as He.
  { apply codes_evolve; [done|]. intros q p. apply set_code_pending. intros ->.
    unfold mark_code in Hb. by repeat case_match; simplify_eq. }
  intros [[-> ->]|[[e ->] [-> | ->]]]; [done|by apply evolves_refl|done].
Qed.

(** The task that began a code issues for it once. *)
Lemma issue_evolve task t h p mode issue w x w' :
  inv w → may_issue task h p w → ts !! task = Some t →
  issue.(ti_authorization_code_hash) = Some h →
  redeems t h p {| is_task := task; is_mode := mode; is_issue := issue |} →
  red_effect task _ (IssueTokenResponse mode issue) w x w' →
  evolve (fun other => other ≠ task) w w'.
Proof.
  intros Hi (Hp & Hb & Hx) Ht Hh Hr (codes & -> & Hc).
  set (y := {| is_task := task; is_mode := mode; is_issue := issue |}).
  assert (grows w (issue_code y codes w)) as Hg by (split; done).
  destruct (codes_evolve w codes Hi) as (Hi' & _).
  { intros q r Hq. destruct (Hc q) as [<-|[_ Hn]]; [done|]. by destruct (Hn r). }
  split; [|split; [done|]].
  - destruct Hi' as [? ? ? ? ? Hs Ho]. split; try done; simpl in *.
    + intros z [Hz|Hz]%elem_of_app; [by apply Hs|]. apply list_elem_of_singleton in Hz as ->.
      by exists h, p, t.
    + rewrite fmap_app, NoDup_app. split_and!; [done| |apply NoDup_singleton].
      intros c (z & -> & Hz)%list_elem_of_fmap Heq%list_elem_of_singleton.
      eapply (Hx z); [done|]. rewrite Heq. done.
  - intros other Hne. split; [done|]. simpl. intros q z Hq [?|Hz]%elem_of_app Hcz; [done|].
    apply list_elem_of_singleton in Hz as ->. change (is_code y) with (ti_authorization_code_hash issue) in Hcz.
    congruence.
Qed.

(** ** Rules *)

Section rules.
Context (task : nat).
Notation mine := (evolve (eq task)).
Notation wp_ E effect := (wp (after_background effect) (rely task) (guar task (E := E))).

Lemma wp_effect {E : Type → Type} (effect : ∀ X, E X → AuthorizationWorld → X → AuthorizationWorld → Prop)
    {A X} (e : E X) (k : X → prog E A) Q w :
  inv w →
  (∀ w1 x w2, mine w w1 → inv w1 → effect X e w1 x w2 →
     evolve (fun other => other ≠ task) w1 w2 ∧ wp_ E effect (k x) Q w2) →
  wp_ E effect (bind (call e) k) Q w.
Proof.
  intros Hi H. apply wp_call. intros w' x w2 Hr (w1 & Hb & Hs).
  pose proof (Hr Hi) as H'. pose proof (backgrounds_evolve w' w1 ltac:(apply H') Hb) as H1.
  destruct (H w1 x w2) as [Hev Hk]; [|by apply H1|done|].
  - eapply evolves_trans; [done|]. by eapply evolves_weaken; [|done].
  - split; [|done]. intros _. eapply evolves_trans; [|done]. by eapply evolves_weaken; [|done].
Qed.

(** An effect that leaves to this task, too, what is its own. *)
Lemma wp_calm {E : Type → Type} (effect : ∀ X, E X → AuthorizationWorld → X → AuthorizationWorld → Prop)
    {A X} (e : E X) (k : X → prog E A) Q w :
  inv w →
  (∀ w1 x w2, mine w w1 → inv w1 → effect X e w1 x w2 →
     evolve anyone w1 w2 ∧ (mine w w2 → inv w2 → wp_ E effect (k x) Q w2)) →
  wp_ E effect (bind (call e) k) Q w.
Proof.
  intros Hi H. apply wp_effect; [done|]. intros w1 x w2 Hm Hi1 Hs.
  destruct (H w1 x w2 Hm Hi1 Hs) as [Hev Hk]. split; [by eapply evolves_weaken; [|done]|].
  apply Hk; [|apply Hev]. eapply evolves_trans; [done|]. by eapply evolves_weaken; [|done].
Qed.

Lemma wp_pure {E : Type → Type} (effect : ∀ X, E X → AuthorizationWorld → X → AuthorizationWorld → Prop)
    {A} (a : A) (Q : A → AuthorizationWorld → Prop) w :
  inv w → (∀ w', mine w w' → inv w' → Q a w') → wp_ E effect (Ret a) Q w.
Proof. intros Hi H. apply wp_ret. intros w' Hr. pose proof (Hr Hi) as Hm. apply H; [done|apply Hm]. Qed.

(** The effects that only read. *)
Definition dec_reads X (e : decE X) : Prop :=
  match e with
  | CommitDecision _ | StoreAuthorizationCode _ _ _ | RandomUrlsafeToken => False
  | _ => True
  end.

Definition red_reads X (e : redE X) : Prop :=
  match e with BeginCode _ _ | MarkCode _ _ _ | IssueTokenResponse _ _ => False | _ => True end.

Lemma dec_reads_same X (e : decE X) w x w' : dec_reads X e → dec_effect task X e w x w' → w' = w.
Proof. destruct e; simpl; intros Hr Hs; destruct_and?; done. Qed.

Lemma red_reads_same X (e : redE X) w x w' : red_reads X e → red_effect task X e w x w' → w' = w.
Proof. destruct e; simpl; intros Hr Hs; destruct_and?; done. Qed.

Lemma wp_dec_read {A X} (e : decE X) (k : X → prog decE A) Q w :
  dec_reads X e → inv w →
  (∀ x w', mine w w' → inv w' → dec_effect task X e w' x w' → wp_ decE (dec_effect task) (k x) Q w') →
  wp_ decE (dec_effect task) (bind (call e) k) Q w.
Proof.
  intros He Hi H. apply wp_calm; [done|]. intros w1 x w2 Hm Hi1 Hs.
  pose proof (dec_reads_same _ _ _ _ _ He Hs) as ->. split; [by apply evolves_refl|]. auto.
Qed.

Lemma wp_red_read {A X} (e : redE X) (k : X → prog redE A) Q w :
  red_reads X e → inv w →
  (∀ x w', mine w w' → inv w' → red_effect task X e w' x w' → wp_ redE (red_effect task) (k x) Q w') →
  wp_ redE (red_effect task) (bind (call e) k) Q w.
Proof.
  intros He Hi H. apply wp_calm; [done|]. intros w1 x w2 Hm Hi1 Hs.
  pose proof (red_reads_same _ _ _ _ _ He Hs) as ->. split; [by apply evolves_refl|]. auto.
Qed.

(** ** Decisions *)

Notation wpd := (wp_ decE (dec_effect task)).

(** The task may still store the code it drew. *)
Definition to_store (h : string) (w : AuthorizationWorld) : Prop :=
  w.(aw_drawn) !! h = Some task ∧ w.(aw_published) !! h = None.

Lemma to_store_mine h w w' : mine w w' → to_store h w → to_store h w'.
Proof.
  intros (_ & Hg & Hs) [Hd Hp]. split; [eapply lookup_weaken; [done|apply Hg]|].
  destruct (Hs task eq_refl) as [Hs' _]. by rewrite Hs'.
Qed.

Lemma bind_code_spec input code input' :
  bind_code input code = Ok input' → input.(dc_decision) ≠ Deny →
  code_of input' code.(pc_hash) code.(pc_payload) ∧ ∀ w, fits w input → fits w input'.
Proof.
  unfold bind_code, insert_field. intros H Hk. case_match eqn:Hc; [done|]. boolify.
  destruct (code_payload_digest _) as [digest|] eqn:Hd; simpl in H; [|done].
  destruct (dc_audit_fields input) as [| | | | |m]; simpl in H; try done. simplify_eq. split.
  - unfold code_of. simpl. rewrite Hd, !object_get_map_insert. simpl.
    split_and!; auto with lia.
  - unfold fits, within. simpl. intros w [(c & ? & ?) Hp]. split; [exists c; auto with lia|].
    intros uri Huri. destruct (Hp uri Huri) as (r & ? & ?). exists r. auto with lia.
Qed.

Lemma wp_commit_decision input code w :
  inv w → fits w input → (∀ c, code = Some c → to_store c.(pc_hash) w) →
  wpd (commit_decision input code) (fun _ w' => inv w') w.
Proof.
  intros Hi Hf Hc. unfold commit_decision.
  destruct (negb _) eqn:Hk; [by apply wp_pure|].
  destruct (match code with Some code => bind_code input code | None => Ok input end)
    as [input'|e] eqn:Hb; [|by apply wp_pure].
  assert (fits w input' ∧ ∀ c, code = Some c → code_of input' c.(pc_hash) c.(pc_payload)) as [Hf' Hof].
  { destruct code as [c|]; simplify_eq; [|by split]. apply bind_code_spec in Hb as [? Hfit].
    - split; [by apply Hfit|]. by intros c' [= <-].
    - intros Hd. by rewrite bool_decide_true in Hk. }
  apply wp_calm; [done|]. intros w1 x w2 Hm1 Hi1 Hs.
  destruct (commit_evolve input' w1 x w2 Hi1) as [Hev Hin]; [by eapply fits_grows; [apply Hm1|]|done|].
  split; [done|]. intros Hm2 Hi2. destruct x as [outcome|e]; [|by apply wp_pure].
  destruct code as [c|]; [|by apply wp_pure]. destruct (bool_decide (outcome = _)) eqn:Ho; [|by apply wp_pure].
  apply bool_decide_eq_true in Ho. apply wp_effect; [done|]. intros w3 x w4 Hm3 Hi3 Hs3.
  assert (evolve (fun other => other ≠ task) w3 w4) as He4.
  { destruct Hs3 as [-> |[-> _]]; [|by apply evolves_refl].
    destruct (to_store_mine c.(pc_hash) w w3) as [Hd Hp]; [by eapply evolves_trans|by apply Hc|].
    eapply (store_evolve _ _ _ input'); try done; [|by apply Hof].
    apply Hm3, Hin. by subst. }
  split; [done|]. destruct x as [[]|e]; apply wp_pure; try done; apply He4.
Qed.

(** What a preview found, still to be relied on. *)
Definition previewed (request_id : string) (preview : ConsentAdmissionPreview) (w : AuthorizationWorld) : Prop :=
  w.(aw_consents) !! request_id = Some preview.(pv_consent) ∧
  preview.(pv_valid_until) ≤ preview.(pv_consent).(co_expires_at) ≤ preview.(pv_retain_until) ∧
  ∀ uri, preview.(pv_consent).(co_pushed_request_uri) = Some uri →
    ∃ request, w.(aw_pushed) !! uri = Some request ∧
      preview.(pv_valid_until) ≤ request.(pu_expires_at) ≤ preview.(pv_retain_until).

Lemma decision_input_fits tenant_id payload request_id kind valid retain now event_id ip w :
  previewed request_id {| pv_consent := payload; pv_consent_version := ""; pv_pushed_request_version := None;
    pv_valid_until := valid; pv_retain_until := retain |} w →
  fits w (decision_input tenant_id payload request_id kind valid retain now event_id ip).
Proof. intros (Hc & Hr & Hp). split; [by exists payload|]. exact Hp. Qed.

Lemma previewed_grows id preview w w' : grows w w' → previewed id preview w → previewed id preview w'.
Proof.
  intros Hg (Hc & Hr & Hp). split_and!; [eapply lookup_weaken; [done|apply Hg]|lia..|].
  intros uri Huri. destruct (Hp uri Huri) as (r & Hr' & ?). exists r. split; [|done].
  eapply lookup_weaken; [done|apply Hg].
Qed.

Lemma wp_preview request_id user_id w :
  inv w →
  wpd (preview_user_decision request_id user_id)
    (fun r w' => inv w' ∧ ∀ preview, r = Ok preview → previewed request_id preview w') w.
Proof.
  intros Hi. unfold preview_user_decision. apply wp_dec_read; [done..|].
  intros x w1 Hm1 Hi1 [_ Hx].
  destruct x as [[snapshot|]|e]; [|by apply wp_pure|by destruct e; apply wp_pure].
  specialize (Hx _ eq_refl). case_match; [by apply wp_pure|].
  destruct (co_pushed_request_uri _) as [uri|] eqn:Huri; cbn [sn_payload].
  - unfold preview_pushed_request. apply wp_bind; [apply _|]. apply wp_dec_read; [done..|].
    intros y w2 Hm2 Hi2 [_ Hy].
    destruct y as [[pushed|]|e]; [|by apply wp_pure; [|intros; apply wp_pure]
      |by destruct e; apply wp_pure; [|intros; apply wp_pure| |intros; apply wp_pure
        | |intros; apply wp_pure| |intros; apply wp_pure]].
    specialize (Hy _ eq_refl). case_match; apply wp_pure; try done; intros w3 Hm3 Hi3; apply wp_pure; try done.
    intros w4 Hm4 Hi4. split; [done|]. intros preview [= <-].
    eapply (previewed_grows _ _ w2); [etrans; [apply Hm3|apply Hm4]|]. split_and!; simpl; try lia.
    + eapply lookup_weaken; [done|apply Hm2].
    + intros uri' [= <-]%(eq_trans (eq_sym Huri)). exists (sn_payload pushed). split; [done|lia].
  - apply wp_pure; [done|]. intros w2 Hm2 Hi2. split; [done|]. intros preview [= <-].
    eapply (previewed_grows _ _ w1); [apply Hm2|]. split_and!; simpl; try lia; [done|]. by rewrite Huri.
Qed.

(** A program that only reads. *)
Notation only_reads := (obeys dec_reads (fun _ _ _ => True) (fun _ => True)).

Lemma wp_dec_reads {A} (p : prog decE A) w :
  only_reads p → inv w → wpd p (fun _ w' => inv w') w.
Proof.
  revert w. induction p as [a|X e k IH]; intros w Hp Hi; [by apply wp_pure|].
  destruct Hp as [He Hk]. apply (wp_dec_read e k); [done..|]. intros x w' _ Hi' _. by apply IH; [apply Hk|].
Qed.

Lemma discard_reads request_id preview : only_reads (discard_decision_material request_id preview).
Proof. unfold discard_decision_material. by case_match. Qed.

Lemma prepared_hash tenant_id payload code event_id now ttl prepared :
  prepare_authorization_code (approval_input tenant_id payload code event_id now ttl) = Some prepared →
  prepared.(pc_hash) = blake3_hex code.
Proof.
  unfold prepare_authorization_code. simpl. intros Hpc.
  apply bind_Some in Hpc as (d & _ & Hpc). by apply bind_Some in Hpc as (e & _ & [= <-]).
Qed.

Lemma wp_draw {A} (k : string → prog decE A) Q w :
  inv w →
  (∀ code w', mine w w' → inv w' → to_store (blake3_hex code) w' → wpd (k code) Q w') →
  wpd (bind (call RandomUrlsafeToken) k) Q w.
Proof.
  intros Hi H. apply wp_calm; [done|]. intros w1 code w2 Hm1 Hi1 [Hf ->].
  destruct (draw_evolve task (blake3_hex code) w1 Hi1 Hf) as [Hev Hnp]. split; [done|]. intros Hm2 Hi2.
  apply H; [done..|]. split; [apply lookup_insert_eq|done].
Qed.

Lemma wp_decide_previewed tenant_id ttl command preview w :
  inv w → previewed command.(cm_request_id) preview w →
  wpd (decide_previewed tenant_id ttl command preview) (fun _ w' => inv w') w.
Proof.
  intros Hi Hp. unfold decide_previewed.
  apply wp_dec_read; [done..|]. intros now w1 Hm1 Hi1 _.
  apply wp_dec_read; [done..|]. intros event_id w2 Hm2 Hi2 _.
  assert (previewed command.(cm_request_id) preview w2) as Hp2.
  { eapply previewed_grows; [|done]. etrans; [apply Hm1|apply Hm2]. }
  apply wp_bind; [apply _|]. eapply (wp_mono _ _ _ (fun code w3 => inv w3 ∧ grows w2 w3 ∧
    ∀ c, code = Some c → to_store (blake3_hex c) w3)).
  { destruct (cm_decision command); [|apply wp_pure; [done|]; intros w3 Hm3 Hi3; split_and!; try done; apply Hm3].
    apply wp_draw; [done|]. intros code w4 Hm4 Hi4 Hst.
    apply wp_pure; [done|]. intros w5 Hm5 Hi5. split_and!; [done|by etrans; [apply Hm4|apply Hm5]|].
    intros c [= <-]. by eapply to_store_mine. }
  intros code w3 (Hi3 & Hg3 & Hc).
  destruct (match code with None => _ | Some code => _ end) as [prepared|] eqn:Hprep; [|by apply wp_pure].
  apply wp_bind; [apply _|]. eapply wp_mono.
  { apply wp_commit_decision; [done| |].
    - apply decision_input_fits. eapply previewed_grows in Hp2; [|done]. exact Hp2.
    - intros c ->. destruct code as [code|]; [|done].
      destruct (prepare_authorization_code _) as [c'|] eqn:Hpc; simplify_eq/=.
      rewrite (prepared_hash _ _ _ _ _ _ _ Hpc). by apply Hc. }
  intros r w4 Hi4. apply wp_dec_reads; [|done]. destruct r as [[]|]; try done.
  apply obeys_bind. eapply obeys_mono; [apply discard_reads|]. intros [|] _; [|done].
  destruct code; [|done]. destruct (requests_openid _); [|done]. split; [done|]. by intros [[]|] _.
Qed.
Lemma wp_decide_inner tenant_id ttl command w :
  inv w → wpd (decide_inner tenant_id ttl command) (fun _ w' => inv w') w.
Proof.
  intros Hi. unfold decide_inner.
  apply wp_dec_read; [done..|]. intros now w1 _ Hi1 _.
  apply wp_dec_read; [done..|]. intros current w2 _ Hi2 _.
  destruct current as [[session| |]|]; [|by apply wp_pure..].
  apply wp_dec_read; [done..|]. intros ready w3 _ Hi3 _. destruct ready as [|]; [|by apply wp_pure].
  apply wp_bind; [apply _|]. eapply wp_mono; [by apply wp_preview|]. intros r w4 [Hi4 Hp].
  destruct r as [preview|e]; [|by destruct e; apply wp_dec_reads].
  case_match; [by apply wp_pure|]. by apply wp_decide_previewed; [|apply Hp].
Qed.

Lemma finish_silent_reads payload session_id version code :
  only_reads (finish_silent payload session_id version code).
Proof.
  unfold finish_silent. apply obeys_bind. apply obeys_mono with (fun _ => True).
  - by destruct (co_pushed_request_uri payload), version.
  - intros _ _. destruct (requests_openid _); [|done]. apply obeys_bind.
    apply obeys_mono with (fun _ => True); [by destruct session_id|]. by intros [[]|] _.
Qed.

Lemma silent_deadlines_previewed payload expires_at valid retain w :
  task_ready w (TaskSilent 0 "" None payload expires_at None) →
  silent_deadlines payload expires_at = Some (valid, retain) →
  previewed payload.(co_request_id) {| pv_consent := payload; pv_consent_version := "";
    pv_pushed_request_version := None; pv_valid_until := valid; pv_retain_until := retain |} w.
Proof.
  intros [Hc Hp]. unfold silent_deadlines, previewed. simpl.
  destruct (co_pushed_request_uri payload) as [uri|]; [|destruct expires_at; intros [= <- <-]; split_and!; done || lia].
  destruct (Hp uri eq_refl) as (request & Hr & ->). intros [= <- <-]. split_and!; [done|lia..|].
  intros uri' [= <-]. exists request. split; [done|lia].
Qed.

Lemma wp_silent tenant_id source_ip session_id payload expires_at version w :
  inv w → task_ready w (TaskSilent tenant_id source_ip session_id payload expires_at version) →
  wpd (issue_authorization_code_without_interaction tenant_id source_ip session_id payload expires_at
         version) (fun _ w' => inv w') w.
Proof.
  intros Hi Hr. unfold issue_authorization_code_without_interaction.
  destruct (co_authorization_code_ttl_seconds payload) as [ttl|]; [|by apply wp_pure].
  apply wp_dec_read; [done..|]. intros ready w1 Hm1 Hi1 _.
  destruct ready as [|]; [|by apply wp_pure].
  destruct (silent_deadlines payload expires_at) as [[valid retain]|] eqn:Hd; [|by apply wp_pure].
  eapply silent_deadlines_previewed in Hd; [|done].
  apply wp_dec_read; [done..|]. intros now w2 Hm2 Hi2 _.
  apply wp_dec_read; [done..|]. intros event_id w3 Hm3 Hi3 _.
  apply wp_draw; [done|]. intros code w4 Hm4 Hi4 Hst.
  destruct (prepare_authorization_code _) as [prepared|] eqn:Hpc; [|by apply wp_pure].
  apply wp_bind; [apply _|]. eapply wp_mono.
  { apply wp_commit_decision; [done| |].
    - apply decision_input_fits. eapply previewed_grows; [|exact Hd].
      etrans; [apply Hm1|]. etrans; [apply Hm2|]. etrans; [apply Hm3|apply Hm4].
    - intros c [= <-]. by rewrite (prepared_hash _ _ _ _ _ _ _ Hpc). }
  intros r w5 Hi5. apply wp_dec_reads; [|done]. destruct r as [[]|]; try done. apply finish_silent_reads.
Qed.
(** ** Exchanges *)

Notation wpr := (wp_ redE (red_effect task)).

(** What a reply says by itself. *)
Definition red_says X (e : redE X) : X → Prop :=
  match e with
  | ValidateDpop expected => fun x => ∀ jkt key, x = Ok jkt → expected = Some key → jkt = Some key
  | _ => fun _ => True
  end.

Lemma wp_red_reads {A} (Q : A → Prop) (p : prog redE A) w :
  obeys red_reads red_says Q p → inv w → wpr p (fun a w' => Q a ∧ mine w w' ∧ inv w') w.
Proof.
  revert w. induction p as [a|X e k IH]; intros w Hp Hi; [by apply wp_pure|].
  destruct Hp as [He Hk]. apply (wp_red_read e k); [done..|]. intros x w' Hm Hi' Hs.
  eapply wp_mono; [apply IH; [apply Hk|done]; by destruct e; simpl in Hs; destruct_and?|].
  intros a w2 (? & Hm2 & ?). split_and!; [done| |done]. by eapply evolves_trans.
Qed.

Lemma expired_reads payload : obeys red_reads red_says (fun _ => True) (expired payload).
Proof. by destruct payload. Qed.

Section exchange.
Context (config : TokenIssuanceConfig) (client : OAuthClient) (form : TokenForm) (facts : RedemptionFacts).
Context (Htask : ts !! task = Some (TaskRedeem config client form facts)).

(** The proofs that a request was found to carry. *)
Definition proven (expected_dpop_jkt expected_mtls dpop_jkt mtls : option string) : Prop :=
  (∀ key, expected_dpop_jkt = Some key → dpop_jkt = Some key) ∧
  (∀ key, expected_mtls = Some key → mtls = Some key ∧ facts.(rf_certificate_thumbprint) = Some key) ∧
  sender_permitted client dpop_jkt mtls.

Lemma sender_reads expected_dpop_jkt expected_mtls :
  obeys red_reads red_says
    (fun r => ∀ dpop_jkt mtls, r = Ok (dpop_jkt, mtls) → proven expected_dpop_jkt expected_mtls dpop_jkt mtls)
    (validate_token_sender_constraints facts client expected_dpop_jkt expected_mtls).
Proof.
  split; [done|]. intros [jkt|e] Hsays; simpl; [|done]. specialize (Hsays jkt).
  destruct expected_mtls as [expected|]; simpl.
  - destruct (rf_certificate_thumbprint facts) as [actual|] eqn:Hf; simpl; [|done].
    case_bool_decide as Heq; simpl; [|done]. destruct (apply_sender_constraint _ _ _) eqn:Ha;
      [|by repeat case_match]. intros ? ? [= <- <-]. unfold proven. rewrite Hf.
    assert (sender_permitted client jkt (Some actual)) by (apply sender_constraint_permits; rewrite Ha; eauto).
    naive_solver.
  - destruct (apply_sender_constraint _ _ _) eqn:Ha; [|by repeat case_match].
    intros ? ? [= <- <-]. unfold proven.
    pose proof (sender_constraint_permits client jkt _ (ex_intro _ _ Ha)). naive_solver.
Qed.

Lemma revoke_replay_reads code_identity legacy_key candidate holder :
  obeys red_reads red_says (fun _ => True)
    (revoke_replay client code_identity legacy_key candidate holder).
Proof.
  apply obeys_bind. apply obeys_mono with (fun _ => True).
  - split; [done|]. intros [[receipt|]|] _; [done| |done]. by destruct holder.
  - intros [[redemption|]|] _; try done. split; [done|]. by intros [] _.
Qed.

Lemma refuse_replay_reads code_identity legacy_key candidate holder :
  obeys red_reads red_says (fun _ => True)
    (refuse_replay client code_identity legacy_key candidate holder).
Proof. apply obeys_bind. eapply obeys_mono; [apply revoke_replay_reads|done]. Qed.

Lemma wp_mark_failed h error w :
  inv w → wpr (mark_failed_authorization_code config h error) (fun _ w' => inv w') w.
Proof.
  intros Hi. apply wp_red_read; [done..|]. intros now w1 _ Hi1 _.
  apply wp_calm; [done|]. intros w2 x w3 _ Hi2 Hs. split; [by eapply mark_evolve|]. by intros; apply wp_pure.
Qed.
(** What the audiences, the proofs and the holder of an exchange rest on. *)
Definition checked (payload : CodePayload) (audiences : list string) (dpop_jkt mtls : option string)
    (holder : option AuthorizationCodeHolderEvidence) : Prop :=
  payload.(cd_client_id) = client.(oc_client_id) ∧ pending_accepted config client form facts payload audiences ∧
  proven payload.(cd_dpop_jkt) payload.(cd_mtls_x5t_s256) dpop_jkt mtls ∧
  holder = holder_requirements (holder_facts client form facts (Some payload) dpop_jkt) mtls.

Lemma issue_reads payload subject audiences dpop_jkt mtls h :
  obeys red_reads red_says (fun issue => ∃ native_sso, issue =
    {| ti_user_id := Some payload.(cd_user_id); ti_subject := subject; ti_scopes := payload.(cd_scopes);
       ti_authorization_details := payload.(cd_authorization_details); ti_audiences := audiences;
       ti_nonce := payload.(cd_nonce); ti_auth_time := Some payload.(cd_auth_time);
       ti_amr := payload.(cd_amr); ti_oidc_sid := payload.(cd_oidc_sid); ti_acr := payload.(cd_acr);
       ti_userinfo_claim_requests := payload.(cd_userinfo_claim_requests);
       ti_id_token_claim_requests := payload.(cd_id_token_claim_requests);
       ti_include_refresh := true; ti_dpop_jkt := dpop_jkt;
       ti_refresh_token_dpop_jkt := refresh_token_dpop_binding client payload dpop_jkt;
       ti_mtls_x5t_s256 := mtls; ti_refresh_token_mtls_x5t_s256 := mtls;
       ti_refresh_token_client_attestation_jkt := facts.(rf_client_attestation_jkt);
       ti_refresh_grant_audiences := if bool_decide (payload.(cd_resource_indicators) = [])
         then None else Some payload.(cd_resource_indicators);
       ti_authorization_code_hash := Some h; ti_native_sso := native_sso |})
    (token_issue_from_authorization_code client facts payload subject audiences dpop_jkt mtls h).
Proof.
  apply obeys_bind. apply obeys_mono with (fun _ => True); [|intros n _; by exists n].
  destruct (native_sso_requested _); [|done]. by destruct (cd_oidc_sid payload).
Qed.

Lemma wp_redeem_consuming code h legacy_key candidate holder pending dpop_jkt mtls payload w :
  form.(tf_code) = Some code → h = blake3_hex code →
  inv w → may_issue task h payload w →
  (∀ audiences, pending = Some audiences → checked payload audiences dpop_jkt mtls holder) →
  wpr (redeem_consuming config client facts h (authorization_code_identity h) legacy_key candidate
         holder pending dpop_jkt mtls payload) (fun _ w' => inv w') w.
Proof.
  intros Hcode Hh Hi Hmay Hc. unfold redeem_consuming. apply wp_bind; [apply _|].
  eapply wp_mono; [apply wp_red_reads; [apply expired_reads|done]|]. intros late w1 (_ & Hm1 & Hi1).
  destruct late.
  { apply wp_bind; [apply _|]. eapply wp_mono; [apply wp_red_reads; [apply revoke_replay_reads|done]|].
    intros [r|e] w2 (_ & _ & Hi2); [|by apply wp_pure]. apply wp_bind; [apply _|].
    eapply wp_mono; [by apply wp_mark_failed|]. by intros; apply wp_pure. }
  destruct pending as [audiences|]; [|apply wp_bind; [apply _|];
    eapply wp_mono; [by apply wp_mark_failed|]; by intros; apply wp_pure].
  destruct (Hc _ eq_refl) as (Hcl & Hacc & (Hd & Hmt & Hs) & Hho).
  destruct (authorization_code_subject config payload client) as [subject|] eqn:Hsub; [|apply wp_bind; [apply _|];
    eapply wp_mono; [by apply wp_mark_failed|]; by intros; apply wp_pure].
  destruct holder as [holder|]; [|by apply wp_pure].
  apply wp_bind; [apply _|]. eapply wp_mono; [apply wp_red_reads; [apply issue_reads|done]|].
  intros issue w2 ([native_sso ->] & Hm2 & Hi2).
  apply (wp_effect (red_effect task) (IssueTokenResponse _ _) Ret); [done|].
  intros w3 x w4 Hm3 Hi3 Heff. assert (may_issue task h payload w3) as Hmay3.
  { eapply may_issue_evolves; [|done]. eapply evolves_trans; [done|]. by eapply evolves_trans. }
  assert (evolve (fun other => other ≠ task) w3 w4) as He4; [|by split; [|apply wp_pure; [apply He4|]]].
  eapply (issue_evolve task _ h payload _ _ _ _ _ Hi3 Hmay3 Htask); [| |exact Heff]; [done|].
  exists config, client, form, facts, code, holder. unfold accepted. simpl. by split_and!.
Qed.

Lemma wp_redeem_begin code h legacy_key candidate holder pending dpop_jkt mtls w :
  form.(tf_code) = Some code → h = blake3_hex code → inv w →
  (∀ audiences, pending = Some audiences → ∃ payload,
     w.(aw_published) !! h = Some payload ∧ checked payload audiences dpop_jkt mtls holder) →
  wpr (redeem_begin config client facts h (authorization_code_identity h) legacy_key candidate
         holder pending dpop_jkt mtls) (fun _ w' => inv w') w.
Proof.
  intros Hcode Hh Hi Hc. unfold redeem_begin.
  apply wp_red_read; [done..|]. intros now w1 Hm1 Hi1 _.
  apply wp_calm; [done|]. intros w2 x w3 Hm2 Hi2 Heff.
  destruct (begin_evolve _ _ _ _ _ _ Hi2 Heff) as [Hev Hbeg]. split; [done|]. intros Hm3 Hi3.
  assert (wpr (let* refusal := refuse_replay client (authorization_code_identity h)
    legacy_key candidate holder in Ret (Err (T := string) refusal)) (fun _ w' => inv w') w3) as Href.
  { apply wp_bind; [apply _|]. eapply wp_mono; [apply wp_red_reads; [apply refuse_replay_reads|done]|].
    intros r w4 (_ & _ & Hi4). by apply wp_pure. }
  destruct x as [[payload| |[]| | |]|e]; try (by apply wp_pure); try done.
  specialize (Hbeg _ eq_refl). eapply wp_redeem_consuming; [done..|].
  intros audiences Haud. destruct (Hc _ Haud) as (p' & Hp' & Hchk).
  destruct Hbeg as [Hp _]. eapply lookup_weaken in Hp'; [|etrans; [apply Hm1|apply Hm3]]. by simplify_eq.
Qed.
(** The payload a request was checked against is the stored one. *)
Definition expects (h : string) (expected : option CodePayload) (pending : option (list string))
    (w : AuthorizationWorld) : Prop :=
  ∀ audiences, pending = Some audiences → ∃ payload, expected = Some payload ∧
    w.(aw_published) !! h = Some payload ∧ payload.(cd_client_id) = client.(oc_client_id) ∧
    pending_accepted config client form facts payload audiences.

Lemma wp_redeem_validated code h expired_pending expected pending w :
  form.(tf_code) = Some code → h = blake3_hex code → inv w → expects h expected pending w →
  wpr (redeem_validated config client form facts h expired_pending expected pending)
    (fun _ w' => inv w') w.
Proof.
  intros Hcode Hh Hi Hex. unfold redeem_validated. apply wp_bind; [apply _|].
  eapply wp_mono; [apply wp_red_reads; [apply sender_reads|done]|]. intros sender w1 (Hs & Hm1 & Hi1).
  destruct sender as [[dpop_jkt mtls]|[]]; [|by apply wp_pure..]. specialize (Hs _ _ eq_refl).
  cbv zeta. case_match; [by apply wp_pure|].
  apply wp_red_read; [done..|]. intros asserted w2 Hm2 Hi2 _.
  destruct asserted as [|[]]; [|by apply wp_pure..]. apply wp_bind; [apply _|].
  eapply (wp_mono _ _ _ (fun _ w' => True ∧ mine w2 w' ∧ inv w')).
  { apply wp_red_reads; [|done]. destruct expired_pending; [done|apply expired_reads]. }
  intros late w3 (_ & Hm3 & Hi3). destruct late.
  - apply wp_bind; [apply _|]. eapply wp_mono; [apply wp_red_reads; [apply refuse_replay_reads|done]|].
    intros r w4 (_ & _ & Hi4). by apply wp_pure.
  - eapply wp_redeem_begin; [done..|]. intros audiences Haud.
    destruct (Hex _ Haud) as (payload & -> & Hp & Hcl & Hv). exists payload.
    split; [|by split_and!]. eapply lookup_weaken; [done|].
    etrans; [apply Hm1|]. etrans; [apply Hm2|apply Hm3].
Qed.

Lemma wp_load_pending h w :
  inv w →
  wpr (load_pending_authorization_code_payload h)
    (fun r w' => inv w' ∧ ∀ payload, r = Ok (Some payload) → w'.(aw_published) !! h = Some payload) w.
Proof.
  intros Hi. apply wp_red_read; [done..|]. intros x w1 _ Hi1 [_ Hx]. apply wp_pure; [done|].
  intros w2 Hm2 Hi2. split; [done|]. intros payload Hr.
  destruct x as [state|]; [|done]. specialize (Hx _ eq_refl).
  destruct state as [[]|]; simplify_eq. eapply lookup_weaken; [|apply Hm2].
  by eapply inv_pending.
Qed.

Lemma wp_exchange w :
  inv w → wpr (token_authorization_code config client form facts) (fun _ w' => inv w') w.
Proof.
  intros Hi. unfold token_authorization_code. destruct (tf_code form) as [code|] eqn:Hcode; [|by apply wp_pure].
  cbv zeta. apply wp_bind; [apply _|]. eapply wp_mono; [by apply wp_load_pending|].
  intros stored w1 (Hi1 & Hp). destruct stored as [stored|]; [|by apply wp_pure].
  destruct (is_some_and _ _) eqn:Hcl; [by apply wp_pure|]. apply wp_bind; [apply _|].
  eapply wp_mono; [apply wp_red_reads; [apply expired_reads|done]|]. intros late w2 (_ & Hm2 & Hi2).
  destruct (if late then None else stored) as [payload|] eqn:He;
    [|by eapply wp_redeem_validated].
  assert (stored = Some payload) as -> by by destruct late.
  apply wp_bind; [apply _|]. eapply wp_mono; [apply wp_red_reads; [by apply validate_pending_accepts|done]|].
  intros r w3 (Hv & Hm3 & Hi3). destruct r as [audiences|]; [|by apply wp_pure].
  eapply wp_redeem_validated; [done..|]. intros aud [= <-]. exists payload. simpl in Hcl. boolify.
  split_and!; [done| |done|by apply Hv]. eapply lookup_weaken; [by apply Hp|].
  etrans; [apply Hm2|apply Hm3].
Qed.
End exchange.
End rules.

(** ** The pool *)

Definition pool_good (c : list (prog (sumE decE redE) TaskResult) * AuthorizationWorld) : Prop :=
  pool_ok world_step rely (fun task => guar task) (fun _ _ _ => True) c.

Lemma authorization_tasks_good w :
  inv w → Forall (task_ready w) ts → pool_good (task_prog <$> ts, w).
Proof.
  intros Hi Hr task p Hp. cbn [fst snd] in *. apply list_lookup_fmap_Some in Hp as (t & -> & Ht).
  pose proof (Forall_lookup_1 _ _ _ _ Hr Ht) as Hready.
  destruct t; cbn [task_prog]; apply wp_translate; apply wp_bind; try apply _.
  - eapply wp_mono; [by apply wp_decide_inner|]. by intros; apply wp_ret.
  - eapply wp_mono; [by apply wp_silent|]. by intros; apply wp_ret.
  - eapply wp_mono; [by apply wp_exchange|]. by intros; apply wp_ret.
Qed.

Lemma authorization_pool_inv w c :
  inv w → Forall (task_ready w) ts → pool_steps world_step (task_prog <$> ts, w) c → inv c.2.
Proof.
  intros Hi Hr Hs. destruct (pool_steps_ok rely (fun task => guar task) (fun _ _ _ => True)
    world_rely_preorder ltac:(intros i j X e v x v' Hne Hg Hv; destruct (Hg Hv) as (? & ? & Hsp);
      split; [done|split; [done|]]; intros _ <-; by apply Hsp) _ _ (authorization_tasks_good w Hi Hr) Hs) as [_ Hrtc].
  simpl in Hrtc. clear Hs Hr. revert Hi. induction Hrtc as [v|v1 v2 v3 (i & X & e & x & Hg) _ IH]; [done|].
  intros Hv. apply IH, (Hg Hv).
Qed.
End facts.

(** ** Worlds reached from the start *)

(** Nothing has been decided, drawn, stored or issued. *)
Definition untouched (w : AuthorizationWorld) : Prop :=
  w.(aw_log) = [] ∧ w.(aw_codes) = ∅ ∧ w.(aw_drawn) = ∅ ∧ w.(aw_published) = ∅ ∧
  w.(aw_begun) = ∅ ∧ w.(aw_issued) = [].

Section outcomes.
Context {AC : AuthorizationCrates} {RC : RedemptionCrates} {DS : DecisionServer}.

Lemma same_request_sym a b : same_request a b → same_request b a.
Proof. intros [? [?|[? Heq]]]; split; auto. right. rewrite <-Heq. auto. Qed.

(** Decisions on one request are bounded by its deadline. *)
Lemma requests_overlap w a b :
  fits w a → fits w b → same_request a b → b.(dc_valid_until) ≤ a.(dc_retain_until).
Proof.
  intros [(ca & Hca & Ha) Hpa] [(cb & Hcb & Hb) Hpb] [_ [Heq|[[uri Huri] Heq]]]; unfold within in *.
  - rewrite Heq in Hca. simplify_eq. lia.
  - destruct (Hpa uri Huri) as (r & Hr & ?), (Hpb uri) as (r' & Hr' & ?); [congruence|].
    simplify_eq. lia.
Qed.

Lemma untouched_inv ts w : untouched w → world_inv ts w.(aw_tables) w.(aw_now) w.
Proof.
  intros (Hl & Hc & Hd & Hp & Hb & Hi).
  split; rewrite ?Hl, ?Hc, ?Hd, ?Hp, ?Hb, ?Hi; try (set_solver || constructor || done).
Qed.


Section reachable.
Context (ts : list AuthorizationTask) (t0 : DecisionTables) (now0 : DateTime) (w : AuthorizationWorld).
Context (Hinv : world_inv ts t0 now0 w).

Lemma inv_decided_once i j a b :
  (∀ s t, s ≤ t → timestamptz s ≤ timestamptz t) →
  w.(aw_log) !! i = Some a → w.(aw_log) !! j = Some b → same_request a b → i = j.
Proof.
  intros Hmono.
  assert (∀ i j a b, aw_log w !! i = Some a → aw_log w !! j = Some b → same_request a b → ¬ (i < j)%nat) as Hlt.
  { clear i j a b. intros i j a b Ha Hb Hsame Hij.
    destruct (history_fenced _ _ _ _ _ (inv_history _ _ _ _ Hinv)) as [_ Hf].
    specialize (Hf i j a b Ha Hb Hij Hsame).
    assert (dc_valid_until b ≤ dc_retain_until a) as Hle%Hmono; [|lia].
    eapply requests_overlap; [by eapply inv_fits, list_elem_of_lookup_2..|done]. }
  intros Ha Hb Hsame. destruct (Nat.lt_trichotomy i j) as [?|[?|?]]; [exfalso; by eapply (Hlt i j)|done|].
  exfalso. eapply (Hlt j i); [done..| |done]. by apply same_request_sym.
Qed.

Lemma inv_rests x :
  x ∈ w.(aw_issued) →
  ∃ t code_hash payload d,
    ts !! x.(is_task) = Some t ∧ is_code x = Some code_hash ∧ redeems t code_hash payload x ∧
    d ∈ w.(aw_log) ∧ code_of d code_hash payload.
Proof.
  intros Hx. destruct (inv_issued _ _ _ _ Hinv x Hx) as (h & p & t & Hc & Hp & _ & Ht & Hred).
  destruct (inv_published _ _ _ _ Hinv h p Hp) as [(d & Hd & Hof) _]. by exists t, h, p, d.
Qed.

Lemma inv_exchanged_once i j x y :
  w.(aw_issued) !! i = Some x → w.(aw_issued) !! j = Some y → is_code x = is_code y → i = j.
Proof.
  intros Hx Hy Hxy. eapply (NoDup_lookup (is_code <$> aw_issued w)); [by eapply inv_once|..];
    rewrite list_lookup_fmap, ?Hx, ?Hy; simpl; [done|congruence].
Qed.
End reachable.
End outcomes.
