(* ===== verification/AuthorizationProperties.v ===== *)
(** * Decided once, exchanged once

    The properties of every interleaving of decisions and exchanges, from a world
    in which nothing has happened yet, and an example that runs a race: a user
    approves and denies the same request, and the code is exchanged twice. *)
From stdpp Require Import base list strings gmap relations.
From S2P Require Import Prelude Chrono Postgres Effects Text Json ExampleCodec UriPolicy AuthorizationPolicy.
From S2P Require Import AuthorizationFlow PostgresDecisions PostgresDecisionsFacts TokenModel CodeRedemption.
From S2P Require Import CodeRedemptionFacts AuthorizationWorld AuthorizationFlowFacts.

Local Open Scope rust_scope.
Local Open Scope string_scope.
Local Open Scope list_scope.
Local Open Scope Z_scope.

Module authorization_race.
Definition hex64 (c : string) : string := String.concat "" (replicate 64 c).

Definition verifier : string := String.concat "" (replicate 43 "v").

(** The payload of the code that is drawn. *)
Definition payload : CodePayload :=
  {| cd_redemption_contract_version := 2; cd_code_id := "id"; cd_user_id := 2; cd_client_id := "client-1";
     cd_redirect_uri := "https://client.example/cb"; cd_redirect_uri_was_supplied := true;
     cd_scopes := ["profile"]; cd_resource_indicators := []; cd_authorization_details := JArray [];
     cd_nonce := None; cd_auth_time := 0; cd_amr := []; cd_oidc_sid := None; cd_acr := None;
     cd_userinfo_claim_requests := []; cd_id_token_claim_requests := []; cd_pkce := Some verifier;
     cd_dpop_jkt := None; cd_mtls_x5t_s256 := None; cd_expires_at := 60000000001 |}.

#[export] Instance crates : AuthorizationCrates := {
  blake3_hex s := hex64 (if decide (s = "code-1") then "a" else "b");
  value_to_string := print_value;
  code_payload_to_string p := if decide (p = payload) then Some "payload-1" else None;
  datetime_to_value t := JNumber (PosInt t);
  uuid_to_text _ := "id";
  url_parse_ok _ := true;
}.

#[export] Instance token_crates : RedemptionCrates := {
  sha256_base64url s := s;
  hmac_subject _ _ _ _ := "subject";
  url_host_str _ := None;
}.

#[export] Instance server : DecisionServer := {
  decision_constraints _ := None;
  timestamptz t := t;
  jsonb_timestamptz _ := JNull;
  jsonb_uuid _ := JNull;
  jsonb_text _ := "";
  jsonb_octets _ := 100;
}.

Definition consent : ConsentPayload :=
  {| co_request_id := "request-1"; co_user_id := 2; co_client_id := "client-1"; co_client_name := "Client";
     co_redirect_uri := "https://client.example/cb"; co_redirect_uri_was_supplied := true;
     co_scopes := ["profile"]; co_resource_indicators := []; co_authorization_details := JArray [];
     co_state := None; co_response_mode := None; co_nonce := None; co_auth_time := 0; co_amr := [];
     co_oidc_sid := None; co_acr := None; co_userinfo_claim_requests := [];
     co_id_token_claim_requests := []; co_pkce := Some verifier; co_dpop_jkt := None;
     co_mtls_x5t_s256 := None; co_pushed_request_uri := None; co_pushed_request_digest := None;
     co_signed_authorization_response_required := None; co_session_management_allowed := None;
     co_authorization_code_ttl_seconds := None; co_expires_at := 600000000000 |}.

Definition command (decision : UserAuthorizationDecision) : AuthorizationDecisionCommand :=
  {| cm_request_id := "request-1"; cm_decision := decision; cm_session_id := "session";
     cm_source_ip := "192.0.2.1" |}.

Definition config : TokenIssuanceConfig :=
  {| tc_issuer := "https://issuer.example"; tc_default_audience := "api"; tc_openid4vci_enabled := false;
     tc_openid4vci_credential_scopes := []; tc_pairwise_subject_secret := None;
     tc_auth_code_ttl_seconds := 60 |}.

Definition client : OAuthClient :=
  {| oc_id := 3; oc_tenant_id := 1; oc_client_id := "client-1"; oc_client_type := "public";
     oc_token_endpoint_auth_method := "none"; oc_require_dpop_bound_tokens := false;
     oc_require_mtls_bound_tokens := false; oc_allowed_audiences := ["api"];
     oc_subject_type := "public"; oc_sector_identifier_host := None |}.

Definition form : TokenForm :=
  {| tf_code := Some "code-1"; tf_redirect_uri := Some "https://client.example/cb";
     tf_code_verifier := Some verifier; tf_scope := None; tf_audiences := [] |}.

Definition facts : RedemptionFacts :=
  {| rf_certificate_thumbprint := None; rf_client_attestation_jkt := None; rf_permits_native_sso := false |}.

Definition tasks : list AuthorizationTask :=
  [TaskDecide 1 60 (command UserApprove); TaskDecide 1 60 (command UserDeny);
   TaskRedeem config client form facts; TaskRedeem config client form facts].

Definition start : AuthorizationWorld :=
  {| aw_tables := {| dt_clients := {[(1, "client-1") := {| dl_id := 3; dl_is_active := true |}]};
                     dt_users := {[(1, 2) := true]}; dt_grants := ∅; dt_events := ∅; dt_receipts := ∅ |};
     aw_now := 1; aw_log := []; aw_consents := {["request-1" := consent]}; aw_pushed := ∅;
     aw_codes := ∅; aw_drawn := ∅; aw_published := ∅; aw_begun := ∅; aw_issued := [] |}.

Definition reliable : Connection :=
  {| cn_available := true; cn_faults := []; cn_commit := None |}.

Definition clocks : DecisionClocks := {| dk_admitted := 1; dk_final := 1 |}.

Definition dec_handle (task : nat) X (e : decE X) (w : AuthorizationWorld) : option (X * AuthorizationWorld) :=
  match e with
  | CommitDecision input =>
      let op := OpDecide 1 reliable None clocks input in
      if decide (w.(aw_now) = 1) then
        Some ((commit_decision_repository 1 reliable None clocks input w.(aw_tables)).1,
          put_ledger (perform_decision op w.(aw_tables)) 1
            (w.(aw_log) ++ recorded op w.(aw_tables) (perform_decision op w.(aw_tables))) w)
      else None
  | FindGrant _ _ => Some (Ok None, w)
  | LoadConsent id =>
      Some (Ok ((fun c => {| sn_payload := c; sn_version := "v" |}) <$> w.(aw_consents) !! id), w)
  | LoadPar uri =>
      Some (Ok ((fun r => {| sn_payload := r; sn_version := "v" |}) <$> w.(aw_pushed) !! uri), w)
  | DiscardDecisionMaterial _ _ _ => Some (Ok Discarded, w)
  | CompareAndDeletePar _ _ => Some (Ok true, w)
  | StoreAuthorizationCode h state _ => Some (Ok tt, store_code h state w)
  | SessionCurrent _ _ => Some (Ok (SessionPresent {| ss_user_id := 2; ss_oidc_sid := "sid" |}), w)
  | SessionBindClient _ _ => Some (Ok true, w)
  | EnsureTransactionalReady => Some (Ok tt, w)
  | UtcNow => Some (1, w)
  | UuidNowV7 => Some (100 + Z.of_nat (length w.(aw_log)), w)
  | RandomUrlsafeToken =>
      if decide (w.(aw_drawn) !! blake3_hex "code-1" = None)
      then Some ("code-1", draw_code task (blake3_hex "code-1") w) else None
  | ResponseLocation _ _ _ _ => Some (Ok (DecisionRedirect "https://client.example/cb"), w)
  | ResponseRedirect _ => Some (Ok "https://client.example/cb", w)
  end.

Definition red_handle (task : nat) X (e : redE X) (w : AuthorizationWorld) : option (X * AuthorizationWorld) :=
  match e with
  | LoadCode h => Some (Ok (w.(aw_codes) !! h), w)
  | BeginCode h now =>
      let '(reply, state) := begin_code (w.(aw_codes) !! h) now in
      Some (Ok reply, grant_begin task h reply (with_codes (set_code h state w.(aw_codes)) w))
  | MarkCode h replacement _ =>
      let '(reply, state) := mark_code (w.(aw_codes) !! h) replacement in
      Some (Ok reply, with_codes (set_code h state w.(aw_codes)) w)
  | ReadRedemption _ _ _ => Some (Ok None, w)
  | RevokeIssuedTokens _ _ _ _ _ => Some (Ok tt, w)
  | ValidateDpop expected => Some (Ok expected, w)
  | ConsumeClientAssertion => Some (Ok tt, w)
  | RedeemNow => Some (1, w)
  | RedeemRandomToken => Some ("token", w)
  | IssueTokenResponse mode issue =>
      Some (Ok "tokens", issue_code {| is_task := task; is_mode := mode; is_issue := issue |} w.(aw_codes) w)
  end.

Definition handle (task : nat) X (e : sumE decE redE X) : AuthorizationWorld → option (X * AuthorizationWorld) :=
  match e with Left e => dec_handle task X e | Right e => red_handle task X e end.

(** Both decisions are previewed before either commits, and both exchanges are
    validated before either begins. *)
Definition schedule : list nat :=
  (replicate 4 0 ++ replicate 4 1 ++ replicate 7 0 ++ replicate 3 1
   ++ replicate 6 2 ++ replicate 6 3 ++ replicate 4 2 ++ replicate 4 3)%nat.

Definition race (l : list nat) := pool_play handle l (task_prog <$> tasks, start).

(** What the four requests are answered, and how much is recorded. *)
Definition answers (c : list (prog (sumE decE redE) TaskResult) * AuthorizationWorld) :=
  ((fun p => match p with Ret r => Some r | Vis _ _ => None end) <$> c.1,
   dc_decision <$> c.2.(aw_log), is_code <$> c.2.(aw_issued)).

Lemma race_answers :
  answers <$> race schedule = Some
    ([Some (Decided (Ok (DecisionRedirect "https://client.example/cb")));
      Some (Decided (Err ConsentInvalid)); Some (Redeemed (Ok "tokens"));
      Some (Redeemed (Err (TokenError 400 "invalid_grant")))],
     [Approve], [Some (hex64 "a")]).
Proof. vm_compute. reflexivity. Qed.

Lemma race_handle_step task X (e : sumE decE redE X) w x w' :
  handle task X e w = Some (x, w') → world_step task X e w x w'.
Proof.
  intros H. destruct e as [e|e]; exists w; (split; [apply rtc_refl|]).
  - destruct e; cbn [handle dec_handle dec_effect] in *; repeat case_match; simplify_eq; try done.
    + exists 1, reliable, None, clocks, 1. by split; [split; simpl; lia|].
    + split; [done|]. intros snapshot [= Hs]. apply fmap_Some in Hs as (c & Hc & ->). done.
    + split; [done|]. intros snapshot [= Hs]. apply fmap_Some in Hs as (c & Hc & ->). done.
    + by left.
  - destruct e; simpl in *; repeat case_match; simplify_eq; try done; auto.
    + split; [done|]. by intros ? [= ->].
    + eexists. rewrite H0. by left.
    + split; [done|]. intros ? ? [= ->]. done.
    + eexists. split; [reflexivity|]. by left.
Qed.
End authorization_race.

(** ** Properties *)

Section properties.
Context {AC : AuthorizationCrates} {RC : RedemptionCrates} {DS : DecisionServer}.

(** C1: an authorization request is decided once.  Whatever decisions and silent
    decisions run concurrently, failing, losing their replies and repeated, and
    however the ledger is exported and reclaimed meanwhile: of two positions of the
    log, no two hold decisions on the same request or the same pushed request. *)
Theorem authorization_decided_once
    (timestamptz_mono : ∀ a b, a ≤ b → timestamptz a ≤ timestamptz b) ts w c i j a b :
  untouched w → Forall (task_ready w) ts → pool_steps world_step (task_prog <$> ts, w) c →
  c.2.(aw_log) !! i = Some a → c.2.(aw_log) !! j = Some b → same_request a b → i = j.
Proof.
  intros Hu Hr Hs. pose proof (authorization_pool_inv ts _ _ w c (untouched_inv ts w Hu) Hr Hs). by eapply inv_decided_once.
Qed.

(** C2: tokens for a code rest on a recorded decision and on the checks of the
    exchange.  Every issuance was asked for by an exchange that presented the code,
    whose redirect URI, PKCE verifier, audiences and sender proofs are those of the
    stored payload; that payload is the one a recorded approval (or silent approval)
    was recorded with - its hash and digest in the audit record, for the same user,
    client, scopes, resources and authorization details. *)
Theorem issued_tokens_rest_on_decision ts w c x :
  untouched w → Forall (task_ready w) ts → pool_steps world_step (task_prog <$> ts, w) c →
  x ∈ c.2.(aw_issued) →
  ∃ t code_hash payload d,
    ts !! x.(is_task) = Some t ∧ is_code x = Some code_hash ∧ redeems t code_hash payload x ∧
    d ∈ c.2.(aw_log) ∧ code_of d code_hash payload.
Proof.
  intros Hu Hr Hs. pose proof (authorization_pool_inv ts _ _ w c (untouched_inv ts w Hu) Hr Hs). by eapply inv_rests.
Qed.

(** C3: a code is exchanged at most once: of two positions among the issuances, no
    two are for the same code, however many exchanges of it run concurrently. *)
Theorem authorization_code_exchanged_once ts w c i j x y :
  untouched w → Forall (task_ready w) ts → pool_steps world_step (task_prog <$> ts, w) c →
  c.2.(aw_issued) !! i = Some x → c.2.(aw_issued) !! j = Some y → is_code x = is_code y → i = j.
Proof.
  intros Hu Hr Hs. pose proof (authorization_pool_inv ts _ _ w c (untouched_inv ts w Hu) Hr Hs). by eapply inv_exchanged_once.
Qed.
End properties.

(** C8: an exchange issues and revokes on evidence only.  Whatever the ports answer:
    before tokens are issued the client's assertion was accepted, the code of the
    request was begun with the payload whose expiry the issuance carries, and a clock
    read after that was before the expiry; before the tokens of an earlier exchange
    are revoked, the assertion was accepted and a receipt of this code for this
    client was read whose holder's evidence the request matches, or an older receipt
    without evidence under the key made of the request's own parameters and proofs. *)
Theorem exchange_on_evidence {AC : AuthorizationCrates} {RC : RedemptionCrates}
    config client form facts a tr :
  sched traced eq (token_authorization_code config client form facts) [] a tr →
  justified_trace (exchange_evidence client form facts) tr.
Proof. eapply trace_justified, wpt_exchange. Qed.

Import authorization_race.

Lemma race_start : untouched start ∧ Forall (task_ready start) tasks.
Proof. split; [by split_and!|]. by repeat constructor. Qed.

Lemma authorization_decided_once_witness :
  ∃ c, race schedule = Some c ∧ dc_decision <$> c.2.(aw_log) = [Approve] ∧
    ∀ i j a b, c.2.(aw_log) !! i = Some a → c.2.(aw_log) !! j = Some b → same_request a b → i = j.
Proof.
  pose proof race_answers as H. destruct (race schedule) as [c|] eqn:Hc; [|discriminate H].
  exists c. split; [done|]. simpl in H. split; [by injection H|]. intros i j a b.
  apply (authorization_decided_once (DS := server) (fun _ _ H => H) tasks start c i j a b (proj1 race_start)
           (proj2 race_start)).
  eapply pool_play_steps; [apply race_handle_step|exact Hc].
Defined.

Lemma issued_tokens_rest_on_decision_witness :
  ∃ c, race schedule = Some c ∧ is_code <$> c.2.(aw_issued) = [Some (hex64 "a")] ∧
    ∀ x, x ∈ c.2.(aw_issued) → ∃ t code_hash payload d,
      tasks !! x.(is_task) = Some t ∧ is_code x = Some code_hash ∧ redeems t code_hash payload x ∧
      d ∈ c.2.(aw_log) ∧ code_of d code_hash payload.
Proof.
  pose proof race_answers as H. destruct (race schedule) as [c|] eqn:Hc; [|discriminate H].
  exists c. split; [done|]. simpl in H. split; [by injection H|]. intros x.
  apply (issued_tokens_rest_on_decision tasks start c x (proj1 race_start) (proj2 race_start)).
  eapply pool_play_steps; [apply race_handle_step|exact Hc].
Defined.

Lemma authorization_code_exchanged_once_witness :
  ∃ c, race schedule = Some c ∧ is_code <$> c.2.(aw_issued) = [Some (hex64 "a")] ∧
    ∀ i j x y, c.2.(aw_issued) !! i = Some x → c.2.(aw_issued) !! j = Some y → is_code x = is_code y → i = j.
Proof.
  pose proof race_answers as H. destruct (race schedule) as [c|] eqn:Hc; [|discriminate H].
  exists c. split; [done|]. simpl in H. split; [by injection H|]. intros i j x y.
  apply (authorization_code_exchanged_once tasks start c i j x y (proj1 race_start) (proj2 race_start)).
  eapply pool_play_steps; [apply race_handle_step|exact Hc].
Defined.

(** One exchange by itself, with the answers it is given. *)
Definition alone (X : Type) (e : redE X) (tr : list (event redE)) : option (X * list (event redE)) :=
  let answer {R} (x : R) (e : redE R) := Some (x, tr ++ [Event e x]) in
  match e in redE X return option (X * list (event redE)) with
  | LoadCode h => answer (Ok (Some (CodePending payload))) (LoadCode h)
  | BeginCode h now => answer (Ok (BeginConsuming payload)) (BeginCode h now)
  | ValidateDpop expected => answer (Ok expected) (ValidateDpop expected)
  | ConsumeClientAssertion => answer (Ok tt) ConsumeClientAssertion
  | RedeemNow => answer 1 RedeemNow
  | IssueTokenResponse mode issue => answer (Ok "tokens") (IssueTokenResponse mode issue)
  | _ => None
  end.

Lemma alone_step X (e : redE X) tr x tr' : alone X e tr = Some (x, tr') → traced X e tr x tr'.
Proof. destruct e; simpl; intros H; simplify_eq; done. Qed.

Lemma exchange_on_evidence_witness :
  ∃ tr, run alone (token_authorization_code config client form facts) [] = Some (Ok "tokens", tr) ∧
    length tr = 10%nat ∧ justified_trace (exchange_evidence client form facts) tr.
Proof.
  destruct (run alone (token_authorization_code config client form facts) []) as [[a tr]|] eqn:Hr;
    [|vm_compute in Hr; discriminate Hr].
  assert (a = Ok "tokens") as -> by (vm_compute in Hr; by injection Hr).
  exists tr. split; [done|]. split; [vm_compute in Hr; injection Hr as <-; done|].
  eapply exchange_on_evidence. eapply run_sched; [apply _|exact alone_step|exact Hr].
Defined.
