(* ===== verification/ValkeyAuthorization.v ===== *)
(** * The authorization store on Valkey

    [crates/state-store-valkey/src/authorization.rs] and its ports
    ([authorization_state.rs], [token_issuance.rs]): prepared requests, written once
    under their identifiers, and authorization codes, whose states move inside
    scripts.  serde_json and the server's [cjson] are parameters: a script reads the
    text of a code as a table and never its payload, which is a text inside it. *)
From stdpp Require Import base list strings pretty.
From S2P Require Import Prelude Chrono Text Json AuthorizationFlow TokenModel CodeRedemption.
From S2P Require Import Valkey ValkeyDevice Dpop ValkeyReplay.

Local Open Scope string_scope.
Local Open Scope rust_scope.
Local Open Scope Z_scope.

(** ** Data and keys *)

Inductive AuthorizationPreparationWrite := Stored | PreparationConflict.

Inductive CompareDelete := Deleted | MissingOrChanged.

Definition consent_key (request_id : string) : string := "oauth:consent:" +:+ request_id.

Definition authorization_code_hash_key (code_hash : string) : string := "oauth:auth_code:" +:+ code_hash.

Section keys.
Context (digest : string → string).

Definition par_key (request_uri : string) : string := "oauth:par:" +:+ digest request_uri.

Definition authorization_code_key (code : string) : string := authorization_code_hash_key (digest code).

Definition reauth_nonce_key (nonce : string) : string := "oauth:authorization:reauth:" +:+ digest nonce.
End keys.

(** ** Texts

    [json_from_str] is serde_json's tree of a text; the structs are read from their
    texts, a code's payload also from a tree; [rfc3339_millis] is
    [to_rfc3339_opts(Millis, true)]; [cjson_decode] gives a table, in which a key
    occurs once. *)
Class AuthorizationCodec := {
  json_from_str : string → option Value;
  payload_from_str : string → option CodePayload;
  payload_from_value : Value → option CodePayload;
  consent_to_string : ConsentPayload → option string;
  consent_from_str : string → option ConsentPayload;
  pushed_to_string : PushedAuthorizationRequest → option string;
  pushed_from_str : string → option PushedAuthorizationRequest;
  datetime_from_value : Value → option DateTime;
  rfc3339_millis : DateTime → string;
  cjson_decode : string → option Value;
  cjson_encode : Value → string;
}.

(** A member of a struct: a repeated one is an error, as a missing one is. *)
Definition member (v : Value) (key : string) : option Value :=
  match v with
  | JObject members => match field members key with Ok value => value | Err _ => None end
  | _ => None
  end.

Section wire.
Context {AC : AuthorizationCrates} {CX : AuthorizationCodec}.

(** [AuthorizationCodeWire] *)
Definition code_wire (state : AuthorizationCodeState) : option Value :=
  match state with
  | CodePending payload =>
      raw ← code_payload_to_string payload;
      Some (JObject [("status", JString "pending"); ("payload", JString raw)])
  | CodeConsuming payload consuming_at =>
      raw ← code_payload_to_string payload;
      Some (JObject [("status", JString "consuming"); ("payload", JString raw);
                     ("consuming_at", datetime_to_value consuming_at)])
  | CodeConsumed => Some (JObject [("status", JString "consumed")])
  | CodeFailed failed_at error =>
      Some (JObject [("status", JString "failed"); ("failed_at", datetime_to_value failed_at);
                     ("error", JString error)])
  end.

Definition code_to_string (state : AuthorizationCodeState) : option string :=
  value_to_string <$> code_wire state.

(** A state read from its tree, its payload by [payload]. *)
Definition read_code (payload : Value → option CodePayload) (v : Value) : option AuthorizationCodeState :=
  status ← member v "status" ≫= as_str;
  if decide (status = "pending") then CodePending <$> (member v "payload" ≫= payload)
  else if decide (status = "consuming") then
    p ← member v "payload" ≫= payload;
    at_ ← member v "consuming_at" ≫= datetime_from_value;
    Some (CodeConsuming p at_)
  else if decide (status = "consumed") then Some CodeConsumed
  else if decide (status = "failed") then
    at_ ← member v "failed_at" ≫= datetime_from_value;
    error ← member v "error" ≫= as_str;
    Some (CodeFailed at_ error)
  else None.

(** [opaque_payload::deserialize] *)
Definition opaque_payload (v : Value) : option CodePayload := as_str v ≫= payload_from_str.

(** [StoredCode], and [AuthorizationCodeState] by itself. *)
Definition code_from_str (raw : string) : option AuthorizationCodeState :=
  json_from_str raw ≫= read_code opaque_payload.

Definition domain_code_from_str (raw : string) : option AuthorizationCodeState :=
  json_from_str raw ≫= read_code payload_from_value.
End wire.

(** ** Scripts *)
Section scripts.
Context {K : Type} `{!Valkey K} {CX : AuthorizationCodec}.

Definition COMPARE_DELETE_SCRIPT (key expected : string) : script K string := fun k =>
  match vk_get k key with
  | None => (Ok "missing", k)
  | Some current =>
      if negb (bool_decide (current = expected)) then (Ok "changed", k)
      else (Ok "deleted", vk_del key k)
  end.

(** [discard]; the keys hold texts, so that neither command fails. *)
Definition discard (key expected : string) (k : K) : string * K :=
  match vk_get k key with
  | None => ("missing_or_changed", k)
  | Some current =>
      if negb (bool_decide (current = expected)) then ("missing_or_changed", k)
      else ("discarded", vk_del key k)
  end.

Definition DISCARD_DECISION_MATERIAL_SCRIPT (consent : string * string) (par : option (string * string))
    : script K string := fun k =>
  let '(reply, k) := discard consent.1 consent.2 k in
  if negb (bool_decide (reply = "discarded")) then (Ok ("consent_" +:+ reply), k)
  else match par with
  | None => (Ok "discarded", k)
  | Some par =>
      let '(reply, k) := discard par.1 par.2 k in
      if negb (bool_decide (reply = "discarded")) then (Ok ("par_" +:+ reply), k)
      else (Ok "discarded", k)
  end.

(** An assignment to a member of a table. *)
Definition lua_set (key : string) (value : Value) (table : Value) : Value :=
  match table with
  | JObject members => JObject ((key, value) :: filter (fun p => p.1 ≠ key) members)
  | v => v
  end.

Definition BEGIN_AUTHORIZATION_CODE_CONSUMPTION_SCRIPT (key argv1 : string) : script K string := fun k =>
  match vk_get k key with
  | None => (Ok "missing", k)
  | Some raw =>
      match cjson_decode raw ≫= (fun state => (fun status => (state, status)) <$> (value_get state "status" ≫= as_str)) with
      | None => (Ok "malformed", k)
      | Some (state, status) =>
          if decide (status = "pending") then
            match value_get state "payload" ≫= as_str with
            | None => (Ok "malformed", k)
            | Some payload =>
                let state := lua_set "consuming_at" (JString argv1)
                  (lua_set "status" (JString "consuming") state) in
                (Ok ("consuming|" +:+ payload), vk_set_keepttl key (cjson_encode state) k)
            end
          else if decide (status = "consuming") then (Ok "busy", k)
          else if decide (status = "consumed") then (Ok ("consumed|" +:+ raw), k)
          else if decide (status = "failed") then (Ok "failed", k)
          else (Ok "malformed", k)
      end
  end.

Definition MARK_AUTHORIZATION_CODE_SCRIPT (key argv1 : string) (argv2 : Z) : script K string := fun k =>
  match vk_get k key with
  | None => (Ok "missing", k)
  | Some raw =>
      match cjson_decode raw ≫= (fun state => value_get state "status" ≫= as_str) with
      | None => (Ok "malformed", k)
      | Some status =>
          if negb (bool_decide (status = "consuming")) then (Ok status, k)
          else then_set_ex key argv1 argv2 (reply "ok") k
      end
  end.
End scripts.

(** ** Replies *)
Section replies.
Context {CX : AuthorizationCodec}.

Definition parse_compare_delete (reply : string) : result CompareDelete ErrorKind :=
  if decide (reply = "deleted") then Ok Deleted
  else if decide (reply = "missing") then Ok MissingOrChanged
  else if decide (reply = "changed") then Ok MissingOrChanged
  else Err UnexpectedResult.

Definition parse_decision_material_discard_reply (reply : string)
    : result DecisionMaterialDiscardOutcome (DecisionMaterialDiscardError ErrorKind) :=
  if decide (reply = "discarded") then Ok Discarded
  else if decide (reply = "consent_missing_or_changed") then Ok ConsentMissingOrChanged
  else if decide (reply = "par_missing_or_changed") then Ok ParMissingOrChanged
  else if decide (reply = "consent_error") then Err (ConsentOrUnknown Protocol)
  else if decide (reply = "par_error") then Err (PushedRequest Protocol)
  else Err (ConsentOrUnknown UnexpectedResult).

Definition parse_authorization_code_begin_reply (reply : string)
    : result AuthorizationCodeBeginResult ErrorKind :=
  match strip "consuming|" reply with
  | Some raw => map_ok BeginConsuming (ok_or (payload_from_str raw) KindCorruptData)
  | None =>
      match strip "consumed|" reply with
      | Some raw => map_ok BeginConsumed (ok_or (domain_code_from_str raw) KindCorruptData)
      | None =>
          if decide (reply = "busy") then Ok BeginBusy
          else if decide (reply = "failed") then Ok BeginFailed
          else if decide (reply = "missing") then Ok BeginMissing
          else if decide (reply = "malformed") then Ok BeginMalformed
          else Err UnexpectedResult
      end
  end.

Definition parse_transition (reply : string) : result AuthorizationCodeTransitionResult ErrorKind :=
  if decide (reply = "ok") then Ok TransitionApplied
  else if decide (reply = "missing") then Ok TransitionMissing
  else if decide (reply = "malformed") then Ok TransitionMalformed
  else if decide (reply = "pending") then Ok TransitionPending
  else if decide (reply = "consuming") then Ok TransitionConsuming
  else if decide (reply = "consumed") then Ok TransitionConsumed
  else if decide (reply = "failed") then Ok TransitionFailed
  else Err UnexpectedResult.
End replies.

(** ** [AuthorizationStore] *)
Section store.
Context {K : Type} `{!Valkey K} {AC : AuthorizationCrates} {CX : AuthorizationCodec}.
Context (digest : string → string) (namespace : string).

(** [GETDEL] *)
Definition take_key (tr : transport) (key : string) (k : K) : result (option string) ErrorKind * K :=
  eval tr (fun k => (Ok (vk_get k (state_key namespace key)), vk_del (state_key namespace key) k)) k.

Definition delete_key (tr : transport) (key : string) (k : K) : result Z ErrorKind * K :=
  eval tr (fun k => (Ok (if vk_exists k (state_key namespace key) then 1 else 0),
                     vk_del (state_key namespace key) k)) k.

Definition store_preparation (tr : transport) (key : string) (raw : option string) (ttl_seconds : Z) (k : K)
    : result AuthorizationPreparationWrite ErrorKind * K :=
  match raw with
  | None => (Err Protocol, k)
  | Some raw =>
      let '(r, k') := set_ex_nx namespace tr key raw ttl_seconds k in
      (map_ok (fun stored : bool => if stored then Stored else PreparationConflict) r, k')
  end.

Definition store_json (tr : transport) (key : string) (raw : option string) (ttl_seconds : Z) (k : K)
    : result unit ErrorKind * K :=
  match raw with
  | None => (Err Protocol, k)
  | Some raw => set_ex namespace tr key raw ttl_seconds k
  end.

Definition load_json {T} (from_str : string → option T) (tr : transport) (key : string) (k : K)
    : result (option T) ErrorKind * K :=
  let '(r, k') := get namespace tr key k in
  (let? raw := r in
   match raw with
   | None => Ok None
   | Some raw => map_ok Some (ok_or (from_str raw) KindCorruptData)
   end, k').

Definition load_authorization_snapshot {T} (from_str : string → option T) (tr : transport) (key : string) (k : K)
    : result (option (AuthorizationStateSnapshot T)) ErrorKind * K :=
  let '(r, k') := get namespace tr key k in
  (let? raw := r in
   match raw with
   | None => Ok None
   | Some raw =>
       let? payload := ok_or (from_str raw) KindCorruptData in
       Ok (Some {| sn_payload := payload; sn_version := raw |})
   end, k').

Definition compare_delete (tr : transport) (key expected : string) (k : K) : result bool ErrorKind * K :=
  eval_parse (fun reply => map_ok (fun outcome => match outcome with Deleted => true | MissingOrChanged => false end)
                             (parse_compare_delete reply))
    tr (COMPARE_DELETE_SCRIPT (state_key namespace key) expected) k.

Definition store_consent (tr : transport) (request_id : string) (payload : ConsentPayload) (ttl_seconds : Z) (k : K)
    : result AuthorizationPreparationWrite ErrorKind * K :=
  store_preparation tr (consent_key request_id) (consent_to_string payload) ttl_seconds k.

Definition load_consent (tr : transport) (request_id : string) (k : K)
    : result (option ConsentPayload) ErrorKind * K :=
  load_json consent_from_str tr (consent_key request_id) k.

Definition load_consent_snapshot (tr : transport) (request_id : string) (k : K)
    : result (option (AuthorizationStateSnapshot ConsentPayload)) ErrorKind * K :=
  load_authorization_snapshot consent_from_str tr (consent_key request_id) k.

Definition compare_and_delete_consent (tr : transport) (request_id expected : string) (k : K)
    : result bool ErrorKind * K :=
  compare_delete tr (consent_key request_id) expected k.

Definition discard_decision_material_keys (tr : transport) (request_id expected_consent : string)
    (pushed_request : option (string * string)) (k : K)
    : result DecisionMaterialDiscardOutcome (DecisionMaterialDiscardError ErrorKind) * K :=
  let '(r, k') := eval tr (DISCARD_DECISION_MATERIAL_SCRIPT
    (state_key namespace (consent_key request_id), expected_consent)
    ((fun p => (state_key namespace (par_key digest p.1), p.2)) <$> pushed_request)) k in
  (let? reply := map_err ConsentOrUnknown r in parse_decision_material_discard_reply reply, k').

Definition delete_consent (tr : transport) (request_id : string) (k : K) : result Z ErrorKind * K :=
  delete_key tr (consent_key request_id) k.

Definition store_par (tr : transport) (request_uri : string) (payload : PushedAuthorizationRequest)
    (ttl_seconds : Z) (k : K) : result AuthorizationPreparationWrite ErrorKind * K :=
  store_preparation tr (par_key digest request_uri) (pushed_to_string payload) ttl_seconds k.

Definition load_par (tr : transport) (request_uri : string) (k : K)
    : result (option (AuthorizationStateSnapshot PushedAuthorizationRequest)) ErrorKind * K :=
  load_authorization_snapshot pushed_from_str tr (par_key digest request_uri) k.

Definition compare_and_delete_par (tr : transport) (request_uri expected : string) (k : K)
    : result bool ErrorKind * K :=
  compare_delete tr (par_key digest request_uri) expected k.

Definition store_authorization_code_hash (tr : transport) (code_hash : string) (state : AuthorizationCodeState)
    (ttl_seconds : Z) (k : K) : result unit ErrorKind * K :=
  store_json tr (authorization_code_hash_key code_hash) (code_to_string state) ttl_seconds k.

Definition load_authorization_code (tr : transport) (code : string) (k : K)
    : result (option AuthorizationCodeState) ErrorKind * K :=
  load_json code_from_str tr (authorization_code_key digest code) k.

Definition load_authorization_code_hash (tr : transport) (code_hash : string) (k : K)
    : result (option AuthorizationCodeState) ErrorKind * K :=
  load_json code_from_str tr (authorization_code_hash_key code_hash) k.

Definition delete_authorization_code_hash (tr : transport) (code_hash : string) (k : K)
    : result Z ErrorKind * K :=
  delete_key tr (authorization_code_hash_key code_hash) k.

Definition begin_authorization_code (tr : transport) (code_hash : string) (consuming_at : DateTime) (k : K)
    : result AuthorizationCodeBeginResult ErrorKind * K :=
  eval_parse parse_authorization_code_begin_reply tr
    (BEGIN_AUTHORIZATION_CODE_CONSUMPTION_SCRIPT
       (state_key namespace (authorization_code_hash_key code_hash)) (rfc3339_millis consuming_at)) k.

Definition mark_authorization_code (tr : transport) (code_hash : string)
    (replacement : AuthorizationCodeState) (ttl_seconds : Z) (k : K)
    : result AuthorizationCodeTransitionResult ErrorKind * K :=
  match code_to_string replacement with
  | None => (Err Protocol, k)
  | Some raw =>
      eval_parse parse_transition tr
        (MARK_AUTHORIZATION_CODE_SCRIPT
           (state_key namespace (authorization_code_hash_key code_hash)) raw ttl_seconds) k
  end.

Definition store_reauth_nonce (tr : transport) (nonce : string) (started_at ttl_seconds : Z) (k : K)
    : result unit ErrorKind * K :=
  set_ex namespace tr (reauth_nonce_key digest nonce) ("micros-v1:" +:+ pretty started_at) ttl_seconds k.

Definition take_reauth_nonce (tr : transport) (nonce : string) (k : K) : result (option Z) ErrorKind * K :=
  let '(r, k') := take_key tr (reauth_nonce_key digest nonce) k in
  (let? raw := r in
   match raw with
   | None => Ok None
   | Some raw =>
       let? text := ok_or (strip "micros-v1:" raw) KindCorruptData in
       let? started_at := ok_or (parse_i64 text) KindCorruptData in
       Ok (Some started_at)
   end, k').
End store.

(** ** The ports *)

Definition map_authorization_error (kind : ErrorKind) : AuthorizationPortError :=
  match kind with
  | Timeout | KindUnavailable => AuthorizationUnavailable
  | KindCorruptData => AuthorizationCorruptData
  | Protocol | UnexpectedResult => AuthorizationUnexpected
  end.

Definition map_token_error (kind : ErrorKind) : TokenPortError :=
  match kind with
  | Timeout | KindUnavailable => TokenUnavailable
  | KindCorruptData => TokenCorruptData
  | Protocol | UnexpectedResult => TokenUnexpected
  end.

Definition map_discard_error (error : DecisionMaterialDiscardError ErrorKind)
    : DecisionMaterialDiscardError AuthorizationPortError :=
  match error with
  | ConsentOrUnknown source => ConsentOrUnknown (map_authorization_error source)
  | PushedRequest source => PushedRequest (map_authorization_error source)
  end.

Definition map_preparation_write (outcome : AuthorizationPreparationWrite)
    : result unit AuthorizationPortError :=
  match outcome with Stored => Ok tt | PreparationConflict => Err AuthorizationConflict end.

Section ports.
Context {K : Type} `{!Valkey K} {AC : AuthorizationCrates} {CX : AuthorizationCodec}.
Context (digest : string → string) (namespace : string).

Definition port_store_consent (tr : transport) (request_id : string) (payload : ConsentPayload)
    (ttl_seconds : Z) (k : K) : result unit AuthorizationPortError * K :=
  let '(r, k') := store_consent namespace tr request_id payload ttl_seconds k in
  (let? outcome := map_err map_authorization_error r in map_preparation_write outcome, k').

Definition port_store_par (tr : transport) (request_uri : string) (payload : PushedAuthorizationRequest)
    (ttl_seconds : Z) (k : K) : result unit AuthorizationPortError * K :=
  let '(r, k') := store_par digest namespace tr request_uri payload ttl_seconds k in
  (let? outcome := map_err map_authorization_error r in map_preparation_write outcome, k').

(** [AuthorizationStateStorePort] for the effects of a decision that are the store's. *)
Definition authorization_handle (tr : transport) (X : Type) (e : decE X) (k : K) : option (X * K) :=
  let ported {R} (r : result R ErrorKind * K) := Some (map_err map_authorization_error r.1, r.2) in
  match e in decE X return option (X * K) with
  | LoadConsent request_id => ported (load_consent_snapshot namespace tr request_id k)
  | LoadPar request_uri => ported (load_par digest namespace tr request_uri k)
  | DiscardDecisionMaterial request_id expected_consent pushed_request =>
      let r := discard_decision_material_keys digest namespace tr request_id expected_consent
        pushed_request k in
      Some (map_err map_discard_error r.1, r.2)
  | CompareAndDeletePar request_uri expected =>
      ported (compare_and_delete_par digest namespace tr request_uri expected k)
  | StoreAuthorizationCode code_hash state ttl_seconds =>
      ported (store_authorization_code_hash namespace tr code_hash state ttl_seconds k)
  | _ => None
  end.

(** [TokenStateStorePort], likewise for an exchange. *)
Definition token_handle (tr : transport) (X : Type) (e : redE X) (k : K) : option (X * K) :=
  let ported {R} (r : result R ErrorKind * K) := Some (map_err map_token_error r.1, r.2) in
  match e in redE X return option (X * K) with
  | LoadCode code_hash => ported (load_authorization_code_hash namespace tr code_hash k)
  | BeginCode code_hash consuming_at =>
      ported (begin_authorization_code namespace tr code_hash consuming_at k)
  | MarkCode code_hash replacement ttl_seconds =>
      ported (mark_authorization_code namespace tr code_hash replacement ttl_seconds k)
  | _ => None
  end.

Definition port_delete_authorization_code (tr : transport) (code_hash : string) (k : K)
    : result unit TokenPortError * K :=
  let r := delete_authorization_code_hash namespace tr code_hash k in
  (map_err map_token_error (map_ok (fun _ => tt) r.1), r.2).
End ports.
