(* ===== verification/ValkeyAuthorizationFacts.v ===== *)
(** * The authorization store refines the shared state

    The Valkey store of [ValkeyAuthorization] under the programs of
    [AuthorizationWorld]: every interleaving over the server is one over the
    abstract codes and prepared requests, whatever the connection does.  The codec's
    laws say that serde_json and [cjson] read what either wrote. *)
From stdpp Require Import base list strings gmap relations.
From S2P Require Import Prelude Chrono Postgres Effects Text Json ExampleCodec AuthorizationPolicy.
From S2P Require Import AuthorizationFlow PostgresDecisions PostgresDecisionsFacts TokenModel CodeRedemption.
From S2P Require Import AuthorizationWorld AuthorizationFlowFacts AuthorizationProperties.
From S2P Require Import Valkey ValkeyDevice Dpop ValkeyReplay ValkeyAuthorization.

Local Open Scope rust_scope.
Local Open Scope string_scope.
Local Open Scope list_scope.
Local Open Scope Z_scope.

(** ** The codec *)

(** A table of texts, in which a key occurs once. *)
Definition flat (v : Value) : Prop :=
  (∃ members, v = JObject members ∧ NoDup members.*1) ∧
  ∀ key x, value_get v key = Some x → ∃ s, x = JString s.

Class AuthorizationCodecLaws `{AC : AuthorizationCrates} `{CX : AuthorizationCodec} := {
  payload_text p raw : code_payload_to_string p = Some raw → payload_from_str raw = Some p;
  consent_text c raw : consent_to_string c = Some raw → consent_from_str raw = Some c;
  pushed_text r raw : pushed_to_string r = Some raw → pushed_from_str raw = Some r;
  datetime_text t : datetime_from_value (datetime_to_value t) = Some t;
  millis_text t : is_Some (datetime_from_value (JString (rfc3339_millis t)));
  serde_reads state wire : code_wire state = Some wire →
    ∃ v, json_from_str (value_to_string wire) = Some v ∧ ∀ key, member v key = value_get wire key;
  lua_reads state wire : code_wire state = Some wire →
    ∃ members, cjson_decode (value_to_string wire) = Some (JObject members) ∧ NoDup members.*1 ∧
      ∀ key, value_get (JObject members) key = value_get wire key;
  serde_reads_lua v : flat v →
    ∃ v', json_from_str (cjson_encode v) = Some v' ∧ ∀ key, member v' key = value_get v key;
  lua_reads_lua v : flat v →
    ∃ v', cjson_decode (cjson_encode v) = Some v' ∧ ∀ key, value_get v' key = value_get v key;
}.

Section texts.
Context {AC : AuthorizationCrates} {CX : AuthorizationCodec}.

Definition status_text (state : AuthorizationCodeState) : string :=
  match state with
  | CodePending _ => "pending"
  | CodeConsuming _ _ => "consuming"
  | CodeConsumed => "consumed"
  | CodeFailed _ _ => "failed"
  end.

(** The texts of a code's state: what the store and what the scripts read. *)
Definition code_text (raw : string) (state : AuthorizationCodeState) : Prop :=
  code_from_str raw = Some state ∧
  (state = CodeConsumed → domain_code_from_str raw = Some CodeConsumed) ∧
  ∃ v, cjson_decode raw = Some v ∧ value_get v "status" = Some (JString (status_text state)) ∧
    ∀ p, state = CodePending p → flat v ∧
      ∃ text, value_get v "payload" = Some (JString text) ∧ payload_from_str text = Some p.

Context {CL : AuthorizationCodecLaws}.

(** A tree with the members of a state's wire form reads as the state. *)
Lemma read_wire state wire v :
  code_wire state = Some wire → (∀ key, member v key = value_get wire key) →
  read_code opaque_payload v = Some state ∧
  (state = CodeConsumed → read_code payload_from_value v = Some CodeConsumed).
Proof.
  intros Hw Hm. unfold read_code. rewrite !Hm.
  destruct state as [p|p at_| |at_ error]; simpl in Hw.
  - apply bind_Some in Hw as (raw & Hraw & [= <-]). simpl.
    unfold opaque_payload. simpl. by rewrite (payload_text _ _ Hraw).
  - apply bind_Some in Hw as (raw & Hraw & [= <-]). simpl.
    unfold opaque_payload. simpl. by rewrite (payload_text _ _ Hraw), datetime_text.
  - injection Hw as <-. done.
  - injection Hw as <-. simpl. by rewrite datetime_text.
Qed.

Lemma stored_text state raw : code_to_string state = Some raw → code_text raw state.
Proof.
  unfold code_to_string. intros (wire & Hw & ->)%fmap_Some.
  destruct (serde_reads _ _ Hw) as (v & Hv & Hm), (lua_reads _ _ Hw) as (members & Hl & Hnd & Hg).
  destruct (read_wire _ _ _ Hw Hm) as [Hr Hc]. unfold code_text, code_from_str, domain_code_from_str.
  rewrite Hv. split; [done|]. split; [done|]. exists (JObject members). rewrite Hl, Hg. split; [done|].
  destruct state as [p|p at_| |at_ error]; simpl in Hw;
    try (apply bind_Some in Hw as (raw & Hraw & Hw)); injection Hw as <-; (split; [done|]); try done.
  intros p' [= <-]. split.
  - split; [by eauto|]. intros key x. rewrite Hg. simpl.
    repeat case_decide; intros [= <-]; eauto.
  - exists raw. rewrite Hg. split; [done|]. by apply payload_text.
Qed.

Lemma lua_set_get key x members key' :
  value_get (lua_set key x (JObject members)) key' =
    if decide (key = key') then Some x else value_get (JObject members) key'.
Proof.
  simpl. case_decide as Hk; [done|]. induction members as [|[l y] members IH]; [done|].
  rewrite filter_cons. simpl. case_decide as Hl; simpl; [by case_decide|].
  subst l. by rewrite (decide_False (P := key = key')).
Qed.

Lemma lua_set_once key x (members : list (string * Value)) :
  NoDup members.*1 → NoDup ((key, x) :: filter (fun p => p.1 ≠ key) members).*1.
Proof.
  intros Hn. simpl. apply NoDup_cons. split.
  - intros ([k y] & -> & Hin)%list_elem_of_fmap. apply list_elem_of_filter in Hin as [Hne _]. done.
  - induction members as [|p members IH]; [done|]. simpl in Hn. apply NoDup_cons in Hn as [Hp Hn].
    rewrite filter_cons. case_decide; [|by apply IH]. simpl. apply NoDup_cons. split; [|by apply IH].
    intros (q & Hq & Hin)%list_elem_of_fmap. apply list_elem_of_filter in Hin as [_ Hin].
    apply Hp, list_elem_of_fmap. by exists q.
Qed.

(** The text that the consumption of a pending code leaves. *)
Lemma begun_text raw p now :
  code_text raw (CodePending p) →
  ∃ v text at_, cjson_decode raw = Some v ∧ value_get v "status" = Some (JString "pending") ∧
    value_get v "payload" = Some (JString text) ∧ payload_from_str text = Some p ∧
    code_text (cjson_encode (lua_set "consuming_at" (JString (rfc3339_millis now))
      (lua_set "status" (JString "consuming") v))) (CodeConsuming p at_).
Proof.
  intros (_ & _ & v & Hv & Hs & Hp). destruct (Hp p eq_refl) as (Hflat & text & Ht & Hpay).
  destruct (millis_text now) as [at_ Hat]. exists v, text, at_. split_and!; try done.
  destruct Hflat as [(members & -> & Hnd) Hstr].
  set (v2 := lua_set _ _ _).
  assert (∀ key, value_get v2 key = if decide ("consuming_at" = key) then Some (JString (rfc3339_millis now))
    else if decide ("status" = key) then Some (JString "consuming") else value_get (JObject members) key) as Hget.
  { intros key. unfold v2. unfold lua_set at 2. rewrite lua_set_get. case_decide; [done|].
    apply (lua_set_get "status"). }
  assert (flat v2) as Hflat2.
  { split; [eexists; split; [reflexivity|]; by apply lua_set_once, lua_set_once|]. intros key x. rewrite Hget. repeat case_decide; intros Hx; simplify_eq; eauto. }
  destruct (serde_reads_lua _ Hflat2) as (v3 & Hv3 & Hm3), (lua_reads_lua _ Hflat2) as (v4 & Hv4 & Hm4).
  split; [|split; [done|]].
  - unfold code_from_str. rewrite Hv3. simpl. unfold read_code. rewrite !Hm3, !Hget. simpl in *.
    rewrite Ht. unfold opaque_payload. simpl. rewrite Hpay. simpl. by rewrite Hat.
  - exists v4. rewrite Hm4, Hget. done.
Qed.
End texts.

(** ** Operations *)

(** A command that took effect, or did not and failed. *)
Lemma eval_cases {K R} tr (s : script K R) k :
  eval tr s k = (map_err from_fred (s k).1, (s k).2) ∨
  ∃ e, eval tr s k = (Err e, k) ∨ eval tr s k = (Err e, (s k).2).
Proof.
  unfold eval. destruct tr as [[e []]|]; [right; eauto..|]. left. by destruct (s k).
Qed.

Section operations.
Context {K : Type} {VK : Valkey K} {VL : ValkeyLaws K}.
Context {AC : AuthorizationCrates} {CX : AuthorizationCodec} {CL : AuthorizationCodecLaws}.
Context (digest : string → string) (namespace : string).
Notation code_key h := (state_key namespace (authorization_code_hash_key h)).
Notation request_key id := (state_key namespace (consent_key id)).
Notation pushed_key uri := (state_key namespace (par_key digest uri)).

Definition holds (k : K) (h : string) (state : option AuthorizationCodeState) : Prop :=
  match state with
  | None => vk_get k (code_key h) = None
  | Some state => ∃ raw, vk_get k (code_key h) = Some raw ∧ code_text raw state
  end.

Definition represents (k : K) (codes : gmap string AuthorizationCodeState) : Prop :=
  ∀ h, holds k h (codes !! h).

(** A prepared request that the server holds. *)
Definition prepared (k : K) (consents : gmap string ConsentPayload)
    (pushed : gmap string PushedAuthorizationRequest) : Prop :=
  (∀ id raw, vk_get k (request_key id) = Some raw →
     ∃ c, consents !! id = Some c ∧ consent_from_str raw = Some c) ∧
  (∀ uri raw, vk_get k (pushed_key uri) = Some raw →
     ∃ r, pushed !! uri = Some r ∧ pushed_from_str raw = Some r).

Lemma authorization_code_key_inj h h' : code_key h = code_key h' → h = h'.
Proof. unfold state_key, authorization_code_hash_key. intros H. by simplify_eq. Qed.

Lemma request_key_inj h h' : request_key h = request_key h' → h = h'.
Proof. unfold state_key, consent_key. intros H. by simplify_eq. Qed.

Lemma code_request_key h id : code_key h ≠ request_key id.
Proof. unfold state_key. intros H%(inj (String.append namespace)). discriminate H. Qed.

Lemma code_pushed_key h uri : code_key h ≠ pushed_key uri.
Proof. unfold state_key. intros H%(inj (String.append namespace)). discriminate H. Qed.

Lemma request_pushed_key id uri : request_key id ≠ pushed_key uri.
Proof. unfold state_key. intros H%(inj (String.append namespace)). discriminate H. Qed.

(** A write of one code's key. *)
Lemma represents_set k k' codes h state :
  represents k codes → holds k' h state →
  (∀ key, key ≠ code_key h → vk_get k' key = vk_get k key) →
  represents k' (set_code h state codes).
Proof.
  intros Hr Hh Hk q. unfold set_code. destruct (decide (h = q)) as [<-|Hne].
  - by rewrite lookup_partial_alter_eq.
  - rewrite lookup_partial_alter_ne by done. specialize (Hr q). unfold holds in *.
    rewrite Hk; [done|]. by intros ?%authorization_code_key_inj.
Qed.

Lemma set_code_same h (codes : gmap string AuthorizationCodeState) : set_code h (codes !! h) codes = codes.
Proof.
  unfold set_code. apply map_eq. intros q. destruct (decide (h = q)) as [<-|];
    by rewrite ?lookup_partial_alter_eq, ?lookup_partial_alter_ne.
Qed.

Lemma set_code_insert h state (codes : gmap string AuthorizationCodeState) :
  set_code h (Some state) codes = <[h := state]> codes.
Proof. done. Qed.

(** What a command on one code is to the abstract codes: the change with its reply,
    or an error with or without the change. *)
Definition code_op {A} (h : string) (codes : gmap string AuthorizationCodeState)
    (after : option AuthorizationCodeState) (reply : A) (op : result A ErrorKind * K) : Prop :=
  op.1 = Ok reply ∧ represents op.2 (set_code h after codes) ∨
  (∃ e, op.1 = Err e) ∧ (represents op.2 codes ∨ represents op.2 (set_code h after codes)).

(** The keys of no code are left alone by the operations on codes. *)
Definition only_code (h : string) (k k' : K) : Prop :=
  ∀ key, key ≠ code_key h → vk_get k' key = vk_get k key.

Lemma eval_parse_code_op {Q A} (parse : Q → result A ErrorKind) tr (s : script K Q) k h codes after reply :
  represents k codes →
  (represents (s k).2 (set_code h after codes) ∧ ∃ q, (s k).1 = Ok q ∧ parse q = Ok reply) ∨
  (represents (s k).2 codes ∧ ∃ e, (s k).1 = Err e) →
  code_op h codes after reply (eval_parse parse tr s k).
Proof.
  intros Hr Hs. unfold code_op, eval_parse.
  destruct (eval_cases tr s k) as [->|[e [-> | ->]]]; simpl; [|right; naive_solver..].
  destruct Hs as [(Hs & q & -> & Hp)|(Hs & e & ->)]; simpl; [left; by rewrite Hp|right; eauto].
Qed.

Lemma eval_parse_only {Q A} (parse : Q → result A ErrorKind) tr (s : script K Q) k h :
  only_code h k (s k).2 → only_code h k (eval_parse parse tr s k).2.
Proof. intros H. unfold eval_parse. by destruct (eval_cases tr s k) as [->|[e [-> | ->]]]. Qed.

Lemma begin_script_ok k codes h now :
  represents k codes →
  ∃ at_, let s := BEGIN_AUTHORIZATION_CODE_CONSUMPTION_SCRIPT (code_key h) (rfc3339_millis now) k in
    let '(reply, state) := begin_code (codes !! h) at_ in
    represents s.2 (set_code h state codes) ∧
    ∃ q, s.1 = Ok q ∧ parse_authorization_code_begin_reply q = Ok reply.
Proof.
  intros Hr. pose proof (Hr h) as Hh. unfold BEGIN_AUTHORIZATION_CODE_CONSUMPTION_SCRIPT.
  destruct (codes !! h) as [state|] eqn:Hc; simpl in Hh;
    [|exists 0; rewrite Hh; simpl; rewrite <-Hc, set_code_same; eauto].
  destruct Hh as (raw & Hraw & Htext). rewrite Hraw. destruct state as [p|p at0| |at0 error]; simpl.
  - destruct (begun_text raw p now Htext) as (v & text & at_ & Hv & Hs & Ht & Hp & Hnew).
    exists at_. rewrite Hv. simpl. rewrite Hs. simpl. rewrite Ht. simpl. split;
      [|exists ("consuming|" +:+ text); split; [done|]; unfold parse_authorization_code_begin_reply;
        rewrite strip_app; by rewrite Hp].
    eapply represents_set; [done| |].
    + simpl. eexists. split; [|exact Hnew]. rewrite vk_get_keepttl. by rewrite decide_True.
    + intros key Hne. rewrite vk_get_keepttl. by rewrite decide_False.
  - exists 0. destruct Htext as (_ & _ & v & Hv & Hs & _). rewrite Hv. simpl. rewrite Hs. simpl.
    rewrite <-Hc, set_code_same. eauto.
  - exists 0. destruct Htext as (_ & Hd & v & Hv & Hs & _). rewrite Hv. simpl. rewrite Hs. simpl.
    rewrite <-Hc, set_code_same. split; [done|]. exists ("consumed|" +:+ raw). split; [done|].
    unfold parse_authorization_code_begin_reply. change (strip "consuming|" _) with (@None string).
    rewrite strip_app. by rewrite Hd.
  - exists 0. destruct Htext as (_ & _ & v & Hv & Hs & _). rewrite Hv. simpl. rewrite Hs. simpl.
    rewrite <-Hc, set_code_same. eauto.
Qed.

Lemma begin_op tr k codes h now :
  represents k codes →
  ∃ at_, let '(reply, state) := begin_code (codes !! h) at_ in
    code_op h codes state reply (begin_authorization_code namespace tr h now k).
Proof.
  intros Hr. destruct (begin_script_ok k codes h now Hr) as [at_ Hs]. exists at_.
  destruct (begin_code _ _) as [reply state]. apply eval_parse_code_op; auto.
Qed.

Lemma begin_only tr k h now : only_code h k (begin_authorization_code namespace tr h now k).2.
Proof.
  apply eval_parse_only. intros key Hne. unfold BEGIN_AUTHORIZATION_CODE_CONSUMPTION_SCRIPT.
  repeat case_match; try done. simpl. rewrite vk_get_keepttl. by rewrite decide_False.
Qed.

(** A write with a lifetime. *)
Lemma set_ex_code k codes h state raw ttl k' :
  represents k codes → code_text raw state → vk_set_ex (code_key h) raw ttl k = Ok k' →
  represents k' (set_code h (Some state) codes).
Proof.
  intros Hr Ht Hk. eapply represents_set; [done| |].
  - exists raw. split; [|done]. rewrite (vk_get_set_ex _ _ _ _ _ _ Hk). by rewrite decide_True.
  - intros key Hne. rewrite (vk_get_set_ex _ _ _ _ _ _ Hk). by rewrite decide_False.
Qed.

Lemma mark_op tr k codes h replacement ttl :
  represents k codes →
  let '(reply, state) := mark_code (codes !! h) replacement in
  code_op h codes state reply (mark_authorization_code namespace tr h replacement ttl k).
Proof.
  intros Hr. destruct (mark_code _ _) as [reply state] eqn:Hm. unfold mark_authorization_code.
  destruct (code_to_string replacement) as [raw|] eqn:Hraw; [|right; simpl; eauto].
  apply stored_text in Hraw. apply eval_parse_code_op; [done|].
  pose proof (Hr h) as Hh. unfold MARK_AUTHORIZATION_CODE_SCRIPT.
  destruct (codes !! h) as [old|] eqn:Hc; simpl in Hh, Hm;
    [|injection Hm as <- <-; rewrite Hh; left; simpl; rewrite <-Hc, set_code_same; eauto].
  destruct Hh as (raw0 & Hraw0 & _ & _ & v & Hv & Hs & _). rewrite Hraw0, Hv. simpl. rewrite Hs.
  destruct old as [p|p at0| |at0 error]; simpl in Hm |- *; injection Hm as <- <-;
    try (left; simpl; rewrite <-Hc, set_code_same; by eauto).
  unfold then_set_ex. destruct (vk_set_ex _ _ _ _) as [k'|e] eqn:Hk; [left|right; simpl; eauto].
  split; [by eapply set_ex_code|]. simpl. eauto.
Qed.

Lemma set_ex_only k h raw ttl k' : vk_set_ex (code_key h) raw ttl k = Ok k' → only_code h k k'.
Proof. intros Hk key Hne. rewrite (vk_get_set_ex _ _ _ _ _ _ Hk). by rewrite decide_False. Qed.

Lemma mark_only tr k h replacement ttl :
  only_code h k (mark_authorization_code namespace tr h replacement ttl k).2.
Proof.
  unfold mark_authorization_code. destruct (code_to_string replacement); [|done].
  apply eval_parse_only. unfold MARK_AUTHORIZATION_CODE_SCRIPT.
  destruct (vk_get k _); [|done]. destruct (_ ≫= _); [|done]. case_match; [done|].
  unfold then_set_ex. destruct (vk_set_ex _ _ _ _) eqn:Hk; [|done]. by eapply set_ex_only.
Qed.

Lemma store_op tr k codes h state ttl :
  represents k codes → code_op h codes (Some state) tt (store_authorization_code_hash namespace tr h state ttl k).
Proof.
  intros Hr. unfold store_authorization_code_hash, store_json.
  destruct (code_to_string state) as [raw|] eqn:Hraw; [|right; simpl; eauto]. apply stored_text in Hraw.
  unfold set_ex, code_op. set (s := then_set_ex _ _ _ _).
  assert (represents (s k).2 (set_code h (Some state) codes) ∧ (s k).1 = Ok tt ∨
          represents (s k).2 codes ∧ ∃ e, (s k).1 = Err e) as Hs.
  { unfold s, then_set_ex. destruct (vk_set_ex _ _ _ _) as [k'|e] eqn:Hk; [left|right; simpl; eauto].
    split; [by eapply set_ex_code|done]. }
  destruct (eval_cases tr s k) as [->|[e [-> | ->]]]; simpl; [|right; naive_solver..].
  destruct Hs as [(Hs & ->)|(Hs & e & ->)]; simpl; [by left|right; eauto].
Qed.

Lemma store_only tr k h state ttl : only_code h k (store_authorization_code_hash namespace tr h state ttl k).2.
Proof.
  unfold store_authorization_code_hash, store_json. destruct (code_to_string state) as [raw|]; [|done].
  unfold set_ex. set (s := then_set_ex _ _ _ _).
  assert (only_code h k (s k).2).
  { unfold s, then_set_ex. destruct (vk_set_ex _ _ _ _) eqn:Hk; [|done]. by eapply set_ex_only. }
  by destruct (eval_cases tr s k) as [->|[e [-> | ->]]].
Qed.

Lemma load_op tr k codes h :
  represents k codes →
  (load_authorization_code_hash namespace tr h k).2 = k ∧
  ∀ state, (load_authorization_code_hash namespace tr h k).1 = Ok state → state = codes !! h.
Proof.
  intros Hr. specialize (Hr h). unfold load_authorization_code_hash, load_json, get.
  destruct (eval_cases tr (fun k : K => (Ok (vk_get k (code_key h)), k)) k) as [->|[e [-> | ->]]]; simpl; [|done..].
  split; [done|]. intros state. destruct (codes !! h) as [st|]; simpl in Hr; [|rewrite Hr; simpl; congruence].
  destruct Hr as (raw & -> & (Hf & _)). simpl. rewrite Hf. simpl. congruence.
Qed.

Lemma delete_op tr k codes h :
  represents k codes →
  let k' := (port_delete_authorization_code namespace tr h k).2 in
  (represents k' codes ∨ represents k' (set_code h None codes)) ∧ only_code h k k'.
Proof.
  intros Hr. assert (only_code h k (vk_del (code_key h) k)) as Ho
    by (intros key Hne; rewrite vk_get_del; by rewrite decide_False).
  assert (represents (vk_del (code_key h) k) (set_code h None codes)) as Hd.
  { eapply represents_set; [done| |exact Ho]. simpl. rewrite vk_get_del. by rewrite decide_True. }
  unfold port_delete_authorization_code, delete_authorization_code_hash, delete_key. cbv zeta.
  destruct (eval_cases tr (fun k0 : K => (Ok (if vk_exists k0 (code_key h) then 1 else 0),
    vk_del (code_key h) k0)) k) as [->|[e [-> | ->]]]; simpl; split; try done; by auto.
Qed.

(** ** Prepared requests *)

Context (digest_inj : ∀ a b, digest a = digest b → a = b).

Definition ours (key : string) : Prop :=
  ∃ x, key = code_key x ∨ key = request_key x ∨ key = pushed_key x.

(** Keys expire and are deleted; other clients use other keys. *)
Definition fades (k k' : K) : Prop :=
  ∀ key, ours key → vk_get k' key = vk_get k key ∨ vk_get k' key = None.

Lemma pushed_key_inj uri uri' : pushed_key uri = pushed_key uri' → uri = uri'.
Proof. unfold state_key, par_key. intros H. simplify_eq. by apply digest_inj. Qed.

Lemma fades_refl k : fades k k.
Proof. intros key _. by left. Qed.

Lemma fades_del k key : fades k (vk_del key k).
Proof. intros q _. rewrite vk_get_del. case_decide; auto. Qed.

Lemma fades_trans k1 k2 k3 : fades k1 k2 → fades k2 k3 → fades k1 k3.
Proof.
  intros H1 H2 key Ho. destruct (H2 key Ho) as [->|]; [by apply H1|by right].
Qed.

Lemma fades_codes k k' codes :
  represents k codes → fades k k' → ∃ codes', codes' ⊆ codes ∧ represents k' codes'.
Proof.
  intros Hr Hf. exists (filter (fun p => is_Some (vk_get k' (code_key p.1))) codes).
  split; [apply map_filter_subseteq|]. intros h. specialize (Hr h).
  destruct (Hf (code_key h)) as [Heq|Hn]; [by exists h; left|..].
  - destruct (codes !! h) as [state|] eqn:Hc; simpl in Hr.
    + destruct Hr as (raw & Hraw & Ht). rewrite (map_lookup_filter_Some_2 _ _ _ state); [|done|].
      * simpl. exists raw. by rewrite Heq.
      * simpl. rewrite Heq, Hraw. eauto.
    + rewrite map_lookup_filter_None_2; [simpl; congruence|by left].
  - rewrite map_lookup_filter_None_2; [done|]. right. intros x _. simpl. rewrite Hn. by intros [].
Qed.

Lemma fades_prepared k k' consents pushed :
  prepared k consents pushed → fades k k' → prepared k' consents pushed.
Proof.
  intros [Hc Hp] Hf. split.
  - intros id raw Hraw. apply Hc. destruct (Hf (request_key id)) as [<-|]; [by exists id; right; left|done|congruence].
  - intros uri raw Hraw. apply Hp. destruct (Hf (pushed_key uri)) as [<-|]; [by exists uri; right; right|done|congruence].
Qed.

Lemma only_code_prepared h k k' consents pushed :
  prepared k consents pushed → only_code h k k' → prepared k' consents pushed.
Proof.
  intros [Hc Hp] Ho. split.
  - intros id raw. rewrite Ho; [by apply Hc|]. intros Heq. by eapply code_request_key.
  - intros uri raw. rewrite Ho; [by apply Hp|]. intros Heq. by eapply code_pushed_key.
Qed.

Lemma set_ex_nx_result tr key raw ttl k :
  let k' := (set_ex_nx namespace tr key raw ttl k).2 in
  k' = k ∨ vk_set_ex (state_key namespace key) raw (Z.min ttl I64_MAX) k = Ok k'.
Proof.
  unfold set_ex_nx, eval_parse, SET_EX_NX. cbv zeta. set (s := fun k0 : K => _).
  assert ((s k).2 = k ∨ vk_set_ex (state_key namespace key) raw (Z.min ttl I64_MAX) k = Ok (s k).2) as Hs.
  { unfold s. destruct (vk_set_ex _ _ _ _) as [k1|] eqn:Hk; [|by left]. destruct (vk_exists _ _); auto. }
  destruct (eval_cases tr s k) as [->|[e [-> | ->]]]; simpl; auto.
Qed.

Lemma store_consent_prepared tr id consent ttl k consents pushed codes :
  consents !! id = None → prepared k consents pushed → represents k codes →
  let k' := (port_store_consent namespace tr id consent ttl k).2 in
  prepared k' (<[id := consent]> consents) pushed ∧ represents k' codes.
Proof.
  intros Hf Hp Hr. cbv zeta. set (k' := (port_store_consent namespace tr id consent ttl k).2).
  assert (k' = k ∨ ∃ raw ttl', consent_to_string consent = Some raw ∧
    vk_set_ex (request_key id) raw ttl' k = Ok k') as Hk.
  { unfold k', port_store_consent, store_consent, store_preparation.
    destruct (consent_to_string consent) as [raw|] eqn:Hraw; [|by left].
    pose proof (set_ex_nx_result tr (consent_key id) raw ttl k) as Hs. cbv zeta in Hs.
    destruct (set_ex_nx _ _ _ _ _ _) as [r1 k1]. simpl in *. destruct Hs as [->|Hs]; [by left|right; eauto]. }
  clearbody k'. destruct Hp as [Hc Hpu]. destruct Hk as [->|(raw & ttl' & Hraw & Hk)].
  { split; [|done]. split; [|done]. intros id' raw Hraw. destruct (Hc id' raw Hraw) as (c & Hc' & ?).
    exists c. split; [|done]. rewrite lookup_insert_ne; [done|]. congruence. }
  split; [split|].
  - intros id' raw'. rewrite (vk_get_set_ex _ _ _ _ _ _ Hk). case_decide as Heq.
    + apply request_key_inj in Heq as <-. intros [= <-]. exists consent. rewrite lookup_insert_eq.
      split; [done|]. by apply consent_text.
    + intros Hraw'. destruct (Hc id' raw' Hraw') as (c & Hc' & ?). exists c. split; [|done].
      rewrite lookup_insert_ne; [done|]. congruence.
  - intros uri raw'. rewrite (vk_get_set_ex _ _ _ _ _ _ Hk). rewrite decide_False; [apply Hpu|apply request_pushed_key].
  - intros h. specialize (Hr h). unfold holds in *. rewrite (vk_get_set_ex _ _ _ _ _ _ Hk).
    rewrite decide_False; [done|]. intros Heq. by eapply code_request_key.
Qed.

Lemma store_par_prepared tr uri request ttl k consents pushed codes :
  pushed !! uri = None → prepared k consents pushed → represents k codes →
  let k' := (port_store_par digest namespace tr uri request ttl k).2 in
  prepared k' consents (<[uri := request]> pushed) ∧ represents k' codes.
Proof.
  intros Hf Hp Hr. cbv zeta. set (k' := (port_store_par digest namespace tr uri request ttl k).2).
  assert (k' = k ∨ ∃ raw ttl', pushed_to_string request = Some raw ∧
    vk_set_ex (pushed_key uri) raw ttl' k = Ok k') as Hk.
  { unfold k', port_store_par, store_par, store_preparation.
    destruct (pushed_to_string request) as [raw|] eqn:Hraw; [|by left].
    pose proof (set_ex_nx_result tr (par_key digest uri) raw ttl k) as Hs. cbv zeta in Hs.
    destruct (set_ex_nx _ _ _ _ _ _) as [r1 k1]. simpl in *. destruct Hs as [->|Hs]; [by left|right; eauto]. }
  clearbody k'. destruct Hp as [Hc Hpu]. destruct Hk as [->|(raw & ttl' & Hraw & Hk)].
  { split; [|done]. split; [done|]. intros uri' raw Hraw. destruct (Hpu uri' raw Hraw) as (c & Hc' & ?).
    exists c. split; [|done]. rewrite lookup_insert_ne; [done|]. congruence. }
  split; [split|].
  - intros id raw'. rewrite (vk_get_set_ex _ _ _ _ _ _ Hk). rewrite decide_False; [apply Hc|].
    intros Heq. by eapply request_pushed_key.
  - intros uri' raw'. rewrite (vk_get_set_ex _ _ _ _ _ _ Hk). case_decide as Heq.
    + apply pushed_key_inj in Heq as <-. intros [= <-]. exists request. rewrite lookup_insert_eq.
      split; [done|]. by apply pushed_text.
    + intros Hraw'. destruct (Hpu uri' raw' Hraw') as (c & Hc' & ?). exists c. split; [|done].
      rewrite lookup_insert_ne; [done|]. congruence.
  - intros h. specialize (Hr h). unfold holds in *. rewrite (vk_get_set_ex _ _ _ _ _ _ Hk).
    rewrite decide_False; [done|]. intros Heq. by eapply code_pushed_key.
Qed.

(** A loaded request is the prepared one, and its version the stored text. *)
Lemma load_snapshot_op {T} (from_str : string → option T) tr key k :
  let r := load_authorization_snapshot namespace from_str tr key k in
  r.2 = k ∧ ∀ snapshot, r.1 = Ok (Some snapshot) →
    vk_get k (state_key namespace key) = Some snapshot.(sn_version) ∧
    from_str snapshot.(sn_version) = Some snapshot.(sn_payload).
Proof.
  unfold load_authorization_snapshot, get. cbv zeta.
  destruct (eval_cases tr (fun k : K => (Ok (vk_get k (state_key namespace key)), k)) k)
    as [->|[e [-> | ->]]]; simpl; [|done..].
  split; [done|]. intros snapshot. destruct (vk_get k _) as [raw|]; simpl; [|done].
  destruct (from_str raw) as [payload|] eqn:Hf; simpl; [|done]. by intros [= <-].
Qed.

Lemma discard_fades key expected k : fades k (discard key expected k).2.
Proof. unfold discard. repeat case_match; simpl; auto using fades_refl, fades_del. Qed.

Lemma discard_script_fades consent par k : fades k (DISCARD_DECISION_MATERIAL_SCRIPT consent par k).2.
Proof.
  unfold DISCARD_DECISION_MATERIAL_SCRIPT. pose proof (discard_fades consent.1 consent.2 k) as H1.
  destruct (discard consent.1 consent.2 k) as [r1 k1]. simpl in *. case_match; [done|].
  destruct par as [par|]; [|done]. pose proof (discard_fades par.1 par.2 k1) as H2.
  destruct (discard par.1 par.2 k1) as [r2 k2]. simpl in *. case_match; by eapply fades_trans.
Qed.

Lemma discard_op_fades tr request_id expected pushed_request k :
  fades k (discard_decision_material_keys digest namespace tr request_id expected pushed_request k).2.
Proof.
  unfold discard_decision_material_keys. set (s := DISCARD_DECISION_MATERIAL_SCRIPT _ _).
  pose proof (discard_script_fades (request_key request_id, expected)
    ((fun p => (state_key namespace (par_key digest p.1), p.2)) <$> pushed_request) k : fades k (s k).2) as Hs.
  destruct (eval_cases tr s k) as [->|[e [-> | ->]]]; simpl; auto using fades_refl.
Qed.

Lemma compare_delete_fades tr key expected k : fades k (compare_delete namespace tr key expected k).2.
Proof.
  unfold compare_delete, eval_parse. set (s := COMPARE_DELETE_SCRIPT _ _).
  assert (fades k (s k).2) as Hs.
  { unfold s, COMPARE_DELETE_SCRIPT. repeat case_match; simpl; auto using fades_refl, fades_del. }
  destruct (eval_cases tr s k) as [->|[e [-> | ->]]]; simpl; auto using fades_refl.
Qed.
End operations.

(** ** The programs over Valkey *)
Section flow.
Context {K : Type} {VK : Valkey K} {VL : ValkeyLaws K}.
Context {AC : AuthorizationCrates} {RC : RedemptionCrates} {DS : DecisionServer}.
Context {CX : AuthorizationCodec} {CL : AuthorizationCodecLaws}.
Context (digest : string → string) (namespace : string).
Context (digest_inj : ∀ a b, digest a = digest b → a = b).

(** The world without its codes, and the server that holds them. *)
Definition ValkeyWorld : Type := AuthorizationWorld * K.

Inductive valkey_background (v : ValkeyWorld) : ValkeyWorld → Prop :=
| valkey_background_ledger op now :
    (∀ tenant connection lost clocks input, op ≠ OpDecide tenant connection lost clocks input) →
    timed_decision v.1.(aw_now) now op →
    valkey_background v (put_ledger (perform_decision op v.1.(aw_tables)) now v.1.(aw_log) v.1, v.2)
| valkey_background_server k :
    fades digest namespace v.2 k → valkey_background v (v.1, k)
| valkey_background_consent tr request_id consent ttl :
    v.1.(aw_consents) !! request_id = None →
    valkey_background v (put_prepared (<[request_id := consent]> v.1.(aw_consents)) v.1.(aw_pushed) v.1,
      (port_store_consent namespace tr request_id consent ttl v.2).2)
| valkey_background_push tr request_uri request ttl :
    v.1.(aw_pushed) !! request_uri = None →
    valkey_background v (put_prepared v.1.(aw_consents) (<[request_uri := request]> v.1.(aw_pushed)) v.1,
      (port_store_par digest namespace tr request_uri request ttl v.2).2).

Definition valkey_dec_effect (task : nat) X (e : decE X) (v : ValkeyWorld) (x : X) (v' : ValkeyWorld) : Prop :=
  match e with
  | LoadConsent _ | LoadPar _ | DiscardDecisionMaterial _ _ _ | CompareAndDeletePar _ _
  | StoreAuthorizationCode _ _ _ =>
      v'.1 = v.1 ∧ ∃ tr, authorization_handle digest namespace tr X e v.2 = Some (x, v'.2)
  | _ => dec_effect task X e v.1 x v'.1 ∧ v'.2 = v.2
  end.

(** Issuing marks its own code failed, or deletes it. *)
Definition touches (h : string) (k k' : K) : Prop :=
  (∃ tr at_ error ttl, k' = (mark_authorization_code namespace tr h (CodeFailed at_ error) ttl k).2) ∨
  ∃ tr, k' = (port_delete_authorization_code namespace tr h k).2.

Definition valkey_red_effect (task : nat) X (e : redE X) (v : ValkeyWorld) (x : X) (v' : ValkeyWorld) : Prop :=
  match e with
  | LoadCode _ | BeginCode _ _ | MarkCode _ _ _ =>
      v'.1 = v.1 ∧ ∃ tr, token_handle namespace tr X e v.2 = Some (x, v'.2)
  | IssueTokenResponse mode issue =>
      v'.1 = issue_code {| is_task := task; is_mode := mode; is_issue := issue |} ∅ v.1 ∧
      match issue.(ti_authorization_code_hash) with
      | Some h => rtc (touches h) v.2 v'.2
      | None => v'.2 = v.2
      end
  | _ => red_effect task X e v.1 x v'.1 ∧ v'.2 = v.2
  end.

Definition valkey_step (task : nat) X (e : sumE decE redE X) (v : ValkeyWorld) (x : X) (v' : ValkeyWorld) : Prop :=
  ∃ v1, rtc valkey_background v v1 ∧
    match e with
    | Left e => valkey_dec_effect task X e v1 x v'
    | Right e => valkey_red_effect task X e v1 x v'
    end.

(** The world, its codes and its history of codes erased. *)
Definition erase (w : AuthorizationWorld) : AuthorizationWorld :=
  put_codes ∅ w.(aw_drawn) ∅ ∅ w.(aw_issued) w.

Definition refines (w : AuthorizationWorld) (v : ValkeyWorld) : Prop :=
  v.1 = erase w ∧ represents namespace v.2 w.(aw_codes) ∧
  prepared digest namespace v.2 w.(aw_consents) w.(aw_pushed).

Lemma authorization_background w v v' :
  refines w v → valkey_background v v' → ∃ w', background w w' ∧ refines w' v'.
Proof.
  destruct v as [s k]. intros (Hs & Hr & Hp) Hb. simpl in *. subst s.
  destruct Hb as [op now Hop Ht|k' Hf|tr id c ttl Hf|tr uri r ttl Hf]; simpl in *.
  - eexists. split; [by apply background_ledger|]. by split_and!.
  - destruct (fades_codes _ _ _ _ _ Hr Hf) as (codes & Hsub & Hr').
    exists (with_codes codes w). split; [by apply background_expiry|].
    split_and!; [done|done|by eapply fades_prepared].
  - destruct (store_consent_prepared digest namespace tr id c ttl k _ _ _ Hf Hp Hr).
    eexists. split; [by apply background_consent|]. by split_and!.
  - destruct (store_par_prepared digest namespace digest_inj tr uri r ttl k _ _ _ Hf Hp Hr).
    eexists. split; [by apply background_push|]. by split_and!.
Qed.

Lemma refines_backgrounds w v v' :
  refines w v → rtc valkey_background v v' → ∃ w', rtc background w w' ∧ refines w' v'.
Proof.
  intros Hr Hb. revert w Hr. induction Hb as [v|v1 v2 v3 H1 _ IH]; intros w Hr.
  { exists w. split; [apply rtc_refl|done]. }
  destruct (authorization_background _ _ _ Hr H1) as (w2 & Hb2 & Hr2).
  destruct (IH w2 Hr2) as (w3 & Hb3 & Hr3). exists w3. split; [by eapply rtc_l|done].
Qed.

(** The server fades: the codes that went expired before the effect. *)
Lemma refines_fades w s k k' :
  refines w (s, k) → fades digest namespace k k' → ∃ w', rtc background w w' ∧ refines w' (s, k').
Proof.
  intros Hr Hf. destruct (authorization_background w (s, k) (s, k') Hr) as (w' & Hb & Hr'); [by constructor|].
  exists w'. split; [by apply rtc_once|done].
Qed.

Lemma refines_dec task X (e : decE X) w v x v' :
  refines w v → valkey_dec_effect task X e v x v' →
  ∃ w1 w', rtc background w w1 ∧ dec_effect task X e w1 x w' ∧ refines w' v'.
Proof.
  intros Hr He. destruct v as [s k], v' as [s' k'].
  assert (refines w (s, k)) as (Hs & Hc & Hp) by done. simpl in Hs, Hc, Hp. subst s.
  destruct e; cbn [valkey_dec_effect dec_effect fst snd] in He;
    try (destruct He as [-> ->]; exists w, w; split; [apply rtc_refl|done]).
  - destruct He as [(tenant & c & lost & clocks & now & Ht & Hx & ->) ->].
    exists w. eexists. split; [apply rtc_refl|]. split;
      [exists tenant, c, lost, clocks, now; split; [done|split; [done|reflexivity]]|by split_and!].
  - destruct He as [-> [tr [= <- <-]]].
    destruct (load_snapshot_op namespace consent_from_str tr (consent_key request_id) k) as [Hk Hl].
    exists w, w. split; [apply rtc_refl|]. unfold load_consent_snapshot. rewrite Hk. split; [|done].
    split; [done|]. intros snapshot Hsn.
    destruct (load_authorization_snapshot _ _ _ _ _) as [[r|] k1]; simplify_eq/=.
    destruct (Hl _ eq_refl) as [Hg Hf]. destruct Hp as [Hp _]. destruct (Hp _ _ Hg) as (c & Hc' & ?).
    congruence.
  - destruct He as [-> [tr [= <- <-]]].
    destruct (load_snapshot_op namespace pushed_from_str tr (par_key digest request_uri) k) as [Hk Hl].
    exists w, w. split; [apply rtc_refl|]. unfold load_par. rewrite Hk. split; [|done].
    split; [done|]. intros snapshot Hsn.
    destruct (load_authorization_snapshot _ _ _ _ _) as [[r|] k1]; simplify_eq/=.
    destruct (Hl _ eq_refl) as [Hg Hf]. destruct Hp as [_ Hp]. destruct (Hp _ _ Hg) as (c & Hc' & ?).
    congruence.
  - destruct He as [-> [tr [= <- <-]]]. destruct (refines_fades w _ k _ Hr
      (discard_op_fades digest namespace tr request_id expected_consent pushed_request k)) as (w' & Hb & Hr').
    by exists w', w'.
  - destruct He as [-> [tr [= <- <-]]]. destruct (refines_fades w _ k _ Hr
      (compare_delete_fades digest namespace tr (par_key digest request_uri) expected k)) as (w' & Hb & Hr').
    by exists w', w'.
  - destruct He as [-> [tr [= <- <-]]].
    pose proof (store_op digest namespace tr k _ code_hash state ttl_seconds Hc) as Hop.
    pose proof (only_code_prepared digest namespace code_hash k _ _ _ Hp
      (store_only namespace tr k code_hash state ttl_seconds)) as Hp'.
    destruct (store_authorization_code_hash _ _ _ _ _ _) as [r k1]. unfold code_op in Hop. simpl in *.
    destruct Hop as [[-> Hrep]|[[err ->] [Hrep|Hrep]]]; simpl in *.
    + exists w, (store_code code_hash state w). split; [apply rtc_refl|]. split; [by left|]. by split_and!.
    + exists w, w. split; [apply rtc_refl|]. split; [by right|]. by split_and!.
    + exists w, (store_code code_hash state w). split; [apply rtc_refl|]. split; [by left|]. by split_and!.
  - destruct He as [[Hf ->] ->]. exists w. eexists. split; [apply rtc_refl|]. split; [split; [done|reflexivity]|by split_and!].
Qed.

(** What issuing may do to its code. *)
Lemma touches_codes h k k' consents pushed codes :
  represents namespace k codes → prepared digest namespace k consents pushed → rtc (touches h) k k' →
  prepared digest namespace k' consents pushed ∧
  ∃ codes', represents namespace k' codes' ∧
    ∀ q, codes' !! q = codes !! q ∨ h = q ∧
      ∀ p, codes' !! q ≠ Some (CodePending p) ∧ ∀ at_, codes' !! q ≠ Some (CodeConsuming p at_).
Proof.
  intros Hr Hp Ht. revert codes Hr Hp. induction Ht as [k|k1 k2 k3 H1 _ IH]; intros codes Hr Hp; [by eauto|].
  assert (prepared digest namespace k2 consents pushed ∧ ∃ codes', represents namespace k2 codes' ∧
    (codes' = codes ∨ ∃ st, codes' = set_code h st codes ∧ (st = codes !! h ∨
       ∀ p, st ≠ Some (CodePending p) ∧ ∀ at_, st ≠ Some (CodeConsuming p at_)))) as (Hp2 & codes2 & Hr2 & H2).
  { destruct H1 as [(tr & at_ & error & ttl & ->)|(tr & ->)].
    - pose proof (mark_op digest namespace tr k1 codes h (CodeFailed at_ error) ttl Hr) as Hm.
      split; [by eapply only_code_prepared, mark_only|].
      destruct (mark_code (codes !! h) _) as [reply st] eqn:Hmark.
      assert (st = codes !! h ∨ st = Some (CodeFailed at_ error)) as Hst
        by (unfold mark_code in Hmark; repeat case_match; naive_solver).
      assert (represents namespace (mark_authorization_code namespace tr h (CodeFailed at_ error) ttl k1).2 codes ∨
        represents namespace (mark_authorization_code namespace tr h (CodeFailed at_ error) ttl k1).2
          (set_code h st codes)) as [?|?] by (destruct Hm as [[_ ?]|[_ ?]]; auto); [by eauto|].
      eexists. split; [done|]. right. exists st. split; [done|]. destruct Hst as [->| ->]; [by left|by right].
    - destruct (delete_op namespace tr k1 codes h Hr) as [[?|?] Ho]; (split; [by eapply only_code_prepared|]); eauto.
      eexists. split; [done|]. right. exists None. split; [done|]. by right. }
  destruct (IH codes2 Hr2 Hp2) as (Hp3 & codes3 & Hr3 & H3). split; [done|]. exists codes3. split; [done|].
  intros q. destruct (H3 q) as [->|?]; [|by right].
  destruct H2 as [->|(st & -> & Hst)]; [by left|]. unfold set_code.
  destruct (decide (h = q)) as [<-|]; [|by left; rewrite lookup_partial_alter_ne].
  rewrite lookup_partial_alter_eq. destruct Hst as [->|Hst]; [by left|by right].
Qed.

Lemma refines_red task X (e : redE X) w v x v' :
  refines w v → valkey_red_effect task X e v x v' →
  ∃ w', red_effect task X e w x w' ∧ refines w' v'.
Proof.
  intros Hr He. destruct v as [s k], v' as [s' k'].
  assert (refines w (s, k)) as (Hs & Hc & Hp) by done. simpl in Hs, Hc, Hp. subst s.
  destruct e; cbn [valkey_red_effect red_effect fst snd] in He;
    try (destruct He as [-> ->]; exists w; done).
  - destruct He as [-> [tr [= <- <-]]]. destruct (load_op namespace tr k _ code_hash Hc) as [-> Hl].
    exists w. split; [|done]. split; [done|]. intros state Hst. apply Hl.
    destruct (load_authorization_code_hash _ _ _ _).1; simplify_eq/=; done.
  - destruct He as [-> [tr [= <- <-]]].
    destruct (begin_op digest namespace tr k _ code_hash consuming_at Hc) as [at_ Hop].
    pose proof (only_code_prepared digest namespace code_hash k _ _ _ Hp
      (begin_only namespace tr k code_hash consuming_at)) as Hp'.
    simpl. destruct (begin_code (aw_codes w !! code_hash) at_) as [reply state] eqn:Hb.
    destruct (begin_authorization_code _ _ _ _ _) as [r k1]. unfold code_op in Hop. simpl in *.
    destruct Hop as [[-> Hrep]|[[err ->] [Hrep|Hrep]]]; simpl in *.
    + eexists. split; [exists at_; rewrite Hb; left; by split|]. by split_and!.
    + exists w. split; [exists at_; rewrite Hb; right; by eauto|]. by split_and!.
    + eexists. split; [exists at_; rewrite Hb; right; split; [by eauto|by right]|]. by split_and!.
  - destruct He as [-> [tr [= <- <-]]].
    pose proof (mark_op digest namespace tr k _ code_hash replacement ttl_seconds Hc) as Hop.
    pose proof (only_code_prepared digest namespace code_hash k _ _ _ Hp
      (mark_only namespace tr k code_hash replacement ttl_seconds)) as Hp'.
    simpl. destruct (mark_code (aw_codes w !! code_hash) replacement) as [reply state].
    destruct (mark_authorization_code _ _ _ _ _ _) as [r k1]. unfold code_op in Hop. simpl in *.
    destruct Hop as [[-> Hrep]|[[err ->] [Hrep|Hrep]]]; simpl in *.
    + eexists. split; [left; by split|]. by split_and!.
    + exists w. split; [right; by eauto|]. by split_and!.
    + eexists. split; [right; split; [by eauto|by right]|]. by split_and!.
  - destruct He as [[-> Hx] ->]. exists w. by split.
  - destruct He as [-> Ht]. destruct (ti_authorization_code_hash issue) as [h|] eqn:Hh.
    + destruct (touches_codes h k k' _ _ _ Hc Hp Ht) as (Hp' & codes & Hr' & Hcodes).
      eexists. split; [exists codes; split; [reflexivity|]|by split_and!].
      intros q. destruct (Hcodes q) as [|[<- ?]]; auto.
    + subst k'. eexists. split; [exists (aw_codes w); split; [reflexivity|by left]|]. by split_and!.
Qed.

Lemma refines_step task X (e : sumE decE redE X) w v x v' :
  refines w v → valkey_step task X e v x v' → ∃ w', refines w' v' ∧ world_step task X e w x w'.
Proof.
  intros Hr (v1 & Hb & He). destruct (refines_backgrounds _ _ _ Hr Hb) as (w1 & Hb1 & Hr1).
  destruct e as [e|e].
  - destruct (refines_dec _ _ _ _ _ _ _ Hr1 He) as (w2 & w' & Hb2 & He' & Hr').
    exists w'. split; [done|]. exists w2. split; [by etrans|done].
  - destruct (refines_red _ _ _ _ _ _ _ Hr1 He) as (w' & He' & Hr').
    exists w'. split; [done|]. by exists w1.
Qed.
End flow.

(** ** The race over a server *)
Module valkey_race.
Import authorization_race.

#[export] Instance codec : AuthorizationCodec := {
  json_from_str := parse_value;
  payload_from_str s := if decide (s = "payload-1") then Some payload else None;
  payload_from_value _ := None;
  consent_to_string _ := None;
  consent_from_str s := if decide (s = "consent-1") then Some consent else None;
  pushed_to_string _ := None;
  pushed_from_str _ := None;
  datetime_from_value v := match v with JNumber (PosInt t) => Some t | _ => Some 0 end;
  rfc3339_millis _ := "1970-01-01T00:00:00.000Z";
  cjson_decode := parse_value;
  cjson_encode := print_value;
}.

Lemma filter_absent (members : list (string * Value)) key :
  key ∉ members.*1 → filter (fun p => p.1 = key) members = [].
Proof.
  induction members as [|p members IH]; [done|]. rewrite fmap_cons, not_elem_of_cons. intros [Hne Hin].
  rewrite filter_cons. case_decide; [congruence|by apply IH].
Qed.

Lemma member_get members key :
  NoDup members.*1 → member (JObject members) key = object_get members key.
Proof.
  unfold member, field. induction members as [|[l x] members IH]; [done|]. simpl.
  intros [Hl Hn]%NoDup_cons. rewrite filter_cons. simpl. case_decide; [subst|by apply IH].
  by rewrite filter_absent.
Qed.

Lemma wire_members state wire :
  code_wire state = Some wire → ∃ members, wire = JObject members ∧ NoDup members.*1.
Proof.
  assert (∀ members : list (string * Value), bool_decide (NoDup members.*1) = true → NoDup members.*1) as Hd
    by (intros members; apply bool_decide_eq_true).
  destruct state; simpl; intros Hw; try (apply bind_Some in Hw as (raw & _ & Hw));
    injection Hw as <-; eexists; (split; [done|]); apply Hd; done.
Qed.

#[export] Instance codec_laws : AuthorizationCodecLaws.
Proof.
  split; simpl; try done.
  - intros p raw. by case_decide; intros [= <-]; subst.
  - intros state wire Hw. exists wire. split; [apply parse_print|].
    destruct (wire_members _ _ Hw) as (members & -> & Hn). intros key. by apply member_get.
  - intros state wire Hw. destruct (wire_members _ _ Hw) as (members & -> & Hn).
    exists members. split; [apply parse_print|done].
  - intros v [(members & -> & Hn) _]. eexists. split; [apply parse_print|]. intros key. by apply member_get.
  - intros v _. eexists. split; [apply parse_print|done].
Qed.

Definition server_start : mem_server :=
  {| ms_clock := 1000; ms_keys := {["oauth:consent:request-1" := ("consent-1", None)]}; ms_sets := ∅ |}.

Definition valkey_red_handle (task : nat) X (e : redE X) (v : ValkeyWorld (K := mem_server))
    : option (X * ValkeyWorld (K := mem_server)) :=
  match e in redE X return option (X * ValkeyWorld (K := mem_server)) with
  | IssueTokenResponse mode issue =>
      Some (Ok "tokens", (issue_code {| is_task := task; is_mode := mode; is_issue := issue |} ∅ v.1, v.2))
  | e =>
      match token_handle "" None _ e v.2 with
      | Some (x, k) => Some (x, (v.1, k))
      | None => (fun r => (r.1, (r.2, v.2))) <$> red_handle task _ e v.1
      end
  end.

Definition valkey_handle (task : nat) X (e : sumE decE redE X) (v : ValkeyWorld (K := mem_server))
    : option (X * ValkeyWorld (K := mem_server)) :=
  match e with
  | Left e =>
      match authorization_handle (fun s => s) "" None X e v.2 with
      | Some (x, k) => Some (x, (v.1, k))
      | None => (fun r => (r.1, (r.2, v.2))) <$> dec_handle task X e v.1
      end
  | Right e => valkey_red_handle task X e v
  end.

Definition valkey_race (l : list nat) := pool_play valkey_handle l (task_prog <$> tasks, (start, server_start)).

Definition valkey_answers (c : list (prog (sumE decE redE) TaskResult) * ValkeyWorld (K := mem_server)) :=
  answers (c.1, c.2.1).

Lemma valkey_race_answers :
  valkey_answers <$> valkey_race schedule = Some
    ([Some (Decided (Ok (DecisionRedirect "https://client.example/cb")));
      Some (Decided (Err ConsentInvalid)); Some (Redeemed (Ok "tokens"));
      Some (Redeemed (Err (TokenError 400 "invalid_grant")))],
     [Approve], [Some (hex64 "a")]).
Proof. vm_compute. reflexivity. Qed.

Lemma valkey_race_step task X (e : sumE decE redE X) v x v' :
  valkey_handle task X e v = Some (x, v') → valkey_step (fun s => s) "" task X e v x v'.
Proof.
  intros H. exists v. split; [apply rtc_refl|]. destruct v as [w k], v' as [w' k'], e as [e|e].
  - destruct e; cbn [valkey_handle authorization_handle dec_handle fst snd] in H;
      try (injection H as <- <- <-; split; [done|]; by exists None);
      try (by cbn [fmap option_fmap option_map fst snd] in H; injection H as <- <- <-; split).
    + case_decide as Hn; [|done]. injection H as <- <- <-. split; [|done].
      exists 1, reliable, None, clocks, 1. by split; [split; simpl in *; lia|].
    + case_decide as Hn; [|done]. injection H as <- <- <-. by split.
  - destruct e; cbn [valkey_handle valkey_red_handle token_handle red_handle fst snd] in H;
      try (injection H as <- <- <-; split; [done|]; by exists None);
      try (by cbn [fmap option_fmap option_map fst snd] in H; injection H as <- <- <-; split).
    + simplify_eq/=. split; [|done]. split; [done|]. intros ? ? [= ->]. done.
    + injection H as <- <- <-. split; [done|]. simpl. case_match; [apply rtc_refl|done].
Qed.

Lemma server_prepared :
  (∀ h, vk_get server_start (state_key "" (authorization_code_hash_key h)) = None) ∧
  prepared (fun s => s) "" server_start start.(aw_consents) start.(aw_pushed).
Proof.
  assert (∀ key raw, vk_get server_start key = Some raw → key = "oauth:consent:request-1" ∧ raw = "consent-1") as Hk.
  { intros key raw. simpl. unfold ms_lookup. simpl.
    destruct (decide (key = "oauth:consent:request-1")) as [->|Hne]; [by intros [= <-]|].
    by rewrite lookup_singleton_ne. }
  split.
  - intros h. apply eq_None_not_Some. intros [raw [H _]%Hk]. discriminate H.
  - split; intros x raw [H ->]%Hk; [|discriminate H]. exists consent. split; [|done].
    change ("oauth:consent:" +:+ x = "oauth:consent:" +:+ "request-1") in H.
    apply (inj (String.append _)) in H as ->. done.
Qed.
End valkey_race.

(** C4: the same over Valkey.  With the codes and the prepared requests on a server,
    behind the store's scripts, and with connections that fail before or after a
    command ran: no request is decided twice, every issuance rests on a recorded
    decision and passed the checks of its exchange, and no code is exchanged twice. *)
Theorem valkey_authorization_flow {K} {VK : Valkey K} {VL : ValkeyLaws K}
    {AC : AuthorizationCrates} {RC : RedemptionCrates} {DS : DecisionServer}
    {CX : AuthorizationCodec} {CL : AuthorizationCodecLaws} digest namespace
    (digest_inj : ∀ a b, digest a = digest b → a = b)
    (timestamptz_mono : ∀ a b, a ≤ b → timestamptz a ≤ timestamptz b) ts (v : ValkeyWorld (K := K)) c :
  untouched v.1 → (∀ h, vk_get v.2 (state_key namespace (authorization_code_hash_key h)) = None) →
  prepared digest namespace v.2 v.1.(aw_consents) v.1.(aw_pushed) → Forall (task_ready v.1) ts →
  pool_steps (valkey_step digest namespace) (task_prog <$> ts, v) c →
  (∀ i j a b, c.2.1.(aw_log) !! i = Some a → c.2.1.(aw_log) !! j = Some b → same_request a b → i = j) ∧
  (∀ x, x ∈ c.2.1.(aw_issued) → ∃ t code_hash payload d,
     ts !! x.(is_task) = Some t ∧ is_code x = Some code_hash ∧ redeems t code_hash payload x ∧
     d ∈ c.2.1.(aw_log) ∧ code_of d code_hash payload) ∧
  (∀ i j x y, c.2.1.(aw_issued) !! i = Some x → c.2.1.(aw_issued) !! j = Some y →
     is_code x = is_code y → i = j).
Proof.
  intros Hu Hc Hp Hr Hs.
  assert (refines digest namespace v.1 v) as Href.
  { destruct Hu as (_ & Hco & _ & Hpu & Hbe & _). split_and!; [| |done].
    - destruct v as [[] k]. simpl in *. by subst.
    - intros h. rewrite Hco, lookup_empty. apply Hc. }
  destruct (pool_simulation (refines digest namespace) world_step (valkey_step digest namespace)
    (task_prog <$> ts) v.1 v c) as (w & (Hw & _) & Hsw); [|done..|].
  { intros. by eapply refines_step. }
  pose proof (authorization_pool_inv ts _ _ _ _ (untouched_inv ts _ Hu) Hr Hsw) as Hi. simpl in Hi. rewrite Hw. simpl.
  split_and!; [intros i j a b; by eapply inv_decided_once|intros x; by eapply inv_rests
    |intros i j x y; by eapply inv_exchanged_once].
Qed.

Import authorization_race valkey_race.

Lemma valkey_authorization_flow_witness :
  ∃ c, valkey_race schedule = Some c ∧ dc_decision <$> c.2.1.(aw_log) = [Approve] ∧
    is_code <$> c.2.1.(aw_issued) = [Some (hex64 "a")] ∧
    (∀ i j a b, c.2.1.(aw_log) !! i = Some a → c.2.1.(aw_log) !! j = Some b → same_request a b → i = j) ∧
    (∀ x, x ∈ c.2.1.(aw_issued) → ∃ t code_hash payload d,
       tasks !! x.(is_task) = Some t ∧ is_code x = Some code_hash ∧ redeems t code_hash payload x ∧
       d ∈ c.2.1.(aw_log) ∧ code_of d code_hash payload) ∧
    (∀ i j x y, c.2.1.(aw_issued) !! i = Some x → c.2.1.(aw_issued) !! j = Some y →
       is_code x = is_code y → i = j).
Proof.
  pose proof valkey_race_answers as H. destruct (valkey_race schedule) as [c|] eqn:Hc; [|discriminate H].
  exists c. split; [done|]. simpl in H. split; [by injection H|]. split; [by injection H|].
  apply (valkey_authorization_flow (DS := server) (fun s => s) "" (fun _ _ H => H) (fun _ _ H => H) tasks
    (start, server_start) c (proj1 race_start) (proj1 server_prepared) (proj2 server_prepared) (proj2 race_start)).
  eapply pool_play_steps; [apply valkey_race_step|exact Hc].
Defined.
