(* ===== verification/PostgresTokens.v ===== *)
(** * Token issuance in PostgreSQL

    Models the repositories that own refresh tokens and token issuances:
    [crates/persistence-postgres/src/repositories/tokens.rs],
    [tokens/create_family.rs], [token_issuance.rs], [token_principals.rs],
    [access_token_revocation.rs], the token parts of [authorization.rs] and
    [security_state.rs], and the SQL functions of the baseline migration they
    call.

    A table is a finite map from its primary key to the row.  A transaction is a
    function on the tables that may fail at every statement and rolls back on
    error ([tx], [transaction]); its row and advisory locks keep conflicting
    transactions off the rows it read, so transactions take effect one after
    another.  Unique keys are written out; the other checks of the server
    ([CHECK] and foreign-key constraints, limits) are the parameter
    [constraints], asked of the tables each statement would leave.  The clock
    readings of a transaction are arguments ([Clocks]): [CURRENT_TIMESTAMP] is
    the start of the transaction, which may have waited for locks since. *)
From Stdlib Require Import Ascii.
From stdpp Require Import base list strings gmap sorting.
From S2P Require Import Prelude Chrono Postgres Text Json AuthorizationPolicy TokenModel.

Local Open Scope rust_scope.
Local Open Scope string_scope.
Local Open Scope list_scope.
Local Open Scope Z_scope.

(** ** Rows *)

(** [rows/auth.rs] *)
Record RefreshFamilyRow := {
  fr_tenant_id : Uuid;
  fr_token_family_id : Uuid;
  fr_client_id : Uuid;
  fr_user_id : option Uuid;
  fr_contract_blake3 : string;
  fr_current_member_id : Uuid;
  fr_current_token_blake3 : string;
  fr_current_audience : Value;
  fr_current_issued_at : DateTime;
  fr_current_expires_at : DateTime;
  fr_current_id_token_sid : option string;
  fr_dpop_jkt : option string;
  fr_mtls_x5t_s256 : option string;
  fr_client_attestation_jkt : option string;
  fr_revoked_at : option DateTime;
  fr_reuse_detected_at : option DateTime;
}.

(** A row of [oauth_refresh_spent_tokens], without its key. *)
Record SpentRow := {
  sp_token_family_id : Uuid;
  sp_member_id : Uuid;
  sp_successor_member_id : Uuid;
  sp_spent_at : DateTime;
  sp_expires_at : DateTime;
}.

(** A row of [oauth_token_issuances], without its key. *)
Record IssuanceRow := {
  ir_tenant_id : Uuid;
  ir_client_id : Uuid;
  ir_user_id : option Uuid;
  ir_single_use_key_blake3 : option string;
  ir_access_token_jti : string;
  ir_access_token_expires_at : DateTime;
  ir_retain_until : DateTime;
  ir_refresh_token_family_id : option Uuid;
  ir_principal_epoch_bound : bool;
  ir_receipt_contract_version : Z;
  ir_authorization_code_holder : option Value;
}.

Record RevocationRow := {
  rv_client_id : Uuid;
  rv_revoked_at : DateTime;
  rv_expires_at : DateTime;
}.

(** The columns of [oauth_clients] and [users] that issuance reads. *)
Record ClientRow := {
  cl_client_id : string;
  cl_is_active : bool;
  cl_access_token_epoch : Z;
  cl_client_type : string;
}.

Record UserRow := {
  us_is_active : bool;
  us_access_token_epoch : Z;
}.

Record RecoveryRow := {
  rr_request_hash : string;
  rr_tenant_id : Uuid;
  rr_state_epoch : Uuid;
  rr_not_before : DateTime;
  rr_revoked_refresh_tokens : Z;
  rr_completed_at : DateTime;
  rr_coverage_version : Z;
}.

(** [nazo_persistence::SecurityAuditEvent], without its key. *)
Record AuditEvent := {
  ae_event_type : string;
  ae_event_category : string;
  ae_payload : Value;
  ae_occurred_at : DateTime;
}.

Record Tables := {
  clients : gmap (Uuid * Uuid) ClientRow;
  users : gmap (Uuid * Uuid) UserRow;
  contracts : gmap (Uuid * string) Value;
  families : gmap (Uuid * Uuid) RefreshFamilyRow;
  spent : gmap (Uuid * string) SpentRow;
  issuances : gmap Uuid IssuanceRow;
  bindings : gmap (Uuid * string) Uuid;
  revocations : gmap (Uuid * string) RevocationRow;
  recoveries : gmap Uuid RecoveryRow;
  audits : gmap Uuid AuditEvent;
}.

Definition set_contracts f t := {| clients := t.(clients); users := t.(users);
  contracts := f t.(contracts); families := t.(families); spent := t.(spent);
  issuances := t.(issuances); bindings := t.(bindings); revocations := t.(revocations);
  recoveries := t.(recoveries); audits := t.(audits) |}.
Definition set_families f t := {| clients := t.(clients); users := t.(users);
  contracts := t.(contracts); families := f t.(families); spent := t.(spent);
  issuances := t.(issuances); bindings := t.(bindings); revocations := t.(revocations);
  recoveries := t.(recoveries); audits := t.(audits) |}.
Definition set_spent f t := {| clients := t.(clients); users := t.(users);
  contracts := t.(contracts); families := t.(families); spent := f t.(spent);
  issuances := t.(issuances); bindings := t.(bindings); revocations := t.(revocations);
  recoveries := t.(recoveries); audits := t.(audits) |}.
Definition set_issuances f t := {| clients := t.(clients); users := t.(users);
  contracts := t.(contracts); families := t.(families); spent := t.(spent);
  issuances := f t.(issuances); bindings := t.(bindings); revocations := t.(revocations);
  recoveries := t.(recoveries); audits := t.(audits) |}.
Definition set_bindings f t := {| clients := t.(clients); users := t.(users);
  contracts := t.(contracts); families := t.(families); spent := t.(spent);
  issuances := t.(issuances); bindings := f t.(bindings); revocations := t.(revocations);
  recoveries := t.(recoveries); audits := t.(audits) |}.
Definition set_revocations f t := {| clients := t.(clients); users := t.(users);
  contracts := t.(contracts); families := t.(families); spent := t.(spent);
  issuances := t.(issuances); bindings := t.(bindings); revocations := f t.(revocations);
  recoveries := t.(recoveries); audits := t.(audits) |}.
Definition set_recoveries f t := {| clients := t.(clients); users := t.(users);
  contracts := t.(contracts); families := t.(families); spent := t.(spent);
  issuances := t.(issuances); bindings := t.(bindings); revocations := t.(revocations);
  recoveries := f t.(recoveries); audits := t.(audits) |}.
Definition set_audits f t := {| clients := t.(clients); users := t.(users);
  contracts := t.(contracts); families := t.(families); spent := t.(spent);
  issuances := t.(issuances); bindings := t.(bindings); revocations := t.(revocations);
  recoveries := t.(recoveries); audits := f t.(audits) |}.

(** ** Statements and transactions *)

(** Other crates and the server: BLAKE3 and its hexadecimal text, the texts of
    a [Uuid] and of a Diesel error, what a time becomes in a [timestamptz]
    column, the constraints of the server, [serde]'s [RefreshContract], and the
    size check of an audit payload. *)
Class Deployment := {
  blake3_hash : string → string;
  to_hex : string → string;
  uuid_to_string : Uuid → string;
  uuid_parse_str : string → option Uuid;
  error_text : DieselError → string;
  timestamptz : DateTime → DateTime;
  constraints : Tables → option DieselError;
  contract_to_value : RefreshContract → result Value string;
  contract_to_writer : RefreshContract → result string string;
  contract_from_value : Value → result RefreshContract string;
  payload_within_limit : Value → bool;
}.

#[export] Instance token_server `{D : Deployment} : Server Tables := constraints.

Notation tx := (txn Tables).

Local Open Scope tx_scope.

Section statements.
Context `{D : Deployment}.

Definition map_error (e : DieselError) : RepositoryError := Unexpected (error_text e).

Definition deserialization_error (e : RepositoryError) : DieselError :=
  DeserializationError (repository_error_text e).

Definition blake3_hex (value : string) : string := to_hex (blake3_hash value).

(** The clock readings of a transaction and the identifiers it generates. *)
Record Clocks := {
  tx_started : DateTime;
  tx_inserted : DateTime;
  tx_transition_at : DateTime;
  tx_source_at : DateTime;
  tx_audit_at : DateTime;
  tx_event_id : Uuid;
  tx_retirement_ids : list Uuid;
}.

(** ** The audit ledger ([audit_ledger.rs], [nazo_persist_security_audit_event]) *)

Definition valid_identifier (value : string) : bool :=
  match bytes value with
  | [] => false
  | first :: rest =>
      in_range 97 122 (byte first)
      && (len value <=? 64)
      && forallb (fun c => in_range 97 122 (byte c) || is_ascii_digit c
                           || bool_decide (c = "_"%char)) rest
  end.

Definition validate_event (event_id : Uuid) (event : AuditEvent) : result unit RepositoryError :=
  if is_nil event_id
     || bool_decide (event.(ae_event_type) = "authorization_decision_committed")
     || negb (valid_identifier event.(ae_event_type))
     || negb (valid_identifier event.(ae_event_category))
     || is_none (as_object event.(ae_payload))
  then Err (Unexpected "security audit event has invalid identity or payload")
  else Ok tt.

Definition validate_payload_size (event : AuditEvent) : result unit RepositoryError :=
  if negb (payload_within_limit event.(ae_payload))
  then Err (Unexpected "audit payload exceeds 65536 bytes")
  else Ok tt.

Definition validate_event_for_transaction (event_id : Uuid) (event : AuditEvent)
    : result unit DieselError :=
  map_err (fun e => SerializationError (repository_error_text e))
    (let? _ := validate_event event_id event in validate_payload_size event).

(** The SQL function: whether the event was inserted.  Its limit on the
    payload's text is among the server's [constraints]. *)
Definition nazo_persist_security_audit_event (event_id : Uuid) (event : AuditEvent) (t : Tables)
    : result (bool * Tables) DieselError :=
  if bool_decide (event.(ae_event_type) = "authorization_decision_committed")
  then Err (DatabaseError "authorization decision requires its atomic commit API")
  else if is_nil event_id
  then Err (DatabaseError "invalid security audit event")
  else match t.(audits) !! event_id with
  | None => Ok (true, set_audits <[event_id := event]> t)
  | Some stored =>
      if bool_decide (stored.(ae_event_type) = event.(ae_event_type))
         && bool_decide (stored.(ae_event_category) = event.(ae_event_category))
         && bool_decide (stored.(ae_payload) = event.(ae_payload))
         && bool_decide (stored.(ae_occurred_at) = event.(ae_occurred_at))
      then Ok (false, t)
      else Err (DatabaseError "security audit event id collision")
  end.

Definition append_on_connection (event_id : Uuid) (event : AuditEvent) : tx DieselError bool :=
  let! _ := tx_lift (validate_event_for_transaction event_id event) in
  execute (nazo_persist_security_audit_event event_id
    {| ae_event_type := event.(ae_event_type);
       ae_event_category := event.(ae_event_category);
       ae_payload := event.(ae_payload);
       ae_occurred_at := timestamptz event.(ae_occurred_at) |}).

Definition append_fresh_security_audit_on_connection (event_id : Uuid) (event : AuditEvent)
    : tx DieselError unit :=
  let! inserted := append_on_connection event_id event in
  if inserted : bool then tx_ret tt
  else tx_err (SerializationError "security audit event already exists in the immutable ledger").

End statements.

(** ** [tokens.rs] *)
Section tokens.
Context `{D : Deployment}.

Definition LOST_REFRESH_TOKEN_RETRY_SECONDS : Z := 60.

Definition is_lower_sha256 (value : string) : bool :=
  (len value =? 64)
  && forallb (fun c => is_ascii_digit c || in_range 97 102 (byte c)) (bytes value).

(** *** Validation *)

Definition valid_audiences (values : list string) : bool :=
  negb (bool_decide (values = [])) && forallb nonblank values.

Definition blank_sid (sid : option string) : bool := is_some_and sid (fun sid => negb (nonblank sid)).

Definition replacement_preserves (au : RefreshTokenAuthority) (token : NewRefreshToken) : bool :=
  (token.(nt_family_id) =? au.(au_family_id))
  && (token.(nt_tenant_id) =? au.(au_tenant_id))
  && (token.(nt_client_id) =? au.(au_client_id))
  && bool_decide (token.(nt_user_id) = au.(au_user_id))
  && bool_decide (token.(nt_rotated_from_id) = Some au.(au_member_id))
  && is_subset token.(nt_audiences) au.(au_current_audiences)
  && bool_decide (token.(nt_dpop_jkt) = au.(au_dpop_jkt))
  && bool_decide (token.(nt_mtls_x5t_s256) = au.(au_mtls_x5t_s256))
  && bool_decide (token.(nt_client_attestation_jkt) = au.(au_client_attestation_jkt)).

(** The last check, on the new token of a commit. *)
Definition valid_new_token (contract : RefreshContract) (token : NewRefreshToken) : bool :=
  negb (is_nil token.(nt_family_id))
  && negb (is_nil token.(nt_member_id))
  && negb (is_empty token.(nt_raw_token))
  && negb (blank_sid token.(nt_id_token_sid))
  && valid_audiences token.(nt_audiences)
  && (contract.(ct_authentication_context).(ac_auth_time) <=? timestamp token.(nt_issued_at))
  && (token.(nt_issued_at) <? token.(nt_expires_at)).

Definition validate_refresh_commit (refresh : RefreshTokenCommit) : result unit RepositoryError :=
  let contract := commit_contract refresh in
  if negb (is_well_formed contract.(ct_authentication_context))
     || negb (nonblank contract.(ct_subject))
     || negb (valid_audiences contract.(ct_audiences))
  then Err (Consistency "refresh token requires a complete immutable authentication contract")
  else
    let? _ := match refresh with
      | IssueNew token contract =>
          if negb (contract.(ct_authentication_context).(ac_version) =? CURRENT_VERSION)
             || is_some token.(nt_rotated_from_id)
             || is_some token.(nt_lost_response_retry)
             || negb (bool_decide (token.(nt_audiences) = contract.(ct_audiences)))
          then Err (Consistency "new refresh family must retain the complete original grant")
          else Ok tt
      | UseExisting au rotation =>
          if blank_sid au.(au_id_token_sid)
             || is_nil au.(au_family_id)
             || is_nil au.(au_member_id)
             || negb (valid_audiences au.(au_current_audiences))
             || negb (is_subset au.(au_current_audiences) contract.(ct_audiences))
          then Err (Consistency "refresh source audience exceeds its original grant")
          else if is_some_and rotation (fun token => negb (replacement_preserves au token))
          then Err (Consistency "refresh replacement does not preserve its source authority")
          else Ok tt
      end in
    if is_some_and (commit_token refresh) (fun token => negb (valid_new_token contract token))
    then Err (Consistency "refresh token requires a complete current authentication contract")
    else Ok tt.

(** *** Contracts *)

Record PreparedRefreshContract := {
  pc_contract_blake3 : string;
  pc_contract_value : Value;
}.

Definition persisted_contract (contract : RefreshContract)
    : result (string * Value) RepositoryError :=
  let? value := map_err (fun e => Consistency ("refresh contract could not be serialized: " +:+ e))
    (contract_to_value contract) in
  let? text := map_err (fun e => Consistency ("refresh contract could not be encoded: " +:+ e))
    (contract_to_writer contract) in
  Ok (blake3_hash text, value).

Definition prepare_refresh_contract (refresh : RefreshTokenCommit)
    : result (option PreparedRefreshContract) RepositoryError :=
  let? _ := validate_refresh_commit refresh in
  match refresh with
  | UseExisting _ _ => Ok None
  | IssueNew _ contract =>
      let? p := persisted_contract contract in
      Ok (Some {| pc_contract_blake3 := p.1; pc_contract_value := p.2 |})
  end.

Definition parse_contract (value : Value) : result RefreshContract RepositoryError :=
  map_err (fun e => Unexpected ("invalid persisted refresh contract: " +:+ e))
    (contract_from_value value).

Definition require_contract (row : option Value) : result RefreshContract DieselError :=
  match row with
  | None => Err (DeserializationError "refresh family references a missing contract")
  | Some value => map_err deserialization_error (parse_contract value)
  end.

(** *** Presented tokens *)

Definition digest32 (digest : string) : result string RepositoryError :=
  if len digest =? 32 then Ok digest
  else Err (Unexpected "refresh digest must be exactly 32 bytes").

(** [serde_json::json!] and [serde_json::from_value] of a [Vec<String>]. *)
Definition strings_to_value (l : list string) : Value := JArray (JString <$> l).

Definition strings_from_value (v : Value) : option (list string) :=
  match v with JArray items => mapM as_str items | _ => None end.

Definition token_from_current (family : RefreshFamilyRow) (contract : RefreshContract)
    : result RefreshToken RepositoryError :=
  let? token_blake3 := digest32 family.(fr_current_token_blake3) in
  let? contract_key := digest32 family.(fr_contract_blake3) in
  let? audience := ok_or (strings_from_value family.(fr_current_audience))
    (Consistency "refresh audience must be a string array") in
  Ok {| rt_id_token_sid := family.(fr_current_id_token_sid);
        rt_id := family.(fr_current_member_id);
        rt_token_blake3 := token_blake3;
        rt_tenant_id := family.(fr_tenant_id);
        rt_token_family_id := family.(fr_token_family_id);
        rt_client_id := family.(fr_client_id);
        rt_user_id := family.(fr_user_id);
        rt_contract_key := contract_key;
        rt_contract := contract;
        rt_audience := audience;
        rt_issued_at := family.(fr_current_issued_at);
        rt_expires_at := family.(fr_current_expires_at);
        rt_revoked_at := family.(fr_revoked_at);
        rt_dpop_jkt := family.(fr_dpop_jkt);
        rt_mtls_x5t_s256 := family.(fr_mtls_x5t_s256);
        rt_client_attestation_jkt := family.(fr_client_attestation_jkt) |}.

Definition token_from_spent (digest : string) (row : SpentRow) (family : RefreshFamilyRow)
    (contract : RefreshContract) : result RefreshToken RepositoryError :=
  let? token_blake3 := digest32 digest in
  let? contract_key := digest32 family.(fr_contract_blake3) in
  Ok {| rt_id_token_sid := family.(fr_current_id_token_sid);
        rt_id := row.(sp_member_id);
        rt_token_blake3 := token_blake3;
        rt_tenant_id := family.(fr_tenant_id);
        rt_token_family_id := family.(fr_token_family_id);
        rt_client_id := family.(fr_client_id);
        rt_user_id := family.(fr_user_id);
        rt_contract_key := contract_key;
        rt_contract := contract;
        rt_audience := contract.(ct_audiences);
        rt_issued_at := row.(sp_spent_at);
        rt_expires_at := row.(sp_expires_at);
        rt_revoked_at := Some row.(sp_spent_at);
        rt_dpop_jkt := family.(fr_dpop_jkt);
        rt_mtls_x5t_s256 := family.(fr_mtls_x5t_s256);
        rt_client_attestation_jkt := family.(fr_client_attestation_jkt) |}.

(** The family whose current token has the digest; [(tenant_id,
    current_token_blake3)] is unique. *)
Definition current_family (t : Tables) (tenant_id : Uuid) (digest : string)
    : option RefreshFamilyRow :=
  head (filter (fun row => row.(fr_tenant_id) = tenant_id ∧ row.(fr_current_token_blake3) = digest)
    (snd <$> map_to_list t.(families))).

(** [RefreshPresentationRow]: the family, its contract, and the spent proof the
    presentation was found by.  The OIDC subject that the same statement can
    prepare for the caller is left out. *)
Record RefreshPresentationRow := {
  pr_family : RefreshFamilyRow;
  pr_contract : option Value;
  pr_spent : option (string * SpentRow);
}.

Definition lookup_refresh_token (tenant_id : Uuid) (digest : string) (t : Tables)
    : option RefreshPresentationRow :=
  let row_of family spent :=
    {| pr_family := family;
       pr_contract := t.(contracts) !! (tenant_id, family.(fr_contract_blake3));
       pr_spent := spent |} in
  match current_family t tenant_id digest with
  | Some family => Some (row_of family None)
  | None =>
      spent_row ← t.(spent) !! (tenant_id, digest);
      family ← t.(families) !! (tenant_id, spent_row.(sp_token_family_id));
      Some (row_of family (Some (digest, spent_row)))
  end.

Record RefreshPresentation := {
  rp_presented : RefreshToken;
  rp_successor : result (option RefreshToken) RepositoryError;
}.

Definition retry_eligible (family : RefreshFamilyRow) (row : SpentRow) (client_id : Uuid)
    (now : DateTime) : bool :=
  let elapsed := now - row.(sp_spent_at) in
  (family.(fr_client_id) =? client_id)
  && (is_some family.(fr_dpop_jkt) || is_some family.(fr_mtls_x5t_s256))
  && (family.(fr_current_member_id) =? row.(sp_successor_member_id))
  && is_none family.(fr_revoked_at)
  && is_none family.(fr_reuse_detected_at)
  && (now <? family.(fr_current_expires_at))
  && (0 <=? elapsed)
  && (elapsed <=? LOST_REFRESH_TOKEN_RETRY_SECONDS * NANOS).

Definition into_presentation (row : RefreshPresentationRow) (retry : option (Uuid * DateTime))
    : result RefreshPresentation DieselError :=
  let? contract := require_contract row.(pr_contract) in
  match row.(pr_spent) with
  | None =>
      let? presented := map_err deserialization_error (token_from_current row.(pr_family) contract) in
      Ok {| rp_presented := presented; rp_successor := Ok None |}
  | Some (digest, spent_row) =>
      let eligible := is_some_and retry (fun '(client_id, now) =>
        retry_eligible row.(pr_family) spent_row client_id now) in
      let successor :=
        if eligible then map_ok Some (token_from_current row.(pr_family) contract) else Ok None in
      let? presented := map_err deserialization_error
        (token_from_spent digest spent_row row.(pr_family) contract) in
      Ok {| rp_presented := presented; rp_successor := successor |}
  end.

(** A read on a connection of its own. *)
Definition read {A} (connection : Connection) (f : Tables → A) (t : Tables)
    : result A RepositoryError :=
  if negb connection.(cn_available) then Err Unavailable
  else map_err map_error (map_ok fst (query f connection.(cn_faults) t)).

Definition by_raw_refresh_token (connection : Connection) (tenant_id : Uuid) (raw_token : string)
    (t : Tables) : result (option RefreshToken) RepositoryError :=
  let? row := read connection (lookup_refresh_token tenant_id (blake3_hash raw_token)) t in
  map_err map_error (transpose
    ((fun row => map_ok rp_presented (into_presentation row None)) <$> row)).

Definition refresh_token_snapshot (connection : Connection) (tenant_id : Uuid) (raw_token : string)
    (client_id : Uuid) (retry_started_at : DateTime) (t : Tables)
    : result (option RefreshPresentation) RepositoryError :=
  let? row := read connection (lookup_refresh_token tenant_id (blake3_hash raw_token)) t in
  map_err map_error (transpose
    ((fun row => into_presentation row (Some (client_id, retry_started_at))) <$> row)).

Definition family_active (connection : Connection) (tenant_id family_id user_id : Uuid)
    (now : DateTime) (t : Tables) : result bool RepositoryError :=
  read connection (fun t => is_some_and (t.(families) !! (tenant_id, family_id)) (fun row =>
    bool_decide (row.(fr_user_id) = Some user_id)
    && is_none row.(fr_revoked_at)
    && is_none row.(fr_reuse_detected_at)
    && (timestamptz now <? row.(fr_current_expires_at)))) t.

Definition access_token_revoked (connection : Connection) (tenant_id : Uuid) (jti : string)
    (t : Tables) : result bool RepositoryError :=
  read connection (fun t => is_some (t.(revocations) !! (tenant_id, blake3_hex jti))) t.

(** *** Access-token state *)

Record TypedRevocationLookupKey := {
  lk_tenant_id : Uuid;
  lk_jti : string;
  lk_client_id : string;
  lk_subject : string;
  lk_user_id : option string;
  lk_subject_type : option string;
  lk_client_epoch : option Z;
  lk_user_epoch : option Z;
}.

(** The user a token's subject stands for: the carried one or the binding's. *)
Definition subject_user (t : Tables) (tenant_id : Uuid) (user_id : option Uuid) (subject : string)
    : option UserRow :=
  id ← match user_id with Some id => Some id | None => t.(bindings) !! (tenant_id, subject) end;
  t.(users) !! (tenant_id, id).

(** The principals of the token are active at the token's epochs. *)
Definition principals_current (t : Tables) (key : TypedRevocationLookupKey) (client_epoch : Z)
    (user_id : option Uuid) : bool :=
  existsb (fun '((tenant_id, _), client) =>
    (tenant_id =? key.(lk_tenant_id))
    && bool_decide (client.(cl_client_id) = key.(lk_client_id))
    && client.(cl_is_active)
    && (client.(cl_access_token_epoch) =? client_epoch)
    && ((bool_decide (key.(lk_subject_type) = Some "client")
         && is_none user_id && is_none key.(lk_user_epoch))
        || (bool_decide (key.(lk_subject_type) = Some "user")
            && is_some_and (subject_user t key.(lk_tenant_id) user_id key.(lk_subject)) (fun user =>
                 user.(us_is_active)
                 && bool_decide (Some user.(us_access_token_epoch) = key.(lk_user_epoch))))))
    (map_to_list t.(clients)).

Definition access_token_state_revoked_typed (connection : Connection)
    (key : TypedRevocationLookupKey) (t : Tables) : result bool RepositoryError :=
  match key.(lk_client_epoch) with
  | None =>
      if is_some key.(lk_user_epoch) then Ok true
      else access_token_revoked connection key.(lk_tenant_id) key.(lk_jti) t
  | Some client_epoch =>
      if (client_epoch <? 0) || is_some_and key.(lk_user_epoch) (fun value => value <? 0) then Ok true
      else
        match uuid_parse_str <$> key.(lk_user_id) with
        | Some None => Ok true
        | parsed =>
            read connection (fun t =>
              is_some (t.(revocations) !! (key.(lk_tenant_id), blake3_hex key.(lk_jti)))
              || negb (principals_current t key client_epoch (mjoin parsed))) t
        end
  end.

(** *** Writing refresh tokens *)

(** [nazo_auth::NativeSsoSourceFence]'s retired family, from the creating
    statement. *)
Record RetiredNativeSsoSource := {
  rs_tenant_id : Uuid;
  rs_user_id : option Uuid;
  rs_token_family_id : Uuid;
  rs_source_client_id : string;
  rs_expires_at : DateTime;
}.

Definition with_revocation (revoked_at reuse_detected_at : option DateTime) (row : RefreshFamilyRow)
    : RefreshFamilyRow :=
  {| fr_tenant_id := row.(fr_tenant_id); fr_token_family_id := row.(fr_token_family_id);
     fr_client_id := row.(fr_client_id); fr_user_id := row.(fr_user_id);
     fr_contract_blake3 := row.(fr_contract_blake3);
     fr_current_member_id := row.(fr_current_member_id);
     fr_current_token_blake3 := row.(fr_current_token_blake3);
     fr_current_audience := row.(fr_current_audience);
     fr_current_issued_at := row.(fr_current_issued_at);
     fr_current_expires_at := row.(fr_current_expires_at);
     fr_current_id_token_sid := row.(fr_current_id_token_sid);
     fr_dpop_jkt := row.(fr_dpop_jkt); fr_mtls_x5t_s256 := row.(fr_mtls_x5t_s256);
     fr_client_attestation_jkt := row.(fr_client_attestation_jkt);
     fr_revoked_at := revoked_at; fr_reuse_detected_at := reuse_detected_at |}.

(** [COALESCE] *)
Definition coalesce {A} (a b : option A) : option A := match a with Some _ => a | None => b end.

(** Reuse detected at [at_], unless it was before. *)
Definition compromised (at_ : DateTime) (row : RefreshFamilyRow) : RefreshFamilyRow :=
  if is_some row.(fr_reuse_detected_at) then row
  else with_revocation (coalesce row.(fr_revoked_at) (Some at_)) (Some at_) row.

Definition compromise_family (clocks : Clocks) (tenant_id family_id : Uuid) : tx DieselError unit :=
  update (set_families (alter (compromised clocks.(tx_started)) (tenant_id, family_id))).

(** [(tenant_id, current_token_blake3)] of a row that a statement writes at a
    key is taken by another row. *)
Definition digest_taken (t : Tables) (key : Uuid * Uuid) (tenant_id : Uuid) (digest : string) : bool :=
  existsb (fun '(other, row) =>
    negb (bool_decide (other = key))
    && (row.(fr_tenant_id) =? tenant_id)
    && bool_decide (row.(fr_current_token_blake3) = digest)) (map_to_list t.(families)).

Definition write_family (key : Uuid * Uuid) (row : RefreshFamilyRow) (t : Tables)
    : result (unit * Tables) DieselError :=
  if digest_taken t key row.(fr_tenant_id) row.(fr_current_token_blake3) then Err UniqueViolation
  else Ok (tt, set_families <[key := row]> t).

(** **** [nazo_create_refresh_family] *)

Definition active_at (now : DateTime) (row : RefreshFamilyRow) : bool :=
  is_none row.(fr_revoked_at) && is_none row.(fr_reuse_detected_at)
  && (now <? row.(fr_current_expires_at)).

Definition in_scope (tenant_id user_id client_id : Uuid) (row : RefreshFamilyRow) : bool :=
  (row.(fr_tenant_id) =? tenant_id) && bool_decide (row.(fr_user_id) = Some user_id)
  && (row.(fr_client_id) =? client_id).

(** [ORDER BY current_issued_at, token_family_id] *)
Definition older (a b : RefreshFamilyRow) : Prop :=
  a.(fr_current_issued_at) < b.(fr_current_issued_at) ∨
  (a.(fr_current_issued_at) = b.(fr_current_issued_at) ∧
   a.(fr_token_family_id) ≤ b.(fr_token_family_id)).

#[export] Instance older_dec : RelDecision older.
Proof. intros a b. unfold older. apply _. Defined.

Definition scope_families (t : Tables) (tenant_id user_id client_id : Uuid) (now : DateTime)
    : list RefreshFamilyRow :=
  filter (fun row => in_scope tenant_id user_id client_id row && active_at now row = true)
    (snd <$> map_to_list t.(families)).

(** The oldest families beyond the capacity that a new one leaves. *)
Definition victims (t : Tables) (tenant_id user_id client_id : Uuid) (now : DateTime)
    (max_families : Z) : list RefreshFamilyRow :=
  let ranked := merge_sort older (scope_families t tenant_id user_id client_id now) in
  take (Z.to_nat (Z.of_nat (length ranked) - (max_families - 1))) ranked.

Definition json_object (members : list (string * Value)) : Value := canonical (JObject members).
Definition json_uuid (u : Uuid) : Value := JString (uuid_to_string u).
Definition json_option {A} (f : A → Value) (o : option A) : Value :=
  match o with Some a => f a | None => JNull end.

Definition SECURITY_AUDIT_SCHEMA_VERSION : string := "nazo.audit.v1".

Definition retirement_event (token : NewRefreshToken) (user_id issuance_id victim : Uuid)
    (max_families : Z) (now : DateTime) : AuditEvent :=
  {| ae_event_type := "refresh_family_capacity_retired";
     ae_event_category := "token_lifecycle";
     ae_payload := json_object
       [("schema_version", JString SECURITY_AUDIT_SCHEMA_VERSION);
        ("tenant_id", json_uuid token.(nt_tenant_id));
        ("issuance_id", json_uuid issuance_id);
        ("event_category", JString "token_lifecycle");
        ("token_family_id", json_uuid victim);
        ("client_id", json_uuid token.(nt_client_id));
        ("user_id", json_uuid user_id);
        ("reason", JString "active_family_cap");
        ("max_active_families", json_i64 max_families)];
     ae_occurred_at := now |}.

(** The retired native source as the statement returns it: the client's public
    identifier is null when the client's row is missing. *)
Definition retired_json (t : Tables) (row : RefreshFamilyRow)
    : Uuid * option Uuid * Uuid * option string * DateTime :=
  (row.(fr_tenant_id), row.(fr_user_id), row.(fr_token_family_id),
   cl_client_id <$> t.(clients) !! (row.(fr_tenant_id), row.(fr_client_id)),
   row.(fr_current_expires_at)).

(** The loop over the victims, with the event identifiers it generates. *)
Fixpoint retire (clocks : Clocks) (token : NewRefreshToken) (user_id issuance_id : Uuid)
    (max_families : Z) (native_source : option Uuid) (l : list RefreshFamilyRow) (ids : list Uuid)
    (retired : option (Uuid * option Uuid * Uuid * option string * DateTime)) (t : Tables)
    : result (option (Uuid * option Uuid * Uuid * option string * DateTime) * Tables) DieselError :=
  match l with
  | [] => Ok (retired, t)
  | victim :: l =>
      let key := (token.(nt_tenant_id), victim.(fr_token_family_id)) in
      match t.(families) !! key with
      | Some row =>
          if active_at clocks.(tx_started) row then
            let row' := with_revocation (Some clocks.(tx_started)) row.(fr_reuse_detected_at) row in
            let t1 := set_families <[key := row']> t in
            let retired' :=
              if bool_decide (native_source = Some row.(fr_token_family_id))
              then Some (retired_json t row) else retired in
            match nazo_persist_security_audit_event (unwrap_or (head ids) 0)
                    (retirement_event token user_id issuance_id victim.(fr_token_family_id)
                       max_families clocks.(tx_inserted)) t1 with
            | Ok (true, t2) =>
                retire clocks token user_id issuance_id max_families native_source l (tail ids)
                  retired' t2
            | Ok (false, _) =>
                Err (DatabaseError "fresh refresh retirement audit identity already exists")
            | Err e => Err e
            end
          else retire clocks token user_id issuance_id max_families native_source l ids retired t
      | None => retire clocks token user_id issuance_id max_families native_source l ids retired t
      end
  end.

(** [nazo_oauth_refresh_contract_ensure]: with no concurrent writer of the key
    the first attempt succeeds. *)
Definition nazo_oauth_refresh_contract_ensure (tenant_id : Uuid) (contract : PreparedRefreshContract)
    (t : Tables) : Tables :=
  match t.(contracts) !! (tenant_id, contract.(pc_contract_blake3)) with
  | Some _ => t
  | None =>
      set_contracts <[(tenant_id, contract.(pc_contract_blake3)) := contract.(pc_contract_value)]> t
  end.

Definition new_family_row (token : NewRefreshToken) (contract : PreparedRefreshContract)
    : RefreshFamilyRow :=
  {| fr_tenant_id := token.(nt_tenant_id);
     fr_token_family_id := token.(nt_family_id);
     fr_client_id := token.(nt_client_id);
     fr_user_id := token.(nt_user_id);
     fr_contract_blake3 := contract.(pc_contract_blake3);
     fr_current_member_id := token.(nt_member_id);
     fr_current_token_blake3 := blake3_hash token.(nt_raw_token);
     fr_current_audience := strings_to_value token.(nt_audiences);
     fr_current_issued_at := timestamptz token.(nt_issued_at);
     fr_current_expires_at := timestamptz token.(nt_expires_at);
     fr_current_id_token_sid := token.(nt_id_token_sid);
     fr_dpop_jkt := token.(nt_dpop_jkt);
     fr_mtls_x5t_s256 := token.(nt_mtls_x5t_s256);
     fr_client_attestation_jkt := token.(nt_client_attestation_jkt);
     fr_revoked_at := None;
     fr_reuse_detected_at := None |}.

Inductive CreateOutcome := CreateConflict | CreateInserted.

Definition nazo_create_refresh_family (clocks : Clocks) (token : NewRefreshToken)
    (contract : PreparedRefreshContract) (max_families : Z) (issuance_id : Uuid)
    (native_source : option Uuid) (t : Tables)
    : result (CreateOutcome * option (Uuid * option Uuid * Uuid * option string * DateTime) * Tables)
             DieselError :=
  let key := (token.(nt_tenant_id), token.(nt_family_id)) in
  if max_families <? 1 then Err (DatabaseError "invalid refresh family capacity")
  else if is_some (t.(families) !! key) then
    Ok (CreateConflict, None, set_families (alter (compromised clocks.(tx_started)) key) t)
  else
    let? p := match token.(nt_user_id) with
      | None => Ok (None, t)
      | Some user_id =>
          retire clocks token user_id issuance_id max_families native_source
            (victims t token.(nt_tenant_id) user_id token.(nt_client_id) clocks.(tx_started)
               max_families)
            clocks.(tx_retirement_ids) None t
      end in
    let? q := write_family key (new_family_row token contract)
      (nazo_oauth_refresh_contract_ensure token.(nt_tenant_id) contract p.2) in
    Ok (CreateInserted, p.1, q.2).

(** [create_family::create] *)
Definition create (clocks : Clocks) (token : NewRefreshToken) (contract : PreparedRefreshContract)
    (issuance_id : Uuid) (native_source : option NativeSsoSourceFence)
    : tx DieselError (RefreshTokenPersistResult * option RetiredNativeSsoSource) :=
  let! row := execute (nazo_create_refresh_family clocks token contract
    MAX_ACTIVE_REFRESH_FAMILIES_PER_SCOPE issuance_id (ns_family_id <$> native_source)) in
  match row : CreateOutcome * option (Uuid * option Uuid * Uuid * option string * DateTime) with
  | (CreateConflict, None) => tx_ret (PersistRotationConflict, None)
  | (CreateInserted, None) => tx_ret (Inserted, None)
  | (CreateInserted, Some (tenant_id, user_id, token_family_id, Some source_client_id, expires_at)) =>
      tx_ret (Inserted, Some {| rs_tenant_id := tenant_id; rs_user_id := user_id;
        rs_token_family_id := token_family_id; rs_source_client_id := source_client_id;
        rs_expires_at := expires_at |})
  | (CreateInserted, Some (_, _, _, None, _)) =>
      tx_err (DeserializationError "invalid type: null, expected a string")
  | (CreateConflict, Some _) =>
      tx_err (deserialization_error (Consistency "unknown family creation result"))
  end.

(** **** Using an existing family *)

(** [load_family]: the locked row and its contract's value. *)
Definition load_family (tenant_id family_id : Uuid)
    : tx DieselError (option (RefreshFamilyRow * option Value)) :=
  query (fun t =>
    (fun family => (family, t.(contracts) !! (family.(fr_tenant_id), family.(fr_contract_blake3))))
      <$> t.(families) !! (tenant_id, family_id)).

Definition source_matches (family : RefreshFamilyRow) (contract : RefreshContract)
    (au : RefreshTokenAuthority) : bool :=
  (family.(fr_current_member_id) =? au.(au_member_id))
  && bool_decide (family.(fr_current_token_blake3) = au.(au_token_blake3))
  && (family.(fr_client_id) =? au.(au_client_id))
  && bool_decide (family.(fr_user_id) = au.(au_user_id))
  && bool_decide (family.(fr_contract_blake3) = au.(au_contract_key))
  && bool_decide (contract = au.(au_contract))
  && bool_decide (family.(fr_current_audience) = strings_to_value au.(au_current_audiences))
  && bool_decide (family.(fr_current_id_token_sid) = au.(au_id_token_sid))
  && bool_decide (family.(fr_dpop_jkt) = au.(au_dpop_jkt))
  && bool_decide (family.(fr_mtls_x5t_s256) = au.(au_mtls_x5t_s256))
  && bool_decide (family.(fr_client_attestation_jkt) = au.(au_client_attestation_jkt)).

(** A retried rotation presents the direct predecessor of the current member,
    spent at most [LOST_REFRESH_TOKEN_RETRY_SECONDS] ago. *)
Definition edge_valid (retry : LostResponseRetry) (edge : option SpentRow) (rotated_from_id : Uuid)
    : bool :=
  is_some_and edge (fun row =>
    let elapsed := retry.(lr_retry_started_at) - row.(sp_spent_at) in
    (row.(sp_successor_member_id) =? rotated_from_id)
    && (0 <=? elapsed)
    && (elapsed <=? LOST_REFRESH_TOKEN_RETRY_SECONDS * NANOS)).

Definition insert_spent (key : Uuid * string) (row : SpentRow) (t : Tables)
    : result (unit * Tables) DieselError :=
  if is_some (t.(spent) !! key) then Err UniqueViolation
  else Ok (tt, set_spent <[key := row]> t).

(** [ORDER BY spent_at DESC, member_id DESC] *)
Definition newer (a b : (Uuid * string) * SpentRow) : Prop :=
  b.2.(sp_spent_at) < a.2.(sp_spent_at) ∨
  (b.2.(sp_spent_at) = a.2.(sp_spent_at) ∧ b.2.(sp_member_id) ≤ a.2.(sp_member_id)).

#[export] Instance newer_dec : RelDecision newer.
Proof. intros a b. unfold newer. apply _. Defined.

Definition family_proofs (t : Tables) (tenant_id family_id : Uuid)
    : list ((Uuid * string) * SpentRow) :=
  filter (fun p => p.1.1 = tenant_id ∧ p.2.(sp_token_family_id) = family_id)
    (map_to_list t.(spent)).

(** The [DELETE] of the proofs beyond the newest [limit]. *)
Definition trim_proofs (tenant_id family_id : Uuid) (limit : Z) (t : Tables) : Tables :=
  let excess := drop (Z.to_nat limit) (merge_sort newer (family_proofs t tenant_id family_id)) in
  set_spent (fun m => foldr (fun p m => delete p.1 m) m excess) t.

Definition rotated (token : NewRefreshToken) (row : RefreshFamilyRow) : RefreshFamilyRow :=
  {| fr_tenant_id := row.(fr_tenant_id); fr_token_family_id := row.(fr_token_family_id);
     fr_client_id := row.(fr_client_id); fr_user_id := row.(fr_user_id);
     fr_contract_blake3 := row.(fr_contract_blake3);
     fr_current_member_id := token.(nt_member_id);
     fr_current_token_blake3 := blake3_hash token.(nt_raw_token);
     fr_current_audience := strings_to_value token.(nt_audiences);
     fr_current_issued_at := timestamptz token.(nt_issued_at);
     fr_current_expires_at := timestamptz token.(nt_expires_at);
     fr_current_id_token_sid := token.(nt_id_token_sid);
     fr_dpop_jkt := row.(fr_dpop_jkt); fr_mtls_x5t_s256 := row.(fr_mtls_x5t_s256);
     fr_client_attestation_jkt := row.(fr_client_attestation_jkt);
     fr_revoked_at := row.(fr_revoked_at); fr_reuse_detected_at := row.(fr_reuse_detected_at) |}.

(** [diesel::update] of the current generation. *)
Definition update_current (token : NewRefreshToken) (t : Tables) : result (unit * Tables) DieselError :=
  let key := (token.(nt_tenant_id), token.(nt_family_id)) in
  match t.(families) !! key with
  | None => Ok (tt, t)
  | Some row => write_family key (rotated token row) t
  end.

(** The presented generation becomes a spent proof and the family adopts its
    successor. *)
Definition adopt_successor (clocks : Clocks) (client_type : string) (family : RefreshFamilyRow)
    (token : NewRefreshToken) : tx DieselError unit :=
  let! _ := execute (insert_spent (token.(nt_tenant_id), family.(fr_current_token_blake3))
    {| sp_token_family_id := token.(nt_family_id);
       sp_member_id := family.(fr_current_member_id);
       sp_successor_member_id := token.(nt_member_id);
       sp_spent_at := timestamptz clocks.(tx_transition_at);
       sp_expires_at := timestamptz family.(fr_current_expires_at) |}) in
  let! _ := match refresh_spent_proof_limit client_type family.(fr_dpop_jkt)
                    family.(fr_mtls_x5t_s256) with
    | Some limit => update (trim_proofs token.(nt_tenant_id) token.(nt_family_id) limit)
    | None => tx_ret tt
    end in
  execute (update_current token).

Definition rotate (clocks : Clocks) (client_type : string) (family : RefreshFamilyRow)
    (au : RefreshTokenAuthority) (token : NewRefreshToken)
    : tx DieselError RefreshTokenPersistResult :=
  let! valid := match token.(nt_lost_response_retry) with
    | None => tx_ret true
    | Some retry =>
        query (fun t => edge_valid retry
          (t.(spent) !! (token.(nt_tenant_id), retry.(lr_original_blake3))) au.(au_member_id))
    end in
  if negb valid then
    let! _ := compromise_family clocks token.(nt_tenant_id) token.(nt_family_id) in
    tx_ret PersistRotationConflict
  else
    let! _ := adopt_successor clocks client_type family token in
    tx_ret Inserted.

Definition use_existing (clocks : Clocks) (client_type : string) (au : RefreshTokenAuthority)
    (rotation : option NewRefreshToken) : tx DieselError RefreshTokenPersistResult :=
  let! _ := if is_some rotation then advisory_lock else tx_ret tt in
  let! _ := advisory_lock in
  let! locked := load_family au.(au_tenant_id) au.(au_family_id) in
  match locked with
  | None => tx_ret InvalidSource
  | Some (family, value) =>
      if is_some family.(fr_revoked_at) || is_some family.(fr_reuse_detected_at)
         || (family.(fr_current_expires_at) <=? clocks.(tx_transition_at))
      then tx_ret InvalidSource
      else
        let! value := tx_lift (ok_or value (deserialization_error
          (Consistency "refresh family references a missing contract"))) in
        let! contract := tx_lift (map_err deserialization_error (parse_contract value)) in
        if negb (source_matches family contract au) then
          if is_some rotation then
            let! _ := compromise_family clocks au.(au_tenant_id) au.(au_family_id) in
            tx_ret PersistRotationConflict
          else tx_ret InvalidSource
        else
          match rotation with
          | None => tx_ret Inserted
          | Some token => rotate clocks client_type family au token
          end
  end.

Definition persist_refresh_token_inner (clocks : Clocks) (refresh : RefreshTokenCommit)
    (client_type : string) (issuance_id : Uuid) (prepared : option PreparedRefreshContract)
    (native_sso_source : option NativeSsoSourceFence)
    : tx DieselError (RefreshTokenPersistResult * option RetiredNativeSsoSource) :=
  match refresh with
  | IssueNew token _ =>
      let! prepared := tx_lift (ok_or prepared (deserialization_error
        (Consistency "new refresh family has no prepared contract"))) in
      create clocks token prepared issuance_id native_sso_source
  | UseExisting au rotation =>
      let! result := use_existing clocks client_type au rotation in
      tx_ret (result, None)
  end.

Definition persist_refresh_token_on_connection (clocks : Clocks) (refresh : RefreshTokenCommit)
    (client_type : string) (issuance_id : Uuid) (prepared : option PreparedRefreshContract)
    (native_sso_source : option NativeSsoSourceFence)
    : tx RepositoryError (RefreshTokenPersistResult * option RetiredNativeSsoSource) :=
  tx_map_err map_error
    (persist_refresh_token_inner clocks refresh client_type issuance_id prepared native_sso_source).

(** *** Revocation *)

Definition access_token_revocation_deadline (expires_at : DateTime)
    : result DateTime RepositoryError :=
  ok_or (checked_add_signed expires_at (60 * NANOS))
    (Consistency "access-token revocation deadline is not representable").

(** [INSERT ... ON CONFLICT DO UPDATE SET expires_at = GREATEST(...) WHERE ...]
    of one row: the rows it changed. *)
Definition upsert_access_token_revocation (key : Uuid * string) (row : RevocationRow) (t : Tables)
    : Z * Tables :=
  match t.(revocations) !! key with
  | None => (1, set_revocations <[key := row]> t)
  | Some stored =>
      if stored.(rv_expires_at) <? row.(rv_expires_at) then
        (1, set_revocations <[key := {| rv_client_id := stored.(rv_client_id);
              rv_revoked_at := stored.(rv_revoked_at);
              rv_expires_at := Z.max stored.(rv_expires_at) row.(rv_expires_at) |}]> t)
      else (0, t)
  end.

Definition new_revocation (client_id : Uuid) (now deadline : DateTime) : RevocationRow :=
  {| rv_client_id := client_id; rv_revoked_at := timestamptz now;
     rv_expires_at := timestamptz deadline |}.

Definition revoke_row (at_ : DateTime) (row : RefreshFamilyRow) : RefreshFamilyRow :=
  with_revocation (Some at_) row.(fr_reuse_detected_at) row.

(** [diesel::update(families.filter(...).filter(revoked_at.is_null()))
    .set(revoked_at)]: the number of families it revoked. *)
Definition revocable (select : RefreshFamilyRow → bool) (row : RefreshFamilyRow) : bool :=
  select row && is_none row.(fr_revoked_at).

Definition revoke_families (select : RefreshFamilyRow → bool) (at_ : DateTime) (t : Tables)
    : Z * Tables :=
  (Z.of_nat (size (filter (fun p => revocable select p.2 = true) t.(families))),
   set_families (fmap (fun row => if revocable select row then revoke_row at_ row else row)) t).

(** [refresh_family_id_for_digest] *)
Definition refresh_family_id_for_digest (tenant_id client_id : Uuid) (digest : string) (t : Tables)
    : option Uuid :=
  match head (filter (fun row => row.(fr_tenant_id) = tenant_id
                ∧ row.(fr_current_token_blake3) = digest ∧ row.(fr_client_id) = client_id)
                (snd <$> map_to_list t.(families))) with
  | Some row => Some row.(fr_token_family_id)
  | None =>
      row ← t.(spent) !! (tenant_id, digest);
      family ← t.(families) !! (tenant_id, row.(sp_token_family_id));
      if family.(fr_client_id) =? client_id then Some row.(sp_token_family_id) else None
  end.

Definition of_family (tenant_id client_id family_id : Uuid) (row : RefreshFamilyRow) : bool :=
  (row.(fr_tenant_id) =? tenant_id) && (row.(fr_client_id) =? client_id)
  && (row.(fr_token_family_id) =? family_id).

Definition token_revoked_event (tenant_id : Uuid) (client_public_id token_hash : string)
    (updated : Z) (source_ip_hash : string) (now : DateTime) : AuditEvent :=
  {| ae_event_type := "token_revoked";
     ae_event_category := "token_lifecycle";
     ae_payload := json_object
       [("schema_version", JString SECURITY_AUDIT_SCHEMA_VERSION);
        ("event_category", JString "token_lifecycle");
        ("tenant_id", json_uuid tenant_id);
        ("client_id", JString client_public_id);
        ("token_hash", JString token_hash);
        ("updated", json_u64 updated);
        ("source_ip_hash", JString source_ip_hash)];
     ae_occurred_at := now |}.

Definition revoke_for_client_body (clocks : Clocks) (tenant_id client_id : Uuid)
    (raw_token : string) (access_token : option (AccessTokenRevocation * DateTime))
    (client_public_id source_ip_hash : string) : tx DieselError Z :=
  let! family_id := match access_token with
    | None => query (refresh_family_id_for_digest tenant_id client_id (blake3_hash raw_token))
    | Some _ => tx_ret None
    end in
  let! updated := match family_id with
    | Some family_id =>
        let! _ := advisory_lock in
        execute (fun t => Ok (revoke_families (of_family tenant_id client_id family_id)
                                clocks.(tx_started) t))
    | None =>
        match access_token with
        | Some (token, deadline) =>
            let! _ := execute (fun t => Ok (upsert_access_token_revocation
              (tenant_id, blake3_hex token.(ar_jti))
              (new_revocation client_id clocks.(tx_inserted) deadline) t)) in
            tx_ret 0
        | None => tx_ret 0
        end
    end in
  let! _ := append_fresh_security_audit_on_connection clocks.(tx_event_id)
    (token_revoked_event tenant_id client_public_id (blake3_hex raw_token) updated source_ip_hash
       clocks.(tx_audit_at)) in
  tx_ret updated.

Definition revoke_for_client_with_audit (connection : Connection) (clocks : Clocks)
    (tenant_id client_id : Uuid) (raw_token : string) (access_token : option AccessTokenRevocation)
    (client_public_id source_ip_hash : string) (t : Tables) : result Z RepositoryError * Tables :=
  match transpose ((fun token => map_ok (pair token)
          (access_token_revocation_deadline token.(ar_expires_at))) <$> access_token) with
  | Err e => (Err e, t)
  | Ok access_token =>
      if negb connection.(cn_available) then (Err Unavailable, t)
      else
        let '(r, t') := transaction id connection
          (revoke_for_client_body clocks tenant_id client_id raw_token access_token
             client_public_id source_ip_hash) t in
        (map_err map_error r, t')
  end.

(** *** Recovery *)

Record RecoveryInvalidation := {
  ri_state_epoch : Uuid;
  ri_not_before : DateTime;
  ri_revoked_refresh_tokens : Z;
}.

Inductive RecoveryInvalidationFailure :=
| RecoveryQuery (e : DieselError)
| RecoveryConflict
| UnsupportedCoverage.

(** [TenantContext::default_system().tenant_id] *)
Definition DEFAULT_TENANT_ID : Uuid := 1.

Definition insert_recovery (operation_id : Uuid) (row : RecoveryRow) (t : Tables)
    : result (unit * Tables) DieselError :=
  if is_some (t.(recoveries) !! operation_id) then Err UniqueViolation
  else Ok (tt, set_recoveries <[operation_id := row]> t).

Definition invalidate_body (operation_id : Uuid) (request_hash : string) (state_epoch : Uuid)
    (not_before completed_at : DateTime) : tx RecoveryInvalidationFailure RecoveryInvalidation :=
  let! _ := tx_map_err RecoveryQuery advisory_lock in
  let! stored := tx_map_err RecoveryQuery (query (fun t => t.(recoveries) !! operation_id)) in
  match stored with
  | Some row =>
      if negb (bool_decide (row.(rr_request_hash) = request_hash))
         || negb (row.(rr_tenant_id) =? DEFAULT_TENANT_ID)
         || negb (row.(rr_state_epoch) =? state_epoch)
      then tx_err RecoveryConflict
      else if negb (row.(rr_coverage_version) =? 1) then tx_err UnsupportedCoverage
      else tx_ret {| ri_state_epoch := row.(rr_state_epoch);
                     ri_not_before := row.(rr_not_before);
                     ri_revoked_refresh_tokens := row.(rr_revoked_refresh_tokens) |}
  | None =>
      let! used := tx_map_err RecoveryQuery (query (fun t =>
        existsb (fun p => (p.2.(rr_tenant_id) =? DEFAULT_TENANT_ID)
                          && (p.2.(rr_state_epoch) =? state_epoch)) (map_to_list t.(recoveries)))) in
      if used : bool then tx_err RecoveryConflict
      else
        let! revoked := tx_map_err RecoveryQuery (execute (fun t =>
          Ok (revoke_families (fun _ => true) (timestamptz completed_at) t))) in
        let! _ := tx_map_err RecoveryQuery (execute (insert_recovery operation_id
          {| rr_request_hash := request_hash;
             rr_tenant_id := DEFAULT_TENANT_ID;
             rr_state_epoch := state_epoch;
             rr_not_before := timestamptz not_before;
             rr_revoked_refresh_tokens := revoked;
             rr_completed_at := timestamptz completed_at;
             rr_coverage_version := 1 |})) in
        tx_ret {| ri_state_epoch := state_epoch; ri_not_before := not_before;
                  ri_revoked_refresh_tokens := revoked |}
  end.

Definition recovery_error (e : RecoveryInvalidationFailure) : RepositoryError :=
  match e with
  | RecoveryConflict => Conflict
  | UnsupportedCoverage => Consistency
      "recovery receipt has unsupported coverage; a new signed operation and epoch are required"
  | RecoveryQuery e => map_error e
  end.

Definition invalidate_after_restore (connection : Connection) (operation_id : Uuid)
    (request_hash : string) (state_epoch : Uuid) (not_before completed_at : DateTime) (t : Tables)
    : result RecoveryInvalidation RepositoryError * Tables :=
  if is_nil state_epoch
  then (Err (Consistency "recovery state epoch must not be nil"), t)
  else if negb (is_lower_sha256 request_hash)
  then (Err (Consistency "recovery request hash must be lowercase sha256 hex"), t)
  else if negb connection.(cn_available) then (Err Unavailable, t)
  else
    let '(r, t') := transaction RecoveryQuery connection
      (invalidate_body operation_id request_hash state_epoch not_before completed_at) t in
    (map_err recovery_error r, t').

End tokens.

(** ** [token_principals.rs] and [token_issuance.rs] *)
Section issuance.
Context `{D : Deployment}.

(** *** Principals *)

(** [snapshot] *)
Definition snapshot (tenant_id : Uuid) (client_epoch : Z) (user_id : option Uuid) (subject : string)
    (connection : Connection) (t : Tables) : result TokenPrincipalState RepositoryError :=
  let private_subject := is_some_and user_id (fun id => negb (bool_decide (subject = uuid_to_string id))) in
  let? p := map_err map_error (map_ok fst (query (fun t =>
    (us_access_token_epoch <$> (id ← user_id; t.(users) !! (tenant_id, id)),
     if private_subject then t.(bindings) !! (tenant_id, subject) else None)) connection.(cn_faults) t)) in
  let '(user_epoch, bound_user) := p in
  if is_some bound_user && negb (bool_decide (bound_user = user_id))
  then Err (Consistency "subject ownership collision")
  else Ok {| ps_client_epoch := client_epoch;
             ps_user_epoch := (fun _ => unwrap_or user_epoch 0) <$> user_id;
             ps_subject_bound := is_some bound_user |}.

(** [nazo_lock_token_principals]: the client's type, or which principal is not
    active at its epoch. *)
Definition nazo_lock_token_principals (input : CommitTokenIssuance) (t : Tables)
    : result string CommitTokenIssuanceResult :=
  match t.(clients) !! (input.(ci_tenant_id), input.(ci_client_id)) with
  | None => Err ClientInactive
  | Some client =>
      if negb client.(cl_is_active)
         || negb (client.(cl_access_token_epoch) =? input.(ci_principal_state).(ps_client_epoch))
      then Err ClientInactive
      else match input.(ci_user_id) with
      | None => Ok client.(cl_client_type)
      | Some user_id =>
          match t.(users) !! (input.(ci_tenant_id), user_id) with
          | None => Err SubjectInactive
          | Some user =>
              if negb user.(us_is_active)
                 || negb (bool_decide (Some user.(us_access_token_epoch)
                                       = input.(ci_principal_state).(ps_user_epoch)))
              then Err SubjectInactive
              else Ok client.(cl_client_type)
          end
      end
  end.

Definition lock_and_recheck (input : CommitTokenIssuance)
    : tx DieselError (result string CommitTokenIssuanceResult) :=
  query (nazo_lock_token_principals input).

Definition ensure_subject_binding (input : CommitTokenIssuance) : tx DieselError unit :=
  match input.(ci_user_id) with
  | None => tx_ret tt
  | Some user_id =>
      if bool_decide (input.(ci_subject) = uuid_to_string user_id)
         || input.(ci_principal_state).(ps_subject_bound)
      then tx_ret tt
      else
        let key := (input.(ci_tenant_id), input.(ci_subject)) in
        let! inserted := execute (fun t => Ok match t.(bindings) !! key with
          | None => (true, set_bindings <[key := user_id]> t)
          | Some _ => (false, t)
          end) in
        if inserted : bool then tx_ret tt
        else
          let! owner := query (fun t => t.(bindings) !! key) in
          match owner with
          | None => tx_err DieselNotFound
          | Some owner => if owner =? user_id then tx_ret tt else tx_err RollbackTransaction
          end
  end.

(** *** Validation *)

Definition AUTHORIZATION_CODE_PREFIX : string := "authorization_code:".
Definition AUTHORIZATION_CODE_V2_PREFIX : string := "authorization_code:v2:".

Definition validate_mode (mode : TokenIssuanceMode) : result unit RepositoryError :=
  if is_some_and (mode_grant mode) (fun '(grant_key, _) => negb (nonblank grant_key))
  then Err (Consistency "single-use token issuance grant key is empty")
  else match mode with
  | SingleUse grant_key _ =>
      if starts_with grant_key AUTHORIZATION_CODE_PREFIX
      then Err (Consistency "authorization codes require the code identity and holder contract")
      else Ok tt
  | AuthorizationCode code_identity _ _ =>
      if negb (starts_with code_identity AUTHORIZATION_CODE_V2_PREFIX)
      then Err (Consistency "authorization code identity is malformed")
      else Ok tt
  | Fresh => Ok tt
  end.

Definition validate_refresh_owner (input : CommitTokenIssuance) (refresh : RefreshTokenCommit)
    : result unit RepositoryError :=
  let? p := match refresh with
    | IssueNew token _ => Ok (token.(nt_tenant_id), token.(nt_client_id), token.(nt_user_id))
    | UseExisting au _ =>
        if negb (is_fresh input.(ci_mode))
        then Err (Consistency "refresh source cannot also redeem a single-use grant")
        else Ok (au.(au_tenant_id), au.(au_client_id), au.(au_user_id))
    end in
  let '(tenant_id, client_id, user_id) := p in
  if negb (tenant_id =? input.(ci_tenant_id))
     || negb (client_id =? input.(ci_client_id))
     || negb (bool_decide (user_id = input.(ci_user_id)))
     || negb (bool_decide ((commit_contract refresh).(ct_subject) = input.(ci_subject)))
  then Err (Consistency "refresh token owner or subject does not match token issuance")
  else Ok tt.

Definition validate_native_source (input : CommitTokenIssuance) (source : NativeSsoSourceFence)
    : result unit RepositoryError :=
  if negb (source.(ns_tenant_id) =? input.(ci_tenant_id))
     || negb (bool_decide (Some source.(ns_user_id) = input.(ci_user_id)))
     || is_nil source.(ns_family_id)
     || is_empty source.(ns_source_client_id)
     || negb (is_fresh input.(ci_mode))
     || negb (match input.(ci_refresh_token) with Some (IssueNew _ _) => true | _ => false end)
  then Err (Consistency "Native SSO source fence does not match destination issuance")
  else Ok tt.

Definition validate_commit_input (input : CommitTokenIssuance) : result DateTime RepositoryError :=
  if is_nil input.(ci_issuance_id)
     || is_nil input.(ci_tenant_id)
     || is_nil input.(ci_client_id)
     || negb (nonblank input.(ci_access_token_jti))
     || is_empty input.(ci_subject)
     || (255 <? chars_count input.(ci_subject))
     || (input.(ci_principal_state).(ps_client_epoch) <? 0)
     || is_some_and input.(ci_principal_state).(ps_user_epoch) (fun epoch => epoch <? 0)
     || negb (Bool.eqb (is_some input.(ci_principal_state).(ps_user_epoch))
                       (is_some input.(ci_user_id)))
  then Err (Consistency "token issuance commit input is malformed")
  else
    let? _ := validate_mode input.(ci_mode) in
    let expected_authorization_id :=
      unwrap_or (commit_family_id <$> input.(ci_refresh_token)) input.(ci_issuance_id) in
    if is_some_and input.(ci_authorization_id) (fun id => negb (id =? expected_authorization_id))
    then Err (Consistency "authorization reference does not match issuance source")
    else
      let? _ := match input.(ci_refresh_token) with
        | Some refresh => validate_refresh_owner input refresh
        | None => Ok tt
        end in
      let? _ := match input.(ci_native_sso_source) with
        | Some source => validate_native_source input source
        | None => Ok tt
        end in
      ok_or (from_timestamp input.(ci_access_token_expires_at))
        (Consistency "token issuance access-token expiry is invalid").

(** *** The commit *)

(** The source's errors, and the panic of [expect], which ends the task. *)
Inductive CommitTransactionError :=
| CommitDiesel (e : DieselError)
| CommitRepository (e : RepositoryError)
| CommitGrantExpired
| NativeSsoSourceUnavailable
| NativeSsoDependencyUnavailable
| CommitPanicked.

(** The fenced family of a native-SSO source: owned by the user and the client
    with the public identifier. *)
Definition native_source_row (source : NativeSsoSourceFence) (t : Tables) : option RefreshFamilyRow :=
  family ← t.(families) !! (source.(ns_tenant_id), source.(ns_family_id));
  client ← t.(clients) !! (source.(ns_tenant_id), family.(fr_client_id));
  if bool_decide (family.(fr_user_id) = Some source.(ns_user_id))
     && bool_decide (client.(cl_client_id) = source.(ns_source_client_id))
  then Some family else None.

Definition fence_native_sso_source (clocks : Clocks) (source : NativeSsoSourceFence)
    (retired : option RetiredNativeSsoSource) : tx CommitTransactionError unit :=
  let now := clocks.(tx_source_at) in
  match retired with
  | Some retired =>
      if (retired.(rs_tenant_id) =? source.(ns_tenant_id))
         && bool_decide (retired.(rs_user_id) = Some source.(ns_user_id))
         && (retired.(rs_token_family_id) =? source.(ns_family_id))
         && bool_decide (retired.(rs_source_client_id) = source.(ns_source_client_id))
         && (now <? retired.(rs_expires_at))
         && (now <? source.(ns_device_secret_expires_at))
      then tx_ret tt
      else tx_err NativeSsoSourceUnavailable
  | None =>
      let! state := tx_map_err (fun _ => NativeSsoDependencyUnavailable)
        (query (native_source_row source)) in
      if is_some_and state (fun family =>
           is_none family.(fr_revoked_at)
           && is_none family.(fr_reuse_detected_at)
           && (now <? family.(fr_current_expires_at))
           && (now <? source.(ns_device_secret_expires_at)))
      then tx_ret tt
      else tx_err NativeSsoSourceUnavailable
  end.

Definition token_issued_audit_event (clocks : Clocks) (input : CommitTokenIssuance)
    (refresh : option RefreshTokenCommit) : AuditEvent :=
  {| ae_event_type := "token_issued";
     ae_event_category := "token_lifecycle";
     ae_payload := json_object
       [("schema_version", JString SECURITY_AUDIT_SCHEMA_VERSION);
        ("tenant_id", json_uuid input.(ci_tenant_id));
        ("issuance_id", json_uuid input.(ci_issuance_id));
        ("event_category", JString "token_lifecycle");
        ("user_id", json_option json_uuid input.(ci_user_id));
        ("client_id", JString input.(ci_audit_fields).(af_client_id));
        ("subject_hash", JString input.(ci_audit_fields).(af_subject_hash));
        ("scope", JString input.(ci_audit_fields).(af_scope));
        ("audience", strings_to_value input.(ci_audit_fields).(af_audience));
        ("access_token_jti", JString input.(ci_access_token_jti));
        ("refresh_token_family_id", json_option json_uuid (commit_family_id <$> refresh));
        ("rotated_from_id", json_option json_uuid
           (refresh ← refresh; token ← commit_token refresh; token.(nt_rotated_from_id)))];
     ae_occurred_at := clocks.(tx_audit_at) |}.

Definition refresh_reuse_audit_event (clocks : Clocks) (input : CommitTokenIssuance)
    (refresh : NewRefreshToken) : AuditEvent :=
  {| ae_event_type := "refresh_reuse_detected";
     ae_event_category := "token_replay";
     ae_payload := json_object
       [("schema_version", JString SECURITY_AUDIT_SCHEMA_VERSION);
        ("tenant_id", json_uuid input.(ci_tenant_id));
        ("issuance_id", json_uuid input.(ci_issuance_id));
        ("event_category", JString "token_replay");
        ("client_id", JString input.(ci_audit_fields).(af_client_id));
        ("token_family_id", json_uuid refresh.(nt_family_id));
        ("rotated_from_id", json_option json_uuid refresh.(nt_rotated_from_id));
        ("source_token_id", json_option json_uuid
           (lr_original_id <$> refresh.(nt_lost_response_retry)))];
     ae_occurred_at := clocks.(tx_audit_at) |}.

(** [ON CONFLICT (client_id, single_use_key_blake3) DO NOTHING]: [None] when the
    key is used, otherwise whether the grant is still valid at the insertion. *)
Definition key_used (t : Tables) (client_id : Uuid) (digest : string) : bool :=
  existsb (fun p => (p.2.(ir_client_id) =? client_id)
    && bool_decide (p.2.(ir_single_use_key_blake3) = Some digest)) (map_to_list t.(issuances)).

Definition jti_used (t : Tables) (tenant_id : Uuid) (jti : string) : bool :=
  existsb (fun p => (p.2.(ir_tenant_id) =? tenant_id)
    && bool_decide (p.2.(ir_access_token_jti) = jti)) (map_to_list t.(issuances)).

Definition insert_single_use (clocks : Clocks) (input : CommitTokenIssuance) (digest : string)
    (grant_expires_at access_token_expires_at retain_until : DateTime) (t : Tables)
    : result (option bool * Tables) DieselError :=
  if key_used t input.(ci_client_id) digest then Ok (None, t)
  else if is_some (t.(issuances) !! input.(ci_issuance_id))
          || jti_used t input.(ci_tenant_id) input.(ci_access_token_jti)
  then Err UniqueViolation
  else Ok (Some (clocks.(tx_inserted) <? timestamptz grant_expires_at),
    set_issuances <[input.(ci_issuance_id) :=
      {| ir_tenant_id := input.(ci_tenant_id);
         ir_client_id := input.(ci_client_id);
         ir_user_id := None;
         ir_single_use_key_blake3 := Some digest;
         ir_access_token_jti := input.(ci_access_token_jti);
         ir_access_token_expires_at := timestamptz access_token_expires_at;
         ir_retain_until := timestamptz retain_until;
         ir_refresh_token_family_id := commit_family_id <$> input.(ci_refresh_token);
         ir_principal_epoch_bound := true;
         ir_receipt_contract_version := 2;
         ir_authorization_code_holder :=
           match input.(ci_mode) with
           | AuthorizationCode _ _ holder => Some (holder_to_value holder)
           | _ => None
           end |}]> t).

Definition delete_issuance (input : CommitTokenIssuance) (t : Tables) : Tables :=
  match t.(issuances) !! input.(ci_issuance_id) with
  | Some row =>
      if row.(ir_tenant_id) =? input.(ci_tenant_id)
      then set_issuances (delete input.(ci_issuance_id)) t else t
  | None => t
  end.

(** A used key or an expired grant ends the transaction. *)
Definition redeem_single_use (clocks : Clocks) (input : CommitTokenIssuance)
    (access_token_expires_at retain_until : DateTime) : tx CommitTransactionError bool :=
  match mode_grant input.(ci_mode) with
  | None => tx_ret true
  | Some (grant_key, grant_expires_at) =>
      let! inserted := tx_map_err CommitDiesel (execute (insert_single_use clocks input
        (blake3_hash grant_key) grant_expires_at access_token_expires_at retain_until)) in
      match inserted with
      | None => tx_ret false
      | Some false => tx_err CommitGrantExpired
      | Some true => tx_ret true
      end
  end.

(** What follows the refresh token: the subject binding, the native-SSO fence
    and the audit event. *)
Definition finish_commit (clocks : Clocks) (input : CommitTokenIssuance)
    (retired : option RetiredNativeSsoSource)
    : tx CommitTransactionError CommitTokenIssuanceResult :=
  let! _ := tx_map_err CommitDiesel (ensure_subject_binding input) in
  let! _ := match input.(ci_native_sso_source) with
    | Some source => fence_native_sso_source clocks source retired
    | None => tx_ret tt
    end in
  let! _ := tx_map_err CommitDiesel (append_fresh_security_audit_on_connection
    input.(ci_issuance_id) (token_issued_audit_event clocks input input.(ci_refresh_token))) in
  tx_ret Committed.

(** The reuse is committed: only this request's issuance row is dropped. *)
Definition commit_reuse (clocks : Clocks) (input : CommitTokenIssuance) (token : NewRefreshToken)
    : tx CommitTransactionError CommitTokenIssuanceResult :=
  let! _ := if is_fresh input.(ci_mode) then tx_ret tt
            else tx_map_err CommitDiesel (update (delete_issuance input)) in
  let! _ := tx_map_err CommitDiesel (append_fresh_security_audit_on_connection
    clocks.(tx_event_id) (refresh_reuse_audit_event clocks input token)) in
  tx_ret RotationConflict.

Definition commit_body (clocks : Clocks) (input : CommitTokenIssuance)
    (prepared : option PreparedRefreshContract) (access_token_expires_at retain_until : DateTime)
    : tx CommitTransactionError CommitTokenIssuanceResult :=
  let! fence := tx_map_err CommitDiesel (lock_and_recheck input) in
  match fence with
  | Err result => tx_ret result
  | Ok client_type =>
      let! unused := redeem_single_use clocks input access_token_expires_at retain_until in
      if negb unused then tx_ret AlreadyUsed
      else match input.(ci_refresh_token) with
      | None => finish_commit clocks input None
      | Some refresh =>
          let! persisted := tx_map_err CommitRepository
            (persist_refresh_token_on_connection clocks refresh client_type
               input.(ci_issuance_id) prepared input.(ci_native_sso_source)) in
          match persisted with
          | (Inserted, retired) => finish_commit clocks input retired
          | (InvalidSource, _) => tx_ret RefreshGrantUnavailable
          | (PersistRotationConflict, _) =>
              match commit_token refresh with
              | Some token => commit_reuse clocks input token
              | None => tx_err CommitPanicked
              end
          end
      end
  end.

Definition map_repository_error (e : RepositoryError) : TokenPortError :=
  match e with
  | Unavailable => TokenUnavailable
  | Conflict | AlreadyProcessed => TokenConflict
  | Consistency _ => TokenCorruptData
  | NotFound | Unexpected _ => TokenUnexpected
  end.

Definition map_diesel_error (e : DieselError) : TokenPortError :=
  match e with
  | UniqueViolation => TokenConflict
  | DieselNotFound => TokenCorruptData
  | _ => TokenUnexpected
  end.

(** What the outer boundary makes of the transaction's result. *)
Definition commit_outcome (r : result CommitTokenIssuanceResult CommitTransactionError)
    : result CommitTokenIssuanceResult TokenPortError :=
  match r with
  | Ok result => Ok result
  | Err CommitGrantExpired => Ok GrantExpired
  | Err NativeSsoSourceUnavailable => Ok RefreshGrantUnavailable
  | Err NativeSsoDependencyUnavailable => Err TokenUnavailable
  | Err CommitPanicked => Err TokenUnavailable
  | Err (CommitRepository e) => Err (map_repository_error e)
  | Err (CommitDiesel e) => Err (map_diesel_error e)
  end.

(** The checks and the preparation before a connection is taken: the prepared
    contract and the two deadlines. *)
Definition prepare_commit (input : CommitTokenIssuance)
    : result (option PreparedRefreshContract * DateTime * DateTime) TokenPortError :=
  let? access_token_expires_at := map_err map_repository_error (validate_commit_input input) in
  let? ownership_horizon := ok_or (checked_add_signed access_token_expires_at (60 * NANOS))
    TokenCorruptData in
  let retain_until := match mode_grant input.(ci_mode) with
    | None => ownership_horizon
    | Some (_, grant_expires_at) => Z.max ownership_horizon grant_expires_at
    end in
  let? prepared := map_err map_repository_error
    (transpose (prepare_refresh_contract <$> input.(ci_refresh_token))) in
  Ok (mjoin prepared, access_token_expires_at, retain_until).

(** [commit_token_issuance].  [lost] is the runtime ending before the task: the
    transaction has committed all the same or not. *)
Definition commit_token_issuance (connection : Connection) (lost : option bool) (clocks : Clocks)
    (input : CommitTokenIssuance) (t : Tables)
    : result CommitTokenIssuanceResult TokenPortError * Tables :=
  match prepare_commit input with
  | Err e => (Err e, t)
  | Ok (prepared, access_token_expires_at, retain_until) =>
      let '(r, t') :=
        if negb connection.(cn_available) then (Err TokenUnavailable, t)
        else
          let '(r, t') := transaction CommitDiesel connection
            (commit_body clocks input prepared access_token_expires_at retain_until) t in
          (commit_outcome r, t') in
      match lost with
      | None => (r, t')
      | Some committed => (Err TokenUnavailable, if committed then t' else t)
      end
  end.

(** The evidence of a redeemed grant, until its receipt's retention ends. *)
Definition single_use_redemption (connection : Connection) (tenant_id client_id : Uuid)
    (grant_key : string) (started : DateTime) (t : Tables)
    : result (option SingleUseRedemption) TokenPortError :=
  let? row := if negb connection.(cn_available) then Err TokenUnavailable
    else map_err map_diesel_error (map_ok fst (query (fun t =>
      head (filter (fun row => row.(ir_tenant_id) = tenant_id
        ∧ row.(ir_client_id) = client_id
        ∧ row.(ir_single_use_key_blake3) = Some (blake3_hash grant_key)
        ∧ started < row.(ir_retain_until)) (snd <$> map_to_list t.(issuances))))
      connection.(cn_faults) t)) in
  transpose ((fun row =>
    let? holder := transpose ((fun value => ok_or (from_persisted value) TokenCorruptData)
      <$> row.(ir_authorization_code_holder)) in
    Ok {| sr_authorization_code_holder := holder;
          sr_access_token_jti := row.(ir_access_token_jti);
          sr_access_token_expires_at := row.(ir_access_token_expires_at);
          sr_refresh_token_family_id := row.(ir_refresh_token_family_id) |}) <$> row).

End issuance.

(** ** The other writers of these tables *)
Section writers.
Context `{D : Deployment}.

(** *** [authorization.rs] *)

Definition revoke_issued_body (clocks : Clocks) (tenant_id client_id family_id : Uuid)
    (revocation : option ((Uuid * string) * RevocationRow)) : tx DieselError unit :=
  let! _ := advisory_lock in
  let! _ := match revocation with
    | Some (key, row) => execute (fun t => Ok (upsert_access_token_revocation key row t))
    | None => tx_ret 0
    end in
  let! _ := execute (fun t =>
    Ok (revoke_families (of_family tenant_id client_id family_id) clocks.(tx_started) t)) in
  tx_ret tt.

Definition revoke_issued_tokens (connection : Connection) (clocks : Clocks)
    (tenant_id client_id : Uuid) (access_token_jti : string)
    (access_token_expires_at : option DateTime) (refresh_token_family_id : option Uuid) (t : Tables)
    : result unit RepositoryError * Tables :=
  match transpose (access_token_revocation_deadline <$> access_token_expires_at) with
  | Err e => (Err e, t)
  | Ok deadline =>
      let revocation := (fun deadline => ((tenant_id, blake3_hex access_token_jti),
        new_revocation client_id clocks.(tx_inserted) deadline)) <$> deadline in
      let body := match refresh_token_family_id with
        | Some family_id => Some (revoke_issued_body clocks tenant_id client_id family_id revocation)
        | None =>
            (fun '(key, row) =>
              let! _ := execute (fun t => Ok (upsert_access_token_revocation key row t)) in
              tx_ret tt) <$> revocation
        end in
      match body with
      | None => (Ok tt, t)
      | Some body =>
          if negb connection.(cn_available) then (Err Unavailable, t)
          else let '(r, t') := transaction id connection body t in (map_err map_error r, t')
      end
  end.

(** *** Revocation of all families of a user, a client, or both: the statements
    of [users.rs], [scim.rs], [clients/mutation.rs], [grants.rs] and of the
    trigger [nazo_revoke_refresh_on_client_public] *)

Definition of_user (tenant_id user_id : Uuid) (row : RefreshFamilyRow) : bool :=
  (row.(fr_tenant_id) =? tenant_id) && bool_decide (row.(fr_user_id) = Some user_id).

Definition of_client (tenant_id client_id : Uuid) (row : RefreshFamilyRow) : bool :=
  (row.(fr_tenant_id) =? tenant_id) && (row.(fr_client_id) =? client_id).

Definition revoke_user_families (clocks : Clocks) (tenant_id user_id : Uuid) : Tables → Z * Tables :=
  revoke_families (of_user tenant_id user_id) clocks.(tx_started).

Definition revoke_client_families (clocks : Clocks) (tenant_id client_id : Uuid)
    : Tables → Z * Tables :=
  revoke_families (of_client tenant_id client_id) clocks.(tx_started).

Definition revoke_grant_families (clocks : Clocks) (tenant_id user_id client_id : Uuid)
    : Tables → Z * Tables :=
  revoke_families (in_scope tenant_id user_id client_id) clocks.(tx_started).

(** *** Reclaiming ([security_state.rs] and the SQL cleanup function)

    A batch takes due rows up to its limit and skips rows that others hold
    locked: which of the due rows it takes is an argument. *)

Definition CLEANUP_BATCH_LIMIT : nat := 256.

Definition batch {K A} `{Countable K} (chosen : list K) (due : A → bool) (m : gmap K A) : list K :=
  take CLEANUP_BATCH_LIMIT (filter (fun k => is_some_and (m !! k) due = true) chosen).

Definition delete_all {K A} `{Countable K} (keys : list K) (m : gmap K A) : gmap K A :=
  foldr delete m keys.

(** The first two statements of [nazo_oauth_cleanup_expired_security_state]. *)
Definition cleanup_issuances (cutoff : DateTime) (chosen : list Uuid) (t : Tables) : Tables :=
  set_issuances (delete_all
    (batch chosen (fun row => row.(ir_retain_until) <=? cutoff) t.(issuances))) t.

Definition cleanup_revocations (cutoff : DateTime) (chosen : list (Uuid * string)) (t : Tables)
    : Tables :=
  set_revocations (delete_all
    (batch chosen (fun row => row.(rv_expires_at) <=? cutoff) t.(revocations))) t.

Definition delete_expired_spent_proofs (clocks : Clocks) (chosen : list (Uuid * string)) (t : Tables)
    : Tables :=
  set_spent (delete_all
    (batch chosen (fun row => row.(sp_expires_at) <=? clocks.(tx_started)) t.(spent))) t.

Definition terminal (now : DateTime) (row : RefreshFamilyRow) : bool :=
  (row.(fr_current_expires_at) <=? now) || is_some row.(fr_revoked_at).

(** [delete_expired_refresh_families]: terminal families lose spent proofs up to
    the budget, and their row once no proof is left. *)
Definition has_proofs (t : Tables) (key : Uuid * Uuid) : bool :=
  negb (bool_decide (family_proofs t key.1 key.2 = [])).

Definition delete_expired_refresh_families (clocks : Clocks) (proof_budget : nat)
    (chosen : list (Uuid * Uuid)) (chosen_proofs : list (Uuid * string)) (t : Tables) : Tables :=
  let locked := batch chosen (terminal clocks.(tx_started)) t.(families) in
  let proofs := take proof_budget (filter (fun k => is_some_and (t.(spent) !! k) (fun row =>
    bool_decide ((k.1, row.(sp_token_family_id)) ∈ locked)) = true) chosen_proofs) in
  let t1 := set_spent (delete_all proofs) t in
  set_families (delete_all (filter (fun key => has_proofs t1 key = false) locked)) t1.

(** [delete_orphan_refresh_contracts]: the contracts of a page that no family
    references. *)
Definition referenced (t : Tables) (key : Uuid * string) : bool :=
  existsb (fun p => (p.2.(fr_tenant_id) =? key.1) && bool_decide (p.2.(fr_contract_blake3) = key.2))
    (map_to_list t.(families)).

Definition delete_orphan_refresh_contracts (page : list (Uuid * string)) (t : Tables) : Tables :=
  set_contracts (delete_all (filter (fun key => referenced t key = false)
    (take CLEANUP_BATCH_LIMIT page))) t.

End writers.
