(* ===== verification/PostgresTokensSteps.v ===== *)
(** * The histories of the token tables

    Every operation of [PostgresTokens] is decomposed into changes of the
    refresh-token and issuance tables ([change]): a family is revoked, created
    or rotated, a single-use grant is recorded, rows are reclaimed.  Histories
    of operations ([steps]) are then histories of changes, and an invariant of
    the tables is proved change by change. *)
From stdpp Require Import base list strings gmap sorting.
From S2P Require Import Prelude Chrono Postgres Text Json AuthorizationPolicy TokenModel.
From S2P Require Import PostgresTokens.

Local Open Scope rust_scope.
Local Open Scope list_scope.
Local Open Scope Z_scope.

(** ** Changes *)

Section changes.
Context `{D : Deployment}.

Definition same_tokens (t t' : Tables) : Prop :=
  contracts t' = contracts t ∧ families t' = families t ∧ spent t' = spent t ∧
  issuances t' = issuances t.

(** The row with revocation facts added; a fact that is there stays. *)
Definition revocation_of (row row' : RefreshFamilyRow) : Prop :=
  ∃ rv re, row' = with_revocation rv re row ∧
    (is_Some row.(fr_revoked_at) → rv = row.(fr_revoked_at)) ∧
    (is_Some row.(fr_reuse_detected_at) → re = row.(fr_reuse_detected_at)).

Inductive label :=
| LOther
| LRevoked
| LCreated (token : NewRefreshToken) (contract : RefreshContract)
| LRotated (token : NewRefreshToken) (source : RefreshTokenAuthority)
| LIssued (client_id : Uuid) (digest : string) (deadline : DateTime)
| LReclaimed.

Definition token_key (token : NewRefreshToken) : Uuid * Uuid :=
  (token.(nt_tenant_id), token.(nt_family_id)).

(** The spent proof that a rotation leaves. *)
Definition spent_proof (at_ : DateTime) (family : RefreshFamilyRow) (token : NewRefreshToken)
    : SpentRow :=
  {| sp_token_family_id := token.(nt_family_id);
     sp_member_id := family.(fr_current_member_id);
     sp_successor_member_id := token.(nt_member_id);
     sp_spent_at := timestamptz at_;
     sp_expires_at := timestamptz family.(fr_current_expires_at) |}.

Definition trimmed (limit : option Z) (token : NewRefreshToken) (t : Tables) : Tables :=
  match limit with
  | Some limit => trim_proofs token.(nt_tenant_id) token.(nt_family_id) limit t
  | None => t
  end.

(** One change of the token tables by an operation that runs between [lo] and
    [hi]. *)
Inductive change (lo hi : DateTime) : label → Tables → Tables → Prop :=
| change_other t t' : same_tokens t t' → change lo hi LOther t t'
| change_revoked t t' :
    contracts t' = contracts t → spent t' = spent t → issuances t' = issuances t →
    (∀ key, option_Forall2 revocation_of (families t !! key) (families t' !! key)) →
    change lo hi LRevoked t t'
| change_created t started token contract prepared :
    started ≤ hi →
    prepare_refresh_contract (IssueNew token contract) = Ok (Some prepared) →
    families t !! token_key token = None →
    digest_taken t (token_key token) token.(nt_tenant_id) (blake3_hash token.(nt_raw_token)) = false →
    (∀ user_id, token.(nt_user_id) = Some user_id →
      Z.of_nat (length (scope_families t token.(nt_tenant_id) user_id token.(nt_client_id) started))
      < MAX_ACTIVE_REFRESH_FAMILIES_PER_SCOPE) →
    change lo hi (LCreated token contract) t
      (set_families <[token_key token := new_family_row token prepared]>
         (nazo_oauth_refresh_contract_ensure token.(nt_tenant_id) prepared t))
| change_rotated t client_type family value contract au token :
    validate_refresh_commit (UseExisting au (Some token)) = Ok tt →
    families t !! token_key token = Some family →
    active_at hi family = true →
    contracts t !! (family.(fr_tenant_id), family.(fr_contract_blake3)) = Some value →
    contract_from_value value = Ok contract →
    source_matches family contract au = true →
    spent t !! (token.(nt_tenant_id), family.(fr_current_token_blake3)) = None →
    digest_taken t (token_key token) family.(fr_tenant_id) (blake3_hash token.(nt_raw_token)) = false →
    change lo hi (LRotated token au) t
      (set_families <[token_key token := rotated token family]>
         (trimmed (refresh_spent_proof_limit client_type family.(fr_dpop_jkt) family.(fr_mtls_x5t_s256))
            token
            (set_spent <[(token.(nt_tenant_id), family.(fr_current_token_blake3)) :=
                         spent_proof hi family token]> t)))
| change_issued t at_ issuance_id deadline row digest :
    lo ≤ at_ ≤ hi → at_ < timestamptz deadline →
    key_used t row.(ir_client_id) digest = false →
    row.(ir_single_use_key_blake3) = Some digest →
    (∃ r e, deadline ≤ r ∧ e ≤ r ∧ row.(ir_retain_until) = timestamptz r ∧
       row.(ir_access_token_expires_at) = timestamptz e) →
    issuances t !! issuance_id = None →
    change lo hi (LIssued row.(ir_client_id) digest deadline) t
      (set_issuances <[issuance_id := row]> t)
| reclaim_issuances t at_ keys :
    lo ≤ at_ ≤ hi →
    (∀ k, k ∈ keys → ∃ row, issuances t !! k = Some row ∧ row.(ir_retain_until) ≤ at_) →
    change lo hi LReclaimed t (set_issuances (delete_all keys) t)
| reclaim_spent t keys :
    (∀ k, k ∈ keys → ∃ row, spent t !! k = Some row ∧
      (row.(sp_expires_at) ≤ hi ∨
       ∃ family, families t !! (k.1, row.(sp_token_family_id)) = Some family ∧
                 terminal hi family = true)) →
    change lo hi LReclaimed t (set_spent (delete_all keys) t)
| reclaim_families t keys :
    (∀ k, k ∈ keys → has_proofs t k = false ∧
      ∃ family, families t !! k = Some family ∧ terminal hi family = true) →
    change lo hi LReclaimed t (set_families (delete_all keys) t)
| reclaim_contracts t keys :
    (∀ k, k ∈ keys → referenced t k = false) →
    change lo hi LReclaimed t (set_contracts (delete_all keys) t).

Inductive changes (lo hi : DateTime) : list label → Tables → Tables → Prop :=
| changes_nil t : changes lo hi [] t t
| changes_cons l ls t t1 t2 :
    change lo hi l t t1 → changes lo hi ls t1 t2 → changes lo hi (l :: ls) t t2.

Lemma changes_app lo hi ls1 ls2 t t1 t2 :
  changes lo hi ls1 t t1 → changes lo hi ls2 t1 t2 → changes lo hi (ls1 ++ ls2) t t2.
Proof. induction 1; simpl; [done|]. intros. econstructor; eauto. Qed.

Lemma changes_one lo hi l t t' : change lo hi l t t' → changes lo hi [l] t t'.
Proof. intros. econstructor; [done|constructor]. Qed.

(** ** Operations and histories *)

Inductive Operation :=
| OpCommit (connection : Connection) (lost : option bool) (clocks : Clocks)
    (input : CommitTokenIssuance)
| OpRevoke (connection : Connection) (clocks : Clocks) (tenant_id client_id : Uuid)
    (raw_token : string) (access_token : option AccessTokenRevocation)
    (client_public_id source_ip_hash : string)
| OpRevokeIssued (connection : Connection) (clocks : Clocks) (tenant_id client_id : Uuid)
    (access_token_jti : string) (access_token_expires_at : option DateTime)
    (refresh_token_family_id : option Uuid)
| OpInvalidate (connection : Connection) (operation_id : Uuid) (request_hash : string)
    (state_epoch : Uuid) (not_before completed_at : DateTime)
| OpRevokeUser (clocks : Clocks) (tenant_id user_id : Uuid)
| OpRevokeClient (clocks : Clocks) (tenant_id client_id : Uuid)
| OpRevokeGrant (clocks : Clocks) (tenant_id user_id client_id : Uuid)
| OpCleanupIssuances (cutoff : DateTime) (chosen : list Uuid)
| OpCleanupRevocations (cutoff : DateTime) (chosen : list (Uuid * string))
| OpDeleteProofs (clocks : Clocks) (chosen : list (Uuid * string))
| OpDeleteFamilies (clocks : Clocks) (proof_budget : nat) (chosen : list (Uuid * Uuid))
    (chosen_proofs : list (Uuid * string))
| OpDeleteContracts (page : list (Uuid * string))
| OpOthers (f : Tables → Tables).

Definition response : Type := option (result CommitTokenIssuanceResult TokenPortError).

(** [OpOthers] stands for the repositories of clients, users, subject bindings
    and the audit ledger, which leave the token tables alone. *)
Definition perform (op : Operation) (t : Tables) : response * Tables :=
  match op with
  | OpCommit c lost clocks input =>
      let '(r, t') := commit_token_issuance c lost clocks input t in (Some r, t')
  | OpRevoke c clocks tenant_id client_id raw_token access_token client_public_id source_ip_hash =>
      (None, (revoke_for_client_with_audit c clocks tenant_id client_id raw_token access_token
                client_public_id source_ip_hash t).2)
  | OpRevokeIssued c clocks tenant_id client_id jti expires_at family_id =>
      (None, (revoke_issued_tokens c clocks tenant_id client_id jti expires_at family_id t).2)
  | OpInvalidate c operation_id request_hash state_epoch not_before completed_at =>
      (None, (invalidate_after_restore c operation_id request_hash state_epoch not_before
                completed_at t).2)
  | OpRevokeUser clocks tenant_id user_id => (None, (revoke_user_families clocks tenant_id user_id t).2)
  | OpRevokeClient clocks tenant_id client_id =>
      (None, (revoke_client_families clocks tenant_id client_id t).2)
  | OpRevokeGrant clocks tenant_id user_id client_id =>
      (None, (revoke_grant_families clocks tenant_id user_id client_id t).2)
  | OpCleanupIssuances cutoff chosen => (None, cleanup_issuances cutoff chosen t)
  | OpCleanupRevocations cutoff chosen => (None, cleanup_revocations cutoff chosen t)
  | OpDeleteProofs clocks chosen => (None, delete_expired_spent_proofs clocks chosen t)
  | OpDeleteFamilies clocks proof_budget chosen chosen_proofs =>
      (None, delete_expired_refresh_families clocks proof_budget chosen chosen_proofs t)
  | OpDeleteContracts page => (None, delete_orphan_refresh_contracts page t)
  | OpOthers f => (None, f t)
  end.

Definition commit_timed (lo hi : DateTime) (clocks : Clocks) : Prop :=
  clocks.(tx_started) ≤ hi ∧ lo ≤ clocks.(tx_inserted) ≤ hi ∧ clocks.(tx_transition_at) = hi.

(** An operation between [lo] and [hi]: its clock readings come after those of
    the operations before it; its transaction may have started earlier.  The
    time of a commit is the one it reads when it holds its locks. *)
Definition timed (lo hi : DateTime) (op : Operation) : Prop :=
  lo ≤ hi ∧
  match op with
  | OpCommit _ _ clocks _ => commit_timed lo hi clocks
  | OpCleanupIssuances cutoff _ => lo ≤ cutoff ≤ hi
  | OpDeleteProofs clocks _ | OpDeleteFamilies clocks _ _ _ => clocks.(tx_started) ≤ hi
  | OpOthers f => ∀ t, same_tokens t (f t)
  | _ => True
  end.

Definition history : Type := list (Operation * response).

Inductive steps (now : DateTime) (t : Tables) : history → DateTime → Tables → Prop :=
| steps_nil : steps now t [] now t
| steps_snoc h now1 t1 op r now2 t2 :
    steps now t h now1 t1 → timed now1 now2 op → perform op t1 = (r, t2) →
    steps now t (h ++ [(op, r)]) now2 t2.

End changes.

(** ** The families of a scope *)

Section scope.
Context `{D : Deployment}.

Lemma length_filter_values {K A} `{Countable K} (P : A → Prop) `{!∀ a, Decision (P a)} (m : gmap K A) :
  length (filter P (snd <$> map_to_list m)) = size (filter (fun p => P p.2) m).
Proof.
  induction m as [|k a m Hk Hf IH] using map_first_key_ind.
  - by rewrite map_to_list_empty, map_filter_empty, map_size_empty.
  - rewrite map_to_list_insert_first_key by done. simpl. rewrite filter_cons.
    case_decide.
    + by rewrite map_filter_insert_True, map_size_insert_None, <- IH
        by (done || by apply map_lookup_filter_None; left).
    + by rewrite map_filter_insert_not' by naive_solver.
Qed.

Definition scope_keys (t : Tables) (tenant_id user_id client_id : Uuid) (now : DateTime)
    : gset (Uuid * Uuid) :=
  dom (filter (fun p => in_scope tenant_id user_id client_id p.2 && active_at now p.2 = true)
         t.(families)).

Lemma scope_families_size t tenant_id user_id client_id now :
  length (scope_families t tenant_id user_id client_id now) =
  size (scope_keys t tenant_id user_id client_id now).
Proof. unfold scope_families, scope_keys. by rewrite length_filter_values, size_dom. Qed.

Lemma elem_of_scope_keys t tenant_id user_id client_id now key :
  key ∈ scope_keys t tenant_id user_id client_id now ↔
  ∃ row, families t !! key = Some row ∧ in_scope tenant_id user_id client_id row = true ∧
         active_at now row = true.
Proof.
  unfold scope_keys. rewrite elem_of_dom. split.
  - intros [row [? ?]%map_lookup_filter_Some]. simpl in *. boolify. eauto.
  - intros (row & ? & Hs & Ha). exists row. apply map_lookup_filter_Some. simpl.
    by rewrite Hs, Ha.
Qed.

(** A revoked row is not active; a family does not become active by waiting. *)
Lemma revocation_refl row : revocation_of row row.
Proof. exists row.(fr_revoked_at), row.(fr_reuse_detected_at). by destruct row. Qed.

Lemma revocation_trans row1 row2 row3 :
  revocation_of row1 row2 → revocation_of row2 row3 → revocation_of row1 row3.
Proof.
  intros (rv & re & -> & H1 & H2) (rv' & re' & -> & H3 & H4); simpl in *.
  exists rv', re'. split; [done|]. split; intros H.
  - rewrite H1 in H3 by done. auto.
  - rewrite H2 in H4 by done. auto.
Qed.

Lemma revocation_active now row row' :
  revocation_of row row' → active_at now row' = true → active_at now row = true.
Proof.
  intros (rv & re & -> & H1 & H2) H. unfold active_at in *. simpl in *. boolify.
  destruct (fr_revoked_at row) as [r|]; [rewrite H1 in *; by eauto|].
  destruct (fr_reuse_detected_at row) as [r|]; [rewrite H2 in *; by eauto|].
  simpl. by apply Z.ltb_lt.
Qed.

Lemma active_earlier now now' row : now ≤ now' → active_at now' row = true → active_at now row = true.
Proof. unfold active_at. rewrite !andb_true_iff, !Z.ltb_lt. intros ? [[? ?] ?]. split_and!; [done..|lia]. Qed.

Lemma change_revoked_refl lo hi t t' : same_tokens t t' → change lo hi LRevoked t t'.
Proof.
  intros (? & Hf & ? & ?). constructor; [done..|]. intros key. rewrite Hf.
  destruct (families t !! key); constructor. apply revocation_refl.
Qed.

Lemma option_revocation_trans o1 o2 o3 :
  option_Forall2 revocation_of o1 o2 → option_Forall2 revocation_of o2 o3 →
  option_Forall2 revocation_of o1 o3.
Proof.
  intros H1 H2. inversion H1; subst; inversion H2; subst; constructor.
  eauto using revocation_trans.
Qed.

Lemma change_revoked_trans lo hi t1 t2 t3 :
  change lo hi LRevoked t1 t2 → change lo hi LRevoked t2 t3 → change lo hi LRevoked t1 t3.
Proof.
  inversion 1; inversion 1; subst. constructor; [congruence..|].
  eauto using option_revocation_trans.
Qed.

(** A map of the families that adds revocation facts. *)
Lemma change_revoked_set lo hi f t :
  (∀ key, option_Forall2 revocation_of (families t !! key) (f (families t) !! key)) →
  change lo hi LRevoked t (set_families f t).
Proof. by constructor. Qed.

Lemma revoked_insert_with lo hi t key row rv re :
  families t !! key = Some row → revocation_of row (with_revocation rv re row) →
  change lo hi LRevoked t (set_families <[key := with_revocation rv re row]> t).
Proof.
  intros Hrow Hrev. apply change_revoked_set. intros k. destruct (decide (k = key)) as [->|].
  - rewrite lookup_insert_eq, Hrow. by constructor.
  - rewrite lookup_insert_ne by done. destruct (families t !! k); constructor.
    apply revocation_refl.
Qed.

Lemma compromised_revocation at_ row : revocation_of row (compromised at_ row).
Proof.
  unfold compromised. destruct (fr_reuse_detected_at row) eqn:E; simpl; [apply revocation_refl|].
  eexists _, _. split; [done|]. split; [by destruct (fr_revoked_at row)|by rewrite E; intros []].
Qed.

Lemma revoke_row_revocation at_ row :
  is_none row.(fr_revoked_at) = true → revocation_of row (revoke_row at_ row).
Proof.
  intros H. eexists _, _. split; [done|]. split; [|done].
  destruct (fr_revoked_at row); [done|]. by intros [].
Qed.

End scope.

(** ** Creating a family *)

Section creating.
Context `{D : Deployment}.

(** The rows carry their keys. *)
Definition keys_ok (t : Tables) : Prop :=
  ∀ key row, families t !! key = Some row → key = (row.(fr_tenant_id), row.(fr_token_family_id)).

Lemma audit_event_same id event t b t' :
  nazo_persist_security_audit_event id event t = Ok (b, t') → same_tokens t t' ∧ clients t' = clients t.
Proof. unfold nazo_persist_security_audit_event. intros H. repeat case_match; simplify_eq; done. Qed.

Lemma append_fresh_same id event f t a f' t' :
  append_fresh_security_audit_on_connection id event f t = Ok (a, (f', t')) → same_tokens t t'.
Proof.
  unfold append_fresh_security_audit_on_connection, append_on_connection. intros H. tx_inv.
  destruct x; tx_inv. by eapply audit_event_same.
Qed.

Lemma retire_spec lo hi clocks token user_id issuance_id max native l ids retired t retired' t' :
  retire clocks token user_id issuance_id max native l ids retired t = Ok (retired', t') →
  change lo hi LRevoked t t' ∧
  ∀ victim row, victim ∈ l →
    families t' !! (token.(nt_tenant_id), victim.(fr_token_family_id)) = Some row →
    active_at clocks.(tx_started) row = false.
Proof.
  revert ids retired t. induction l as [|v l IH]; intros ids retired t; simpl.
  { intros [= <- <-]. split; [by apply change_revoked_refl|]. intros ? ? H. by apply elem_of_nil in H. }
  assert (Hkeep : ∀ t1 row1, families t1 !! (token.(nt_tenant_id), v.(fr_token_family_id)) = row1 →
    is_some_and row1 (active_at clocks.(tx_started)) = false → change lo hi LRevoked t1 t' →
    ∀ row, families t' !! (token.(nt_tenant_id), v.(fr_token_family_id)) = Some row →
    active_at clocks.(tx_started) row = false).
  { intros t1 row1 H1 Ha Hc row Hr. apply not_true_iff_false. intros Hact.
    inversion Hc as [| ? ? ? ? ? Hrel | | | | | | |]; subst. specialize (Hrel (nt_tenant_id token, fr_token_family_id v)).
    rewrite Hr in Hrel. inversion Hrel as [? ? Hx Hy|]; subst. rewrite <- Hy in Ha. simpl in Ha.
    eapply revocation_active in Hact; [|done]. congruence. }
  destruct (families t !! (nt_tenant_id token, fr_token_family_id v)) as [row|] eqn:Hrow.
  2: { intros H. destruct (IH _ _ _ H) as [Hc Hl]. split; [done|].
    intros victim row [->|?]%elem_of_cons; [|eauto].
    eapply Hkeep; [exact Hrow| |exact Hc]. done. }
  destruct (active_at (tx_started clocks) row) eqn:Ha.
  2: { intros H. destruct (IH _ _ _ H) as [Hc Hl]. split; [done|].
    intros victim row' [->|?]%elem_of_cons; [|eauto].
    eapply Hkeep; [exact Hrow| |exact Hc]. done. }
  destruct (nazo_persist_security_audit_event _ _ _) as [[[|] t2]|] eqn:He; [|done..].
  intros H. destruct (IH _ _ _ H) as [Hc Hl]. apply audit_event_same in He as [He _].
  assert (Hc2 : change lo hi LRevoked t t2).
  { eapply change_revoked_trans; [eapply revoked_insert_with; [exact Hrow|]|by apply change_revoked_refl].
    unfold active_at in Ha. boolify. eexists _, _. split; [done|]. split; [|done].
    destruct (fr_revoked_at row); [done|]. by intros []. }
  split; [by eapply change_revoked_trans|].
  intros victim row' [->|?]%elem_of_cons; [|eauto].
  eapply Hkeep; [|..|exact Hc]; [reflexivity|].
  destruct He as (_ & -> & _). simpl. by rewrite lookup_insert_eq.
Qed.

Definition row_key (row : RefreshFamilyRow) : Uuid * Uuid := (row.(fr_tenant_id), row.(fr_token_family_id)).

Lemma rows_NoDup t : keys_ok t → NoDup (row_key <$> (snd <$> map_to_list t.(families))).
Proof.
  intros Hk. rewrite <- list_fmap_compose.
  rewrite (list_fmap_ext _ fst (map_to_list (families t))).
  - apply NoDup_fst_map_to_list.
  - intros i [key row] Hi. apply list_elem_of_lookup_2, elem_of_map_to_list in Hi.
    simpl. symmetry. by apply Hk.
Qed.

Lemma elem_of_scope_families t tenant_id user_id client_id now row :
  row ∈ scope_families t tenant_id user_id client_id now ↔
  (∃ key, families t !! key = Some row) ∧ in_scope tenant_id user_id client_id row = true ∧
  active_at now row = true.
Proof.
  unfold scope_families. rewrite list_elem_of_filter, list_elem_of_fmap, andb_true_iff. split.
  - intros [[? ?] [[key row'] [-> Hin]]]. apply elem_of_map_to_list in Hin. eauto.
  - intros [[key Hkey] [? ?]]. split; [done|]. exists (key, row). split; [done|].
    by apply elem_of_map_to_list.
Qed.

Lemma victims_sublist t tenant_id user_id client_id now max :
  ∃ l, scope_families t tenant_id user_id client_id now ≡ₚ
       victims t tenant_id user_id client_id now max ++ l.
Proof.
  unfold victims. set (ranked := merge_sort _ _).
  exists (drop (Z.to_nat (Z.of_nat (length ranked) - (max - 1))) ranked). rewrite take_drop.
  symmetry. apply merge_sort_Permutation.
Qed.

Lemma victims_length t tenant_id user_id client_id now max :
  1 ≤ max →
  Z.of_nat (length (scope_families t tenant_id user_id client_id now))
  ≤ Z.of_nat (length (victims t tenant_id user_id client_id now max)) + (max - 1).
Proof.
  intros Hmax. unfold victims. set (ranked := merge_sort _ _).
  assert (length ranked = length (scope_families t tenant_id user_id client_id now)) as <-.
  { apply Permutation_length, merge_sort_Permutation. }
  rewrite length_take. lia.
Qed.

Lemma victims_keys t tenant_id user_id client_id now max :
  keys_ok t →
  let keys := row_key <$> victims t tenant_id user_id client_id now max in
  NoDup keys ∧ list_to_set keys ⊆ scope_keys t tenant_id user_id client_id now.
Proof.
  intros Hk keys. destruct (victims_sublist t tenant_id user_id client_id now max) as [l Hl].
  split.
  - assert (NoDup (row_key <$> scope_families t tenant_id user_id client_id now)) as Hnd.
    { eapply sublist_NoDup; [by apply rows_NoDup|]. apply fmap_sublist, sublist_filter. }
    rewrite Hl, fmap_app in Hnd. by apply NoDup_app in Hnd as [? _].
  - intros key Hkey%elem_of_list_to_set. apply list_elem_of_fmap in Hkey as [row [-> Hrow]].
    assert (row ∈ scope_families t tenant_id user_id client_id now) as Hin.
    { rewrite Hl. set_solver. }
    apply elem_of_scope_families in Hin as [[key Hkey] [? ?]].
    apply elem_of_scope_keys. exists row. unfold row_key. rewrite <- (Hk _ _ Hkey). eauto.
Qed.

Lemma in_scope_tenant tenant_id user_id client_id row :
  in_scope tenant_id user_id client_id row = true → row.(fr_tenant_id) = tenant_id.
Proof. unfold in_scope. intros. by boolify. Qed.

(** Retiring the victims leaves room for a new family. *)
Lemma retire_capacity clocks token user_id issuance_id max native ids retired t retired' t' :
  let count t := length (scope_families t token.(nt_tenant_id) user_id token.(nt_client_id)
                           clocks.(tx_started)) in
  keys_ok t → 1 ≤ max →
  retire clocks token user_id issuance_id max native
    (victims t token.(nt_tenant_id) user_id token.(nt_client_id) clocks.(tx_started) max)
    ids retired t = Ok (retired', t') →
  Z.of_nat (count t') < max.
Proof.
  intros count Hk Hmax H. apply (retire_spec 0 0) in H as [Hc Hv].
  set (tenant_id := nt_tenant_id token) in *. set (client_id := nt_client_id token) in *.
  set (now := tx_started clocks) in *.
  set (l := victims t tenant_id user_id client_id now max) in *.
  destruct (victims_keys t tenant_id user_id client_id now max Hk) as [Hnd Hsub].
  pose proof (victims_length t tenant_id user_id client_id now max Hmax) as Hlen.
  fold l in Hnd, Hsub, Hlen.
  assert (scope_keys t' tenant_id user_id client_id now ⊆
    scope_keys t tenant_id user_id client_id now ∖ list_to_set (row_key <$> l)) as Hle.
  { intros key (row' & Hrow' & Hs & Ha)%elem_of_scope_keys.
    inversion Hc as [| ? ? ? ? ? Hrel | | | | | | |]; subst.
    specialize (Hrel key). rewrite Hrow' in Hrel. inversion Hrel as [row ? Hrev Hrow|]; subst.
    apply elem_of_difference. split.
    - apply elem_of_scope_keys. exists row. split; [done|]. split; [|by eapply revocation_active].
      by destruct Hrev as (? & ? & -> & _).
    - intros Hkey%elem_of_list_to_set. apply list_elem_of_fmap in Hkey as [v [-> Hin]].
      enough (active_at now row' = false) by congruence. apply (Hv v); [done|].
      enough (tenant_id = fr_tenant_id v) as -> by done.
      destruct (victims_sublist t tenant_id user_id client_id now max) as [l' Hl'].
      assert (v ∈ scope_families t tenant_id user_id client_id now) as Hvs
        by (rewrite Hl'; set_solver).
      apply elem_of_scope_families in Hvs as [_ [Hvs _]]. symmetry. by eapply in_scope_tenant. }
  apply subseteq_size in Hle. rewrite size_difference in Hle by done.
  rewrite size_list_to_set, length_fmap in Hle by done.
  unfold count. rewrite scope_families_size in *. lia.
Qed.

Lemma ensure_families tenant_id prepared t :
  families (nazo_oauth_refresh_contract_ensure tenant_id prepared t) = families t.
Proof. unfold nazo_oauth_refresh_contract_ensure. by case_match. Qed.

Lemma digest_taken_families t t' key tenant_id digest :
  families t' = families t → digest_taken t' key tenant_id digest = digest_taken t key tenant_id digest.
Proof. unfold digest_taken. by intros ->. Qed.

Lemma compromise_change lo hi at_ key t :
  change lo hi LRevoked t (set_families (alter (compromised at_) key) t).
Proof.
  apply change_revoked_set. intros k. destruct (decide (k = key)) as [->|].
  - rewrite lookup_alter_eq. destruct (families t !! key); constructor.
    apply compromised_revocation.
  - rewrite lookup_alter_ne by done. destruct (families t !! k); constructor.
    apply revocation_refl.
Qed.

Lemma nazo_create_changes lo hi clocks token contract prepared issuance_id native t outcome ret t' :
  keys_ok t → clocks.(tx_started) ≤ hi →
  prepare_refresh_contract (IssueNew token contract) = Ok (Some prepared) →
  nazo_create_refresh_family clocks token prepared MAX_ACTIVE_REFRESH_FAMILIES_PER_SCOPE
    issuance_id native t = Ok (outcome, ret, t') →
  match outcome with
  | CreateConflict =>
      is_Some (families t !! token_key token) ∧
      t' = set_families (alter (compromised clocks.(tx_started)) (token_key token)) t
  | CreateInserted => changes lo hi [LRevoked; LCreated token contract] t t'
  end.
Proof.
  intros Hk Hs Hp. unfold nazo_create_refresh_family. fold (token_key token). simpl.
  destruct (families t !! token_key token) as [row|] eqn:Hkey; simpl.
  { intros [= <- <- <-]. by split; [eexists|]. }
  set (p := match nt_user_id token with Some _ => _ | None => _ end).
  destruct p as [[r t1]|] eqn:Hr; [|done]. simpl. unfold write_family.
  destruct (digest_taken _ _ _ _) eqn:Hd; [done|]. intros [= <- <- <-]. subst p.
  assert (change lo hi LRevoked t t1) as Hc.
  { case_match; [by apply (retire_spec lo hi) in Hr as [? _]|]. simplify_eq. by apply change_revoked_refl. }
  apply (changes_cons _ _ _ _ _ t1); [exact Hc|]. apply changes_one.
  simpl in Hd. erewrite (digest_taken_families t1) in Hd by apply ensure_families.
  econstructor; [exact Hs|exact Hp| |exact Hd|].
  - inversion Hc as [| ? ? ? ? ? Hrel | | | | | | |]; subst. specialize (Hrel (token_key token)).
    rewrite Hkey in Hrel. by inversion Hrel.
  - intros user_id Hu. rewrite Hu in Hr. by eapply retire_capacity in Hr.
Qed.

End creating.

(** ** Using a family *)

Section source.
Context `{D : Deployment}.

Lemma validate_replacement au token :
  validate_refresh_commit (UseExisting au (Some token)) = Ok tt →
  replacement_preserves au token = true ∧ valid_new_token au.(au_contract) token = true.
Proof.
  unfold validate_refresh_commit. simpl. intros H.
  destruct (_ || _) in H; [done|]. destruct (_ || _) in H; [done|].
  destruct (replacement_preserves au token); [|done]. simpl in H.
  by destruct (valid_new_token _ _).
Qed.

Lemma replacement_key au token :
  replacement_preserves au token = true → token_key token = (au.(au_tenant_id), au.(au_family_id)).
Proof. unfold replacement_preserves, token_key. intros. boolify. congruence. Qed.

Lemma adopt_successor_Ok clocks client_type family token f t a f' t' :
  adopt_successor clocks client_type family token f t = Ok (a, (f', t')) →
  families t !! token_key token = Some family →
  spent t !! (token.(nt_tenant_id), family.(fr_current_token_blake3)) = None ∧
  digest_taken t (token_key token) family.(fr_tenant_id) (blake3_hash token.(nt_raw_token)) = false ∧
  t' = set_families <[token_key token := rotated token family]>
         (trimmed (refresh_spent_proof_limit client_type family.(fr_dpop_jkt) family.(fr_mtls_x5t_s256))
            token
            (set_spent <[(token.(nt_tenant_id), family.(fr_current_token_blake3)) :=
                         spent_proof clocks.(tx_transition_at) family token]> t)).
Proof.
  unfold adopt_successor. intros H Hf. tx_inv.
  match goal with H : insert_spent _ _ _ = Ok _ |- _ => rename H into Hins end.
  match goal with H : update_current _ _ = Ok _ |- _ => rename H into Hupd end.
  unfold insert_spent in Hins. destruct (spent t !! _) eqn:Hsp; simpl in Hins; simplify_eq.
  match type of Hupd with update_current _ ?x = _ => set (t1 := x) in * end.
  assert (t1 = trimmed (refresh_spent_proof_limit client_type (fr_dpop_jkt family)
    (fr_mtls_x5t_s256 family)) token (set_spent <[(nt_tenant_id token,
      fr_current_token_blake3 family) := spent_proof (tx_transition_at clocks) family token]> t)) as Ht1.
  { case_match; simpl; tx_inv; done. }
  assert (families t1 = families t) as Hfam.
  { rewrite Ht1. by destruct (refresh_spent_proof_limit _ _ _). }
  clearbody t1.
  unfold update_current in Hupd. fold (token_key token) in Hupd. rewrite Hfam, Hf in Hupd.
  unfold write_family in Hupd. rewrite (digest_taken_families t) in Hupd by done. simpl in Hupd.
  destruct (digest_taken _ _ _ _) eqn:Hd; simplify_eq. done.
Qed.

Definition authority_key (au : RefreshTokenAuthority) : Uuid * Uuid :=
  (au.(au_tenant_id), au.(au_family_id)).

(** The source facts under which a commit uses a family. *)
Definition usable (at_ : DateTime) (au : RefreshTokenAuthority) (t : Tables) : Prop :=
  ∃ family value contract,
    families t !! authority_key au = Some family ∧ active_at at_ family = true ∧
    contracts t !! (family.(fr_tenant_id), family.(fr_contract_blake3)) = Some value ∧
    contract_from_value value = Ok contract ∧ source_matches family contract au = true.

(** A rotation that repeats a lost response names the digest of a token whose
    spent proof leads to the presented member, not long before the retry. *)
Definition retry_valid (au : RefreshTokenAuthority) (rotation : option NewRefreshToken) (t : Tables)
    : Prop :=
  ∀ token retry, rotation = Some token → token.(nt_lost_response_retry) = Some retry →
    ∃ row, spent t !! (token.(nt_tenant_id), retry.(lr_original_blake3)) = Some row ∧
      row.(sp_successor_member_id) = au.(au_member_id) ∧
      row.(sp_spent_at) ≤ retry.(lr_retry_started_at)
        ≤ row.(sp_spent_at) + LOST_REFRESH_TOKEN_RETRY_SECONDS * NANOS.

(** Why a rotation is in conflict: a new family's key is taken; an active family
    is not at the member that the request presents. *)
Definition conflicting (at_ : DateTime) (refresh : RefreshTokenCommit) (t : Tables) : Prop :=
  match refresh with
  | IssueNew token _ => is_Some (families t !! token_key token)
  | UseExisting au rotation =>
      (∃ family, families t !! authority_key au = Some family ∧ active_at at_ family = true) ∧
      ¬ (usable at_ au t ∧ retry_valid au rotation t)
  end.

Lemma edge_valid_spec retry edge member_id :
  edge_valid retry edge member_id = true ↔
  ∃ row, edge = Some row ∧ row.(sp_successor_member_id) = member_id ∧
    row.(sp_spent_at) ≤ retry.(lr_retry_started_at)
      ≤ row.(sp_spent_at) + LOST_REFRESH_TOKEN_RETRY_SECONDS * NANOS.
Proof.
  unfold edge_valid. destruct edge as [row|]; simpl; [|naive_solver].
  rewrite !andb_true_iff, Z.eqb_eq, !Z.leb_le. split.
  - intros ((<- & ?) & ?). exists row. split_and!; [done..|lia|lia].
  - intros (row' & [= <-] & <- & ?). split_and!; [done|lia|lia].
Qed.

Lemma parse_contract_Ok value contract :
  parse_contract value = Ok contract ↔ contract_from_value value = Ok contract.
Proof. unfold parse_contract. destruct (contract_from_value value); simpl; naive_solver. Qed.

Lemma active_at_alt at_ row :
  is_some row.(fr_revoked_at) || is_some row.(fr_reuse_detected_at)
    || (row.(fr_current_expires_at) <=? at_) = negb (active_at at_ row).
Proof.
  unfold active_at, is_none. destruct (is_some (fr_revoked_at row)), (is_some (fr_reuse_detected_at row));
    simpl; try done. by rewrite Z.ltb_antisym, negb_involutive.
Qed.

Lemma rotate_Ok clocks client_type family au token f t res f' t' :
  rotate clocks client_type family au token f t = Ok (res, (f', t')) →
  (res = PersistRotationConflict ∧ ¬ retry_valid au (Some token) t ∧
   t' = set_families (alter (compromised clocks.(tx_started)) (token_key token)) t) ∨
  (res = Inserted ∧ retry_valid au (Some token) t ∧
   ∃ a f1, adopt_successor clocks client_type family token f1 t = Ok (a, (f', t'))).
Proof.
  unfold rotate. intros H. tx_inv.
  destruct (nt_lost_response_retry token) as [retry|] eqn:Hretry; tx_inv; simpl in *.
  - destruct (edge_valid _ _ _) eqn:He; simpl in *; tx_inv.
    + apply edge_valid_spec in He. right. split; [done|]. split; [|eauto].
      intros ? ? [= <-] ?. by simplify_eq.
    + unfold compromise_family in *. tx_inv. left. split; [done|]. split; [|done].
      intros Hv. specialize (Hv _ _ eq_refl Hretry). apply edge_valid_spec in Hv. congruence.
  - tx_inv. right. split; [done|]. split; [|eauto]. intros ? ? [= <-] ?. congruence.
Qed.

Lemma use_existing_Ok lo hi clocks client_type au rotation f t res f' t' :
  validate_refresh_commit (UseExisting au rotation) = Ok tt →
  clocks.(tx_transition_at) = hi →
  use_existing clocks client_type au rotation f t = Ok (res, (f', t')) →
  match res with
  | InvalidSource => t' = t
  | Inserted =>
      (usable clocks.(tx_transition_at) au t ∧ retry_valid au rotation t) ∧
      match rotation with
      | None => t' = t
      | Some token => change lo hi (LRotated token au) t t'
      end
  | PersistRotationConflict =>
      is_Some rotation ∧ conflicting clocks.(tx_transition_at) (UseExisting au rotation) t ∧
      t' = set_families (alter (compromised clocks.(tx_started)) (authority_key au)) t
  end.
Proof.
  intros Hval Ht H. unfold use_existing in H. tx_inv.
  match goal with H : (if is_some rotation then _ else _) _ _ = Ok (_, (_, ?x)) |- _ =>
    assert (x = t) as -> by (destruct (is_some rotation); tx_inv; done); clear H end.
  unfold load_family in *. tx_inv. fold (authority_key au) in *.
  destruct (families t !! authority_key au) as [family|] eqn:Hfam; simpl in *; [|by tx_inv].
  rewrite active_at_alt in *. destruct (active_at _ family) eqn:Hact; simpl in *; [|by tx_inv].
  tx_inv. rewrite map_err_Ok, parse_contract_Ok, ok_or_Ok in *.
  match goal with H : (if negb (source_matches family ?c au) then _ else _) _ _ = _ |- _ =>
    destruct (source_matches family c au) eqn:Hsrc; simpl in H end.
  2: { destruct rotation; simpl in *; unfold compromise_family in *; tx_inv; [|done].
    split; [eauto|]. split; [|done]. split; [eauto|].
    intros [(family' & value' & contract' & ? & _ & ? & ? & ?) _]. simplify_eq. congruence. }
  assert (usable (tx_transition_at clocks) au t) as Hu by (do 3 eexists; eauto).
  destruct rotation as [token|]; [|tx_inv; done].
  destruct (validate_replacement _ _ Hval) as [Hrep _]. apply replacement_key in Hrep.
  fold (authority_key au) in Hrep.
  match goal with H : rotate _ _ _ _ _ _ _ = _ |- _ => apply rotate_Ok in H as [(-> & Hnot & ->)|(-> & Hretry & ? & ? & H)] end.
  - rewrite <- Hrep. split; [eauto|]. split; [|done]. split; [rewrite <- Hrep in Hfam; eauto|]. tauto.
  - split; [done|]. rewrite <- Hrep in Hfam.
    match goal with H : adopt_successor _ _ _ _ _ _ = _ |- _ =>
      apply adopt_successor_Ok in H as (? & ? & ->); [|done] end.
    eapply change_rotated; eauto.
Qed.

End source.

(** ** Committing an issuance *)

Section committing.
Context `{D : Deployment}.

Lemma transpose_Ok {A E} (o : option (result A E)) v :
  transpose o = Ok v → match o with None => v = None | Some r => ∃ a, r = Ok a ∧ v = Some a end.
Proof. destruct o as [[|]|]; simpl; naive_solver. Qed.

Lemma validate_commit_input_Ok input expires_at :
  validate_commit_input input = Ok expires_at →
  match input.(ci_refresh_token) with
  | Some refresh => validate_refresh_owner input refresh = Ok tt
  | None => True
  end.
Proof.
  unfold validate_commit_input. intros H. destruct (_ || _) in H; [done|].
  destruct (validate_mode _); [|done]. destruct (is_some_and _ _) in H; [done|].
  destruct (ci_refresh_token input) as [refresh|]; [|done].
  by destruct (validate_refresh_owner input refresh) as [[]|].
Qed.

Lemma validate_owner_fresh input au rotation :
  validate_refresh_owner input (UseExisting au rotation) = Ok tt → is_fresh input.(ci_mode) = true.
Proof. unfold validate_refresh_owner. by destruct (is_fresh _). Qed.

(** What the preparation of a commit has checked. *)
Lemma prepare_commit_Ok input prepared expires_at retain_until :
  prepare_commit input = Ok (prepared, expires_at, retain_until) →
  validate_commit_input input = Ok expires_at ∧ expires_at ≤ retain_until ∧
  (∀ key deadline, mode_grant input.(ci_mode) = Some (key, deadline) → deadline ≤ retain_until) ∧
  match input.(ci_refresh_token) with
  | None => prepared = None
  | Some refresh => prepare_refresh_contract refresh = Ok prepared
  end.
Proof.
  unfold prepare_commit. destruct (validate_commit_input input) as [e|] eqn:Hv; [|done]. simpl.
  destruct (checked_add_signed e _) as [horizon|] eqn:Hh; [|done]. simpl.
  destruct (transpose _) as [p|] eqn:Hp; [|done]. simpl. intros [= <- <- <-].
  split; [done|]. split; [|split; [intros ? ? ->; lia|]].
  { unfold checked_add_signed, NANOS in Hh. case_match; simplify_eq. case_match; [case_match|]; lia. }
  apply transpose_Ok in Hp.
  destruct (ci_refresh_token input); simpl in *; [|by subst].
  by destruct Hp as (a & Ha & ->).
Qed.

Lemma prepare_contract_new token contract prepared :
  prepare_refresh_contract (IssueNew token contract) = Ok prepared → is_Some prepared.
Proof. unfold prepare_refresh_contract. intros. repeat case_match; simplify_eq; eauto. Qed.

Lemma prepare_contract_existing au rotation prepared :
  prepare_refresh_contract (UseExisting au rotation) = Ok prepared →
  validate_refresh_commit (UseExisting au rotation) = Ok tt.
Proof.
  unfold prepare_refresh_contract. destruct (validate_refresh_commit _) as [[]|] eqn:E; [|done].
  done.
Qed.

Lemma redeem_Ok lo hi clocks input expires_at retain_until f t unused f' t' :
  expires_at ≤ retain_until →
  (∀ key deadline, mode_grant input.(ci_mode) = Some (key, deadline) → deadline ≤ retain_until) →
  lo ≤ clocks.(tx_inserted) ≤ hi →
  redeem_single_use clocks input expires_at retain_until f t = Ok (unused, (f', t')) →
  match mode_grant input.(ci_mode) with
  | None => unused = true ∧ t' = t
  | Some (key, deadline) =>
      (unused = false ∧ t' = t) ∨
      (unused = true ∧
       change lo hi (LIssued input.(ci_client_id) (blake3_hash key) deadline) t t' ∧
       ∃ row, row.(ir_tenant_id) = input.(ci_tenant_id) ∧
         t' = set_issuances <[input.(ci_issuance_id) := row]> t ∧
         issuances t !! input.(ci_issuance_id) = None)
  end.
Proof.
  intros Hexp Hret Ht. unfold redeem_single_use.
  destruct (mode_grant (ci_mode input)) as [[key deadline]|]; [|intros H; by tx_inv].
  intros H. tx_inv.
  match goal with H : insert_single_use _ _ _ _ _ _ _ = Ok _ |- _ =>
    unfold insert_single_use in H; rename H into Hi end.
  destruct (key_used t _ _) eqn:Hu; simplify_eq; [tx_inv; by left|].
  destruct (is_some (issuances t !! _)) eqn:Hid; [done|]. simpl in Hi.
  destruct (jti_used t _ _); simplify_eq.
  destruct (tx_inserted clocks <? timestamptz deadline) eqn:Hd; tx_inv.
  right. split; [done|]. assert (issuances t !! ci_issuance_id input = None) as Hnone.
  { by destruct (issuances t !! ci_issuance_id input). }
  split; [|by eexists; split; [|split; [reflexivity|]]]. apply Z.ltb_lt in Hd.
  eapply (change_issued _ _ t (tx_inserted clocks) (ci_issuance_id input) deadline (Build_IssuanceRow _ _ _ _ _ _ _ _ _ _ _)); simpl; try done.
  exists retain_until, expires_at. eauto.
Qed.

Lemma ensure_binding_same input f t a f' t' :
  ensure_subject_binding input f t = Ok (a, (f', t')) → same_tokens t t'.
Proof.
  unfold ensure_subject_binding. intros H. repeat (case_match; tx_inv); simplify_eq; done.
Qed.

Lemma fence_same clocks source retired f t a f' t' :
  fence_native_sso_source clocks source retired f t = Ok (a, (f', t')) → t' = t.
Proof.
  unfold fence_native_sso_source. intros H. repeat (case_match; tx_inv); simplify_eq; done.
Qed.

Lemma same_tokens_refl t : same_tokens t t.
Proof. done. Qed.

Lemma same_tokens_trans t1 t2 t3 : same_tokens t1 t2 → same_tokens t2 t3 → same_tokens t1 t3.
Proof. unfold same_tokens. intros (?&?&?&?) (?&?&?&?). split_and!; congruence. Qed.

Lemma finish_Ok clocks input retired f t r f' t' :
  finish_commit clocks input retired f t = Ok (r, (f', t')) → r = Committed ∧ same_tokens t t'.
Proof.
  unfold finish_commit. intros H. tx_inv. split; [done|].
  repeat match goal with
  | H : ensure_subject_binding _ _ _ = Ok _ |- _ => apply ensure_binding_same in H
  | H : append_fresh_security_audit_on_connection _ _ _ _ = Ok _ |- _ => apply append_fresh_same in H
  end.
  destruct (ci_native_sso_source input); tx_inv;
    [match goal with H : fence_native_sso_source _ _ _ _ _ = Ok _ |- _ => apply fence_same in H end|];
    subst; eauto using same_tokens_trans.
Qed.

(** The labels of a commit come from its input. *)
Definition label_from (input : CommitTokenIssuance) (l : label) : Prop :=
  match l with
  | LCreated token contract => input.(ci_refresh_token) = Some (IssueNew token contract)
  | LRotated token source => input.(ci_refresh_token) = Some (UseExisting source (Some token))
  | LIssued client_id digest deadline => ∃ key,
      mode_grant input.(ci_mode) = Some (key, deadline) ∧ client_id = input.(ci_client_id) ∧
      digest = blake3_hash key
  | LReclaimed => False
  | LOther | LRevoked => True
  end.

(** What a committed refresh token leaves among the labels. *)
Definition refresh_label (refresh : RefreshTokenCommit) (ls : list label) : Prop :=
  match refresh with
  | IssueNew token contract => LCreated token contract ∈ ls
  | UseExisting au (Some token) => LRotated token au ∈ ls
  | UseExisting _ None => True
  end.

(** The facts under which a commit uses an existing family. *)
Definition admitted (at_ : DateTime) (refresh : RefreshTokenCommit) (t : Tables) : Prop :=
  match refresh with
  | IssueNew _ _ => True
  | UseExisting au rotation => usable at_ au t ∧ retry_valid au rotation t
  end.

Definition compromise (clocks : Clocks) (token : NewRefreshToken) (t t' : Tables) : Prop :=
  is_Some (families t !! token_key token) ∧
  contracts t' = contracts t ∧ spent t' = spent t ∧ issuances t' = issuances t ∧
  families t' = alter (compromised clocks.(tx_started)) (token_key token) (families t).

Lemma persist_Ok lo hi clocks input refresh client_type prepared native f t res ret f' t' :
  keys_ok t → commit_timed lo hi clocks →
  input.(ci_refresh_token) = Some refresh →
  prepare_refresh_contract refresh = Ok prepared →
  persist_refresh_token_on_connection clocks refresh client_type input.(ci_issuance_id) prepared native
    f t = Ok ((res, ret), (f', t')) →
  match res with
  | InvalidSource => t' = t
  | Inserted => ∃ ls, changes lo hi ls t t' ∧ (∀ l, l ∈ ls → label_from input l) ∧
      refresh_label refresh ls ∧
      admitted clocks.(tx_transition_at) refresh t
  | PersistRotationConflict =>
      ∃ token, commit_token refresh = Some token ∧
        conflicting clocks.(tx_transition_at) refresh t ∧ compromise clocks token t t'
  end.
Proof.
  intros Hk (Hst & _ & Htr) Hin Hprep H.
  unfold persist_refresh_token_on_connection, persist_refresh_token_inner in H.
  destruct refresh as [token contract|au rotation]; tx_inv.
  - rewrite ok_or_Ok in *. subst. unfold create in *. tx_inv.
    match goal with H : nazo_create_refresh_family _ _ _ _ _ _ _ = Ok (?p, _) |- _ =>
      destruct p as [outcome retired]; eapply (nazo_create_changes lo _) in H; [|done..] end.
    destruct outcome, retired as [[[[[? ?] ?] [|]] ?]|]; simpl in *; tx_inv; try done.
    1: exists token; unfold compromise; naive_solver.
    all: eexists; split; [done|]; split; [|split; [set_solver|naive_solver]].
    all: intros l [->|[->|[]%elem_of_nil]%elem_of_cons]%elem_of_cons; simpl; eauto.
  - pose proof (prepare_contract_existing _ _ _ Hprep) as Hval.
    match goal with H : use_existing _ _ _ _ _ _ = Ok _ |- _ =>
      eapply (use_existing_Ok lo _) in H; [|done..]; rename H into Huse end.
    match type of Huse with match ?res with _ => _ end => destruct res end.
    + destruct rotation as [token|]; destruct Huse as [Hu Hc].
      * exists [LRotated token au]. split; [by apply changes_one|].
        split; [intros l ->%list_elem_of_singleton; simpl; eauto|]. split; [set_solver|naive_solver].
      * subst. exists []. split; [constructor|]. split; [set_solver|]. naive_solver.
    + done.
    + destruct Huse as ([token ->] & Hf & ->). exists token. split; [done|]. split; [done|].
      apply validate_replacement in Hval as [Hrep _]. apply replacement_key in Hrep.
      destruct Hf as [(family & Hf & _) _]. unfold compromise. rewrite Hrep. split; [by eexists|done].
Qed.

Lemma lock_inactive input t result :
  nazo_lock_token_principals input t = Err result → result = ClientInactive ∨ result = SubjectInactive.
Proof. unfold nazo_lock_token_principals. intros. repeat case_match; simplify_eq; auto. Qed.

(** What each result of a commit says of the tables. *)
Definition commit_post (lo hi : DateTime) (clocks : Clocks) (input : CommitTokenIssuance)
    (r : CommitTokenIssuanceResult) (t t' : Tables) : Prop :=
  match r with
  | Committed => ∃ ls, changes lo hi ls t t' ∧ (∀ l, l ∈ ls → label_from input l) ∧
      (∀ key deadline, mode_grant input.(ci_mode) = Some (key, deadline) →
        LIssued input.(ci_client_id) (blake3_hash key) deadline ∈ ls) ∧
      match input.(ci_refresh_token) with
      | None => True
      | Some refresh => refresh_label refresh ls ∧
          admitted clocks.(tx_transition_at) refresh t
      end
  | RotationConflict => ∃ refresh token, input.(ci_refresh_token) = Some refresh ∧
      commit_token refresh = Some token ∧ conflicting clocks.(tx_transition_at) refresh t ∧
      compromise clocks token t t'
  | _ => t' = t
  end.

(** The changes from the end of the redemption to the result. *)
Lemma commit_rest_Ok lo hi clocks input client_type prepared f t r f' t' :
  keys_ok t → commit_timed lo hi clocks →
  match input.(ci_refresh_token) with
  | None => True
  | Some refresh => prepare_refresh_contract refresh = Ok prepared
  end →
  match input.(ci_refresh_token) with
  | None => finish_commit clocks input None
  | Some refresh =>
      (let! persisted := tx_map_err CommitRepository
        (persist_refresh_token_on_connection clocks refresh client_type
           input.(ci_issuance_id) prepared input.(ci_native_sso_source)) in
      match persisted with
      | (Inserted, retired) => finish_commit clocks input retired
      | (InvalidSource, _) => tx_ret RefreshGrantUnavailable
      | (PersistRotationConflict, _) =>
          match commit_token refresh with
          | Some token => commit_reuse clocks input token
          | None => tx_err CommitPanicked
          end
      end)%tx
  end f t = Ok (r, (f', t')) →
  (r = RefreshGrantUnavailable ∧ t' = t ∧ ∃ au rotation,
     input.(ci_refresh_token) = Some (UseExisting au rotation)) ∨
  (r = RotationConflict ∧ ∃ refresh token t1 f1 f2 a t2,
     input.(ci_refresh_token) = Some refresh ∧ commit_token refresh = Some token ∧
     conflicting clocks.(tx_transition_at) refresh t ∧ compromise clocks token t t1 ∧
     (if is_fresh input.(ci_mode) then tx_ret tt
      else tx_map_err CommitDiesel (update (delete_issuance input))) f1 t1 = Ok (a, (f2, t2)) ∧
     same_tokens t2 t') ∨
  (r = Committed ∧ ∃ ls t1, changes lo hi ls t t1 ∧ same_tokens t1 t' ∧
     (∀ l, l ∈ ls → label_from input l) ∧
     match input.(ci_refresh_token) with
     | None => True
     | Some refresh => refresh_label refresh ls ∧
         admitted clocks.(tx_transition_at) refresh t
     end).
Proof.
  intros Hk Ht Hprep. destruct (ci_refresh_token input) as [refresh|] eqn:Hin.
  2: { intros H%finish_Ok. right; right. destruct H as [-> ?]. split; [done|].
    exists [], t. split; [constructor|]. split; [done|]. split; [set_solver|done]. }
  intros H. tx_inv. match goal with H : persist_refresh_token_on_connection _ _ _ _ _ _ _ _ = Ok (?p, _) |- _ =>
    destruct p as [res ret]; rename H into Hpers end.
  pose proof Hpers as Hpost. eapply (persist_Ok lo hi _ input) in Hpost; [|done..].
  destruct res.
  - match goal with H : finish_commit _ _ _ _ _ = Ok _ |- _ => apply finish_Ok in H as [-> ?] end.
    destruct Hpost as (ls & ? & ? & ? & ?). right; right. split; [done|]. exists ls. eauto 10.
  - tx_inv. left. split; [done|]. split; [done|].
    destruct refresh as [token contract|]; [|eauto].
    unfold persist_refresh_token_on_connection, persist_refresh_token_inner, create in Hpers. tx_inv.
    repeat (case_match; tx_inv).
  - destruct Hpost as (token & Htok & Hcf & Hc). rewrite Htok in *. unfold commit_reuse in *. tx_inv.
    match goal with H : append_fresh_security_audit_on_connection _ _ _ _ = Ok _ |- _ =>
      apply append_fresh_same in H end.
    right; left. split; [done|]. exists refresh, token. do 5 eexists. eauto 10.
Qed.

Lemma is_fresh_grant mode : is_fresh mode = is_none (mode_grant mode).
Proof. by destruct mode. Qed.

(** A reuse after the redemption drops the row the redemption inserted. *)
Lemma compromise_redeemed clocks token input t row t1 t2 t3 f1 f2 a :
  is_fresh input.(ci_mode) = false → row.(ir_tenant_id) = input.(ci_tenant_id) →
  issuances t !! input.(ci_issuance_id) = None →
  compromise clocks token (set_issuances <[input.(ci_issuance_id) := row]> t) t1 →
  (if is_fresh input.(ci_mode) then tx_ret tt
   else tx_map_err CommitDiesel (update (delete_issuance input))) f1 t1 = Ok (a, (f2, t2)) →
  same_tokens t2 t3 → compromise clocks token t t3.
Proof.
  intros -> Hrow Hnone (Hf & Hc & Hs & Hi & Hfam) H (Hc3 & Hf3 & Hs3 & Hi3). tx_inv. simpl in *.
  unfold delete_issuance in *. rewrite Hi, lookup_insert_eq, Hrow, Z.eqb_refl in *. simpl in *.
  unfold compromise. split; [done|]. rewrite Hc3, Hf3, Hs3, Hi3, Hi, delete_insert_id by done.
  done.
Qed.

Lemma compromise_same clocks token t t1 t2 :
  compromise clocks token t t1 → same_tokens t1 t2 → compromise clocks token t t2.
Proof.
  intros (? & ? & ? & ? & ?) (? & ? & ? & ?). unfold compromise. split_and!; [done|congruence..].
Qed.

Lemma refresh_label_mono refresh ls ls' :
  (∀ l, l ∈ ls → l ∈ ls') → refresh_label refresh ls → refresh_label refresh ls'.
Proof. destruct refresh as [|? [|]]; simpl; auto. Qed.

Lemma admitted_same at_ refresh t t' :
  families t' = families t → contracts t' = contracts t → spent t' = spent t →
  admitted at_ refresh t' → admitted at_ refresh t.
Proof. unfold admitted, usable, retry_valid. by intros -> -> ->. Qed.

Lemma conflicting_same at_ refresh t t' :
  families t' = families t → contracts t' = contracts t → spent t' = spent t →
  conflicting at_ refresh t' → conflicting at_ refresh t.
Proof. unfold conflicting, usable, retry_valid. by intros -> -> ->. Qed.

Lemma commit_body_Ok lo hi clocks input prepared expires_at retain_until f t r f' t' :
  keys_ok t → commit_timed lo hi clocks →
  prepare_commit input = Ok (prepared, expires_at, retain_until) →
  commit_body clocks input prepared expires_at retain_until f t = Ok (r, (f', t')) →
  commit_post lo hi clocks input r t t'.
Proof.
  intros Hk Ht Hprep H. apply prepare_commit_Ok in Hprep as (Hval & Hexp & Hret & Hprep).
  apply validate_commit_input_Ok in Hval.
  unfold commit_body, lock_and_recheck in H. tx_inv.
  destruct (nazo_lock_token_principals input t) as [client_type|result] eqn:Hlock.
  2: { apply lock_inactive in Hlock as [-> | ->]; tx_inv; done. }
  tx_inv. match goal with H : redeem_single_use _ _ _ _ _ _ = Ok _ |- _ =>
    eapply (redeem_Ok lo hi) in H; [|done|done|apply Ht]; rename H into Hredeem end.
  destruct (mode_grant (ci_mode input)) as [[key deadline]|] eqn:Hmode.
  - destruct Hredeem as [[-> ->]|(-> & Hc & row & Hrow & -> & Hnone)]; simpl in *; [by tx_inv|].
    match goal with H : _ = Ok (r, (f', t')) |- _ =>
      eapply (commit_rest_Ok lo hi) in H; [|done|done|by case_match]; rename H into Hrest end.
    assert (is_fresh (ci_mode input) = false) as Hfresh by (by rewrite is_fresh_grant, Hmode).
    destruct Hrest as [(-> & _ & au & rot & Hin)|[(-> & refresh & token & t1 & f1 & f2 & a & t2 & Hin &
      Htok & Hcf & Hcomp & Hdel & Hsame)|(-> & ls & t1 & Hch & Hsame & Hfrom & Hrefresh)]].
    + rewrite Hin in Hval. apply validate_owner_fresh in Hval. congruence.
    + exists refresh, token. split; [done|]. split; [done|].
      split; [by eapply conflicting_same; [..|exact Hcf]|by eapply compromise_redeemed].
    + exists (LIssued input.(ci_client_id) (blake3_hash key) deadline :: ls ++ [LOther]).
      split; [econstructor; [exact Hc|]; eapply changes_app; [exact Hch|]; by apply changes_one, change_other|].
      split.
      { intros l. rewrite elem_of_cons, elem_of_app, list_elem_of_singleton.
        intros [-> |[? | ->]]; simpl; eauto. }
      rewrite Hmode. split; [intros ? ? [= <- <-]; set_solver|].
      case_match; [|done]. destruct Hrefresh as [Hl Hu]. split.
      * eapply refresh_label_mono; [|exact Hl]. set_solver.
      * eapply admitted_same; [..|exact Hu]; done.
  - destruct Hredeem as [-> ->]; simpl in *.
    match goal with H : _ = Ok (r, (f', t')) |- _ =>
      eapply (commit_rest_Ok lo hi) in H; [|done|done|by case_match]; rename H into Hrest end.
    assert (is_fresh (ci_mode input) = true) as Hfresh by (by rewrite is_fresh_grant, Hmode).
    destruct Hrest as [(-> & -> & _)|[(-> & refresh & token & t1 & f1 & f2 & a & t2 & Hin & Htok &
      Hcf & Hcomp & Hdel & Hsame)|(-> & ls & t1 & Hch & Hsame & Hfrom & Hrefresh)]]; [done|..].
    + rewrite Hfresh in Hdel. tx_inv. exists refresh, token. split; [done|]. split; [done|].
      split; [done|]. by eapply compromise_same.
    + exists (ls ++ [LOther]).
      split; [eapply changes_app; [exact Hch|]; by apply changes_one, change_other|].
      split; [intros l [? | ->%list_elem_of_singleton]%elem_of_app; simpl; eauto|].
      rewrite Hmode. split; [done|]. case_match; [|done]. destruct Hrefresh as [Hl Hu].
      split; [|done]. eapply refresh_label_mono; [|exact Hl]. set_solver.
Qed.

(** Every call of the commit: the tables are left, or they are those of a
    result, which the caller may not learn. *)
Lemma commit_cases lo hi c lost clocks input t r t' :
  keys_ok t → commit_timed lo hi clocks →
  commit_token_issuance c lost clocks input t = (r, t') →
  (t' = t ∧ r ≠ Ok Committed ∧ r ≠ Ok RotationConflict) ∨
  ∃ r', commit_post lo hi clocks input r' t t' ∧
    (r = Ok r' ∨ (is_Some c.(cn_commit) ∨ is_Some lost) ∧ ∃ e, r = Err e).
Proof.
  intros Hk Ht. unfold commit_token_issuance.
  destruct (prepare_commit input) as [[[prepared expires_at] retain_until]|e] eqn:Hprep;
    [|intros [= <- <-]; by left].
  destruct (if negb (cn_available c) then _ else _) as [r1 t1] eqn:Hcall.
  assert ((t1 = t ∧ r1 ≠ Ok Committed ∧ r1 ≠ Ok RotationConflict) ∨
    ∃ r', commit_post lo hi clocks input r' t t1 ∧ (r1 = Ok r' ∨ is_Some (cn_commit c) ∧ ∃ e, r1 = Err e)) as Hc.
  { destruct (cn_available c); simpl in Hcall; [|simplify_eq; by left].
    unfold transaction in Hcall.
    destruct (commit_body _ _ _ _ _ _ _) as [[a [f' t2]]|e] eqn:Hbody.
    - eapply (commit_body_Ok lo hi) in Hbody; [|done..].
      destruct (cn_commit c) as [[e [|]]|]; simplify_eq; simpl.
      + right. exists a. split; [done|]. right. eauto.
      + by left.
      + right. exists a. eauto.
    - left. simplify_eq. split; [done|]. by destruct e. }
  destruct lost as [[|]|]; intros [= <- <-].
  - destruct Hc as [(-> & _)|(r' & Hpost & _)]; [by left|].
    right. exists r'. split; [done|]. right. eauto.
  - by left.
  - destruct Hc as [?|(r' & Hpost & [->|[Hc ?]])]; [by left|right; eauto 7..].
Qed.

End committing.

(** ** Every operation is a sequence of changes *)

Section performing.
Context `{D : Deployment}.

Lemma revoke_families_change lo hi select at_ t n t' :
  revoke_families select at_ t = (n, t') → change lo hi LRevoked t t'.
Proof.
  unfold revoke_families. intros [= <- <-]. apply change_revoked_set. intros key.
  rewrite lookup_fmap. destruct (families t !! key) as [row|]; simpl; constructor.
  destruct (revocable select row) eqn:Hr; [|apply revocation_refl].
  apply revoke_row_revocation. unfold revocable in Hr. by boolify.
Qed.

Lemma upsert_same key row t n t' : upsert_access_token_revocation key row t = (n, t') → same_tokens t t'.
Proof. unfold upsert_access_token_revocation. intros. repeat case_match; simplify_eq; done. Qed.

(** A transaction whose body only revokes families. *)
Lemma transaction_revokes {E A} lo hi (from : DieselError → E) c (body : tx E A) t r t' :
  (∀ f a f' t1, body f t = Ok (a, (f', t1)) → change lo hi LRevoked t t1) →
  transaction from c body t = (r, t') → change lo hi LRevoked t t'.
Proof.
  intros Hb [[-> _]|(a & f' & H & _)]%transaction_cases; [by apply change_revoked_refl|eauto].
Qed.

Ltac revokes :=
  first [ by apply change_revoked_refl
        | eapply revoke_families_change; reflexivity
        | apply change_revoked_refl; by eapply upsert_same ].

Lemma revoke_for_client_change lo hi c clocks tenant_id client_id raw at_ pub ip t :
  change lo hi LRevoked t
    (revoke_for_client_with_audit c clocks tenant_id client_id raw at_ pub ip t).2.
Proof.
  unfold revoke_for_client_with_audit.
  destruct (transpose _); [|by apply change_revoked_refl].
  destruct (cn_available c); simpl; [|by apply change_revoked_refl].
  destruct (transaction _ _ _ _) as [r t'] eqn:H. simpl. eapply transaction_revokes; [|exact H].
  clear. intros f a f' t1 H. unfold revoke_for_client_body in H. tx_inv.
  match goal with H : append_fresh_security_audit_on_connection _ _ _ _ = Ok _ |- _ =>
    apply append_fresh_same in H end.
  eapply change_revoked_trans; [|by apply change_revoked_refl].
  repeat case_match; tx_inv; revokes.
Qed.

Lemma revoke_issued_change lo hi c clocks tenant_id client_id jti expires_at family_id t :
  change lo hi LRevoked t
    (revoke_issued_tokens c clocks tenant_id client_id jti expires_at family_id t).2.
Proof.
  unfold revoke_issued_tokens. destruct (transpose _); [|by apply change_revoked_refl].
  case_match; [|by apply change_revoked_refl].
  destruct (cn_available c); simpl; [|by apply change_revoked_refl].
  destruct (transaction _ _ _ _) as [r t'] eqn:Htx. simpl. eapply transaction_revokes; [|exact Htx].
  clear Htx. intros f a f' t1 Hrun. destruct family_id; simplify_eq/=.
  - unfold revoke_issued_body in Hrun. tx_inv. repeat case_match; tx_inv.
    + eapply change_revoked_trans; [|eapply revoke_families_change; reflexivity]. revokes.
    + revokes.
  - destruct value; simplify_eq/=. tx_inv. revokes.
Qed.

Lemma invalidate_change lo hi c op hash epoch nb done_at t :
  change lo hi LRevoked t (invalidate_after_restore c op hash epoch nb done_at t).2.
Proof.
  unfold invalidate_after_restore. repeat case_match; try by apply change_revoked_refl.
  simpl. match goal with H : transaction _ _ _ _ = _ |- _ => eapply transaction_revokes; [|exact H] end.
  clear. intros f a f' t1 H. unfold invalidate_body in H. tx_inv.
  repeat (case_match; tx_inv); try by apply change_revoked_refl.
  unfold insert_recovery in *. repeat case_match; simplify_eq.
  eapply change_revoked_trans; [eapply revoke_families_change; reflexivity|by apply change_revoked_refl].
Qed.

Lemma elem_of_batch {K A} `{Countable K} (chosen : list K) (due : A → bool) (m : gmap K A) k :
  k ∈ batch chosen due m → ∃ a, m !! k = Some a ∧ due a = true.
Proof.
  unfold batch. intros Hk%elem_of_take. destruct Hk as (i & Hi & _).
  apply list_elem_of_lookup_2, list_elem_of_filter in Hi as [Hd _].
  destruct (m !! k); [eauto|done].
Qed.

Lemma terminal_later now now' row : now ≤ now' → terminal now row = true → terminal now' row = true.
Proof.
  unfold terminal. rewrite !orb_true_iff, !Z.leb_le. intros ? [?|?]; [left; lia|by right].
Qed.

Lemma delete_families_changes lo hi clocks budget chosen proofs t :
  clocks.(tx_started) ≤ hi →
  changes lo hi [LReclaimed; LReclaimed] t
    (delete_expired_refresh_families clocks budget chosen proofs t).
Proof.
  intros Hs. unfold delete_expired_refresh_families.
  eapply changes_cons; [apply reclaim_spent|apply changes_one, reclaim_families].
  - intros k Hk%elem_of_take. destruct Hk as (i & Hi & _).
    apply list_elem_of_lookup_2, list_elem_of_filter in Hi as [Hd _].
    destruct (spent t !! k) as [row|]; [|done]. exists row. split; [done|]. right.
    simpl in Hd. boolify. apply elem_of_batch in Hd as (family & ? & ?). exists family.
    eauto using terminal_later.
  - intros k [Hp Hk]%list_elem_of_filter. split; [done|].
    apply elem_of_batch in Hk as (family & ? & ?). exists family. eauto using terminal_later.
Qed.

(** The labels that only a commit leaves. *)
Definition commit_label (op : Operation) (l : label) : Prop :=
  match l with
  | LOther | LRevoked | LReclaimed => True
  | _ => ∃ c lost clocks input, op = OpCommit c lost clocks input ∧ label_from input l
  end.

Lemma commit_post_changes lo hi clocks input r t t' :
  commit_post lo hi clocks input r t t' →
  ∃ ls, changes lo hi ls t t' ∧ ∀ l, l ∈ ls → label_from input l.
Proof.
  destruct r; simpl; [by intros (ls & ? & ? & _); eauto|intros ->..|].
  1-5: exists []; split; [constructor|set_solver].
  intros (refresh & token & _ & _ & _ & Hf & Hc & Hs & Hi & Hfam).
  exists [LRevoked; LOther]. split; [|intros l [->|[->|[]%elem_of_nil]%elem_of_cons]%elem_of_cons; done].
  eapply changes_cons; [apply (compromise_change _ _ (tx_started clocks) (token_key token))|].
  apply changes_one, change_other. split_and!; done.
Qed.

Lemma perform_changes lo hi op t r t' :
  keys_ok t → timed lo hi op → perform op t = (r, t') →
  ∃ ls, changes lo hi ls t t' ∧ ∀ l, l ∈ ls → commit_label op l.
Proof.
  intros Hk [Hle Ht] H.
  assert (∀ l, change lo hi l t t' → l = LOther ∨ l = LRevoked ∨ l = LReclaimed →
    ∃ ls, changes lo hi ls t t' ∧ ∀ l, l ∈ ls → commit_label op l) as Hone.
  { intros l Hc Hl. exists [l]. split; [by apply changes_one|].
    intros l' ->%list_elem_of_singleton. by destruct Hl as [->|[->| ->]]. }
  destruct op; simpl in H; simplify_eq.
  - destruct (commit_token_issuance _ _ _ _ _) as [r1 t1] eqn:Hc. simplify_eq.
    eapply (commit_cases lo hi) in Hc as [(-> & _)|(r' & Hpost & _)]; [|..|done|done].
    + exists []. split; [constructor|set_solver].
    + apply commit_post_changes in Hpost as (ls & ? & Hl). exists ls. split; [done|].
      intros l ?%Hl. destruct l; simpl; try done; eauto 10.
  - eapply Hone; [apply revoke_for_client_change|auto].
  - eapply Hone; [apply revoke_issued_change|auto].
  - eapply Hone; [apply invalidate_change|auto].
  - eapply Hone; [eapply revoke_families_change; reflexivity|auto].
  - eapply Hone; [eapply revoke_families_change; reflexivity|auto].
  - eapply Hone; [eapply revoke_families_change; reflexivity|auto].
  - eapply Hone; [eapply (reclaim_issuances _ _ _ cutoff); [done|]|auto].
    intros k (row & ? & ?)%elem_of_batch. exists row. by boolify.
  - eapply Hone; [by apply change_other|auto].
  - eapply Hone; [apply reclaim_spent|auto].
    intros k (row & ? & ?)%elem_of_batch. exists row. boolify. split; [done|]. left. lia.
  - eexists. split; [by apply delete_families_changes|].
    intros l [->|[->|[]%elem_of_nil]%elem_of_cons]%elem_of_cons; done.
  - eapply Hone; [apply reclaim_contracts|auto].
    by intros k [? _]%list_elem_of_filter.
  - eapply Hone; [by apply change_other|auto].
Qed.

End performing.
