(* ===== verification/PostgresTokensFacts.v ===== *)
(** * Properties of token issuance

    Invariants of the refresh-token and issuance tables along every history of
    the operations of [PostgresTokens], and what they promise: the tables stay
    well-formed, a refresh token is exchanged at most once and its reuse
    compromises the family, a family never gains authority, the number of active
    families is bounded, a single-use grant is redeemed at most once, and a
    commit that is refused leaves nothing behind. *)
From stdpp Require Import base list strings gmap sorting.
From S2P Require Import Prelude Chrono Postgres Text Json AuthorizationPolicy TokenModel.
From S2P Require Import AuthorizationPolicyFacts PostgresTokens PostgresTokensSteps.

Local Open Scope rust_scope.
Local Open Scope list_scope.
Local Open Scope Z_scope.

(** ** Induction on histories *)

Section induction.
Context `{D : Deployment}.

Lemma lookup_delete_all {K A} `{Countable K} (keys : list K) (m : gmap K A) k :
  delete_all keys m !! k = if decide (k ∈ keys) then None else m !! k.
Proof.
  unfold delete_all. induction keys as [|k' keys IH]; simpl; [done|].
  destruct (decide (k' = k)) as [->|].
  - rewrite lookup_delete_eq, decide_True; [done|set_solver].
  - rewrite lookup_delete_ne, IH by done. do 2 case_decide; set_solver.
Qed.

Lemma lookup_delete_all_Some {K A} `{Countable K} (keys : list K) (m : gmap K A) k a :
  delete_all keys m !! k = Some a ↔ k ∉ keys ∧ m !! k = Some a.
Proof. rewrite lookup_delete_all. case_decide; naive_solver. Qed.

Lemma trimmed_families limit token t : families (trimmed limit token t) = families t.
Proof. by destruct limit. Qed.

Lemma trimmed_contracts limit token t : contracts (trimmed limit token t) = contracts t.
Proof. by destruct limit. Qed.

Lemma trimmed_issuances limit token t : issuances (trimmed limit token t) = issuances t.
Proof. by destruct limit. Qed.

Lemma ensure_spent tenant_id prepared t :
  spent (nazo_oauth_refresh_contract_ensure tenant_id prepared t) = spent t.
Proof. unfold nazo_oauth_refresh_contract_ensure. by case_match. Qed.

Lemma ensure_issuances tenant_id prepared t :
  issuances (nazo_oauth_refresh_contract_ensure tenant_id prepared t) = issuances t.
Proof. unfold nazo_oauth_refresh_contract_ensure. by case_match. Qed.

(** The families after a change: the row is new, was rotated, or was there with
    fewer revocation facts. *)
Lemma change_family lo hi l t t' key row' :
  change lo hi l t t' → families t' !! key = Some row' →
  (∃ token contract prepared, l = LCreated token contract ∧ key = token_key token ∧
     prepare_refresh_contract (IssueNew token contract) = Ok (Some prepared) ∧
     families t !! key = None ∧ row' = new_family_row token prepared) ∨
  (∃ token source family, l = LRotated token source ∧ key = token_key token ∧
     families t !! key = Some family ∧ family.(fr_current_member_id) = source.(au_member_id) ∧
     active_at hi family = true ∧ row' = rotated token family) ∨
  ∃ row, families t !! key = Some row ∧ revocation_of row row' ∧
    ∀ token source, l = LRotated token source → key ≠ token_key token.
Proof.
  assert (∀ row, families t !! key = Some row → row' = row →
    (∀ token source, l = LRotated token source → key ≠ token_key token) →
    ∃ row, families t !! key = Some row ∧ revocation_of row row' ∧
      ∀ token source, l = LRotated token source → key ≠ token_key token) as Hkeep.
  { intros row ? -> ?. exists row. split_and!; [done|apply revocation_refl|done]. }
  destruct 1; simpl; try (intros; right; right; by eapply Hkeep).
  - destruct H as (_ & -> & _). intros. right; right. by eapply Hkeep.
  - specialize (H2 key). intros Hr. rewrite Hr in H2. inversion H2; subst. right; right. naive_solver.
  - rewrite lookup_insert, ensure_families. case_decide; [subst|intros; right; right; by eapply Hkeep].
    intros [= <-]. left. eauto 10.
  - rewrite trimmed_families. simpl. rewrite lookup_insert. case_decide as Hne; [subst|].
    + intros [= <-]. right; left. exists token, au, family.
      split_and!; try done. unfold source_matches in H4. by boolify.
    + intros. right; right. eapply Hkeep; [done..|]. intros ? ? [= <- <-]. congruence.
  - rewrite lookup_delete_all_Some. intros [_ ?]. right; right. by eapply Hkeep.
Qed.

Lemma change_keys_ok lo hi l t t' : change lo hi l t t' → keys_ok t → keys_ok t'.
Proof.
  intros Hc Hk key row' Hr.
  destruct (change_family _ _ _ _ _ _ _ Hc Hr) as
    [(token & contract & prepared & _ & -> & _ & _ & ->)|[(token & source & family & _ & -> & Hf & _ & _ & ->)|
     (row & Hrow & (rv & re & -> & _) & _)]]; simpl; [done|by rewrite (Hk _ _ Hf)|by apply Hk].
Qed.

Lemma changes_keys_ok lo hi ls t t' : changes lo hi ls t t' → keys_ok t → keys_ok t'.
Proof. induction 1; eauto using change_keys_ok. Qed.

Lemma changes_invariant (op : Operation) (I : Tables → Prop) lo hi ls t t' :
  (∀ l t t', commit_label op l → keys_ok t → change lo hi l t t' → I t → I t') →
  changes lo hi ls t t' → (∀ l, l ∈ ls → commit_label op l) → keys_ok t → I t → I t'.
Proof.
  intros HI. induction 1 as [|l ls t t1 t2 Hc Hcs IH]; intros Hl Hk Hi; [done|].
  apply IH; [intros; apply Hl; set_solver|by eapply change_keys_ok|].
  eapply (HI l); [apply Hl; set_solver|done..].
Qed.

(** An invariant that time weakens and every change keeps holds along every
    history. *)
Lemma steps_invariant (I : DateTime → Tables → Prop) now t h now' t' :
  (∀ lo hi t, lo ≤ hi → I lo t → I hi t) →
  (∀ lo hi op r l t t', lo ≤ hi → (op, r) ∈ h → commit_label op l → keys_ok t →
     change lo hi l t t' → I hi t → I hi t') →
  steps now t h now' t' → keys_ok t → I now t → I now' t' ∧ keys_ok t' ∧ now ≤ now'.
Proof.
  intros Hmono HI Hs Hk Hi. induction Hs as [|h now1 t1 op r now2 t2 Hs IH Ht Hp]; [done|].
  destruct IH as (Hi1 & Hk1 & Hle).
  { intros. eapply (HI _ _ _ r0); eauto. apply elem_of_app. by left. }
  pose proof (proj1 Ht) as Hle'. eapply perform_changes in Hp as (ls & Hc & Hl); [|done..].
  split_and!; [|by eapply changes_keys_ok|lia].
  eapply (changes_invariant op (I now2)); eauto.
  intros. eapply (HI _ _ op r); eauto. apply elem_of_app. right. by apply list_elem_of_singleton.
Qed.

Lemma steps_keys_ok now t h now' t' : steps now t h now' t' → keys_ok t → keys_ok t'.
Proof.
  intros Hs Hk. by eapply (steps_invariant (fun _ _ => True)) in Hs as (_ & ? & _).
Qed.

End induction.

(** ** Bounds *)

Section bounds.
Context `{D : Deployment}.

Definition capacity (now : DateTime) (t : Tables) : Prop :=
  ∀ tenant_id user_id client_id at_, now ≤ at_ →
    Z.of_nat (length (scope_families t tenant_id user_id client_id at_))
    ≤ MAX_ACTIVE_REFRESH_FAMILIES_PER_SCOPE.

Lemma scope_le t t' tenant_id user_id client_id now now' :
  (∀ key row', families t' !! key = Some row' → in_scope tenant_id user_id client_id row' = true →
     active_at now' row' = true →
     ∃ row, families t !! key = Some row ∧ in_scope tenant_id user_id client_id row = true ∧
            active_at now row = true) →
  (length (scope_families t' tenant_id user_id client_id now')
   ≤ length (scope_families t tenant_id user_id client_id now))%nat.
Proof.
  intros H. rewrite !scope_families_size. apply subseteq_size.
  intros key (row' & ? & ? & ?)%elem_of_scope_keys. apply elem_of_scope_keys. eauto.
Qed.

Lemma revocation_scope tenant_id user_id client_id row row' :
  revocation_of row row' →
  in_scope tenant_id user_id client_id row' = in_scope tenant_id user_id client_id row.
Proof. by intros (rv & re & -> & _). Qed.

Lemma created_scope_le t t' token prepared started tenant_id user_id client_id at_ :
  started ≤ at_ →
  t' = set_families <[token_key token := new_family_row token prepared]>
         (nazo_oauth_refresh_contract_ensure token.(nt_tenant_id) prepared t) →
  (length (scope_families t' tenant_id user_id client_id at_)
   ≤ S (length (scope_families t tenant_id user_id client_id started)))%nat.
Proof.
  intros Hle ->. rewrite !scope_families_size.
  transitivity (size ({[token_key token]} ∪ scope_keys t tenant_id user_id client_id started)).
  - apply subseteq_size. intros key (row' & Hr & ? & Ha)%elem_of_scope_keys. simpl in Hr.
    rewrite ensure_families, lookup_insert in Hr. case_decide; [set_solver|].
    apply elem_of_union_r, elem_of_scope_keys. eauto using active_earlier.
  - rewrite size_union_alt, size_singleton.
    pose proof (subseteq_size (scope_keys t tenant_id user_id client_id started ∖ {[token_key token]})
      (scope_keys t tenant_id user_id client_id started) ltac:(set_solver)). lia.
Qed.

Definition token_in_scope (tenant_id user_id client_id : Uuid) (token : NewRefreshToken) : bool :=
  (token.(nt_tenant_id) =? tenant_id) && bool_decide (token.(nt_user_id) = Some user_id)
  && (token.(nt_client_id) =? client_id).

Lemma change_capacity lo hi l t t' :
  change lo hi l t t' → capacity hi t → capacity hi t'.
Proof.
  intros Hc Hcap tenant_id user_id client_id at_ Hat.
  assert ((∃ token contract, l = LCreated token contract ∧ token_in_scope tenant_id user_id client_id token = true) ∨
    ∀ token contract, l = LCreated token contract → token_in_scope tenant_id user_id client_id token = false)
    as [(token & contract0 & -> & Hin)|Hno].
  { destruct l as [| |token contract0| | |]; try (right; naive_solver).
    destruct (token_in_scope tenant_id user_id client_id token) eqn:?; [left|right]; naive_solver. }
  - inversion Hc as [| |? started ? ? prepared Hs _ _ _ Hcount| | | | | |]; subst.
    unfold token_in_scope in Hin. boolify. subst.
    pose proof (created_scope_le t _ token prepared started (nt_tenant_id token) user_id
      (nt_client_id token) at_ ltac:(lia) eq_refl). specialize (Hcount user_id ltac:(done)). lia.
  - etrans; [|apply (Hcap tenant_id user_id client_id hi); lia]. apply Nat2Z.inj_le, scope_le.
    intros key row' Hr Hs Ha.
    destruct (change_family _ _ _ _ _ _ _ Hc Hr) as
      [(token & contract & prepared & -> & -> & _ & _ & ->)|[(token & source & family & _ & -> & Hf & _ & ? & ->)|
       (row & Hrow & Hrev & Hnot)]].
    + specialize (Hno _ _ eq_refl). unfold in_scope in Hs. unfold token_in_scope in Hno.
      simpl in Hs. congruence.
    + exists family. split_and!; done.
    + exists row. split; [done|]. erewrite <- revocation_scope by done. split; [done|].
      eauto using revocation_active, active_earlier.
Qed.

Lemma elem_of_proofs t tenant_id family_id k row :
  (k, row) ∈ family_proofs t tenant_id family_id ↔
  spent t !! k = Some row ∧ k.1 = tenant_id ∧ row.(sp_token_family_id) = family_id.
Proof.
  unfold family_proofs. rewrite list_elem_of_filter, elem_of_map_to_list. simpl. naive_solver.
Qed.

Lemma proofs_NoDup t tenant_id family_id : NoDup (family_proofs t tenant_id family_id).*1.
Proof.
  unfold family_proofs. eapply sublist_NoDup; [apply (NoDup_fst_map_to_list (spent t))|].
  apply fmap_sublist, sublist_filter.
Qed.

(** Fewer proofs: those of [t'] are among a list of pairs. *)
Lemma proofs_le t' tenant_id family_id (l : list ((Uuid * string) * SpentRow)) :
  (∀ p, p ∈ family_proofs t' tenant_id family_id → p ∈ l) →
  (length (family_proofs t' tenant_id family_id) ≤ length l)%nat.
Proof.
  intros H. apply submseteq_length, NoDup_submseteq; [|done].
  apply (NoDup_fmap_1 fst), proofs_NoDup.
Qed.

Lemma trim_spent tenant_id family_id limit t :
  spent (trim_proofs tenant_id family_id limit t) =
  delete_all (drop (Z.to_nat limit) (merge_sort newer (family_proofs t tenant_id family_id))).*1 (spent t).
Proof. unfold trim_proofs, delete_all. simpl. by rewrite foldr_fmap. Qed.

Lemma trim_length tenant_id family_id limit t :
  0 ≤ limit →
  Z.of_nat (length (family_proofs (trim_proofs tenant_id family_id limit t) tenant_id family_id)) ≤ limit.
Proof.
  intros Hl. set (sorted := merge_sort newer (family_proofs t tenant_id family_id)).
  transitivity (Z.of_nat (length (take (Z.to_nat limit) sorted))); [|rewrite length_take; lia].
  apply Nat2Z.inj_le, proofs_le. intros [k row] (Hr & Hk & Hf)%elem_of_proofs.
  rewrite trim_spent in Hr. apply lookup_delete_all_Some in Hr as [Hd Hr].
  assert ((k, row) ∈ sorted) as Hin.
  { unfold sorted. rewrite merge_sort_Permutation. by apply elem_of_proofs. }
  rewrite <- (take_drop (Z.to_nat limit) sorted) in Hin.
  apply elem_of_app in Hin as [|Hin]; [done|]. destruct Hd. apply list_elem_of_fmap.
  exists (k, row). done.
Qed.

(** The proofs of an operation's tables were there before, or one rotation
    added one. *)
Lemma trimmed_spent_Some limit token t k row :
  spent (trimmed limit token t) !! k = Some row → spent t !! k = Some row.
Proof.
  destruct limit; [|done]. unfold trimmed. rewrite trim_spent, lookup_delete_all_Some. naive_solver.
Qed.

Definition sender_bound (row : RefreshFamilyRow) : Prop :=
  is_Some row.(fr_dpop_jkt) ∨ is_Some row.(fr_mtls_x5t_s256).

Record proofs_ok (t : Tables) : Prop := {
  proofs_family k row : spent t !! k = Some row →
    is_Some (families t !! (k.1, row.(sp_token_family_id)));
  proofs_bound key row : families t !! key = Some row → sender_bound row →
    Z.of_nat (length (family_proofs t key.1 key.2)) ≤ MAX_SPENT_PROOFS_PER_REFRESH_FAMILY;
}.

Lemma change_proof lo hi l t t' k row :
  change lo hi l t t' → spent t' !! k = Some row →
  spent t !! k = Some row ∨
  ∃ token source family, l = LRotated token source ∧ families t !! token_key token = Some family ∧
    k = (token.(nt_tenant_id), family.(fr_current_token_blake3)) ∧ row = spent_proof hi family token ∧
    spent t !! k = None.
Proof.
  destruct 1; simpl.
  - destruct H as (_ & _ & -> & _). auto.
  - rewrite H0. auto.
  - rewrite ensure_spent. auto.
  - intros Hr%trimmed_spent_Some. simpl in Hr. rewrite lookup_insert in Hr. case_decide; [subst|auto].
    simplify_eq. right. eauto 10.
  - auto.
  - auto.
  - rewrite lookup_delete_all_Some. naive_solver.
  - auto.
  - auto.
Qed.

(** A family row is removed only when no proof refers to it. *)
Lemma change_family_kept lo hi l t t' key :
  change lo hi l t t' → is_Some (families t !! key) →
  is_Some (families t' !! key) ∨ (has_proofs t key = false ∧ spent t' = spent t ∧ l = LReclaimed).
Proof.
  destruct 1; simpl; intros Hs.
  - destruct H as (_ & -> & _). auto.
  - left. specialize (H2 key). destruct Hs as [row Hr]. rewrite Hr in H2. inversion H2; subst.
    by eexists.
  - left. rewrite ensure_families. by apply lookup_insert_is_Some'; right.
  - left. rewrite trimmed_families. by apply lookup_insert_is_Some'; right.
  - auto.
  - auto.
  - auto.
  - rewrite lookup_delete_all. case_decide; [|auto]. right. naive_solver.
  - auto.
Qed.

Lemma has_proofs_false t key : has_proofs t key = false → family_proofs t key.1 key.2 = [].
Proof. unfold has_proofs. intros. by boolify. Qed.

Lemma family_proofs_spent t t' tenant_id family_id :
  spent t' = spent t → family_proofs t' tenant_id family_id = family_proofs t tenant_id family_id.
Proof. unfold family_proofs. by intros ->. Qed.

Lemma rotated_bound t client_type family token hi :
  sender_bound family →
  Z.of_nat (length (family_proofs
    (trimmed (refresh_spent_proof_limit client_type family.(fr_dpop_jkt) family.(fr_mtls_x5t_s256)) token
       (set_spent <[(token.(nt_tenant_id), family.(fr_current_token_blake3)) :=
          spent_proof hi family token]> t))
    token.(nt_tenant_id) token.(nt_family_id))) ≤ MAX_SPENT_PROOFS_PER_REFRESH_FAMILY.
Proof.
  intros Hb. unfold refresh_spent_proof_limit.
  replace (_ || _ || _) with true; [by apply trim_length|].
  destruct Hb as [[? ->]|[? ->]]; simpl; by rewrite !orb_true_r.
Qed.

Lemma change_proofs_ok lo hi l t t' : change lo hi l t t' → proofs_ok t → proofs_ok t'.
Proof.
  intros Hc [Hfam Hbound]. split.
  - intros k row Hr. destruct (change_proof _ _ _ _ _ _ _ Hc Hr) as [Hold|(token & source & family & -> & Hf & -> & -> & _)].
    + destruct (change_family_kept _ _ _ _ _ _ Hc (Hfam _ _ Hold)) as [?|(Hno & Hsp & _)]; [done|].
      apply has_proofs_false in Hno. simpl in Hno.
      assert ((k, row) ∈ family_proofs t k.1 (sp_token_family_id row)) as Hin by by apply elem_of_proofs.
      rewrite Hno in Hin. by apply elem_of_nil in Hin.
    + inversion Hc; subst. simpl. rewrite trimmed_families. by apply lookup_insert_is_Some'; left.
  - intros key row' Hr Hb.
    destruct (change_family _ _ _ _ _ _ _ Hc Hr) as
      [(token & contract & prepared & -> & -> & _ & Hnone & ->)|[(token & source & family & -> & -> & Hf & _ & _ & ->)|
       (row & Hrow & Hrev & Hnot)]].
    + assert (length (family_proofs t' (token_key token).1 (token_key token).2) ≤ 0)%nat; [|by unfold MAX_SPENT_PROOFS_PER_REFRESH_FAMILY; lia].
      apply (proofs_le _ _ _ []). intros [k row] (Hk & Ht & Hid)%elem_of_proofs.
      destruct (change_proof _ _ _ _ _ _ _ Hc Hk) as [Hold|(? & ? & ? & ? & _)]; [|done].
      apply Hfam in Hold as [? Hold]. unfold token_key in *. simpl in *. subst. congruence.
    + inversion Hc; subst. simplify_eq. rewrite (family_proofs_spent (trimmed _ _ _)) by done.
      by apply rotated_bound.
    + etrans; [apply Nat2Z.inj_le, (proofs_le _ _ _ (family_proofs t key.1 key.2))|].
      * intros [k srow] (Hk & Ht & Hid)%elem_of_proofs. apply elem_of_proofs.
        destruct (change_proof _ _ _ _ _ _ _ Hc Hk) as [?|(token & source & family & -> & _ & -> & -> & _)]; [done|].
        destruct (Hnot _ _ eq_refl). destruct key. unfold token_key. simpl in *. congruence.
      * eapply Hbound; [done|]. by destruct Hrev as (? & ? & -> & _).
Qed.

End bounds.

(** ** Well-formed tables *)

(** A contract as it is read back: the requested claims apart, whose null
    values [serde] does not tell from absent ones. *)
Definition same_grant (c c' : RefreshContract) : Prop :=
  c'.(ct_subject) = c.(ct_subject) ∧ c'.(ct_scopes) = c.(ct_scopes) ∧
  c'.(ct_audiences) = c.(ct_audiences) ∧
  c'.(ct_authorization_details) = c.(ct_authorization_details) ∧
  let a := c.(ct_authentication_context) in
  let a' := c'.(ct_authentication_context) in
  a'.(ac_version) = a.(ac_version) ∧ a'.(ac_issuer) = a.(ac_issuer) ∧
  a'.(ac_audience) = a.(ac_audience) ∧ a'.(ac_auth_time) = a.(ac_auth_time) ∧
  a'.(ac_amr) = a.(ac_amr) ∧ a'.(ac_oidc_sid) = a.(ac_oidc_sid) ∧ a'.(ac_acr) = a.(ac_acr).

(** What the proofs use of other crates: a digest has 32 bytes, storing a time
    keeps the order, and a stored contract reads back. *)
Class DeploymentLaws `{D : Deployment} : Prop := {
  blake3_length s : len (blake3_hash s) = 32;
  timestamptz_mono a b : a ≤ b → timestamptz a ≤ timestamptz b;
  contract_roundtrip c v : contract_to_value c = Ok v →
    ∃ c', contract_from_value v = Ok c' ∧ same_grant c c';
}.

(** No two of the contracts share a digest, unless they are stored alike. *)
Definition collision_free `{Deployment} (known : RefreshContract → Prop) : Prop :=
  ∀ c c' w w', known c → known c' →
    contract_to_writer c = Ok w → contract_to_writer c' = Ok w' →
    blake3_hash w = blake3_hash w' → contract_to_value c = contract_to_value c'.

Section wellformed.
Context `{L : DeploymentLaws} (known : RefreshContract → Prop).

Definition contract_ok (c : RefreshContract) : Prop :=
  is_well_formed c.(ct_authentication_context) = true ∧ nonblank c.(ct_subject) = true ∧
  valid_audiences c.(ct_audiences) = true.

(** A family: its key, its digests, its timeline, its contract, and the audience
    of the current generation, within the contract's. *)
Record family_ok (t : Tables) (key : Uuid * Uuid) (row : RefreshFamilyRow) : Prop := {
  fo_key : key = (row.(fr_tenant_id), row.(fr_token_family_id));
  fo_token_digest : len row.(fr_current_token_blake3) = 32;
  fo_contract_digest : len row.(fr_contract_blake3) = 32;
  fo_timeline : row.(fr_current_issued_at) ≤ row.(fr_current_expires_at);
  fo_grant : ∃ value contract audiences,
    contracts t !! (row.(fr_tenant_id), row.(fr_contract_blake3)) = Some value ∧
    contract_from_value value = Ok contract ∧ contract_ok contract ∧
    row.(fr_current_audience) = strings_to_value audiences ∧
    valid_audiences audiences = true ∧ audiences ⊆ contract.(ct_audiences);
}.

(** No two families of a tenant have one current token. *)
Definition digests_unique (t : Tables) : Prop :=
  ∀ key row key' row', families t !! key = Some row → families t !! key' = Some row' →
    row.(fr_tenant_id) = row'.(fr_tenant_id) →
    row.(fr_current_token_blake3) = row'.(fr_current_token_blake3) → key = key'.

Record tables_ok (t : Tables) : Prop := {
  to_families key row : families t !! key = Some row → family_ok t key row;
  to_digests : digests_unique t;
  to_contracts tenant_id digest value c w :
    known c → contracts t !! (tenant_id, digest) = Some value → contract_to_writer c = Ok w →
    blake3_hash w = digest → contract_to_value c = Ok value;
  to_proofs k row : spent t !! k = Some row →
    len k.2 = 32 ∧ is_Some (families t !! (k.1, row.(sp_token_family_id)));
  to_retention id row digest : issuances t !! id = Some row →
    row.(ir_single_use_key_blake3) = Some digest →
    row.(ir_access_token_expires_at) ≤ row.(ir_retain_until);
  to_single_use id row id' row' digest :
    issuances t !! id = Some row → issuances t !! id' = Some row' →
    row.(ir_client_id) = row'.(ir_client_id) →
    row.(ir_single_use_key_blake3) = Some digest → row'.(ir_single_use_key_blake3) = Some digest →
    id = id';
}.

Lemma tables_keys_ok t : tables_ok t → keys_ok t.
Proof. intros H key row Hr. by eapply fo_key, to_families. Qed.

Lemma same_grant_ok c c' : same_grant c c' → contract_ok c → contract_ok c'.
Proof.
  unfold contract_ok, same_grant, is_well_formed, is_supported_version.
  intros (-> & _ & -> & _ & -> & -> & -> & -> & -> & -> & ->). done.
Qed.

(** What [prepare_refresh_contract] checks of a new family. *)
Lemma prepare_new_Ok token contract prepared :
  prepare_refresh_contract (IssueNew token contract) = Ok (Some prepared) →
  contract_ok contract ∧ token.(nt_audiences) = contract.(ct_audiences) ∧
  token.(nt_issued_at) < token.(nt_expires_at) ∧
  contract_to_value contract = Ok prepared.(pc_contract_value) ∧
  ∃ w, contract_to_writer contract = Ok w ∧ prepared.(pc_contract_blake3) = blake3_hash w.
Proof.
  unfold prepare_refresh_contract. destruct (validate_refresh_commit _) as [[]|] eqn:Hv; [|done].
  unfold persisted_contract. destruct (contract_to_value contract) as [v|] eqn:Hval; [|done].
  destruct (contract_to_writer contract) as [w|] eqn:Hw; [|done]. simpl. intros [= <-]. simpl.
  unfold validate_refresh_commit in Hv. simpl in Hv.
  destruct (_ || _) eqn:H1 in Hv; [done|]. destruct (_ || _) eqn:H2 in Hv; [done|].
  destruct (valid_new_token contract token) eqn:H3; [|done].
  unfold valid_new_token in H3. unfold contract_ok. boolify. split_and!; try done. eauto.
Qed.

Lemma digest_taken_false t key tenant_id digest :
  digest_taken t key tenant_id digest = false →
  ∀ other row, families t !! other = Some row → other ≠ key →
    row.(fr_tenant_id) = tenant_id → row.(fr_current_token_blake3) ≠ digest.
Proof.
  intros Ht other row Hr Hne Hten Hd. apply not_true_iff_false in Ht. apply Ht.
  unfold digest_taken. apply existsb_exists. exists (other, row).
  split; [by apply list_elem_of_In, elem_of_map_to_list|].
  rewrite bool_decide_false by done. simpl. by rewrite Hten, Z.eqb_refl, bool_decide_true.
Qed.

(** The contracts that the families of [t] need are there in [t']. *)
Lemma family_ok_contracts t t' key row :
  (∀ value, contracts t !! (row.(fr_tenant_id), row.(fr_contract_blake3)) = Some value →
     contracts t' !! (row.(fr_tenant_id), row.(fr_contract_blake3)) = Some value) →
  family_ok t key row → family_ok t' key row.
Proof.
  intros Hc [? ? ? ? (value & contract & audiences & ? & ?)]. split; [done..|].
  exists value, contract, audiences. split; [auto|done].
Qed.

Lemma revocation_family_ok t key row row' : revocation_of row row' → family_ok t key row → family_ok t key row'.
Proof. intros (rv & re & -> & _) [? ? ? ? ?]. by split. Qed.

Lemma change_contract_kept lo hi l t t' k v :
  change lo hi l t t' → contracts t !! k = Some v →
  contracts t' !! k = Some v ∨ (referenced t k = false ∧ families t' = families t ∧ l = LReclaimed).
Proof.
  destruct 1; simpl; intros Hv; auto.
  - destruct H as (-> & _). auto.
  - rewrite H. auto.
  - left. unfold nazo_oauth_refresh_contract_ensure. case_match eqn:E; [done|]. simpl.
    rewrite lookup_insert_ne; [done|]. intros <-. simplify_eq.
  - left. by rewrite trimmed_contracts.
  - rewrite lookup_delete_all. case_decide; [|auto]. right. auto.
Qed.

Lemma change_contract_new lo hi l t t' tenant_id digest v :
  change lo hi l t t' → contracts t' !! (tenant_id, digest) = Some v →
  contracts t !! (tenant_id, digest) = Some v ∨
  ∃ token contract prepared, l = LCreated token contract ∧
    prepare_refresh_contract (IssueNew token contract) = Ok (Some prepared) ∧
    digest = prepared.(pc_contract_blake3) ∧ v = prepared.(pc_contract_value).
Proof.
  destruct 1; simpl; auto.
  - destruct H as (-> & _). auto.
  - rewrite H. auto.
  - unfold nazo_oauth_refresh_contract_ensure. case_match; [auto|]. simpl. rewrite lookup_insert.
    case_decide; [|auto]. intros. simplify_eq. right. eauto 10.
  - rewrite trimmed_contracts. auto.
  - rewrite lookup_delete_all_Some. naive_solver.
Qed.

Lemma referenced_false t k row key :
  referenced t k = false → families t !! key = Some row →
  (row.(fr_tenant_id), row.(fr_contract_blake3)) ≠ k.
Proof.
  intros Hr Hk <-. apply not_true_iff_false in Hr. apply Hr. unfold referenced.
  apply existsb_exists. exists (key, row).
  split; [by apply list_elem_of_In, elem_of_map_to_list|]. simpl.
  by rewrite Z.eqb_refl, bool_decide_true.
Qed.

(** The contract of a new family is the one it carries. *)
Lemma created_contract lo hi t t' token contract prepared :
  collision_free known → known contract →
  tables_ok t → change lo hi (LCreated token contract) t t' →
  prepare_refresh_contract (IssueNew token contract) = Ok (Some prepared) →
  families t' !! token_key token = Some (new_family_row token prepared) →
  contracts t' !! (token.(nt_tenant_id), prepared.(pc_contract_blake3)) = Some prepared.(pc_contract_value).
Proof.
  intros Hfree Hknown Hok Hc Hprep Hrow. inversion Hc as [| |? ? ? ? prepared' _ Hprep' _ _ _| | | | | |]; subst.
  simpl in *. rewrite lookup_insert_eq in Hrow. apply (f_equal (fmap fr_contract_blake3)) in Hrow.
  simpl in Hrow. injection Hrow as Hkey. unfold nazo_oauth_refresh_contract_ensure.
  destruct (prepare_new_Ok _ _ _ Hprep) as (_ & _ & _ & Hv & w & Hw & Hk).
  destruct (prepare_new_Ok _ _ _ Hprep') as (_ & _ & _ & Hv' & w' & Hw' & Hk').
  destruct (contracts t !! _) as [v|] eqn:Hold.
  - rewrite Hkey in Hold. rewrite Hold. f_equal. rewrite Hk in Hold.
    pose proof (to_contracts _ Hok _ _ _ _ _ Hknown Hold Hw eq_refl). congruence.
  - simpl. rewrite Hkey, lookup_insert_eq. f_equal.
    congruence.
Qed.

Lemma new_family_ok lo hi t t' token contract prepared :
  collision_free known → known contract →
  tables_ok t → change lo hi (LCreated token contract) t t' →
  prepare_refresh_contract (IssueNew token contract) = Ok (Some prepared) →
  families t' !! token_key token = Some (new_family_row token prepared) →
  family_ok t' (token_key token) (new_family_row token prepared).
Proof.
  intros Hfree Hknown Hok Hc Hprep Hrow. pose proof (created_contract _ _ _ _ _ _ _ Hfree Hknown Hok Hc Hprep Hrow) as Hcon.
  apply prepare_new_Ok in Hprep as (Hcok & Haud & Htime & Hv & w & Hw & Hk).
  destruct (contract_roundtrip _ _ Hv) as (c' & Hc' & Hsame).
  split; simpl; [done|apply blake3_length|rewrite Hk; apply blake3_length| |].
  - apply timestamptz_mono. lia.
  - exists (pc_contract_value prepared), c', (nt_audiences token). split_and!; try done.
    + by eapply same_grant_ok.
    + rewrite Haud. apply Hcok.
    + destruct Hsame as (_ & _ & -> & _). by rewrite Haud.
Qed.

Lemma source_matches_contract family contract au :
  source_matches family contract au = true →
  contract = au.(au_contract) ∧ family.(fr_current_audience) = strings_to_value au.(au_current_audiences) ∧
  family.(fr_current_member_id) = au.(au_member_id).
Proof. unfold source_matches. intros. by boolify. Qed.

Lemma rotated_family_ok lo hi t t' token source family :
  tables_ok t → change lo hi (LRotated token source) t t' →
  families t !! token_key token = Some family →
  family_ok t (token_key token) family → family_ok t' (token_key token) (rotated token family).
Proof.
  intros Hok Hc Hf [? ? ? ? (value & contract & audiences & Hval & Hcon & Hcok & _)].
  inversion Hc as [| | |? ? family' value' contract' au token' Hv Hf' _ Hval' Hcon' Hsrc _ _| | | | |]; subst.
  simplify_eq. assert (contract = contract') as -> by congruence.
  destruct (validate_replacement _ _ Hv) as [Hrep Hnew].
  apply source_matches_contract in Hsrc as (-> & _ & _).
  unfold replacement_preserves, valid_new_token in *. boolify.
  split; simpl; [done|apply blake3_length|done|apply timestamptz_mono; lia|].
  exists value, (au_contract source), (nt_audiences token). rewrite trimmed_contracts. simpl.
  split_and!; try done. unfold validate_refresh_commit in Hv. simpl in Hv.
  destruct (_ || _) in Hv; [done|]. destruct (_ || _) eqn:Hexist in Hv; [done|].
  boolify. repeat match goal with H : is_subset _ _ = true |- _ => apply is_subset_spec in H end.
  set_solver.
Qed.

(** The contract of a new family is a known one. *)
Definition known_label (l : label) : Prop := ∀ token contract, l = LCreated token contract → known contract.

Lemma change_families_ok lo hi l t t' :
  collision_free known → known_label l → change lo hi l t t' → tables_ok t →
  ∀ key row, families t' !! key = Some row → family_ok t' key row.
Proof.
  intros Hfree Hknown Hc Hok key row' Hr.
  destruct (change_family _ _ _ _ _ _ _ Hc Hr) as
    [(token & contract & prepared & -> & -> & Hp & _ & ->)|[(token & source & family & -> & -> & Hf & _ & _ & ->)|
     (row & Hrow & Hrev & Hnot)]].
  - eapply new_family_ok; [done|by eapply Hknown|done..].
  - eapply rotated_family_ok; [done..|]. by apply to_families.
  - eapply revocation_family_ok; [done|]. eapply family_ok_contracts; [|by apply to_families].
    intros value Hv. destruct (change_contract_kept _ _ _ _ _ _ _ Hc Hv) as [?|(Hno & _)]; [done|].
    by destruct (referenced_false _ _ _ _ Hno Hrow).
Qed.

(** The digest of a row that a change writes is no other row's. *)
Lemma change_digest_new lo hi l t t' key row' :
  change lo hi l t t' → families t' !! key = Some row' →
  (∃ row, families t !! key = Some row ∧ row'.(fr_tenant_id) = row.(fr_tenant_id) ∧
     row'.(fr_current_token_blake3) = row.(fr_current_token_blake3)) ∨
  ∀ other row, families t !! other = Some row → other ≠ key →
    row.(fr_tenant_id) = row'.(fr_tenant_id) →
    row.(fr_current_token_blake3) ≠ row'.(fr_current_token_blake3).
Proof.
  intros Hc Hr. destruct (change_family _ _ _ _ _ _ _ Hc Hr) as
    [(token & contract & prepared & -> & -> & _ & _ & ->)|[(token & source & family & -> & -> & Hf & _ & _ & ->)|
     (row & Hrow & (rv & re & -> & _) & _)]]; [| |left; exists row; done].
  - right. inversion Hc; subst. simpl. by apply digest_taken_false.
  - right. inversion Hc; subst. simplify_eq. simpl. by apply digest_taken_false.
Qed.

Lemma change_digests lo hi l t t' :
  change lo hi l t t' → digests_unique t → digests_unique t'.
Proof.
  intros Hc Hok key row key' row' Hr Hr' Hten Hd. destruct (decide (key = key')) as [|Hne]; [done|].
  assert (∀ k r k' r', families t' !! k = Some r → families t' !! k' = Some r' → k ≠ k' →
    r.(fr_tenant_id) = r'.(fr_tenant_id) → r.(fr_current_token_blake3) = r'.(fr_current_token_blake3) →
    ∃ old, families t !! k = Some old ∧ r.(fr_tenant_id) = old.(fr_tenant_id) ∧
      r.(fr_current_token_blake3) = old.(fr_current_token_blake3)) as Hold.
  { intros k r k' r' Hk Hk' Hkk Ht Hdd.
    destruct (change_digest_new _ _ _ _ _ _ _ Hc Hk) as [?|Hnew]; [done|].
    destruct (change_digest_new _ _ _ _ _ _ _ Hc Hk') as [(old & Ho & Ht' & Hd')|Hnew'].
    - destruct (Hnew k' old); [done..|congruence|congruence].
    - exfalso. destruct (change_family _ _ _ _ _ _ _ Hc Hk) as
        [(?&?&?&->&->&_)|[(?&?&?&->&->&_)|(o & Ho & (?&?&->&_) & _)]];
      destruct (change_family _ _ _ _ _ _ _ Hc Hk') as
        [(?&?&?&?&->&_)|[(?&?&?&?&->&_)|(o' & Ho' & (?&?&->&_) & _)]]; simplify_eq; try done.
      all: try by eapply Hnew; [exact Ho'| |..]; try done.
      all: try by eapply Hnew'; [exact Ho| |..]; try done. }
  destruct (Hold _ _ _ _ Hr Hr') as (o & Ho & ? & ?); [done..|].
  destruct (Hold _ _ _ _ Hr' Hr) as (o' & Ho' & ? & ?); [done..|].
  eapply Hok; [exact Ho|exact Ho'|congruence|congruence].
Qed.

Lemma change_issuance lo hi l t t' id row :
  change lo hi l t t' → issuances t' !! id = Some row →
  issuances t !! id = Some row ∨
  ∃ digest deadline r e at_, l = LIssued row.(ir_client_id) digest deadline ∧
    row.(ir_single_use_key_blake3) = Some digest ∧ key_used t row.(ir_client_id) digest = false ∧
    lo ≤ at_ < timestamptz deadline ∧ deadline ≤ r ∧ e ≤ r ∧
    row.(ir_retain_until) = timestamptz r ∧ row.(ir_access_token_expires_at) = timestamptz e.
Proof.
  destruct 1; simpl; auto.
  - destruct H as (_ & _ & _ & ->). auto.
  - rewrite H1. auto.
  - rewrite ensure_issuances. auto.
  - rewrite trimmed_issuances. auto.
  - rewrite lookup_insert. case_decide; [|auto]. intros [= <-]. right.
    destruct H3 as (r & e & ? & ? & ? & ?). exists digest, deadline, r, e, at_. split_and!; done || lia.
  - rewrite lookup_delete_all_Some. naive_solver.
Qed.

Lemma key_used_spec t client_id digest :
  key_used t client_id digest = true ↔
  ∃ id row, issuances t !! id = Some row ∧ row.(ir_client_id) = client_id ∧
    row.(ir_single_use_key_blake3) = Some digest.
Proof.
  unfold key_used. rewrite existsb_exists. split.
  - intros ([id row] & Hin%list_elem_of_In%elem_of_map_to_list & H). boolify. simpl in *. eauto.
  - intros (id & row & Hr & <- & Hd). exists (id, row).
    split; [by apply list_elem_of_In, elem_of_map_to_list|]. simpl.
    by rewrite Z.eqb_refl, Hd, bool_decide_true.
Qed.

Lemma change_tables_ok lo hi l t t' :
  collision_free known → known_label l → change lo hi l t t' → tables_ok t → tables_ok t'.
Proof.
  intros Hfree Hknown Hc Hok. split.
  - by eapply change_families_ok.
  - by eapply change_digests, to_digests.
  - intros tenant_id digest value c w Hc' Hv Hw Hd.
    destruct (change_contract_new _ _ _ _ _ _ _ _ Hc Hv) as [?|(token & contract & prepared & -> & Hp & -> & ->)];
      [by eapply to_contracts|].
    apply prepare_new_Ok in Hp as (_ & _ & _ & <- & w' & Hw' & Hk).
    eapply Hfree; [done|by apply (Hknown token)|done..|congruence].
  - intros k row Hr. destruct (change_proof _ _ _ _ _ _ _ Hc Hr) as
      [Hold|(token & source & family & -> & Hf & -> & -> & _)].
    + destruct (to_proofs _ Hok _ _ Hold) as [Hlen Hsome]. split; [done|].
      destruct (change_family_kept _ _ _ _ _ _ Hc Hsome) as [?|(Hno & _)]; [done|].
      apply has_proofs_false in Hno. simpl in Hno.
      assert ((k, row) ∈ family_proofs t k.1 (sp_token_family_id row)) as Hin by by apply elem_of_proofs.
      rewrite Hno in Hin. by apply elem_of_nil in Hin.
    + split; [by apply to_families in Hf; [destruct Hf|]|].
      inversion Hc; subst. simpl. rewrite trimmed_families. by apply lookup_insert_is_Some'; left.
  - intros id row digest Hr Hd. destruct (change_issuance _ _ _ _ _ _ _ Hc Hr) as
      [?|(? & ? & r & e & ? & _ & _ & _ & _ & _ & ? & -> & ->)]; [by eapply to_retention|].
    by apply timestamptz_mono.
  - intros id row id' row' digest Hr Hr' Hcl Hd Hd'.
    destruct (change_issuance _ _ _ _ _ _ _ Hc Hr) as [Ho|(? & ? & ? & ? & ? & -> & ? & Hu & _)];
    destruct (change_issuance _ _ _ _ _ _ _ Hc Hr') as [Ho'|(? & ? & ? & ? & ? & E & ? & Hu' & _)];
      simplify_eq.
    + by eapply to_single_use.
    + apply not_true_iff_false in Hu'. destruct Hu'. apply key_used_spec. naive_solver.
    + apply not_true_iff_false in Hu. destruct Hu. apply key_used_spec. naive_solver.
    + inversion Hc; subst. simpl in *. rewrite lookup_insert in Hr, Hr'.
      do 2 case_decide; simplify_eq; [done|..]; exfalso;
        match goal with H : key_used _ _ _ = false |- _ => apply not_true_iff_false in H; apply H end;
        apply key_used_spec; naive_solver.
Qed.

End wellformed.

(** ** Authority *)

Section authority.
Context `{D : Deployment}.

Lemma strings_roundtrip l : strings_from_value (strings_to_value l) = Some l.
Proof.
  apply mapM_Some_2, Forall2_fmap_l. by induction l; constructor.
Qed.

#[local] Arguments strings_from_value : simpl never.
#[local] Arguments strings_to_value : simpl never.

(** A later row of a family: the same owner, contract and sender constraints,
    an audience within the earlier one, and the revocation facts of the earlier
    one, after which the generation stays. *)
Record narrowed (t t' : Tables) (row row' : RefreshFamilyRow) : Prop := {
  nw_tenant : row'.(fr_tenant_id) = row.(fr_tenant_id);
  nw_client : row'.(fr_client_id) = row.(fr_client_id);
  nw_user : row'.(fr_user_id) = row.(fr_user_id);
  nw_contract_key : row'.(fr_contract_blake3) = row.(fr_contract_blake3);
  nw_contract value :
    contracts t !! (row.(fr_tenant_id), row.(fr_contract_blake3)) = Some value →
    contracts t' !! (row.(fr_tenant_id), row.(fr_contract_blake3)) = Some value;
  nw_dpop : row'.(fr_dpop_jkt) = row.(fr_dpop_jkt);
  nw_mtls : row'.(fr_mtls_x5t_s256) = row.(fr_mtls_x5t_s256);
  nw_attestation : row'.(fr_client_attestation_jkt) = row.(fr_client_attestation_jkt);
  nw_audience audiences audiences' :
    strings_from_value row.(fr_current_audience) = Some audiences →
    strings_from_value row'.(fr_current_audience) = Some audiences' → audiences' ⊆ audiences;
  nw_readable : is_Some (strings_from_value row.(fr_current_audience)) →
    is_Some (strings_from_value row'.(fr_current_audience));
  nw_revoked : is_Some row.(fr_revoked_at) →
    row'.(fr_revoked_at) = row.(fr_revoked_at) ∧
    row'.(fr_current_member_id) = row.(fr_current_member_id) ∧
    row'.(fr_current_token_blake3) = row.(fr_current_token_blake3);
  nw_reuse : is_Some row.(fr_reuse_detected_at) →
    row'.(fr_reuse_detected_at) = row.(fr_reuse_detected_at) ∧
    row'.(fr_current_member_id) = row.(fr_current_member_id) ∧
    row'.(fr_current_token_blake3) = row.(fr_current_token_blake3);
}.

Lemma narrowed_refl t row : narrowed t t row row.
Proof. split; try done. intros. simplify_eq. done. Qed.

Lemma narrowed_trans t1 t2 t3 row1 row2 row3 :
  narrowed t1 t2 row1 row2 → narrowed t2 t3 row2 row3 → narrowed t1 t3 row1 row3.
Proof.
  intros H1 H2. destruct H1 as [e1 e2 e3 e4 Hc e6 e7 e8 Ha Hr Hrev Hreu].
  destruct H2 as [f1 f2 f3 f4 Hc' f6 f7 f8 Ha' Hr' Hrev' Hreu']. split; try congruence.
  - intros. rewrite e1, e4 in Hc'. auto.
  - intros a a' Hx Hy. destruct (Hr ltac:(eauto)) as [b Hb].
    specialize (Ha _ _ Hx Hb). specialize (Ha' _ _ Hb Hy). set_solver.
  - auto.
  - intros Hs. destruct (Hrev Hs) as (E1 & E2 & E3). rewrite E1, E2, E3 in Hrev'. auto.
  - intros Hs. destruct (Hreu Hs) as (E1 & E2 & E3). rewrite E1, E2, E3 in Hreu'. auto.
Qed.

Lemma revocation_narrowed t t' row row' :
  (∀ value, contracts t !! (row.(fr_tenant_id), row.(fr_contract_blake3)) = Some value →
    contracts t' !! (row.(fr_tenant_id), row.(fr_contract_blake3)) = Some value) →
  revocation_of row row' → narrowed t t' row row'.
Proof.
  intros Hc (rv & re & -> & H1 & H2). split; simpl; try done.
  - intros. simplify_eq. done.
  - intros H. by rewrite H1.
  - intros H. by rewrite H2.
Qed.

(** The rotation that a change makes keeps to its source. *)
Lemma rotated_narrowed lo hi t t' token source family :
  change lo hi (LRotated token source) t t' → families t !! token_key token = Some family →
  narrowed t t' family (rotated token family).
Proof.
  intros Hc Hf. inversion Hc as [| | |? ? family' value contract au token' Hv Hf' Hact _ _ Hsrc _ _| | | | |]; subst.
  simplify_eq. apply source_matches_contract in Hsrc as (_ & Haud & _).
  destruct (validate_replacement _ _ Hv) as [Hrep _].
  unfold active_at, replacement_preserves in *. boolify.
  split; simpl; try done.
  - by rewrite trimmed_contracts.
  - rewrite Haud. intros a a'. rewrite !strings_roundtrip. intros. simplify_eq.
    by apply is_subset_spec.
  - rewrite strings_roundtrip. eauto.
  - by intros [? E]; rewrite E in *.
  - by intros [? E]; rewrite E in *.
Qed.

(** An operation that could create the family anew. *)
Definition creates (key : Uuid * Uuid) (op : Operation) : Prop :=
  ∃ c lost clocks input token contract, op = OpCommit c lost clocks input ∧
    input.(ci_refresh_token) = Some (IssueNew token contract) ∧ token_key token = key.

Lemma change_narrowed lo hi l t t' key row :
  change lo hi l t t' → families t !! key = Some row →
  families t' !! key = None ∨ ∃ row', families t' !! key = Some row' ∧ narrowed t t' row row'.
Proof.
  intros Hc Hrow. destruct (families t' !! key) as [row'|] eqn:Hr; [right|by left].
  exists row'. split; [done|]. destruct (change_family _ _ _ _ _ _ _ Hc Hr) as
    [(token & contract & prepared & -> & -> & _ & Hnone & ->)|[(token & source & family & -> & -> & Hf & _ & _ & ->)|
     (row1 & Hrow1 & Hrev & _)]]; simplify_eq.
  - by eapply rotated_narrowed.
  - apply revocation_narrowed; [|done]. intros value Hv.
    destruct (change_contract_kept _ _ _ _ _ _ _ Hc Hv) as [?|(Hno & _)]; [done|].
    by destruct (referenced_false _ _ _ _ Hno Hrow).
Qed.

Lemma steps_narrowed now t h now' t' key row :
  keys_ok t → steps now t h now' t' → (∀ op r, (op, r) ∈ h → ¬ creates key op) →
  families t !! key = Some row →
  families t' !! key = None ∨ ∃ row', families t' !! key = Some row' ∧ narrowed t t' row row'.
Proof.
  intros Hk Hs Hno Hrow.
  eapply (steps_invariant (fun _ t1 => families t1 !! key = None ∨
    ∃ row1, families t1 !! key = Some row1 ∧ narrowed t t1 row row1)) in Hs as (? & _ & _); [done|done| |done|].
  - intros lo hi op r l t1 t2 _ Hin Hl Hk1 Hc [Hnone|(row1 & Hr1 & Hn1)].
    + destruct (families t2 !! key) as [row2|] eqn:Hr2; [|by left]. exfalso.
      destruct (change_family _ _ _ _ _ _ _ Hc Hr2) as
        [(token & contract & prepared & -> & -> & _)|[(? & ? & ? & _ & _ & ? & _)|(? & ? & _)]]; try congruence.
      destruct Hl as (c & lost & clocks & input & -> & Hinput).
      eapply Hno; [done|]. unfold creates. eauto 10.
    + destruct (change_narrowed _ _ _ _ _ _ _ Hc Hr1) as [?|(row2 & Hr2 & Hn2)]; [by left|right].
      exists row2. split; [done|]. by eapply narrowed_trans.
  - right. exists row. split; [done|]. apply narrowed_refl.
Qed.

End authority.

(** ** One exchange per token *)

Section once.
Context `{D : Deployment}.

Lemma steps_split now t h1 op r h2 now' t' :
  steps now t (h1 ++ (op, r) :: h2) now' t' →
  ∃ now1 t1 now2 t2, steps now t h1 now1 t1 ∧ timed now1 now2 op ∧ perform op t1 = (r, t2) ∧
    steps now2 t2 h2 now' t'.
Proof.
  revert now' t'. induction h2 as [|[op' r'] h2 IH] using rev_ind; intros now' t' Hs.
  - inversion Hs as [E|h now1 t1 op1 r1 now2 t2 Hs1 Ht Hp E]; subst.
    + by destruct h1.
    + apply app_inj_tail in E as [-> [= -> ->]]. do 4 eexists. split_and!; eauto. constructor.
  - rewrite app_comm_cons, app_assoc in Hs.
    inversion Hs as [E|h now1 t1 op1 r1 now2 t2 Hs1 Ht Hp E]; subst.
    + symmetry in E. by apply app_nil in E as [_ ?].
    + apply app_inj_tail in E as [-> [= -> ->]].
      destruct (IH _ _ Hs1) as (n1 & u1 & n2 & u2 & ? & ? & ? & ?).
      do 4 eexists. split_and!; eauto. econstructor; eauto.
Qed.

Lemma changes_elem lo hi ls t t' l :
  changes lo hi ls t t' → l ∈ ls →
  ∃ ls1 ls2 t1 t2, ls = ls1 ++ l :: ls2 ∧ changes lo hi ls1 t t1 ∧ change lo hi l t1 t2 ∧
    changes lo hi ls2 t2 t'.
Proof.
  induction 1 as [|l' ls t t1 t2 Hc Hcs IH]; intros Hin; [by apply elem_of_nil in Hin|].
  apply elem_of_cons in Hin as [->|Hin].
  - exists [], ls, t, t1. split_and!; [done|constructor|done|done].
  - destruct (IH Hin) as (ls1 & ls2 & u1 & u2 & -> & ? & ? & ?).
    exists (l' :: ls1), ls2, u1, u2. split_and!; [done|by econstructor|done|done].
Qed.

(** The refresh tokens that the commits of a history bring. *)
Definition op_token (op : Operation) : option NewRefreshToken :=
  match op with
  | OpCommit _ _ _ input => input.(ci_refresh_token) ≫= commit_token
  | _ => None
  end.

Definition new_tokens (h : history) : list NewRefreshToken := omap (fun e => op_token e.1) h.

Definition token_digest (token : NewRefreshToken) : string := blake3_hash token.(nt_raw_token).

Definition apart (row : RefreshFamilyRow) (token : NewRefreshToken) : Prop :=
  row.(fr_current_member_id) ≠ token.(nt_member_id) ∧
  row.(fr_current_token_blake3) ≠ token_digest token.

(** The generated members and tokens are new, as the identifiers of
    [Uuid::now_v7] and the digests of random tokens are. *)
Record fresh_tokens (t : Tables) (h : history) : Prop := {
  ft_members : NoDup (nt_member_id <$> new_tokens h);
  ft_digests : NoDup (token_digest <$> new_tokens h);
  ft_rows key row token : families t !! key = Some row → token ∈ new_tokens h → apart row token;
}.

Lemma elem_of_new_tokens h token :
  token ∈ new_tokens h ↔ ∃ op r, (op, r) ∈ h ∧ op_token op = Some token.
Proof.
  unfold new_tokens. rewrite list_elem_of_omap. split.
  - intros ([op r] & ? & ?). eauto.
  - intros (op & r & ? & ?). exists (op, r). eauto.
Qed.

Lemma new_tokens_app h1 h2 : new_tokens (h1 ++ h2) = new_tokens h1 ++ new_tokens h2.
Proof. apply omap_app. Qed.

Lemma new_tokens_cons op r h token :
  op_token op = Some token → new_tokens ((op, r) :: h) = token :: new_tokens h.
Proof. intros H. unfold new_tokens. simpl. by rewrite H. Qed.

Definition label_token (l : label) : option NewRefreshToken :=
  match l with LCreated token _ | LRotated token _ => Some token | _ => None end.

(** A label's new token is its commit's. *)
Lemma label_op_token op l token : commit_label op l → label_token l = Some token → op_token op = Some token.
Proof.
  destruct l as [| |token' contract|token' source| |]; simpl; try done;
    intros (c & lost & clocks & input & -> & Hin) [= <-]; simpl; by rewrite Hin.
Qed.

Definition current (token : NewRefreshToken) (row : RefreshFamilyRow) : Prop :=
  row.(fr_current_member_id) = token.(nt_member_id) ∧
  row.(fr_current_token_blake3) = token_digest token.

Definition same_generation (row row' : RefreshFamilyRow) : Prop :=
  row'.(fr_current_member_id) = row.(fr_current_member_id) ∧
  row'.(fr_current_token_blake3) = row.(fr_current_token_blake3).

(** The generation of a row was there, or its token is the change's. *)
Lemma change_origin lo hi l t t' key row' :
  change lo hi l t t' → families t' !! key = Some row' →
  (∃ row, families t !! key = Some row ∧ same_generation row row') ∨
  ∃ token, label_token l = Some token ∧ key = token_key token ∧ current token row'.
Proof.
  intros Hc Hr. destruct (change_family _ _ _ _ _ _ _ Hc Hr) as
    [(token & contract & prepared & -> & -> & _ & _ & ->)|[(token & source & family & -> & -> & _ & _ & _ & ->)|
     (row & Hrow & (rv & re & -> & _) & _)]]; [right; exists token; done..|left; exists row; done].
Qed.

Lemma steps_origin now t h now' t' key row :
  keys_ok t → steps now t h now' t' → families t' !! key = Some row →
  (∃ row0, families t !! key = Some row0 ∧ same_generation row0 row) ∨
  ∃ token, token ∈ new_tokens h ∧ key = token_key token ∧ current token row.
Proof.
  intros Hk Hs Hrow. eapply (steps_invariant (fun _ t1 => ∀ key row, families t1 !! key = Some row →
    (∃ row0, families t !! key = Some row0 ∧ same_generation row0 row) ∨
    ∃ token, token ∈ new_tokens h ∧ key = token_key token ∧ current token row)) in Hs as (Hi & _ & _);
    [eauto|done| |done|].
  - intros lo hi op r l t1 t2 _ Hin Hl _ Hc IH k row' Hr.
    destruct (change_origin _ _ _ _ _ _ _ Hc Hr) as [(row1 & Hr1 & Hm & Hd)|(token & Ht & Hcur)].
    + destruct (IH _ _ Hr1) as [(row0 & ? & ? & ?)|(token & ? & ? & ? & ?)].
      * left. exists row0. split; [done|]. split; congruence.
      * right. exists token. split; [done|]. split; [done|]. split; congruence.
    + right. exists token. split; [|done]. apply elem_of_new_tokens. exists op, r.
      split; [done|]. by eapply label_op_token.
  - intros k row' ?. left. exists row'. done.
Qed.

Lemma apart_elem {A} (f : NewRefreshToken → A) l1 l2 token1 token2 :
  NoDup (f <$> l1 ++ l2) → token1 ∈ l1 → token2 ∈ l2 → f token1 ≠ f token2.
Proof.
  rewrite fmap_app. intros (_ & Hd & _)%NoDup_app H1 H2 E.
  apply (Hd (f token1)); [by apply list_elem_of_fmap_2|]. rewrite E. by apply list_elem_of_fmap_2.
Qed.

(** The rows before a part of the history are not at a token that it brings. *)
Lemma rows_apart now t h1 h2 now1 t1 key row token :
  keys_ok t → fresh_tokens t (h1 ++ h2) → steps now t h1 now1 t1 →
  families t1 !! key = Some row → token ∈ new_tokens h2 → apart row token.
Proof.
  intros Hk [Hm Hd Hrows] Hs Hrow Hin. rewrite new_tokens_app in Hm, Hd.
  destruct (steps_origin _ _ _ _ _ _ _ Hk Hs Hrow) as [(row0 & Hrow0 & Em & Ed)|(token' & Hin' & _ & Em & Ed)];
    unfold apart; rewrite Em, Ed.
  - eapply Hrows; [done|]. rewrite new_tokens_app. apply elem_of_app. by right.
  - split; eapply apart_elem; eauto.
Qed.

(** *** What an exchange leaves *)

(** The rows at the token's member are the family's, at the token. *)
Definition held (token : NewRefreshToken) (t : Tables) : Prop :=
  ∀ key row, families t !! key = Some row → row.(fr_current_member_id) = token.(nt_member_id) →
    key = token_key token ∧ row.(fr_current_token_blake3) = token_digest token.

Lemma change_held lo hi l t t' token :
  change lo hi l t t' →
  (∀ other, label_token l = Some other → other.(nt_member_id) = token.(nt_member_id) → other = token) →
  held token t → held token t'.
Proof.
  intros Hc Hl Hh key row' Hr Hm.
  destruct (change_origin _ _ _ _ _ _ _ Hc Hr) as [(row & Hrow & Em & ->)|(other & Ho & -> & Em & ->)].
  - apply Hh; [done|congruence].
  - rewrite (Hl other Ho) by congruence. done.
Qed.

(** After the exchange of [au]'s token for [token] at [at_]: the spent token is
    no family's; the family is not at its member; the member of the successor is
    the successor's; a proof of the spent token leads to it. *)
Record exchanged (au : RefreshTokenAuthority) (token : NewRefreshToken) (at_ : DateTime) (t : Tables)
    : Prop := {
  ex_key : token_key token = authority_key au;
  ex_gone key row : families t !! key = Some row → key.1 = au.(au_tenant_id) →
    row.(fr_current_token_blake3) ≠ au.(au_token_blake3);
  ex_left row : families t !! authority_key au = Some row →
    row.(fr_current_member_id) ≠ au.(au_member_id);
  ex_held : held token t;
  ex_proof row : spent t !! (au.(au_tenant_id), au.(au_token_blake3)) = Some row →
    row.(sp_successor_member_id) = token.(nt_member_id) ∧ row.(sp_spent_at) = timestamptz at_;
}.

(** A token that does not bring the exchange's back. *)
Record unlike (au : RefreshTokenAuthority) (token other : NewRefreshToken) : Prop := {
  ul_member : other.(nt_member_id) ≠ au.(au_member_id);
  ul_digest : token_digest other ≠ au.(au_token_blake3);
  ul_token : other.(nt_member_id) = token.(nt_member_id) → other = token;
}.

Lemma change_exchanged lo hi l t t' au token at_ :
  change lo hi l t t' → (∀ other, label_token l = Some other → unlike au token other) →
  exchanged au token at_ t → exchanged au token at_ t'.
Proof.
  intros Hc Hl Hex. split; [apply Hex|..].
  - intros key row' Hr Hten.
    destruct (change_origin _ _ _ _ _ _ _ Hc Hr) as [(row & Hrow & _ & ->)|(other & Ho & _ & _ & ->)];
      [by eapply ex_gone|by eapply ul_digest, Hl].
  - intros row' Hr.
    destruct (change_origin _ _ _ _ _ _ _ Hc Hr) as [(row & Hrow & -> & _)|(other & Ho & _ & -> & _)];
      [by eapply ex_left|by eapply ul_member, Hl].
  - eapply change_held; [done| |apply Hex]. intros. by eapply ul_token; [apply Hl|].
  - intros row Hr. destruct (change_proof _ _ _ _ _ _ _ Hc Hr) as
      [?|(other & source & family & -> & Hf & E & _)]; [by eapply ex_proof|].
    injection E as E1 E2. destruct (ex_gone _ _ _ _ Hex _ _ Hf); done.
Qed.

Lemma perform_commit op c lost clocks input t r t' :
  op = OpCommit c lost clocks input → perform op t = (Some r, t') →
  commit_token_issuance c lost clocks input t = (r, t').
Proof. intros ->. simpl. destruct (commit_token_issuance _ _ _ _ _). by intros [= -> ->]. Qed.

Lemma committed_post lo hi c lost clocks input t t' :
  keys_ok t → commit_timed lo hi clocks →
  commit_token_issuance c lost clocks input t = (Ok Committed, t') →
  commit_post lo hi clocks input Committed t t'.
Proof.
  intros Hk Ht H. eapply (commit_cases lo hi) in H as [(_ & [] & _)|(r & Hpost & [[= <-]|(_ & e & ?)])]; done.
Qed.

(** A commit that reports a result has validated its input. *)
Lemma commit_validated c lost clocks input au rotation t r t' :
  commit_token_issuance c lost clocks input t = (Ok r, t') →
  input.(ci_refresh_token) = Some (UseExisting au rotation) →
  validate_refresh_commit (UseExisting au rotation) = Ok tt.
Proof.
  unfold commit_token_issuance. intros H Hin.
  destruct (prepare_commit input) as [[[prepared e] ru]|] eqn:Hp; [|done].
  apply prepare_commit_Ok in Hp as (_ & _ & _ & Hp). rewrite Hin in Hp.
  by eapply prepare_contract_existing.
Qed.

Lemma usable_current at_ au t :
  usable at_ au t →
  ∃ row, families t !! authority_key au = Some row ∧
    row.(fr_current_member_id) = au.(au_member_id) ∧
    row.(fr_current_token_blake3) = au.(au_token_blake3).
Proof.
  intros (family & value & contract & ? & _ & _ & _ & Hs). exists family. split; [done|].
  unfold source_matches in Hs. by boolify.
Qed.

Lemma rotated_exchanged lo hi t t' au token :
  change lo hi (LRotated token au) t t' → keys_ok t → digests_unique t →
  unlike au token token → held token t → exchanged au token hi t'.
Proof.
  intros Hc Hk Hu Hun Hh.
  assert (held token t') as Hh' by (eapply change_held; [done|by intros ? [= <-]|done]).
  inversion Hc as [| | |? client_type family value contract ? ? Hv Hf Hact Hval Hcon Hsrc Hnone _| | | | |]; subst.
  apply validate_replacement in Hv as [Hrep%replacement_key _]. fold (authority_key au) in Hrep.
  assert (family.(fr_current_token_blake3) = au.(au_token_blake3)) as Ed
    by (unfold source_matches in Hsrc; by boolify).
  pose proof (Hk _ _ Hf) as Hkey. split; [done|..].
  - intros key row Hr Hten. simpl in Hr. rewrite lookup_insert, trimmed_families in Hr. simpl in Hr.
    case_decide as E; [simplify_eq; apply (ul_digest _ _ _ Hun)|]. intros Ed'. apply E. symmetry.
    eapply Hu; [exact Hr|exact Hf| |congruence].
    pose proof (Hk _ _ Hr) as Hkey'. rewrite Hkey' in Hten. rewrite Hrep in Hkey. simpl in Hten.
    injection Hkey as ? ?. congruence.
  - intros row Hr. simpl in Hr. rewrite <- Hrep, lookup_insert_eq in Hr. simplify_eq.
    apply (ul_member _ _ _ Hun).
  - done.
  - intros row Hr. simpl in Hr. apply trimmed_spent_Some in Hr. simpl in Hr.
    rewrite <- Ed in Hr. replace (au_tenant_id au) with (nt_tenant_id token) in Hr by (by injection Hrep).
    rewrite lookup_insert_eq in Hr. by simplify_eq.
Qed.

Lemma changes_digests lo hi ls t t' : changes lo hi ls t t' → digests_unique t → digests_unique t'.
Proof. induction 1; eauto using change_digests. Qed.

Lemma steps_digests now t h now' t' :
  keys_ok t → steps now t h now' t' → digests_unique t → digests_unique t'.
Proof.
  intros Hk Hs Hu. eapply (steps_invariant (fun _ => digests_unique)) in Hs as (? & _ & _); try done.
  intros. by eapply change_digests.
Qed.

(** A committed rotation has one change that rotates the family, amid changes
    that bring no other token. *)
Lemma committed_rotation lo hi c lost clocks input au token t t' :
  keys_ok t → commit_timed lo hi clocks →
  commit_token_issuance c lost clocks input t = (Ok Committed, t') →
  input.(ci_refresh_token) = Some (UseExisting au (Some token)) →
  ∃ ls1 ls2 t1 t2, changes lo hi ls1 t t1 ∧ change lo hi (LRotated token au) t1 t2 ∧
    changes lo hi ls2 t2 t' ∧
    ∀ l, l ∈ ls1 ++ ls2 → commit_label (OpCommit c lost clocks input) l.
Proof.
  intros Hk Ht H Hin. apply (committed_post lo hi) in H as (ls & Hcs & Hfrom & _ & Hrest); [|done..].
  rewrite Hin in Hrest. destruct Hrest as [Hl _].
  destruct (changes_elem _ _ _ _ _ _ Hcs Hl) as (ls1 & ls2 & t1 & t2 & -> & Hcs1 & Hc & Hcs2).
  exists ls1, ls2, t1, t2. split_and!; try done.
  intros l Hl2. assert (label_from input l) by (apply Hfrom; set_solver). destruct l; simpl in *; eauto 10.
Qed.

Lemma committed_admitted lo hi c lost clocks input au rotation t t' :
  keys_ok t → commit_timed lo hi clocks →
  commit_token_issuance c lost clocks input t = (Ok Committed, t') →
  input.(ci_refresh_token) = Some (UseExisting au rotation) →
  usable clocks.(tx_transition_at) au t ∧ retry_valid au rotation t.
Proof.
  intros Hk Ht H Hin. apply (committed_post lo hi) in H as (ls & _ & _ & _ & Hrest); [|done..].
  rewrite Hin in Hrest. by destruct Hrest as [_ ?].
Qed.

Lemma commit_exchanged lo hi c lost clocks input au token t t' :
  keys_ok t → digests_unique t → commit_timed lo hi clocks →
  commit_token_issuance c lost clocks input t = (Ok Committed, t') →
  input.(ci_refresh_token) = Some (UseExisting au (Some token)) →
  (∀ key row, families t !! key = Some row → apart row token) →
  exchanged au token clocks.(tx_transition_at) t'.
Proof.
  intros Hk Hu Ht H Hin Hnew. destruct (committed_admitted lo hi _ _ _ _ _ _ _ _ Hk Ht H Hin) as [Hus _].
  destruct (usable_current _ _ _ Hus) as (row & Hrow & Em & Ed).
  destruct (Hnew _ _ Hrow) as [Hm Hd].
  assert (unlike au token token) as Hun by (split; congruence).
  destruct (committed_rotation lo hi _ _ _ _ _ _ _ _ Hk Ht H Hin) as
    (ls1 & ls2 & t1 & t2 & Hcs1 & Hc & Hcs2 & Hl). destruct Ht as (_ & _ & ->).
  pose proof (changes_keys_ok _ _ _ _ _ Hcs1 Hk) as Hk1.
  eapply (changes_invariant (OpCommit c lost clocks input)); [|exact Hcs2| | |].
  - intros l u u' Hl' _ Hc'. eapply change_exchanged; [done|]. intros other Ho.
    eapply label_op_token in Ho; [|done]. simpl in Ho. rewrite Hin in Ho. by injection Ho as <-.
  - intros. apply Hl. set_solver.
  - by eapply change_keys_ok.
  - eapply rotated_exchanged; try done; [by eapply changes_digests|].
    eapply (changes_invariant (OpCommit c lost clocks input) (held token)); [|exact Hcs1| |done|].
    + intros l u u' Hl' _ Hc'. eapply change_held; [done|]. intros other Ho _.
      eapply label_op_token in Ho; [|done]. simpl in Ho. rewrite Hin in Ho. by injection Ho.
    + intros. apply Hl. set_solver.
    + intros key row' Hr E. by destruct (Hnew _ _ Hr).
Qed.

(** The committed rotation of a family. *)
Definition rotates (key : Uuid * Uuid) (e : Operation * response) (token : NewRefreshToken) : Prop :=
  ∃ c lost clocks input au, e = (OpCommit c lost clocks input, Some (Ok Committed)) ∧
    input.(ci_refresh_token) = Some (UseExisting au (Some token)) ∧ authority_key au = key.

Lemma commit_current lo hi c lost clocks input au token t t' row :
  keys_ok t → commit_timed lo hi clocks →
  commit_token_issuance c lost clocks input t = (Ok Committed, t') →
  input.(ci_refresh_token) = Some (UseExisting au (Some token)) →
  families t' !! authority_key au = Some row → current token row.
Proof.
  intros Hk Ht H Hin. revert row. pose proof (commit_validated _ _ _ _ _ _ _ _ _ H Hin) as Hv.
  apply validate_replacement in Hv as [Hrep%replacement_key _]. fold (authority_key au) in Hrep.
  destruct (committed_rotation lo hi _ _ _ _ _ _ _ _ Hk Ht H Hin) as
    (ls1 & ls2 & t1 & t2 & Hcs1 & Hc & Hcs2 & Hl).
  eapply (changes_invariant (OpCommit c lost clocks input)
    (fun t => ∀ row, families t !! authority_key au = Some row → current token row)); [|exact Hcs2| | |].
  - intros l u u' Hl' _ Hc' IH row Hr.
    destruct (change_origin _ _ _ _ _ _ _ Hc' Hr) as [(row0 & Hr0 & Em & Ed)|(other & Ho & _ & Hcur)].
    + unfold current. rewrite Em, Ed. by apply IH.
    + eapply label_op_token in Ho; [|done]. simpl in Ho. rewrite Hin in Ho. by injection Ho as <-.
  - intros. apply Hl. set_solver.
  - eapply change_keys_ok; [done|]. by eapply changes_keys_ok.
  - intros row Hr. inversion Hc; subst. simpl in Hr. rewrite <- Hrep, lookup_insert_eq in Hr.
    by simplify_eq.
Qed.

(** The state of a history around one of its commits. *)
Lemma steps_around now t h1 c lost clocks input r h2 now' t' :
  keys_ok t → steps now t (h1 ++ (OpCommit c lost clocks input, Some r) :: h2) now' t' →
  ∃ now1 t1 now2 t2, steps now t h1 now1 t1 ∧ keys_ok t1 ∧ commit_timed now1 now2 clocks ∧
    commit_token_issuance c lost clocks input t1 = (r, t2) ∧ keys_ok t2 ∧ steps now2 t2 h2 now' t'.
Proof.
  intros Hk Hs. apply steps_split in Hs as (now1 & t1 & now2 & t2 & Hs1 & Ht & Hp & Hs2).
  pose proof (steps_keys_ok _ _ _ _ _ Hs1 Hk) as Hk1.
  assert (keys_ok t2) by (eapply perform_changes in Hp as (ls & Hc & _); [by eapply changes_keys_ok|done..]).
  apply (perform_commit _ c lost clocks input) in Hp; [|done].
  exists now1, t1, now2, t2. destruct Ht. done.
Qed.

(** The tokens of a fresh history differ. *)
Lemma fresh_differ t h1 op r h2 token other :
  fresh_tokens t (h1 ++ (op, r) :: h2) → op_token op = Some token → other ∈ new_tokens h2 →
  other.(nt_member_id) ≠ token.(nt_member_id).
Proof.
  intros [Hm _ _] Hop Hin. rewrite new_tokens_app, (new_tokens_cons _ _ _ _ Hop) in Hm.
  rewrite cons_middle, app_assoc in Hm. apply not_eq_sym. eapply apart_elem; [exact Hm| |done].
  apply elem_of_app. right. by apply list_elem_of_singleton.
Qed.

Lemma exchanged_since now t h1 c lost clocks input au token h2 now' t' :
  keys_ok t → digests_unique t →
  steps now t (h1 ++ (OpCommit c lost clocks input, Some (Ok Committed)) :: h2) now' t' →
  fresh_tokens t (h1 ++ (OpCommit c lost clocks input, Some (Ok Committed)) :: h2) →
  input.(ci_refresh_token) = Some (UseExisting au (Some token)) →
  exchanged au token clocks.(tx_transition_at) t' ∧ keys_ok t'.
Proof.
  intros Hk Hu Hs Hfresh Hin.
  assert (op_token (OpCommit c lost clocks input) = Some token) as Hop by (simpl; by rewrite Hin).
  apply steps_around in Hs as (now1 & t1 & now2 & t2 & Hs1 & Hk1 & Ht & Hp & Hk2 & Hs2); [|done].
  destruct (committed_admitted now1 now2 _ _ _ _ _ _ _ _ Hk1 Ht Hp Hin) as [Hus _].
  destruct (usable_current _ _ _ Hus) as (row & Hrow & Em & Ed).
  split; [|by eapply steps_keys_ok].
  eapply (steps_invariant (fun _ => exchanged au token clocks.(tx_transition_at))) in Hs2 as (? & _ & _);
    [done|done| |done|].
  - intros lo hi op r l u u' _ Hin' Hl _ Hc. eapply change_exchanged; [done|]. intros other Ho.
    assert (other ∈ new_tokens h2) as Hnew by (apply elem_of_new_tokens; eauto using label_op_token).
    destruct (rows_apart now t h1 _ now1 t1 (authority_key au) row other Hk Hfresh Hs1 Hrow) as [? ?].
    { rewrite (new_tokens_cons _ _ _ _ Hop). apply elem_of_cons. by right. }
    split; [congruence..|]. intros E. by destruct (fresh_differ _ _ _ _ _ _ _ Hfresh Hop Hnew).
  - pose proof (steps_digests _ _ _ _ _ Hk Hs1 Hu).
    apply (commit_exchanged now1 now2 c lost clocks input au token t1 t2); [done..|].
    intros key row' Hr. apply (rows_apart now t h1 _ now1 t1 key row' token Hk Hfresh Hs1 Hr).
    rewrite (new_tokens_cons _ _ _ _ Hop). apply elem_of_cons. by left.
Qed.

(** A family that was rotated again is not at the exchange's successor. *)
Lemma rotated_since now t h1 c lost clocks input au token h2 now' t' e other row :
  keys_ok t →
  steps now t (h1 ++ (OpCommit c lost clocks input, Some (Ok Committed)) :: h2) now' t' →
  fresh_tokens t (h1 ++ (OpCommit c lost clocks input, Some (Ok Committed)) :: h2) →
  input.(ci_refresh_token) = Some (UseExisting au (Some token)) →
  e ∈ h2 → rotates (authority_key au) e other →
  families t' !! authority_key au = Some row → row.(fr_current_member_id) ≠ token.(nt_member_id).
Proof.
  intros Hk Hs Hfresh Hin He (c2 & lost2 & clocks2 & input2 & au2 & -> & Hin2 & Hkey) Hrow.
  assert (op_token (OpCommit c lost clocks input) = Some token) as Hop by (simpl; by rewrite Hin).
  assert (∀ other, other ∈ new_tokens h2 → other.(nt_member_id) ≠ token.(nt_member_id)) as Hdiff
    by (intros; by eapply fresh_differ).
  apply list_elem_of_split in He as (h3 & h4 & ->).
  apply steps_around in Hs as (now1 & t1 & now2 & t2 & _ & _ & _ & _ & Hk2 & Hs2); [|done].
  apply steps_around in Hs2 as (now3 & t3 & now4 & t4 & _ & Hk3 & Ht & Hp & Hk4 & Hs4); [|done].
  assert (op_token (OpCommit c2 lost2 clocks2 input2) = Some other) as Hop2 by (simpl; by rewrite Hin2).
  rewrite new_tokens_app, (new_tokens_cons _ _ _ _ Hop2) in Hdiff.
  destruct (steps_origin _ _ _ _ _ _ _ Hk4 Hs4 Hrow) as [(row0 & Hr0 & -> & _)|(other' & Ho & _ & -> & _)].
  - rewrite <- Hkey in Hr0. destruct (commit_current now3 now4 _ _ _ _ _ _ _ _ _ Hk3 Ht Hp Hin2 Hr0) as [-> _].
    apply Hdiff. set_solver.
  - apply Hdiff. set_solver.
Qed.

(** The commit presents the token of [au]: as the source of the request, or as
    the token whose response was lost. *)
Definition presents (au au' : RefreshTokenAuthority) (rotation : option NewRefreshToken) : Prop :=
  au'.(au_tenant_id) = au.(au_tenant_id) ∧
  (au'.(au_token_blake3) = au.(au_token_blake3) ∨
   (au'.(au_family_id) = au.(au_family_id) ∧ au'.(au_member_id) = au.(au_member_id)) ∨
   ∃ token retry, rotation = Some token ∧ token.(nt_lost_response_retry) = Some retry ∧
     retry.(lr_original_blake3) = au.(au_token_blake3)).

(** What a repeated exchange of [au]'s token, first exchanged at [at_] for
    [token], can be: the retry of a lost response, started within the window
    after the exchange, that rotates the first exchange's successor, which the
    family still has because no rotation of it was committed in between. *)
Record lost_response (au : RefreshTokenAuthority) (token : NewRefreshToken) (at_ : DateTime)
    (since : history) (au' : RefreshTokenAuthority) (rotation : option NewRefreshToken) (t : Tables)
    : Prop := {
  lo_retry : ∃ token' retry, rotation = Some token' ∧ token'.(nt_lost_response_retry) = Some retry ∧
    retry.(lr_original_blake3) = au.(au_token_blake3) ∧
    timestamptz at_ ≤ retry.(lr_retry_started_at)
      ≤ timestamptz at_ + LOST_REFRESH_TOKEN_RETRY_SECONDS * NANOS ∧
    (∀ row, families t !! authority_key au = Some row → current token' row);
  lo_family : authority_key au' = authority_key au;
  lo_member : au'.(au_member_id) = token.(nt_member_id);
  lo_digest : au'.(au_token_blake3) = token_digest token;
  lo_unrotated e other : e ∈ since → ¬ rotates (authority_key au) e other;
}.

Lemma represented_retry lo hi au token at_ since t1 c lost clocks input au' rotation t2 :
  keys_ok t1 → exchanged au token at_ t1 →
  (∀ e other row, e ∈ since → rotates (authority_key au) e other →
     families t1 !! authority_key au = Some row → row.(fr_current_member_id) ≠ token.(nt_member_id)) →
  commit_timed lo hi clocks → input.(ci_refresh_token) = Some (UseExisting au' rotation) →
  presents au au' rotation → commit_token_issuance c lost clocks input t1 = (Ok Committed, t2) →
  lost_response au token at_ since au' rotation t2.
Proof.
  intros Hk Hex Hrot Ht Hin [Hten Hpres] H.
  destruct (committed_admitted lo hi _ _ _ _ _ _ _ _ Hk Ht H Hin) as [Hus Hretry].
  destruct (usable_current _ _ _ Hus) as (row & Hrow & Em & Ed).
  destruct Hpres as [Hd|[[Hf Hm]|(token' & retry & -> & Hre & Hdig)]].
  - destruct (ex_gone _ _ _ _ Hex _ _ Hrow Hten). congruence.
  - assert (authority_key au' = authority_key au) as E by (unfold authority_key; congruence).
    rewrite E in Hrow. destruct (ex_left _ _ _ _ Hex _ Hrow). congruence.
  - pose proof (commit_validated _ _ _ _ _ _ _ _ _ H Hin) as Hv.
    apply validate_replacement in Hv as [Hrep%replacement_key _].
    destruct (Hretry _ _ eq_refl Hre) as (proof & Hproof & Hsucc & Htime).
    rewrite Hdig in Hproof. replace (nt_tenant_id token') with (au_tenant_id au) in Hproof
      by (injection Hrep; congruence).
    destruct (ex_proof _ _ _ _ Hex _ Hproof) as [Hsucc' Hat]. rewrite Hat in Htime.
    destruct (ex_held _ _ _ _ Hex _ _ Hrow) as [Hkey Hcur]; [congruence|].
    rewrite (ex_key _ _ _ _ Hex) in Hkey. split; [|congruence..|].
    + exists token', retry. split_and!; try done; [lia..|].
      intros row' Hr. rewrite <- Hkey in Hr. by eapply (commit_current lo hi).
    + intros e other He Hx. rewrite Hkey in Hrow. eapply Hrot; [done..|congruence].
Qed.

Lemma conflict_compromised lo hi c lost clocks input au rotation t t' :
  keys_ok t → commit_timed lo hi clocks → input.(ci_refresh_token) = Some (UseExisting au rotation) →
  commit_token_issuance c lost clocks input t = (Ok RotationConflict, t') →
  ∃ family, families t' !! authority_key au = Some family ∧
    is_Some family.(fr_reuse_detected_at) ∧ ∀ at_, active_at at_ family = false.
Proof.
  intros Hk Ht Hin H. pose proof (commit_validated _ _ _ _ _ _ _ _ _ H Hin) as Hv.
  eapply (commit_cases lo hi) in H as [(_ & _ & [])|(r & Hpost & [[= <-]|(_ & e & ?)])]; [done| |done..].
  destruct Hpost as (refresh & token & Hin2 & Htok & _ & [family Hf] & _ & _ & _ & ->).
  rewrite Hin in Hin2. injection Hin2 as <-. simpl in Htok. subst rotation.
  apply validate_replacement in Hv as [Hrep%replacement_key _]. fold (authority_key au) in Hrep.
  rewrite <- Hrep. exists (compromised clocks.(tx_started) family). rewrite lookup_alter_eq, Hf.
  split; [done|]. unfold compromised, active_at.
  destruct (fr_reuse_detected_at family) eqn:E; simpl; rewrite ?E; simpl;
    (split; [eauto|]); intros; by rewrite andb_false_r.
Qed.

End once.

(** ** Single-use grants *)

Section single_use.
Context `{L : DeploymentLaws}.

(** The receipt of a redeemed grant, kept at least to the grant's deadline. *)
Definition receipt (client_id : Uuid) (digest : string) (deadline : DateTime) (t : Tables) : Prop :=
  ∃ id row, issuances t !! id = Some row ∧ row.(ir_client_id) = client_id ∧
    row.(ir_single_use_key_blake3) = Some digest ∧ timestamptz deadline ≤ row.(ir_retain_until).

Lemma receipt_used client_id digest deadline t :
  receipt client_id digest deadline t → key_used t client_id digest = true.
Proof. intros (id & row & ? & ? & ? & _). apply key_used_spec. eauto. Qed.

Lemma change_receipt lo hi l t t' client_id digest deadline :
  change lo hi l t t' → receipt client_id digest deadline t →
  receipt client_id digest deadline t' ∨ (l = LReclaimed ∧ timestamptz deadline ≤ hi).
Proof.
  intros Hc (id & row & Hr & Hcl & Hd & Hret).
  assert (issuances t' !! id = Some row → receipt client_id digest deadline t') as Hkeep.
  { intros. exists id, row. done. }
  destruct Hc; simpl in *; auto.
  - destruct H as (_ & _ & _ & E). left. apply Hkeep. by rewrite E.
  - left. apply Hkeep. by rewrite H1.
  - left. apply Hkeep. by rewrite ensure_issuances.
  - left. apply Hkeep. by rewrite trimmed_issuances.
  - left. apply Hkeep. rewrite lookup_insert_ne; [done|]. congruence.
  - rewrite lookup_delete_all in Hkeep. case_decide as Hin; [|auto]. right. split; [done|].
    destruct (H0 _ Hin) as (row' & Hr' & Hle). simplify_eq. lia.
Qed.

(** The labels of a commit reclaim nothing. *)
Lemma changes_receipt lo hi input ls t t' client_id digest deadline :
  changes lo hi ls t t' → (∀ l, l ∈ ls → label_from input l) →
  receipt client_id digest deadline t → receipt client_id digest deadline t'.
Proof.
  induction 1 as [|l ls t t1 t2 Hc Hcs IH]; intros Hl Hr; [done|].
  apply IH; [intros; apply Hl; set_solver|].
  destruct (change_receipt _ _ _ _ _ _ _ _ Hc Hr) as [?|[-> _]]; [done|].
  by destruct (Hl LReclaimed ltac:(set_solver)).
Qed.

Lemma committed_receipt lo hi c lost clocks input key deadline t t' :
  keys_ok t → commit_timed lo hi clocks →
  commit_token_issuance c lost clocks input t = (Ok Committed, t') →
  mode_grant input.(ci_mode) = Some (key, deadline) →
  receipt input.(ci_client_id) (blake3_hash key) deadline t'.
Proof.
  intros Hk Ht H Hm. apply (committed_post lo hi) in H as (ls & Hcs & Hfrom & Hgrant & _); [|done..].
  specialize (Hgrant _ _ Hm).
  destruct (changes_elem _ _ _ _ _ _ Hcs Hgrant) as (ls1 & ls2 & t1 & t2 & -> & _ & Hc & Hcs2).
  eapply changes_receipt; [exact Hcs2|intros; apply Hfrom; set_solver|].
  inversion Hc as [| | | |? at_ id d row digest ? ? ? Hd (r & e & Hr & _ & Hret & _) Hnone| | | |]; subst.
  exists id, row. simpl. rewrite lookup_insert_eq. split_and!; try done.
  rewrite Hret. by apply timestamptz_mono.
Qed.

Lemma steps_receipt now t h now' t' client_id digest deadline :
  keys_ok t → steps now t h now' t' →
  receipt client_id digest deadline t ∨ timestamptz deadline ≤ now →
  receipt client_id digest deadline t' ∨ timestamptz deadline ≤ now'.
Proof.
  intros Hk Hs Hi.
  eapply (steps_invariant (fun now t => receipt client_id digest deadline t ∨ timestamptz deadline ≤ now))
    in Hs as (? & _ & _); [done| | |done|done].
  - intros lo hi u Hle [?|?]; [by left|right; lia].
  - intros lo hi op r l t1 t2 _ _ _ _ Hc [Hr|?]; [|by right].
    destruct (change_receipt _ _ _ _ _ _ _ _ Hc Hr) as [?|[_ ?]]; auto.
Qed.

(** A second redemption under the receipt of the first, or after its deadline. *)
Lemma redeemed_again lo hi c lost clocks input key deadline first t t' :
  keys_ok t → commit_timed lo hi clocks →
  receipt input.(ci_client_id) (blake3_hash key) first t ∨ timestamptz first ≤ lo →
  commit_token_issuance c lost clocks input t = (Ok Committed, t') →
  mode_grant input.(ci_mode) = Some (key, deadline) →
  first < deadline.
Proof.
  intros Hk Ht Hi H Hm. apply (committed_post lo hi) in H as (ls & Hcs & Hfrom & Hgrant & _); [|done..].
  specialize (Hgrant _ _ Hm).
  destruct (changes_elem _ _ _ _ _ _ Hcs Hgrant) as (ls1 & ls2 & t1 & t2 & -> & Hcs1 & Hc & _).
  inversion Hc as [| | | |? at_ id d row digest Hat Hlt Hu Hd _ _| | | |]; subst.
  destruct Hi as [Hr|Hle].
  - eapply changes_receipt in Hr; [|exact Hcs1|intros; apply Hfrom; set_solver].
    apply receipt_used in Hr. congruence.
  - destruct (Z.le_gt_cases deadline first) as [Hd2|]; [|lia]. apply timestamptz_mono in Hd2. lia.
Qed.

End single_use.
