(* ===== verification/PostgresTokensRefusals.v ===== *)
(** * Why a commit is refused

    The condition on the tables behind each result of a commit
    ([token_issuance.rs], [commit_token_issuance]): the principals that
    [nazo_lock_token_principals] rechecks, the single-use grant, the refresh
    family and the native-SSO source that [fence_native_sso_source] checks last,
    after the creation of a family may have retired it. *)
From Stdlib Require Import Ascii.
From stdpp Require Import base list strings gmap sorting.
From S2P Require Import Prelude Chrono Postgres Text Json AuthorizationPolicy TokenModel.
From S2P Require Import PostgresTokens PostgresTokensSteps PostgresTokensFacts.

Local Open Scope rust_scope.
Local Open Scope string_scope.
Local Open Scope list_scope.
Local Open Scope Z_scope.

Section causes.
Context `{D : Deployment}.

(** The client is active and has the token epoch that the request read. *)
Definition client_current (input : CommitTokenIssuance) (t : Tables) : Prop :=
  ∃ client, clients t !! (input.(ci_tenant_id), input.(ci_client_id)) = Some client ∧
    client.(cl_is_active) = true ∧
    client.(cl_access_token_epoch) = input.(ci_principal_state).(ps_client_epoch).

(** The same of the user, when there is one. *)
Definition subject_current (input : CommitTokenIssuance) (t : Tables) : Prop :=
  ∀ user_id, input.(ci_user_id) = Some user_id →
    ∃ user, users t !! (input.(ci_tenant_id), user_id) = Some user ∧
      user.(us_is_active) = true ∧
      input.(ci_principal_state).(ps_user_epoch) = Some user.(us_access_token_epoch).

Definition principals_current (input : CommitTokenIssuance) (t : Tables) : Prop :=
  client_current input t ∧ subject_current input t.

(** The client has an issuance under the key. *)
Definition redeemed (client_id : Uuid) (key : string) (t : Tables) : Prop :=
  ∃ id row, issuances t !! id = Some row ∧ row.(ir_client_id) = client_id ∧
    row.(ir_single_use_key_blake3) = Some (blake3_hash key).

(** The family behind a native-SSO source is the user's at the source client, it
    is neither revoked nor reused, and neither it nor the device secret has
    expired. *)
Definition source_live (now : DateTime) (source : NativeSsoSourceFence) (t : Tables) : Prop :=
  now < source.(ns_device_secret_expires_at) ∧
  ∃ family client,
    families t !! (source.(ns_tenant_id), source.(ns_family_id)) = Some family ∧
    clients t !! (source.(ns_tenant_id), family.(fr_client_id)) = Some client ∧
    family.(fr_user_id) = Some source.(ns_user_id) ∧
    client.(cl_client_id) = source.(ns_source_client_id) ∧
    family.(fr_revoked_at) = None ∧ family.(fr_reuse_detected_at) = None ∧
    now < family.(fr_current_expires_at).

(** What a successful commit found. *)
Record accepted (clocks : Clocks) (input : CommitTokenIssuance) (t : Tables) : Prop := {
  ac_principals : principals_current input t;
  ac_grant key deadline : mode_grant input.(ci_mode) = Some (key, deadline) →
    ¬ redeemed input.(ci_client_id) key t ∧ clocks.(tx_inserted) < timestamptz deadline;
  ac_new token contract : input.(ci_refresh_token) = Some (IssueNew token contract) →
    families t !! token_key token = None;
  ac_existing au rotation : input.(ci_refresh_token) = Some (UseExisting au rotation) →
    usable clocks.(tx_transition_at) au t ∧ retry_valid au rotation t;
  ac_source source token contract : input.(ci_native_sso_source) = Some source →
    input.(ci_refresh_token) = Some (IssueNew token contract) →
    token.(nt_family_id) ≠ source.(ns_family_id) → source_live clocks.(tx_source_at) source t;
}.

(** Why a commit gives its result. *)
Definition cause (clocks : Clocks) (input : CommitTokenIssuance) (t : Tables)
    (r : CommitTokenIssuanceResult) : Prop :=
  match r with
  | Committed => accepted clocks input t
  | ClientInactive => ¬ client_current input t
  | SubjectInactive => client_current input t ∧ ¬ subject_current input t
  | AlreadyUsed => principals_current input t ∧
      ∃ key deadline, mode_grant input.(ci_mode) = Some (key, deadline) ∧
        redeemed input.(ci_client_id) key t
  | GrantExpired => principals_current input t ∧
      ∃ key deadline, mode_grant input.(ci_mode) = Some (key, deadline) ∧
        ¬ redeemed input.(ci_client_id) key t ∧ timestamptz deadline ≤ clocks.(tx_inserted)
  | RefreshGrantUnavailable => principals_current input t ∧
      ((∃ source, input.(ci_native_sso_source) = Some source ∧
          ¬ source_live clocks.(tx_source_at) source t) ∨
       ∃ au rotation, input.(ci_refresh_token) = Some (UseExisting au rotation) ∧
         ¬ usable clocks.(tx_transition_at) au t)
  | RotationConflict => principals_current input t ∧
      ∃ refresh token, input.(ci_refresh_token) = Some refresh ∧ commit_token refresh = Some token ∧
        conflicting clocks.(tx_transition_at) refresh t
  end.

Lemma tx_bind_Err {E A B} (m : tx E A) (k : A → tx E B) f t e :
  tx_bind m k f t = Err e ↔
  m f t = Err e ∨ ∃ a f' t', m f t = Ok (a, (f', t')) ∧ k a f' t' = Err e.
Proof. unfold tx_bind. destruct (m f t) as [[a [f' t']]|]; naive_solver. Qed.

Lemma tx_map_err_Err {E F A} (g : E → F) (m : tx E A) f t e :
  tx_map_err g m f t = Err e ↔ ∃ e', m f t = Err e' ∧ e = g e'.
Proof. unfold tx_map_err. destruct (m f t); simpl; naive_solver. Qed.

(** *** The principals *)

Lemma lock_Ok input t client_type :
  nazo_lock_token_principals input t = Ok client_type → principals_current input t.
Proof.
  unfold nazo_lock_token_principals. destruct (clients t !! _) as [client|] eqn:Hc; [|done].
  destruct (_ || _) eqn:Hn; [done|]. boolify. intros Hr. split; [by exists client|].
  intros user_id Hu. rewrite Hu in Hr. destruct (users t !! _) as [user|]; [|done].
  destruct (_ || _) eqn:Hn'; [done|]. boolify. exists user. done.
Qed.

Lemma lock_refused clocks input t r :
  nazo_lock_token_principals input t = Err r → cause clocks input t r.
Proof.
  unfold nazo_lock_token_principals. destruct (clients t !! _) as [client|] eqn:Hc.
  2: { intros [= <-] (client & ? & _). congruence. }
  destruct (negb (cl_is_active client) || _) eqn:Hn.
  { intros [= <-] (client' & ? & Ha & He). simplify_eq. rewrite Ha, He, Z.eqb_refl in Hn. done. }
  boolify. assert (client_current input t) as Hcur by (by exists client).
  destruct (ci_user_id input) as [user_id|] eqn:Hu; [|done].
  destruct (users t !! _) as [user|] eqn:Hus.
  2: { intros [= <-]. split; [done|]. intros Hs. destruct (Hs _ Hu) as (user & ? & _). congruence. }
  destruct (negb (us_is_active user) || _) eqn:Hn; [|done].
  intros [= <-]. split; [done|]. intros Hs. destruct (Hs _ Hu) as (user' & ? & Ha & He). simplify_eq.
  rewrite Ha, He, bool_decide_true in Hn; done.
Qed.

(** *** The single-use grant *)

Lemma key_unused t client_id key :
  key_used t client_id (blake3_hash key) = false ↔ ¬ redeemed client_id key t.
Proof. rewrite <- not_true_iff_false. unfold redeemed. by rewrite key_used_spec. Qed.

Lemma redeem_caused clocks input expires_at retain_until f t :
  principals_current input t →
  (∀ f' t', redeem_single_use clocks input expires_at retain_until f t = Ok (false, (f', t')) →
     cause clocks input t AlreadyUsed) ∧
  (∀ e, redeem_single_use clocks input expires_at retain_until f t = Err e →
     (e = CommitGrantExpired ∧ cause clocks input t GrantExpired) ∨ ∃ e', e = CommitDiesel e').
Proof.
  intros Hp. unfold redeem_single_use.
  destruct (mode_grant (ci_mode input)) as [[key deadline]|] eqn:Hm; [|done].
  split.
  - intros f' t' H. tx_inv.
    match goal with H : insert_single_use _ _ _ _ _ _ _ = _ |- _ => unfold insert_single_use in H end.
    destruct (key_used t _ _) eqn:Hu; [|repeat case_match; simplify_eq; tx_inv].
    split; [done|]. exists key, deadline. split; [done|]. by apply key_used_spec.
  - intros e [(? & ? & ->)%tx_map_err_Err|(a & f' & t' & H & He)]%tx_bind_Err; [by eauto|].
    tx_inv. match goal with H : insert_single_use _ _ _ _ _ _ _ = _ |- _ => unfold insert_single_use in H end.
    destruct (key_used t _ _) eqn:Hu; simplify_eq. destruct (_ || _); simplify_eq.
    destruct (_ <? _) eqn:Hd; [done|]. injection He as <-. left. split; [done|].
    split; [done|]. exists key, deadline. split; [done|]. split; [by apply key_unused|by apply Z.ltb_ge].
Qed.

(** What an unused grant leaves: only the issuances change. *)
Lemma redeem_kept clocks input expires_at retain_until f t f' t' :
  redeem_single_use clocks input expires_at retain_until f t = Ok (true, (f', t')) →
  (∀ key deadline, mode_grant input.(ci_mode) = Some (key, deadline) →
     ¬ redeemed input.(ci_client_id) key t ∧ clocks.(tx_inserted) < timestamptz deadline) ∧
  families t' = families t ∧ clients t' = clients t.
Proof.
  unfold redeem_single_use. intros H. destruct (mode_grant (ci_mode input)) as [[key deadline]|]; tx_inv; [|done].
  match goal with H : insert_single_use _ _ _ _ _ _ _ = _ |- _ => unfold insert_single_use in H end.
  destruct (key_used t _ _) eqn:Hu; simplify_eq; tx_inv. destruct (_ || _); simplify_eq.
  destruct (_ <? _) eqn:Hd; tx_inv. split; [|done].
  intros ? ? [= <- <-]. split; [by apply key_unused|by apply Z.ltb_lt].
Qed.

(** *** The native-SSO source *)

(** The retirement of a scope's oldest families leaves the source's row, or
    reports the row it had. *)
Lemma retire_source clocks token user_id issuance_id max source l ids retired t retired' t' :
  let key := (token.(nt_tenant_id), source) in
  keys_ok t →
  retire clocks token user_id issuance_id max (Some source) l ids retired t = Ok (retired', t') →
  clients t' = clients t ∧
  ((retired' = retired ∧ families t' !! key = families t !! key) ∨
   ∃ row, families t !! key = Some row ∧ active_at clocks.(tx_started) row = true ∧
     retired' = Some (retired_json t row)).
Proof.
  intros key. revert ids retired t. induction l as [|v l IH]; intros ids retired t Hk; simpl.
  { intros [= <- <-]. split; [done|]. by left. }
  set (vkey := (nt_tenant_id token, fr_token_family_id v)).
  destruct (families t !! vkey) as [row|] eqn:Hrow; [|by apply IH].
  destruct (active_at (tx_started clocks) row) eqn:Ha; [|by apply IH].
  destruct (nazo_persist_security_audit_event _ _ _) as [[[|] t2]|] eqn:He; [|done..].
  apply audit_event_same in He as [(_ & Hf & _) Hcl]. simpl in Hf, Hcl. intros H.
  pose proof (Hk _ _ Hrow) as Hvk. unfold vkey in Hvk. injection Hvk as Ht Hfam.
  apply IH in H as [Hcl' H].
  2: { intros k r. rewrite Hf, lookup_insert. destruct (decide (vkey = k)) as [<-|]; [|by intros; apply Hk]. intros [= <-]. simpl.
    unfold vkey. congruence. }
  split; [congruence|].
  assert (∀ r, retired_json t2 r = retired_json t r) as Hj by (intros; unfold retired_json; by rewrite Hcl).
  rewrite Hf in H. destruct (decide (key = vkey)) as [E|E].
  - right. exists row. rewrite E. split; [done|]. split; [done|]. rewrite E, lookup_insert_eq in H.
    unfold key, vkey in E. injection E as E.
    rewrite bool_decide_true in H by congruence. destruct H as [[-> _]|(r & [= <-] & Hr & _)]; [done|].
    unfold active_at in Hr. by rewrite !andb_true_iff in Hr; destruct Hr as [[] _].
  - rewrite lookup_insert_ne in H by done.
    rewrite bool_decide_false in H by (unfold key, vkey in E; congruence).
    destruct H as [[-> ->]|(r & ? & ? & ->)]; [by left|right]. exists r. by rewrite Hj.
Qed.

(** The facts of the source's row that a created family's retirement reports. *)
Definition reported (source : NativeSsoSourceFence) (started : DateTime) (t : Tables)
    (retired : RetiredNativeSsoSource) : Prop :=
  ∃ row client, families t !! (source.(ns_tenant_id), source.(ns_family_id)) = Some row ∧
    active_at started row = true ∧
    clients t !! (source.(ns_tenant_id), row.(fr_client_id)) = Some client ∧
    retired = {| rs_tenant_id := source.(ns_tenant_id); rs_user_id := row.(fr_user_id);
      rs_token_family_id := source.(ns_family_id); rs_source_client_id := client.(cl_client_id);
      rs_expires_at := row.(fr_current_expires_at) |}.

Lemma ensure_clients tenant_id prepared t :
  clients (nazo_oauth_refresh_contract_ensure tenant_id prepared t) = clients t.
Proof. unfold nazo_oauth_refresh_contract_ensure. by case_match. Qed.

Lemma nazo_create_source clocks token prepared max issuance_id source t ret t' :
  let key := (token.(nt_tenant_id), source) in
  keys_ok t →
  nazo_create_refresh_family clocks token prepared max issuance_id (Some source) t
    = Ok (CreateInserted, ret, t') →
  families t !! token_key token = None ∧ clients t' = clients t ∧
  ((ret = None ∧ (token.(nt_family_id) ≠ source → families t' !! key = families t !! key)) ∨
   ∃ row, families t !! key = Some row ∧ active_at clocks.(tx_started) row = true ∧
     ret = Some (retired_json t row)).
Proof.
  intros key Hk. unfold nazo_create_refresh_family. fold (token_key token).
  destruct (max <? 1); [done|].
  destruct (families t !! token_key token) as [|] eqn:Hnone; simpl; [done|].
  set (p := match nt_user_id token with Some _ => _ | None => _ end).
  destruct p as [[r t1]|] eqn:Hr; [|done]. simpl. unfold write_family.
  destruct (digest_taken _ _ _ _); [done|]. intros [= <- <-]. subst p. simpl.
  assert (clients t1 = clients t ∧ ((r = None ∧ families t1 !! key = families t !! key) ∨
    ∃ row, families t !! key = Some row ∧ active_at clocks.(tx_started) row = true ∧
      r = Some (retired_json t row))) as [Hcl Hcase].
  { destruct (nt_user_id token); [by apply retire_source in Hr|]. injection Hr as <- <-. split; [done|].
    by left. }
  rewrite ensure_clients, ensure_families. split; [done|]. split; [done|].
  destruct Hcase as [[-> Hsame]|?]; [left|by right]. split; [done|]. intros Hne.
  rewrite lookup_insert_ne; [done|]. unfold token_key, key. congruence.
Qed.

Lemma create_source clocks token prepared issuance_id native source f t ret f' t' :
  keys_ok t → native = Some source → source.(ns_tenant_id) = token.(nt_tenant_id) →
  create clocks token prepared issuance_id native f t = Ok ((Inserted, ret), (f', t')) →
  families t !! token_key token = None ∧ clients t' = clients t ∧
  match ret with
  | Some retired => reported source clocks.(tx_started) t retired
  | None => token.(nt_family_id) ≠ source.(ns_family_id) →
      families t' !! (source.(ns_tenant_id), source.(ns_family_id))
      = families t !! (source.(ns_tenant_id), source.(ns_family_id))
  end.
Proof.
  intros Hk -> Hten H. unfold create in H. tx_inv.
  match goal with H : nazo_create_refresh_family _ _ _ _ _ _ _ = Ok (?p, _) |- _ =>
    destruct p as [[|] row]; [by destruct row as [[[[[? ?] ?] [|]] ?]|]; tx_inv|];
    apply nazo_create_source in H as (Hnone & Hcl & Hcase); [|done] end.
  rewrite <- Hten in Hcase. destruct Hcase as [[-> Hsame]|(row' & Hrow & Hact & ->)]; [tx_inv; done|].
  pose proof (Hk _ _ Hrow) as Hkey. unfold retired_json in *. injection Hkey as Ht Hf.
  destruct (clients t !! _) as [client|] eqn:Hclient; simpl in *; tx_inv.
  split; [done|]. split; [done|]. exists row', client. rewrite <- Ht, <- Hf in *. done.
Qed.

Definition source_key (source : NativeSsoSourceFence) : Uuid * Uuid :=
  (source.(ns_tenant_id), source.(ns_family_id)).

Lemma native_row_live now source t :
  source_live now source t ↔
  now < source.(ns_device_secret_expires_at) ∧
  ∃ family, native_source_row source t = Some family ∧ family.(fr_revoked_at) = None ∧
    family.(fr_reuse_detected_at) = None ∧ now < family.(fr_current_expires_at).
Proof.
  unfold source_live, native_source_row. apply and_iff_compat_l. split.
  - intros (family & client & Hf & Hc & Hu & Hn & ?). exists family. rewrite Hf. simpl. rewrite Hc. simpl.
    rewrite !bool_decide_true by done. done.
  - intros (family & Hr & ?). destruct (families t !! _) as [family'|]; [|done]. simpl in Hr.
    destruct (clients t !! _) as [client|] eqn:Hc; [|done]. simpl in Hr.
    destruct (_ && _) eqn:Hb; [|done]. boolify. simplify_eq. exists family, client. done.
Qed.

Lemma native_row_same source t t' :
  clients t' = clients t → families t' !! source_key source = families t !! source_key source →
  native_source_row source t' = native_source_row source t.
Proof. unfold native_source_row, source_key. by intros -> ->. Qed.

(** The report of a source that the creation retired decides as its row did. *)
Lemma reported_live clocks source t retired :
  reported source clocks.(tx_started) t retired →
  (retired.(rs_tenant_id) =? source.(ns_tenant_id))
  && bool_decide (retired.(rs_user_id) = Some source.(ns_user_id))
  && (retired.(rs_token_family_id) =? source.(ns_family_id))
  && bool_decide (retired.(rs_source_client_id) = source.(ns_source_client_id))
  && (clocks.(tx_source_at) <? retired.(rs_expires_at))
  && (clocks.(tx_source_at) <? source.(ns_device_secret_expires_at)) = true
  ↔ source_live clocks.(tx_source_at) source t.
Proof.
  intros (row & client & Hrow & Hact & Hc & ->). simpl. unfold active_at, is_none in Hact.
  rewrite !Z.eqb_refl, !andb_true_iff, !bool_decide_eq_true, !Z.ltb_lt. unfold source_live. split.
  - intros (((((_ & ?) & _) & ?) & ?) & ?). split; [done|]. exists row, client.
    destruct (fr_revoked_at row), (fr_reuse_detected_at row); try done.
  - intros (? & family & client' & ? & ? & ? & ? & _ & _ & ?). simplify_eq. done.
Qed.

Lemma fence_live clocks source retired f t0 t a f' t' :
  clients t = clients t0 →
  match retired with
  | Some retired => reported source clocks.(tx_started) t0 retired
  | None => families t !! source_key source = families t0 !! source_key source
  end →
  fence_native_sso_source clocks source retired f t = Ok (a, (f', t')) →
  source_live clocks.(tx_source_at) source t0.
Proof.
  unfold fence_native_sso_source. destruct retired as [retired|]; intros Hcl Hs H.
  - destruct (_ && _) eqn:Hb in H; [|by tx_inv]. by apply (reported_live _ _ _ _ Hs) in Hb.
  - tx_inv. rewrite (native_row_same _ t0) in * by done. apply native_row_live.
    destruct (native_source_row source t0) as [family|]; simpl in *; [|by tx_inv].
    match goal with H : (if ?b then _ else _) _ _ = _ |- _ => destruct b eqn:Hb; [clear H|by tx_inv] end.
    boolify. split; [done|]. exists family. unfold is_none in *.
    destruct (fr_revoked_at family), (fr_reuse_detected_at family); done.
Qed.

Lemma fence_dead clocks source retired f t0 t e :
  clients t = clients t0 →
  match retired with
  | Some retired => reported source clocks.(tx_started) t0 retired
  | None => families t0 !! source_key source = None ∨
      families t !! source_key source = families t0 !! source_key source
  end →
  fence_native_sso_source clocks source retired f t = Err e →
  e = NativeSsoDependencyUnavailable ∨
  e = NativeSsoSourceUnavailable ∧ ¬ source_live clocks.(tx_source_at) source t0.
Proof.
  unfold fence_native_sso_source. destruct retired as [retired|]; intros Hcl Hs H.
  - destruct (_ && _) eqn:Hb in H; [done|]. right. split; [by injection H|].
    rewrite <- reported_live by done. by rewrite Hb.
  - apply tx_bind_Err in H as [(? & _ & ->)%tx_map_err_Err|(state & f1 & t1 & Hq & H)]; [by left|].
    tx_inv. destruct (is_some_and _ _) eqn:Hb in H; [done|]. right. split; [by injection H|].
    destruct Hs as [Hs|Hs].
    { intros (_ & family & client & Hf & _). unfold source_key in Hs. congruence. }
    rewrite (native_row_same _ t0) in Hb by done. rewrite native_row_live.
    intros (Hd & family & Hf & Hr & Hu & He). rewrite Hf in Hb. simpl in Hb.
    apply Z.ltb_lt in Hd, He. by rewrite Hr, Hu, Hd, He in Hb.
Qed.

Lemma ensure_binding_clients input f t a f' t' :
  ensure_subject_binding input f t = Ok (a, (f', t')) → clients t' = clients t.
Proof.
  unfold ensure_subject_binding. intros H. repeat (case_match; tx_inv); simplify_eq; done.
Qed.

(** *** The refresh family *)

Lemma use_existing_refused clocks client_type au rotation f t f' t' :
  use_existing clocks client_type au rotation f t = Ok (InvalidSource, (f', t')) →
  ¬ usable clocks.(tx_transition_at) au t.
Proof.
  intros H (family & value & contract & Hf & Hact & Hv & Hc & Hs). unfold use_existing in H. tx_inv.
  match goal with H : (if is_some rotation then _ else _) _ _ = Ok (_, (_, ?x)) |- _ =>
    assert (x = t) as -> by (destruct (is_some rotation); tx_inv; done); clear H end.
  unfold load_family in *. tx_inv. fold (authority_key au) in *. rewrite Hf in *. simpl in *.
  rewrite active_at_alt, Hact in *. simpl in *. tx_inv. rewrite Hv in *. simpl in *. tx_inv.
  match goal with H : map_err _ (parse_contract ?v) = Ok ?c |- _ =>
    apply map_err_Ok, parse_contract_Ok in H; assert (v = value) as -> by congruence;
    assert (c = contract) as -> by congruence end.
  rewrite Hs in *. simpl in *.
  destruct rotation as [token|]; [|by tx_inv].
  match goal with H : rotate _ _ _ _ _ _ _ = _ |- _ => by apply rotate_Ok in H as [(? & _)|(? & _)] end.
Qed.

Lemma persist_refused clocks refresh client_type issuance_id prepared native f t ret f' t' :
  persist_refresh_token_on_connection clocks refresh client_type issuance_id prepared native f t
    = Ok ((InvalidSource, ret), (f', t')) →
  ∃ au rotation, refresh = UseExisting au rotation ∧ ¬ usable clocks.(tx_transition_at) au t.
Proof.
  unfold persist_refresh_token_on_connection, persist_refresh_token_inner.
  intros H. tx_inv. destruct refresh as [token contract|au rotation]; tx_inv.
  - unfold create in *. tx_inv. repeat (case_match; tx_inv).
  - exists au, rotation. split; [done|]. by eapply use_existing_refused.
Qed.

Lemma create_new clocks token prepared issuance_id native f t ret f' t' :
  create clocks token prepared issuance_id native f t = Ok ((Inserted, ret), (f', t')) →
  families t !! token_key token = None.
Proof.
  intros H. unfold create in H. tx_inv.
  match goal with H : nazo_create_refresh_family _ _ _ _ _ _ _ = Ok (?p, _) |- _ =>
    unfold nazo_create_refresh_family in H; fold (token_key token) in H; rename H into Hc end.
  destruct (_ <? 1) in Hc; [done|].
  destruct (families t !! token_key token); [|done]. simpl in Hc. by simplify_eq.
Qed.

(** *** The end of the transaction *)

Lemma validate_native_Ok input expires_at source :
  validate_commit_input input = Ok expires_at → input.(ci_native_sso_source) = Some source →
  mode_grant input.(ci_mode) = None ∧
  ∃ token contract, input.(ci_refresh_token) = Some (IssueNew token contract) ∧
    source.(ns_tenant_id) = token.(nt_tenant_id).
Proof.
  intros H Hs. unfold validate_commit_input in H.
  destruct (_ || _) in H; [done|]. destruct (validate_mode _); [|done].
  destruct (is_some_and _ _) in H; [done|]. rewrite Hs in H.
  destruct (ci_refresh_token input) as [refresh|] eqn:Hr; simpl in H;
    [destruct (validate_refresh_owner input refresh) eqn:Hown; [|done]|]; simpl in H;
    unfold validate_native_source in H; rewrite Hr in H;
    destruct (_ || _) eqn:Hb in H; try done; boolify; [|done].
  destruct refresh as [token contract|]; [|done].
  match goal with Hf : is_fresh _ = true |- _ => rewrite is_fresh_grant in Hf end.
  split; [by destruct (mode_grant _)|]. exists token, contract. split; [done|].
  unfold validate_refresh_owner in Hown. simpl in Hown. destruct (_ || _) eqn:Ho in Hown; [done|].
  boolify. congruence.
Qed.

(** The retirement's report and the state behind a created family. *)
Definition fenced (clocks : Clocks) (source : NativeSsoSourceFence) (retired : option RetiredNativeSsoSource)
    (own : bool) (t0 t : Tables) : Prop :=
  clients t = clients t0 ∧
  match retired with
  | Some retired => reported source clocks.(tx_started) t0 retired
  | None => if own then families t0 !! source_key source = None
            else families t !! source_key source = families t0 !! source_key source
  end.

Lemma persist_fenced clocks token contract client_type issuance_id prepared source f t ret f' t' :
  keys_ok t → source.(ns_tenant_id) = token.(nt_tenant_id) →
  persist_refresh_token_on_connection clocks (IssueNew token contract) client_type issuance_id prepared
    (Some source) f t = Ok ((Inserted, ret), (f', t')) →
  fenced clocks source ret (bool_decide (token.(nt_family_id) = source.(ns_family_id))) t t'.
Proof.
  unfold persist_refresh_token_on_connection, persist_refresh_token_inner. intros Hk Hten H. tx_inv.
  match goal with H : create _ _ _ _ _ _ _ = _ |- _ =>
    eapply create_source in H as (Hnone & Hcl & Hcase); [|done..] end.
  split; [done|]. destruct ret; [done|]. case_bool_decide as E; [|by apply Hcase].
  unfold source_key. rewrite Hten, <- E. done.
Qed.

Lemma finish_live clocks input source retired f t0 t r f' t' :
  input.(ci_native_sso_source) = Some source → fenced clocks source retired false t0 t →
  finish_commit clocks input retired f t = Ok (r, (f', t')) → source_live clocks.(tx_source_at) source t0.
Proof.
  unfold finish_commit. intros -> [Hcl Hs] H. tx_inv.
  match goal with H : ensure_subject_binding _ _ _ = Ok _ |- _ =>
    pose proof (ensure_binding_clients _ _ _ _ _ _ H) as Hcl'; apply ensure_binding_same in H as (_ & Hf & _) end.
  eapply fence_live; [..|done]; [congruence|]. destruct retired; [done|]. by rewrite Hf.
Qed.

Lemma finish_dead clocks input retired f t0 t e :
  (∀ source, input.(ci_native_sso_source) = Some source → ∃ own, fenced clocks source retired own t0 t) →
  finish_commit clocks input retired f t = Err e →
  (∃ e', e = CommitDiesel e') ∨ e = NativeSsoDependencyUnavailable ∨
  e = NativeSsoSourceUnavailable ∧ ∃ source, input.(ci_native_sso_source) = Some source ∧
    ¬ source_live clocks.(tx_source_at) source t0.
Proof.
  unfold finish_commit. intros Hs.
  intros [(? & _ & ->)%tx_map_err_Err|(a & f1 & t1 & Hb & H)]%tx_bind_Err; [by eauto|]. tx_inv.
  match goal with H : ensure_subject_binding _ _ _ = Ok _ |- _ =>
    pose proof (ensure_binding_clients _ _ _ _ _ _ H) as Hcl'; apply ensure_binding_same in H as (_ & Hf & _) end.
  apply tx_bind_Err in H as [H|(? & ? & ? & _ & H)].
  - destruct (ci_native_sso_source input) as [source|] eqn:Hin; [|done].
    destruct (Hs _ eq_refl) as (own & Hcl & Hcase).
    eapply (fence_dead _ _ _ _ t0) in H; [naive_solver|congruence|].
    destruct retired; [done|]. rewrite Hf. destruct own; auto.
  - apply tx_bind_Err in H as [(? & _ & ->)%tx_map_err_Err|(? & ? & ? & _ & H)]; [by eauto|done].
Qed.

(** What the steps up to the refresh family establish. *)
Record begun (clocks : Clocks) (input : CommitTokenIssuance) (t t1 : Tables) : Prop := {
  bg_principals : principals_current input t;
  bg_grant key deadline : mode_grant input.(ci_mode) = Some (key, deadline) →
    ¬ redeemed input.(ci_client_id) key t ∧ clocks.(tx_inserted) < timestamptz deadline;
  bg_families : families t1 = families t;
  bg_clients : clients t1 = clients t;
}.

Lemma begun_keys clocks input t t1 : begun clocks input t t1 → keys_ok t → keys_ok t1.
Proof. intros [_ _ Hf _]. unfold keys_ok. by rewrite Hf. Qed.

Lemma begun_fenced clocks input source retired own t t1 t2 :
  begun clocks input t t1 → fenced clocks source retired own t1 t2 → fenced clocks source retired own t t2.
Proof.
  intros [_ _ Hf Hc] [Hcl Hcase]. unfold fenced, reported in *. by rewrite Hf, Hc in *.
Qed.

(** A created family and its fence. *)
Lemma begun_accepted clocks input expires_at refresh client_type prepared t f1 t1 ret f2 t2 r f3 t3 :
  keys_ok t → validate_commit_input input = Ok expires_at → begun clocks input t t1 →
  input.(ci_refresh_token) = Some refresh →
  (∀ au rotation, refresh = UseExisting au rotation →
     usable clocks.(tx_transition_at) au t ∧ retry_valid au rotation t) →
  persist_refresh_token_on_connection clocks refresh client_type input.(ci_issuance_id) prepared
    input.(ci_native_sso_source) f1 t1 = Ok ((Inserted, ret), (f2, t2)) →
  finish_commit clocks input ret f2 t2 = Ok (r, (f3, t3)) → accepted clocks input t.
Proof.
  intros Hk Hval Hb Hin Hex Hper Hfin. split; [apply Hb|apply Hb|..].
  - intros token contract E. rewrite Hin in E. injection E as ->.
    unfold persist_refresh_token_on_connection, persist_refresh_token_inner in Hper. tx_inv.
    rewrite <- (bg_families _ _ _ _ Hb). by eapply create_new.
  - intros au rotation E. rewrite Hin in E. injection E as ->. by apply Hex.
  - intros source token contract Hs E Hne. rewrite Hin in E. injection E as ->. rewrite Hs in Hper.
    destruct (validate_native_Ok _ _ _ Hval Hs) as (_ & token' & contract' & Hin' & Hten).
    rewrite Hin in Hin'. injection Hin' as <- <-.
    apply persist_fenced in Hper; [|by eapply begun_keys|done].
    rewrite bool_decide_false in Hper by done.
    eapply finish_live; [done|by eapply begun_fenced|done].
Qed.

Lemma commit_body_caused lo hi clocks input prepared expires_at retain_until f t r f' t' :
  keys_ok t → commit_timed lo hi clocks →
  prepare_commit input = Ok (prepared, expires_at, retain_until) →
  commit_body clocks input prepared expires_at retain_until f t = Ok (r, (f', t')) →
  cause clocks input t r.
Proof.
  intros Hk Ht Hprep H. pose proof (commit_body_Ok lo hi _ _ _ _ _ _ _ _ _ _ Hk Ht Hprep H) as Hpost.
  apply prepare_commit_Ok in Hprep as (Hval & _). unfold commit_body, lock_and_recheck in H. tx_inv.
  destruct (nazo_lock_token_principals input t) as [client_type|r'] eqn:Hlock.
  2: { tx_inv. by apply lock_refused. }
  apply lock_Ok in Hlock. tx_inv.
  match goal with H : redeem_single_use _ _ _ _ _ _ = Ok (?b, (_, ?x)) |- _ =>
    destruct b; rename H into Hred, x into u end; simpl in *.
  2: { tx_inv. by apply (proj1 (redeem_caused _ _ _ _ _ _ Hlock)) in Hred. }
  pose proof (redeem_kept _ _ _ _ _ _ _ _ Hred) as (Hgrant & Hfam & Hcl).
  assert (begun clocks input t u) as Hb by done.
  destruct (ci_refresh_token input) as [refresh|] eqn:Hin.
  2: { match goal with H : finish_commit _ _ _ _ _ = _ |- _ => apply finish_Ok in H as [-> _] end.
    split; [done|done|congruence..]. }
  tx_inv. match goal with H : persist_refresh_token_on_connection _ _ _ _ _ _ _ _ = Ok (?p, _) |- _ =>
    destruct p as [[| |] ret]; rename H into Hper end.
  - match goal with H : finish_commit _ _ _ _ _ = _ |- _ => rename H into Hfin end.
    pose proof Hfin as E. apply finish_Ok in E as [-> _].
    eapply begun_accepted; eauto. destruct Hpost as (ls & _ & _ & _ & Hpost). rewrite Hin in Hpost.
    destruct Hpost as [_ Hadm]. intros au rotation ->. apply Hadm.
  - tx_inv. split; [done|]. right. apply persist_refused in Hper as (au & rotation & -> & Hu).
    exists au, rotation. split; [done|]. apply validate_commit_input_Ok in Hval. rewrite Hin in Hval.
    apply validate_owner_fresh in Hval. rewrite is_fresh_grant in Hval.
    unfold redeem_single_use in Hred. destruct (mode_grant _); [done|]. by tx_inv.
  - assert (r = RotationConflict) as ->
      by (unfold commit_reuse in *; destruct (commit_token refresh); tx_inv; done).
    destruct Hpost as (refresh' & token & ? & ? & ? & _). split; [done|]. eauto.
Qed.

(** The errors of the transaction that are results. *)
Lemma commit_body_failed clocks input prepared expires_at retain_until f t e r :
  keys_ok t → validate_commit_input input = Ok expires_at →
  commit_body clocks input prepared expires_at retain_until f t = Err e →
  commit_outcome (Err e) = Ok r → cause clocks input t r.
Proof.
  intros Hk Hval. unfold commit_body, lock_and_recheck.
  intros [(? & _ & ->)%tx_map_err_Err|(fence & f1 & t1 & Hf & H)]%tx_bind_Err; [done|].
  tx_inv. destruct (nazo_lock_token_principals input t) as [client_type|r'] eqn:Hlock; [|done].
  apply lock_Ok in Hlock.
  apply tx_bind_Err in H as [H|(unused & f2 & t2 & Hred & H)].
  { apply (proj2 (redeem_caused _ _ _ _ _ _ Hlock)) in H as [[-> ?]|[? ->]]; [|done].
    by intros [= <-]. }
  destruct unused; simpl in H; [|done]. intros Ho.
  pose proof (redeem_kept _ _ _ _ _ _ _ _ Hred) as (Hgrant & Hfam & Hcl).
  assert (begun clocks input t t2) as Hb by done.
  assert ((∃ e', e = CommitDiesel e' ) ∨ (∃ e', e = CommitRepository e') ∨ e = CommitPanicked ∨
    e = NativeSsoDependencyUnavailable ∨
    e = NativeSsoSourceUnavailable ∧ ∃ source, input.(ci_native_sso_source) = Some source ∧
      ¬ source_live clocks.(tx_source_at) source t) as He.
  { destruct (ci_refresh_token input) as [refresh|] eqn:Hin.
    2: { apply (finish_dead _ _ _ _ t) in H; [naive_solver|].
      intros source Hs. destruct (validate_native_Ok _ _ _ Hval Hs) as (_ & ? & ? & ? & _). congruence. }
    apply tx_bind_Err in H as [(? & _ & ->)%tx_map_err_Err|([res ret] & f3 & t3 & Hper & H)]; [eauto|].
    destruct res; [|done|].
    - apply (finish_dead _ _ _ _ t) in H; [naive_solver|]. intros source Hs. rewrite Hs in Hper. tx_inv.
      destruct (validate_native_Ok _ _ _ Hval Hs) as (_ & token & contract & E & Hten). simplify_eq.
      eexists. eapply begun_fenced; [done|]. eapply persist_fenced; [by eapply begun_keys|done..].
    - destruct (commit_token refresh); [|injection H as <-; naive_solver].
      unfold commit_reuse in H. apply tx_bind_Err in H as [H|(? & ? & ? & _ & H)].
      + destruct (is_fresh _); [done|]. apply tx_map_err_Err in H as (? & _ & ->). eauto.
      + apply tx_bind_Err in H as [(? & _ & ->)%tx_map_err_Err|(? & ? & ? & _ & H)]; [eauto|done]. }
  destruct He as [[? ->]|[[? ->]|[-> |[-> |[-> ?]]]]]; simplify_eq; try done.
  injection Ho as <-. split; [done|]. by left.
Qed.

(** The result of a commit has its cause in the tables the commit found. *)
Lemma commit_caused lo hi c lost clocks input t r t' :
  keys_ok t → commit_timed lo hi clocks →
  commit_token_issuance c lost clocks input t = (Ok r, t') → cause clocks input t r.
Proof.
  intros Hk Ht H. unfold commit_token_issuance in H.
  destruct (prepare_commit input) as [[[prepared expires_at] retain_until]|e] eqn:Hprep; [|done].
  destruct (cn_available c); simpl in H; [|by destruct lost].
  unfold transaction in H. destruct (commit_body _ _ _ _ _ _ _) as [[a [f' t2]]|e] eqn:Hbody.
  - assert (a = r) as -> by (destruct (cn_commit c) as [[? [|]]|], lost; simpl in H; congruence).
    by eapply commit_body_caused.
  - destruct lost; [done|]. injection H as Ho <-. apply prepare_commit_Ok in Hprep as (Hval & _).
    by eapply commit_body_failed.
Qed.

End causes.
