(* ===== verification/PostgresTokensProperties.v ===== *)
(** * What token issuance promises

    The stored refresh token, the properties of [PostgresTokensFacts] and
    [PostgresTokensRefusals] along every history, and a deployment and a history
    that they hold for. *)
From Stdlib Require Import Ascii.
From stdpp Require Import base list strings gmap sorting.
From S2P Require Import Prelude Chrono Postgres Text Json AuthorizationPolicy TokenModel.
From S2P Require Import PostgresTokens PostgresTokensSteps PostgresTokensFacts PostgresTokensRefusals.

Local Open Scope rust_scope.
Local Open Scope string_scope.
Local Open Scope list_scope.
Local Open Scope Z_scope.

(** ** The stored refresh token *)

Section stored.
Context `{L : DeploymentLaws} (known : RefreshContract → Prop).

(** The row of an active family whose current generation is the token. *)
Record stored_token (token : NewRefreshToken) (row : RefreshFamilyRow) : Prop := {
  st_tenant : row.(fr_tenant_id) = token.(nt_tenant_id);
  st_family : row.(fr_token_family_id) = token.(nt_family_id);
  st_client : row.(fr_client_id) = token.(nt_client_id);
  st_user : row.(fr_user_id) = token.(nt_user_id);
  st_member : row.(fr_current_member_id) = token.(nt_member_id);
  st_digest : row.(fr_current_token_blake3) = blake3_hash token.(nt_raw_token);
  st_audience : row.(fr_current_audience) = strings_to_value token.(nt_audiences);
  st_issued : row.(fr_current_issued_at) = timestamptz token.(nt_issued_at);
  st_expires : row.(fr_current_expires_at) = timestamptz token.(nt_expires_at);
  st_sid : row.(fr_current_id_token_sid) = token.(nt_id_token_sid);
  st_dpop : row.(fr_dpop_jkt) = token.(nt_dpop_jkt);
  st_mtls : row.(fr_mtls_x5t_s256) = token.(nt_mtls_x5t_s256);
  st_attestation : row.(fr_client_attestation_jkt) = token.(nt_client_attestation_jkt);
  st_revoked : row.(fr_revoked_at) = None;
  st_reuse : row.(fr_reuse_detected_at) = None;
}.

(** The contract key of the row is that of the commit. *)
Definition stored_contract (refresh : RefreshTokenCommit) (t : Tables) (row : RefreshFamilyRow) : Prop :=
  match refresh with
  | IssueNew _ contract => ∃ w, contract_to_writer contract = Ok w ∧
      row.(fr_contract_blake3) = blake3_hash w
  | UseExisting au _ => ∃ value,
      contracts t !! (row.(fr_tenant_id), row.(fr_contract_blake3)) = Some value ∧
      contract_from_value value = Ok au.(au_contract)
  end.

Lemma rotated_stored t family contract au token :
  keys_ok t → families t !! token_key token = Some family →
  validate_refresh_commit (UseExisting au (Some token)) = Ok tt →
  source_matches family contract au = true →
  (∃ at_, active_at at_ family = true) → stored_token token (rotated token family).
Proof.
  intros Hk Hf Hv Hs [at_ Ha]. apply Hk in Hf. injection Hf as ? ?.
  apply validate_replacement in Hv as [Hrep _].
  unfold replacement_preserves, source_matches, active_at in *. boolify.
  split; simpl; try congruence.
  all: destruct (fr_revoked_at family), (fr_reuse_detected_at family); done.
Qed.

Lemma persist_stored clocks refresh client_type issuance_id prepared native token f t ret f' t' :
  keys_ok t → prepare_refresh_contract refresh = Ok prepared → commit_token refresh = Some token →
  persist_refresh_token_on_connection clocks refresh client_type issuance_id prepared native f t
    = Ok ((Inserted, ret), (f', t')) →
  ∃ row, families t' !! token_key token = Some row ∧ stored_token token row ∧
    stored_contract refresh t' row.
Proof.
  intros Hk Hprep Htok H. destruct refresh as [token' contract|au rotation]; simpl in Htok; simplify_eq.
  - unfold persist_refresh_token_on_connection, persist_refresh_token_inner in H. tx_inv.
    rewrite ok_or_Ok in *. subst. unfold create in *. tx_inv.
    match goal with H : nazo_create_refresh_family _ _ _ _ _ _ _ = Ok (?p, _) |- _ =>
      unfold nazo_create_refresh_family in H; rename H into Hc end.
    simpl in Hc. destruct (is_some (families t !! _)); [by simplify_eq; tx_inv|].
    destruct (match nt_user_id token with Some _ => _ | None => _ end) as [p|]; [|done]. simpl in Hc.
    unfold write_family in Hc. destruct (digest_taken _ _ _ _); [done|]. simpl in Hc. simplify_eq.
    destruct p as [[[[[[? ?] ?] [|]] ?]|] ?]; simpl in *; tx_inv;
      eexists; (split; [apply lookup_insert_eq|]); (split; [by split|]).
    all: apply prepare_new_Ok in Hprep as (_ & _ & _ & _ & w & Hw & Hd); by exists w.
  - unfold persist_refresh_token_on_connection, persist_refresh_token_inner in H. tx_inv.
    apply prepare_contract_existing in Hprep as Hval.
    match goal with H : use_existing _ _ _ _ _ _ = _ |- _ =>
      eapply (use_existing_Ok 0) in H as [[(family & value & contract & Hf & Ha & Hv & Hcon & Hs) _] Hc];
        [|done..] end.
    destruct (validate_replacement _ _ Hval) as [Hkey%replacement_key _].
    fold (authority_key au) in Hkey. rewrite <- Hkey in Hf.
    inversion Hc as [| | |? ? family' ? ? ? ? _ Hf' _ _ _ _ _ _| | | | |]; subst. simplify_eq.
    eexists. split; [apply lookup_insert_eq|]. split; [by eapply rotated_stored; eauto|].
    simpl. rewrite trimmed_contracts. simpl. exists value. split; [done|].
    by apply source_matches_contract in Hs as (<- & _).
Qed.

Lemma redeem_families clocks input expires_at retain_until f t unused f' t' :
  redeem_single_use clocks input expires_at retain_until f t = Ok (unused, (f', t')) →
  families t' = families t.
Proof.
  unfold redeem_single_use. destruct (mode_grant _) as [[key deadline]|]; intros H; tx_inv; [|done].
  match goal with H : insert_single_use _ _ _ _ _ _ _ = _ |- _ => unfold insert_single_use in H end.
  destruct (key_used t _ _); [by simplify_eq; tx_inv|]. destruct (_ || _); simplify_eq.
  by destruct (_ <? _); tx_inv.
Qed.

Lemma stored_same refresh t t' token :
  same_tokens t t' →
  (∃ row, families t !! token_key token = Some row ∧ stored_token token row ∧
     stored_contract refresh t row) →
  ∃ row, families t' !! token_key token = Some row ∧ stored_token token row ∧
    stored_contract refresh t' row.
Proof.
  intros (Hc & -> & _) (row & Hrow & Hst & Hcon). exists row. split_and!; [done..|].
  unfold stored_contract. by rewrite Hc.
Qed.

Lemma commit_stored c lost clocks input refresh token t t' :
  keys_ok t → commit_token_issuance c lost clocks input t = (Ok Committed, t') →
  input.(ci_refresh_token) = Some refresh → commit_token refresh = Some token →
  ∃ row, families t' !! token_key token = Some row ∧ stored_token token row ∧
    stored_contract refresh t' row.
Proof.
  intros Hk H Hin Htok. unfold commit_token_issuance in H.
  destruct (prepare_commit input) as [[[prepared expires_at] retain_until]|e] eqn:Hprep; [|done].
  apply prepare_commit_Ok in Hprep as (_ & _ & _ & Hprep). rewrite Hin in Hprep.
  destruct (cn_available c); simpl in H; [|by destruct lost].
  unfold transaction in H. destruct (commit_body _ _ _ _ _ _ _) as [[a [f' t2]]|e] eqn:Hbody.
  2: { destruct lost; [done|]. by destruct e. }
  assert (a = Committed ∧ t2 = t') as [-> ->]
    by (destruct (cn_commit c) as [[? [|]]|], lost; simpl in H; split; congruence).
  unfold commit_body, lock_and_recheck in Hbody. tx_inv.
  destruct (nazo_lock_token_principals input t) as [client_type|r'] eqn:Hlock.
  2: { apply lock_inactive in Hlock as [-> | ->]; by tx_inv. }
  rewrite Hin in *. tx_inv. match goal with H : redeem_single_use _ _ _ _ _ _ = Ok (?u, (_, ?t1)) |- _ =>
    assert (keys_ok t1) as Hk1; [apply redeem_families in H; unfold keys_ok; by rewrite H|];
    destruct u; simpl in *; [|by tx_inv] end.
  tx_inv. match goal with H : persist_refresh_token_on_connection _ _ _ _ _ _ _ _ = Ok (?p, _) |- _ =>
    destruct p as [[| |] ret]; rename H into Hper end; [|by tx_inv|].
  - match goal with H : finish_commit _ _ _ _ _ = _ |- _ => apply finish_Ok in H as [_ Hsame] end.
    eapply stored_same; [done|]. by eapply persist_stored.
  - rewrite Htok in *. unfold commit_reuse in *. by tx_inv.
Qed.

(** The contracts that the commits of a history issue are known. *)
Definition issues_known (h : history) : Prop :=
  ∀ c lost clocks input token contract r, (OpCommit c lost clocks input, r) ∈ h →
    input.(ci_refresh_token) = Some (IssueNew token contract) → known contract.

Lemma steps_tables_ok now t h now' t' :
  collision_free known → issues_known h → steps now t h now' t' → tables_ok known t → tables_ok known t'.
Proof.
  intros Hfree Hh Hs Hok.
  eapply (steps_invariant (fun _ => tables_ok known)) in Hs as (? & _ & _);
    [done|done| |by eapply tables_keys_ok|done].
  intros lo hi op r l t1 t2 _ Hin Hl _ Hc. apply (change_tables_ok known lo hi l); [done| |done].
  intros token contract ->. destruct Hl as (c & lost & clocks & input & -> & Hi). by eapply Hh.
Qed.

Lemma current_family_spec t key row :
  tables_ok known t → families t !! key = Some row →
  current_family t row.(fr_tenant_id) row.(fr_current_token_blake3) = Some row.
Proof.
  intros Hok Hr. unfold current_family. set (P := fun _ : RefreshFamilyRow => _ ∧ _).
  destruct (head _) as [row'|] eqn:Hh.
  - apply head_Some_elem_of, list_elem_of_filter in Hh as [[Ht Hd] Hin].
    apply list_elem_of_fmap in Hin as ([key' ?] & -> & Hin%elem_of_map_to_list). simpl in *.
    assert (key' = key) as -> by (by eapply to_digests). congruence.
  - apply head_None in Hh. assert (row ∈ filter P (snd <$> map_to_list (families t))) as Hin.
    { apply list_elem_of_filter. split; [done|]. apply list_elem_of_fmap. exists (key, row).
      split; [done|]. by apply elem_of_map_to_list. }
    rewrite Hh in Hin. by apply elem_of_nil in Hin.
Qed.

(** The contract of a stored token, as it is read back. *)
Lemma stored_contract_read t key row refresh :
  tables_ok known t → families t !! key = Some row → stored_contract refresh t row →
  (∀ token contract, refresh = IssueNew token contract → known contract) →
  ∃ value contract,
    contracts t !! (row.(fr_tenant_id), row.(fr_contract_blake3)) = Some value ∧
    contract_from_value value = Ok contract ∧ same_grant (commit_contract refresh) contract.
Proof.
  intros Hok Hr Hs Hknown. destruct refresh as [token contract|au rotation]; simpl in *.
  - destruct Hs as (w & Hw & Hd).
    destruct (fo_grant _ _ _ (to_families _ _ Hok _ _ Hr)) as (value & _ & _ & Hv & _).
    exists value. assert (contract_to_value contract = Ok value) as Hval.
    { eapply to_contracts; eauto. }
    destruct (contract_roundtrip _ _ Hval) as (c' & ? & ?). eauto.
  - destruct Hs as (value & Hv & Hc). exists value, (au_contract au). done.
Qed.

(** A token as it is presented. *)
Record presented_token (token : NewRefreshToken) (refresh : RefreshTokenCommit) (rt : RefreshToken)
    : Prop := {
  pt_sid : rt.(rt_id_token_sid) = token.(nt_id_token_sid);
  pt_member : rt.(rt_id) = token.(nt_member_id);
  pt_digest : rt.(rt_token_blake3) = blake3_hash token.(nt_raw_token);
  pt_tenant : rt.(rt_tenant_id) = token.(nt_tenant_id);
  pt_family : rt.(rt_token_family_id) = token.(nt_family_id);
  pt_client : rt.(rt_client_id) = token.(nt_client_id);
  pt_user : rt.(rt_user_id) = token.(nt_user_id);
  pt_contract : same_grant (commit_contract refresh) rt.(rt_contract);
  pt_audience : rt.(rt_audience) = token.(nt_audiences);
  pt_issued : rt.(rt_issued_at) = timestamptz token.(nt_issued_at);
  pt_expires : rt.(rt_expires_at) = timestamptz token.(nt_expires_at);
  pt_revoked : rt.(rt_revoked_at) = None;
  pt_dpop : rt.(rt_dpop_jkt) = token.(nt_dpop_jkt);
  pt_mtls : rt.(rt_mtls_x5t_s256) = token.(nt_mtls_x5t_s256);
  pt_attestation : rt.(rt_client_attestation_jkt) = token.(nt_client_attestation_jkt);
}.

(** A connection whose statements do not fail. *)
Definition healthy (c : Connection) : Prop := c.(cn_available) = true ∧ c.(cn_faults) = [].

Lemma source_matches_intro family contract au :
  family.(fr_current_member_id) = au.(au_member_id) →
  family.(fr_current_token_blake3) = au.(au_token_blake3) →
  family.(fr_client_id) = au.(au_client_id) → family.(fr_user_id) = au.(au_user_id) →
  family.(fr_contract_blake3) = au.(au_contract_key) → contract = au.(au_contract) →
  family.(fr_current_audience) = strings_to_value au.(au_current_audiences) →
  family.(fr_current_id_token_sid) = au.(au_id_token_sid) →
  family.(fr_dpop_jkt) = au.(au_dpop_jkt) → family.(fr_mtls_x5t_s256) = au.(au_mtls_x5t_s256) →
  family.(fr_client_attestation_jkt) = au.(au_client_attestation_jkt) →
  source_matches family contract au = true.
Proof.
  unfold source_matches. intros -> -> -> -> -> -> -> -> -> -> ->.
  by rewrite !Z.eqb_refl, !bool_decide_true.
Qed.

(** A stored token is read back by its raw text, and is usable until it
    expires. *)
Lemma stored_read c t token refresh row :
  tables_ok known t → healthy c → families t !! token_key token = Some row →
  stored_token token row → stored_contract refresh t row →
  (∀ token contract, refresh = IssueNew token contract → known contract) →
  ∃ rt, by_raw_refresh_token c token.(nt_tenant_id) token.(nt_raw_token) t = Ok (Some rt) ∧
    presented_token token refresh rt ∧
    (∀ at_, at_ < rt.(rt_expires_at) → usable at_ (authority rt) t).
Proof.
  intros Hok [Hav Hfl] Hrow Hst Hcon Hknown.
  destruct (stored_contract_read _ _ _ _ Hok Hrow Hcon Hknown) as (value & contract & Hv & Hc & Hsame).
  destruct (to_families _ _ Hok _ _ Hrow) as [_ Hd Hcd _ _].
  pose proof (current_family_spec _ _ _ Hok Hrow) as Hcur.
  assert (token_from_current row contract = Ok {|
    rt_id_token_sid := row.(fr_current_id_token_sid); rt_id := row.(fr_current_member_id);
    rt_token_blake3 := row.(fr_current_token_blake3); rt_tenant_id := row.(fr_tenant_id);
    rt_token_family_id := row.(fr_token_family_id); rt_client_id := row.(fr_client_id);
    rt_user_id := row.(fr_user_id); rt_contract_key := row.(fr_contract_blake3);
    rt_contract := contract; rt_audience := token.(nt_audiences);
    rt_issued_at := row.(fr_current_issued_at); rt_expires_at := row.(fr_current_expires_at);
    rt_revoked_at := row.(fr_revoked_at); rt_dpop_jkt := row.(fr_dpop_jkt);
    rt_mtls_x5t_s256 := row.(fr_mtls_x5t_s256);
    rt_client_attestation_jkt := row.(fr_client_attestation_jkt) |}) as Htok.
  { unfold token_from_current, digest32. rewrite Hd, Hcd, (st_audience _ _ Hst), strings_roundtrip. done. }
  eexists. split; [|split].
  - unfold by_raw_refresh_token, read, lookup_refresh_token, query. rewrite Hav, Hfl.
    rewrite <- (st_tenant _ _ Hst), <- (st_digest _ _ Hst), Hcur. simpl.
    rewrite Hv. unfold into_presentation, require_contract, parse_contract. simpl. rewrite Hc. simpl.
    rewrite Htok. reflexivity.
  - destruct Hst. split; simpl; done.
  - intros at_ Hat. simpl in Hat. exists row, value, contract. split_and!; try done.
    + rewrite <- Hrow. unfold authority_key, token_key. simpl. by rewrite (st_tenant _ _ Hst), (st_family _ _ Hst).
    + unfold active_at. rewrite (st_revoked _ _ Hst), (st_reuse _ _ Hst). by apply Z.ltb_lt.
    + apply source_matches_intro; try done. simpl. by rewrite (st_audience _ _ Hst).
Qed.

End stored.

(** ** The properties *)

Section properties.
Context `{D : Deployment}.

(** C15: Along every history of commits, revocations, recoveries and clean-ups,
    the token tables stay well-formed: every family has its key, digests of 32
    bytes, a timeline, a stored contract that reads back and an audience within
    it; no two families of a tenant have one current token; every spent proof has
    its family; a single-use key of a client has one issuance, kept at least as
    long as its access token. *)
Theorem token_tables_wellformed `{!DeploymentLaws} known now t h now' t' :
  collision_free known → issues_known known h → tables_ok known t →
  steps now t h now' t' → tables_ok known t'.
Proof. intros. by eapply steps_tables_ok. Qed.

(** C5: A refresh token is exchanged once, and once more at most when its
    response was lost.  After a committed rotation of a token, in a history whose
    generated members and token digests are new, a commit that presents the token
    again, as its source or as the original of a lost-response retry, succeeds
    only as such a retry: started within the retry window after the exchange,
    presenting the exchange's own successor, which is still the family's current
    token since no rotation of the family was committed in between, and replacing
    it.  A commit that is answered with a rotation conflict leaves the family
    compromised and active at no time. *)
Theorem refresh_token_exchanged_once now t h1 c lost clocks input au token h2 now1 t1
    now2 c' lost' clocks' input' au' rotation' r t2 :
  let h := h1 ++ (OpCommit c lost clocks input, Some (Ok Committed)) :: h2 in
  keys_ok t → digests_unique t → steps now t h now1 t1 → fresh_tokens t h →
  input.(ci_refresh_token) = Some (UseExisting au (Some token)) →
  commit_timed now1 now2 clocks' →
  input'.(ci_refresh_token) = Some (UseExisting au' rotation') →
  presents au au' rotation' →
  commit_token_issuance c' lost' clocks' input' t1 = (r, t2) →
  (r = Ok Committed → lost_response au token clocks.(tx_transition_at) h2 au' rotation' t2) ∧
  (r = Ok RotationConflict → ∃ family, families t2 !! authority_key au' = Some family ∧
     is_Some family.(fr_reuse_detected_at) ∧ ∀ at_, active_at at_ family = false).
Proof.
  intros h Hk Hu Hs Hfresh Hin Ht Hin' Hpres H.
  destruct (exchanged_since _ _ _ _ _ _ _ _ _ _ _ _ Hk Hu Hs Hfresh Hin) as [Hex Hk1].
  split; intros ->; [|by eapply conflict_compromised].
  apply (represented_retry now1 now2 _ _ _ _ t1 c' lost' clocks' input'); try done.
  intros e other row He Hrot Hrow. by eapply (rotated_since now t h1 c lost clocks input au token h2).
Qed.

(** C7: Two committed redemptions of one single-use grant key by one client have
    different deadlines: a grant, which has one deadline, is redeemed at most
    once, whatever the clean-up jobs reclaimed in between. *)
Theorem single_use_grant_redeemed_once `{!DeploymentLaws} now t h1 c lost clocks input h2
    c' lost' clocks' input' h3 now' t' key deadline deadline' :
  keys_ok t →
  steps now t (h1 ++ (OpCommit c lost clocks input, Some (Ok Committed)) ::
               h2 ++ (OpCommit c' lost' clocks' input', Some (Ok Committed)) :: h3) now' t' →
  mode_grant input.(ci_mode) = Some (key, deadline) →
  mode_grant input'.(ci_mode) = Some (key, deadline') →
  input'.(ci_client_id) = input.(ci_client_id) →
  deadline < deadline'.
Proof.
  intros Hk Hs Hm Hm' Hcl.
  apply steps_split in Hs as (now1 & t1 & now2 & t2 & Hs1 & Ht1 & Hp1 & Hs2).
  pose proof (steps_keys_ok _ _ _ _ _ Hs1 Hk) as Hk1.
  assert (keys_ok t2) as Hk2.
  { eapply perform_changes in Hp1 as (ls & Hc & _); [by eapply changes_keys_ok|done..]. }
  apply steps_split in Hs2 as (now3 & t3 & now4 & t4 & Hs3 & Ht2 & Hp2 & _).
  apply (perform_commit _ c lost clocks input) in Hp1; [|done].
  apply (perform_commit _ c' lost' clocks' input') in Hp2; [|done].
  eapply committed_receipt in Hp1; [|done|apply Ht1|done].
  eapply redeemed_again; [by eapply steps_keys_ok|apply Ht2| |done..].
  rewrite Hcl. eapply steps_receipt; [|done|by left]. done.
Qed.

(** C37: A family never gains authority: as long as its row is there it has the
    owner, the contract and the sender constraints it was created with, its
    audience only shrinks, and a revocation or a detected reuse is permanent and
    ends its rotation. *)
Theorem refresh_family_narrows now t h now' t' key row :
  keys_ok t → steps now t h now' t' → (∀ op r, (op, r) ∈ h → ¬ creates key op) →
  families t !! key = Some row →
  families t' !! key = None ∨ ∃ row', families t' !! key = Some row' ∧ narrowed t t' row row'.
Proof. apply steps_narrowed. Qed.

(** C38: The bounds on a user's tokens hold along every history: at most ten
    active families of a user and client at any later time, and at most 64 spent
    proofs of a sender-constrained family. *)
Theorem refresh_tokens_bounded now t h now' t' :
  keys_ok t → capacity now t → proofs_ok t → steps now t h now' t' →
  capacity now' t' ∧ proofs_ok t'.
Proof.
  intros Hk Hcap Hpr Hs.
  eapply (steps_invariant (fun now t => capacity now t ∧ proofs_ok t)) in Hs as (? & _ & _); try done.
  - intros lo hi u Hle [Hc Hp]. split; [|done]. intros ? ? ? ? ?. apply Hc. lia.
  - intros lo hi op r l t1 t2 _ _ _ _ Hc [? ?].
    split; [by eapply change_capacity|by eapply change_proofs_ok].
Qed.


(** C39: A committed refresh token reads back: on a connection that works, its
    raw text gives the token with the member, the owner, the audience, the times,
    the sender constraints and the grant that were committed, not revoked, and
    the authority of that token is accepted until it expires. *)
Theorem committed_refresh_token_reads_back `{!DeploymentLaws} known now t h c lost clocks input now' t'
    refresh token reader :
  collision_free known →
  issues_known known (h ++ [(OpCommit c lost clocks input, Some (Ok Committed))]) →
  tables_ok known t →
  steps now t (h ++ [(OpCommit c lost clocks input, Some (Ok Committed))]) now' t' →
  input.(ci_refresh_token) = Some refresh → commit_token refresh = Some token →
  healthy reader →
  ∃ rt, by_raw_refresh_token reader token.(nt_tenant_id) token.(nt_raw_token) t' = Ok (Some rt) ∧
    presented_token token refresh rt ∧
    (∀ at_, at_ < rt.(rt_expires_at) → usable at_ (authority rt) t').
Proof.
  intros Hfree Hh Hok Hs Hin Htok Hr.
  assert (tables_ok known t') as Hok' by (by eapply steps_tables_ok).
  pose proof (tables_keys_ok _ _ Hok) as Hk.
  apply steps_split in Hs as (now1 & t1 & now2 & t2 & Hs1 & Ht1 & Hp & Hs2).
  inversion Hs2 as [E|h0 ? ? ? ? ? ? ? ? ? E]; [subst|by destruct h0].
  apply (perform_commit _ c lost clocks input) in Hp; [|done].
  eapply commit_stored in Hp as (row & Hrow & Hst & Hcon); [|by eapply steps_keys_ok|done..].
  eapply stored_read; [done..|]. intros token' contract ->. eapply Hh; [|done].
  apply elem_of_app. right. by apply list_elem_of_singleton.
Qed.

End properties.

(** ** A deployment and a history *)

(** The text cut or filled to [n] bytes. *)
Fixpoint fit (n : nat) (s : string) : string :=
  match n, s with
  | O, _ => EmptyString
  | S n, EmptyString => String " "%char (fit n s)
  | S n, String a s => String a (fit n s)
  end.

Lemma fit_length n s : String.length (fit n s) = n.
Proof. revert s. induction n; intros [|a s]; simpl; auto. Qed.

Definition option_to_value (o : option string) : Value := json_option JString o.

Definition option_from_value (v : Value) : option (option string) :=
  match v with JNull => Some None | JString s => Some (Some s) | _ => None end.

Definition example_to_value (c : RefreshContract) : Value :=
  let a := c.(ct_authentication_context) in
  JArray [JString c.(ct_subject); strings_to_value c.(ct_scopes); strings_to_value c.(ct_audiences);
    c.(ct_authorization_details); JNumber (PosInt a.(ac_version)); JString a.(ac_issuer);
    JString a.(ac_audience); JNumber (NegInt a.(ac_auth_time)); strings_to_value a.(ac_amr);
    option_to_value a.(ac_oidc_sid); option_to_value a.(ac_acr)].

Definition example_from_value (v : Value) : result RefreshContract string :=
  match v with
  | JArray [JString subject; scopes; audiences; details; JNumber (PosInt version); JString issuer;
            JString audience; JNumber (NegInt auth_time); amr; sid; acr] =>
      ok_or (scopes ← strings_from_value scopes; audiences ← strings_from_value audiences;
             amr ← strings_from_value amr; sid ← option_from_value sid; acr ← option_from_value acr;
             Some {| ct_subject := subject; ct_scopes := scopes; ct_audiences := audiences;
                     ct_authorization_details := details;
                     ct_authentication_context :=
                       {| ac_version := version; ac_issuer := issuer; ac_audience := audience;
                          ac_auth_time := auth_time; ac_amr := amr; ac_oidc_sid := sid;
                          ac_acr := acr; ac_userinfo_claim_requests := [];
                          ac_id_token_claim_requests := [] |} |}) "invalid contract"
  | _ => Err "invalid contract"
  end.

Lemma option_value_roundtrip o : option_from_value (option_to_value o) = Some o.
Proof. by destruct o. Qed.

#[local] Arguments strings_from_value : simpl never.
#[local] Arguments strings_to_value : simpl never.
#[local] Arguments option_from_value : simpl never.
#[local] Arguments option_to_value : simpl never.

Lemma example_roundtrip c :
  ∃ c', example_from_value (example_to_value c) = Ok c' ∧ same_grant c c'.
Proof.
  unfold example_from_value, example_to_value. simpl.
  rewrite !strings_roundtrip, !option_value_roundtrip. simpl. by eexists.
Qed.

#[local] Instance example : Deployment := {
  blake3_hash := fit 32;
  to_hex s := s;
  uuid_to_string u := if u =? 5 then "user" else "id";
  uuid_parse_str _ := None;
  error_text _ := "database";
  timestamptz at_ := at_ / 1000 * 1000;
  constraints _ := None;
  contract_to_value c := Ok (example_to_value c);
  contract_to_writer c := Ok c.(ct_subject);
  contract_from_value := example_from_value;
  payload_within_limit _ := true;
}.

#[local] Instance example_laws : DeploymentLaws.
Proof.
  split.
  - intros s. change (Z.of_nat (String.length (fit 32 s)) = 32). by rewrite fit_length.
  - intros a b H. change (a / 1000 * 1000 ≤ b / 1000 * 1000).
    apply Z.mul_le_mono_nonneg_r; [lia|]. by apply Z.div_le_mono.
  - intros c v [= <-]. apply example_roundtrip.
Qed.

Lemma steps_cons `{Deployment} now t op now1 r t1 h now' t' :
  timed now now1 op → perform op t = (r, t1) → steps now1 t1 h now' t' →
  steps now t ((op, r) :: h) now' t'.
Proof.
  intros Ht Hp. induction 1 as [|h now2 t2 op' r' now3 t3 Hs IH Ht' Hp'].
  - apply (steps_snoc _ _ [] now t); [constructor|done..].
  - rewrite app_comm_cons. by eapply steps_snoc.
Qed.

(** Operations with the times they end at, one after another. *)
Fixpoint run (now : DateTime) (ops : list (DateTime * Operation)) (t : Tables)
    : history * (DateTime * Tables) :=
  match ops with
  | [] => ([], (now, t))
  | (now1, op) :: ops =>
      let '(r, t1) := perform op t in
      let '(h, last) := run now1 ops t1 in ((op, r) :: h, last)
  end.

Fixpoint all_timed (now : DateTime) (ops : list (DateTime * Operation)) : Prop :=
  match ops with [] => True | (now1, op) :: ops => timed now now1 op ∧ all_timed now1 ops end.

Lemma run_steps now ops t :
  all_timed now ops → steps now t (run now ops t).1 (run now ops t).2.1 (run now ops t).2.2.
Proof.
  revert now t. induction ops as [|[now1 op] ops IH]; intros now t; simpl; [constructor|].
  intros [Ht Hts]. destruct (perform op t) as [r t1] eqn:Hp. specialize (IH now1 t1 Hts).
  destruct (run now1 ops t1) as [h [now2 t2]]. by eapply steps_cons.
Qed.

(** A confidential client with one user; the user's code is redeemed, its
    refresh token rotated, and the first token presented again. *)
Definition example_tables : Tables := {|
  clients := {[ (1, 2) := {| cl_client_id := "app"; cl_is_active := true;
    cl_access_token_epoch := 0; cl_client_type := "confidential" |} ]};
  users := {[ (1, 5) := {| us_is_active := true; us_access_token_epoch := 0 |} ]};
  contracts := ∅; families := ∅; spent := ∅; issuances := ∅; bindings := ∅; revocations := ∅;
  recoveries := ∅; audits := ∅ |}.

Definition example_contract : RefreshContract := {|
  ct_subject := "user"; ct_scopes := ["openid"]; ct_audiences := ["api"; "mail"];
  ct_authorization_details := JArray [];
  ct_authentication_context := {| ac_version := 2; ac_issuer := "issuer"; ac_audience := "app";
    ac_auth_time := 100; ac_amr := ["pwd"]; ac_oidc_sid := None; ac_acr := None;
    ac_userinfo_claim_requests := []; ac_id_token_claim_requests := [] |} |}.

Definition example_token (raw : string) (member : Uuid) (source : option Uuid) (audiences : list string)
    : NewRefreshToken := {|
  nt_raw_token := raw; nt_member_id := member; nt_tenant_id := 1; nt_family_id := 7;
  nt_rotated_from_id := source; nt_lost_response_retry := None; nt_client_id := 2;
  nt_user_id := Some 5; nt_audiences := audiences; nt_issued_at := 1000 * NANOS;
  nt_expires_at := 9000 * NANOS; nt_id_token_sid := None; nt_dpop_jkt := Some "key";
  nt_mtls_x5t_s256 := None; nt_client_attestation_jkt := None |}.

Definition example_authority : RefreshTokenAuthority := {|
  au_tenant_id := 1; au_client_id := 2; au_user_id := Some 5; au_family_id := 7;
  au_member_id := 101; au_token_blake3 := blake3_hash "first"; au_contract_key := blake3_hash "user";
  au_contract := example_contract; au_current_audiences := ["api"; "mail"];
  au_id_token_sid := None; au_dpop_jkt := Some "key"; au_mtls_x5t_s256 := None;
  au_client_attestation_jkt := None |}.

Definition example_input (issuance_id : Uuid) (jti : string) (mode : TokenIssuanceMode)
    (refresh : option RefreshTokenCommit) : CommitTokenIssuance := {|
  ci_authorization_id := None;
  ci_principal_state := {| ps_client_epoch := 0; ps_user_epoch := Some 0; ps_subject_bound := false |};
  ci_subject := "user"; ci_issuance_id := issuance_id; ci_tenant_id := 1; ci_client_id := 2;
  ci_user_id := Some 5; ci_mode := mode; ci_access_token_jti := jti;
  ci_access_token_expires_at := 2000; ci_refresh_token := refresh; ci_native_sso_source := None;
  ci_audit_fields := {| af_client_id := "app"; af_subject_hash := "hash"; af_scope := "openid";
    af_audience := ["api"] |} |}.

Definition example_connection : Connection :=
  {| cn_available := true; cn_faults := []; cn_commit := None |}.

Definition example_clocks (now : DateTime) : Clocks := {|
  tx_started := now; tx_inserted := now; tx_transition_at := now; tx_source_at := now;
  tx_audit_at := now; tx_event_id := 900; tx_retirement_ids := [] |}.

Definition example_commit (now : DateTime) (input : CommitTokenIssuance) : Operation :=
  OpCommit example_connection None (example_clocks now) input.

Definition issue_input : CommitTokenIssuance :=
  example_input 21 "jti-1" (SingleUse "code" (1500 * NANOS))
    (Some (IssueNew (example_token "first" 101 None ["api"; "mail"]) example_contract)).

Definition rotate_input (member : Uuid) : CommitTokenIssuance :=
  example_input (member - 80) "jti-2" Fresh
    (Some (UseExisting example_authority (Some (example_token "second" member (Some 101) ["api"])))).

(** The token and the request of a client that lost the rotation's response. *)
Definition retry_token : NewRefreshToken := {|
  nt_raw_token := "third"; nt_member_id := 103; nt_tenant_id := 1; nt_family_id := 7;
  nt_rotated_from_id := Some 102;
  nt_lost_response_retry := Some {| lr_original_id := 101; lr_original_blake3 := blake3_hash "first";
    lr_retry_started_at := 1150 * NANOS |};
  nt_client_id := 2; nt_user_id := Some 5; nt_audiences := ["api"]; nt_issued_at := 1150 * NANOS;
  nt_expires_at := 9000 * NANOS; nt_id_token_sid := None; nt_dpop_jkt := Some "key";
  nt_mtls_x5t_s256 := None; nt_client_attestation_jkt := None |}.

Definition retry_authority : RefreshTokenAuthority := {|
  au_tenant_id := 1; au_client_id := 2; au_user_id := Some 5; au_family_id := 7;
  au_member_id := 102; au_token_blake3 := blake3_hash "second"; au_contract_key := blake3_hash "user";
  au_contract := example_contract; au_current_audiences := ["api"];
  au_id_token_sid := None; au_dpop_jkt := Some "key"; au_mtls_x5t_s256 := None;
  au_client_attestation_jkt := None |}.

Definition retry_input : CommitTokenIssuance :=
  example_input 24 "jti-3" Fresh (Some (UseExisting retry_authority (Some retry_token))).

Definition issue_op : Operation := example_commit (1000 * NANOS) issue_input.
Definition rotate_op : Operation := example_commit (1100 * NANOS) (rotate_input 102).

Definition example_ops : list (DateTime * Operation) :=
  [(1000 * NANOS, issue_op); (1100 * NANOS, rotate_op);
   (1200 * NANOS, OpCleanupIssuances (1200 * NANOS) [21])].

Definition example_run (n : nat) : history * (DateTime * Tables) :=
  run 0 (take n example_ops) example_tables.

Definition example_history : history :=
  [(issue_op, Some (Ok Committed)); (rotate_op, Some (Ok Committed));
   (OpCleanupIssuances (1200 * NANOS) [21], None)].

Lemma example_responses n : (example_run n).1 = take n example_history.
Proof. do 4 (destruct n as [|n]; [vm_compute; reflexivity|]). vm_compute. reflexivity. Qed.

Definition example_now (n : nat) : DateTime :=
  match n with O => 0 | 1%nat => 1000 * NANOS | 2%nat => 1100 * NANOS | _ => 1200 * NANOS end.

Definition example_state (n : nat) : Tables := (example_run n).2.2.

Lemma example_steps n :
  steps 0 example_tables (take n example_history) (example_now n) (example_state n).
Proof.
  rewrite <- example_responses. assert ((example_run n).2.1 = example_now n) as <-.
  { do 4 (destruct n as [|n]; [vm_compute; reflexivity|]). vm_compute. reflexivity. }
  apply run_steps. assert (all_timed 0 example_ops) as H by (vm_compute; repeat split; discriminate).
  do 4 (destruct n as [|n]; simpl; [by repeat split; try apply H|]). exact H.
Qed.

Lemma example_free : collision_free (eq example_contract).
Proof. by intros c c' w w' <- <- _ _ _. Qed.

Lemma example_known n : issues_known (eq example_contract) (take n example_history).
Proof.
  intros c lost clocks input token contract r Hin.
  apply elem_of_take in Hin as (i & Hin & _). apply list_elem_of_lookup_2 in Hin.
  unfold example_history in Hin. rewrite !elem_of_cons, elem_of_nil in Hin.
  unfold issue_op, rotate_op, example_commit in Hin.
  destruct Hin as [E|[E|[E|[]]]]; intros Hr; simplify_eq; by injection Hr.
Qed.

Lemma example_tables_ok : tables_ok (eq example_contract) example_tables.
Proof. by split. Qed.

Lemma example_keys_ok n : keys_ok (example_state n).
Proof.
  eapply tables_keys_ok, steps_tables_ok; [apply example_free|apply (example_known n)|apply example_steps|].
  apply example_tables_ok.
Qed.

Lemma example_fresh : fresh_tokens example_tables example_history.
Proof.
  split; [| |by intros].
  - change (NoDup [101; 102]). apply NoDup_cons. split; [set_solver|apply NoDup_singleton].
  - apply (bool_decide_eq_true_1 _). vm_compute. reflexivity.
Qed.

Lemma example_tables_keys : keys_ok example_tables.
Proof. by intros key row. Qed.

Lemma token_tables_wellformed_witness :
  tables_ok (eq example_contract) (example_state 3).
Proof.
  apply (token_tables_wellformed (eq example_contract) 0 example_tables (take 3 example_history)
    (example_now 3)).
  - apply example_free.
  - apply example_known.
  - apply example_tables_ok.
  - apply example_steps.
Defined.

Lemma commit_result c lost clocks input t r :
  (commit_token_issuance c lost clocks input t).1 = r →
  commit_token_issuance c lost clocks input t = (r, (commit_token_issuance c lost clocks input t).2).
Proof. intros <-. by destruct (commit_token_issuance _ _ _ _ _). Qed.

(** The first token, presented again: the family is compromised.  A lost
    response: the second token, which the client never saw, is replaced. *)
Lemma refresh_token_exchanged_once_witness :
  (∃ t', commit_token_issuance example_connection None (example_clocks (1300 * NANOS))
     (rotate_input 103) (example_state 3) = (Ok RotationConflict, t') ∧
   ∃ family, families t' !! (1, 7) = Some family ∧ is_Some family.(fr_reuse_detected_at) ∧
     ∀ at_, active_at at_ family = false) ∧
  ∃ t', commit_token_issuance example_connection None (example_clocks (1300 * NANOS))
     retry_input (example_state 3) = (Ok Committed, t') ∧
   lost_response example_authority (example_token "second" 102 (Some 101) ["api"]) (1100 * NANOS)
     [(OpCleanupIssuances (1200 * NANOS) [21], None)] retry_authority (Some retry_token) t'.
Proof.
  pose proof (refresh_token_exchanged_once 0 example_tables [(issue_op, Some (Ok Committed))]
    example_connection None (example_clocks (1100 * NANOS)) (rotate_input 102) example_authority
    (example_token "second" 102 (Some 101) ["api"])
    [(OpCleanupIssuances (1200 * NANOS) [21], None)] (example_now 3) (example_state 3)
    (1300 * NANOS) example_connection None (example_clocks (1300 * NANOS))) as Hmain.
  specialize (Hmain) with (1 := example_tables_keys) (2 := to_digests _ _ example_tables_ok)
    (3 := example_steps 3) (4 := example_fresh) (5 := eq_refl).
  assert (commit_timed (example_now 3) (1300 * NANOS) (example_clocks (1300 * NANOS))) as Ht
    by (repeat split; discriminate).
  split.
  - assert ((commit_token_issuance example_connection None (example_clocks (1300 * NANOS))
      (rotate_input 103) (example_state 3)).1 = Ok RotationConflict) as H by (vm_compute; reflexivity).
    eexists. split; [apply commit_result, H|].
    refine (proj2 (Hmain (rotate_input 103) example_authority
      (Some (example_token "second" 103 (Some 101) ["api"])) (Ok RotationConflict) _ Ht eq_refl _
      (commit_result _ _ _ _ _ _ H)) eq_refl).
    split; [reflexivity|by left].
  - assert ((commit_token_issuance example_connection None (example_clocks (1300 * NANOS))
      retry_input (example_state 3)).1 = Ok Committed) as H by (vm_compute; reflexivity).
    eexists. split; [apply commit_result, H|].
    refine (proj1 (Hmain retry_input retry_authority (Some retry_token) (Ok Committed) _ Ht eq_refl _
      (commit_result _ _ _ _ _ _ H)) eq_refl).
    split; [reflexivity|]. right; right. exists retry_token. eexists. repeat split; reflexivity.
Defined.

(** A grant redeemed, its receipt reclaimed after its deadline, and a later
    grant redeemed under the same key. *)
Definition again_op : Operation :=
  example_commit (3100 * NANOS) (example_input 22 "jti-3" (SingleUse "code" (4000 * NANOS)) None).

Definition again_ops : list (DateTime * Operation) :=
  [(1000 * NANOS, issue_op);
   (3000 * NANOS, OpCleanupIssuances (3000 * NANOS) [21]); (3100 * NANOS, again_op)].

Lemma again_responses :
  (run 0 again_ops example_tables).1 =
  [(issue_op, Some (Ok Committed)); (OpCleanupIssuances (3000 * NANOS) [21], None);
   (again_op, Some (Ok Committed))].
Proof. vm_compute. reflexivity. Qed.

Lemma single_use_grant_redeemed_once_witness :
  (run 0 again_ops example_tables).1 =
    [(issue_op, Some (Ok Committed)); (OpCleanupIssuances (3000 * NANOS) [21], None);
     (again_op, Some (Ok Committed))] ∧ 1500 * NANOS < 4000 * NANOS.
Proof.
  split; [apply again_responses|].
  apply (single_use_grant_redeemed_once 0 example_tables [] example_connection None
    (example_clocks (1000 * NANOS)) issue_input [(OpCleanupIssuances (3000 * NANOS) [21], None)]
    example_connection None (example_clocks (3100 * NANOS))
    (example_input 22 "jti-3" (SingleUse "code" (4000 * NANOS)) None) []
    (run 0 again_ops example_tables).2.1 (run 0 again_ops example_tables).2.2 "code").
  - apply example_tables_keys.
  - pose proof (run_steps 0 again_ops example_tables) as Hs. rewrite again_responses in Hs.
    apply Hs. vm_compute. repeat split; discriminate.
  - reflexivity.
  - reflexivity.
  - reflexivity.
Defined.

Definition narrow_run : history * (DateTime * Tables) :=
  run (example_now 1) [(1100 * NANOS, rotate_op)] (example_state 1).

Lemma narrow_responses : narrow_run.1 = [(rotate_op, Some (Ok Committed))].
Proof. vm_compute. reflexivity. Qed.

Lemma narrow_found : is_Some (families (example_state 1) !! (1, 7)).
Proof. vm_compute. eauto. Qed.

Lemma refresh_family_narrows_witness :
  ∃ row, families (example_state 1) !! (1, 7) = Some row ∧
    (families narrow_run.2.2 !! (1, 7) = None ∨
     ∃ row', families narrow_run.2.2 !! (1, 7) = Some row' ∧
       narrowed (example_state 1) narrow_run.2.2 row row').
Proof.
  destruct narrow_found as [row Hrow]. exists row. split; [exact Hrow|].
  apply (refresh_family_narrows (example_now 1) (example_state 1) [(rotate_op, Some (Ok Committed))]
    narrow_run.2.1).
  - apply example_keys_ok.
  - rewrite <- narrow_responses. apply run_steps. vm_compute. repeat split; discriminate.
  - intros op r [= -> ->]%list_elem_of_singleton (c & lost & clocks & input & token & contract & E & Hin & _).
    unfold rotate_op, example_commit in E. injection E as <- <- <- <-. discriminate.
  - exact Hrow.
Defined.

Lemma example_capacity : capacity 0 example_tables.
Proof. intros ? ? ? ? _. vm_compute. discriminate. Qed.

Lemma refresh_tokens_bounded_witness :
  capacity (example_now 3) (example_state 3) ∧ proofs_ok (example_state 3).
Proof.
  apply (refresh_tokens_bounded 0 example_tables (take 3 example_history)).
  - apply example_tables_keys.
  - apply example_capacity.
  - by split.
  - apply example_steps.
Defined.


Lemma committed_refresh_token_reads_back_witness :
  ∃ rt, by_raw_refresh_token example_connection 1 "second" (example_state 2) = Ok (Some rt) ∧
    rt.(rt_id) = 102 ∧ usable (1300 * NANOS) (authority rt) (example_state 2).
Proof.
  destruct (committed_refresh_token_reads_back (eq example_contract) 0 example_tables
    [(issue_op, Some (Ok Committed))] example_connection None (example_clocks (1100 * NANOS))
    (rotate_input 102) (example_now 2) (example_state 2)
    (UseExisting example_authority (Some (example_token "second" 102 (Some 101) ["api"])))
    (example_token "second" 102 (Some 101) ["api"]) example_connection) as (rt & Hr & Hp & Hu).
  - apply example_free.
  - apply (example_known 2).
  - apply example_tables_ok.
  - apply (example_steps 2).
  - reflexivity.
  - reflexivity.
  - by split.
  - exists rt. split; [exact Hr|]. split; [apply (pt_member _ _ _ Hp)|].
    apply Hu. rewrite (pt_expires _ _ _ Hp). reflexivity.
Defined.
